(* ===== verification/_CoqProject ===== *)
-Q . S2P
Prelude.v
GoStrings.v
World.v
GoPath.v
Srv.v
Utils.v
Stats.v
Config.v
ConfigLoad.v
ConfigLookup.v
ConfigDump.v
Limiter.v
LimiterSpec.v
CacheKeyPool.v
CountSpec.v
Redis.v
RedisSpec.v
RedisLimit.v
Simulated.v
RedisWindow.v
RedisStats.v
RedisCache.v
RedisStop.v
RedisConcurrent.v
Tls.v
Trace.v
Settings.v
SettingsSpec.v
CertProvider.v
Health.v
Service.v
ServiceSpec.v
ServiceTheorems.v
ServiceTypes.v
Memcached.v
MemcachedSpec.v
ReadOnly.v
MemcachedAsync.v
ServiceConcurrent.v
MemcachedServers.v
Provider.v
ProviderSpec.v
ExampleXds.v
ProviderNew.v
Dogstats.v
Reporting.v
Driver.v
Server.v
ServerStart.v
ServerLife.v
Runner.v
RunnerSpec.v
Commands.v
