(* ===== verification/Prelude.v ===== *)
(** * Ratelimit: a verification library for the Envoy rate limit service

    The program is a gRPC and HTTP service that decides, for each request, which
    of its descriptors are over their rate limit.  Its parts and their
    interaction:

    - [main] reads the settings from the environment, with the TLS files they
      name, chooses a statistics sink, builds the server, the limiter and the
      service, and starts the gRPC, HTTP and debug listeners;
    - a provider (files watched on disk, or an xDS stream) reads configurations
      and sends the service an update event: a loaded configuration or an error;
    - the configuration is a tree of descriptors built from YAML; [GetLimit]
      finds the limit of a request's descriptor in it;
    - the service looks up the limits of a request, drops the replaced and the
      unlimited ones, asks its backend, and summarizes the answers;
    - the backend (redis or memcached) counts the hits on a key per limit and
      window; a shared base limiter turns the count into a verdict and counts
      statistics;
    - the health checker combines the state of redis, of the configuration and
      of the process for both health endpoints;
    - a certificate provider reloads the certificate of the gRPC endpoint.

    ** How the code is modelled

    Go code is a function in the monad [M W] of this file: it transforms the
    state [W] and returns, panics with a value ([panic]) or exits the process.
    [recover] catches panics, [deferring] is [defer], [range] is a loop over a slice with its index,
    [index] the bounds-checked access.  Fixed-width integers are values of [Z]
    with the wrap-around written out ([u32], [u64], [i64]).  The state is
    [World E] (file [World]): the heap of [RateLimit] objects (pointers matter:
    [GetLimit] mutates statistics in place), the statistics counters, and the
    outside world [E].  Libraries and services are operations of [E] given by
    type classes ([TimeSource], [JitterRand], [FreeCache], [Radix], [RadixNew],
    [Memcache], [MemcacheServers], [Envconfig], [FileSystem], [X509],
    [RuntimeLoader], [Otel], [Network], [GrpcClient]), or function parameters (the
    YAML and protobuf codecs, regular expressions); what is assumed of them are
    classes of laws ([EnvLaws], [RedisLaws], [MemcacheLaws], and [MemcacheUp] where
    memcached must answer) that file [Simulated] and the witnesses instantiate with
    concrete functions.  The interfaces between
    components are classes too: [RateLimitCache] with its laws [CacheLaws], which
    redis and memcached both keep and the service is proved against, and
    [EnvSettings], which the settings' own code implements.  [wp Err m w Q] says
    that [m] run in [w] either returns with [Q] or panics with an error in [Err];
    it never exits.

    ** Files

    - [Prelude], [GoStrings], [GoPath]: this file; the [strings], [strconv] and
      [filepath] functions.
    - [World], [Utils], [Stats], [Srv]: shared types; [src/utils]; [src/stats];
      [src/srv].
    - [Config]: [src/config/config_impl.go] (load and lookup).  [ConfigLoad]:
      loading succeeds exactly on valid configurations and builds a tree that
      represents the YAML.  [ConfigLookup]: [GetLimit] selects what the matching
      rules, stated on the YAML, select; overrides; unknown domains; which
      requests share the statistics of a limit.
      [ConfigDump]: the debug dump shows the configuration.
    - [Limiter]: [src/limiter] (cache keys, the verdict).  [LimiterSpec]: the
      verdict and every statistic from exact counts; keys identify windows; the
      promise [CacheLaws] of a backend to the service.  [CacheKeyPool]: the shared
      buffers in which concurrent requests build their keys.
    - [CountSpec]: the abstract fixed window and the view of the counters.
    - [Redis]: [src/redis/fixed_cache_impl.go] and the commands of
      [driver_impl.go].  [RedisSpec], [RedisLimit], [RedisWindow]: the laws of
      redis, each phase of [DoLimit], and the theorem that a sequence of requests
      is answered by the running total of hits.  [RedisStats]: what such a sequence
      adds to the statistics.  [RedisCache]: the redis limiter
      keeps [CacheLaws] in both increment modes.  [RedisStop]: in the mode that
      stops increments, a rejected request is charged only where it passed, and
      for a single descriptor the mode makes no difference.
      [RedisConcurrent]: requests interleaved over replicas that share a redis.
    - [Driver]: [src/redis/driver_impl.go] and [cache_impl.go], construction of
      clients and limiter, the pool callbacks.
    - [Memcached], [MemcachedSpec], [MemcachedServers]: [src/memcached], the same
      window when increments are flushed between requests, what is let through
      when a read fails, the worker pool, the client and its server list.  [MemcachedAsync]: requests interleaved with the
      increments of others, call by call.
    - [Tls], [Settings], [SettingsSpec]: [src/utils/tls.go] and [src/settings],
      every variable with its default, and the connections they secure, with the
      contents of the files they name.
    - [CertProvider], [Trace]: [src/provider/cert_provider.go]; [src/trace].
    - [Health]: [src/server/health.go].
    - [Service], [ServiceSpec], [ServiceTheorems], [ServiceTypes]:
      [src/service/ratelimit.go], proved against [CacheLaws] for any backend, and
      the wire types of its responses.  [ServiceConcurrent]: requests served while
      configurations are installed; [ReadOnly]: what its code leaves unchanged,
      also when it panics, in the class [CacheKeeps] of both backends.
    - [Provider], [ProviderSpec], [ProviderNew]: key validation, the xDS
      translation, the file and xDS providers, the xDS connection loop, and their
      construction.  [ExampleXds]: the example server of [examples/].
    - [Dogstats], [Reporting]: [src/godogstats], [src/metrics] and the gauges of
      [src/limiter/local_cache_stats.go].
    - [Server], [ServerStart]: the JSON endpoint, client certificates, addresses,
      shutdown; construction and start of the server.  [ServerLife]: [Start],
      [Stop], the signals and the requests as interleaved threads.
    - [Runner], [RunnerSpec]: [src/service_cmd], where the parts meet.
    - [Commands]: the configuration check and the client.

    ** What the theorems show

    - Admission: within a window requests are answered by the running total of
      their hits, for redis (any pipelining mode, local cache, jitter, per-second
      client) and for memcached (flushed); for redis the limit also holds over
      any interleaving of requests on any number of replicas, and for memcached
      it is passed by no more than the hits in flight.  The statistics of the
      limit add up to the hits.
    - Decision: the service, over any backend that keeps its promise, answers
      each descriptor by the limit the YAML gives it, with numbers that fit their
      fields, and never panics on a well-formed request (overrides of known
      units); while configurations change, by one that was in force meanwhile, and
      only an override of unknown unit or unreadable settings can end the process;
      the JSON endpoint reports that decision.
    - Configuration: valid sets load, are looked up by the documented rules and
      dumped as they are; an update installs a valid configuration and otherwise
      changes nothing but a statistic, unless the settings cannot be read, the one
      panic of the update loop; the offline check agrees with the service.
    - Start: a process that reaches its listeners serves the configuration of its
      files with the backend, clients, certificates and routes the settings ask
      for; which clients it lets in over TLS.
    - Termination: the worker pool drains and leaves no goroutine behind; a
      shutdown answers the requests it has accepted and ends the process.
    - Health, certificates, server names, metric names: the functional behaviour
      of each.
    - Defects found by modelling are stated as theorems about the code as it is.

    ** Bounds and fuel

    Loops are structural, over slices or trees.  Only [Split] takes fuel: the
    length of the string, enough because each round consumes a byte.  Theorems on
    counts assume that the hits of a window stay below 2^32 (2^31 for
    memcached, which parses signed numbers), the widths of the code.  Expiration
    jitter is at most 2^62 seconds so that the expiration does not overflow
    (2000000 for memcached, which takes longer expirations for absolute times).
    The memcached theorems on counts also assume [MemcacheUp], that calls with
    legal keys (at most 250 bytes, no blanks) meet no error, and a legal key; what
    happens to an illegal one is [DoLimit_illegal_key].
    The sequential theorems about one limiter assume that between two of its
    operations the counters are changed by nobody else; [RedisConcurrent] lifts
    this for redis in its default mode and [MemcachedAsync] for memcached, where
    [B] bounds the hits answered but not yet counted when a count is read.  The
    length of a shutdown is bounded by [ServerLife.work], the sum of the steps
    each thread has left and the requests being served.

    ** Not modelled

    Log messages and spans; what gRPC, HTTP and the TLS library do with what they
    are configured with, beyond [server_handshake]; the handlers of the pprof and
    expvar endpoints; the file watcher of goruntime, which is represented by the
    snapshots it delivers; flag parsing; the snapshot cache and the discovery
    server of go-control-plane; the accessors that return a field, and interface
    declarations, for which a field or a class stands; the mocks and helpers of the
    tests.  Of statistics, the
    periodic flush of the store is left out, the sink it flushes to is modelled.
    Locks are taken as atomicity of the sections they protect; the header fields
    that the service reads without its lock are read in one step.  [float32]
    arithmetic of the near-limit ratio is computed with the
    standard library's specification floats.  Fairness of the Go scheduler is not
    assumed: the concurrent parts (worker pool, xDS loop, pool callbacks,
    replicas, tasks in flight, requests during updates, key buffers, the life of
    the process) are step relations and the theorems hold for every interleaving. *)

From stdpp Require Export gmap strings pretty list.


#[local] Open Scope Z_scope.

(** ** Machine integers

    Go's fixed-width integers are values of [Z] in range; every operation that
    can leave the range is followed by the explicit wrap-around. *)

Definition MaxUint32 : Z := 2 ^ 32 - 1.

Definition u32 (z : Z) : Z := z `mod` 2 ^ 32.
Definition u64 (z : Z) : Z := z `mod` 2 ^ 64.
Definition i64 (z : Z) : Z := (z + 2 ^ 63) `mod` 2 ^ 64 - 2 ^ 63.
Definition i32 (z : Z) : Z := (z + 2 ^ 31) `mod` 2 ^ 32 - 2 ^ 31.

Definition is_u32 (z : Z) : Prop := 0 <= z < 2 ^ 32.
Definition is_u64 (z : Z) : Prop := 0 <= z < 2 ^ 64.
Definition is_i64 (z : Z) : Prop := - 2 ^ 63 <= z < 2 ^ 63.

#[export] Instance is_u32_dec z : Decision (is_u32 z).
Proof. unfold is_u32; apply _. Defined.
#[export] Instance is_u64_dec z : Decision (is_u64 z).
Proof. unfold is_u64; apply _. Defined.

Create HintDb words.

Lemma u32_small z : is_u32 z → u32 z = z.
Proof. apply Z.mod_small. Qed.

Lemma u64_small z : is_u64 z → u64 z = z.
Proof. apply Z.mod_small. Qed.

Lemma i64_small z : is_i64 z → i64 z = z.
Proof. unfold i64, is_i64. intros ?. rewrite Z.mod_small; lia. Qed.

Lemma u32_range z : is_u32 (u32 z).
Proof. unfold is_u32, u32. apply Z.mod_pos_bound. lia. Qed.

Lemma u64_range z : is_u64 (u64 z).
Proof. unfold is_u64, u64. apply Z.mod_pos_bound. lia. Qed.

#[export] Hint Resolve u32_range u64_range : words.

(** Solves arithmetic goals about wrapped words once the operands are known to
    be in range. *)
Ltac word :=
  unfold is_u32, is_u64, is_i64, MaxUint32 in *;
  repeat match goal with
  | |- context [u32 ?z] => rewrite (u32_small z) by (unfold is_u32; lia)
  | |- context [u64 ?z] => rewrite (u64_small z) by (unfold is_u64; lia)
  | H : context [u32 ?z] |- _ => rewrite (u32_small z) in H by (unfold is_u32; lia)
  | H : context [u64 ?z] |- _ => rewrite (u64_small z) in H by (unfold is_u64; lia)
  end;
  lia.

(** ** Panics, exits and the state monad

    A Go computation over the state [W] either returns a value, panics with a
    value, or ends the process ([os.Exit], [logger.Fatalf]).  The state reached
    so far survives a panic: a deferred [recover] sees it.  The constructors of
    [panic] are the dynamic types the program's type switches distinguish. *)

Inductive panic : Set :=
  | PConfigError (msg : string)     (** [config.RateLimitConfigError] *)
  | PRedisError (msg : string)      (** [redis.RedisError] *)
  | PServiceError (msg : string)    (** [ratelimit.serviceError] *)
  | PMemcacheError (msg : string)   (** [memcached.MemcacheError] *)
  | PError (msg : string)           (** any other value of type [error] *)
  | PString (msg : string)          (** [panic] applied to a string *)
  | PRuntime (msg : string).        (** a run-time panic of the language *)

#[export] Instance panic_eq_dec : EqDecision panic.
Proof. solve_decision. Defined.

Inductive outcome (A : Type) : Type :=
  | Ret (a : A)
  | Panic (p : panic)
  | Exit (code : Z).
Arguments Ret {_} _.
Arguments Panic {_} _.
Arguments Exit {_} _.

Definition M (W A : Type) : Type := W → outcome A * W.

#[export] Instance M_ret W : MRet (M W) := λ A a w, (Ret a, w).
#[export] Instance M_bind W : MBind (M W) := λ A B f m w,
  match m w with
  | (Ret a, w') => f a w'
  | (Panic p, w') => (Panic p, w')
  | (Exit c, w') => (Exit c, w')
  end.

Section monad.
Context {W : Type}.

Definition throw {A} (p : panic) : M W A := λ w, (Panic p, w).
Definition exit {A} (code : Z) : M W A := λ w, (Exit code, w).
Definition get : M W W := λ w, (Ret w, w).
Definition modify (f : W → W) : M W unit := λ w, (Ret (), f w).

(** [defer func() { if e := recover(); e != nil { h(e) } }()] around [m]. *)
Definition recover {A} (m : M W A) (h : panic → M W A) : M W A := λ w,
  match m w with
  | (Panic p, w') => h p w'
  | r => r
  end.

(** Indexing a slice: out of range is a run-time panic. *)
Definition index {A} (l : list A) (i : nat) : M W A :=
  match l !! i with
  | Some a => mret a
  | None => throw (PRuntime "index out of range")
  end.

(** Dereferencing a pointer modelled as an option. *)
Definition non_nil {A} (o : option A) : M W A :=
  match o with
  | Some a => mret a
  | None => throw (PRuntime "invalid memory address or nil pointer dereference")
  end.

(** [for i, x := range l { s = body(i, x, s) }] with the loop's local
    variables in [s]; [i] is the index of the first element of [l]. *)
Fixpoint range_from {A S} (i : nat) (l : list A) (body : nat → A → S → M W S) (s : S)
  : M W S :=
  match l with
  | [] => mret s
  | x :: l' => s' ← body i x s; range_from (Datatypes.S i) l' body s'
  end.

Definition range {A S} (l : list A) (s : S) (body : nat → A → S → M W S) : M W S :=
  range_from 0 l body s.
End monad.

(** Runs [f] when [m] returns or panics ([defer]); ending the process does not. *)
Definition deferring {W A} (m : M W A) (f : M W unit) : M W A := λ w,
  match m w with
  | (Exit c, w') => (Exit c, w')
  | (o, w') => (o, (f w').2)
  end.

Section monad_laws.
Context {W : Type}.
Implicit Types w : W.

Lemma bind_Ret {A B} (m : M W A) (f : A → M W B) w a w' :
  m w = (Ret a, w') → (m ≫= f) w = f a w'.
Proof. intros E. unfold mbind, M_bind. by rewrite E. Qed.

Lemma bind_Panic {A B} (m : M W A) (f : A → M W B) w p w' :
  m w = (Panic p, w') → (m ≫= f) w = (Panic p, w').
Proof. intros E. unfold mbind, M_bind. by rewrite E. Qed.

Lemma bind_Exit {A B} (m : M W A) (f : A → M W B) w c w' :
  m w = (Exit c, w') → (m ≫= f) w = (Exit c, w').
Proof. unfold mbind, M_bind. by intros ->. Qed.

Lemma bind_inv_Ret {A B} (m : M W A) (f : A → M W B) w b w'' :
  (m ≫= f) w = (Ret b, w'') → ∃ a w', m w = (Ret a, w') ∧ f a w' = (Ret b, w'').
Proof.
  unfold mbind, M_bind. destruct (m w) as [[] ?]; naive_solver.
Qed.

Lemma bind_mret_l {A B} (a : A) (f : A → M W B) w : (mret a ≫= f) w = f a w.
Proof. done. Qed.

Lemma index_Some {A} (l : list A) i a w : l !! i = Some a → index l i w = (Ret a, w).
Proof. intros E. unfold index. by rewrite E. Qed.

Lemma index_inv {A} (l : list A) i a w w' :
  index l i w = (Ret a, w') → l !! i = Some a ∧ w' = w.
Proof. unfold index, throw, mret, M_ret. destruct (l !! i); naive_solver. Qed.

(** The loop rule: an invariant indexed by the number of completed rounds. *)
Lemma range_from_inv {A S} (P : nat → S → W → Prop) (body : nat → A → S → M W S)
    (l : list A) : ∀ i s w,
  P i s w →
  (∀ j x s w, l !! j = Some x → P (i + j)%nat s w →
    ∃ s' w', body (i + j)%nat x s w = (Ret s', w') ∧ P (Datatypes.S (i + j)) s' w') →
  ∃ s' w', range_from i l body s w = (Ret s', w') ∧ P (i + length l)%nat s' w'.
Proof.
  induction l as [|x l IH]; intros i s w HP Hbody; simpl.
  - exists s, w. rewrite Nat.add_0_r. done.
  - destruct (Hbody 0%nat x s w) as (s1 & w1 & E1 & P1); [done|by rewrite Nat.add_0_r|].
    rewrite Nat.add_0_r in E1, P1.
    destruct (IH (Datatypes.S i) s1 w1) as (s2 & w2 & E2 & P2); [done| |].
    { intros j y s' w' Hj HP'. destruct (Hbody (Datatypes.S j) y s' w') as (s3 & w3 & E3 & P3).
      - done.
      - by rewrite Nat.add_succ_r.
      - rewrite Nat.add_succ_r in E3, P3. eauto. }
    exists s2, w2. rewrite Nat.add_succ_r. split; [|done].
    erewrite bind_Ret by exact E1. done.
Qed.

Lemma range_inv {A S} (P : nat → S → W → Prop) (l : list A) (body : nat → A → S → M W S) s w :
  P 0%nat s w →
  (∀ j x s w, l !! j = Some x → P j s w →
    ∃ s' w', body j x s w = (Ret s', w') ∧ P (Datatypes.S j) s' w') →
  ∃ s' w', range l s body w = (Ret s', w') ∧ P (length l) s' w'.
Proof. intros. by apply (range_from_inv P body l 0 s w). Qed.
End monad_laws.

(** Steps a monadic goal or hypothesis: exposes the next bind. *)
Ltac mstep :=
  lazymatch goal with
  | |- context [(?m ≫= ?f) ?w] =>
      first [ erewrite (bind_Ret m f w) by (first [eassumption | reflexivity])
            | rewrite (bind_mret_l _ f w) ]
  end.

(** Proves [∃ r w', m w = (Ret r, w') ∧ P] when [m w] computes to a return. *)
Ltac returns := eexists _, _; split; [reflexivity|].

Tactic Notation "minv" hyp(H) "as" simple_intropattern(p) :=
  apply bind_inv_Ret in H as p.

(** ** Weakest preconditions

    [wp Err m w Q]: run from [w], [m] returns with [Q], or panics with a value
    allowed by [Err]; it never ends the process. *)

Section wp.
Context {W : Type} (Err : panic → Prop).
Implicit Types w : W.

Definition wp {A} (m : M W A) w (Q : A → W → Prop) : Prop :=
  match m w with
  | (Ret a, w') => Q a w'
  | (Panic p, _) => Err p
  | (Exit _, _) => False
  end.

Lemma wp_ret {A} (a : A) w (Q : A → W → Prop) : Q a w → wp (mret a) w Q.
Proof. done. Qed.

Lemma wp_Ret {A} (m : M W A) w a w' (Q : A → W → Prop) :
  m w = (Ret a, w') → Q a w' → wp m w Q.
Proof. unfold wp. by intros ->. Qed.

Lemma wp_bind {A B} (m : M W A) (f : A → M W B) w (Q : A → W → Prop) (R : B → W → Prop) :
  wp m w Q → (∀ a w', Q a w' → wp (f a) w' R) → wp (m ≫= f) w R.
Proof.
  unfold wp, mbind, M_bind. intros Hm Hf. destruct (m w) as [[a|p|c] w']; [|done..].
  by apply Hf.
Qed.

Lemma wp_bind_Ret {A B} (m : M W A) (f : A → M W B) w a w' (R : B → W → Prop) :
  m w = (Ret a, w') → wp (f a) w' R → wp (m ≫= f) w R.
Proof. intros Hm. unfold wp. by rewrite (bind_Ret _ _ _ _ _ Hm). Qed.

Lemma wp_mono {A} (m : M W A) w (Q R : A → W → Prop) :
  wp m w Q → (∀ a w', Q a w' → R a w') → wp m w R.
Proof. unfold wp. intros Hm Hi. destruct (m w) as [[] ?]; auto. Qed.

Lemma wp_and {A} (m : M W A) w (Q R : A → W → Prop) :
  wp m w Q → wp m w R → wp m w (λ a w', Q a w' ∧ R a w').
Proof. unfold wp. by destruct (m w) as [[] ?]. Qed.

Lemma wp_throw {A} p w (Q : A → W → Prop) : Err p → wp (throw p) w Q.
Proof. done. Qed.

Lemma wp_range_from {A S} (P : nat → S → W → Prop) (body : nat → A → S → M W S)
    (l : list A) : ∀ i s w,
  P i s w →
  (∀ j x s w, l !! j = Some x → P (i + j)%nat s w →
    wp (body (i + j)%nat x s) w (P (Datatypes.S (i + j)))) →
  wp (range_from i l body s) w (P (i + length l)%nat).
Proof.
  induction l as [|x l IH]; intros i s w HP Hb; simpl.
  - rewrite Nat.add_0_r. by apply wp_ret.
  - eapply wp_bind; [specialize (Hb 0%nat x s w eq_refl); rewrite Nat.add_0_r in Hb; by apply Hb|].
    intros s' w' HP'. rewrite Nat.add_succ_r. apply (IH (Datatypes.S i)); [done|].
    intros j y s1 w1 Hj. specialize (Hb (Datatypes.S j) y s1 w1 Hj).
    by rewrite Nat.add_succ_r in Hb.
Qed.

Lemma wp_range {A S} (P : nat → S → W → Prop) (l : list A) (body : nat → A → S → M W S) s w :
  P 0%nat s w →
  (∀ j x s w, l !! j = Some x → P j s w → wp (body j x s) w (P (Datatypes.S j))) →
  wp (range l s body) w (P (length l)).
Proof. intros. by apply (wp_range_from P body l 0). Qed.
End wp.

Lemma wp_mono_err {W A} (Err Err' : panic → Prop) (m : M W A) w Q :
  wp Err m w Q → (∀ p, Err p → Err' p) → wp Err' m w Q.
Proof. unfold wp. intros Hm Hi. destruct (m w) as [[] ?]; auto. Qed.

(** ** Lists *)

Lemma Forall2_lookup_total {A B} (P : A → B → Prop) l k i x :
  Forall2 P l k → l !! i = Some x → ∃ y, k !! i = Some y ∧ P x y.
Proof. intros HF Hi. destruct (Forall2_lookup_l _ _ _ _ _ HF Hi) as (y&?&?). eauto. Qed.

Lemma take_S_lookup {A} (l : list A) i x :
  l !! i = Some x → take (S i) l = take i l ++ [x].
Proof. apply take_S_r. Qed.

(** Summation over a list of integers. *)
Definition sumZ (l : list Z) : Z := foldr Z.add 0 l.

Lemma sumZ_app l k : sumZ (l ++ k) = sumZ l + sumZ k.
Proof. unfold sumZ. induction l; simpl; lia. Qed.

Lemma sumZ_cons z l : sumZ (z :: l) = z + sumZ l.
Proof. done. Qed.

Lemma sumZ_nonneg l : Forall (λ z, 0 <= z) l → 0 <= sumZ l.
Proof. unfold sumZ. induction 1; simpl; lia. Qed.

Lemma sumZ_le l k : Forall2 Z.le l k → sumZ l <= sumZ k.
Proof. unfold sumZ. induction 1; simpl; lia. Qed.

Lemma sumZ_take_le l j : Forall (λ z, 0 <= z) l → sumZ (take j l) <= sumZ l.
Proof.
  intros Hl. rewrite <-(take_drop j l) at 2. rewrite sumZ_app.
  pose proof (sumZ_nonneg (drop j l) (Forall_drop _ _ _ Hl)). lia.
Qed.

Lemma sumZ_insert l i x y : l !! i = Some x → sumZ (<[i := y]> l) = sumZ l - x + y.
Proof.
  revert i. unfold sumZ. induction l as [|z l IH]; intros [|i] Hi; simpl in *; [done|done| |].
  - injection Hi as ->. lia.
  - rewrite (IH i Hi). lia.
Qed.
