(* ===== verification/GoStrings.v ===== *)
(** * The parts of Go's [strings] and [strconv] packages the service uses

    Go strings are byte sequences; they are [String.string] here.  [Cut],
    [Split], [Join], [HasPrefix], [TrimPrefix], [TrimSuffix], [ToUpper] and
    [ToLower] (on ASCII letters; other bytes are left alone), [FormatInt] and
    [ParseInt] in base 10, with the round trips the components rely on. *)

From Stdlib Require Import Ascii.
From S2P Require Import Prelude.

#[local] Open Scope string_scope.

#[local] Arguments String.append : simpl nomatch.

Definition HasPrefix (s pre : string) : bool := String.prefix pre s.
#[global] Arguments HasPrefix : simpl never.

Fixpoint drop_str (n : nat) (s : string) : string :=
  match n, s with
  | 0, _ => s
  | S n', String _ s' => drop_str n' s'
  | S _, EmptyString => ""
  end.

Definition TrimPrefix (s pre : string) : string :=
  if HasPrefix s pre then drop_str (String.length pre) s else s.

Fixpoint TrimSuffix (s suf : string) : string :=
  if String.eqb s suf then ""
  else match s with
       | EmptyString => ""
       | String c s' => String c (TrimSuffix s' suf)
       end.

(** [s[len(s)-1:]] of a non-empty string. *)
Fixpoint last_byte (s : string) : string :=
  match s with
  | EmptyString => ""
  | String c EmptyString => String c ""
  | String _ s' => last_byte s'
  end.

(** [strings.Cut(s, sep)]: the text before and after the first [sep]. *)
Fixpoint Cut (s sep : string) : option (string * string) :=
  if HasPrefix s sep then Some ("", drop_str (String.length sep) s)
  else match s with
       | EmptyString => None
       | String c s' =>
           match Cut s' sep with
           | Some (a, b) => Some (String c a, b)
           | None => None
           end
       end.

Definition Contains (s sub : string) : bool :=
  match Cut s sub with Some _ => true | None => false end.

Fixpoint split_fuel (fuel : nat) (s sep : string) : list string :=
  match fuel with
  | 0 => [s]
  | S fuel' =>
      match Cut s sep with
      | Some (a, b) => a :: split_fuel fuel' b sep
      | None => [s]
      end
  end.

(** [strings.Split(s, sep)] for a non-empty [sep]: every [Cut] consumes at
    least one byte, so [length s] rounds are enough. *)
Definition Split (s sep : string) : list string := split_fuel (String.length s) s sep.

Fixpoint Join (l : list string) (sep : string) : string :=
  match l with
  | [] => ""
  | [s] => s
  | s :: l' => s +:+ sep +:+ Join l' sep
  end.

Definition upper_ascii (c : ascii) : ascii :=
  let n := nat_of_ascii c in
  if (97 <=? n)%nat && (n <=? 122)%nat then ascii_of_nat (n - 32) else c.

Definition lower_ascii (c : ascii) : ascii :=
  let n := nat_of_ascii c in
  if (65 <=? n)%nat && (n <=? 90)%nat then ascii_of_nat (n + 32) else c.

Fixpoint map_str (f : ascii → ascii) (s : string) : string :=
  match s with
  | EmptyString => ""
  | String c s' => String (f c) (map_str f s')
  end.

Definition ToUpper : string → string := map_str upper_ascii.
Definition ToLower : string → string := map_str lower_ascii.

(** [strconv.FormatInt(z, 10)], [strconv.FormatUint(z, 10)], [%d]. *)
Definition FormatInt (z : Z) : string := pretty z.

(** [%t]. *)
Definition FormatBool (b : bool) : string := if b then "true" else "false".

Definition digit_value (c : ascii) : option Z :=
  let n := nat_of_ascii c in
  if (48 <=? n)%nat && (n <=? 57)%nat then Some (Z.of_nat n - 48)%Z else None.

Fixpoint parse_digits (acc : Z) (s : string) : option Z :=
  match s with
  | EmptyString => Some acc
  | String c s' =>
      match digit_value c with
      | Some d => parse_digits (acc * 10 + d)%Z s'
      | None => None
      end
  end.

Definition parse_unsigned (s : string) : option Z :=
  match s with EmptyString => None | _ => parse_digits 0 s end.

(** [strconv.ParseInt(s, 10, bits)]: an error (here [None]) on an empty string,
    on a byte that is not a digit and on a value outside the signed range. *)
Definition ParseInt (s : string) (bits : Z) : option Z :=
  let v := match s with
           | String "-" s' => Z.opp <$> parse_unsigned s'
           | String "+" s' => parse_unsigned s'
           | _ => parse_unsigned s
           end in
  match v with
  | Some z => if bool_decide (- 2 ^ (bits - 1) ≤ z < 2 ^ (bits - 1))%Z then Some z else None
  | None => None
  end.

(** ** Lemmas *)

Lemma str_app_nil_r s : s +:+ "" = s.
Proof. induction s; simpl; congruence. Qed.

Lemma str_app_assoc a b c : (a +:+ b) +:+ c = a +:+ (b +:+ c).
Proof. induction a; simpl; congruence. Qed.

Lemma str_app_length a b :
  String.length (a +:+ b) = (String.length a + String.length b)%nat.
Proof. induction a; simpl; congruence. Qed.

Lemma str_app_inj_l a b c : a +:+ b = a +:+ c → b = c.
Proof. induction a; simpl; naive_solver. Qed.

#[export] Instance str_app_inj a : Inj (=) (=) (String.append a).
Proof. intros b c. apply str_app_inj_l. Qed.

Lemma drop_str_app a b : drop_str (String.length a) (a +:+ b) = b.
Proof. induction a; simpl; [by destruct b|done]. Qed.

Lemma HasPrefix_app a b : HasPrefix (a +:+ b) a = true.
Proof.
  unfold HasPrefix. induction a as [|c a IH]; simpl; [by destruct b|].
  destruct (ascii_dec c c); [done|congruence].
Qed.

Lemma HasPrefix_true s p : HasPrefix s p = true ↔ ∃ r, s = p +:+ r.
Proof.
  split; [|intros [r ->]; apply HasPrefix_app].
  unfold HasPrefix. revert s. induction p as [|c p IH]; intros s; simpl; [by exists s|].
  destruct s as [|c' s]; simpl; [done|].
  destruct (ascii_dec c c') as [->|]; [|done]. intros [r ->]%IH. by exists r.
Qed.

Lemma Cut_Some s sep a b : Cut s sep = Some (a, b) → s = a +:+ sep +:+ b.
Proof.
  revert a. induction s as [|c s IH]; intros a; simpl.
  - destruct (HasPrefix "" sep) eqn:E; [|done]. intros [= <- <-].
    destruct sep; [done|]. by apply HasPrefix_true in E as [r Hr].
  - destruct (HasPrefix (String c s) sep) eqn:E.
    + intros [= <- <-]. apply HasPrefix_true in E as [r Hr]. rewrite Hr.
      replace (drop_str _ _) with r; [done|]. rewrite drop_str_app. done.
    + destruct (Cut s sep) as [[a' b']|] eqn:E'; [|done]. intros [= <- <-].
      by rewrite (IH a').
Qed.

Lemma Cut_Some_length s sep a b :
  sep ≠ "" → Cut s sep = Some (a, b) → (String.length b < String.length s)%nat.
Proof.
  intros Hsep ->%Cut_Some. rewrite !str_app_length. destruct sep; simpl; [done|lia].
Qed.

Lemma Join_cons s l sep : l ≠ [] → Join (s :: l) sep = s +:+ sep +:+ Join l sep.
Proof. by destruct l. Qed.

Lemma split_fuel_ne_nil f s sep : split_fuel f s sep ≠ [].
Proof. destruct f; simpl; [done|]. by repeat case_match. Qed.

Lemma Join_split_fuel f s sep : Join (split_fuel f s sep) sep = s.
Proof.
  revert s. induction f as [|f IH]; intros s; simpl; [done|].
  destruct (Cut s sep) as [[a b]|] eqn:E; [|done].
  rewrite Join_cons by apply split_fuel_ne_nil. rewrite IH. by apply Cut_Some in E.
Qed.

Lemma Join_Split s sep : Join (Split s sep) sep = s.
Proof. apply Join_split_fuel. Qed.

Lemma Cut_suffix_None s sep a b : Cut s sep = None → s = a +:+ b → Cut b sep = None.
Proof.
  revert s. induction a as [|c a IH]; intros s Hs ->; [done|].
  simpl in Hs. destruct (HasPrefix _ sep); [done|].
  apply (IH (a +:+ b)); [|done]. by destruct (Cut (a +:+ b) sep) as [[]|].
Qed.

Lemma Cut_before s sep a b : sep ≠ "" → Cut s sep = Some (a, b) → Cut a sep = None.
Proof.
  intros Hsep. revert a. induction s as [|c s IH]; intros a; simpl.
  - destruct (HasPrefix "" sep) eqn:E; [|done]. intros [= <- <-]. by destruct sep.
  - destruct (HasPrefix (String c s) sep) eqn:E.
    + intros [= <- <-]. by destruct sep.
    + destruct (Cut s sep) as [[a' b']|] eqn:E'; [|done]. intros [= <- <-]. simpl.
      rewrite (IH a') by done. destruct (HasPrefix (String c a') sep) eqn:Ep; [|done].
      apply HasPrefix_true in Ep as [r Hr]. apply Cut_Some in E' as ->.
      assert (HasPrefix (String c (a' +:+ sep +:+ b')) sep = true) as Hp; [|congruence].
      apply HasPrefix_true. exists (r +:+ sep +:+ b').
      change (String c (a' +:+ sep +:+ b')) with (String c a' +:+ (sep +:+ b')).
      rewrite Hr. apply str_app_assoc.
Qed.

(** Enough fuel: no piece of a [Split] contains the separator. *)
Lemma split_fuel_no_sep f s sep :
  sep ≠ "" → (String.length s ≤ f)%nat → Forall (λ p, Cut p sep = None) (split_fuel f s sep).
Proof.
  intros Hsep. revert s. induction f as [|f IH]; intros s Hlen; simpl.
  - constructor; [|done]. destruct s; [|simpl in Hlen; lia]. by destruct sep.
  - destruct (Cut s sep) as [[a b]|] eqn:E; [|by repeat constructor].
    constructor; [by eapply Cut_before|]. apply IH.
    apply Cut_Some_length in E; [lia|done].
Qed.

Lemma Split_no_sep s sep : sep ≠ "" → Forall (λ p, Cut p sep = None) (Split s sep).
Proof. intros. by apply split_fuel_no_sep. Qed.

Lemma split_fuel_Cut_None f s sep : Cut s sep = None → split_fuel f s sep = [s].
Proof. intros E. destruct f; simpl; [done|]. by rewrite E. Qed.

Lemma HasPrefix_byte c c' s : HasPrefix (String c' s) (String c "") = bool_decide (c = c').
Proof.
  unfold HasPrefix. simpl. destruct (ascii_dec c c'); [|by rewrite bool_decide_false].
  rewrite bool_decide_true by done. by destruct s.
Qed.

(** For a one-byte separator [Cut] finds the first separator byte. *)
Lemma Cut_byte_app c a b :
  Cut a (String c "") = None → Cut (a +:+ String c b) (String c "") = Some (a, b).
Proof.
  induction a as [|c' a IH]; simpl; rewrite HasPrefix_byte.
  - intros _. by rewrite bool_decide_true.
  - rewrite HasPrefix_byte. case_bool_decide; [done|].
    destruct (Cut a (String c "")) as [[]|] eqn:E; [done|]. intros _. by rewrite IH.
Qed.

Lemma split_fuel_Join_byte c l f :
  l ≠ [] → Forall (λ p, Cut p (String c "") = None) l → (String.length (Join l (String c "")) ≤ f)%nat →
  split_fuel f (Join l (String c "")) (String c "") = l.
Proof.
  intros Hne Hl. revert f. induction Hl as [|s l Hs Hl IH]; [done|]; intros f Hf.
  destruct l as [|s' l].
  - simpl in *. by apply split_fuel_Cut_None.
  - rewrite Join_cons in * by done. rewrite !str_app_length in Hf.
    change (String.length (String c "")) with 1%nat in Hf.
    destruct f as [|f]; [lia|]. cbn [split_fuel].
    change (s +:+ String c "" +:+ Join (s' :: l) (String c ""))
      with (s +:+ String c (Join (s' :: l) (String c ""))).
    rewrite Cut_byte_app by done. f_equal. apply IH; [done|lia].
Qed.

(** [Split] inverts [Join] when no piece contains the (one byte) separator. *)
Lemma Split_Join_byte c l :
  l ≠ [] → Forall (λ p, Cut p (String c "") = None) l →
  Split (Join l (String c "")) (String c "") = l.
Proof. intros. by apply split_fuel_Join_byte. Qed.

Lemma FormatInt_inj a b : FormatInt a = FormatInt b → a = b.
Proof. apply (inj pretty). Qed.

(** ** Printing and parsing integers *)

Lemma digit_value_pretty x : (x < 10)%N → digit_value (pretty_N_char x) = Some (Z.of_N x).
Proof.
  intros Hx.
  assert (x = 0 ∨ x = 1 ∨ x = 2 ∨ x = 3 ∨ x = 4 ∨ x = 5 ∨ x = 6 ∨ x = 7 ∨ x = 8 ∨ x = 9)%N as Hd by lia.
  repeat destruct Hd as [->|Hd]; [done..|]. by subst x.
Qed.

Lemma parse_pretty_N_go x s : parse_digits 0 (pretty_N_go x s) = parse_digits (Z.of_N x) s.
Proof.
  revert s. induction (N.lt_wf_0 x) as [x _ IH]; intros s.
  assert (x = 0 ∨ 0 < x)%N as [->|Hx] by lia; [by rewrite pretty_N_go_0|].
  rewrite pretty_N_go_step by done. rewrite IH by (by apply N.div_lt). cbn [parse_digits].
  rewrite digit_value_pretty by (by apply N.mod_lt). f_equal.
  rewrite (N.div_mod x 10) at 3 by done. lia.
Qed.

Lemma parse_digits_pretty (x : N) : parse_digits 0 (pretty x) = Some (Z.of_N x).
Proof.
  unfold pretty, pretty_N. case_decide as Hx; [by subst|]. by rewrite parse_pretty_N_go.
Qed.

(** Only digits follow when the digits parse: there is no sign. *)
Lemma ParseInt_digits s z bits :
  s ≠ "" → parse_digits 0 s = Some z →
  ParseInt s bits =
    if bool_decide (- 2 ^ (bits - 1) ≤ z < 2 ^ (bits - 1))%Z then Some z else None.
Proof.
  intros Hs Hp. unfold ParseInt. destruct s as [|c s]; [done|].
  assert (is_Some (digit_value c)) as [d Hd].
  { cbn [parse_digits] in Hp. by destruct (digit_value c). }
  assert ((match c with
           | "-"%char => Z.opp <$> parse_unsigned s
           | "+"%char => parse_unsigned s
           | _ => parse_unsigned (String c s)
           end) = Some z) as Hv.
  { unfold parse_unsigned at 3. rewrite <-Hp. clear Hp.
    destruct c as [[] [] [] [] [] [] [] []]; try reflexivity; by vm_compute in Hd. }
  by rewrite Hv.
Qed.

(** The round trip, within the width. *)
Lemma FormatInt_N z : (0 <= z)%Z → FormatInt z = pretty (Z.to_N z).
Proof. by destruct z. Qed.

Lemma parse_digits_FormatInt z : (0 <= z)%Z → parse_digits 0 (FormatInt z) = Some z.
Proof. intros Hz. rewrite FormatInt_N, parse_digits_pretty by done. f_equal. lia. Qed.

Lemma ParseInt_FormatInt z bits :
  (0 <= z)%Z → (0 < bits)%Z →
  ParseInt (FormatInt z) bits = if bool_decide (z < 2 ^ (bits - 1))%Z then Some z else None.
Proof.
  intros Hz Hbits. rewrite (ParseInt_digits _ z); [|intros E|by apply parse_digits_FormatInt].
  - pose proof (Z.pow_nonneg 2 (bits - 1)). repeat case_bool_decide; done || lia.
  - pose proof (parse_digits_FormatInt z Hz) as Hp. rewrite E in Hp. injection Hp as <-. done.
Qed.
