(* ===== verification/World.v ===== *)
(** * Shared data and the state of the process

    The wire types of the rate limit API, the statistics handles of
    [src/stats/manager.go], the [RateLimit] entry of [src/config/config.go],
    and the state every operation of the service runs in:

    - a heap of [RateLimit] objects: the configuration tree and the slices of
      limits a request works on hold pointers into it, and [GetLimit] writes
      through such a pointer;
    - the value of every statistics counter (64-bit, wrapping);
    - the state [E] of everything outside the repository: clock, random
      source, local cache library, redis and memcached.  [E] is a parameter;
      each library is a type class over it with the operations the code calls. *)

From S2P Require Import Prelude.
From stdpp Require Import countable.

#[local] Open Scope Z_scope.

(** ** Wire types (protobuf messages; enum values are open [int32]s) *)

Definition UNKNOWN : Z := 0.
Definition SECOND : Z := 1.
Definition MINUTE : Z := 2.
Definition HOUR : Z := 3.
Definition DAY : Z := 4.

Inductive Code : Set := Code_UNKNOWN | Code_OK | Code_OVER_LIMIT.

#[export] Instance Code_eq_dec : EqDecision Code.
Proof. solve_decision. Defined.

(** [pb.RateLimitResponse_RateLimit] *)
Record PbRateLimit : Set := mkPbRateLimit {
  pl_RequestsPerUnit : Z;
  pl_Unit : Z;
  pl_Name : string;
}.

Record Entry : Set := mkEntry { e_Key : string; e_Value : string }.

Record LimitOverride : Set := mkOverride { o_RequestsPerUnit : Z; o_Unit : Z }.

(** [pb_struct.RateLimitDescriptor] *)
Record Descriptor : Set := mkDescriptor {
  d_Entries : list Entry;
  d_Limit : option LimitOverride;
}.

Record RateLimitRequest : Set := mkRequest {
  rq_Domain : string;
  rq_Descriptors : list Descriptor;
  rq_HitsAddend : Z;
}.

(** [pb.RateLimitResponse_DescriptorStatus]; a nil duration is [None]. *)
Record DescriptorStatus : Set := mkStatus {
  st_Code : Code;
  st_CurrentLimit : option PbRateLimit;
  st_LimitRemaining : Z;
  st_DurationUntilReset : option Z;
}.

Record HeaderValue : Set := mkHeader { hv_Key : string; hv_Value : string }.

Record RateLimitResponse : Set := mkResponse {
  rs_OverallCode : Code;
  rs_Statuses : list DescriptorStatus;
  rs_ResponseHeadersToAdd : list HeaderValue;
}.

(** ** Statistics handles

    A gostats counter is the scope it was created in and its name: asking the
    same scope twice for one name yields the same counter. *)

Record Scope : Set := mkScope {
  sc_path : list string;
  sc_tags : list (string * string);
}.

Record Counter : Set := mkCounter { c_scope : Scope; c_name : string }.

#[export] Instance Scope_eq_dec : EqDecision Scope.
Proof. solve_decision. Defined.
#[export] Instance Scope_countable : Countable Scope.
Proof.
  refine (inj_countable' (λ s, (sc_path s, sc_tags s)) (λ p, mkScope p.1 p.2) _). by intros [].
Defined.
#[export] Instance Counter_eq_dec : EqDecision Counter.
Proof. solve_decision. Defined.
#[export] Instance Counter_countable : Countable Counter.
Proof.
  refine (inj_countable' (λ c, (c_scope c, c_name c)) (λ p, mkCounter p.1 p.2) _). by intros [].
Defined.

(** [stats.RateLimitStats] *)
Record RateLimitStats : Set := mkStats {
  s_Key : string;
  s_TotalHits : Counter;
  s_OverLimit : Counter;
  s_NearLimit : Counter;
  s_OverLimitWithLocalCache : Counter;
  s_WithinLimit : Counter;
  s_ShadowMode : Counter;
}.

(** [config.RateLimit] *)
Record RateLimit : Set := mkRateLimit {
  rl_FullKey : string;
  rl_Stats : RateLimitStats;
  rl_Limit : PbRateLimit;
  rl_Unlimited : bool;
  rl_ShadowMode : bool;
  rl_Name : string;
  rl_Replaces : list string;
  rl_DetailedMetric : bool;
}.

(** A [*config.RateLimit] that is not nil. *)
Definition loc : Set := nat.

Record World (E : Type) : Type := mkWorld {
  w_heap : list RateLimit;
  w_counters : gmap Counter Z;
  w_ext : E;
}.
Arguments mkWorld {_} _ _ _.
Arguments w_heap {_} _.
Arguments w_counters {_} _.
Arguments w_ext {_} _.

(** ** Libraries outside the repository *)

(** [utils.TimeSource]: the current unix time in seconds. *)
Class TimeSource (E : Type) : Type := unix_now : E → Z * E.

(** [JitterRand.Int63n(max)]. *)
Class JitterRand (E : Type) : Type := int63n : Z → E → Z * E.

(** [freecache.Cache]: [Get] reports whether the key was found, [Set] (key,
    expiry in seconds) whether it was stored. *)
Class FreeCache (E : Type) : Type := {
  fc_Get : string → E → bool * E;
  fc_Set : string → Z → E → bool * E;
}.

Section ops.
Context {E : Type}.

(** Runs an operation of an outside library. *)
Definition ext {A} (f : E → A * E) : M (World E) A := λ w,
  let '(a, e) := f (w_ext w) in
  (Ret a, mkWorld (w_heap w) (w_counters w) e).

(** [Counter.Value] and [Counter.Add]. *)
Definition ctr_value (m : gmap Counter Z) (c : Counter) : Z := default 0 (m !! c).

Definition ctr_add (c : Counter) (v : Z) (m : gmap Counter Z) : gmap Counter Z :=
  <[c := u64 (ctr_value m c + v)]> m.

Definition Add (c : Counter) (v : Z) : M (World E) unit :=
  modify (λ w, mkWorld (w_heap w) (ctr_add c v (w_counters w)) (w_ext w)).

Definition Inc (c : Counter) : M (World E) unit := Add c 1.

(** Allocation, load and store of [RateLimit] objects. *)
Definition new (rl : RateLimit) : M (World E) loc := λ w,
  (Ret (length (w_heap w)), mkWorld (w_heap w ++ [rl]) (w_counters w) (w_ext w)).

Definition load (l : loc) : M (World E) RateLimit := λ w,
  match w_heap w !! l with
  | Some rl => (Ret rl, w)
  | None => (Panic (PRuntime "invalid memory address or nil pointer dereference"), w)
  end.

(** Reading through a pointer that may be nil. *)
Definition deref (o : option loc) : M (World E) RateLimit :=
  l ← non_nil o; load l.

Definition set_stats (l : loc) (s : RateLimitStats) : M (World E) unit :=
  rl ← load l;
  modify (λ w, mkWorld
    (<[l := mkRateLimit (rl_FullKey rl) s (rl_Limit rl) (rl_Unlimited rl)
              (rl_ShadowMode rl) (rl_Name rl) (rl_Replaces rl) (rl_DetailedMetric rl)]> (w_heap w))
    (w_counters w) (w_ext w)).

Definition UnixNow `{TimeSource E} : M (World E) Z := ext unix_now.
End ops.

(** ** Heap extension

    Operations of the service never remove a [RateLimit] and never change
    anything but its statistics handles. *)

Definition same_limit (a b : RateLimit) : Prop :=
  rl_FullKey a = rl_FullKey b ∧ rl_Limit a = rl_Limit b ∧ rl_Unlimited a = rl_Unlimited b ∧
  rl_ShadowMode a = rl_ShadowMode b ∧ rl_Name a = rl_Name b ∧
  rl_Replaces a = rl_Replaces b ∧ rl_DetailedMetric a = rl_DetailedMetric b.

Definition heap_ext (h h' : list RateLimit) : Prop :=
  ∀ l rl, h !! l = Some rl → ∃ rl', h' !! l = Some rl' ∧ same_limit rl rl'.

#[export] Instance same_limit_equiv : Equivalence same_limit.
Proof. split; unfold same_limit; red; intuition congruence. Qed.

#[export] Instance heap_ext_preorder : PreOrder heap_ext.
Proof.
  split.
  - intros h l rl ?. exists rl. split; [done|reflexivity].
  - intros h1 h2 h3 H12 H23 l rl (rl2&H2&?)%H12.
    apply H23 in H2 as (rl3&?&?). exists rl3. split; [done|by etransitivity].
Qed.

Lemma heap_ext_app h k : heap_ext h (h ++ k).
Proof. intros l rl Hl. exists rl. split; [by apply lookup_app_l_Some|reflexivity]. Qed.

Lemma heap_ext_insert h l rl rl' :
  h !! l = Some rl → same_limit rl rl' → heap_ext h (<[l := rl']> h).
Proof.
  intros Hl Hs l2 rl2 Hl2. destruct (decide (l = l2)) as [<-|].
  - simplify_eq. exists rl'. split; [|done].
    apply list_lookup_insert_eq. by eapply lookup_lt_Some.
  - exists rl2. rewrite list_lookup_insert_ne by done. split; [done|reflexivity].
Qed.

Lemma heap_ext_length h h' : heap_ext h h' → (length h ≤ length h')%nat.
Proof.
  intros Hx. destruct (decide (length h = 0)%nat); [lia|].
  destruct (lookup_lt_is_Some_2 h (length h - 1)) as [rl Hrl]; [lia|].
  apply Hx in Hrl as (?&Hrl&?). apply lookup_lt_Some in Hrl. lia.
Qed.

Create HintDb heap.
#[export] Hint Resolve heap_ext_app heap_ext_insert : heap.
#[export] Hint Extern 1 (heap_ext ?h ?h) => reflexivity : heap.

Lemma load_Some {E} (w : World E) l rl : w_heap w !! l = Some rl → load l w = (Ret rl, w).
Proof. intros Hl. unfold load. by rewrite Hl. Qed.

(** ** Counter arithmetic *)

Lemma ctr_value_add_eq m c v : ctr_value (ctr_add c v m) c = u64 (ctr_value m c + v).
Proof. unfold ctr_add, ctr_value. by rewrite lookup_insert_eq. Qed.

Lemma ctr_value_add_ne m c c' v : c ≠ c' → ctr_value (ctr_add c v m) c' = ctr_value m c'.
Proof. intros. unfold ctr_add, ctr_value. by rewrite lookup_insert_ne. Qed.

(** Several additions, in program order. *)
Definition ctr_adds (ds : list (Counter * Z)) (m : gmap Counter Z) : gmap Counter Z :=
  foldl (λ m d, ctr_add d.1 d.2 m) m ds.

(** What a list of additions contributes to one counter. *)
Definition adds_to (c : Counter) (ds : list (Counter * Z)) : Z :=
  sumZ ((λ d, if decide (d.1 = c) then d.2 else 0) <$> ds).

Lemma adds_to_app c ds ds' : adds_to c (ds ++ ds') = adds_to c ds + adds_to c ds'.
Proof. unfold adds_to. by rewrite fmap_app, sumZ_app. Qed.

Lemma adds_to_cons c d ds :
  adds_to c (d :: ds) = (if decide (d.1 = c) then d.2 else 0) + adds_to c ds.
Proof. done. Qed.

Lemma u64_add_u64 a b : u64 (u64 a + b) = u64 (a + b).
Proof. unfold u64. by rewrite Zplus_mod_idemp_l. Qed.

Lemma u64_sub_u64 a b : u64 (u64 a - b) = u64 (a - b).
Proof. unfold u64. by rewrite Zminus_mod_idemp_l. Qed.

Lemma ctr_value_adds c ds m :
  u64 (ctr_value (ctr_adds ds m) c) = u64 (ctr_value m c + adds_to c ds).
Proof.
  revert m. induction ds as [|d ds IH]; intros m.
  - unfold adds_to; simpl. by rewrite Z.add_0_r.
  - change (ctr_adds (d :: ds) m) with (ctr_adds ds (ctr_add d.1 d.2 m)).
    rewrite IH, adds_to_cons. destruct (decide (d.1 = c)) as [<-|].
    + rewrite ctr_value_add_eq, u64_add_u64. f_equal. lia.
    + rewrite ctr_value_add_ne by done. f_equal.
Qed.

Lemma ctr_adds_app ds ds' m : ctr_adds (ds ++ ds') m = ctr_adds ds' (ctr_adds ds m).
Proof. unfold ctr_adds. by rewrite foldl_app. Qed.

(** Every counter of [w] grew by [f]: the counters wrap at 64 bits. *)
Definition grown {E} (w w' : World E) (f : Counter → Z) : Prop :=
  ∀ c, u64 (ctr_value (w_counters w') c) = u64 (ctr_value (w_counters w) c + f c).

Lemma grown_adds {E} (w w' : World E) ds :
  w_counters w' = ctr_adds ds (w_counters w) → grown w w' (λ c, adds_to c ds).
Proof. intros Hw c. rewrite Hw. apply ctr_value_adds. Qed.

Lemma grown_trans {E} (w1 w2 w3 : World E) f g :
  grown w1 w2 f → grown w2 w3 g → grown w1 w3 (λ c, f c + g c).
Proof.
  intros Hf Hg c. rewrite Hg, <-u64_add_u64, Hf, u64_add_u64. f_equal. lia.
Qed.

Lemma grown_ext {E} (w w' : World E) f g : grown w w' f → (∀ c, f c = g c) → grown w w' g.
Proof. intros Hf Hfg c. rewrite Hf. by rewrite Hfg. Qed.
