(* ===== verification/GoPath.v ===== *)
(** * The functions of [path/filepath] the program uses, on Unix

    A path is taken apart at its slashes ([Split]); [Clean] drops empty and "."
    elements and resolves "..". *)

From Stdlib Require Import Ascii.
From S2P Require Import Prelude GoStrings.

#[local] Arguments String.append : simpl nomatch.

(** One element of the path against the ones kept so far, last first. *)
Definition path_step (rooted : bool) (out : list string) (c : string) : list string :=
  if decide (c = "" ∨ c = ".") then out
  else if decide (c = "..") then
    match out with
    | x :: out' => if decide (x = "..") then ".." :: out else out'
    | [] => if rooted then [] else [".."]
    end
  else c :: out.

Definition Clean (path : string) : string :=
  if decide (path = "") then "."
  else
    let rooted := HasPrefix path "/" in
    let comps := rev (foldl (path_step rooted) [] (Split path "/")) in
    if rooted then "/" +:+ Join comps "/"
    else match comps with [] => "." | _ => Join comps "/" end.

(** The text up to and including the last slash. *)
Definition dir_text (path : string) : string :=
  match removelast (Split path "/") with
  | [] => ""
  | comps => Join comps "/" +:+ "/"
  end.

Definition Dir (path : string) : string := Clean (dir_text path).

Fixpoint strip_empty (rcomps : list string) : list string :=
  match rcomps with
  | "" :: rest => strip_empty rest
  | _ => rcomps
  end.

Definition Base (path : string) : string :=
  if decide (path = "") then "."
  else match strip_empty (rev (Split path "/")) with
       | [] => "/"
       | c :: _ => c
       end.

(** [filepath.Join(a, b)] *)
Definition JoinPath (a b : string) : string :=
  if decide (a = "") then (if decide (b = "") then "" else Clean b)
  else Clean (a +:+ "/" +:+ b).

(** ** Absolute paths of ordinary names *)

Definition plain_name (c : string) : Prop := c ≠ "" ∧ c ≠ "." ∧ c ≠ ".." ∧ Cut c "/" = None.

Definition absolute (comps : list string) : string := "/" +:+ Join comps "/".

Lemma path_steps_plain rooted comps : ∀ out,
  Forall plain_name comps → foldl (path_step rooted) out comps = rev comps ++ out.
Proof.
  induction comps as [|c comps IH]; intros out; [done|]. intros [(H1&H2&H3&_) Hall]%Forall_cons. simpl.
  rewrite IH by done. unfold path_step. rewrite decide_False by tauto. rewrite decide_False by done.
  by rewrite <-app_assoc.
Qed.

Lemma Split_absolute comps :
  comps ≠ [] → Forall plain_name comps → Split (absolute comps) "/" = "" :: comps.
Proof.
  intros Hne Hall. unfold absolute. change ("/" +:+ Join comps "/") with ("" +:+ "/" +:+ Join comps "/").
  rewrite <-Join_cons by done. apply Split_Join_byte; [done|]. constructor; [done|].
  eapply Forall_impl; [exact Hall|]. by intros c (_&_&_&?).
Qed.

Lemma Join_snoc_slash comps : comps ≠ [] → Join comps "/" +:+ "/" = Join (comps ++ [""]) "/".
Proof.
  induction comps as [|c comps IH]; [done|]. intros _. destruct comps as [|c' comps]; [done|].
  rewrite Join_cons, str_app_assoc, str_app_assoc, IH by done.
  change ((c :: c' :: comps) ++ [""]) with (c :: ((c' :: comps) ++ [""])). by rewrite Join_cons.
Qed.

(** A cleaned absolute path, possibly with slashes at the end. *)
Lemma Clean_absolute comps tl :
  comps ≠ [] → Forall plain_name comps → (tl = [] ∨ tl = [""]) →
  Clean ("/" +:+ Join (comps ++ tl) "/") = absolute comps.
Proof.
  intros Hne Hall Htl. unfold Clean. rewrite decide_False by done.
  rewrite HasPrefix_app.
  change ("/" +:+ Join (comps ++ tl) "/") with ("" +:+ "/" +:+ Join (comps ++ tl) "/").
  rewrite <-Join_cons by (by destruct comps). rewrite Split_Join_byte; [|done|].
  - cbn [foldl]. change (path_step true [] "") with ([] : list string).
    rewrite foldl_app, (path_steps_plain true comps []), app_nil_r by exact Hall.
    assert (foldl (path_step true) (rev comps) tl = rev comps) as ->; [by destruct Htl as [->| ->]|].
    by rewrite rev_involutive.
  - constructor; [done|]. apply Forall_app. split; [|by destruct Htl as [->| ->]; repeat constructor].
    eapply Forall_impl; [exact Hall|]. by intros c (_&_&_&?).
Qed.

Lemma Dir_absolute comps c :
  Forall plain_name (comps ++ [c]) →
  Dir (absolute (comps ++ [c])) = if decide (comps = []) then "/" else absolute comps.
Proof.
  intros Hall. unfold Dir, dir_text. rewrite Split_absolute by (done || by destruct comps).
  change ("" :: comps ++ [c]) with (("" :: comps) ++ [c]). rewrite removelast_last. simpl.
  apply Forall_app in Hall as [Hall _]. case_decide as Hc; [by rewrite Hc|].
  destruct comps as [|c' comps]; [done|].
  change (String "/" (Join (c' :: comps) "/") +:+ "/") with ("/" +:+ (Join (c' :: comps) "/" +:+ "/")).
  rewrite Join_snoc_slash by done. apply Clean_absolute; auto.
Qed.

Lemma Base_absolute comps c :
  Forall plain_name (comps ++ [c]) → Base (absolute (comps ++ [c])) = c.
Proof.
  intros Hall. unfold Base. rewrite decide_False by done. rewrite Split_absolute by (done || by destruct comps).
  simpl. rewrite rev_app_distr. simpl. apply Forall_app in Hall as [_ [(Hc&_) _]%Forall_cons].
  by destruct c.
Qed.

(** The parent and the name of a directory lead back to it. *)
Lemma JoinPath_Dir_Base comps :
  comps ≠ [] → Forall plain_name comps →
  JoinPath (Dir (absolute comps)) (Base (absolute comps)) = absolute comps.
Proof.
  intros Hne Hall. destruct (exists_last Hne) as (init&c&->).
  rewrite Dir_absolute, Base_absolute by done. destruct (decide (init = [])) as [Hi|Hi]; unfold JoinPath.
  - subst init. rewrite decide_False by done. simpl in Hall. unfold Clean. rewrite decide_False by done.
    rewrite HasPrefix_app. change ("/" +:+ "/" +:+ c) with (Join ["" ; ""; c] "/").
    apply Forall_cons in Hall as [Hc _]. rewrite Split_Join_byte; [|done|].
    + cbn [foldl]. change (path_step true (path_step true [] "") "") with ([] : list string).
      destruct Hc as (H1&H2&H3&_). unfold path_step. rewrite decide_False by tauto.
      by rewrite decide_False.
    + constructor; [done|]. constructor; [done|]. constructor; [apply Hc|done].
  - rewrite decide_False by done. unfold absolute. rewrite str_app_assoc.
    assert (Join init "/" +:+ "/" +:+ c = Join (init ++ [c]) "/") as ->.
    { clear -Hi. induction init as [|x init IH]; [done|]. destruct init as [|y init]; [done|].
      rewrite Join_cons, !str_app_assoc, IH by done.
      change ((x :: y :: init) ++ [c]) with (x :: ((y :: init) ++ [c])). by rewrite Join_cons. }
    rewrite <-(app_nil_r (init ++ [c])) at 1. apply Clean_absolute; auto.
Qed.
