(* ===== verification/Srv.v ===== *)
(** * Server lists from DNS SRV records ([src/srv/srv.go])

    [ParseSrv] splits a name like [_memcache._tcp.example.com] with the regular
    expression [^_(.+?)\._(.+?)\.(.+)$], [lookupServerStringsFromSrv] turns the
    answer of the resolver into a sorted list of [host:port] strings.  The
    resolver is a parameter. *)

From Stdlib Require Import Ascii.
From stdpp Require Import sorting.
From S2P Require Import Prelude GoStrings World.

#[local] Open Scope string_scope.
#[local] Arguments String.append : simpl nomatch.

(** ** The regular expression

    [.] matches any byte but a line feed. *)

Definition line_feed : ascii := "010".

(** [(.+?)] followed by the text [sep] and whatever [k] matches: the shortest
    group for which the rest matches. *)
Fixpoint lazy_group {A} (sep : string) (k : string → option A) (s : string) : option (string * A) :=
  match s with
  | EmptyString => None
  | String c s' =>
      if decide (c = line_feed) then None
      else
        match (if HasPrefix s' sep then k (drop_str (String.length sep) s') else None) with
        | Some a => Some (String c "", a)
        | None =>
            match lazy_group sep k s' with
            | Some (g, a) => Some (String c g, a)
            | None => None
            end
        end
  end.

Fixpoint no_line_feed (s : string) : bool :=
  match s with
  | EmptyString => true
  | String c s' => bool_decide (c ≠ line_feed) && no_line_feed s'
  end.

(** [(.+)$] *)
Definition rest_group (s : string) : option string :=
  if bool_decide (s ≠ "") && no_line_feed s then Some s else None.

(** [srvRegex.FindStringSubmatch] *)
Definition srv_match (srv : string) : option (string * (string * string)) :=
  if HasPrefix srv "_" then
    lazy_group "._" (lazy_group "." rest_group) (drop_str 1 srv)
  else None.

(** ** The operations *)

Definition ParseSrv (srv : string) : string * string * string + string :=
  match srv_match srv with
  | None => inr ("could not parse " +:+ srv +:+ " to SRV parts")
  | Some (service, (proto, name)) => inl (service, proto, name)
  end.

Record SRV : Set := mkSRV { srv_Target : string; srv_Port : Z }.

Definition server_string (r : SRV) : string := srv_Target r +:+ ":" +:+ FormatInt (srv_Port r).

(** [sort.Strings]: in the order of the bytes. *)
Definition sort_Strings : list string → list string := merge_sort String.le.

Definition lookupServerStringsFromSrv (srv : string)
    (addrsLookup : string → string → string → list SRV + string) : list string + string :=
  match ParseSrv srv with
  | inr err => inr err
  | inl (service, proto, name) =>
      match addrsLookup service proto name with
      | inr err => inr err
      | inl srvs => inl (sort_Strings (server_string <$> srvs))
      end
  end.

(** ** Parsing *)

(** A possible value of a group. *)
Definition group (s : string) : Prop := s ≠ "" ∧ no_line_feed s = true.

Definition srv_name (a b c : string) : string := "_" +:+ a +:+ "._" +:+ b +:+ "." +:+ c.

Lemma lazy_group_sound {A} sep (k : string → option A) s g a :
  lazy_group sep k s = Some (g, a) → group g ∧ ∃ rest, s = g +:+ sep +:+ rest ∧ k rest = Some a.
Proof.
  revert g. induction s as [|c s IH]; intros g; simpl; [done|]. case_decide as Hc; [done|].
  destruct (if HasPrefix s sep then _ else None) eqn:Hk.
  - intros [= <- <-]. destruct (HasPrefix s sep) eqn:Hp; [|done].
    apply HasPrefix_true in Hp as [rest ->]. rewrite drop_str_app in Hk.
    split; [|by exists rest]. split; [done|]. simpl. by rewrite bool_decide_true.
  - destruct (lazy_group sep k s) as [[g' a']|] eqn:Hl; [|done]. intros [= <- <-].
    destruct (IH g' eq_refl) as [[_ Hg] (rest&->&Hr)]. split; [|by exists rest].
    split; [done|]. simpl. by rewrite bool_decide_true, Hg.
Qed.

Lemma lazy_group_complete {A} sep (k : string → option A) g rest :
  group g → is_Some (k rest) → is_Some (lazy_group sep k (g +:+ sep +:+ rest)).
Proof.
  induction g as [|c g IH]; intros [Hne Hg] Hk; [done|]. simpl in *.
  apply andb_true_iff in Hg as [Hc%bool_decide_eq_true Hg]. case_decide; [done|].
  destruct (decide (g = "")) as [->|Hg'].
  - simpl. rewrite HasPrefix_app, drop_str_app. by destruct Hk as [a ->].
  - destruct (if HasPrefix _ sep then _ else None); [done|].
    destruct IH as [[g' a] ->]; done.
Qed.

(** A label: a group without a dot, so it cannot end earlier than at the dot
    that follows it. *)
Definition label (s : string) : Prop := group s ∧ Cut s "." = None.

Lemma Cut_dot_cons c s : Cut (String c s) "." = None → c ≠ "."%char ∧ Cut s "." = None.
Proof.
  simpl. rewrite HasPrefix_byte. case_bool_decide as Hc; [done|]. intros H. split; [congruence|].
  by destruct (Cut s ".") as [[]|].
Qed.

Lemma lazy_group_label {A} sep (k : string → option A) g rest a :
  HasPrefix sep "." = true → label g → k rest = Some a →
  lazy_group sep k (g +:+ sep +:+ rest) = Some (g, a).
Proof.
  intros [sep' ->]%HasPrefix_true. remember ("." +:+ sep') as sep eqn:Hsep.
  induction g as [|c g IH]; intros [[Hne Hg] Hdot] Hk; [done|]. apply Cut_dot_cons in Hdot as [_ Hdot].
  simpl in Hg. apply andb_true_iff in Hg as [Hc%bool_decide_eq_true Hg]. cbn [lazy_group String.append].
  case_decide; [done|]. destruct g as [|c' g].
  - change ("" +:+ ?x) with x. by rewrite HasPrefix_app, drop_str_app, Hk.
  - destruct (HasPrefix _ _) eqn:Hp.
    + apply HasPrefix_true in Hp as [r Hr]. rewrite Hsep in Hr. injection Hr as -> _. by apply Cut_dot_cons in Hdot as [? _].
    + rewrite IH; [done| |done]. done.
Qed.

Lemma rest_group_Some s : group s → rest_group s = Some s.
Proof. intros [Hne Hg]. unfold rest_group. by rewrite bool_decide_true, Hg by done. Qed.

Lemma rest_group_inv s c : rest_group s = Some c → c = s ∧ group s.
Proof.
  unfold rest_group. destruct (bool_decide _ && _) eqn:Hb; [|done]. intros [= <-].
  apply andb_true_iff in Hb as [?%bool_decide_eq_true ?]. done.
Qed.

(** [ParseSrv] accepts exactly the names made of an underscore, a service, a
    dot and an underscore, a protocol, a dot and a host, each of at least one
    byte and on one line: what it returns reassembles to its argument, any other
    name is reported as unparsable, and for a service and a protocol that are
    single labels it returns them and the whole rest as the host. *)
Theorem ParseSrv_spec srv :
  match ParseSrv srv with
  | inl (service, proto, name) =>
      srv = srv_name service proto name ∧ group service ∧ group proto ∧ group name ∧
      ∀ a b c, label a → label b → group c → srv = srv_name a b c →
        (service, proto, name) = (a, b, c)
  | inr err =>
      err = "could not parse " +:+ srv +:+ " to SRV parts" ∧
      ∀ a b c, group a → group b → group c → srv ≠ srv_name a b c
  end.
Proof.
  unfold ParseSrv, srv_match. destruct (HasPrefix srv "_") eqn:Hp.
  2: { split; [done|]. intros a b c _ _ _ ->. unfold srv_name in Hp. by rewrite HasPrefix_app in Hp. }
  apply HasPrefix_true in Hp as [s ->]. rewrite (drop_str_app "_" s : drop_str 1 _ = _).
  destruct (lazy_group _ _ s) as [[service [proto name]]|] eqn:Hl.
  - pose proof Hl as Hl'. apply lazy_group_sound in Hl' as [Hs (r1&->&Hr1)].
    apply lazy_group_sound in Hr1 as [Hpr (r2&->&Hr2)]. apply rest_group_inv in Hr2 as [-> Hn].
    split_and!; try done. intros a b c Ha Hb Hc Heq. apply (inj (String.append "_")) in Heq.
    rewrite Heq in Hl. erewrite lazy_group_label in Hl; [|done|done|].
    2: { erewrite lazy_group_label; [reflexivity|done|done|]. by apply rest_group_Some. }
    congruence.
  - split; [done|]. intros a b c Ha Hb Hc Heq. apply (inj (String.append "_")) in Heq. subst s.
    edestruct (lazy_group_complete "._" (lazy_group "." rest_group)) as [x Hx]; [exact Ha| |].
    + apply lazy_group_complete; [exact Hb|]. rewrite (rest_group_Some c) by done. by eexists.
    + congruence.
Qed.

(** ** Looking up servers *)

Lemma sort_Strings_Permutation l l' : l ≡ₚ l' → sort_Strings l = sort_Strings l'.
Proof.
  intros Hp. unfold sort_Strings. apply (Sorted_unique String.le).
  - apply Sorted_merge_sort, _.
  - apply Sorted_merge_sort, _.
  - by rewrite !merge_sort_Permutation.
Qed.

(** The server list does not depend on the order of the DNS answer, so
    every instance assigns the same shards: two lookups of one name whose
    answers are permutations of each other give the same list, which is sorted
    and holds each [host:port] of the answer once per record. *)
Theorem lookupServerStringsFromSrv_deterministic srv service proto name lookup lookup' srvs srvs' :
  ParseSrv srv = inl (service, proto, name) →
  lookup service proto name = inl srvs → lookup' service proto name = inl srvs' → srvs ≡ₚ srvs' →
  ∃ servers, lookupServerStringsFromSrv srv lookup = inl servers ∧
    lookupServerStringsFromSrv srv lookup' = inl servers ∧
    Sorted String.le servers ∧ servers ≡ₚ server_string <$> srvs.
Proof.
  intros Hparse Hl Hl' Hp. exists (sort_Strings (server_string <$> srvs)).
  unfold lookupServerStringsFromSrv. rewrite Hparse, Hl, Hl'. split_and!; [done| | |].
  - by rewrite (sort_Strings_Permutation _ _ (fmap_Permutation _ _ _ Hp)).
  - apply Sorted_merge_sort, _.
  - apply merge_sort_Permutation.
Qed.

Lemma lookupServerStringsFromSrv_deterministic_witness :
  lookupServerStringsFromSrv "_memcache._tcp.example.com"
    (λ _ _ _, inl [mkSRV "b" 11211; mkSRV "a" 11212]) = inl ["a:11212"; "b:11211"].
Proof.
  destruct (lookupServerStringsFromSrv_deterministic "_memcache._tcp.example.com" "memcache" "tcp" "example.com"
    (λ _ _ _, inl [mkSRV "b" 11211; mkSRV "a" 11212]) (λ _ _ _, inl [mkSRV "a" 11212; mkSRV "b" 11211])
    [mkSRV "b" 11211; mkSRV "a" 11212] [mkSRV "a" 11212; mkSRV "b" 11211]) as (servers&H1&H2&_&_).
  - by vm_compute.
  - done.
  - done.
  - constructor.
  - rewrite H1, <-H2. by vm_compute.
Defined.
