(* ===== verification/Stats.v ===== *)
(** * [src/stats]: the statistics manager

    [ManagerImpl] of [src/stats/manager_impl.go]: the scopes it derives from the
    store and the settings' extra tags, and the handles it makes for rate
    limits, domains and the service. *)

From S2P Require Import Prelude GoStrings World Utils.

#[local] Arguments String.append : simpl nomatch.

(** [gostats] scopes: [store.ScopeWithTags(name, tags)], [scope.Scope(name)],
    [scope.NewCounter(name)], [scope.NewCounterWithTags(name, tags)]. *)
Definition ScopeWithTags (name : string) (tags : list (string * string)) : Scope :=
  mkScope [name] tags.
Definition SubScope (s : Scope) (name : string) : Scope :=
  mkScope (sc_path s ++ [name]) (sc_tags s).
Definition NewCounter (s : Scope) (name : string) : Counter := mkCounter s name.
Definition NewCounterWithTags (s : Scope) (name : string) (tags : list (string * string)) : Counter :=
  mkCounter (mkScope (sc_path s) (sc_tags s ++ tags)) name.

Record ShouldRateLimitStats : Set := mkShouldRateLimitStats {
  ss_RedisError : Counter;
  ss_ServiceError : Counter;
}.

Record ServiceStats : Set := mkServiceStats {
  sv_ConfigLoadSuccess : Counter;
  sv_ConfigLoadError : Counter;
  sv_ShouldRateLimit : ShouldRateLimitStats;
  sv_GlobalShadowMode : Counter;
}.

Record DomainStats : Set := mkDomainStats { ds_Key : string; ds_NotFound : Counter }.

Record ManagerImpl : Set := mkManager {
  m_rlStatsScope : Scope;
  m_serviceStatsScope : Scope;
  m_shouldRateLimitScope : Scope;
}.

Definition NewStatManager (ExtraTags : list (string * string)) : ManagerImpl :=
  let serviceScope := SubScope (ScopeWithTags "ratelimit" ExtraTags) "service" in
  {| m_rlStatsScope := SubScope serviceScope "rate_limit";
     m_serviceStatsScope := serviceScope;
     m_shouldRateLimitScope := SubScope serviceScope "call.should_rate_limit" |}.

Definition NewStats (this : ManagerImpl) (key : string) : RateLimitStats :=
  let k := SanitizeStatName key in
  {| s_Key := key;
     s_TotalHits := NewCounter (m_rlStatsScope this) (k +:+ ".total_hits");
     s_OverLimit := NewCounter (m_rlStatsScope this) (k +:+ ".over_limit");
     s_NearLimit := NewCounter (m_rlStatsScope this) (k +:+ ".near_limit");
     s_OverLimitWithLocalCache :=
       NewCounter (m_rlStatsScope this) (k +:+ ".over_limit_with_local_cache");
     s_WithinLimit := NewCounter (m_rlStatsScope this) (k +:+ ".within_limit");
     s_ShadowMode := NewCounter (m_rlStatsScope this) (k +:+ ".shadow_mode") |}.

(** The [Key] field of the result is left empty by the code. *)
Definition NewDomainStats (this : ManagerImpl) (domain : string) : DomainStats :=
  let d := SanitizeStatName domain in
  {| ds_Key := "";
     ds_NotFound := NewCounter (m_rlStatsScope this) (d +:+ ".domain_not_found") |}.

Definition NewShouldRateLimitStats (this : ManagerImpl) : ShouldRateLimitStats :=
  {| ss_RedisError := NewCounter (m_shouldRateLimitScope this) "redis_error";
     ss_ServiceError := NewCounter (m_shouldRateLimitScope this) "service_error" |}.

Definition NewServiceStats (this : ManagerImpl) : ServiceStats :=
  {| sv_ConfigLoadSuccess := NewCounter (m_serviceStatsScope this) "config_load_success";
     sv_ConfigLoadError := NewCounter (m_serviceStatsScope this) "config_load_error";
     sv_ShouldRateLimit := NewShouldRateLimitStats this;
     sv_GlobalShadowMode := NewCounter (m_serviceStatsScope this) "global_shadow_mode" |}.

Definition GetKey (this : RateLimitStats) : string := s_Key this.

(** ** Separation of counters *)

Definition stats_counters (s : RateLimitStats) : list Counter :=
  [s_TotalHits s; s_OverLimit s; s_NearLimit s; s_OverLimitWithLocalCache s;
   s_WithinLimit s; s_ShadowMode s].

(** The six suffixes, in the order of [stats_counters]. *)
Definition stat_suffixes : list string :=
  [".total_hits"; ".over_limit"; ".near_limit"; ".over_limit_with_local_cache";
   ".within_limit"; ".shadow_mode"].

Lemma stats_counters_NewStats m key :
  stats_counters (NewStats m key) =
    (λ suf, mkCounter (m_rlStatsScope m) (SanitizeStatName key +:+ suf)) <$> stat_suffixes.
Proof. done. Qed.

Lemma str_app_eq_suffix a b x y :
  a +:+ x = b +:+ y → (∃ r, b = a +:+ r ∧ x = r +:+ y) ∨ (∃ r, a = b +:+ r ∧ y = r +:+ x).
Proof.
  revert b. induction a as [|c a IH]; intros b E; simpl in *; [left; by exists b|].
  destruct b as [|c' b]; simpl in *; [right; by exists (String c a)|].
  injection E as -> E. destruct (IH b E) as [(r&->&->)|(r&->&->)]; [left|right]; by exists r.
Qed.

Definition is_suffix (x y : string) : bool :=
  HasPrefix (String.rev y) (String.rev x).

Lemma rev_app_spec s t : String.rev_app s t = String.rev s +:+ t.
Proof.
  unfold String.rev. revert t. induction s as [|c s IH]; intros t; simpl; [done|].
  rewrite IH, (IH (String c "")). by rewrite str_app_assoc.
Qed.

Lemma rev_app_distr_str s t : String.rev (s +:+ t) = String.rev t +:+ String.rev s.
Proof.
  unfold String.rev. induction s as [|c s IH]; simpl; [by rewrite str_app_nil_r|].
  rewrite rev_app_spec, (rev_app_spec s). unfold String.rev at 1. rewrite IH.
  by rewrite str_app_assoc.
Qed.

Lemma is_suffix_app r y : is_suffix y (r +:+ y) = true.
Proof. unfold is_suffix. rewrite rev_app_distr_str. apply HasPrefix_app. Qed.

(** No statistic suffix is a proper suffix of another. *)
Lemma stat_suffixes_free x y :
  x ∈ stat_suffixes → y ∈ stat_suffixes → is_suffix x y = true → x = y.
Proof.
  unfold stat_suffixes. rewrite !elem_of_cons. intros Hx Hy.
  repeat match goal with H : _ ∨ _ |- _ => destruct H as [->|H] end;
    try (by apply not_elem_of_nil in Hx); try (by apply not_elem_of_nil in Hy);
    done.
Qed.

Lemma stat_name_inj a b x y :
  x ∈ stat_suffixes → y ∈ stat_suffixes → a +:+ x = b +:+ y → a = b ∧ x = y.
Proof.
  intros Hx Hy [(r&->&->)|(r&->&->)]%str_app_eq_suffix.
  - assert (y = r +:+ y) as E by (apply stat_suffixes_free; auto using is_suffix_app).
    assert (r = "") as ->; [|by rewrite str_app_nil_r].
    apply (f_equal String.length) in E. rewrite str_app_length in E. destruct r; simpl in *; [done|lia].
  - assert (x = r +:+ x) as E by (apply stat_suffixes_free; auto using is_suffix_app).
    assert (r = "") as ->; [|by rewrite str_app_nil_r].
    apply (f_equal String.length) in E. rewrite str_app_length in E. destruct r; simpl in *; [done|lia].
Qed.

Lemma NewStats_NoDup m key : NoDup (stats_counters (NewStats m key)).
Proof.
  rewrite stats_counters_NewStats. apply NoDup_fmap_2_strong.
  - intros x y Hx Hy [= E]. by apply stat_name_inj in E as [_ ?].
  - apply (bool_decide_unpack _). by vm_compute.
Qed.
