(* ===== verification/Config.v ===== *)
(** * [src/config/config_impl.go]: loading a configuration and finding limits

    The YAML structures, the descriptor tree built from them
    ([loadDescriptors], [loadConfig], [NewRateLimitConfigImpl]) and the lookup
    [GetLimit].  The tree's nodes hold pointers to [RateLimit] objects of the
    heap ([World.v]); a node's children are a Go map, here a [gmap].

    [Unit_value] is the generated protobuf table
    [RateLimitResponse_RateLimit_Unit_value] and a parameter. *)

From S2P Require Import Prelude GoStrings World Utils Stats.

#[local] Open Scope Z_scope.

(** ** Data *)

Record yamlReplaces : Set := mkYamlReplaces { yr_Name : string }.

Record YamlRateLimit : Set := mkYamlRateLimit {
  yl_RequestsPerUnit : Z;
  yl_Unit : string;
  yl_Unlimited : bool;
  yl_Name : string;
  yl_Replaces : list yamlReplaces;
}.

Inductive YamlDescriptor : Set := mkYamlDescriptor {
  yd_Key : string;
  yd_Value : string;
  yd_RateLimit : option YamlRateLimit;
  yd_Descriptors : list YamlDescriptor;
  yd_ShadowMode : bool;
  yd_DetailedMetric : bool;
}.

Record YamlRoot : Set := mkYamlRoot {
  yo_Domain : string;
  yo_Descriptors : list YamlDescriptor;
}.

Inductive rateLimitDescriptor : Set := mkNode {
  n_descriptors : gmap string rateLimitDescriptor;
  n_limit : option loc;
  n_wildcardKeys : list string;
}.

(** [rateLimitDomain] embeds one [rateLimitDescriptor] and nothing else. *)
Abbreviation rateLimitDomain := rateLimitDescriptor.

Record rateLimitConfigImpl : Set := mkConfig {
  cf_domains : gmap string rateLimitDomain;
  cf_statsManager : ManagerImpl;
  cf_mergeDomainConfigs : bool;
}.

Record RateLimitConfigToLoad : Set := mkToLoad {
  cl_Name : string;
  cl_ConfigYaml : YamlRoot;
}.

Definition newRateLimitConfigError (name err : string) : panic :=
  PConfigError (name +:+ ": " +:+ err).

(** Value is optional: the key of the map is the key alone or key_value. *)
Definition finalKey_of (d : YamlDescriptor) : string :=
  if decide (yd_Value d = "") then yd_Key d else yd_Key d +:+ "_" +:+ yd_Value d.

(** [finalKey[len(finalKey)-1:] == "*"] *)
Definition is_wildcard (finalKey : string) : bool := bool_decide (last_byte finalKey = "*").

Section config.
Context {E : Type} (Unit_value : string → option Z).
#[local] Abbreviation W := (World E).

(** ** Creating limits *)

Definition make_limit (requestsPerUnit unit : Z) (rlStats : RateLimitStats)
    (unlimited shadowMode : bool) (name : string) (replaces : list string)
    (detailedMetric : bool) : RateLimit :=
  {| rl_FullKey := GetKey rlStats;
     rl_Stats := rlStats;
     rl_Limit := mkPbRateLimit requestsPerUnit unit name;
     rl_Unlimited := unlimited;
     rl_ShadowMode := shadowMode;
     rl_Name := name;
     rl_Replaces := replaces;
     rl_DetailedMetric := detailedMetric |}.

Definition NewRateLimit (requestsPerUnit unit : Z) (rlStats : RateLimitStats)
    (unlimited shadowMode : bool) (name : string) (replaces : list string)
    (detailedMetric : bool) : M W loc :=
  new (make_limit requestsPerUnit unit rlStats unlimited shadowMode name replaces
         detailedMetric).

(** ** Loading *)

(** [value, present := Unit_value[strings.ToUpper(unit)]]: a missing key
    reads as 0. *)
Definition unit_value (unit : string) : Z := default 0 (Unit_value (ToUpper unit)).

Definition valid_unit (unit : string) : bool :=
  match Unit_value (ToUpper unit) with
  | Some value => negb (value =? UNKNOWN)
  | None => false
  end.

(** The [rate_limit] block of one descriptor (lines 142-184). *)
Definition load_limit (m : ManagerImpl) (name newParentKey : string) (d : YamlDescriptor)
  : M W (option loc) :=
  match yd_RateLimit d with
  | None => mret None
  | Some rl =>
      let unlimited := yl_Unlimited rl in
      let validUnit := valid_unit (yl_Unit rl) in
      _ ← (if unlimited then
             if validUnit
             then throw (newRateLimitConfigError name
                           "should not specify rate limit unit when unlimited")
             else mret ()
           else if negb validUnit
           then throw (newRateLimitConfigError name
                         ("invalid rate limit unit '" +:+ yl_Unit rl +:+ "'"))
           else mret ());
      l ← NewRateLimit (yl_RequestsPerUnit rl) (unit_value (yl_Unit rl))
            (NewStats m newParentKey) unlimited (yd_ShadowMode d) (yl_Name rl)
            (yr_Name <$> yl_Replaces rl) (yd_DetailedMetric d);
      _ ← range (yl_Replaces rl) () (λ _ replaces _,
            if decide (yr_Name replaces = "")
            then throw (newRateLimitConfigError name "should not have an empty replaces entry")
            else if decide (yr_Name replaces = yl_Name rl)
            then throw (newRateLimitConfigError name
                          "replaces should not contain name of same descriptor")
            else mret ());
      mret (Some l)
  end.

(** One round of the loop of [loadDescriptors]: [this] is the node being
    filled; the inner loop is the recursive call on the nested list. *)
Fixpoint loadDescriptor (m : ManagerImpl) (name parentKey : string) (d : YamlDescriptor)
    (this : rateLimitDescriptor) : M W rateLimitDescriptor :=
  if decide (yd_Key d = "") then
    throw (newRateLimitConfigError name "descriptor has empty key")
  else
    let finalKey := finalKey_of d in
    let newParentKey := parentKey +:+ finalKey in
    match n_descriptors this !! finalKey with
    | Some _ =>
        throw (newRateLimitConfigError name
                 ("duplicate descriptor composite key '" +:+ newParentKey +:+ "'"))
    | None =>
        rateLimit ← load_limit m name newParentKey d;
        newDescriptor ←
          (fix loop (ds : list YamlDescriptor) (node : rateLimitDescriptor) :=
             match ds with
             | [] => mret node
             | d' :: ds' =>
                 node' ← loadDescriptor m name (newParentKey +:+ ".") d' node;
                 loop ds' node'
             end) (yd_Descriptors d) (mkNode ∅ rateLimit []);
        mret (mkNode
          (<[finalKey := newDescriptor]> (n_descriptors this))
          (n_limit this)
          (if is_wildcard finalKey
           then n_wildcardKeys this ++ [finalKey] else n_wildcardKeys this))
    end.

Definition loadDescriptors (m : ManagerImpl) (name parentKey : string)
  : list YamlDescriptor → rateLimitDescriptor → M W rateLimitDescriptor :=
  fix loop ds this :=
    match ds with
    | [] => mret this
    | d :: ds' =>
        this' ← loadDescriptor m name parentKey d this;
        loop ds' this'
    end.

Definition loadConfig (this : rateLimitConfigImpl) (config : RateLimitConfigToLoad)
  : M W rateLimitConfigImpl :=
  let root := cl_ConfigYaml config in
  let set_domain d := mkConfig (<[yo_Domain root := d]> (cf_domains this))
                        (cf_statsManager this) (cf_mergeDomainConfigs this) in
  if decide (yo_Domain root = "") then
    throw (newRateLimitConfigError (cl_Name config) "config file cannot have empty domain")
  else
    match cf_domains this !! yo_Domain root with
    | Some dom =>
        if negb (cf_mergeDomainConfigs this) then
          throw (newRateLimitConfigError (cl_Name config)
                   ("duplicate domain '" +:+ yo_Domain root +:+ "' in config file"))
        else
          dom' ← loadDescriptors (cf_statsManager this) (cl_Name config)
                   (yo_Domain root +:+ ".") (yo_Descriptors root) dom;
          mret (set_domain dom')
    | None =>
        newDomain ← loadDescriptors (cf_statsManager this) (cl_Name config)
                      (yo_Domain root +:+ ".") (yo_Descriptors root) (mkNode ∅ None []);
        mret (set_domain newDomain)
    end.

Definition NewRateLimitConfigImpl (configs : list RateLimitConfigToLoad)
    (statsManager : ManagerImpl) (mergeDomainConfigs : bool) : M W rateLimitConfigImpl :=
  range configs (mkConfig ∅ statsManager mergeDomainConfigs)
    (λ _ config ret, loadConfig ret config).

(** [rateLimitConfigLoaderImpl.Load] *)
Definition Load (configs : list RateLimitConfigToLoad) (statsManager : ManagerImpl)
    (mergeDomainConfigs : bool) : M W rateLimitConfigImpl :=
  NewRateLimitConfigImpl configs statsManager mergeDomainConfigs.

Definition IsEmptyDomains (this : rateLimitConfigImpl) : bool :=
  bool_decide (size (cf_domains this) = 0%nat).

(** ** Lookup *)

Definition descriptorKey (domain : string) (descriptor : Descriptor) : string :=
  let rateLimitKey :=
    foldl (λ k entry,
      (if decide (k = "") then "" else k +:+ ".") +:+ e_Key entry +:+
      (if decide (e_Value entry = "") then "" else "_" +:+ e_Value entry))
      "" (d_Entries descriptor) in
  domain +:+ "." +:+ rateLimitKey.

(** Lines 319-340: key_value, then the wildcards of the level, then the key. *)
Definition match_entry (descriptorsMap : gmap string rateLimitDescriptor)
    (prevDescriptor : rateLimitDescriptor) (entry : Entry) : option rateLimitDescriptor :=
  let finalKey := e_Key entry +:+ "_" +:+ e_Value entry in
  let next := descriptorsMap !! finalKey in
  let next :=
    match next with
    | Some d => Some d
    | None =>
        match list_find (λ wk, Is_true (HasPrefix finalKey (TrimSuffix wk "*")))
                (n_wildcardKeys prevDescriptor) with
        | Some (_, wk) => descriptorsMap !! wk
        | None => None
        end
    end in
  match next with
  | Some d => Some d
  | None => descriptorsMap !! e_Key entry
  end.

(** The loop of [GetLimit] (lines 316-363) from entry [i] on; [n] is the
    number of entries.  Returns the limit and the detailed metric key. *)
Fixpoint lookup_entries (m : ManagerImpl) (n i : nat) (entries : list Entry)
    (descriptorsMap : gmap string rateLimitDescriptor) (prevDescriptor : rateLimitDescriptor)
    (rateLimit : option loc) (detailedMetricFullKey : string) : M W (option loc * string) :=
  match entries with
  | [] => mret (rateLimit, detailedMetricFullKey)
  | entry :: entries' =>
      let key := detailedMetricFullKey +:+ "." +:+ (e_Key entry +:+ "_" +:+ e_Value entry) in
      let nextDescriptor := match_entry descriptorsMap prevDescriptor entry in
      let rateLimit :=
        match nextDescriptor with
        | Some next =>
            match n_limit next with
            | Some l => if decide (i = n - 1)%nat then Some l else rateLimit
            | None => rateLimit
            end
        | None => rateLimit
        end in
      let stop :=
        match rateLimit with
        | Some l =>
            rl ← load l;
            if rl_DetailedMetric rl then
              l' ← NewRateLimit (pl_RequestsPerUnit (rl_Limit rl)) (pl_Unit (rl_Limit rl))
                     (NewStats m (rl_FullKey rl)) (rl_Unlimited rl) (rl_ShadowMode rl)
                     (rl_Name rl) (rl_Replaces rl) (rl_DetailedMetric rl);
              mret (Some l', key)
            else mret (Some l, key)
        | None => mret (None, key)
        end in
      match nextDescriptor with
      | Some next =>
          if decide (0 < size (n_descriptors next))%nat
          then lookup_entries m n (S i) entries' (n_descriptors next) next rateLimit key
          else stop
      | None => stop
      end
  end.

Definition GetLimit (this : rateLimitConfigImpl) (domain : string) (descriptor : Descriptor)
  : M W (option loc) :=
  match cf_domains this !! domain with
  | None =>
      let domainStats := NewDomainStats (cf_statsManager this) domain in
      _ ← Inc (ds_NotFound domainStats);
      mret None
  | Some value =>
      match d_Limit descriptor with
      | Some o =>
          l ← NewRateLimit (o_RequestsPerUnit o) (o_Unit o)
                (NewStats (cf_statsManager this) (descriptorKey domain descriptor))
                false false "" [] false;
          mret (Some l)
      | None =>
          '(rateLimit, key) ← lookup_entries (cf_statsManager this)
              (length (d_Entries descriptor)) 0 (d_Entries descriptor)
              (n_descriptors value) value None domain;
          match rateLimit with
          | None => mret None
          | Some l =>
              rl ← load l;
              _ ← (if rl_DetailedMetric rl
                   then set_stats l (NewStats (cf_statsManager this) key) else mret ());
              mret (Some l)
          end
      end
  end.
End config.
