(* ===== verification/ConfigLoad.v ===== *)
(** * Loading a configuration: when it succeeds and what it builds

    [valid_descriptor] and [valid_config] are decision procedures for the
    inputs the loader accepts; [loaded] relates a YAML descriptor to the tree
    node that represents it.  Loading accepts exactly the valid inputs, rejects
    the others with a configuration error and nothing else, and builds a tree
    that represents the descriptors in order. *)

From S2P Require Import Prelude GoStrings World Utils Stats Config.

#[local] Open Scope Z_scope.

(** ** Induction over nested descriptors *)

Lemma YamlDescriptor_nested_ind (P : YamlDescriptor → Prop) :
  (∀ d, (∀ d', d' ∈ yd_Descriptors d → P d') → P d) → ∀ d, P d.
Proof.
  intros H. fix IH 1. intros [k v l ds sm dm]. apply H. simpl. apply Forall_forall.
  induction ds as [|d' ds IHds]; constructor; [apply IH|exact IHds].
Qed.

(** ** Valid input *)

Section valid.
Context (Unit_value : string → option Z).

Definition valid_limit (l : YamlRateLimit) : bool :=
  xorb (yl_Unlimited l) (valid_unit Unit_value (yl_Unit l)) &&
  forallb (λ r, negb (bool_decide (yr_Name r = "")) &&
                negb (bool_decide (yr_Name r = yl_Name l))) (yl_Replaces l).

Definition distinct_keys (ds : list YamlDescriptor) : bool :=
  bool_decide (NoDup (finalKey_of <$> ds)).

Fixpoint valid_descriptor (d : YamlDescriptor) : bool :=
  negb (bool_decide (yd_Key d = "")) &&
  match yd_RateLimit d with Some l => valid_limit l | None => true end &&
  distinct_keys (yd_Descriptors d) && forallb valid_descriptor (yd_Descriptors d).

Definition valid_descriptors (ds : list YamlDescriptor) : bool :=
  distinct_keys ds && forallb valid_descriptor ds.

(** The descriptors a list of configurations gives a domain, in order. *)
Definition domain_descriptors (configs : list RateLimitConfigToLoad) (domain : string)
  : list YamlDescriptor :=
  concat ((λ c, if decide (yo_Domain (cl_ConfigYaml c) = domain)
                then yo_Descriptors (cl_ConfigYaml c) else []) <$> configs).

Definition domains_of (configs : list RateLimitConfigToLoad) : list string :=
  (λ c, yo_Domain (cl_ConfigYaml c)) <$> configs.

(** Every domain is named, domains are distinct unless they are merged, and
    the descriptors each domain collects are valid. *)
Definition valid_config (mergeDomainConfigs : bool) (configs : list RateLimitConfigToLoad)
  : bool :=
  forallb (λ c, negb (bool_decide (yo_Domain (cl_ConfigYaml c) = ""))) configs &&
  (mergeDomainConfigs || bool_decide (NoDup (domains_of configs))) &&
  forallb (λ domain, valid_descriptors (domain_descriptors configs domain))
    (domains_of configs).
End valid.

(** ** The tree a descriptor is represented by *)

Section loaded.
Context (Unit_value : string → option Z) (m : ManagerImpl).

(** The limit a [rate_limit] block stands for. *)
Definition limit_of (key : string) (d : YamlDescriptor) (l : YamlRateLimit) : RateLimit :=
  make_limit (yl_RequestsPerUnit l) (unit_value Unit_value (yl_Unit l)) (NewStats m key)
    (yl_Unlimited l) (yd_ShadowMode d) (yl_Name l) (yr_Name <$> yl_Replaces l)
    (yd_DetailedMetric d).

Definition loaded_limit (h : list RateLimit) (key : string) (d : YamlDescriptor)
    (o : option loc) : Prop :=
  match yd_RateLimit d, o with
  | None, None => True
  | Some l, Some p => ∃ rl, h !! p = Some rl ∧ same_limit (limit_of key d l) rl
  | _, _ => False
  end.

(** The children of a node are exactly the listed descriptors, and its
    wildcards are the wildcard keys among them, in the order of the list. *)
Definition loaded_shape (ds : list YamlDescriptor) (nd : rateLimitDescriptor) : Prop :=
  NoDup (finalKey_of <$> ds) ∧
  (∀ k, is_Some (n_descriptors nd !! k) ↔ k ∈ finalKey_of <$> ds) ∧
  n_wildcardKeys nd = filter (λ k, Is_true (is_wildcard k)) (finalKey_of <$> ds).

Inductive loaded (h : list RateLimit) (pk : string) (d : YamlDescriptor)
    (nd : rateLimitDescriptor) : Prop :=
  | loaded_intro :
      loaded_limit h (pk +:+ finalKey_of d) d (n_limit nd) →
      loaded_shape (yd_Descriptors d) nd →
      (∀ d', d' ∈ yd_Descriptors d → ∃ nd',
         n_descriptors nd !! finalKey_of d' = Some nd' ∧
         loaded h ((pk +:+ finalKey_of d) +:+ ".") d' nd') →
      loaded h pk d nd.

Definition loaded_list (h : list RateLimit) (pk : string) (ds : list YamlDescriptor)
    (nd : rateLimitDescriptor) : Prop :=
  loaded_shape ds nd ∧
  ∀ d, d ∈ ds → ∃ nd', n_descriptors nd !! finalKey_of d = Some nd' ∧ loaded h pk d nd'.

Lemma loaded_limit_ext h h' key d o :
  heap_ext h h' → loaded_limit h key d o → loaded_limit h' key d o.
Proof.
  unfold loaded_limit. intros Hx. destruct (yd_RateLimit d), o; try done.
  intros (rl&Hrl&?). apply Hx in Hrl as (rl'&?&?). exists rl'. split; [done|by etransitivity].
Qed.

Lemma loaded_ext h h' d : heap_ext h h' → ∀ pk nd, loaded h pk d nd → loaded h' pk d nd.
Proof.
  intros Hx. induction d as [d IH] using YamlDescriptor_nested_ind. intros pk nd [Hl Hs Hc].
  constructor; [by eapply loaded_limit_ext|done|].
  intros d' Hd'. destruct (Hc d' Hd') as (nd'&?&?). eauto.
Qed.

Lemma loaded_list_ext h h' pk ds nd :
  heap_ext h h' → loaded_list h pk ds nd → loaded_list h' pk ds nd.
Proof.
  intros Hx [Hs Hc]. split; [done|]. intros d Hd. destruct (Hc d Hd) as (nd'&?&?).
  eauto using loaded_ext.
Qed.

Lemma loaded_list_children h pk d nd :
  loaded h pk d nd → loaded_list h ((pk +:+ finalKey_of d) +:+ ".") (yd_Descriptors d) nd.
Proof. intros [? ? ?]. by split. Qed.

Lemma loaded_shape_nil o : loaded_shape [] (mkNode ∅ o []).
Proof.
  split_and!; [constructor| |done]. intros k. simpl. rewrite lookup_empty.
  split; [by intros [? [=]]|by intros ?%not_elem_of_nil].
Qed.

Lemma loaded_list_nil h pk o : loaded_list h pk [] (mkNode ∅ o []).
Proof. split; [apply loaded_shape_nil|by intros ? ?%not_elem_of_nil]. Qed.

(** The node after one more child. *)
Definition add_child (this : rateLimitDescriptor) (k : string) (c : rateLimitDescriptor)
  : rateLimitDescriptor :=
  mkNode (<[k := c]> (n_descriptors this)) (n_limit this)
    (if is_wildcard k then n_wildcardKeys this ++ [k] else n_wildcardKeys this).

Lemma loaded_list_snoc h pk ds d this c :
  loaded_list h pk ds this → n_descriptors this !! finalKey_of d = None →
  loaded h pk d c → loaded_list h pk (ds ++ [d]) (add_child this (finalKey_of d) c).
Proof.
  intros [(Hnd&Hdom&Hw) Hc] Hfresh Hd.
  assert (finalKey_of d ∉ finalKey_of <$> ds) as Hni.
  { rewrite <-Hdom, Hfresh. by intros [? [=]]. }
  split; [split_and!|].
  - rewrite fmap_app. apply NoDup_app. split_and!; [done| |apply NoDup_singleton].
    intros k Hk ->%list_elem_of_singleton. done.
  - intros k. rewrite fmap_app, elem_of_app, <-Hdom; simpl. rewrite list_elem_of_singleton.
    destruct (decide (k = finalKey_of d)) as [->|].
    + rewrite lookup_insert_eq. split; [by right|by eexists].
    + rewrite lookup_insert_ne by done. intuition congruence.
  - simpl. rewrite Hw, fmap_app, filter_app. simpl. rewrite filter_cons, filter_nil.
    destruct (is_wildcard (finalKey_of d)); case_decide; simpl in *; rewrite ?app_nil_r; done.
  - intros d' [Hd'| ->%list_elem_of_singleton]%elem_of_app; simpl.
    + destruct (Hc d' Hd') as (nd'&?&?). exists nd'. split; [|done].
      rewrite lookup_insert_ne; [done|]. intros E. apply Hni. rewrite E.
      by apply list_elem_of_fmap_2.
    + exists c. by rewrite lookup_insert_eq.
Qed.
End loaded.

(** ** Running the loader *)

Section load.
Context {E : Type} (Unit_value : string → option Z) (m : ManagerImpl).
#[local] Abbreviation W := (World E).

(** A computation that returns under [P] when [ok] holds and otherwise raises
    a configuration error. *)
Definition accepts {A} (ok : bool) (P : A → W → Prop) (r : outcome A * W) : Prop :=
  if ok then ∃ a w, r = (Ret a, w) ∧ P a w
  else ∃ msg w, r = (Panic (PConfigError msg), w).
#[local] Arguments accepts : simpl never.

Lemma accepts_bind {A B} ok1 ok2 (P : A → W → Prop) (Q : B → W → Prop)
    (c : M W A) (f : A → M W B) w :
  accepts ok1 P (c w) → (∀ a w', P a w' → accepts ok2 Q (f a w')) →
  accepts (ok1 && ok2) Q ((c ≫= f) w).
Proof.
  unfold accepts. destruct ok1; simpl.
  - intros (a&w'&Hc&HP) Hf. erewrite bind_Ret by exact Hc. exact (Hf _ _ HP).
  - intros (msg&w'&Hc) _. exists msg, w'. by apply bind_Panic.
Qed.

Lemma accepts_ret {A} (P : A → W → Prop) a w : P a w → accepts true P (@mret (M W) _ A a w).
Proof. intros. by exists a, w. Qed.

Lemma accepts_throw {A} (P : A → W → Prop) name err w :
  accepts false P (throw (newRateLimitConfigError name err) w).
Proof. by eexists _, _. Qed.

Lemma accepts_impl {A} ok (P Q : A → W → Prop) r :
  accepts ok P r → (∀ a w, P a w → Q a w) → accepts ok Q r.
Proof. unfold accepts. destruct ok; simpl; [|done]. intros (a&w&?&?) HPQ. eauto. Qed.

Lemma range_accepts {A} (good : A → bool) (body : nat → A → unit → M W unit) (l : list A) i w :
  (∀ j x s, accepts (good x) (λ _ w', w' = w) (body j x s w)) →
  accepts (forallb good l) (λ _ w', w' = w) (range_from i l body () w).
Proof.
  intros Hb. revert i. induction l as [|x l IH]; intros i; simpl; [by apply accepts_ret|].
  eapply accepts_bind; [apply Hb|]. intros [] w' ->. apply IH.
Qed.

Definition grow (k : list RateLimit) (w : W) : W :=
  mkWorld (w_heap w ++ k) (w_counters w) (w_ext w).

Lemma grow_nil w : grow [] w = w.
Proof. destruct w. unfold grow; simpl. by rewrite app_nil_r. Qed.

Lemma grow_grow k k' w : grow k' (grow k w) = grow (k ++ k') w.
Proof. unfold grow; simpl. by rewrite app_assoc. Qed.

Definition limit_valid (d : YamlDescriptor) : bool :=
  match yd_RateLimit d with Some l => valid_limit Unit_value l | None => true end.

Lemma load_limit_accepts name key d w :
  accepts (limit_valid d)
    (λ o w', ∃ k, w' = grow k w ∧ loaded_limit Unit_value m (w_heap w') key d o)
    (load_limit Unit_value m name key d w).
Proof.
  unfold load_limit, limit_valid, loaded_limit.
  destruct (yd_RateLimit d) as [l|]; [|by apply accepts_ret; exists []; rewrite grow_nil].
  unfold valid_limit. eapply (accepts_bind _ _ (λ _ w', w' = w)).
  { destruct (yl_Unlimited l), (valid_unit Unit_value (yl_Unit l)); simpl;
      first [apply accepts_throw|by apply accepts_ret]. }
  intros _ w' ->. erewrite bind_Ret by reflexivity.
  rewrite <-(andb_true_r (forallb _ _)).
  eapply accepts_bind.
  { apply range_accepts. intros j r s.
    repeat case_bool_decide; repeat case_decide; simpl; try done;
      first [apply accepts_throw|by apply accepts_ret]. }
  intros _ w' ->. apply accepts_ret.
  eexists [_]. split; [reflexivity|]. exists (limit_of Unit_value m key d l).
  split; [|reflexivity]. simpl. by rewrite list_lookup_middle.
Qed.

Lemma loadDescriptor_eq name pk d this :
  loadDescriptor (E := E) Unit_value m name pk d this =
  if decide (yd_Key d = "") then
    throw (newRateLimitConfigError name "descriptor has empty key")
  else
    match n_descriptors this !! finalKey_of d with
    | Some _ =>
        throw (newRateLimitConfigError name
                 ("duplicate descriptor composite key '" +:+ (pk +:+ finalKey_of d) +:+ "'"))
    | None =>
        o ← load_limit Unit_value m name (pk +:+ finalKey_of d) d;
        c ← loadDescriptors Unit_value m name ((pk +:+ finalKey_of d) +:+ ".")
              (yd_Descriptors d) (mkNode ∅ o []);
        mret (add_child this (finalKey_of d) c)
    end.
Proof. by destruct d. Qed.

(** What loading one descriptor into [this] establishes. *)
Definition load_one (d : YamlDescriptor) : Prop := ∀ name pk this w,
  accepts (valid_descriptor Unit_value d &&
           bool_decide (n_descriptors this !! finalKey_of d = None))
    (λ nd w', ∃ c k, nd = add_child this (finalKey_of d) c ∧ w' = grow k w ∧
              loaded Unit_value m (w_heap w') pk d c)
    (loadDescriptor Unit_value m name pk d this w).

Lemma distinct_keys_step ds0 d ds this h pk :
  loaded_list Unit_value m h pk ds0 this →
  distinct_keys (ds0 ++ d :: ds) =
    bool_decide (n_descriptors this !! finalKey_of d = None) &&
    distinct_keys ((ds0 ++ [d]) ++ ds).
Proof.
  intros [(_&Hdom&_) _]. unfold distinct_keys. rewrite <-app_assoc; simpl.
  case_bool_decide as Hnd; [|by rewrite andb_false_r].
  rewrite bool_decide_true; [done|].
  apply eq_None_not_Some. rewrite Hdom. intros Hin.
  rewrite fmap_app in Hnd. apply NoDup_app in Hnd as (_&Hd&_). apply (Hd _ Hin). simpl.
  by left.
Qed.

Lemma loadDescriptors_accepts name pk ds : ∀ ds0 this w,
  (∀ d, d ∈ ds → load_one d) →
  loaded_list Unit_value m (w_heap w) pk ds0 this →
  accepts (distinct_keys (ds0 ++ ds) && forallb (valid_descriptor Unit_value) ds)
    (λ nd w', loaded_list Unit_value m (w_heap w') pk (ds0 ++ ds) nd ∧
              n_limit nd = n_limit this ∧ ∃ k, w' = grow k w)
    (loadDescriptors Unit_value m name pk ds this w).
Proof.
  induction ds as [|d ds IH]; intros ds0 this w Hone Hl.
  - rewrite app_nil_r. replace (distinct_keys ds0) with true.
    + apply accepts_ret. split_and!; [done..|]. exists []. by rewrite grow_nil.
    + symmetry. destruct Hl as [(?&_&_) _]. by apply bool_decide_eq_true_2.
  - simpl. rewrite (distinct_keys_step ds0 d ds this _ _ Hl).
    match goal with |- accepts ?ok _ _ => replace ok with
      ((valid_descriptor Unit_value d && bool_decide (n_descriptors this !! finalKey_of d = None)) &&
       (distinct_keys ((ds0 ++ [d]) ++ ds) && forallb (valid_descriptor Unit_value) ds)) end.
    2: { by destruct (valid_descriptor Unit_value d), (bool_decide _),
           (distinct_keys _), (forallb _ _). }
    destruct (bool_decide (n_descriptors this !! finalKey_of d = None)) eqn:Hfresh.
    + rewrite andb_true_r. eapply accepts_bind.
      { pose proof (Hone d ltac:(by left) name pk this w) as H1.
        rewrite Hfresh, andb_true_r in H1. exact H1. }
      intros nd w' (c&k&->&->&Hc). apply bool_decide_eq_true in Hfresh.
      eapply accepts_impl.
      * apply IH; [intros; apply Hone; by right|].
        eapply loaded_list_snoc; [|done|done]. eapply loaded_list_ext; [|exact Hl]. apply heap_ext_app.
      * intros nd w'. rewrite <-app_assoc; simpl. intros (?&?&k'&->).
        split_and!; [done..|]. eexists. apply grow_grow.
    + rewrite andb_false_r. simpl.
      pose proof (Hone d ltac:(by left) name pk this w) as H1.
      rewrite Hfresh, andb_false_r in H1. destruct H1 as (msg&w'&H1).
      exists msg, w'. by apply bind_Panic.
Qed.

Lemma load_one_all d : load_one d.
Proof.
  induction d as [d IH] using YamlDescriptor_nested_ind. intros name pk this w.
  rewrite loadDescriptor_eq. destruct d as [key value rl ds sm dm]; cbn [valid_descriptor yd_Key].
  case_decide as Hkey; [rewrite bool_decide_true by done; apply accepts_throw|].
  rewrite bool_decide_false by done.
  destruct (n_descriptors this !! _) as [x|] eqn:Hx.
  { rewrite bool_decide_false, andb_false_r by done. apply accepts_throw. }
  rewrite bool_decide_true, andb_true_r by done. cbn [negb andb].
  rewrite <-andb_assoc. eapply accepts_bind; [apply load_limit_accepts|].
  intros o w1 (k1&->&Ho). rewrite <-(andb_true_r (distinct_keys _ && _)).
  eapply accepts_bind.
  { apply (loadDescriptors_accepts name _ ds []); [exact IH|apply loaded_list_nil]. }
  intros c w2 ([Hs Hc]&Hlim&k2&->). apply accepts_ret. eexists c, _.
  split_and!; [done|apply grow_grow|]. constructor; [|done|done].
  rewrite Hlim. eapply loaded_limit_ext; [|exact Ho]. apply heap_ext_app.
Qed.

(** ** Whole configurations *)

Lemma valid_descriptors_app ds ds' :
  valid_descriptors Unit_value (ds ++ ds') = true →
  valid_descriptors Unit_value ds = true.
Proof.
  unfold valid_descriptors, distinct_keys. rewrite !andb_true_iff, forallb_app, andb_true_iff.
  rewrite !bool_decide_eq_true, fmap_app, NoDup_app. intuition.
Qed.

Lemma domain_descriptors_app cs cs' domain :
  domain_descriptors (cs ++ cs') domain =
    domain_descriptors cs domain ++ domain_descriptors cs' domain.
Proof. unfold domain_descriptors. by rewrite fmap_app, concat_app. Qed.

Lemma domain_descriptors_not_in cs domain :
  domain ∉ domains_of cs → domain_descriptors cs domain = [].
Proof.
  unfold domain_descriptors, domains_of. induction cs as [|c cs IH]; [done|]; simpl.
  rewrite not_elem_of_cons. intros [? ?]. rewrite decide_False by done. by apply IH.
Qed.

Lemma valid_config_spec merge cs :
  valid_config Unit_value merge cs = true ↔
    (∀ c, c ∈ cs → yo_Domain (cl_ConfigYaml c) ≠ "") ∧
    (merge = true ∨ NoDup (domains_of cs)) ∧
    ∀ domain, valid_descriptors Unit_value (domain_descriptors cs domain) = true.
Proof.
  unfold valid_config. rewrite !andb_true_iff, orb_true_iff, bool_decide_eq_true, !forallb_forall.
  setoid_rewrite <-list_elem_of_In. setoid_rewrite negb_true_iff.
  setoid_rewrite bool_decide_eq_false.
  split; [|intuition]. intros [[Hne Hm] Hv]. split_and!; [done..|]. intros domain.
  destruct (decide (domain ∈ domains_of cs)); [by apply Hv|].
  by rewrite domain_descriptors_not_in.
Qed.

(** What holds of the configuration after loading [cs]. *)
Definition config_of (merge : bool) (h : list RateLimit) (cs : list RateLimitConfigToLoad)
    (cf : rateLimitConfigImpl) : Prop :=
  cf_statsManager cf = m ∧ cf_mergeDomainConfigs cf = merge ∧
  ∀ domain,
    match cf_domains cf !! domain with
    | Some nd => domain ∈ domains_of cs ∧
        loaded_list Unit_value m h (domain +:+ ".") (domain_descriptors cs domain) nd
    | None => domain ∉ domains_of cs
    end.

Lemma config_of_ext merge h h' cs cf :
  heap_ext h h' → config_of merge h cs cf → config_of merge h' cs cf.
Proof.
  intros Hx (?&?&Hd). split_and!; [done..|]. intros domain. specialize (Hd domain).
  case_match; [|done]. destruct Hd. split; [done|]. by eapply loaded_list_ext.
Qed.

Lemma domain_descriptors_single c domain :
  domain_descriptors [c] domain =
    if decide (yo_Domain (cl_ConfigYaml c) = domain) then yo_Descriptors (cl_ConfigYaml c) else [].
Proof. unfold domain_descriptors; simpl. by rewrite app_nil_r. Qed.

Lemma domains_of_app cs cs' : domains_of (cs ++ cs') = domains_of cs ++ domains_of cs'.
Proof. apply fmap_app. Qed.

Lemma valid_config_app merge cs cs' :
  valid_config Unit_value merge (cs ++ cs') = true → valid_config Unit_value merge cs = true.
Proof.
  rewrite !valid_config_spec. intros (Hne&Hm&Hv). split_and!.
  - intros c Hc. apply Hne, elem_of_app. by left.
  - destruct Hm as [?|Hnd]; [by left|right]. rewrite domains_of_app in Hnd.
    by apply NoDup_app in Hnd as [? _].
  - intros domain. specialize (Hv domain). rewrite domain_descriptors_app in Hv.
    by eapply valid_descriptors_app.
Qed.

Lemma valid_config_snoc merge cs c :
  let domain := yo_Domain (cl_ConfigYaml c) in
  valid_config Unit_value merge cs = true → domain ≠ "" →
  merge = true ∨ domain ∉ domains_of cs →
  valid_config Unit_value merge (cs ++ [c]) =
    distinct_keys (domain_descriptors cs domain ++ yo_Descriptors (cl_ConfigYaml c)) &&
    forallb (valid_descriptor Unit_value) (yo_Descriptors (cl_ConfigYaml c)).
Proof.
  intros domain (Hne&Hm&Hv)%valid_config_spec Hdom Hnew.
  apply Bool.eq_iff_eq_true. rewrite valid_config_spec, andb_true_iff. split.
  - intros (_&_&Hv'). specialize (Hv' domain).
    rewrite domain_descriptors_app, domain_descriptors_single, decide_True in Hv' by done.
    unfold valid_descriptors in Hv'. rewrite forallb_app, !andb_true_iff in Hv'. intuition.
  - intros [Hd Hf]. split_and!.
    + intros c' [?| ->%list_elem_of_singleton]%elem_of_app; auto.
    + destruct Hm as [|Hm]; [by left|]. destruct Hnew as [|Hnew]; [by left|]. right.
      rewrite domains_of_app. apply NoDup_app. split_and!; [done| |apply NoDup_singleton].
      intros k Hk ->%list_elem_of_singleton. done.
    + intros domain'. specialize (Hv domain').
      rewrite domain_descriptors_app, domain_descriptors_single.
      case_decide as Heq; [|by rewrite app_nil_r].
      subst domain'. unfold valid_descriptors in *. rewrite forallb_app, !andb_true_iff in *.
      intuition.
Qed.

(** Setting the domain of one more configuration. *)
Lemma config_of_snoc merge h cs c cf nd :
  let domain := yo_Domain (cl_ConfigYaml c) in
  config_of merge h cs cf →
  loaded_list Unit_value m h (domain +:+ ".")
    (domain_descriptors cs domain ++ yo_Descriptors (cl_ConfigYaml c)) nd →
  config_of merge h (cs ++ [c])
    (mkConfig (<[domain := nd]> (cf_domains cf)) (cf_statsManager cf) (cf_mergeDomainConfigs cf)).
Proof.
  intros domain (?&?&Hd) Hnd. split_and!; [done..|]. intros domain'. simpl.
  rewrite domain_descriptors_app, domain_descriptors_single, domains_of_app.
  destruct (decide (domain = domain')) as [<-|Hne].
  - rewrite lookup_insert_eq, decide_True by done. split; [|done].
    apply elem_of_app. right. by left.
  - rewrite lookup_insert_ne, decide_False, app_nil_r by done. specialize (Hd domain').
    destruct (cf_domains cf !! domain') as [nd'|].
    + split; [apply elem_of_app; left|]; apply Hd.
    + intros [?|Hs]%elem_of_app; [done|]. by apply list_elem_of_singleton in Hs.
Qed.

Lemma loadConfig_accepts merge cs c cf w :
  config_of merge (w_heap w) cs cf → valid_config Unit_value merge cs = true →
  accepts (valid_config Unit_value merge (cs ++ [c]))
    (λ cf' w', config_of merge (w_heap w') (cs ++ [c]) cf' ∧ ∃ k, w' = grow k w)
    (loadConfig Unit_value cf c w).
Proof.
  intros Hcf Hv. pose proof Hcf as (Hm&Hmerge&Hd). unfold loadConfig.
  set (domain := yo_Domain (cl_ConfigYaml c)) in *. specialize (Hd domain).
  case_decide as Hdom.
  { replace (valid_config _ _ (cs ++ [c])) with false; [apply accepts_throw|].
    symmetry. apply not_true_iff_false. rewrite valid_config_spec. intros (Hne&_).
    apply (Hne c); [apply elem_of_app; right; by left|done]. }
  assert (∀ nd, loaded_list Unit_value m (w_heap w) (domain +:+ ".")
                  (domain_descriptors cs domain) nd →
    merge = true ∨ domain ∉ domains_of cs →
    accepts (valid_config Unit_value merge (cs ++ [c]))
      (λ cf' w', config_of merge (w_heap w') (cs ++ [c]) cf' ∧ ∃ k, w' = grow k w)
      ((dom' ← loadDescriptors Unit_value (cf_statsManager cf) (cl_Name c) (domain +:+ ".")
                 (yo_Descriptors (cl_ConfigYaml c)) nd;
        mret (mkConfig (<[domain := dom']> (cf_domains cf))
                (cf_statsManager cf) (cf_mergeDomainConfigs cf))) w)) as Hload.
  { intros nd Hnd Hnew. rewrite (valid_config_snoc merge cs c) by done.
    rewrite <-(andb_true_r (_ && _)), Hm. eapply accepts_bind.
    { apply loadDescriptors_accepts; [|exact Hnd]. intros; apply load_one_all. }
    intros nd' w' (Hnd'&_&k&->). apply accepts_ret. split; [|by eexists].
    rewrite <-Hm. apply config_of_snoc; [|done].
    eapply config_of_ext; [|exact Hcf]. apply heap_ext_app. }
  destruct (cf_domains cf !! domain) as [nd|] eqn:Hlk.
  - rewrite Hmerge in *. destruct merge; simpl; [apply Hload; [apply Hd|by left]|].
    replace (valid_config _ _ (cs ++ [c])) with false; [apply accepts_throw|].
    symmetry. apply not_true_iff_false. rewrite valid_config_spec. intros (_&[[=]|Hnd]&_).
    rewrite domains_of_app in Hnd. apply NoDup_app in Hnd as (_&Hnd&_).
    apply (Hnd domain); [apply Hd|by left].
  - apply Hload; [|by right]. rewrite domain_descriptors_not_in by done. apply loaded_list_nil.
Qed.

Lemma NewRateLimitConfigImpl_accepts merge configs w :
  accepts (valid_config Unit_value merge configs)
    (λ cf w', config_of merge (w_heap w') configs cf ∧ ∃ k, w' = grow k w)
    (NewRateLimitConfigImpl Unit_value configs m merge w).
Proof.
  unfold NewRateLimitConfigImpl, range.
  assert (∀ cs cs0 i cf w, config_of merge (w_heap w) cs0 cf →
    valid_config Unit_value merge cs0 = true →
    accepts (valid_config Unit_value merge (cs0 ++ cs))
      (λ cf' w', config_of merge (w_heap w') (cs0 ++ cs) cf' ∧ ∃ k, w' = grow k w)
      (range_from i cs (λ _ c cf, loadConfig Unit_value cf c) cf w)) as Hgen.
  { clear configs w. induction cs as [|c cs IH]; intros cs0 i cf w Hcf Hv.
    - rewrite app_nil_r, Hv. apply accepts_ret. split; [done|]. exists []. by rewrite grow_nil.
    - simpl. pose proof (loadConfig_accepts merge cs0 c cf w Hcf Hv) as H1.
      destruct (valid_config Unit_value merge (cs0 ++ [c])) eqn:Hv1.
      + change (accepts (true && valid_config Unit_value merge (cs0 ++ c :: cs))
          (λ cf' w', config_of merge (w_heap w') (cs0 ++ c :: cs) cf' ∧ ∃ k, w' = grow k w)
          ((cf' ← loadConfig Unit_value cf c;
            range_from (S i) cs (λ _ c cf, loadConfig Unit_value cf c) cf') w)).
        eapply accepts_bind; [exact H1|]. intros cf' w' [Hcf' [k ->]].
        replace (cs0 ++ c :: cs) with ((cs0 ++ [c]) ++ cs) by (by rewrite <-app_assoc).
        eapply accepts_impl; [by apply IH|]. intros cf'' w'' [? [k' ->]].
        split; [done|]. eexists. apply grow_grow.
      + replace (valid_config Unit_value merge (cs0 ++ c :: cs)) with false.
        * destruct H1 as (msg&w'&H1). exists msg, w'. by apply bind_Panic.
        * symmetry. apply not_true_iff_false. intros Hv2.
          replace (cs0 ++ c :: cs) with ((cs0 ++ [c]) ++ cs) in Hv2 by (by rewrite <-app_assoc).
          apply valid_config_app in Hv2. congruence. }
  apply (Hgen configs []); [|by destruct merge]. split_and!; [done..|]. intros domain. simpl.
  rewrite lookup_empty. by intros ?%not_elem_of_nil.
Qed.
End load.

(** ** What a failed load leaves behind

    Loading only allocates limits, whether it returns or is interrupted by a
    configuration error: no statistic and nothing outside the process changes. *)

Section steady.
Context {E : Type} (Unit_value : string → option Z).
#[local] Abbreviation W := (World E).

Definition steady {A} (c : M W A) : Prop := ∀ w,
  heap_ext (w_heap w) (w_heap (c w).2) ∧ w_counters (c w).2 = w_counters w ∧ w_ext (c w).2 = w_ext w.

Lemma steady_ret {A} (a : A) : steady (mret a).
Proof. by intros w. Qed.

Lemma steady_throw {A} p : steady (throw (A := A) p).
Proof. by intros w. Qed.

Lemma steady_new rl : steady (new rl).
Proof. intros w. split; [apply heap_ext_app|done]. Qed.

Lemma steady_bind {A B} (c : M W A) (f : A → M W B) : steady c → (∀ a, steady (f a)) → steady (c ≫= f).
Proof.
  intros Hc Hf w. specialize (Hc w). unfold mbind, M_bind.
  destruct (c w) as [[a|p|code] w1]; [|exact Hc..]. simpl in Hc. destruct Hc as (Hh&Hctr&Hx).
  destruct (Hf a w1) as (Hh'&->&->). split; [by etransitivity|done].
Qed.

Lemma steady_range {A S} (l : list A) (body : nat → A → S → M W S) :
  (∀ i x s, steady (body i x s)) → ∀ s, steady (range l s body).
Proof.
  intros Hb. unfold range. generalize 0%nat. induction l as [|x l IH]; intros i s; [apply steady_ret|].
  cbn [range_from]. apply steady_bind; [apply Hb|]. intros s'. apply IH.
Qed.

Lemma steady_load_limit m name key d : steady (load_limit Unit_value m name key d).
Proof.
  unfold load_limit. destruct (yd_RateLimit d) as [l|]; [|apply steady_ret].
  apply steady_bind; [destruct (yl_Unlimited l), (valid_unit Unit_value (yl_Unit l));
    first [apply steady_ret|apply steady_throw]|intros _].
  apply steady_bind; [apply steady_new|intros p]. apply steady_bind; [|intros _; apply steady_ret].
  apply steady_range. intros _ r _. repeat case_decide; first [apply steady_ret|apply steady_throw].
Qed.

Lemma steady_loadDescriptors m name pk ds :
  (∀ d, d ∈ ds → ∀ name pk this, steady (loadDescriptor Unit_value m name pk d this)) →
  ∀ this, steady (loadDescriptors Unit_value m name pk ds this).
Proof.
  induction ds as [|d ds IH]; intros Hd this; [apply steady_ret|]. simpl.
  apply steady_bind; [apply Hd; by left|]. intros this'. apply IH. intros d' ?. apply Hd. by right.
Qed.

Lemma steady_loadDescriptor m d : ∀ name pk this, steady (loadDescriptor Unit_value m name pk d this).
Proof.
  induction d as [d IH] using YamlDescriptor_nested_ind. intros name pk this. rewrite loadDescriptor_eq.
  case_decide; [apply steady_throw|]. destruct (n_descriptors this !! _); [apply steady_throw|].
  apply steady_bind; [apply steady_load_limit|intros o].
  apply steady_bind; [by apply steady_loadDescriptors|intros c; apply steady_ret].
Qed.

Lemma steady_Load m merge configs : steady (Load Unit_value configs m merge).
Proof.
  unfold Load, NewRateLimitConfigImpl. apply steady_range. intros _ c cf. unfold loadConfig.
  assert (∀ nd, steady (loadDescriptors Unit_value (cf_statsManager cf) (cl_Name c)
    (yo_Domain (cl_ConfigYaml c) +:+ ".") (yo_Descriptors (cl_ConfigYaml c)) nd)) as Hds.
  { intros nd. apply steady_loadDescriptors. intros. apply steady_loadDescriptor. }
  case_decide; [apply steady_throw|]. destruct (cf_domains cf !! _) as [nd|].
  - destruct (negb _); [apply steady_throw|].
    apply steady_bind; [apply Hds|intros; apply steady_ret].
  - apply steady_bind; [apply Hds|intros; apply steady_ret].
Qed.
End steady.
