(* ===== verification/ConfigLookup.v ===== *)
(** * Finding the limit of a descriptor

    A reference semantics of matching on the YAML descriptors themselves
    ([match_yaml], [resolve]) and the proof that [GetLimit] on the loaded tree
    implements it, on every branch: unknown domain, override in the request, no
    match, match, and match with detailed metrics. *)

From S2P Require Import Prelude GoStrings World Utils Stats Config ConfigLoad.

#[local] Open Scope Z_scope.

(** ** Reference semantics *)

Definition entry_key (e : Entry) : string := e_Key e +:+ "_" +:+ e_Value e.

Definition find_key (k : string) (ds : list YamlDescriptor) : option YamlDescriptor :=
  snd <$> list_find (λ d, finalKey_of d = k) ds.

Definition wildcard_matches (k : string) (d : YamlDescriptor) : bool :=
  is_wildcard (finalKey_of d) && HasPrefix k (TrimSuffix (finalKey_of d) "*").

(** The most specific descriptor of one level: the exact key and value, then
    the first wildcard in the order of the file, then the key alone. *)
Definition match_yaml (ds : list YamlDescriptor) (e : Entry) : option YamlDescriptor :=
  match find_key (entry_key e) ds with
  | Some d => Some d
  | None =>
      match list_find (λ d, Is_true (wildcard_matches (entry_key e) d)) ds with
      | Some (_, d) => Some d
      | None => find_key (e_Key e) ds
      end
  end.

(** Descends one level per entry: the request's depth must be the depth of the
    descriptor in the file.  Also returns the descriptor's full key. *)
Fixpoint resolve (pk : string) (ds : list YamlDescriptor) (es : list Entry)
  : option (string * YamlDescriptor) :=
  match es with
  | [] => None
  | e :: es' =>
      match match_yaml ds e with
      | None => None
      | Some d =>
          match es' with
          | [] => Some (pk +:+ finalKey_of d, d)
          | _ :: _ => resolve ((pk +:+ finalKey_of d) +:+ ".") (yd_Descriptors d) es'
          end
      end
  end.

(** The key of the detailed metric: the domain and every entry as sent. *)
Definition detailed_key (domain : string) (es : list Entry) : string :=
  foldl (λ k e, k +:+ "." +:+ entry_key e) domain es.

(** ** The tree implements the reference *)

Section lookup.
Context {E : Type} (Unit_value : string → option Z) (m : ManagerImpl).
#[local] Abbreviation W := (World E).
#[local] Abbreviation loaded_list := (loaded_list Unit_value m).
#[local] Abbreviation loaded := (loaded Unit_value m).

Lemma find_key_Some k ds d : find_key k ds = Some d → d ∈ ds ∧ finalKey_of d = k.
Proof.
  unfold find_key. destruct (list_find _ ds) as [[i d']|] eqn:Hf; [|done].
  intros [= <-]. apply list_find_Some in Hf as (Hi&?&_). split; [|done].
  by eapply list_elem_of_lookup_2.
Qed.

Lemma find_key_None k ds : find_key k ds = None → k ∉ finalKey_of <$> ds.
Proof.
  unfold find_key. destruct (list_find _ ds) as [[i d']|] eqn:Hf; [done|].
  intros _ (d&->&Hd)%list_elem_of_fmap_1. apply list_find_None in Hf.
  rewrite Forall_forall in Hf. by eapply Hf.
Qed.

(** Looking a key up in a loaded node. *)
Lemma loaded_find h pk ds nd k :
  loaded_list h pk ds nd →
  match find_key k ds with
  | Some d => ∃ nd', n_descriptors nd !! k = Some nd' ∧ loaded h pk d nd'
  | None => n_descriptors nd !! k = None
  end.
Proof.
  intros [(_&Hdom&_) Hc]. destruct (find_key k ds) as [d|] eqn:Hf.
  - apply find_key_Some in Hf as [Hd <-]. by apply Hc.
  - apply find_key_None in Hf. apply eq_None_not_Some. by rewrite Hdom.
Qed.

(** The first matching wildcard key of the node belongs to the first matching
    wildcard descriptor. *)
Lemma wildcard_find k ds :
  snd <$> list_find (λ wk, Is_true (HasPrefix k (TrimSuffix wk "*")))
    (filter (λ k, Is_true (is_wildcard k)) (finalKey_of <$> ds)) =
  (λ x, finalKey_of x.2) <$> list_find (λ d, Is_true (wildcard_matches k d)) ds.
Proof.
  unfold wildcard_matches. induction ds as [|d ds IH]; [done|]. simpl.
  rewrite filter_cons. destruct (is_wildcard (finalKey_of d)); simpl;
    [destruct (HasPrefix k _); simpl; [done|]|]; revert IH;
    by repeat (destruct (list_find _ _) as [[]|]); intros [= ->] || intros.
Qed.

Lemma match_entry_loaded h pk ds nd e :
  loaded_list h pk ds nd →
  match match_yaml ds e with
  | Some d => ∃ nd', match_entry (n_descriptors nd) nd e = Some nd' ∧ loaded h pk d nd'
  | None => match_entry (n_descriptors nd) nd e = None
  end.
Proof.
  intros Hl. unfold match_yaml, match_entry. fold (entry_key e).
  pose proof (loaded_find h pk ds nd (entry_key e) Hl) as He.
  destruct (find_key (entry_key e) ds) as [d|]; [destruct He as (nd'&->&?); by exists nd'|].
  rewrite He. pose proof (loaded_find h pk ds nd (e_Key e) Hl) as Hk.
  pose proof Hl as [(_&_&Hw) Hc]. rewrite Hw.
  pose proof (wildcard_find (entry_key e) ds) as Hfind.
  destruct (list_find (λ d, Is_true (wildcard_matches (entry_key e) d)) ds) as [[i d]|] eqn:Hd;
    destruct (list_find _ (filter _ _)) as [[j wk]|]; simplify_eq/=.
  - apply list_find_Some in Hd as (Hi&_&_). apply list_elem_of_lookup_2 in Hi.
    destruct (Hc d Hi) as (nd'&->&?). by exists nd'.
  - destruct (find_key (e_Key e) ds) as [d|]; [|done]. destruct Hk as (nd'&?&?). by exists nd'.
Qed.

Lemma loaded_no_children h pk d nd :
  loaded h pk d nd → (0 < size (n_descriptors nd))%nat ↔ yd_Descriptors d ≠ [].
Proof.
  intros [_ (_&Hdom&_) _]. split.
  - intros Hs Hnil. rewrite Hnil in Hdom. assert (n_descriptors nd = ∅) as He.
    { apply map_empty. intros k. apply eq_None_not_Some. rewrite Hdom. by apply not_elem_of_nil. }
    rewrite He, map_size_empty in Hs. lia.
  - intros Hne. destruct (yd_Descriptors d) as [|d' ds]; [done|].
    assert (is_Some (n_descriptors nd !! finalKey_of d')) as [nd' Hnd'] by (apply Hdom; by left).
    apply Nat.neq_0_lt_0. intros Hs%map_size_empty_inv. by rewrite Hs, lookup_empty in Hnd'.
Qed.

(** The limit a resolved descriptor carries. *)
Definition resolved_limit (pk : string) (ds : list YamlDescriptor) (es : list Entry)
  : option (YamlDescriptor * RateLimit) :=
  match resolve pk ds es with
  | Some (fk, d) =>
      match yd_RateLimit d with
      | Some l => Some (d, limit_of Unit_value m fk d l)
      | None => None
      end
  | None => None
  end.

(** What the loop returns: the metric key read so far, and a pointer to the
    limit or to a copy of it. *)
Definition lookup_post (res : option (YamlDescriptor * RateLimit)) (key : string) (w : W)
    (r : option loc * string) (w' : W) : Prop :=
  match res with
  | None => r.1 = None ∧ w' = w
  | Some (d, rl0) => ∃ p rl,
      r = (Some p, key) ∧ w_heap w' !! p = Some rl ∧ same_limit rl0 rl ∧
      heap_ext (w_heap w) (w_heap w') ∧ w_counters w' = w_counters w ∧ w_ext w' = w_ext w ∧
      (yd_DetailedMetric d = false → w' = w)
  end.

Lemma loaded_limit_resolved h fk d nd :
  loaded_limit Unit_value m h fk d (n_limit nd) →
  match yd_RateLimit d with
  | Some l => ∃ p rl, n_limit nd = Some p ∧ h !! p = Some rl ∧
                same_limit (limit_of Unit_value m fk d l) rl
  | None => n_limit nd = None
  end.
Proof.
  unfold loaded_limit. destruct (yd_RateLimit d), (n_limit nd); try done.
  intros (rl&?&?). eauto.
Qed.

(** The copy made for a detailed metric carries the same limit. *)
Lemma same_limit_copy rl0 rl s :
  same_limit rl0 rl → GetKey s = rl_FullKey rl → pl_Name (rl_Limit rl0) = rl_Name rl0 →
  same_limit rl0 (make_limit (pl_RequestsPerUnit (rl_Limit rl)) (pl_Unit (rl_Limit rl)) s
    (rl_Unlimited rl) (rl_ShadowMode rl) (rl_Name rl) (rl_Replaces rl) (rl_DetailedMetric rl)).
Proof.
  intros (H1&H2&?&?&H5&?&?) Hs Hn. unfold same_limit, make_limit; simpl.
  rewrite <-H2, <-H5, <-Hn, Hs. destruct (rl_Limit rl0); simpl in *. intuition congruence.
Qed.

(** The last entry: the matched node's limit, copied when it is a leaf with
    detailed metrics. *)
Lemma lookup_last n i pk ds nd e key w :
  i = (n - 1)%nat → loaded_list (w_heap w) pk ds nd →
  ∃ r w', lookup_entries m n i [e] (n_descriptors nd) nd None key w = (Ret r, w') ∧
    lookup_post (resolved_limit pk ds [e]) (key +:+ "." +:+ entry_key e) w r w'.
Proof.
  intros -> Hl. pose proof (match_entry_loaded _ _ _ _ e Hl) as Hm.
  unfold resolved_limit. cbn [resolve lookup_entries]. fold (entry_key e).
  destruct (match_yaml ds e) as [d|]; [|rewrite Hm; by returns].
  destruct Hm as (nd'&->&Hd). pose proof Hd as [Hlim _ _].
  apply loaded_limit_resolved in Hlim. destruct (yd_RateLimit d) as [l|].
  - destruct Hlim as (p&rl&->&Hp&Hs). destruct (decide (n - 1 = n - 1)%nat); [|done].
    assert (rl_DetailedMetric rl = yd_DetailedMetric d) as Hdm by (symmetry; apply Hs).
    case_decide as Hsz.
    + returns. exists p, rl. split_and!; auto with heap.
    + rewrite (bind_Ret _ _ _ _ _ (load_Some _ _ _ Hp)). rewrite Hdm.
      destruct (yd_DetailedMetric d) eqn:Hdd.
      * returns. eexists _, _.
        split_and!; [done| | | |done|done|by rewrite Hdd]; simpl.
        -- by rewrite list_lookup_middle.
        -- rewrite <-Hdm. by apply same_limit_copy.
        -- apply heap_ext_app.
      * returns. exists p, rl. split_and!; auto with heap.
  - rewrite Hlim. case_decide; by returns.
Qed.

Lemma lookup_entries_spec n es : ∀ i pk ds nd key w,
  n = (i + length es)%nat → loaded_list (w_heap w) pk ds nd →
  ∃ r w', lookup_entries m n i es (n_descriptors nd) nd None key w = (Ret r, w') ∧
    lookup_post (resolved_limit pk ds es) (foldl (λ k e, k +:+ "." +:+ entry_key e) key es) w r w'.
Proof.
  induction es as [|e es IH]; intros i pk ds nd key w Hn Hl; [by returns|].
  destruct es as [|e' es]; [apply lookup_last; [simpl in Hn; lia|done]|].
  pose proof (match_entry_loaded _ _ _ _ e Hl) as Hm.
  unfold resolved_limit. cbn [resolve]. cbn [lookup_entries]. fold (entry_key e).
  destruct (match_yaml ds e) as [d|]; [|rewrite Hm; by returns].
  destruct Hm as (nd'&->&Hd).
  replace (match n_limit nd' with
           | Some l => if decide (i = (n - 1)%nat) then Some l else None
           | None => None end) with (@None loc).
  2: { destruct (n_limit nd'); [|done]. rewrite decide_False; [done|]. simpl in Hn. lia. }
  case_decide as Hsz.
  - apply (IH (S i)); [simpl in *; lia|]. by apply loaded_list_children.
  - apply loaded_list_children in Hd as Hc. rewrite (loaded_no_children _ _ _ _ Hd) in Hsz.
    destruct (yd_Descriptors d); [|by destruct Hsz]. by returns.
Qed.

(** ** [GetLimit] *)

Lemma GetLimit_lookup cf domain desc (w : W) pk ds nd :
  cf_domains cf !! domain = Some nd → cf_statsManager cf = m → d_Limit desc = None →
  loaded_list (w_heap w) pk ds nd →
  ∃ r w', GetLimit cf domain desc w = (Ret r, w') ∧
    heap_ext (w_heap w) (w_heap w') ∧ w_counters w' = w_counters w ∧ w_ext w' = w_ext w ∧
    match resolved_limit pk ds (d_Entries desc) with
    | None => r = None ∧ w' = w
    | Some (d, rl0) => ∃ p rl,
        r = Some p ∧ w_heap w' !! p = Some rl ∧ same_limit rl0 rl ∧
        if yd_DetailedMetric d
        then rl_Stats rl = NewStats m (detailed_key domain (d_Entries desc))
        else w' = w
    end.
Proof.
  intros Hdom Hm Ho Hl. unfold GetLimit. rewrite Hdom, Ho, Hm.
  destruct (lookup_entries_spec _ (d_Entries desc) 0 pk ds nd domain w eq_refl Hl)
    as ([r key]&w1&Hrun&Hpost).
  erewrite bind_Ret by exact Hrun. unfold lookup_post in Hpost.
  destruct (resolved_limit pk ds (d_Entries desc)) as [[d rl0]|] eqn:Hres.
  - destruct Hpost as (p&rl&[= -> ->]&Hp&Hs&Hx&Hc&He&Hw).
    assert (rl_DetailedMetric rl = yd_DetailedMetric d) as Hdm.
    { unfold resolved_limit in Hres. repeat case_match; simplify_eq. symmetry. apply Hs. }
    rewrite (bind_Ret _ _ _ _ _ (load_Some _ _ _ Hp)). rewrite Hdm.
    destruct (yd_DetailedMetric d) eqn:Hdd.
    + erewrite bind_Ret; [|unfold set_stats; erewrite bind_Ret by (by apply load_Some);
        reflexivity].
      returns. simpl. split_and!; [|done|done|].
      * etransitivity; [exact Hx|]. eapply heap_ext_insert; [exact Hp|]. by repeat split.
      * eexists p, _. split_and!; [done| | |].
        -- apply list_lookup_insert_eq. by eapply lookup_lt_Some.
        -- etransitivity; [exact Hs|]. by repeat split.
        -- done.
    + erewrite bind_Ret by reflexivity. returns.
      split_and!; [done..|]. exists p, rl. split_and!; [done..|]. by apply Hw.
  - destruct Hpost as [[= ->] ->]. returns. split_and!; auto with heap.
Qed.
End lookup.

(** ** Theorems *)

(** The protobuf table of the units the service documents. *)
Definition documented_units (s : string) : option Z :=
  if decide (s = "UNKNOWN") then Some UNKNOWN
  else if decide (s = "SECOND") then Some SECOND
  else if decide (s = "MINUTE") then Some MINUTE
  else if decide (s = "HOUR") then Some HOUR
  else if decide (s = "DAY") then Some DAY
  else None.

(** The generated table of names. *)
Definition documented_names (u : Z) : string :=
  if decide (u = SECOND) then "SECOND" else if decide (u = MINUTE) then "MINUTE" else
  if decide (u = HOUR) then "HOUR" else if decide (u = DAY) then "DAY" else "UNKNOWN".

(** C14: loading succeeds exactly on the valid configurations.  It then returns
    a tree that represents, per domain, the descriptors of all files naming the
    domain, in order, adding objects to the heap and nothing else.  On any
    other input it panics with a configuration error, never with another value,
    and it never ends the process. *)
Theorem Load_accepts_valid {E} (Unit_value : string → option Z) (m : ManagerImpl)
    (merge : bool) (configs : list RateLimitConfigToLoad) (w : World E) :
  match Load Unit_value configs m merge w with
  | (Ret cf, w') =>
      valid_config Unit_value merge configs = true ∧
      config_of Unit_value m merge (w_heap w') configs cf ∧
      ∃ k, w' = mkWorld (w_heap w ++ k) (w_counters w) (w_ext w)
  | (Panic p, _) => valid_config Unit_value merge configs = false ∧ ∃ msg, p = PConfigError msg
  | (Exit _, _) => False
  end.
Proof.
  pose proof (NewRateLimitConfigImpl_accepts Unit_value m merge configs w) as Ha.
  unfold Load. unfold accepts in Ha. destruct (valid_config Unit_value merge configs).
  - destruct Ha as (cf&w'&->&?&?). done.
  - destruct Ha as (msg&w'&->). eauto.
Qed.

(** Running [GetLimit] in any state reached after loading. *)
Lemma Load_config_of {E} Unit_value m merge configs (w0 w0' : World E) cf h :
  Load Unit_value configs m merge w0 = (Ret cf, w0') → heap_ext (w_heap w0') h →
  config_of Unit_value m merge h configs cf.
Proof.
  intros Hl Hx. pose proof (NewRateLimitConfigImpl_accepts Unit_value m merge configs w0) as Ha.
  unfold Load in Hl. rewrite Hl in Ha. unfold accepts in Ha.
  destruct (valid_config _ _ _); [|by destruct Ha as (?&?&[=])].
  destruct Ha as (?&?&[= <- <-]&Hc&_). by eapply config_of_ext.
Qed.

(** C13: on a loaded configuration, [GetLimit] for a known domain and a
    descriptor without override returns the limit the YAML matching rules
    select (exact key and value first, then the first wildcard of the file,
    then the key alone, one level per entry), or nil when they select none.  The
    limit's every field is that of the file; only the statistics of a
    [detailed_metric] limit are replaced, by those of the key as requested.
    No counter and nothing outside the process changes. *)
Theorem GetLimit_selects {E} Unit_value m merge configs (w0 w0' w : World E) cf domain desc :
  Load Unit_value configs m merge w0 = (Ret cf, w0') → heap_ext (w_heap w0') (w_heap w) →
  domain ∈ domains_of configs → d_Limit desc = None →
  ∃ r w', GetLimit cf domain desc w = (Ret r, w') ∧
    heap_ext (w_heap w) (w_heap w') ∧ w_counters w' = w_counters w ∧ w_ext w' = w_ext w ∧
    match resolved_limit Unit_value m (domain +:+ ".") (domain_descriptors configs domain)
            (d_Entries desc) with
    | None => r = None ∧ w' = w
    | Some (d, rl0) => ∃ p rl,
        r = Some p ∧ w_heap w' !! p = Some rl ∧ same_limit rl0 rl ∧
        if yd_DetailedMetric d
        then rl_Stats rl = NewStats m (detailed_key domain (d_Entries desc))
        else w' = w
    end.
Proof.
  intros Hl Hx Hdom Ho. destruct (Load_config_of _ _ _ _ _ _ _ _ Hl Hx) as (Hm&_&Hd).
  specialize (Hd domain). destruct (cf_domains cf !! domain) as [nd|] eqn:Hnd; [|done].
  by eapply GetLimit_lookup; [| | |apply Hd].
Qed.

(** The configuration of the README's second example, with a wildcard and a
    detailed metric added. *)
Definition example_limit (n : Z) (unit : string) : YamlRateLimit :=
  mkYamlRateLimit n unit false "" [].

Definition example_configs : list RateLimitConfigToLoad :=
  [mkToLoad "messaging.yaml" (mkYamlRoot "messaging"
    [mkYamlDescriptor "message_type" "marketing" None
       [mkYamlDescriptor "to_number" "" (Some (example_limit 5 "day")) [] false false]
       false false;
     mkYamlDescriptor "to_number" "" (Some (example_limit 100 "day")) [] false false;
     mkYamlDescriptor "to_number" "206*" (Some (example_limit 7 "hour")) [] false true])].

Definition example_manager : ManagerImpl := NewStatManager [].

Definition empty_world : World unit := mkWorld [] ∅ ().

Lemma GetLimit_selects_witness :
  ∃ (cf : rateLimitConfigImpl) (w w' : World unit) p rl,
    Load documented_units example_configs example_manager false empty_world = (Ret cf, w) ∧
    GetLimit cf "messaging" (mkDescriptor [mkEntry "to_number" "2061"] None) w = (Ret (Some p), w') ∧
    w_heap w' !! p = Some rl ∧ rl_Limit rl = mkPbRateLimit 7 HOUR "" ∧
    rl_Stats rl = NewStats example_manager "messaging.to_number_2061".
Proof.
  destruct (Load documented_units example_configs example_manager false empty_world)
    as [[cf|p|c] w] eqn:Hl; [|exfalso; by vm_compute in Hl..].
  destruct (GetLimit_selects documented_units example_manager false example_configs
    empty_world w w cf "messaging" (mkDescriptor [mkEntry "to_number" "2061"] None))
    as (r&w'&Hrun&_&_&_&Hres); [done|reflexivity|by left|done|].
  vm_compute in Hres. destruct Hres as (p&rl&->&Hp&Hs&Hst).
  exists cf, w, w', p, rl. split_and!; [done|done|done| |exact Hst].
  symmetry. apply Hs.
Defined.

(** A domain no configuration names has no limits: [GetLimit] returns nil
    and counts the request in the domain's not-found statistic, changing
    nothing else. *)
Theorem GetLimit_unknown_domain {E} Unit_value m merge configs (w0 w0' w : World E) cf domain desc :
  Load Unit_value configs m merge w0 = (Ret cf, w0') → domain ∉ domains_of configs →
  GetLimit cf domain desc w =
    (Ret None, mkWorld (w_heap w)
       (ctr_add (ds_NotFound (NewDomainStats m domain)) 1 (w_counters w)) (w_ext w)).
Proof.
  intros Hl Hdom. destruct (Load_config_of _ _ _ _ _ _ _ _ Hl ltac:(reflexivity)) as (Hm&_&Hd).
  specialize (Hd domain). unfold GetLimit.
  destruct (cf_domains cf !! domain); [by destruct Hd|]. by rewrite Hm.
Qed.

Lemma GetLimit_unknown_domain_witness :
  ∃ (cf : rateLimitConfigImpl) (w w' : World unit),
    Load documented_units example_configs example_manager false empty_world = (Ret cf, w) ∧
    GetLimit cf "nope" (mkDescriptor [] None) w = (Ret None, w').
Proof.
  destruct (Load documented_units example_configs example_manager false empty_world)
    as [[cf|p|c] w] eqn:Hl; [|exfalso; by vm_compute in Hl..].
  eexists cf, w, _. split; [done|].
  apply (GetLimit_unknown_domain documented_units example_manager false example_configs
    empty_world w w cf "nope" (mkDescriptor [] None)); [done|].
  apply (bool_decide_unpack _). by vm_compute.
Defined.

(** An override in the request takes precedence over the file for a known
    domain: [GetLimit] returns a fresh limit with the request's rate and unit,
    counted under the request's own key, and never in shadow mode, unlimited or
    replacing another limit. *)
Theorem GetLimit_override {E} Unit_value m merge configs (w0 w0' w : World E) cf domain desc o :
  Load Unit_value configs m merge w0 = (Ret cf, w0') → domain ∈ domains_of configs →
  d_Limit desc = Some o →
  GetLimit cf domain desc w =
    (Ret (Some (length (w_heap w))),
     mkWorld (w_heap w ++
       [make_limit (o_RequestsPerUnit o) (o_Unit o) (NewStats m (descriptorKey domain desc))
          false false "" [] false]) (w_counters w) (w_ext w)).
Proof.
  intros Hl Hdom Ho. destruct (Load_config_of _ _ _ _ _ _ _ _ Hl ltac:(reflexivity)) as (Hm&_&Hd).
  specialize (Hd domain). unfold GetLimit.
  destruct (cf_domains cf !! domain); [|done]. by rewrite Ho, Hm.
Qed.

Lemma GetLimit_override_witness :
  ∃ (cf : rateLimitConfigImpl) (w w' : World unit) p,
    Load documented_units example_configs example_manager false empty_world = (Ret cf, w) ∧
    GetLimit cf "messaging" (mkDescriptor [mkEntry "k" "v"] (Some (mkOverride 42 MINUTE))) w
      = (Ret (Some p), w').
Proof.
  destruct (Load documented_units example_configs example_manager false empty_world)
    as [[cf|p|c] w] eqn:Hl; [|exfalso; by vm_compute in Hl..].
  eexists cf, w, _, _. split; [done|].
  apply (GetLimit_override documented_units example_manager false example_configs
    empty_world w w cf "messaging" _ (mkOverride 42 MINUTE)); [done|by left|done].
Defined.

(** ** Detailed metrics on a descriptor with children share one object *)

(** The keys of the descriptors the entries match, level by level, and the
    descriptor such a path leads to. *)
Fixpoint match_path (ds : list YamlDescriptor) (es : list Entry) : option (list string) :=
  match es with
  | [] => Some []
  | e :: es' =>
      match match_yaml ds e with
      | None => None
      | Some d => cons (finalKey_of d) <$> match_path (yd_Descriptors d) es'
      end
  end.

Fixpoint descriptor_at (ds : list YamlDescriptor) (path : list string) : option YamlDescriptor :=
  match path with
  | [] => None
  | k :: path' =>
      match find_key k ds, path' with
      | Some d, [] => Some d
      | Some d, _ :: _ => descriptor_at (yd_Descriptors d) path'
      | None, _ => None
      end
  end.

(** The limit at a path of the loaded tree. *)
Fixpoint limit_at (nd : rateLimitDescriptor) (path : list string) : option loc :=
  match path with
  | [] => n_limit nd
  | k :: path' =>
      match n_descriptors nd !! k with Some nd' => limit_at nd' path' | None => None end
  end.

Section shared.
Context {E : Type} (Unit_value : string → option Z) (m : ManagerImpl).
#[local] Abbreviation W := (World E).

Lemma find_key_of ds d : NoDup (finalKey_of <$> ds) → d ∈ ds → find_key (finalKey_of d) ds = Some d.
Proof.
  intros Hnd Hd. destruct (find_key (finalKey_of d) ds) as [d'|] eqn:Hf.
  - apply find_key_Some in Hf as [Hd' Hk]. f_equal.
    apply list_elem_of_lookup_1 in Hd as [i Hi], Hd' as [j Hj].
    assert (i = j) as ->; [|congruence]. apply (NoDup_lookup (finalKey_of <$> ds) i j (finalKey_of d)); [done|..].
    + by rewrite list_lookup_fmap, Hi.
    + by rewrite list_lookup_fmap, Hj, <-Hk.
  - apply find_key_None in Hf. destruct Hf. by apply list_elem_of_fmap_2.
Qed.

Lemma match_yaml_in ds e d : match_yaml ds e = Some d → d ∈ ds.
Proof.
  unfold match_yaml. destruct (find_key (entry_key e) ds) as [d'|] eqn:Hf.
  { intros [= <-]. by apply find_key_Some in Hf as [? _]. }
  destruct (list_find _ ds) as [[i d']|] eqn:Hw.
  - intros [= <-]. apply list_find_Some in Hw as (Hi&_). by eapply list_elem_of_lookup_2.
  - intros Hk. by apply find_key_Some in Hk as [? _].
Qed.

(** The node an entry leads to is the one under the key of the descriptor it
    matches. *)
Lemma match_entry_key h pk ds nd e d :
  loaded_list Unit_value m h pk ds nd → match_yaml ds e = Some d →
  match_entry (n_descriptors nd) nd e = n_descriptors nd !! finalKey_of d.
Proof.
  intros Hl. unfold match_yaml, match_entry. fold (entry_key e).
  pose proof (loaded_find Unit_value m h pk ds nd (entry_key e) Hl) as He.
  destruct (find_key (entry_key e) ds) as [d1|] eqn:Hf.
  { intros [= <-]. apply find_key_Some in Hf as [_ ->]. by destruct He as (nd'&->&_). }
  rewrite He. pose proof Hl as [(_&_&Hw) Hc]. rewrite Hw.
  pose proof (wildcard_find (entry_key e) ds) as Hfind.
  destruct (list_find (λ d, Is_true (wildcard_matches (entry_key e) d)) ds) as [[i d2]|] eqn:Hd;
    destruct (list_find _ (filter _ _)) as [[j wk]|]; simplify_eq/=.
  - intros [= <-]. apply list_find_Some in Hd as (Hi&_&_). apply list_elem_of_lookup_2 in Hi.
    by destruct (Hc d2 Hi) as (nd'&->&_).
  - intros Hk. by apply find_key_Some in Hk as [_ ->].
Qed.

(** Entries that match a path to a descriptor with detailed metrics: a leaf's
    limit is copied to a fresh location, that of a descriptor with children is
    the one of the tree. *)
Lemma lookup_detailed n es : ∀ i pk ds nd key (w : W) path d l,
  n = (i + length es)%nat → loaded_list Unit_value m (w_heap w) pk ds nd →
  match_path ds es = Some path → descriptor_at ds path = Some d →
  yd_RateLimit d = Some l → yd_DetailedMetric d = true →
  ∃ q rl w', lookup_entries m n i es (n_descriptors nd) nd None key w =
      (Ret (Some q, foldl (λ k e, k +:+ "." +:+ entry_key e) key es), w') ∧
    w_heap w' !! q = Some rl ∧ rl_DetailedMetric rl = true ∧
    if decide (yd_Descriptors d = []) then q = length (w_heap w) ∧ w_heap w' = w_heap w ++ [rl]
    else limit_at nd path = Some q ∧ w' = w.
Proof.
  induction es as [|e es IH]; intros i pk ds nd key w path d l Hn Hl Hp Hd Hrl Hdm;
    [by injection Hp as <-|].
  cbn [match_path] in Hp. destruct (match_yaml ds e) as [d1|] eqn:Hm; [|done].
  apply fmap_Some in Hp as (path'&Hp&->). pose proof (match_yaml_in _ _ _ Hm) as Hin.
  pose proof Hl as [(Hnd&_&_) Hc]. destruct (Hc d1 Hin) as (nd1&Hk&Hd1).
  cbn [descriptor_at] in Hd. rewrite find_key_of in Hd by done.
  cbn [lookup_entries limit_at]. fold (entry_key e). rewrite (match_entry_key _ _ _ _ _ _ Hl Hm), Hk.
  pose proof (loaded_no_children Unit_value m _ _ _ _ Hd1) as Hch.
  destruct es as [|e' es].
  - injection Hp as <-. injection Hd as ->. pose proof Hd1 as [Hlim _ _].
    apply loaded_limit_resolved in Hlim. rewrite Hrl in Hlim. destruct Hlim as (p&rl&Hlim&Hpl&Hs).
    assert (rl_DetailedMetric rl = true) as Hdr by (rewrite <-Hdm; symmetry; apply Hs).
    cbn [limit_at]. rewrite Hlim. rewrite (decide_True (P := i = (n - 1)%nat)) by (simpl in Hn; lia).
    destruct (decide (yd_Descriptors d = [])) as [Hleaf|Hleaf].
    + rewrite decide_False by (rewrite Hch; auto). rewrite (bind_Ret _ _ _ _ _ (load_Some _ _ _ Hpl)), Hdr.
      eexists _, _, _. split; [reflexivity|]. simpl. by rewrite list_lookup_middle.
    + rewrite decide_True by (by rewrite Hch). by eexists _, _, _.
  - destruct path' as [|k' path'].
    { cbn [match_path] in Hp. destruct (match_yaml _ e'); [|done]. by apply fmap_Some in Hp as (?&?&?). }
    assert (yd_Descriptors d1 ≠ []) as Hne by (intros Hnil; by rewrite Hnil in Hd).
    rewrite decide_True by (by rewrite Hch).
    replace (match n_limit nd1 with
             | Some l => if decide (i = (n - 1)%nat) then Some l else None
             | None => None end) with (@None loc).
    2: { destruct (n_limit nd1); [|done]. rewrite decide_False; [done|]. simpl in Hn. lia. }
    eapply (IH (S i)); [simpl in *; lia|by apply loaded_list_children|exact Hp|exact Hd|exact Hrl|exact Hdm].
Qed.

(** [GetLimit] on such a descriptor: the statistics at the location it returns
    are those of the requested key, and no other location changes. *)
Lemma GetLimit_detailed cf domain desc (w : W) pk ds nd path d l :
  cf_domains cf !! domain = Some nd → cf_statsManager cf = m → d_Limit desc = None →
  loaded_list Unit_value m (w_heap w) pk ds nd →
  match_path ds (d_Entries desc) = Some path → descriptor_at ds path = Some d →
  yd_RateLimit d = Some l → yd_DetailedMetric d = true →
  ∃ q rl w', GetLimit cf domain desc w = (Ret (Some q), w') ∧ w_heap w' !! q = Some rl ∧
    rl_Stats rl = NewStats m (detailed_key domain (d_Entries desc)) ∧
    (∀ p rl', p ≠ q → w_heap w !! p = Some rl' → w_heap w' !! p = Some rl') ∧
    if decide (yd_Descriptors d = []) then q = length (w_heap w) else limit_at nd path = Some q.
Proof.
  intros Hdom Hm Ho Hl Hp Hd Hrl Hdm. unfold GetLimit. rewrite Hdom, Ho, Hm.
  destruct (lookup_detailed _ (d_Entries desc) 0 pk ds nd domain w path d l eq_refl Hl Hp Hd Hrl Hdm)
    as (q&rl&w1&Hrun&Hq&Hdr&Hcase).
  erewrite bind_Ret by exact Hrun. cbn beta iota.
  rewrite (bind_Ret _ _ _ _ _ (load_Some _ _ _ Hq)), Hdr.
  erewrite bind_Ret; [|unfold set_stats; erewrite bind_Ret by (by apply load_Some); reflexivity].
  eexists _, _, _. split; [reflexivity|]. simpl.
  split; [apply list_lookup_insert_eq; by eapply lookup_lt_Some|]. split; [done|].
  destruct (decide (yd_Descriptors d = [])); destruct Hcase as [Hc ->]; split; try done;
    intros p rl' Hne Hpl; rewrite list_lookup_insert_ne by done; [by apply lookup_app_l_Some|done].
Qed.
End shared.

(** C40: detailed metrics of a descriptor that also has nested descriptors are
    shared.  In a loaded configuration, let two descriptors without override
    match the same [detailed_metric] descriptor of the files, which has a rate
    limit.  If it is a leaf, [GetLimit] gives each its own copy, and the first
    keeps the statistics of its own key.  If it has nested descriptors,
    [GetLimit] gives both the same object, and the second call replaces the
    statistics of the first: both are counted under the second key. *)
Theorem GetLimit_detailed_metric_shared {E} Unit_value m merge configs (w0 w0' w : World E) cf domain
    a b path d l :
  Load Unit_value configs m merge w0 = (Ret cf, w0') → heap_ext (w_heap w0') (w_heap w) →
  domain ∈ domains_of configs → d_Limit a = None → d_Limit b = None →
  match_path (domain_descriptors configs domain) (d_Entries a) = Some path →
  match_path (domain_descriptors configs domain) (d_Entries b) = Some path →
  descriptor_at (domain_descriptors configs domain) path = Some d →
  yd_RateLimit d = Some l → yd_DetailedMetric d = true →
  ∃ p q w1 w2 rl, GetLimit cf domain a w = (Ret (Some p), w1) ∧
    GetLimit cf domain b w1 = (Ret (Some q), w2) ∧ w_heap w2 !! p = Some rl ∧
    if decide (yd_Descriptors d = [])
    then p ≠ q ∧ rl_Stats rl = NewStats m (detailed_key domain (d_Entries a))
    else p = q ∧ rl_Stats rl = NewStats m (detailed_key domain (d_Entries b)).
Proof.
  intros Hload Hx Hdom Ha Hb Hpa Hpb Hd Hrl Hdm.
  destruct (Load_config_of _ _ _ _ _ _ _ _ Hload Hx) as (Hm&_&Hcf). specialize (Hcf domain).
  destruct (cf_domains cf !! domain) as [nd|] eqn:Hnd; [|done]. destruct Hcf as [_ Hl].
  destruct (GetLimit_detailed Unit_value m cf domain a w _ _ nd path d l Hnd Hm Ha Hl Hpa Hd Hrl Hdm)
    as (p&rl&w1&Hrun&Hp&Hst&_&Hcase).
  destruct (GetLimit_lookup Unit_value m cf domain a w _ _ nd Hnd Hm Ha Hl) as (?&?&Hrun'&Hx1&_).
  rewrite Hrun in Hrun'. injection Hrun' as <- <-.
  destruct (GetLimit_detailed Unit_value m cf domain b w1 _ _ nd path d l Hnd Hm Hb
    (loaded_list_ext _ _ _ _ _ _ _ Hx1 Hl) Hpb Hd Hrl Hdm) as (q&rl'&w2&Hrun2&Hq&Hst2&Hkeep&Hcase2).
  destruct (decide (yd_Descriptors d = [])).
  - assert (p ≠ q) as Hne by (apply lookup_lt_Some in Hp; lia).
    exists p, q, w1, w2, rl. split_and!; [done..|by apply Hkeep|done|done].
  - rewrite Hcase in Hcase2. injection Hcase2 as <-. by exists p, p, w1, w2, rl'.
Qed.

Definition shared_configs : list RateLimitConfigToLoad :=
  [mkToLoad "f.yaml" (mkYamlRoot "d"
    [mkYamlDescriptor "foo" "" (Some (example_limit 10 "minute"))
       [mkYamlDescriptor "bar" "" (Some (example_limit 1 "minute")) [] false false]
       false true])].

Lemma GetLimit_detailed_metric_shared_witness :
  ∃ (cf : rateLimitConfigImpl) (w w1 w2 : World unit) p rl,
    Load documented_units shared_configs example_manager false empty_world = (Ret cf, w) ∧
    GetLimit cf "d" (mkDescriptor [mkEntry "foo" "a"] None) w = (Ret (Some p), w1) ∧
    GetLimit cf "d" (mkDescriptor [mkEntry "foo" "b"] None) w1 = (Ret (Some p), w2) ∧
    w_heap w2 !! p = Some rl ∧ rl_Stats rl = NewStats example_manager "d.foo_b".
Proof.
  destruct (Load documented_units shared_configs example_manager false empty_world)
    as [[cf|p|c] w] eqn:Hl; [|exfalso; by vm_compute in Hl..].
  destruct (GetLimit_detailed_metric_shared documented_units example_manager false shared_configs
    empty_world w w cf "d" (mkDescriptor [mkEntry "foo" "a"] None) (mkDescriptor [mkEntry "foo" "b"] None)
    ["foo"] (mkYamlDescriptor "foo" "" (Some (example_limit 10 "minute"))
       [mkYamlDescriptor "bar" "" (Some (example_limit 1 "minute")) [] false false] false true)
    (example_limit 10 "minute")) as (p&q&w1&w2&rl&Ha&Hb&Hp&<-&Hst);
    [done|reflexivity|by left|done|done|by vm_compute|by vm_compute|by vm_compute|done|done|].
  by exists cf, w, w1, w2, p, rl.
Defined.
