(* ===== verification/ConfigDump.v ===== *)
(** * Dumping a configuration ([dump] and [Dump] of [src/config/config_impl.go])

    The text served at [/rlconfig].  Go iterates over a map in no particular
    order, so dumping is a relation: one line per limit, in any order the
    iterations may take.  The lines are always exactly those of the files. *)

From S2P Require Import Prelude GoStrings World Utils Stats Config ConfigLoad ConfigLookup.

#[local] Open Scope Z_scope.

Section dump.
(** [Unit.String()], generated. *)
Context (unit_String : Z → string).

Definition dump_line (limit : RateLimit) : string :=
  rl_FullKey limit +:+ ": unit=" +:+ unit_String (pl_Unit (rl_Limit limit)) +:+
  " requests_per_unit=" +:+ FormatInt (pl_RequestsPerUnit (rl_Limit limit)) +:+
  ", shadow_mode: " +:+ FormatBool (rl_ShadowMode limit).

(** The line of a node's own limit; a node's pointers are valid. *)
Definition own_lines (h : list RateLimit) (this : rateLimitDescriptor) : list string :=
  match n_limit this with
  | None => []
  | Some l => match h !! l with Some limit => [dump_line limit] | None => [] end
  end.

Inductive dump (h : list RateLimit) (this : rateLimitDescriptor) : list string → Prop :=
  | dump_node order rets :
      order ≡ₚ map_to_list (n_descriptors this) →
      Forall2 (λ kd ret, dump h kd.2 ret) order rets →
      dump h this (own_lines h this ++ concat rets).

Definition Dump (h : list RateLimit) (this : rateLimitConfigImpl) (lines : list string) : Prop :=
  ∃ order rets, order ≡ₚ map_to_list (cf_domains this) ∧
    Forall2 (λ dn ret, dump h dn.2 ret) order rets ∧ lines = concat rets.

(** ** The lines of the files *)

Section lines.
Context (Unit_value : string → option Z) (m : ManagerImpl).

Fixpoint yaml_lines (pk : string) (d : YamlDescriptor) : list string :=
  match yd_RateLimit d with
  | Some l => [dump_line (limit_of Unit_value m (pk +:+ finalKey_of d) d l)]
  | None => []
  end ++ flat_map (yaml_lines ((pk +:+ finalKey_of d) +:+ ".")) (yd_Descriptors d).

Definition config_lines (configs : list RateLimitConfigToLoad) : list string :=
  flat_map (λ c, flat_map (yaml_lines (yo_Domain (cl_ConfigYaml c) +:+ "."))
                   (yo_Descriptors (cl_ConfigYaml c))) configs.
End lines.
End dump.

(** ** Permutations *)

Lemma Forall2_Permutation_l {A B} (R : A → B → Prop) l l' k :
  l ≡ₚ l' → Forall2 R l k → ∃ k', k ≡ₚ k' ∧ Forall2 R l' k'.
Proof.
  intros Hp. revert k. induction Hp as [|x l l' _ IH|x y l|l l' l'' _ IH1 _ IH2]; intros k Hk.
  - by exists k.
  - inversion Hk as [|? z ? k' Hz Hk']; subst. destruct (IH k' Hk') as (k2&?&?).
    exists (z :: k2). split; [by constructor|by constructor].
  - inversion Hk as [|? z ? k1 Hz Hk1]; subst. inversion Hk1 as [|? z' ? k2 Hz' Hk2]; subst.
    exists (z' :: z :: k2). split; [constructor|by repeat constructor].
  - destruct (IH1 k Hk) as (k1&?&Hk1). destruct (IH2 k1 Hk1) as (k2&?&?).
    exists k2. split; [by etransitivity|done].
Qed.

Lemma Forall2_impl_elem {A B} (R S : A → B → Prop) l k :
  (∀ x y, x ∈ l → R x y → S x y) → Forall2 R l k → Forall2 S l k.
Proof.
  intros HRS Hf. induction Hf; constructor; [apply HRS; [by left|done]|]. apply IHHf. intros. apply HRS; [by right|done].
Qed.

Lemma Forall2_choose {A B} (R : A → B → Prop) l :
  (∀ x, x ∈ l → ∃ y, R x y) → ∃ k, Forall2 R l k.
Proof.
  induction l as [|x l IH]; intros Hl; [by exists []|].
  destruct (Hl x) as [y Hy]; [by left|]. destruct IH as [k Hk]; [intros; apply Hl; by right|].
  exists (y :: k). by constructor.
Qed.

Lemma concat_Permutation {A} (ls ls' : list (list A)) : ls ≡ₚ ls' → concat ls ≡ₚ concat ls'.
Proof.
  induction 1 as [| |x y l|]; simpl; [done|by f_equiv| |by etransitivity].
  rewrite !app_assoc. f_equiv. apply Permutation_app_comm.
Qed.

Lemma Forall2_concat {A B} (f : A → list B) l rets :
  Forall2 (λ x ret, ret ≡ₚ f x) l rets → concat rets ≡ₚ flat_map f l.
Proof. induction 1; simpl; [done|by f_equiv]. Qed.

Lemma concat_app_fmap {A B} (f g : A → list B) l :
  concat ((λ x, f x ++ g x) <$> l) ≡ₚ concat (f <$> l) ++ concat (g <$> l).
Proof.
  induction l as [|x l IH]; [done|]. rewrite !fmap_cons; simpl. rewrite IH, <-!app_assoc. f_equiv.
  rewrite !app_assoc. f_equiv. apply Permutation_app_comm.
Qed.

(** Grouping a list by a key, over keys that are each listed once. *)
Lemma concat_select {A K} `{EqDecision K} (k : K) (v : list A) keys :
  NoDup keys → k ∈ keys → concat ((λ k', if decide (k = k') then v else []) <$> keys) = v.
Proof.
  assert (∀ l, k ∉ l → concat ((λ k', if decide (k = k') then v else []) <$> l) = []) as Hno.
  { induction l as [|x l IH]; [done|]. rewrite not_elem_of_cons. intros [? ?]. rewrite fmap_cons; simpl.
    by rewrite decide_False, IH. }
  induction 1 as [|x l Hx Hnd IH]; [by intros ?%not_elem_of_nil|]. rewrite fmap_cons; simpl.
  intros [->|Hk]%elem_of_cons; [by rewrite decide_True, Hno, app_nil_r|].
  rewrite decide_False by (by intros ->). by apply IH.
Qed.

(** ** The children of a loaded node *)

Section loaded_dump.
Context (unit_String : Z → string) (Unit_value : string → option Z) (m : ManagerImpl) (h : list RateLimit).

Lemma loaded_children pk ds nd :
  loaded_list Unit_value m h pk ds nd →
  ∃ nds, map_to_list (n_descriptors nd) ≡ₚ zip (finalKey_of <$> ds) nds ∧
    Forall2 (loaded Unit_value m h pk) ds nds.
Proof.
  intros [(Hnd&Hdom&_) Hc].
  destruct (Forall2_choose (λ d nd', n_descriptors nd !! finalKey_of d = Some nd' ∧ loaded Unit_value m h pk d nd') ds)
    as [nds Hnds]; [done|].
  exists nds. split; [|eapply Forall2_impl; [done|]; by intros ? ? []].
  assert ((zip (finalKey_of <$> ds) nds).*1 = finalKey_of <$> ds) as Hfst.
  { apply fst_zip. rewrite length_fmap. by rewrite (Forall2_length _ _ _ Hnds). }
  apply NoDup_Permutation.
  - apply NoDup_map_to_list.
  - apply (NoDup_fmap_1 fst). by rewrite Hfst.
  - intros [k x]. rewrite elem_of_map_to_list. split.
    + intros Hk. assert (k ∈ finalKey_of <$> ds) as (d&->&Hd)%list_elem_of_fmap by (apply Hdom; by eexists).
      apply list_elem_of_lookup in Hd as [i Hi].
      destruct (Forall2_lookup_l _ _ _ _ _ Hnds Hi) as (y&Hy&Hlk&_). apply list_elem_of_lookup. exists i.
      apply lookup_zip_with_Some. exists (finalKey_of d), y. split_and!; [congruence| |done].
      by rewrite list_lookup_fmap, Hi.
    + intros (i&Hi)%list_elem_of_lookup. apply lookup_zip_with_Some in Hi as (k'&y&[= <- <-]&Hk&Hy).
      rewrite list_lookup_fmap in Hk. destruct (ds !! i) as [d|] eqn:Hd; [|done]. injection Hk as <-.
      by destruct (Forall2_lookup_lr _ _ _ _ _ _ Hnds Hd Hy).
Qed.

(** Every dump of the children is a dump of each, and there is one. *)
Lemma children_dump pk ds nd (lines : YamlDescriptor → list string) order rets :
  loaded_list Unit_value m h pk ds nd →
  (∀ d nd' ret, d ∈ ds → loaded Unit_value m h pk d nd' → dump unit_String h nd' ret → ret ≡ₚ lines d) →
  order ≡ₚ map_to_list (n_descriptors nd) →
  Forall2 (λ kd ret, dump unit_String h kd.2 ret) order rets →
  concat rets ≡ₚ flat_map lines ds.
Proof.
  intros Hl IH Hord Hrets. destruct (loaded_children pk ds nd Hl) as (nds&Hperm&Hnds). rewrite Hperm in Hord.
  destruct (Forall2_Permutation_l _ _ _ _ Hord Hrets) as (rets'&->%concat_Permutation&Hrets').
  apply Forall2_concat. clear -Hnds Hrets' IH. revert rets' Hrets'.
  induction Hnds as [|d nd' ds nds Hd Hds IHds]; intros rets' Hr; inversion Hr; subst; [constructor|].
  constructor; [|by apply IHds; [intros; eapply IH; [by right|..]|]]. eapply IH; [by left|done|done].
Qed.

Lemma dump_total pk ds nd :
  loaded_list Unit_value m h pk ds nd →
  (∀ d nd', d ∈ ds → loaded Unit_value m h pk d nd' → ∃ ret, dump unit_String h nd' ret) →
  ∃ ret, dump unit_String h nd ret.
Proof.
  intros Hl IH. destruct (loaded_children pk ds nd Hl) as (nds&Hperm&Hnds).
  destruct (Forall2_choose (λ kd ret, dump unit_String h kd.2 ret) (zip (finalKey_of <$> ds) nds)) as [rets Hrets].
  { intros [k x] (i&Hi)%list_elem_of_lookup. apply lookup_zip_with_Some in Hi as (k'&y&[= <- <-]&Hk&Hy).
    destruct (Forall2_lookup_r _ _ _ _ _ Hnds Hy) as (d&Hd&Hld). eapply IH; [by eapply list_elem_of_lookup_2|done]. }
  eexists. by econstructor.
Qed.

Lemma own_lines_loaded key d nd :
  loaded_limit Unit_value m h key d (n_limit nd) →
  own_lines unit_String h nd =
    match yd_RateLimit d with
    | Some l => [dump_line unit_String (limit_of Unit_value m key d l)]
    | None => []
    end.
Proof.
  unfold loaded_limit, own_lines. destruct (yd_RateLimit d) as [l|], (n_limit nd) as [p|]; try done.
  intros (rl&->&(Hk&Hl&_&Hs&_)). unfold dump_line. by rewrite Hk, Hl, Hs.
Qed.

Lemma dump_loaded d : ∀ pk nd ret,
  loaded Unit_value m h pk d nd → dump unit_String h nd ret → ret ≡ₚ yaml_lines unit_String Unit_value m pk d.
Proof.
  induction d as [d IH] using YamlDescriptor_nested_ind. intros pk nd ret Hl [order rets Hord Hrets].
  pose proof (loaded_list_children _ _ _ _ _ _ Hl) as Hls. destruct Hl as [Hlim _ _].
  rewrite (own_lines_loaded _ _ _ Hlim). destruct d as [key value rl ds sm dm]. cbn [yaml_lines yd_RateLimit]. f_equiv.
  eapply children_dump; [exact Hls|intros; by eapply IH|done|done].
Qed.

Lemma dump_loaded_total d : ∀ pk nd, loaded Unit_value m h pk d nd → ∃ ret, dump unit_String h nd ret.
Proof.
  induction d as [d IH] using YamlDescriptor_nested_ind. intros pk nd Hl%loaded_list_children.
  eapply dump_total; [exact Hl|]. intros. by eapply IH.
Qed.
End loaded_dump.

(** ** The domains have no limit of their own *)

Section roots.
Context {E : Type} (Unit_value : string → option Z).
Implicit Types w : World E.

Definition bare_domains (cf : rateLimitConfigImpl) : Prop :=
  ∀ domain nd, cf_domains cf !! domain = Some nd → n_limit nd = None.

Lemma loadDescriptors_limit m name pk ds : ∀ this nd w w',
  loadDescriptors Unit_value m name pk ds this w = (Ret nd, w') → n_limit nd = n_limit this.
Proof.
  induction ds as [|d ds IH]; intros this nd w w' Hrun; [by injection Hrun as <- _|].
  cbn [loadDescriptors] in Hrun. minv Hrun as (nd1&w1&Hd&Hrun). rewrite (IH _ _ _ _ Hrun).
  rewrite loadDescriptor_eq in Hd. destruct (decide (yd_Key d = "")); [done|].
  destruct (n_descriptors this !! finalKey_of d); [done|]. minv Hd as (o&w2&_&Hd). minv Hd as (c&w3&_&Hd).
  by injection Hd as <- _.
Qed.

Lemma loadConfig_bare cf c cf' w w' :
  loadConfig Unit_value cf c w = (Ret cf', w') → bare_domains cf → bare_domains cf'.
Proof.
  unfold loadConfig. destruct (decide _); [done|]. intros Hrun Hb.
  assert (∃ this nd w1, n_limit this = None ∧
    loadDescriptors Unit_value (cf_statsManager cf) (cl_Name c) (yo_Domain (cl_ConfigYaml c) +:+ ".")
      (yo_Descriptors (cl_ConfigYaml c)) this w = (Ret nd, w1) ∧
    cf_domains cf' = <[yo_Domain (cl_ConfigYaml c) := nd]> (cf_domains cf)) as (this&nd&w1&Hthis&Hl&Hcf).
  { destruct (cf_domains cf !! _) as [dom|] eqn:Hd; [destruct (negb _); [done|]|];
      minv Hrun as (nd&w1&Hl&Hrun); injection Hrun as <- _; eexists _, nd, w1; (split; [|by split]); [by eapply Hb|done]. }
  apply loadDescriptors_limit in Hl. intros domain nd'. rewrite Hcf, lookup_insert_Some.
  intros [[_ <-]|[_ Hd]]; [congruence|by eapply Hb].
Qed.

Lemma Load_bare m merge configs cf w w' :
  Load Unit_value configs m merge w = (Ret cf, w') → bare_domains cf.
Proof.
  unfold Load, NewRateLimitConfigImpl, range.
  assert (bare_domains (mkConfig ∅ m merge)) as Hb by (intros domain nd; simpl; by rewrite lookup_empty).
  revert Hb. generalize (mkConfig ∅ m merge), 0%nat. revert w.
  induction configs as [|c cs IH]; intros w cf0 i Hb Hrun; [by injection Hrun as <- _|].
  cbn [range_from] in Hrun. minv Hrun as (cf1&w1&Hc&Hrun). eapply IH; [|exact Hrun]. by eapply loadConfig_bare.
Qed.
End roots.

(** ** What is dumped *)

(** The lines of a domain, grouped over the files that configure it. *)
Lemma flat_map_domain {B} (f : YamlDescriptor → list B) configs domain :
  flat_map f (domain_descriptors configs domain) =
    concat ((λ c, if decide (yo_Domain (cl_ConfigYaml c) = domain)
                  then flat_map f (yo_Descriptors (cl_ConfigYaml c)) else []) <$> configs).
Proof.
  induction configs as [|c cs IH]; [done|]. unfold domain_descriptors in *. rewrite !fmap_cons; simpl.
  rewrite flat_map_app, IH. f_equal. by destruct (decide _).
Qed.

Lemma config_lines_grouped unit_String Unit_value m configs domains :
  NoDup domains → (∀ c, c ∈ configs → yo_Domain (cl_ConfigYaml c) ∈ domains) →
  concat ((λ domain, flat_map (yaml_lines unit_String Unit_value m (domain +:+ "."))
                       (domain_descriptors configs domain)) <$> domains) ≡ₚ
  config_lines unit_String Unit_value m configs.
Proof.
  intros Hnd. induction configs as [|c cs IH]; intros Hin.
  { clear. induction domains as [|d ds IHd]; [done|]. by rewrite fmap_cons. }
  unfold config_lines in *. cbn [flat_map]. rewrite <-IH by (intros; apply Hin; by right).
  rewrite <-(concat_select (yo_Domain (cl_ConfigYaml c)) (flat_map
    (yaml_lines unit_String Unit_value m (yo_Domain (cl_ConfigYaml c) +:+ ".")) (yo_Descriptors (cl_ConfigYaml c)))
    domains Hnd) by (apply Hin; by left).
  rewrite <-concat_app_fmap. f_equiv. apply reflexive_eq, list_fmap_ext. intros i domain _.
  unfold domain_descriptors. rewrite fmap_cons; simpl. rewrite flat_map_app. f_equal.
  destruct (decide (yo_Domain (cl_ConfigYaml c) = domain)) as [<-|]; done.
Qed.

(** C31: the dump shows the configuration.  After any load, and whatever limits were
    served since, the dump has, in whatever order the maps are iterated, exactly
    one line for every [rate_limit] of the files, with its full key, unit, rate
    and shadow mode as in the file, and nothing else; and there is one. *)
Theorem Dump_lists {E} unit_String Unit_value m merge configs (w0 w1 : World E) cf h :
  Load Unit_value configs m merge w0 = (Ret cf, w1) → heap_ext (w_heap w1) h →
  (∃ lines, Dump unit_String h cf lines) ∧
  ∀ lines, Dump unit_String h cf lines → lines ≡ₚ config_lines unit_String Unit_value m configs.
Proof.
  intros Hload Hx. destruct (Load_config_of _ _ _ _ _ _ _ _ Hload Hx) as (_&_&Hd). apply Load_bare in Hload.
  assert (∀ domain nd, (domain, nd) ∈ map_to_list (cf_domains cf) → n_limit nd = None ∧
    loaded_list Unit_value m h (domain +:+ ".") (domain_descriptors configs domain) nd) as Hroot.
  { intros domain nd Hin%elem_of_map_to_list. specialize (Hd domain). rewrite Hin in Hd.
    split; [by eapply Hload|apply Hd]. }
  split.
  { destruct (Forall2_choose (λ dn ret, dump unit_String h dn.2 ret) (map_to_list (cf_domains cf))) as [rets Hr].
    - intros [domain nd] [_ Hl]%Hroot. eapply dump_total; [exact Hl|]. intros. by eapply dump_loaded_total.
    - by eexists _, _, rets. }
  intros lines (order&rets&Hord&Hrets&->).
  destruct (Forall2_Permutation_l _ _ _ _ Hord Hrets) as (rets'&->%concat_Permutation&Hrets').
  rewrite <-(config_lines_grouped _ _ _ _ (map_to_list (cf_domains cf)).*1); [|apply NoDup_fst_map_to_list|].
  - rewrite <-list_fmap_compose, <-flat_map_concat_map. apply Forall2_concat.
    eapply Forall2_impl_elem; [|exact Hrets']. intros [domain nd] ret [Hnone Hl]%Hroot [order' rets'' Hord' Hr].
    unfold own_lines. cbn [snd]. rewrite Hnone. cbn [app]. eapply children_dump; [exact Hl|intros; by eapply dump_loaded|done|done].
  - intros c Hc. specialize (Hd (yo_Domain (cl_ConfigYaml c))).
    assert (yo_Domain (cl_ConfigYaml c) ∈ domains_of configs) as Hin by (by apply (list_elem_of_fmap_2 (λ c, yo_Domain (cl_ConfigYaml c)))).
    destruct (cf_domains cf !! _) as [nd|] eqn:Hnd; [|done].
    apply list_elem_of_fmap. eexists (_, nd). split; [|by apply elem_of_map_to_list]. done.
Qed.

Lemma Dump_lists_witness :
  ∃ cf (w : World unit) lines,
    Load documented_units example_configs example_manager false empty_world = (Ret cf, w) ∧
    Dump documented_names (w_heap w) cf lines ∧
    lines ≡ₚ ["messaging.message_type_marketing.to_number: unit=DAY requests_per_unit=5, shadow_mode: false";
              "messaging.to_number: unit=DAY requests_per_unit=100, shadow_mode: false";
              "messaging.to_number_206*: unit=HOUR requests_per_unit=7, shadow_mode: false"].
Proof.
  destruct (Load documented_units example_configs example_manager false empty_world)
    as [[cf|p|c] w] eqn:Hl; [|exfalso; by vm_compute in Hl..].
  destruct (Dump_lists documented_names documented_units example_manager false example_configs empty_world w cf
    (w_heap w) Hl ltac:(reflexivity)) as [[lines Hlines] Hall].
  exists cf, w, lines. split; [done|]. split; [done|]. rewrite (Hall lines Hlines). clear.
  apply reflexive_eq. by vm_compute.
Defined.
