(* ===== verification/Limiter.v ===== *)
(** * [src/limiter]: cache keys and the verdict on one descriptor

    [cache_key.go] and [base_limiter.go].  The buffer pool of the key generator
    is an allocation cache without effect on the keys and is not modelled; the
    time source, the random source and the local cache library are the classes
    of [World.v].

    The near-limit threshold is computed in [float32] as the code does, on the
    Standard Library's executable IEEE 754 arithmetic ([SpecFloat], 24 bits of
    precision, exponents to 128).  Converting to [uint32] truncates and wraps,
    which is what the amd64 compiler generates where the language leaves the
    result open. *)

From Stdlib Require Import SpecFloat.
From S2P Require Import Prelude GoStrings World Utils.

#[local] Open Scope Z_scope.

(** ** Cache keys *)

Record CacheKey : Set := mkCacheKey { ck_Key : string; ck_PerSecond : bool }.

Definition isPerSecondLimit (unit : Z) : bool := unit =? SECOND.

(** The text written into the buffer before the window's start. *)
Definition key_stem (prefix domain : string) (entries : list Entry) : string :=
  prefix +:+ domain +:+ "_" +:+
  foldr (λ e s, e_Key e +:+ "_" +:+ e_Value e +:+ "_" +:+ s) "" entries.

Definition GenerateCacheKey {E} (prefix domain : string) (descriptor : Descriptor)
    (limit : option loc) (now : Z) : M (World E) CacheKey :=
  match limit with
  | None => mret (mkCacheKey "" false)
  | Some l =>
      rl ← load l;
      divider ← UnitToDivider (pl_Unit (rl_Limit rl));
      mret (mkCacheKey
        (key_stem prefix domain (d_Entries descriptor) +:+
         FormatInt (Z.quot now divider * divider))
        (isPerSecondLimit (pl_Unit (rl_Limit rl))))
  end.

(** ** The base limiter *)

Record BaseRateLimiter : Set := mkBase {
  b_ExpirationJitterMaxSeconds : Z;
  b_cacheKeyPrefix : string;
  b_localCache : bool;               (** the local cache is enabled *)
  b_nearLimitRatio : spec_float;     (** a float32 *)
}.

Record LimitInfo : Set := mkLimitInfo {
  li_limit : option loc;
  li_limitBeforeIncrease : Z;
  li_limitAfterIncrease : Z;
  li_nearLimitThreshold : Z;
  li_overLimitThreshold : Z;
}.

Definition NewRateLimitInfo := mkLimitInfo.

Definition float32_of_uint32 (z : Z) : spec_float := binary_normalize 24 128 z 0 false.

(** [math.Floor] of a float64 followed by the conversion to an integer. *)
Definition floor_float (f : spec_float) : Z :=
  match f with
  | S754_finite s mant e =>
      let v := if s then - Zpos mant else Zpos mant in
      if 0 <=? e then v * 2 ^ e else v `div` 2 ^ (- e)
  | _ => 0
  end.

(** [uint32(math.Floor(float64(float32(over) * nearLimitRatio)))] *)
Definition near_threshold (nearLimitRatio : spec_float) (over : Z) : Z :=
  u32 (floor_float (SFmul 24 128 (float32_of_uint32 over) nearLimitRatio)).

Section base.
Context {E : Type} `{TimeSource E} `{FreeCache E}.
#[local] Abbreviation W := (World E).

Definition Assert (something : bool) : M W unit :=
  if something then mret () else throw (PString "assertion failed").

Definition GenerateCacheKeys (this : BaseRateLimiter) (request : RateLimitRequest)
    (limits : list (option loc)) (hitsAddend : Z) : M W (list CacheKey) :=
  _ ← Assert (bool_decide (length (rq_Descriptors request) = length limits));
  now ← UnixNow;
  range (rq_Descriptors request) [] (λ i descriptor cacheKeys,
    limit ← index limits i;
    key ← GenerateCacheKey (b_cacheKeyPrefix this) (rq_Domain request) descriptor limit now;
    _ ← match limit with
        | Some l => rl ← load l; Add (s_TotalHits (rl_Stats rl)) (u64 hitsAddend)
        | None => mret ()
        end;
    mret (cacheKeys ++ [key])).

Definition IsOverLimitWithLocalCache (this : BaseRateLimiter) (key : string) : M W bool :=
  if b_localCache this then ext (fc_Get key) else mret false.

(** The update of the threshold is visible to the caller only. *)
Definition IsOverLimitThresholdReached (limitInfo : LimitInfo) : M W bool :=
  rl ← deref (li_limit limitInfo);
  mret (bool_decide (li_limitAfterIncrease limitInfo > pl_RequestsPerUnit (rl_Limit rl))).

Definition generateResponseDescriptorStatus (responseCode : Code)
    (limit : option PbRateLimit) (limitRemaining : Z) : M W DescriptorStatus :=
  match limit with
  | Some l =>
      reset ← CalculateReset (pl_Unit l);
      mret (mkStatus responseCode (Some l) limitRemaining (Some reset))
  | None => mret (mkStatus responseCode None limitRemaining None)
  end.

Definition checkOverLimitThreshold (rl : RateLimit) (limitInfo : LimitInfo) (hitsAddend : Z)
  : M W unit :=
  if bool_decide (li_limitBeforeIncrease limitInfo >= li_overLimitThreshold limitInfo) then
    Add (s_OverLimit (rl_Stats rl)) (u64 hitsAddend)
  else
    _ ← Add (s_OverLimit (rl_Stats rl))
          (u64 (u32 (li_limitAfterIncrease limitInfo - li_overLimitThreshold limitInfo)));
    Add (s_NearLimit (rl_Stats rl))
      (u64 (u32 (li_overLimitThreshold limitInfo -
                 Max (li_nearLimitThreshold limitInfo) (li_limitBeforeIncrease limitInfo)))).

Definition checkNearLimitThreshold (rl : RateLimit) (limitInfo : LimitInfo) (hitsAddend : Z)
  : M W unit :=
  if bool_decide (li_limitAfterIncrease limitInfo > li_nearLimitThreshold limitInfo) then
    if bool_decide (li_limitBeforeIncrease limitInfo >= li_nearLimitThreshold limitInfo) then
      Add (s_NearLimit (rl_Stats rl)) (u64 hitsAddend)
    else
      Add (s_NearLimit (rl_Stats rl))
        (u64 (u32 (li_limitAfterIncrease limitInfo - li_nearLimitThreshold limitInfo)))
  else mret ().

Definition increaseShadowModeStats (isOverLimitWithLocalCache : bool) (rl : RateLimit)
    (limitInfo : LimitInfo) (hitsAddend : Z) : M W unit :=
  if isOverLimitWithLocalCache ||
     bool_decide (li_limitBeforeIncrease limitInfo >= li_overLimitThreshold limitInfo)
  then Add (s_ShadowMode (rl_Stats rl)) (u64 hitsAddend)
  else Add (s_ShadowMode (rl_Stats rl))
         (u64 (u32 (li_limitAfterIncrease limitInfo - li_overLimitThreshold limitInfo))).

Definition with_code (c : Code) (s : DescriptorStatus) : DescriptorStatus :=
  mkStatus c (st_CurrentLimit s) (st_LimitRemaining s) (st_DurationUntilReset s).

Definition GetResponseDescriptorStatus (this : BaseRateLimiter) (key : string)
    (limitInfo : LimitInfo) (isOverLimitWithLocalCache : bool) (hitsAddend : Z)
  : M W DescriptorStatus :=
  if decide (key = "") then generateResponseDescriptorStatus Code_OK None 0
  else
    rl ← deref (li_limit limitInfo);
    '(limitInfo, isOverLimit, status) ←
      (if isOverLimitWithLocalCache then
         _ ← Add (s_OverLimit (rl_Stats rl)) (u64 hitsAddend);
         _ ← Add (s_OverLimitWithLocalCache (rl_Stats rl)) (u64 hitsAddend);
         status ← generateResponseDescriptorStatus Code_OVER_LIMIT (Some (rl_Limit rl)) 0;
         mret (limitInfo, true, status)
       else
         let over := pl_RequestsPerUnit (rl_Limit rl) in
         let limitInfo :=
           mkLimitInfo (li_limit limitInfo) (li_limitBeforeIncrease limitInfo)
             (li_limitAfterIncrease limitInfo)
             (near_threshold (b_nearLimitRatio this) over) over in
         if bool_decide (li_limitAfterIncrease limitInfo > li_overLimitThreshold limitInfo) then
           status ← generateResponseDescriptorStatus Code_OVER_LIMIT (Some (rl_Limit rl)) 0;
           _ ← checkOverLimitThreshold rl limitInfo hitsAddend;
           _ ← (if b_localCache this then
                  divider ← UnitToDivider (pl_Unit (rl_Limit rl));
                  _ ← ext (fc_Set key divider);
                  mret ()
                else mret ());
           mret (limitInfo, true, status)
         else
           status ← generateResponseDescriptorStatus Code_OK (Some (rl_Limit rl))
                      (u32 (li_overLimitThreshold limitInfo - li_limitAfterIncrease limitInfo));
           _ ← checkNearLimitThreshold rl limitInfo hitsAddend;
           _ ← Add (s_WithinLimit (rl_Stats rl)) (u64 hitsAddend);
           mret (limitInfo, false, status));
    if isOverLimit && rl_ShadowMode rl then
      _ ← increaseShadowModeStats isOverLimitWithLocalCache rl limitInfo hitsAddend;
      mret (with_code Code_OK status)
    else mret status.
End base.

(** [NewBaseRateLimit] *)
Definition NewBaseRateLimit (expirationJitterMaxSeconds : Z) (localCache : bool)
    (nearLimitRatio : spec_float) (cacheKeyPrefix : string) : BaseRateLimiter :=
  {| b_ExpirationJitterMaxSeconds := expirationJitterMaxSeconds;
     b_cacheKeyPrefix := cacheKeyPrefix;
     b_localCache := localCache;
     b_nearLimitRatio := nearLimitRatio |}.

(** 0.8 as a float32, the default ratio. *)
Definition ratio_default : spec_float := S754_finite false 13421773 (-24).

(** ** The interface of a backend ([src/limiter/cache.go]) *)

Class RateLimitCache (E C : Type) : Type := {
  cache_DoLimit : C → RateLimitRequest → list (option loc) → M (World E) (list DescriptorStatus);
  cache_Flush : C → M (World E) unit;
}.
