(* ===== verification/LimiterSpec.v ===== *)
(** * The verdict on one descriptor: meaning and accounting

    [GetResponseDescriptorStatus] as a pure function of the counts
    ([status_of], [stat_adds]), and what the statistics mean: with exact counts
    every statistic grows by the number of this request's hits that fall into
    its range ([hits_between]). *)

From Stdlib Require Import SpecFloat.
From S2P Require Import Prelude GoStrings World Utils Limiter.

#[local] Open Scope Z_scope.

(** ** The pure verdict *)

(** Over the limit: known from the local cache, or by the count. *)
Definition over_limit (rl : RateLimit) (cached : bool) (after : Z) : bool :=
  cached || bool_decide (after > pl_RequestsPerUnit (rl_Limit rl)).

Definition status_of (rl : RateLimit) (cached : bool) (after reset : Z) : DescriptorStatus :=
  mkStatus
    (if over_limit rl cached after && negb (rl_ShadowMode rl) then Code_OVER_LIMIT else Code_OK)
    (Some (rl_Limit rl))
    (if over_limit rl cached after then 0 else u32 (pl_RequestsPerUnit (rl_Limit rl) - after))
    (Some reset).

(** The additions to the statistics, in program order: of
    [checkOverLimitThreshold], [increaseShadowModeStats],
    [checkNearLimitThreshold], and of the whole verdict. *)
Definition over_adds (s : RateLimitStats) (over near before after hits : Z) : list (Counter * Z) :=
  if bool_decide (before >= over) then [(s_OverLimit s, u64 hits)]
  else [(s_OverLimit s, u64 (u32 (after - over)));
        (s_NearLimit s, u64 (u32 (over - Max near before)))].

Definition shadow_adds (s : RateLimitStats) (cached : bool) (over before after hits : Z)
  : list (Counter * Z) :=
  if cached || bool_decide (before >= over) then [(s_ShadowMode s, u64 hits)]
  else [(s_ShadowMode s, u64 (u32 (after - over)))].

Definition near_adds (s : RateLimitStats) (near before after hits : Z) : list (Counter * Z) :=
  if bool_decide (after > near) then
    if bool_decide (before >= near) then [(s_NearLimit s, u64 hits)]
    else [(s_NearLimit s, u64 (u32 (after - near)))]
  else [].

Definition stat_adds (ratio : spec_float) (rl : RateLimit) (cached : bool)
    (before after hits : Z) : list (Counter * Z) :=
  let s := rl_Stats rl in
  let over := pl_RequestsPerUnit (rl_Limit rl) in
  let near := near_threshold ratio over in
  if cached then
    [(s_OverLimit s, u64 hits); (s_OverLimitWithLocalCache s, u64 hits)] ++
    (if rl_ShadowMode rl then [(s_ShadowMode s, u64 hits)] else [])
  else if bool_decide (after > over) then
    over_adds s over near before after hits ++
    (if rl_ShadowMode rl then shadow_adds s false over before after hits else [])
  else near_adds s near before after hits ++ [(s_WithinLimit s, u64 hits)].

Section run.
Context {E : Type} `{TimeSource E} `{FreeCache E}.

(** The outside state after the verdict: the clock was read, and a key found
    over the limit by its count was put into the local cache. *)
Definition ext_after (this : BaseRateLimiter) (key : string) (rl : RateLimit) (cached : bool)
    (after d : Z) (e : E) : E :=
  let e := (unix_now e).2 in
  if negb cached && bool_decide (after > pl_RequestsPerUnit (rl_Limit rl)) && b_localCache this
  then (fc_Set key d e).2 else e.

Lemma generate_status_eq code pl remaining d (w : World E) :
  unit_seconds (pl_Unit pl) = Some d →
  generateResponseDescriptorStatus code (Some pl) remaining w =
    (Ret (mkStatus code (Some pl) remaining (Some (i64 (d - Z.rem (unix_now (w_ext w)).1 d)))),
     mkWorld (w_heap w) (w_counters w) (unix_now (w_ext w)).2).
Proof.
  intros Hd. unfold generateResponseDescriptorStatus.
  destruct (unix_now (w_ext w)) as [now e] eqn:Hn.
  by erewrite bind_Ret by (by eapply CalculateReset_eq).
Qed.

(** The state after some additions. *)
Definition bump (ds : list (Counter * Z)) (w : World E) : World E :=
  mkWorld (w_heap w) (ctr_adds ds (w_counters w)) (w_ext w).

Lemma bump_app ds ds' w : bump ds' (bump ds w) = bump (ds ++ ds') w.
Proof. unfold bump; simpl. by rewrite ctr_adds_app. Qed.

Lemma checkOverLimitThreshold_eq rl li hits w :
  checkOverLimitThreshold rl li hits w =
    (Ret (), bump (over_adds (rl_Stats rl) (li_overLimitThreshold li) (li_nearLimitThreshold li)
                     (li_limitBeforeIncrease li) (li_limitAfterIncrease li) hits) w).
Proof. unfold checkOverLimitThreshold, over_adds. by case_bool_decide. Qed.

Lemma checkNearLimitThreshold_eq rl li hits w :
  checkNearLimitThreshold rl li hits w =
    (Ret (), bump (near_adds (rl_Stats rl) (li_nearLimitThreshold li)
                     (li_limitBeforeIncrease li) (li_limitAfterIncrease li) hits) w).
Proof.
  unfold checkNearLimitThreshold, near_adds. destruct w. by repeat case_bool_decide.
Qed.

Lemma increaseShadowModeStats_eq cached rl li hits w :
  increaseShadowModeStats cached rl li hits w =
    (Ret (), bump (shadow_adds (rl_Stats rl) cached (li_overLimitThreshold li)
                     (li_limitBeforeIncrease li) (li_limitAfterIncrease li) hits) w).
Proof. unfold increaseShadowModeStats, shadow_adds. by destruct (cached || _). Qed.

Lemma local_cache_set_eq (enabled : bool) key unit d (w : World E) :
  unit_seconds unit = Some d →
  (if enabled then
     divider ← UnitToDivider unit;
     _ ← ext (fc_Set key divider);
     mret ()
   else mret ()) w =
    (Ret (), mkWorld (w_heap w) (w_counters w)
       (if enabled then (fc_Set key d (w_ext w)).2 else w_ext w)).
Proof.
  intros Hd. destruct enabled; [|by destruct w].
  erewrite bind_Ret by (by apply UnitToDivider_Some). unfold mbind, M_bind, ext.
  by destruct (fc_Set key d (w_ext w)).
Qed.

Lemma GetResponseDescriptorStatus_run this key li cached hits (w : World E) l rl d :
  key ≠ "" → li_limit li = Some l → w_heap w !! l = Some rl →
  unit_seconds (pl_Unit (rl_Limit rl)) = Some d →
  GetResponseDescriptorStatus this key li cached hits w =
    (Ret (status_of rl cached (li_limitAfterIncrease li)
            (i64 (d - Z.rem (unix_now (w_ext w)).1 d))),
     mkWorld (w_heap w)
       (ctr_adds (stat_adds (b_nearLimitRatio this) rl cached (li_limitBeforeIncrease li)
                    (li_limitAfterIncrease li) hits) (w_counters w))
       (ext_after this key rl cached (li_limitAfterIncrease li) d (w_ext w))).
Proof.
  intros Hk Hl Hrl Hd. unfold GetResponseDescriptorStatus. rewrite decide_False by done.
  assert (deref (li_limit li) w = (Ret rl, w)) as Hderef.
  { rewrite Hl. unfold deref. erewrite bind_Ret by reflexivity. by apply load_Some. }
  rewrite (bind_Ret _ _ _ _ _ Hderef). unfold status_of, over_limit, stat_adds, ext_after.
  destruct cached; simpl.
  - erewrite bind_Ret.
    2: { do 2 (erewrite bind_Ret by reflexivity).
         erewrite bind_Ret by (by apply generate_status_eq). reflexivity. }
    simpl. by destruct (rl_ShadowMode rl).
  - case_bool_decide as Hover.
    + erewrite bind_Ret.
      2: { erewrite bind_Ret by (by apply generate_status_eq).
           erewrite bind_Ret by apply checkOverLimitThreshold_eq.
           erewrite bind_Ret by (by apply local_cache_set_eq). reflexivity. }
      simpl. rewrite ctr_adds_app. destruct (rl_ShadowMode rl); [|reflexivity].
      erewrite bind_Ret by apply increaseShadowModeStats_eq. reflexivity.
    + erewrite bind_Ret.
      2: { erewrite bind_Ret by (by apply generate_status_eq).
           erewrite bind_Ret by apply checkNearLimitThreshold_eq.
           erewrite bind_Ret by reflexivity. reflexivity. }
      simpl. by rewrite ctr_adds_app.
Qed.
End run.

(** ** What the statistics count *)

(** Hits [before + 1 .. after] of a window, cut to the range [(lo, hi]]. *)
Definition hits_between (lo hi before after : Z) : Z :=
  Z.max 0 (Z.min after hi - Z.max before lo).

(** Hits of the window past the limit. *)
Definition hits_over (over before after : Z) : Z := hits_between over after before after.

(** The contribution of one request to the six statistics of a limit. *)
Definition accounted (s : RateLimitStats) (c : Counter) (total over near local within shadow : Z)
  : Z :=
  adds_to c [(s_TotalHits s, total); (s_OverLimit s, over); (s_NearLimit s, near);
             (s_OverLimitWithLocalCache s, local); (s_WithinLimit s, within);
             (s_ShadowMode s, shadow)].

Lemma adds_to_nil c : adds_to c [] = 0.
Proof. done. Qed.

(** Splits the additions to a counter into one sum per addition. *)
Ltac sum_adds := rewrite ?adds_to_app, ?adds_to_cons, ?adds_to_nil; cbn [fst snd].

Lemma stat_adds_cached ratio rl before after hits c :
  is_u32 hits →
  adds_to c (stat_adds ratio rl true before after hits) =
    accounted (rl_Stats rl) c 0 hits 0 hits 0 (if rl_ShadowMode rl then hits else 0).
Proof.
  intros Hh. unfold stat_adds, accounted. rewrite u64_small by word.
  destruct (rl_ShadowMode rl); sum_adds; repeat case_decide; lia.
Qed.

(** With exact counts, every statistic grows by the number of the request's
    hits that fall into its range. *)
Lemma stat_adds_counted ratio rl before hits c :
  let over := pl_RequestsPerUnit (rl_Limit rl) in
  let near := near_threshold ratio over in
  let after := before + hits in
  0 <= before → 0 < hits → after < 2 ^ 32 → is_u32 over → 0 <= near <= over →
  adds_to c (stat_adds ratio rl false before after hits) =
    accounted (rl_Stats rl) c 0 (hits_over over before after)
      (hits_between near over before after) 0 (if bool_decide (after > over) then 0 else hits)
      (if rl_ShadowMode rl then hits_over over before after else 0).
Proof.
  intros over near after Hb Hh Ha Ho Hn.
  unfold stat_adds, accounted, over_adds, shadow_adds, near_adds, hits_over, hits_between.
  cbv zeta. fold over near. rewrite Max_max, orb_false_l. rewrite (u64_small hits) by word.
  repeat case_bool_decide; try lia; destruct (rl_ShadowMode rl); sum_adds;
    repeat case_decide; word.
Qed.

(** ** Accounting over a window

    A request takes the total of a window from [u] to [u + hits]; [local] of its
    hits were answered from the local cache. *)
Definition window_account (ratio : spec_float) (rl : RateLimit) (total u hits local within : Z) (c : Counter) : Z :=
  let over := pl_RequestsPerUnit (rl_Limit rl) in
  accounted (rl_Stats rl) c total (hits_over over u (u + hits))
    (hits_between (near_threshold ratio over) over u (u + hits)) local within
    (if rl_ShadowMode rl then hits_over over u (u + hits) else 0).

Lemma accounted_add s c t o n l i h t' o' n' l' i' h' :
  accounted s c t o n l i h + accounted s c t' o' n' l' i' h' =
    accounted s c (t + t') (o + o') (n + n') (l + l') (i + i') (h + h').
Proof. unfold accounted. sum_adds. repeat case_decide; lia. Qed.

Lemma accounted_total s c t : accounted s c t 0 0 0 0 0 = adds_to c [(s_TotalHits s, t)].
Proof. unfold accounted. sum_adds. repeat case_decide; lia. Qed.

Lemma near_threshold_u32 ratio over : is_u32 (near_threshold ratio over).
Proof. apply u32_range. Qed.

Lemma window_account_total ratio rl t u hits l i c :
  adds_to c [(s_TotalHits (rl_Stats rl), t)] + window_account ratio rl 0 u hits l i c =
    window_account ratio rl t u hits l i c.
Proof.
  rewrite <-accounted_total. unfold window_account. rewrite accounted_add. f_equal; lia.
Qed.

Lemma window_account_0 ratio rl u c : window_account ratio rl 0 u 0 0 0 c = 0.
Proof.
  unfold window_account, hits_over, hits_between, accounted. sum_adds. rewrite Z.add_0_r.
  destruct (rl_ShadowMode rl); repeat case_decide; lia.
Qed.

(** Consecutive requests account for the hits of both. *)
Lemma window_account_add ratio rl t u hits l i t' hits' l' i' c :
  0 <= hits → 0 <= hits' →
  window_account ratio rl t u hits l i c + window_account ratio rl t' (u + hits) hits' l' i' c =
    window_account ratio rl (t + t') u (hits + hits') (l + l') (i + i') c.
Proof.
  intros Hh Hh'. unfold window_account. cbv zeta. rewrite accounted_add, <-Z.add_assoc.
  set (over := pl_RequestsPerUnit (rl_Limit rl)). set (near := near_threshold ratio over).
  f_equal; [..|destruct (rl_ShadowMode rl)]; unfold hits_over, hits_between; lia.
Qed.

(** The additions of a verdict whose count is exact, or past the limit like the
    total, are the account of the window. *)
Lemma stat_adds_window ratio rl (cached : bool) u r hits c :
  let over := pl_RequestsPerUnit (rl_Limit rl) in
  0 <= u → 0 < hits → u + hits < 2 ^ 32 → is_u32 over → near_threshold ratio over <= over →
  (cached = true → over <= u) →
  (cached = false → hits <= r <= u + hits ∧ (r = u + hits ∨ over <= r - hits)) →
  adds_to c (stat_adds ratio rl cached (u32 (r - hits)) r hits) =
    window_account ratio rl 0 u hits (if cached then hits else 0)
      (if bool_decide (u + hits > over) then 0 else hits) c.
Proof.
  intros over Hu Hh Hfits Ho Hn Hc Hr. unfold window_account. cbv zeta. fold over.
  pose proof (near_threshold_u32 ratio over) as [Hn0 _]. destruct cached.
  - specialize (Hc eq_refl). rewrite stat_adds_cached by word. rewrite bool_decide_true by lia.
    f_equal; [..|destruct (rl_ShadowMode rl)]; unfold hits_over, hits_between; lia.
  - destruct (Hr eq_refl) as [Hle Hor]. rewrite u32_small by word.
    pose proof (stat_adds_counted ratio rl (r - hits) hits c) as Hcount. cbv zeta in Hcount.
    replace (r - hits + hits) with r in Hcount by lia. fold over in Hcount.
    rewrite Hcount by (done || lia). destruct Hor as [->|Hover].
    + by replace (u + hits - hits) with u by lia.
    + rewrite !bool_decide_true by lia.
      f_equal; [..|destruct (rl_ShadowMode rl)]; unfold hits_over, hits_between; lia.
Qed.

(** C15: the verdict on a descriptor with a limit, from exact counts: the code is
    OVER_LIMIT exactly when the window's count passes the limit (or the local
    cache already knows it) and the limit is not in shadow mode; the remaining
    quota and the limit are reported; the reset time is positive, at most one
    window, and lands on the start of the next window.  Each of the limit's
    statistics grows by the number of the request's hits in its range: past the
    limit, between the near threshold and the limit, within the limit, and in
    shadow mode. *)
Theorem GetResponseDescriptorStatus_verdict `{TimeSource E} `{FreeCache E} this key cached
    before hits (w : World E) l rl d :
  let over := pl_RequestsPerUnit (rl_Limit rl) in
  let near := near_threshold (b_nearLimitRatio this) over in
  let after := before + hits in
  let now := (unix_now (w_ext w)).1 in
  key ≠ "" → w_heap w !! l = Some rl → unit_seconds (pl_Unit (rl_Limit rl)) = Some d →
  0 <= before → 0 < hits → after < 2 ^ 32 → is_u32 over → near <= over → 0 <= now < 2 ^ 62 →
  ∃ status w' reset,
    GetResponseDescriptorStatus this key (NewRateLimitInfo (Some l) before after 0 0) cached hits w
      = (Ret status, w') ∧
    (st_Code status = Code_OVER_LIMIT ↔ (cached = true ∨ after > over) ∧ rl_ShadowMode rl = false) ∧
    st_CurrentLimit status = Some (rl_Limit rl) ∧
    st_LimitRemaining status = (if cached then 0 else Z.max 0 (over - after)) ∧
    st_DurationUntilReset status = Some reset ∧
    1 <= reset <= d ∧ now + reset = window_start now d + d ∧
    w_heap w' = w_heap w ∧
    ∀ c, u64 (ctr_value (w_counters w') c) = u64 (ctr_value (w_counters w) c +
      if cached then accounted (rl_Stats rl) c 0 hits 0 hits 0 (if rl_ShadowMode rl then hits else 0)
      else accounted (rl_Stats rl) c 0 (hits_over over before after)
             (hits_between near over before after) 0 (if bool_decide (after > over) then 0 else hits)
             (if rl_ShadowMode rl then hits_over over before after else 0)).
Proof.
  intros over near after now Hk Hl Hd Hb Hh Ha Ho Hn Hnow.
  pose proof (u32_range (floor_float (SFmul 24 128 (float32_of_uint32 over) (b_nearLimitRatio this))))
    as Hnear.
  destruct (reset_window now d Hnow) as [Hreset Hend]; [by eapply unit_seconds_bounds|].
  eexists _, _, _. rewrite (GetResponseDescriptorStatus_run _ _ _ _ _ _ l rl d) by done.
  split; [reflexivity|]. unfold status_of, over_limit; simpl. fold over after now.
  split; [|split_and!; [done| |done|lia|lia|done|done|]].
  - destruct cached, (rl_ShadowMode rl); case_bool_decide; simpl; intuition congruence.
  - destruct cached; simpl; [done|]. case_bool_decide; [lia|]. word.
  - intros c. rewrite ctr_value_adds. destruct cached.
    + by rewrite stat_adds_cached by word.
    + unfold after, over. rewrite stat_adds_counted; [done|done..|split; [apply Hnear|exact Hn]].
Qed.

(** ** Cache keys *)

Lemma GenerateCacheKey_run {E} prefix domain desc l now (w : World E) rl d :
  w_heap w !! l = Some rl → unit_seconds (pl_Unit (rl_Limit rl)) = Some d →
  GenerateCacheKey prefix domain desc (Some l) now w =
    (Ret (mkCacheKey (key_stem prefix domain (d_Entries desc) +:+ FormatInt (window_start now d))
            (isPerSecondLimit (pl_Unit (rl_Limit rl)))), w).
Proof.
  intros Hl Hd. unfold GenerateCacheKey.
  rewrite (bind_Ret _ _ _ _ _ (load_Some _ _ _ Hl)).
  by rewrite (bind_Ret _ _ _ _ _ (UnitToDivider_Some _ _ _ Hd)).
Qed.

Lemma key_stem_ne prefix domain es s : key_stem prefix domain es +:+ s ≠ "".
Proof.
  unfold key_stem. rewrite !str_app_assoc. intros E. apply (f_equal String.length) in E.
  rewrite !str_app_length in E. simpl in E. lia.
Qed.

Lemma window_start_same now now' d :
  0 < d → 0 <= now → 0 <= now' → window_start now d = window_start now' d ↔ now / d = now' / d.
Proof.
  intros. unfold window_start. rewrite !Z.quot_div_nonneg by lia. split; [nia|congruence].
Qed.

(** C18: the cache keys of one descriptor under one limit at two times are equal
    exactly when the times lie in the same window; they are never empty, and
    the per-second flag is set for the unit SECOND only. *)
Theorem GenerateCacheKey_window {E} prefix domain desc l (w : World E) rl d now now' :
  w_heap w !! l = Some rl → unit_seconds (pl_Unit (rl_Limit rl)) = Some d →
  0 <= now → 0 <= now' →
  ∃ k k',
    GenerateCacheKey prefix domain desc (Some l) now w = (Ret k, w) ∧
    GenerateCacheKey prefix domain desc (Some l) now' w = (Ret k', w) ∧
    ck_Key k ≠ "" ∧
    (ck_PerSecond k = true ↔ pl_Unit (rl_Limit rl) = SECOND) ∧
    (k = k' ↔ now / d = now' / d).
Proof.
  intros Hl Hd Hn Hn'. pose proof (unit_seconds_bounds _ _ Hd).
  eexists _, _. split_and!; [by eapply GenerateCacheKey_run..| | |]; simpl.
  - apply key_stem_ne.
  - unfold isPerSecondLimit. apply Z.eqb_eq.
  - rewrite <-window_start_same by lia. split; [|by intros ->].
    intros [= E1%str_app_inj_l%FormatInt_inj]. done.
Qed.

(** ** Keys and hits of a whole request *)

Definition good_limit (h : list RateLimit) (o : option loc) : Prop :=
  match o with
  | None => True
  | Some l => ∃ rl d, h !! l = Some rl ∧ unit_seconds (pl_Unit (rl_Limit rl)) = Some d
  end.

Definition cache_key_of (h : list RateLimit) (prefix domain : string) (now : Z)
    (desc : Descriptor) (o : option loc) : CacheKey :=
  match o ≫= λ l, h !! l with
  | None => mkCacheKey "" false
  | Some rl =>
      mkCacheKey (key_stem prefix domain (d_Entries desc) +:+
                  FormatInt (window_start now (default 1 (unit_seconds (pl_Unit (rl_Limit rl))))))
        (isPerSecondLimit (pl_Unit (rl_Limit rl)))
  end.

Definition total_adds (h : list RateLimit) (hits : Z) (limits : list (option loc))
  : list (Counter * Z) :=
  limits ≫= λ o, match o ≫= λ l, h !! l with
                 | Some rl => [(s_TotalHits (rl_Stats rl), u64 hits)]
                 | None => []
                 end.

Lemma zip_with_take_S {A B C} (f : A → B → C) l k j x y :
  l !! j = Some x → k !! j = Some y →
  take (S j) (zip_with f l k) = take j (zip_with f l k) ++ [f x y].
Proof. intros Hx Hy. apply take_S_r. by rewrite lookup_zip_with, Hx; simpl; rewrite Hy. Qed.

Lemma cache_key_empty h prefix domain now desc o :
  good_limit h o → ck_Key (cache_key_of h prefix domain now desc o) = "" ↔ o = None.
Proof.
  unfold good_limit, cache_key_of. destruct o as [l|]; simpl; [|done].
  intros (rl&d&->&_). split; [|done]. intros Hk. by apply key_stem_ne in Hk.
Qed.

Lemma GenerateCacheKeys_run `{TimeSource E} this req limits hits (w : World E) :
  length (rq_Descriptors req) = length limits → Forall (good_limit (w_heap w)) limits →
  GenerateCacheKeys this req limits hits w =
    (Ret (zip_with (cache_key_of (w_heap w) (b_cacheKeyPrefix this) (rq_Domain req)
                      (unix_now (w_ext w)).1) (rq_Descriptors req) limits),
     mkWorld (w_heap w) (ctr_adds (total_adds (w_heap w) hits limits) (w_counters w))
       (unix_now (w_ext w)).2).
Proof.
  intros Hlen Hgood. unfold GenerateCacheKeys. rewrite bool_decide_true by done.
  erewrite bind_Ret by reflexivity. destruct (unix_now (w_ext w)) as [now e] eqn:Hn.
  erewrite bind_Ret; [|unfold UnixNow, ext; by rewrite Hn]. simpl.
  set (keys := zip_with _ _ _).
  destruct (range_inv (λ j s w', s = take j keys ∧
      w' = mkWorld (w_heap w) (ctr_adds (total_adds (w_heap w) hits (take j limits)) (w_counters w)) e)
    (rq_Descriptors req) (λ i descriptor cacheKeys,
      limit ← index limits i;
      key ← GenerateCacheKey (b_cacheKeyPrefix this) (rq_Domain req) descriptor limit now;
      _ ← match limit with
          | Some l => rl ← load l; Add (s_TotalHits (rl_Stats rl)) (u64 hits)
          | None => mret ()
          end;
      mret (cacheKeys ++ [key])) [] (mkWorld (w_heap w) (w_counters w) e)) as (s&w'&Hrun&->&->).
  - done.
  - intros j desc s w' Hj [-> ->].
    destruct (lookup_lt_is_Some_2 limits j) as [o Ho]; [apply lookup_lt_Some in Hj; lia|].
    erewrite bind_Ret by (by apply index_Some).
    assert (take (S j) keys = take j keys ++ [cache_key_of (w_heap w) (b_cacheKeyPrefix this)
      (rq_Domain req) now desc o]) as -> by (by apply zip_with_take_S).
    rewrite (take_S_r limits j o) by done.
    unfold total_adds at 2. rewrite bind_app, ctr_adds_app. simpl.
    pose proof (Forall_lookup_1 _ _ _ _ Hgood Ho) as Hg. destruct o as [l|]; simpl.
    + destruct Hg as (rl&d&Hl&Hd). unfold cache_key_of; simpl.
      erewrite bind_Ret by (by apply GenerateCacheKey_run).
      erewrite bind_Ret by (erewrite bind_Ret by (by apply load_Some); reflexivity).
      returns. rewrite Hl, Hd. done.
    + returns. done.
  - unfold range in *. rewrite Hrun. rewrite !take_ge; [done| |]; unfold keys;
      rewrite ?length_zip_with; lia.
Qed.

(** ** What a backend promises

    Every descriptor gets a status: without a limit the fixed one, otherwise the
    limit it was judged by, and no remaining quota when it is over. *)

Definition no_limit_status : DescriptorStatus := mkStatus Code_OK None 0 None.

Definition status_for (h : list RateLimit) (o : option loc) (s : DescriptorStatus) : Prop :=
  match o with
  | None => s = no_limit_status
  | Some l => ∃ rl, h !! l = Some rl ∧ st_CurrentLimit s = Some (rl_Limit rl) ∧
      is_u32 (st_LimitRemaining s) ∧
      (st_Code s = Code_OK ∨ st_Code s = Code_OVER_LIMIT ∧ st_LimitRemaining s = 0)
  end.

Definition redis_panic (p : panic) : Prop := ∃ msg, p = PRedisError msg.

(** [ok] are the backends whose own configuration is sound. *)
Class CacheLaws (E C : Type) `{RateLimitCache E C} (ok : C → Prop) : Prop :=
  cache_law c req limits (w : World E) :
    ok c → length (rq_Descriptors req) = length limits → Forall (good_limit (w_heap w)) limits →
    wp redis_panic (cache_DoLimit c req limits) w (λ ss w',
      w_heap w' = w_heap w ∧ Forall2 (status_for (w_heap w)) limits ss).

Lemma status_of_for h l rl cached after reset :
  h !! l = Some rl → status_for h (Some l) (status_of rl cached after reset).
Proof.
  intros Hl. exists rl. unfold status_of; simpl. split_and!; [done..| |].
  - destruct (over_limit rl cached after); [by split|apply u32_range].
  - destruct (over_limit rl cached after), (rl_ShadowMode rl); simpl; auto.
Qed.

(** ** On a concrete limit: 10 per minute, with a clock and no local cache *)

#[local] Instance clock_only : TimeSource Z := λ t, (t, t).
#[local] Instance no_cache : FreeCache Z :=
  {| fc_Get _ t := (false, t); fc_Set _ _ t := (false, t) |}.

Definition example_rl : RateLimit :=
  let c name := mkCounter (mkScope ["ratelimit"] []) name in
  mkRateLimit "d.k"
    (mkStats "d.k" (c "total") (c "over") (c "near") (c "local") (c "within") (c "shadow"))
    (mkPbRateLimit 10 MINUTE "") false false "" [] false.

Definition example_base : BaseRateLimiter := NewBaseRateLimit 0 false ratio_default "".

(** Seven hits are in, five more arrive: two of them are near the limit, two
    over it. *)
Lemma GetResponseDescriptorStatus_verdict_witness :
  ∃ status w',
    GetResponseDescriptorStatus example_base "d_k_v_60" (NewRateLimitInfo (Some 0%nat) 7 12 0 0)
      false 5 (mkWorld [example_rl] ∅ 90) = (Ret status, w') ∧
    st_Code status = Code_OVER_LIMIT ∧ st_DurationUntilReset status = Some 30 ∧
    u64 (ctr_value (w_counters w') (s_OverLimit (rl_Stats example_rl))) = 2 ∧
    u64 (ctr_value (w_counters w') (s_NearLimit (rl_Stats example_rl))) = 2.
Proof.
  destruct (GetResponseDescriptorStatus_verdict example_base "d_k_v_60" false 7 5
    (mkWorld [example_rl] ∅ 90) 0%nat example_rl 60) as (status&w'&reset&Hrun&Hcode&_&_&Hreset&_&Hend&_&Hc);
    try done.
  exists status, w'. split_and!; [done| | | |].
  - apply Hcode. split; [right; done|done].
  - rewrite Hreset. f_equal. vm_compute in Hend. apply (Z.add_cancel_l _ _ 90). exact Hend.
  - rewrite Hc. by vm_compute.
  - rewrite Hc. by vm_compute.
Defined.

Lemma GenerateCacheKey_window_witness :
  let w := mkWorld [example_rl] ∅ (0 : Z) in
  let desc := mkDescriptor [mkEntry "k" "v"] None in
  GenerateCacheKey "" "d" desc (Some 0%nat) 61 w = GenerateCacheKey "" "d" desc (Some 0%nat) 119 w.
Proof.
  intros w desc.
  destruct (GenerateCacheKey_window "" "d" desc 0%nat w example_rl 60 61 119)
    as (k&k'&Hk&Hk'&_&_&Heq); [done|done|lia|lia|].
  etransitivity; [exact Hk|]. rewrite (proj2 Heq eq_refl). symmetry. exact Hk'.
Defined.
