(* ===== verification/CacheKeyPool.v ===== *)
(** * The buffers of the key generator ([src/limiter/cache_key.go])

    [GenerateCacheKey] builds a key in a buffer from a [sync.Pool], which all
    requests share: it takes one, resets it, writes, copies the string out and
    puts the buffer back, also when it panics.  Here calls run concurrently, one
    write at a time, over the shared pool, which may hand out any buffer that was
    put back, make a new one, or drop some.  Every call yields what
    [GenerateCacheKey] of [Limiter], a function of its arguments, yields. *)

From S2P Require Import Prelude GoStrings World Utils Stats Config Limiter LimiterSpec.
From stdpp Require Import relations.

#[local] Open Scope Z_scope.

(** ** The code between [Get] and [Put] *)

(** A call; [kc_unit] is the unit of the limit, nothing for a nil limit. *)
Record key_call : Set := mkKeyCall {
  kc_domain : string;
  kc_descriptor : Descriptor;
  kc_unit : option Z;
  kc_now : Z;
}.

Inductive buf_op : Set :=
  | Reset
  | WriteString (s : string)
  | WriteWindow (unit now : Z).

(** What an operation leaves in the buffer; nothing when [UnitToDivider] panics. *)
Definition buf_write (op : buf_op) (content : string) : option string :=
  match op with
  | Reset => Some ""
  | WriteString s => Some (content +:+ s)
  | WriteWindow unit now =>
      divider ← unit_seconds unit;
      Some (content +:+ FormatInt (Z.quot now divider * divider))
  end.

Definition entry_ops (e : Entry) : list buf_op :=
  [WriteString (e_Key e); WriteString "_"; WriteString (e_Value e); WriteString "_"].

Definition key_body (prefix : string) (c : key_call) (unit : Z) : list buf_op :=
  [Reset; WriteString prefix; WriteString (kc_domain c); WriteString "_"] ++
  concat (entry_ops <$> d_Entries (kc_descriptor c)) ++ [WriteWindow unit (kc_now c)].

Fixpoint buf_run (ops : list buf_op) (content : string) : option string :=
  match ops with
  | [] => Some content
  | op :: ops => content ← buf_write op content; buf_run ops content
  end.

(** ** The calls and the pool *)

Inductive key_phase : Set :=
  | KCalled
  | KWriting (b : nat) (unit : Z) (todo : list buf_op)
  | KPutting (b : nat) (r : option CacheKey)      (** the deferred [Put] *)
  | KFinished (r : option CacheKey).              (** nothing: it panicked *)

(** The buffers ever made, the ones in the pool, and the calls. *)
Record key_system : Type := mkKeySystem {
  ks_buffers : list string;
  ks_pool : list nat;
  ks_calls : list (key_call * key_phase);
}.

Definition NewCacheKeyGenerator : key_system := mkKeySystem [] [] [].

Section pool.
Context (prefix : string).
Implicit Types (sys : key_system) (c : key_call).

Definition at_phase (t : nat) c (ph : key_phase) sys : list (key_call * key_phase) := <[t := (c, ph)]> (ks_calls sys).

Inductive key_step : key_system → key_system → Prop :=
  | ks_call sys c : key_step sys (mkKeySystem (ks_buffers sys) (ks_pool sys) (ks_calls sys ++ [(c, KCalled)]))
  | ks_nil sys t c :
      ks_calls sys !! t = Some (c, KCalled) → kc_unit c = None →
      key_step sys (mkKeySystem (ks_buffers sys) (ks_pool sys) (at_phase t c (KFinished (Some (mkCacheKey "" false))) sys))
  | ks_get sys t c unit b before after :
      ks_calls sys !! t = Some (c, KCalled) → kc_unit c = Some unit → ks_pool sys = before ++ b :: after →
      key_step sys (mkKeySystem (ks_buffers sys) (before ++ after)
                      (at_phase t c (KWriting b unit (key_body prefix c unit)) sys))
  | ks_new sys t c unit :
      ks_calls sys !! t = Some (c, KCalled) → kc_unit c = Some unit →
      key_step sys (mkKeySystem (ks_buffers sys ++ [""]) (ks_pool sys)
                      (at_phase t c (KWriting (length (ks_buffers sys)) unit (key_body prefix c unit)) sys))
  | ks_write sys t c b unit op todo content content' :
      ks_calls sys !! t = Some (c, KWriting b unit (op :: todo)) →
      ks_buffers sys !! b = Some content → buf_write op content = Some content' →
      key_step sys (mkKeySystem (<[b := content']> (ks_buffers sys)) (ks_pool sys)
                      (at_phase t c (KWriting b unit todo) sys))
  | ks_panic sys t c b unit op todo content :
      ks_calls sys !! t = Some (c, KWriting b unit (op :: todo)) →
      ks_buffers sys !! b = Some content → buf_write op content = None →
      key_step sys (mkKeySystem (ks_buffers sys) (ks_pool sys) (at_phase t c (KPutting b None) sys))
  | ks_return sys t c b unit content :
      ks_calls sys !! t = Some (c, KWriting b unit []) → ks_buffers sys !! b = Some content →
      key_step sys (mkKeySystem (ks_buffers sys) (ks_pool sys)
                      (at_phase t c (KPutting b (Some (mkCacheKey content (isPerSecondLimit unit)))) sys))
  | ks_put sys t c b r :
      ks_calls sys !! t = Some (c, KPutting b r) →
      key_step sys (mkKeySystem (ks_buffers sys) (b :: ks_pool sys) (at_phase t c (KFinished r) sys))
  | ks_drop sys b before after :
      ks_pool sys = before ++ b :: after →
      key_step sys (mkKeySystem (ks_buffers sys) (before ++ after) (ks_calls sys)).

(** ** The reference *)

Definition key_of c : option CacheKey :=
  match kc_unit c with
  | None => Some (mkCacheKey "" false)
  | Some unit =>
      d ← unit_seconds unit;
      Some (mkCacheKey (key_stem prefix (kc_domain c) (d_Entries (kc_descriptor c)) +:+
                        FormatInt (window_start (kc_now c) d)) (isPerSecondLimit unit))
  end.

(** [limit] is the limit of the call. *)
Definition call_limit {E} (w : World E) c (limit : option loc) : Prop :=
  match limit with
  | None => kc_unit c = None
  | Some l => ∃ rl, w_heap w !! l = Some rl ∧ kc_unit c = Some (pl_Unit (rl_Limit rl))
  end.

Lemma key_of_GenerateCacheKey {E} (w : World E) c limit :
  call_limit w c limit →
  GenerateCacheKey prefix (kc_domain c) (kc_descriptor c) limit (kc_now c) w =
    (match key_of c with Some key => Ret key | None => Panic (PString "should not get here") end, w).
Proof.
  unfold call_limit, key_of. destruct limit as [l|]; [|by intros ->]. intros (rl&Hl&->).
  unfold GenerateCacheKey, load, mbind, M_bind. rewrite Hl, UnitToDivider_eq. by destruct (unit_seconds _).
Qed.

Lemma buf_run_app ops1 ops2 s : buf_run (ops1 ++ ops2) s = (buf_run ops1 s ≫= buf_run ops2).
Proof. revert s. induction ops1 as [|op ops1 IH]; intros s; [done|]. simpl. by destruct (buf_write op s); simpl. Qed.

Lemma entry_ops_run es s :
  buf_run (concat (entry_ops <$> es)) s =
    Some (s +:+ foldr (λ e s, e_Key e +:+ "_" +:+ e_Value e +:+ "_" +:+ s) "" es).
Proof.
  revert s. induction es as [|e es IH]; intros s; simpl; [by rewrite str_app_nil_r|].
  rewrite IH. by rewrite !str_app_assoc.
Qed.

(** Whatever the buffer contained. *)
Lemma key_body_run c unit s :
  buf_run (key_body prefix c unit) s =
    (d ← unit_seconds unit;
     Some (key_stem prefix (kc_domain c) (d_Entries (kc_descriptor c)) +:+ FormatInt (window_start (kc_now c) d))).
Proof.
  unfold key_body. rewrite !buf_run_app. simpl. rewrite buf_run_app, entry_ops_run. simpl.
  destruct (unit_seconds unit); [|done]. simpl. unfold key_stem, window_start. by rewrite !str_app_assoc.
Qed.

(** ** The invariant: a buffer has one user *)

Definition holder (ph : key_phase) : option nat :=
  match ph with KWriting b _ _ | KPutting b _ => Some b | _ => None end.

(** What the call will yield, or has yielded, is its key. *)
Definition on_course (buffers : list string) c (ph : key_phase) : Prop :=
  match ph with
  | KCalled => True
  | KWriting b unit todo => ∃ content, buffers !! b = Some content ∧
      (s ← buf_run todo content; Some (mkCacheKey s (isPerSecondLimit unit))) = key_of c
  | KPutting _ r | KFinished r => r = key_of c
  end.

Record pool_good sys : Prop := mkPoolGood {
  pg_nodup : NoDup (ks_pool sys);
  pg_bound : ∀ b, b ∈ ks_pool sys → (b < length (ks_buffers sys))%nat;
  pg_held : ∀ t c ph b, ks_calls sys !! t = Some (c, ph) → holder ph = Some b →
    (b ∉ ks_pool sys) ∧ (b < length (ks_buffers sys))%nat;
  pg_one : ∀ t t' c c' ph ph' b, ks_calls sys !! t = Some (c, ph) → ks_calls sys !! t' = Some (c', ph') →
    holder ph = Some b → holder ph' = Some b → t = t';
  pg_course : ∀ t c ph, ks_calls sys !! t = Some (c, ph) → on_course (ks_buffers sys) c ph;
}.

(** A call goes from phase [ph] to [ph'], touching no buffer but its own. *)
Lemma call_moves sys t c ph ph' buffers pool :
  pool_good sys → ks_calls sys !! t = Some (c, ph) → NoDup pool →
  (length (ks_buffers sys) ≤ length buffers)%nat →
  (∀ b, b ∈ pool → b ∈ ks_pool sys ∨ holder ph = Some b) →
  (∀ b, holder ph' = Some b → (b ∉ pool) ∧ (b < length buffers)%nat ∧
     (holder ph = Some b ∨ b ∈ ks_pool sys ∨ length (ks_buffers sys) ≤ b)%nat) →
  (∀ b, holder ph ≠ Some b → (b < length (ks_buffers sys))%nat → buffers !! b = ks_buffers sys !! b) →
  on_course buffers c ph' →
  pool_good (mkKeySystem buffers pool (at_phase t c ph' sys)).
Proof.
  intros [Hnd Hb Hh Ho Hc] Ht Hnd' Hlen Hpool Hnew Hsame Hcourse. unfold at_phase.
  assert (∀ t' c' ph' b, ks_calls sys !! t' = Some (c', ph') → t ≠ t' → holder ph' = Some b →
    holder ph ≠ Some b ∧ (b ∉ ks_pool sys) ∧ (b < length (ks_buffers sys))%nat) as Hother.
  { intros t' c' ph2 b Ht' Hne Hp. destruct (Hh _ _ _ _ Ht' Hp). split; [|done]. intros Hp'. by destruct Hne; eauto. }
  split; cbn [ks_pool ks_buffers ks_calls].
  - done.
  - intros b [Hin|Hin]%Hpool; [specialize (Hb b Hin); lia|]. destruct (Hh _ _ _ _ Ht Hin). lia.
  - intros t' c' ph2 b [(<-&[= <- <-]&_)|(Hne&Ht')]%list_lookup_insert_Some Hp; [by destruct (Hnew b Hp) as (?&?&_)|].
    destruct (Hother _ _ _ _ Ht' Hne Hp) as (?&?&?). split; [|lia]. intros [Hin|Hin]%Hpool; done.
  - intros t1 t2 c1 c2 ph1 ph2 b [(<-&[= <- <-]&_)|(Hne1&H1)]%list_lookup_insert_Some
      [(<-&[= <- <-]&_)|(Hne2&H2)]%list_lookup_insert_Some Hp1 Hp2; [done| | |by eauto].
    + destruct (Hother _ _ _ _ H2 Hne2 Hp2) as (?&?&?), (Hnew b Hp1) as (_&_&[?|[?|?]]); [done|done|lia].
    + destruct (Hother _ _ _ _ H1 Hne1 Hp1) as (?&?&?), (Hnew b Hp2) as (_&_&[?|[?|?]]); [done|done|lia].
  - intros t' c' ph2 [(<-&[= <- <-]&_)|(Hne&Ht')]%list_lookup_insert_Some; [done|].
    specialize (Hc _ _ _ Ht'). destruct ph2 as [|b unit todo| |]; [done| |done|done].
    destruct (Hother _ _ _ b Ht' Hne eq_refl) as (?&?&?). unfold on_course. by rewrite Hsame.
Qed.

Lemma taken_from before after (b : nat) :
  NoDup (before ++ b :: after) → NoDup (before ++ after) ∧ b ∉ before ++ after.
Proof. intros Hnd. rewrite <-Permutation_middle in Hnd. apply NoDup_cons in Hnd as [? ?]. done. Qed.

Lemma arrive_pool_good sys c :
  pool_good sys → pool_good (mkKeySystem (ks_buffers sys) (ks_pool sys) (ks_calls sys ++ [(c, KCalled)])).
Proof.
  intros [Hnd Hb Hh Ho Hc].
  assert (∀ t c' ph, (ks_calls sys ++ [(c, KCalled)]) !! t = Some (c', ph) →
    ks_calls sys !! t = Some (c', ph) ∨ ph = KCalled) as Hold.
  { intros t c' ph [?|[_ Hl]]%lookup_app_Some; [by left|]. right. by apply list_lookup_singleton_Some in Hl as [_ [= _ <-]]. }
  split; cbn [ks_pool ks_buffers ks_calls]; [done|done| | |].
  - intros t c' ph b [Ht| ->]%Hold Hp; [by eauto|done].
  - intros t1 t2 c1 c2 ph1 ph2 b [H1| ->]%Hold [H2| ->]%Hold Hp1 Hp2; try done. by eauto.
  - intros t c' ph [Ht| ->]%Hold; [by eauto|done].
Qed.

Lemma drop_good sys b before after :
  pool_good sys → ks_pool sys = before ++ b :: after →
  pool_good (mkKeySystem (ks_buffers sys) (before ++ after) (ks_calls sys)).
Proof.
  intros [Hnd Hb Hh Ho Hc] Hp. rewrite Hp in Hnd. apply taken_from in Hnd as [Hnd _].
  split; cbn [ks_pool ks_buffers ks_calls]; [done| | |done|done].
  - intros b' Hin. apply Hb. rewrite Hp. set_solver.
  - intros t c ph b' Ht Hh'. destruct (Hh t c ph b' Ht Hh') as [Hn ?]. split; [|done]. rewrite Hp in Hn. set_solver.
Qed.

(** A buffer fresh from the pool, or new, will hold the key. *)
Lemma body_course buffers c unit b :
  kc_unit c = Some unit → is_Some (buffers !! b) → on_course buffers c (KWriting b unit (key_body prefix c unit)).
Proof.
  intros Hu [content Hb]. exists content. split; [done|]. rewrite key_body_run. unfold key_of. rewrite Hu.
  by destruct (unit_seconds unit).
Qed.

Lemma get_good sys t c unit b before after :
  pool_good sys → ks_calls sys !! t = Some (c, KCalled) → kc_unit c = Some unit → ks_pool sys = before ++ b :: after →
  pool_good (mkKeySystem (ks_buffers sys) (before ++ after) (at_phase t c (KWriting b unit (key_body prefix c unit)) sys)).
Proof.
  intros Hg Ht Hu Hp. pose proof (pg_nodup _ Hg) as Hnd. rewrite Hp in Hnd. apply taken_from in Hnd as [Hnd Hb].
  assert (b ∈ ks_pool sys) as Hin by (rewrite Hp; set_solver). pose proof (pg_bound _ Hg b Hin) as Hlt.
  eapply call_moves; [done|exact Ht|done|done| | |done|by apply body_course, lookup_lt_is_Some_2].
  - intros b' Hb'. left. rewrite Hp. set_solver.
  - intros b' [= <-]. by auto.
Qed.

Lemma new_good sys t c unit :
  pool_good sys → ks_calls sys !! t = Some (c, KCalled) → kc_unit c = Some unit →
  pool_good (mkKeySystem (ks_buffers sys ++ [""]) (ks_pool sys)
    (at_phase t c (KWriting (length (ks_buffers sys)) unit (key_body prefix c unit)) sys)).
Proof.
  intros Hg Ht Hu. eapply call_moves; [done|exact Ht|apply Hg|rewrite length_app; lia|by left| | |].
  - intros b' [= <-]. split; [intros Hin%(pg_bound _ Hg); lia|]. rewrite length_app. simpl. split; [lia|auto].
  - intros b' _ Hlt. by rewrite lookup_app_l.
  - apply body_course; [done|]. rewrite lookup_app_r, Nat.sub_diag by lia. by eexists.
Qed.

(** The call that holds a buffer goes on, perhaps writing to it. *)
Lemma holding_good sys t c b unit todo content content' ph' :
  pool_good sys → ks_calls sys !! t = Some (c, KWriting b unit todo) → ks_buffers sys !! b = Some content →
  holder ph' = Some b →
  ((s ← buf_run todo content; Some (mkCacheKey s (isPerSecondLimit unit))) = key_of c →
   on_course (<[b := content']> (ks_buffers sys)) c ph') →
  pool_good (mkKeySystem (<[b := content']> (ks_buffers sys)) (ks_pool sys) (at_phase t c ph' sys)).
Proof.
  intros Hg Ht Hb Hh Hc. destruct (pg_held _ Hg _ _ _ b Ht eq_refl) as [Hnin Hlt].
  eapply call_moves; [done|exact Ht|apply Hg|by rewrite length_insert|by left| | |].
  - intros b' Hb'. rewrite Hh in Hb'. injection Hb' as <-. rewrite length_insert. auto.
  - intros b' Hne _. rewrite list_lookup_insert_ne; [done|]. intros ->. by destruct Hne.
  - apply Hc. destruct (pg_course _ Hg _ _ _ Ht) as (s&Hs&Hk). rewrite Hb in Hs. by injection Hs as <-.
Qed.

Lemma key_step_good sys sys' : pool_good sys → key_step sys sys' → pool_good sys'.
Proof.
  intros Hg Hs. destruct Hs as [sys c|sys t c Ht Hu|sys t c unit b before after Ht Hu Hp|sys t c unit Ht Hu
    |sys t c b unit op todo content content' Ht Hb Hw|sys t c b unit op todo content Ht Hb Hw
    |sys t c b unit content Ht Hb|sys t c b r Ht|sys b before after Hp];
    [by apply arrive_pool_good| |by apply get_good|by apply new_good| | | | |by eapply drop_good].
  - eapply call_moves; [done|exact Ht|apply Hg|done|by left|done|done|]. unfold on_course, key_of. by rewrite Hu.
  - eapply holding_good; [done|done|done|done|]. intros Hk. exists content'. split.
    + eapply list_lookup_insert_eq, lookup_lt_Some, Hb.
    + rewrite <-Hk. simpl. by rewrite Hw.
  - rewrite <-(list_insert_id (ks_buffers sys) b content Hb).
    eapply holding_good; [done|done|done|done|]. simpl. by rewrite Hw.
  - rewrite <-(list_insert_id (ks_buffers sys) b content Hb). by eapply holding_good.
  - destruct (pg_held _ Hg _ _ _ b Ht eq_refl) as [Hnin Hlt].
    eapply call_moves; [done|exact Ht| |done| |done|done|exact (pg_course _ Hg _ _ _ Ht)].
    + apply NoDup_cons. split; [done|apply Hg].
    + intros b' [->|?]%elem_of_cons; auto.
Qed.

Lemma key_steps_good sys : rtc key_step NewCacheKeyGenerator sys → pool_good sys.
Proof.
  assert (pool_good NewCacheKeyGenerator) as H0.
  { split; cbn; [apply NoDup_nil_2|by intros b ?%elem_of_nil|intros t ????|intros t ??????|intros t ??];
      by rewrite ?lookup_nil. }
  revert H0. generalize NewCacheKeyGenerator. intros sys0 H0 Hr. revert H0.
  induction Hr as [|? ? ? Hs _ IH]; eauto using key_step_good.
Qed.

(** A call that is not finished can always go on. *)
Lemma key_progress sys t c ph :
  pool_good sys → ks_calls sys !! t = Some (c, ph) → match ph with KFinished _ => False | _ => True end →
  ∃ ph' buffers pool, key_step sys (mkKeySystem buffers pool (at_phase t c ph' sys)) ∧ ph' ≠ ph.
Proof.
  intros Hg Ht Hph. destruct ph as [|b unit [|op todo]|b r|r]; [| | | |done].
  - destruct (kc_unit c) as [unit|] eqn:Hu; eexists _, _, _; (split; [by econstructor|done]).
  - destruct (pg_course _ Hg _ _ _ Ht) as (content&Hb&_). eexists _, _, _. split; [by eapply ks_return|done].
  - destruct (pg_course _ Hg _ _ _ Ht) as (content&Hb&_).
    destruct (buf_write op content) as [content'|] eqn:Hw; eexists _, _, _.
    + split; [by eapply ks_write|]. intros [= Heq]. by apply (f_equal length) in Heq; simpl in Heq; lia.
    + split; [by eapply ks_panic|done].
  - eexists _, _, _. split; [by eapply ks_put|done].
Qed.
End pool.

(** C19: the pooled buffers are invisible.  However the calls of concurrent
    requests interleave, whatever buffers the pool hands out and whatever they
    contain, a finished call has returned the key [GenerateCacheKey] computes from
    its arguments alone, or panicked exactly when it does; and a call that is not
    finished can always go on. *)
Theorem pooled_keys_exact {E} prefix sys t c ph (w : World E) limit :
  rtc (key_step prefix) NewCacheKeyGenerator sys → ks_calls sys !! t = Some (c, ph) → call_limit w c limit →
  match ph with
  | KFinished r =>
      GenerateCacheKey prefix (kc_domain c) (kc_descriptor c) limit (kc_now c) w =
        (match r with Some key => Ret key | None => Panic (PString "should not get here") end, w)
  | _ => ∃ ph' buffers pool, key_step prefix sys (mkKeySystem buffers pool (at_phase t c ph' sys)) ∧ ph' ≠ ph
  end.
Proof.
  intros Hg%key_steps_good Ht Hl. destruct ph as [|b unit todo|b r|r]; [by eapply key_progress..|].
  rewrite (key_of_GenerateCacheKey prefix w c limit Hl), (pg_course _ _ Hg _ _ _ Ht). by destruct (key_of prefix c).
Qed.

(** ** Two calls, the second with the buffer of the first *)

Lemma call_runs prefix c t b unit todo : ∀ (buffers : list string) pool calls content s,
  calls !! t = Some (c, KWriting b unit todo) → buffers !! b = Some content → buf_run todo content = Some s →
  rtc (key_step prefix) (mkKeySystem buffers pool calls)
    (mkKeySystem (<[b := s]> buffers) (b :: pool)
       (<[t := (c, KFinished (Some (mkCacheKey s (isPerSecondLimit unit))))]> calls)).
Proof.
  induction todo as [|op todo IH]; intros buffers pool calls content s Ht Hb Hrun; simpl in Hrun.
  - injection Hrun as ->. rewrite (list_insert_id buffers b s Hb).
    eapply rtc_l; [by apply (ks_return prefix (mkKeySystem buffers pool calls) t c b unit s)|].
    eapply rtc_l; [eapply (ks_put prefix _ t); by apply list_lookup_insert_eq, (lookup_lt_Some calls t _ Ht)|].
    unfold at_phase. cbn. rewrite list_insert_insert_eq. apply rtc_refl.
  - destruct (buf_write op content) as [content'|] eqn:Hw; [|done]. simpl in Hrun.
    eapply rtc_l; [by eapply (ks_write prefix (mkKeySystem buffers pool calls) t c b unit op todo content content')|].
    unfold at_phase. cbn.
    pose proof (IH (<[b := content']> buffers) pool (<[t := (c, KWriting b unit todo)]> calls) content' s) as Hrest.
    rewrite !list_insert_insert_eq in Hrest. apply Hrest; [|  |done]; apply list_lookup_insert_eq;
      by eapply lookup_lt_Some.
Qed.

Definition call_a : key_call := mkKeyCall "domain" (mkDescriptor [mkEntry "path" "/long/path"] None) (Some MINUTE) 7300.
Definition call_b : key_call := mkKeyCall "d" (mkDescriptor [] None) (Some MINUTE) 7301.

Definition key_a : string := "p:domain_path_/long/path_7260".
Definition key_b : string := "p:d_7260".

(** One buffer was made; the second call was given it with the first key in it. *)
Definition two_calls : key_system :=
  mkKeySystem [key_b] [0%nat]
    [(call_a, KFinished (Some (mkCacheKey key_a false))); (call_b, KFinished (Some (mkCacheKey key_b false)))].

Lemma two_calls_steps : rtc (key_step "p:") NewCacheKeyGenerator two_calls.
Proof.
  eapply rtc_l; [apply (ks_call _ _ call_a)|].
  eapply rtc_l; [by apply (ks_new _ _ 0 call_a MINUTE)|].
  etransitivity; [by apply (call_runs "p:" call_a 0 0 MINUTE (key_body "p:" call_a MINUTE) _ _ _ "" key_a)|].
  eapply rtc_l; [apply (ks_call _ _ call_b)|].
  eapply rtc_l; [by apply (ks_get _ _ 1 call_b MINUTE 0 [] [])|].
  etransitivity; [by apply (call_runs "p:" call_b 1 0 MINUTE (key_body "p:" call_b MINUTE) _ _ _ key_a key_b)|].
  match goal with |- rtc _ ?x ?y => replace x with y by (by vm_compute) end. reflexivity.
Qed.

Lemma pooled_keys_exact_witness :
  let w := mkWorld [example_rl] ∅ () in
  rtc (key_step "p:") NewCacheKeyGenerator two_calls ∧
  GenerateCacheKey "p:" "d" (mkDescriptor [] None) (Some 0%nat) 7301 w = (Ret (mkCacheKey key_b false), w).
Proof.
  intros w. split; [apply two_calls_steps|].
  apply (pooled_keys_exact "p:" two_calls 1 call_b (KFinished (Some (mkCacheKey key_b false))) w (Some 0%nat)).
  - apply two_calls_steps.
  - reflexivity.
  - by exists example_rl.
Defined.
