(* ===== verification/CountSpec.v ===== *)
(** * Counting in windows, whatever counts

    What the limiters assume of the outside world and what they promise,
    independent of the store: an abstract view of the stored counts with their
    deadlines and of the local cache ([CountView]), the documented behaviour of
    the clock, the random source and the local cache ([EnvLaws]), and the
    abstract specification of a fixed window: the hits attempted on a key add up
    to a number [S], and a descriptor is over its limit exactly when [S], its
    own hits included, exceeds the limit ([tracked], [window_answers]). *)

From S2P Require Import Prelude GoStrings World Utils Limiter LimiterSpec.

#[local] Open Scope Z_scope.

(** ** The view *)

Class CountView (E : Type) : Type := {
  time : E → Z;
  entry : nat → string → E → option (Z * option Z);
  held : string → E → Prop;
}.

(** A stored count is live until its deadline. *)
Definition live (t : Z) (o : option (Z * option Z)) : bool :=
  match o with
  | None => false
  | Some (_, None) => true
  | Some (_, Some dl) => t <? dl
  end.

Definition count_at (t : Z) (o : option (Z * option Z)) : Z :=
  if live t o then default 0 (fst <$> o) else 0.

Section view.
Context {E : Type} `{CountView E}.

(** Time passes, the local cache may evict, nothing else happens. *)
Definition undisturbed (e e' : E) : Prop :=
  time e <= time e' ∧ (∀ c k, entry c k e' = entry c k e) ∧ (∀ k, held k e' → held k e).

#[export] Instance undisturbed_preorder : PreOrder undisturbed.
Proof.
  split.
  - intros e. by repeat split.
  - intros e1 e2 e3 (?&H12&Hh12) (?&H23&Hh23). repeat split; [lia| |auto].
    intros c k. by rewrite H23, H12.
Qed.

End view.

(** Documented behaviour: the clock is read, not set; [Int63n] is in range; the
    local cache finds only what was stored. *)
Class EnvLaws (E : Type) `{TimeSource E, FreeCache E, JitterRand E, CountView E} : Prop := {
  law_now e t e' : unix_now e = (t, e') → undisturbed e e' ∧ time e <= t <= time e';
  law_rand m e r e' : int63n m e = (r, e') → undisturbed e e' ∧ (0 < m → 0 <= r < m);
  law_get k e b e' : fc_Get k e = (b, e') → undisturbed e e' ∧ (b = true → held k e);
  law_set k d e b e' : fc_Set k d e = (b, e') →
    time e <= time e' ∧ (∀ c k', entry c k' e' = entry c k' e) ∧
    (∀ k', held k' e' → k' = k ∨ held k' e);
}.

(** ** Counts that can be relied on

    [holds c k n T e]: the count of [k] is [n] at any time before [T]. *)

Section holds.
Context {E : Type} `{CountView E}.

Definition holds (c : nat) (k : string) (n T : Z) (e : E) : Prop :=
  match entry c k e with
  | None => n = 0
  | Some (v, dl) => v = n ∧ match dl with None => True | Some dl => T <= dl end
  end.

Lemma holds_count c k n T e t : holds c k n T e → t < T → count_at t (entry c k e) = n.
Proof.
  unfold holds, count_at, live. destruct (entry c k e) as [[v [dl|]]|]; simpl.
  - intros [-> ?] ?. by replace (t <? dl) with true by lia.
  - by intros [-> _].
  - done.
Qed.

Lemma holds_undisturbed c k n T e e' : undisturbed e e' → holds c k n T e → holds c k n T e'.
Proof. intros (_&He&_). unfold holds. by rewrite He. Qed.

(** ** The abstract window

    [S] hits were attempted in the window that ends at [T].  The store counts
    them all until the limit [N] is passed; then some may have been answered
    from the local cache, which holds the key only when the limit is passed. *)
Definition tracked (c : nat) (k : string) (N T S : Z) (e : E) : Prop :=
  ∃ n, holds c k n T e ∧ 0 <= n <= S ∧ (n = S ∨ N < n) ∧ (held k e → N < n).

Lemma tracked_fresh c k N T (e : E) :
  entry c k e = None → ¬ held k e → tracked c k N T 0 e.
Proof. intros He Hh. exists 0. unfold holds. rewrite He. split_and!; auto with lia. done. Qed.

Lemma tracked_undisturbed c k N T S (e e' : E) :
  undisturbed e e' → tracked c k N T S e → tracked c k N T S e'.
Proof.
  intros Hu (n&Hn&?&?&Hh). exists n. split; [by eapply holds_undisturbed|]. split_and!; [lia..|done|].
  intros Hk. apply Hh, Hu, Hk.
Qed.

End holds.

Section env.
Context {E : Type} `{EnvLaws E}.
#[local] Abbreviation W := (World E).
Implicit Types w : W.

(** Only the outside state moved, and undisturbed. *)
Definition quiet w w' : Prop :=
  w_heap w' = w_heap w ∧ w_counters w' = w_counters w ∧ undisturbed (w_ext w) (w_ext w').

#[export] Instance quiet_preorder : PreOrder quiet.
Proof.
  split.
  - intros w. by repeat split.
  - intros w1 w2 w3 (?&?&?) (?&?&?). split_and!; [congruence..|]. by etransitivity.
Qed.

(** ** The local cache *)

Lemma IsOverLimitWithLocalCache_ok Err this key w :
  wp Err (IsOverLimitWithLocalCache this key) w (λ b w',
    quiet w w' ∧ (b = true → held key (w_ext w))).
Proof.
  unfold IsOverLimitWithLocalCache. destruct (b_localCache this).
  - unfold wp, ext. destruct (fc_Get key (w_ext w)) as [b e] eqn:Hg.
    apply law_get in Hg as [Hu Hb]. by repeat split; try apply Hu.
  - by apply wp_ret.
Qed.

Lemma deref_ok (o : option loc) w rl :
  o ≫= (λ l, w_heap w !! l) = Some rl → deref o w = (Ret rl, w).
Proof.
  destruct o as [l|]; simpl; [|done]. intros Hl. unfold deref.
  erewrite bind_Ret by reflexivity. by apply load_Some.
Qed.

(** The descriptors of a request with their limits; a key is empty exactly
    when there is no limit. *)
Definition keyed (h : list RateLimit) (keys : list CacheKey) (limits : list (option loc)) : Prop :=
  length keys = length limits ∧
  ∀ i key, keys !! i = Some key → ck_Key key ≠ "" →
    ∃ o rl d, limits !! i = Some o ∧ o ≫= (λ l, h !! l) = Some rl ∧
      unit_seconds (pl_Unit (rl_Limit rl)) = Some d.

(** The flags of the local cache are those of held keys. *)
Definition flags_held (keys : list CacheKey) (cached : list bool) (e : E) : Prop :=
  length cached = length keys ∧
  ∀ i key, keys !! i = Some key → cached !! i = Some true →
    ck_Key key ≠ "" ∧ held (ck_Key key) e.

Lemma flags_held_insert keys cached (e : E) i key :
  flags_held keys cached e → keys !! i = Some key → ck_Key key ≠ "" → held (ck_Key key) e →
  flags_held keys (<[i := true]> cached) e.
Proof.
  intros [Hl Hf] Hi Hk Hh. split; [by rewrite length_insert|]. intros j key' Hj.
  destruct (decide (i = j)) as [<-|]; [by simplify_eq|].
  rewrite list_lookup_insert_ne by done. by apply Hf.
Qed.

Lemma ext_after_ok this key rl cached after d (e : E) :
  let e' := ext_after this key rl cached after d e in
  time e <= time e' ∧ (∀ c k, entry c k e' = entry c k e) ∧
  (∀ k, held k e' → held k e ∨
     k = key ∧ cached = false ∧ after > pl_RequestsPerUnit (rl_Limit rl)).
Proof.
  unfold ext_after. destruct (unix_now e) as [t e1] eqn:Hn.
  apply law_now in Hn as [(Ht&He&Hh) _]. simpl.
  destruct (negb cached && _ && _) eqn:Hc; [|by split_and!; eauto].
  apply andb_true_iff in Hc as [[Hc Ha]%andb_true_iff _].
  apply negb_true_iff in Hc. apply bool_decide_eq_true in Ha.
  destruct (fc_Set key d e1) as [b e2] eqn:Hs. apply law_set in Hs as (Ht'&He'&Hh'). simpl.
  split_and!; [lia|intros; by rewrite He', He|]. intros k [->|?]%Hh'; eauto.
Qed.

(** ** The verdicts *)

(** The inputs of the verdict on descriptor [i]. *)
Definition judged_on (h : list RateLimit) (keys : list CacheKey) (limits : list (option loc)) (results : list Z)
    (cached : list bool) (i : nat) (key : CacheKey) (rl : RateLimit) (r : Z) (b : bool) : Prop :=
  keys !! i = Some key ∧ ck_Key key ≠ "" ∧
  (∃ l, limits !! i = Some (Some l) ∧ h !! l = Some rl) ∧
  results !! i = Some r ∧ cached !! i = Some b.

(** The local cache gained only keys found over their limit. *)
Definition held_over (h : list RateLimit) keys limits results cached (e e' : E) : Prop :=
  ∀ k, held k e' → held k e ∨ ∃ i key rl r, judged_on h keys limits results cached i key rl r false ∧
    ck_Key key = k ∧ r > pl_RequestsPerUnit (rl_Limit rl).

(** Status [s] answers descriptor [i]. *)
Definition answers (h : list RateLimit) keys limits results cached (i : nat) (s : DescriptorStatus) : Prop :=
  (∃ key, keys !! i = Some key ∧ ck_Key key = "" ∧ s = no_limit_status) ∨
  ∃ key rl r b reset, judged_on h keys limits results cached i key rl r b ∧
    s = status_of rl b r reset.

Definition answered (h : list RateLimit) keys limits results cached (ss : list DescriptorStatus) : Prop :=
  ∀ i s, ss !! i = Some s → answers h keys limits results cached i s.

Lemma answered_snoc h keys limits results cached ss s :
  answered h keys limits results cached ss →
  answers h keys limits results cached (length ss) s →
  answered h keys limits results cached (ss ++ [s]).
Proof.
  intros Hss Hs i s' [Hi|[Hi Hs']]%lookup_app_Some; [by apply Hss|].
  apply list_lookup_singleton_Some in Hs' as [Hi' <-]. by replace i with (length ss) by lia.
Qed.

(** What the verdicts leave of the state and what they answer. *)
Definition after_statuses w keys limits results cached (j : nat) (ss : list DescriptorStatus) w'
  : Prop :=
  w_heap w' = w_heap w ∧ time (w_ext w) <= time (w_ext w') ∧
  (∀ c k, entry c k (w_ext w') = entry c k (w_ext w)) ∧
  held_over (w_heap w) keys limits results cached (w_ext w) (w_ext w') ∧
  length ss = j ∧ answered (w_heap w) keys limits results cached ss.

Lemma after_statuses_nil w keys limits results cached :
  after_statuses w keys limits results cached 0 [] w.
Proof. split_and!; [done|lia|done| |done|done]. by left. Qed.

(** One round of the loop over the descriptors, of either limiter. *)
Lemma verdict_round Err this keys limits results cached hits before key o r b ss w w1 :
  keyed (w_heap w) keys limits →
  after_statuses w keys limits results cached (length ss) ss w1 →
  keys !! length ss = Some key → limits !! length ss = Some o →
  results !! length ss = Some r → cached !! length ss = Some b →
  wp Err (status ← GetResponseDescriptorStatus this (ck_Key key) (NewRateLimitInfo o before r 0 0)
                     b hits;
          mret (ss ++ [status])) w1
    (after_statuses w keys limits results cached (S (length ss))).
Proof.
  intros [Hlen Hkeyed] (Hheap&Ht&He&Hho&_&Hss) Hj Ho Hr Hb.
  destruct (decide (ck_Key key = "")) as [Hk|Hk].
  - eapply wp_bind_Ret; [unfold GetResponseDescriptorStatus; rewrite decide_True by done; reflexivity|].
    apply wp_ret. split_and!; try done; [rewrite length_app; simpl; lia|].
    apply answered_snoc; [done|]. left. eauto.
  - destruct (Hkeyed _ key Hj Hk) as (o'&rl&d&Ho'&Hrl&Hd). simplify_eq.
    destruct o as [l|]; simpl in Hrl; [|done].
    eapply wp_bind_Ret; [apply (GetResponseDescriptorStatus_run _ _ _ _ _ _ l rl d); simpl;
      rewrite ?Hheap; done|].
    assert (judged_on (w_heap w) keys limits results cached (length ss) key rl r b) as Hjudged.
    { split_and!; eauto. }
    simpl. destruct (ext_after_ok this (ck_Key key) rl b r d (w_ext w1)) as (Ht'&He'&Hh').
    apply wp_ret. split_and!; simpl; [done|lia|intros; by rewrite He', He| | |].
    + intros k [Hk'|(->&->&?)]%Hh'; [by apply Hho|]. right. eauto 10.
    + rewrite length_app; simpl; lia.
    + apply answered_snoc; [done|]. right. eauto 10.
Qed.

Lemma answered_status_for h keys limits results cached ss :
  keyed h keys limits → length ss = length keys →
  (∀ i o, limits !! i = Some o → ∃ key, keys !! i = Some key ∧ (ck_Key key = "" ↔ o = None)) →
  answered h keys limits results cached ss → Forall2 (status_for h) limits ss.
Proof.
  intros [Hlen _] Hl Hempty Hans. apply Forall2_same_length_lookup_2; [lia|].
  intros i o s Ho Hs. destruct (Hempty i o Ho) as (key&Hkey&Hiff).
  destruct (Hans i s Hs) as [(key'&?&Hk&->)|(key'&rl&r&b&reset&(?&Hk&(l&?&?)&_)&->)]; simplify_eq.
  - by rewrite (proj1 Hiff Hk).
  - by apply status_of_for.
Qed.

(** The cache keys of a request served from [w]. *)
Definition request_keys (base : BaseRateLimiter) (req : RateLimitRequest) (limits : list (option loc)) w
  : list CacheKey :=
  zip_with (cache_key_of (w_heap w) (b_cacheKeyPrefix base) (rq_Domain req)
              (unix_now (w_ext w)).1) (rq_Descriptors req) limits.

Lemma request_keyed base req limits w :
  length (rq_Descriptors req) = length limits → Forall (good_limit (w_heap w)) limits →
  keyed (w_heap w) (request_keys base req limits w) limits ∧
  length (request_keys base req limits w) = length (rq_Descriptors req).
Proof.
  intros Hlen Hgood. assert (length (request_keys base req limits w) = length (rq_Descriptors req))
    as Hl by (unfold request_keys; rewrite length_zip_with; lia).
  split; [|done]. split; [lia|]. intros i key Hi Hk.
  unfold request_keys in Hi. apply lookup_zip_with_Some in Hi as (desc&o&->&_&Ho).
  exists o. pose proof (Forall_lookup_1 _ _ _ _ Hgood Ho) as Hg.
  destruct o as [l|]; [|done]. destruct Hg as (rl&d&Hrl&Hd). eauto.
Qed.

Definition request_ok (req : RateLimitRequest) (limits : list (option loc)) w : Prop :=
  length (rq_Descriptors req) = length limits ∧ Forall (good_limit (w_heap w)) limits.

Lemma request_keys_empty base req limits w i o :
  request_ok req limits w → limits !! i = Some o →
  ∃ key, request_keys base req limits w !! i = Some key ∧ (ck_Key key = "" ↔ o = None).
Proof.
  intros [Hlen Hgood] Ho. destruct (lookup_lt_is_Some_2 (rq_Descriptors req) i) as [desc Hdesc];
    [apply lookup_lt_Some in Ho; lia|].
  eexists. split; [apply lookup_zip_with_Some; eauto|].
  apply cache_key_empty. by eapply Forall_lookup_1.
Qed.

End env.

(** ** The verdicts of the abstract window *)

Section window.
Lemma status_of_window rl flag r reset N total :
  pl_RequestsPerUnit (rl_Limit rl) = N → (flag = true ∨ r > N ↔ N < total) →
  (total <= N → r = total) → 0 <= total → is_u32 N →
  let s := status_of rl flag r reset in
  st_Code s = (if bool_decide (total > N) && negb (rl_ShadowMode rl)
               then Code_OVER_LIMIT else Code_OK) ∧
  st_CurrentLimit s = Some (rl_Limit rl) ∧ st_LimitRemaining s = Z.max 0 (N - total).
Proof.
  intros HN Hiff Hr Ht Hu. unfold status_of, over_limit; simpl. rewrite HN.
  assert (flag || bool_decide (r > N) = bool_decide (total > N)) as ->.
  { apply eq_true_iff_eq. rewrite orb_true_iff, !bool_decide_eq_true. rewrite Hiff. lia. }
  split_and!; [done..|]. case_bool_decide; [lia|]. rewrite (Hr ltac:(lia)). word.
Qed.

(** Request [j] is answered by the total of the hits up to and including it,
    on top of [S]. *)
Definition window_answers (rl : RateLimit) (S : Z) (hs : list Z) (sss : list (list DescriptorStatus))
  : Prop :=
  length sss = length hs ∧ ∀ j, (j < length hs)%nat → ∃ s, sss !! j = Some [s] ∧
    let N := pl_RequestsPerUnit (rl_Limit rl) in
    let total := S + sumZ (Max 1 <$> take (Datatypes.S j) hs) in
    st_Code s = (if bool_decide (total > N) && negb (rl_ShadowMode rl)
                 then Code_OVER_LIMIT else Code_OK) ∧
    st_CurrentLimit s = Some (rl_Limit rl) ∧ st_LimitRemaining s = Z.max 0 (N - total).

Lemma window_answers_cons rl S h hs s sss :
  (let N := pl_RequestsPerUnit (rl_Limit rl) in
   st_Code s = (if bool_decide (S + Max 1 h > N) && negb (rl_ShadowMode rl)
                then Code_OVER_LIMIT else Code_OK) ∧
   st_CurrentLimit s = Some (rl_Limit rl) ∧ st_LimitRemaining s = Z.max 0 (N - (S + Max 1 h))) →
  window_answers rl (S + Max 1 h) hs sss → window_answers rl S (h :: hs) ([s] :: sss).
Proof.
  intros Hs [Hlen Hj]. split; [simpl; lia|]. intros [|j] Hlt; simpl in Hlt.
  - exists s. split; [done|]. unfold sumZ; simpl. rewrite Z.add_0_r. done.
  - destruct (Hj j ltac:(lia)) as (s'&Hs'&Hp). exists s'. split; [done|].
    rewrite (firstn_cons (Datatypes.S j)), fmap_cons, sumZ_cons, Z.add_assoc. exact Hp.
Qed.

End window.

(** The key of a descriptor in the window that starts at [ws]. *)
Definition window_key (base : BaseRateLimiter) (domain : string) (desc : Descriptor) (rl : RateLimit)
    (ws : Z) : CacheKey :=
  mkCacheKey (key_stem (b_cacheKeyPrefix base) domain (d_Entries desc) +:+ FormatInt ws)
    (isPerSecondLimit (pl_Unit (rl_Limit rl))).

Lemma window_start_in unit d ws t :
  unit_seconds unit = Some d → 0 <= ws → window_start ws d = ws → ws <= t < ws + d →
  window_start t d = ws.
Proof.
  intros Hd%unit_seconds_bounds Hpos Heq Ht.
  unfold window_start in *. rewrite Z.quot_div_nonneg in * by lia.
  assert (t / d = ws / d) as ->; [|done].
  symmetry. apply Z.div_unique with (r := t - ws); lia.
Qed.
