(* ===== verification/Redis.v ===== *)
(** * [src/redis]: the pipelined client and the fixed window limiter

    [driver_impl.go] (commands, [PipeAppend], [PipeDo] in both modes) and
    [fixed_cache_impl.go] ([DoLimit]).  The radix library is the class [Radix]:
    one [Do] of an action against a client returns an error or nothing, and the
    replies in order of the commands; a reply goes into the command's receiver.
    A receiver is a pointer into one of [DoLimit]'s slices, here the index.

    [DoLimit] is one definition per phase of its body, composed in [DoLimit]. *)

From S2P Require Import Prelude GoStrings World Utils Limiter.

#[local] Open Scope Z_scope.

(** ** The client *)

(** [radix.FlatCmd(rcv, cmd, key, args...)] *)
Record CmdAction : Set := FlatCmd {
  ca_rcv : option nat;
  ca_cmd : string;
  ca_key : string;
  ca_args : list Z;
}.

#[export] Instance CmdAction_eq_dec : EqDecision CmdAction.
Proof. solve_decision. Defined.

Definition Pipeline : Set := list CmdAction.

Inductive Action : Set :=
  | ActCmd (c : CmdAction)
  | ActPipeline (cs : Pipeline).

Definition commands (a : Action) : Pipeline :=
  match a with ActCmd c => [c] | ActPipeline cs => cs end.

(** [radix.Client.Do] of the client numbered by the first argument. *)
Class Radix (E : Type) : Type :=
  radix_Do : nat → Action → E → (option string * list (option Z)) * E.

Record clientImpl : Set := mkClient {
  ci_client : nat;
  ci_implicitPipelining : bool;
}.

(** Stores the replies into the receivers of their commands. *)
Fixpoint deliver (cs : Pipeline) (replies : list (option Z)) (slots : list Z) : list Z :=
  match cs, replies with
  | c :: cs', r :: replies' =>
      deliver cs' replies'
        (match ca_rcv c, r with
         | Some i, Some v => <[i := v]> slots
         | _, _ => slots
         end)
  | _, _ => slots
  end.

Definition PipeAppend (pipeline : Pipeline) (rcv : option nat) (cmd key : string)
    (args : list Z) : Pipeline :=
  pipeline ++ [FlatCmd rcv cmd key args].

Section driver.
Context {E : Type} `{Radix E}.
#[local] Abbreviation W := (World E).

Definition checkError (err : option string) : M W unit :=
  match err with
  | Some e => throw (PRedisError e)
  | None => mret ()
  end.

Definition Do (c : clientImpl) (a : Action) (slots : list Z) : M W (option string * list Z) :=
  '(err, replies) ← ext (radix_Do (ci_client c) a);
  mret (err, deliver (commands a) replies slots).

Definition DoCmd (c : clientImpl) (rcv : option nat) (cmd key : string) (args : list Z)
    (slots : list Z) : M W (option string * list Z) :=
  Do c (ActCmd (FlatCmd rcv cmd key args)) slots.

Fixpoint pipe_do_each (c : clientImpl) (pipeline : Pipeline) (slots : list Z)
  : M W (option string * list Z) :=
  match pipeline with
  | [] => mret (None, slots)
  | action :: rest =>
      '(err, slots) ← Do c (ActCmd action) slots;
      match err with
      | Some e => mret (Some e, slots)
      | None => pipe_do_each c rest slots
      end
  end.

Definition PipeDo (c : clientImpl) (pipeline : Pipeline) (slots : list Z)
  : M W (option string * list Z) :=
  if ci_implicitPipelining c then pipe_do_each c pipeline slots
  else Do c (ActPipeline pipeline) slots.

Definition ImplicitPipeliningEnabled (c : clientImpl) : bool := ci_implicitPipelining c.

(** [if pipeline != nil { checkError(client.PipeDo(pipeline)) }] *)
Definition run_pipeline (c : option clientImpl) (pipeline : option Pipeline) (slots : list Z)
  : M W (list Z) :=
  match pipeline with
  | None => mret slots
  | Some p =>
      c ← non_nil c;
      '(err, slots) ← PipeDo c p slots;
      _ ← checkError err;
      mret slots
  end.
End driver.

(** ** The limiter *)

Record fixedRateLimitCacheImpl : Set := mkFixed {
  fx_client : clientImpl;
  fx_perSecondClient : option clientImpl;
  fx_stopCacheKeyIncrementWhenOverlimit : bool;
  fx_baseRateLimiter : BaseRateLimiter;
}.

Definition pipelineAppend (pipeline : Pipeline) (key : string) (hitsAddend : Z) (result : nat)
    (expirationSeconds : Z) : Pipeline :=
  let pipeline := PipeAppend pipeline (Some result) "INCRBY" key [hitsAddend] in
  PipeAppend pipeline None "EXPIRE" key [expirationSeconds].

Definition pipelineAppendtoGet (pipeline : Pipeline) (key : string) (result : nat) : Pipeline :=
  PipeAppend pipeline (Some result) "GET" key [].

(** [this.perSecondClient != nil && cacheKey.PerSecond] *)
Definition uses_per_second (this : fixedRateLimitCacheImpl) (cacheKey : CacheKey) : bool :=
  bool_decide (is_Some (fx_perSecondClient this)) && ck_PerSecond cacheKey.

(** A nil pipeline becomes an empty one before something is appended. *)
Definition pipe_or_new (p : option Pipeline) : Pipeline := default [] p.

(** The local variables the phases before the increment leave behind. *)
Record checks : Set := mkChecks {
  cs_isOverLimitWithLocalCache : list bool;
  cs_overlimitIndexes : list bool;
  cs_nearlimitIndexes : list bool;
  cs_hitsAddendForRedis : Z;
  cs_isCacheKeyOverlimit : bool;
}.

Definition initial_checks (n : nat) (hitsAddend : Z) : checks :=
  mkChecks (replicate n false) (replicate n false) (replicate n false) hitsAddend false.

Section limiter.
Context {E : Type} `{TimeSource E} `{FreeCache E} `{JitterRand E} `{Radix E}.
#[local] Abbreviation W := (World E).
Implicit Types this : fixedRateLimitCacheImpl.

(** Lines 126-145: only the local cache is consulted. *)
Definition check_local this (cacheKeys : list CacheKey) (limits : list (option loc))
    (c : checks) : M W checks :=
  range cacheKeys c (λ i cacheKey c,
    if decide (ck_Key cacheKey = "") then mret c
    else
      found ← IsOverLimitWithLocalCache (fx_baseRateLimiter this) (ck_Key cacheKey);
      if found : bool then
        limit ← index limits i;
        _ ← deref limit;   (* limits[i].ShadowMode selects the log message *)
        mret (mkChecks (<[i := true]> (cs_isOverLimitWithLocalCache c))
                (<[i := true]> (cs_overlimitIndexes c)) (cs_nearlimitIndexes c)
                (cs_hitsAddendForRedis c) (cs_isCacheKeyOverlimit c))
      else mret c).

(** Lines 69-99: the local cache, and the pipelines that read the counts. *)
Definition check_local_and_get this (cacheKeys : list CacheKey) (limits : list (option loc))
    (c : checks) : M W (checks * option Pipeline * option Pipeline) :=
  range cacheKeys (c, None, None) (λ i cacheKey '(c, pipelineToGet, perSecondPipelineToGet),
    if decide (ck_Key cacheKey = "") then mret (c, pipelineToGet, perSecondPipelineToGet)
    else
      found ← IsOverLimitWithLocalCache (fx_baseRateLimiter this) (ck_Key cacheKey);
      if found : bool then
        limit ← index limits i;
        _ ← deref limit;
        mret (mkChecks (<[i := true]> (cs_isOverLimitWithLocalCache c))
                (<[i := true]> (cs_overlimitIndexes c)) (cs_nearlimitIndexes c) 0 true,
              pipelineToGet, perSecondPipelineToGet)
      else if uses_per_second this cacheKey then
        mret (c, pipelineToGet,
              Some (pipelineAppendtoGet (pipe_or_new perSecondPipelineToGet) (ck_Key cacheKey) i))
      else
        mret (c, Some (pipelineAppendtoGet (pipe_or_new pipelineToGet) (ck_Key cacheKey) i),
              perSecondPipelineToGet)).

(** Lines 110-124: which keys would pass their limit with this request. *)
Definition check_thresholds this (cacheKeys : list CacheKey) (limits : list (option loc))
    (hitsAddend : Z) (currentCount : list Z) (c : checks) : M W checks :=
  range cacheKeys c (λ i cacheKey c,
    if decide (ck_Key cacheKey = "") then mret c
    else
      limitBeforeIncrease ← index currentCount i;
      let limitAfterIncrease := u32 (limitBeforeIncrease + hitsAddend) in
      limit ← index limits i;
      reached ← IsOverLimitThresholdReached
                  (NewRateLimitInfo limit limitBeforeIncrease limitAfterIncrease 0 0);
      if reached : bool then
        mret (mkChecks (cs_isOverLimitWithLocalCache c) (cs_overlimitIndexes c)
                (<[i := true]> (cs_nearlimitIndexes c)) 0 (cs_isCacheKeyOverlimit c))
      else mret c).

(** Lines 67-125. *)
Definition check_stop this (cacheKeys : list CacheKey) (limits : list (option loc))
    (hitsAddend : Z) (n : nat) (c : checks) : M W checks :=
  '(c, pipelineToGet, perSecondPipelineToGet) ← check_local_and_get this cacheKeys limits c;
  if bool_decide (1 < length cacheKeys)%nat && negb (cs_isCacheKeyOverlimit c) then
    currentCount ← run_pipeline (Some (fx_client this)) pipelineToGet (replicate n 0);
    currentCount ← run_pipeline (fx_perSecondClient this) perSecondPipelineToGet currentCount;
    check_thresholds this cacheKeys limits hitsAddend currentCount c
  else mret c.

(** Lines 155-158: the expiration of a key, with jitter. *)
Definition expiration this (limit : option loc) : M W Z :=
  rl ← deref limit;
  expirationSeconds ← UnitToDivider (pl_Unit (rl_Limit rl));
  let jitter := b_ExpirationJitterMaxSeconds (fx_baseRateLimiter this) in
  if bool_decide (jitter > 0) then
    r ← ext (int63n jitter);
    mret (i64 (expirationSeconds + r))
  else mret expirationSeconds.

(** Lines 147-180: the pipelines that increment. *)
Definition setup_pipelines this (cacheKeys : list CacheKey) (limits : list (option loc))
    (hitsAddend : Z) (c : checks) : M W (option Pipeline * option Pipeline) :=
  range cacheKeys (None, None) (λ i cacheKey '(pipeline, perSecondPipeline),
    over ← (if decide (ck_Key cacheKey = "") then mret true
            else index (cs_overlimitIndexes c) i);
    if over : bool then mret (pipeline, perSecondPipeline)
    else
      limit ← index limits i;
      expirationSeconds ← expiration this limit;
      near ← index (cs_nearlimitIndexes c) i;
      let hits := if near : bool then hitsAddend else cs_hitsAddendForRedis c in
      if uses_per_second this cacheKey then
        mret (pipeline,
              Some (pipelineAppend (pipe_or_new perSecondPipeline) (ck_Key cacheKey) hits i
                      expirationSeconds))
      else
        mret (Some (pipelineAppend (pipe_or_new pipeline) (ck_Key cacheKey) hits i
                      expirationSeconds),
              perSecondPipeline)).

(** Lines 198-213: the verdicts. *)
Definition statuses this (cacheKeys : list CacheKey) (limits : list (option loc))
    (hitsAddend : Z) (results : list Z) (c : checks) : M W (list DescriptorStatus) :=
  range cacheKeys [] (λ i cacheKey responseDescriptorStatuses,
    limitAfterIncrease ← index results i;
    let limitBeforeIncrease := u32 (limitAfterIncrease - hitsAddend) in
    limit ← index limits i;
    cached ← index (cs_isOverLimitWithLocalCache c) i;
    status ← GetResponseDescriptorStatus (fx_baseRateLimiter this) (ck_Key cacheKey)
               (NewRateLimitInfo limit limitBeforeIncrease limitAfterIncrease 0 0)
               cached hitsAddend;
    mret (responseDescriptorStatuses ++ [status])).

Definition DoLimit this (request : RateLimitRequest) (limits : list (option loc))
  : M W (list DescriptorStatus) :=
  let hitsAddend := Max 1 (rq_HitsAddend request) in
  let n := length (rq_Descriptors request) in
  cacheKeys ← GenerateCacheKeys (fx_baseRateLimiter this) request limits hitsAddend;
  let c := initial_checks n hitsAddend in
  c ← (if fx_stopCacheKeyIncrementWhenOverlimit this
       then check_stop this cacheKeys limits hitsAddend n c
       else check_local this cacheKeys limits c);
  '(pipeline, perSecondPipeline) ← setup_pipelines this cacheKeys limits hitsAddend c;
  results ← run_pipeline (Some (fx_client this)) pipeline (replicate n 0);
  results ← run_pipeline (fx_perSecondClient this) perSecondPipeline results;
  statuses this cacheKeys limits hitsAddend results c.

(** [Flush] is a no-op. *)
Definition Flush this : M W unit := mret ().
End limiter.

Definition NewFixedRateLimitCacheImpl (client : clientImpl) (perSecondClient : option clientImpl)
    (expirationJitterMaxSeconds : Z) (localCache : bool) (nearLimitRatio : SpecFloat.spec_float)
    (cacheKeyPrefix : string) (stopCacheKeyIncrementWhenOverlimit : bool)
  : fixedRateLimitCacheImpl :=
  {| fx_client := client;
     fx_perSecondClient := perSecondClient;
     fx_stopCacheKeyIncrementWhenOverlimit := stopCacheKeyIncrementWhenOverlimit;
     fx_baseRateLimiter := NewBaseRateLimit expirationJitterMaxSeconds localCache nearLimitRatio
                             cacheKeyPrefix |}.

#[export] Instance fixed_RateLimitCache `{TimeSource E, FreeCache E, JitterRand E, Radix E}
  : RateLimitCache E fixedRateLimitCacheImpl :=
  {| cache_DoLimit := DoLimit; cache_Flush := Flush |}.
