(* ===== verification/RedisSpec.v ===== *)
(** * What redis promises, and what [DoLimit] makes of it

    [RedisLaws] states the documented behaviour of redis over the view of
    [CountSpec.v]: each command is atomic, [INCRBY] counts, [EXPIRE] sets the
    deadline.  The increments of one request are a plan, and executing its
    pipeline advances each key's count by the plan's hits on it
    ([incr_pipe_counts]). *)

From S2P Require Import Prelude GoStrings World Utils Limiter LimiterSpec CountSpec Redis.

#[local] Open Scope Z_scope.

Section view.
Context {E : Type} `{CountView E}.

(** The effect of a command on the entry of its key, at time [t]. *)
Definition cmd_effect (t : Z) (cmd : CmdAction) (o : option (Z * option Z)) (r : option Z)
    (o' : option (Z * option Z)) : Prop :=
  match ca_args cmd with
  | [] => ca_cmd cmd = "GET" → o' = o ∧
      (is_u32 (count_at t o) → default 0 r = count_at t o)
  | [n] =>
      (ca_cmd cmd = "INCRBY" →
         o' = Some (count_at t o + n, if live t o then o ≫= snd else None) ∧
         (is_u32 (count_at t o + n) → r = Some (count_at t o + n))) ∧
      (ca_cmd cmd = "EXPIRE" →
         o' = if live t o then (λ p, (p.1, Some (t + n))) <$> o else o)
  | _ => True
  end.

(** One command executed atomically at some time between [e] and [e']. *)
Definition exec1 (c : nat) (cmd : CmdAction) (e : E) (r : option Z) (e' : E) : Prop :=
  time e <= time e' ∧ (∀ k, held k e' → held k e) ∧
  (∀ c' k, (c', k) ≠ (c, ca_key cmd) → entry c' k e' = entry c' k e) ∧
  ∃ t, time e <= t <= time e' ∧
    cmd_effect t cmd (entry c (ca_key cmd) e) r (entry c (ca_key cmd) e').

Inductive execs (c : nat) : Pipeline → E → list (option Z) → E → Prop :=
  | execs_nil e e' : undisturbed e e' → execs c [] e [] e'
  | execs_cons cmd cs r rs e e' e'' :
      exec1 c cmd e r e' → execs c cs e' rs e'' → execs c (cmd :: cs) e (r :: rs) e''.
End view.

(** Documented behaviour: a successful [Do] executed its commands in order. *)
Class RedisLaws (E : Type) `{TimeSource E, FreeCache E, JitterRand E, Radix E, CountView E}
  : Prop := {
  redis_env :: EnvLaws E;
  law_cmd c cmd e rs e' : radix_Do c (ActCmd cmd) e = ((None, rs), e') →
    ∃ r, rs = [r] ∧ exec1 c cmd e r e';
  law_pipeline c cs e rs e' : radix_Do c (ActPipeline cs) e = ((None, rs), e') →
    execs c cs e rs e';
}.

Section holds.
Context {E : Type} `{CountView E}.

Lemma holds_other c c' cmd k n T e r e' :
  exec1 c' cmd e r e' → (c, k) ≠ (c', ca_key cmd) → holds c k n T e → holds c k n T e'.
Proof. intros (_&_&He&_) Hne. unfold holds. by rewrite He. Qed.

Lemma holds_incr c i k h n T e r e' :
  exec1 c (FlatCmd i "INCRBY" k [h]) e r e' → holds c k n T e → time e' < T → is_u32 (n + h) →
  holds c k (n + h) T e' ∧ r = Some (n + h).
Proof.
  intros (_&_&_&t&Ht&[Heff _]) Hh HT Hu. simpl in Heff. destruct (Heff eq_refl) as [He Hr].
  rewrite (holds_count _ _ _ _ _ t Hh) in He, Hr by lia. split; [|by apply Hr].
  unfold holds. simpl in He. rewrite He. split; [done|]. unfold holds in Hh.
  unfold live. destruct (entry c k e) as [[v [dl|]]|]; simpl; [|done..].
  replace (t <? dl) with true by lia. simpl. lia.
Qed.

Lemma holds_expire c k s n T e r e' :
  exec1 c (FlatCmd None "EXPIRE" k [s]) e r e' → holds c k n T e → T <= time e + s →
  holds c k n T e'.
Proof.
  intros (_&_&_&t&Ht&[_ Heff]) Hh HT. specialize (Heff eq_refl). simpl in Heff.
  unfold holds in *. rewrite Heff. destruct (live t (entry c k e)); [|done].
  destruct (entry c k e) as [[v dl]|]; simpl; [|done]. split; [apply Hh|lia].
Qed.

Lemma execs_cons_inv c cmd cs e rs e'' :
  execs c (cmd :: cs) e rs e'' →
  ∃ r rs' e', rs = r :: rs' ∧ exec1 c cmd e r e' ∧ execs c cs e' rs' e''.
Proof. inversion 1; subst. eauto 10. Qed.

Lemma execs_time c cs e rs e' : execs c cs e rs e' → time e <= time e'.
Proof.
  induction 1 as [?? Hu|??????? Hx ? IH]; [apply Hu|]. destruct Hx as [Ht _]. lia.
Qed.

Lemma execs_held c cs e rs e' : execs c cs e rs e' → ∀ k, held k e' → held k e.
Proof.
  induction 1 as [?? Hu|??????? Hx ? IH]; [apply Hu|]. intros k Hk%IH. by apply Hx.
Qed.

Lemma execs_other c c' cs k n T e rs e' :
  execs c' cs e rs e' → c ≠ c' → holds c k n T e → holds c k n T e'.
Proof.
  induction 1; intros Hne Hh; [by eapply holds_undisturbed|].
  eapply IHexecs; [done|]. eapply holds_other; [done| |done]. congruence.
Qed.
End holds.

(** ** The increments of one request

    A plan has one step per descriptor; a step is skipped when the descriptor
    has no limit or is over the limit in the local cache. *)

Record step : Set := mkPlanStep {
  p_key : CacheKey;
  p_skip : bool;
  p_hits : Z;
  p_exp : Z;
}.

Section plan.
Context (this : fixedRateLimitCacheImpl).

(** The step goes to the per-second client ([b = true]) or the main one. *)
Definition selected (b : bool) (p : step) : bool :=
  negb (p_skip p) && eqb (uses_per_second this (p_key p)) b.

Definition touches (b : bool) (k : string) (p : step) : bool :=
  selected b p && bool_decide (ck_Key (p_key p) = k).

Fixpoint incr_pipe (b : bool) (i : nat) (plan : list step) : Pipeline :=
  match plan with
  | [] => []
  | p :: plan' =>
      (if selected b p then
         [FlatCmd (Some i) "INCRBY" (ck_Key (p_key p)) [p_hits p];
          FlatCmd None "EXPIRE" (ck_Key (p_key p)) [p_exp p]]
       else []) ++ incr_pipe b (S i) plan'
  end.

(** The hits a plan adds to one key. *)
Definition hits_on (b : bool) (k : string) (plan : list step) : Z :=
  sumZ ((λ p, if touches b k p then p_hits p else 0) <$> plan).

Lemma hits_on_cons b k p plan :
  hits_on b k (p :: plan) = (if touches b k p then p_hits p else 0) + hits_on b k plan.
Proof. done. Qed.

Lemma hits_on_last b k plan i p :
  plan !! i = Some p → touches b k p = true →
  hits_on b k (take (S i) plan) = hits_on b k (take i plan) + p_hits p.
Proof.
  intros Hp Ht. rewrite (take_S_lookup _ _ _ Hp). unfold hits_on. rewrite fmap_app, sumZ_app.
  cbn [fmap list_fmap]. rewrite Ht, sumZ_cons. change (sumZ []) with 0. lia.
Qed.

Lemma hits_on_nonneg b k plan : Forall (λ p, 0 <= p_hits p) plan → 0 <= hits_on b k plan.
Proof.
  intros Hp. apply sumZ_nonneg, Forall_fmap. eapply Forall_impl; [exact Hp|].
  intros p Hh; simpl in *. case_match; lia.
Qed.

Lemma incr_pipe_app b i plan plan' :
  incr_pipe b i (plan ++ plan') = incr_pipe b i plan ++ incr_pipe b (i + length plan) plan'.
Proof.
  revert i. induction plan as [|p plan IH]; intros i; simpl; [by rewrite Nat.add_0_r|].
  by rewrite IH, app_assoc, Nat.add_succ_r.
Qed.

Lemma deliver_length cs rs slots : length (deliver cs rs slots) = length slots.
Proof.
  revert rs slots. induction cs as [|c cs IH]; intros [|r rs] slots; simpl; try done.
  rewrite IH. destruct (ca_rcv c), r; try done. by rewrite length_insert.
Qed.

(** Receivers of other descriptors are left alone. *)
Lemma deliver_other b plan : ∀ i rs slots m,
  (∀ j p, plan !! j = Some p → m = (i + j)%nat → selected b p = false) →
  deliver (incr_pipe b i plan) rs slots !! m = slots !! m.
Proof.
  induction plan as [|p plan IH]; intros i rs slots m Hm; [by destruct rs|].
  assert (∀ rs slots, deliver (incr_pipe b (S i) plan) rs slots !! m = slots !! m) as IH'.
  { intros rs' slots'. apply IH. intros j q Hj ->. apply (Hm (S j)); [done|lia]. }
  simpl. destruct (selected b p) eqn:Hs; [|apply IH'].
  assert (m ≠ i). { intros ->. specialize (Hm 0%nat p eq_refl). rewrite Hm in Hs; [done|lia]. }
  destruct rs as [|r rs]; [done|]. simpl. destruct rs as [|r' rs]; simpl.
  { destruct r; [by apply list_lookup_insert_ne|done]. }
  rewrite IH'. destruct r; [by apply list_lookup_insert_ne|done].
Qed.

Context {E : Type} `{CountView E}.

Lemma exec_pair c i k h s key n T e r r' e' e'' :
  exec1 c (FlatCmd (Some i) "INCRBY" key [h]) e r e' →
  exec1 c (FlatCmd None "EXPIRE" key [s]) e' r' e'' →
  holds c k n T e → time e'' < T → is_u32 n → 0 <= h →
  (key = k → T <= time e + s ∧ is_u32 (n + h)) →
  holds c k (if decide (key = k) then n + h else n) T e'' ∧
  (key = k → r = Some (n + h)).
Proof.
  intros H1 H2 Hh HT Hu Hpos Hk. assert (time e <= time e' <= time e'') as Ht.
  { split; [apply H1|apply H2]. }
  case_decide as Hkey.
  - subst key. destruct (Hk eq_refl). destruct (holds_incr _ _ _ _ _ T _ _ _ H1 Hh) as [Hh' ->];
      [lia|done|]. split; [|done]. eapply holds_expire; [done|done|lia].
  - split; [|done]. eapply holds_other; [exact H2|simpl; congruence|].
    eapply holds_other; [exact H1|simpl; congruence|done].
Qed.

(** The first step of a plan: it adds its own hits to the key, if any. *)
Lemma incr_pipe_head c b k T p plan i n e rs e' slots :
  execs c (incr_pipe b i (p :: plan)) e rs e' → holds c k n T e → time e' < T →
  (i < length slots)%nat → 0 <= p_hits p → 0 <= n →
  (touches b k p = true → T <= time e + p_exp p ∧ n + p_hits p < 2 ^ 32) → n < 2 ^ 32 →
  let own := if touches b k p then p_hits p else 0 in
  ∃ rs2 e2 slots2, execs c (incr_pipe b (S i) plan) e2 rs2 e' ∧
    holds c k (n + own) T e2 ∧ time e <= time e2 ∧
    deliver (incr_pipe b i (p :: plan)) rs slots =
      deliver (incr_pipe b (S i) plan) rs2 slots2 ∧
    length slots2 = length slots ∧ (touches b k p = true → slots2 !! i = Some (n + own)).
Proof.
  intros Hx Hh HT Hi Hp Hn Hk Hu. unfold touches in *. cbn [incr_pipe] in Hx |- *.
  destruct (selected b p) eqn:Hs; simpl in Hx, Hk |- *.
  - apply execs_cons_inv in Hx as (r&rs1&e1&->&Hx1&Hx).
    apply execs_cons_inv in Hx as (r'&rs2&e2&->&Hx2&Hx).
    exists rs2, e2, (match r with Some v => <[i := v]> slots | None => slots end).
    destruct (exec_pair c i k _ _ _ n T _ _ _ _ _ Hx1 Hx2) as [Hh2 Hr];
      [done|pose proof (execs_time _ _ _ _ _ Hx); lia|word|done| |].
    { intros E'. rewrite bool_decide_true in Hk by done. destruct Hk; [done|]. split; [lia|word]. }
    split_and!; [done| |destruct Hx1 as [? _], Hx2 as [? _]; lia|done| |].
    + case_bool_decide; case_decide; try done. by rewrite Z.add_0_r.
    + destruct r; by rewrite ?length_insert.
    + intros E'. rewrite E'. apply bool_decide_eq_true in E'. rewrite (Hr E').
      by apply list_lookup_insert_eq.
  - exists rs, e, slots. rewrite Z.add_0_r. by split_and!.
Qed.

Lemma incr_pipe_counts c b k T plan : ∀ i n e rs e' slots,
  execs c (incr_pipe b i plan) e rs e' → holds c k n T e → time e' < T →
  Forall (λ p, 0 <= p_hits p ∧ (touches b k p = true → T <= time e + p_exp p)) plan →
  0 <= n → n + hits_on b k plan < 2 ^ 32 → (i + length plan <= length slots)%nat →
  holds c k (n + hits_on b k plan) T e' ∧
  ∀ j p, plan !! j = Some p → touches b k p = true →
    deliver (incr_pipe b i plan) rs slots !! (i + j)%nat =
      Some (n + hits_on b k (take (S j) plan)).
Proof.
  induction plan as [|p plan IH]; intros i n e rs e' slots Hx Hh HT Hall Hn Hu Hlen.
  { inversion Hx; subst. unfold hits_on; simpl. rewrite Z.add_0_r.
    split; [by eapply holds_undisturbed|done]. }
  apply Forall_cons in Hall as [[Hp Hexp] Hall]. rewrite hits_on_cons in Hu |- *. simpl in Hlen.
  pose proof (hits_on_nonneg b k plan ltac:(eapply Forall_impl; [exact Hall|by intros ? [? _]])).
  set (own := if touches b k p then p_hits p else 0) in *.
  assert (0 <= own) by (unfold own; case_match; lia).
  destruct (incr_pipe_head c b k T p plan i n e rs e' slots)
    as (rs2&e2&slots2&Hx2&Hh2&Ht2&Hdel&Hl2&Hi); [done..|lia|done|lia| |lia|].
  { intros E'. split; [by apply Hexp|]. unfold own in *. rewrite E' in *. lia. }
  fold own in Hh2, Hi.
  destruct (IH (S i) (n + own) e2 rs2 e' slots2) as [IH1 IH2]; [done..| |lia|lia|lia|].
  { eapply Forall_impl; [exact Hall|]. intros q [? Hq]. split; [done|].
    intros Hq'. specialize (Hq Hq'). lia. }
  split; [by rewrite Z.add_assoc|]. intros j q Hq Htq. rewrite Hdel.
  destruct j as [|j]; simpl in Hq.
  - injection Hq as <-. rewrite Nat.add_0_r, deliver_other by lia. rewrite (Hi Htq). f_equal.
    rewrite firstn_cons, take_0, hits_on_cons. fold own. unfold hits_on; simpl. lia.
  - replace (i + S j)%nat with (S i + j)%nat by lia. rewrite (IH2 j q Hq Htq).
    rewrite (firstn_cons (S j)), hits_on_cons. fold own. f_equal. lia.
Qed.
End plan.
