(* ===== verification/RedisLimit.v ===== *)
(** * [DoLimit] of the redis limiter against the laws of redis

    One specification per phase of [DoLimit], then the whole request. *)

From S2P Require Import Prelude GoStrings World Utils Limiter LimiterSpec CountSpec Redis.
From S2P Require Import RedisSpec.

#[local] Open Scope Z_scope.

Section phases.
Context {E : Type} `{RedisLaws E}.
#[local] Abbreviation W := (World E).
Implicit Types w : W.

(** Redis reported this error for some command. *)
Definition reported (msg : string) : Prop :=
  ∃ c a (e : E) rs e', radix_Do c a e = ((Some msg, rs), e').

(** The only panic [DoLimit] raises. *)
Definition redis_failure (p : panic) : Prop := ∃ msg, p = PRedisError msg ∧ reported msg.

(** ** Pipelines *)

Lemma pipe_do_each_ok c p : ∀ slots w,
  ∃ err slots' e', pipe_do_each c p slots w =
      (Ret (err, slots'), mkWorld (w_heap w) (w_counters w) e') ∧
    match err with
    | Some msg => reported msg
    | None => ∃ rs, execs (ci_client c) p (w_ext w) rs e' ∧ slots' = deliver p rs slots
    end.
Proof.
  induction p as [|cmd p IH]; intros slots w; simpl.
  - exists None, slots, (w_ext w). split; [by destruct w|]. exists [].
    split; [by constructor|done].
  - unfold Do, ext. destruct (radix_Do (ci_client c) (ActCmd cmd) (w_ext w))
      as [[[msg|] rs] e1] eqn:Hdo; unfold mbind at 1, M_bind at 1; unfold mbind at 1, M_bind at 1;
      simpl; rewrite Hdo; simpl.
    + eexists _, _, _. split; [reflexivity|]. by eexists _, _, _, _, _.
    + apply law_cmd in Hdo as (r&->&Hx).
      destruct (IH (deliver [cmd] [r] slots) (mkWorld (w_heap w) (w_counters w) e1))
        as (err&slots'&e'&Hrun&Hpost). simpl in *. eexists _, _, _. split; [exact Hrun|].
      destruct err; [done|]. destruct Hpost as (rs&Hxs&->). exists (r :: rs).
      split; [by econstructor|done].
Qed.

(** Both pipelining modes execute the same commands in the same order. *)
Lemma PipeDo_ok c p slots w :
  ∃ err slots' e', PipeDo c p slots w =
      (Ret (err, slots'), mkWorld (w_heap w) (w_counters w) e') ∧
    match err with
    | Some msg => reported msg
    | None => ∃ rs, execs (ci_client c) p (w_ext w) rs e' ∧ slots' = deliver p rs slots
    end.
Proof.
  unfold PipeDo. destruct (ci_implicitPipelining c); [apply pipe_do_each_ok|].
  unfold Do, ext, mbind, M_bind.
  destruct (radix_Do (ci_client c) (ActPipeline p) (w_ext w)) as [[[msg|] rs] e1] eqn:Hdo; simpl.
  - eexists _, _, _. split; [reflexivity|]. by eexists _, _, _, _, _.
  - eexists _, _, _. split; [reflexivity|]. exists rs. split; [by apply law_pipeline|done].
Qed.

Lemma run_pipeline_ok (oc : option clientImpl) (id : nat) p slots w :
  (is_Some p → ∃ c, oc = Some c ∧ ci_client c = id) →
  wp redis_failure (run_pipeline oc p slots) w (λ slots' w',
    w_heap w' = w_heap w ∧ w_counters w' = w_counters w ∧
    ∃ rs, execs id (pipe_or_new p) (w_ext w) rs (w_ext w') ∧
      slots' = deliver (pipe_or_new p) rs slots).
Proof.
  intros Hc. destruct p as [p|]; simpl.
  - destruct Hc as (c&->&<-); [done|]. eapply wp_bind_Ret; [reflexivity|].
    destruct (PipeDo_ok c p slots w) as (err&slots'&e'&Hrun&Hpost).
    eapply wp_bind_Ret; [exact Hrun|]. simpl. destruct err as [msg|]; simpl.
    + unfold wp. simpl. by exists msg.
    + destruct Hpost as (rs&Hx&->). apply wp_ret. simpl. eauto 10.
  - apply wp_ret. split_and!; [done..|]. exists []. split; [by constructor|done].
Qed.

Lemma check_local_ok this keys limits hits w :
  keyed (w_heap w) keys limits →
  wp redis_failure (check_local this keys limits (initial_checks (length keys) hits)) w (λ c w',
    quiet w w' ∧ ∃ cached, flags_held keys cached (w_ext w) ∧
      c = mkChecks cached cached (replicate (length keys) false) hits false).
Proof.
  intros Hkeyed. unfold check_local.
  apply (wp_range redis_failure (λ _ c w', quiet w w' ∧ ∃ cached,
    flags_held keys cached (w_ext w) ∧
    c = mkChecks cached cached (replicate (length keys) false) hits false)).
  - split; [reflexivity|]. exists (replicate (length keys) false). split; [|done].
    split; [apply length_replicate|]. intros i key _ [? _]%lookup_replicate_1. done.
  - intros j key c w1 Hj [Hq (cached&Hf&->)]. case_decide as Hk; [apply wp_ret; eauto|].
    eapply wp_bind; [apply IsOverLimitWithLocalCache_ok|]. intros b w2 [Hq2 Hheld].
    assert (quiet w w2) as Hq12 by (by etransitivity).
    destruct b; [|apply wp_ret; eauto].
    destruct Hkeyed as [_ Hkeyed]. destruct (Hkeyed j key Hj Hk) as (o&rl&d&Ho&Hrl&Hd).
    rewrite <-(proj1 Hq12) in Hrl.
    eapply wp_bind_Ret; [by apply index_Some|]. eapply wp_bind_Ret; [by apply deref_ok|].
    apply wp_ret. split; [done|]. exists (<[j := true]> cached). split; [|done].
    eapply flags_held_insert; [done..|]. apply Hq. by apply Hheld.
Qed.

(** ** Setting up the increments *)

Lemma expiration_ok this o rl d w :
  o ≫= (λ l, w_heap w !! l) = Some rl → unit_seconds (pl_Unit (rl_Limit rl)) = Some d →
  b_ExpirationJitterMaxSeconds (fx_baseRateLimiter this) <= 2 ^ 62 →
  wp redis_failure (expiration this o) w (λ s w', quiet w w' ∧ d <= s).
Proof.
  intros Hrl Hd Hj. unfold expiration. eapply wp_bind_Ret; [by apply deref_ok|].
  eapply wp_bind_Ret; [by apply UnitToDivider_Some|]. simpl.
  case_bool_decide; [|by apply wp_ret].
  unfold ext. eapply wp_bind with (Q := λ r w', quiet w w' ∧
    0 <= r < b_ExpirationJitterMaxSeconds (fx_baseRateLimiter this)).
  - unfold wp. destruct (int63n _ (w_ext w)) as [r e] eqn:Hr.
    apply law_rand in Hr as [Hu Hr]. repeat split; try apply Hu; apply Hr; lia.
  - intros r w' [Hq Hr]. apply wp_ret. split; [done|].
    pose proof (unit_seconds_bounds _ _ Hd). rewrite i64_small; [lia|unfold is_i64; lia].
Qed.

(** The plan the pipelines realise. *)
Definition planned (h : list RateLimit) (keys : list CacheKey) (limits : list (option loc)) (hits : Z) (c : checks)
    (plan : list step) : Prop :=
  ∀ i p, plan !! i = Some p → ∃ key over near,
    keys !! i = Some key ∧ cs_overlimitIndexes c !! i = Some over ∧
    cs_nearlimitIndexes c !! i = Some near ∧ p_key p = key ∧
    p_skip p = bool_decide (ck_Key key = "") || over ∧
    p_hits p = (if near : bool then hits else cs_hitsAddendForRedis c) ∧
    (p_skip p = false → ∀ o rl d, limits !! i = Some o → o ≫= (λ l, h !! l) = Some rl →
       unit_seconds (pl_Unit (rl_Limit rl)) = Some d → d <= p_exp p).

Lemma planned_snoc h keys limits hits c plan key over near s :
  planned h keys limits hits c plan →
  keys !! length plan = Some key → cs_overlimitIndexes c !! length plan = Some over →
  cs_nearlimitIndexes c !! length plan = Some near →
  (bool_decide (ck_Key key = "") || over = false → ∀ o rl d, limits !! length plan = Some o →
    o ≫= (λ l, h !! l) = Some rl → unit_seconds (pl_Unit (rl_Limit rl)) = Some d → d <= s) →
  planned h keys limits hits c (plan ++ [mkPlanStep key (bool_decide (ck_Key key = "") || over)
    (if near : bool then hits else cs_hitsAddendForRedis c) s]).
Proof.
  intros Hp Hk Ho Hn Hs i p [Hi|[Hi Hp']]%lookup_app_Some; [by apply Hp|].
  apply list_lookup_singleton_Some in Hp' as [Hi' <-].
  assert (i = length plan) as -> by lia. eauto 10.
Qed.

(** Appending one step to a plan appends its commands to one pipeline. *)
Lemma incr_pipe_snoc this b plan p :
  incr_pipe this b 0 (plan ++ [p]) =
    if selected this b p
    then pipelineAppend (incr_pipe this b 0 plan) (ck_Key (p_key p)) (p_hits p) (length plan) (p_exp p)
    else incr_pipe this b 0 plan.
Proof.
  rewrite incr_pipe_app. simpl. destruct (selected this b p); simpl; [|by rewrite app_nil_r].
  unfold pipelineAppend, PipeAppend. by rewrite <-app_assoc.
Qed.

Definition realised this (plan : list step) (ps : option Pipeline * option Pipeline) : Prop :=
  pipe_or_new ps.1 = incr_pipe this false 0 plan ∧
  pipe_or_new ps.2 = incr_pipe this true 0 plan ∧
  (is_Some ps.2 → is_Some (fx_perSecondClient this)).

Lemma realised_skip this plan ps p :
  realised this plan ps → p_skip p = true → realised this (plan ++ [p]) ps.
Proof.
  intros (H1'&H2'&H3') Hs. unfold realised. rewrite !incr_pipe_snoc.
  unfold selected. by rewrite Hs.
Qed.

Lemma realised_snoc this plan ps p :
  realised this plan ps → p_skip p = false →
  let ext q := Some (pipelineAppend (pipe_or_new q) (ck_Key (p_key p)) (p_hits p)
                       (length plan) (p_exp p)) in
  realised this (plan ++ [p])
    (if uses_per_second this (p_key p) then (ps.1, ext ps.2) else (ext ps.1, ps.2)).
Proof.
  intros (H1'&H2'&H3') Hs ext. unfold realised. rewrite !incr_pipe_snoc.
  unfold selected. rewrite Hs. unfold ext. rewrite H1', H2'.
  destruct (uses_per_second this (p_key p)) eqn:Hu; simpl; [|done].
  split_and!; [done..|]. intros _. unfold uses_per_second in Hu.
  apply andb_true_iff in Hu as [Hu _]. by apply bool_decide_eq_true in Hu.
Qed.

Lemma setup_pipelines_ok this keys limits hits c w :
  keyed (w_heap w) keys limits →
  length (cs_overlimitIndexes c) = length keys → length (cs_nearlimitIndexes c) = length keys →
  b_ExpirationJitterMaxSeconds (fx_baseRateLimiter this) <= 2 ^ 62 →
  wp redis_failure (setup_pipelines this keys limits hits c) w (λ ps w',
    quiet w w' ∧ ∃ plan, length plan = length keys ∧ planned (w_heap w) keys limits hits c plan ∧
      realised this plan ps).
Proof.
  intros [Hlen Hkeyed] Hover Hnear Hjit. unfold setup_pipelines.
  eapply wp_mono; [apply (wp_range redis_failure (λ j ps w', quiet w w' ∧ ∃ plan, length plan = j ∧
    planned (w_heap w) keys limits hits c plan ∧ realised this plan ps))|done].
  { split; [reflexivity|]. exists []. split_and!; [done| |]; [by intros ? ? ?|].
    split_and!; [done..|]. by intros [? [=]]. }
  intros j key [p1 p2] w1 Hj [Hq (plan&<-&Hplan&Hreal)].
  destruct (lookup_lt_is_Some_2 (cs_overlimitIndexes c) (length plan)) as [over Ho];
    [apply lookup_lt_Some in Hj; lia|].
  destruct (lookup_lt_is_Some_2 (cs_nearlimitIndexes c) (length plan)) as [near Hn];
    [apply lookup_lt_Some in Hj; lia|].
  eapply wp_bind_Ret with (a := bool_decide (ck_Key key = "") || over) (w' := w1).
  { case_decide; [by rewrite bool_decide_true|]. rewrite bool_decide_false by done.
    by apply index_Some. }
  destruct (bool_decide (ck_Key key = "") || over) eqn:Hskip.
  { apply wp_ret. split; [done|]. eexists. split_and!; [|eapply (planned_snoc _ _ _ _ _ _ key over near 0)|
      apply realised_skip]; try done; [rewrite length_app; simpl; lia|by rewrite Hskip]. }
  destruct (Hkeyed _ key Hj) as (o&rl&d&Hlim&Hrl&Hd).
  { intros Hk. by rewrite bool_decide_true in Hskip. }
  eapply wp_bind_Ret; [by apply index_Some|].
  eapply wp_bind; [eapply expiration_ok; [|done..]; by rewrite (proj1 Hq)|]. intros s w2 [Hq2 Hs].
  eapply wp_bind_Ret; [by apply index_Some|].
  set (p := mkPlanStep key (bool_decide (ck_Key key = "") || over)
              (if near then hits else cs_hitsAddendForRedis c) s).
  pose proof (realised_snoc this plan (p1, p2) p Hreal Hskip) as Hreal'. simpl in Hreal'.
  eapply wp_mono with (Q := λ ps w', w' = w2 ∧ realised this (plan ++ [p]) ps).
  { destruct (uses_per_second this key); by apply wp_ret. }
  intros ps w3 [-> Hps]. split; [by etransitivity|]. exists (plan ++ [p]).
  split_and!; [rewrite length_app; simpl; lia| |done].
  eapply planned_snoc; [done..|]. intros _ o' rl' d' ? ? ?. simplify_eq. done.
Qed.

(** ** The verdicts *)

Lemma statuses_ok this keys limits hits results c w :
  keyed (w_heap w) keys limits → length results = length keys →
  length (cs_isOverLimitWithLocalCache c) = length keys →
  wp redis_failure (statuses this keys limits hits results c) w
    (after_statuses w keys limits results (cs_isOverLimitWithLocalCache c) (length keys)).
Proof.
  intros Hkeyed Hres Hcached. unfold statuses. set (cached := cs_isOverLimitWithLocalCache c) in *.
  apply (wp_range redis_failure (after_statuses w keys limits results cached));
    [apply after_statuses_nil|].
  intros j key ss w1 Hj Hafter. assert (length ss = j) as <- by apply Hafter.
  pose proof (lookup_lt_Some _ _ _ Hj) as Hlt. destruct Hkeyed as [Hlen Hkeyed].
  destruct (lookup_lt_is_Some_2 results (length ss)) as [r Hr]; [lia|].
  destruct (lookup_lt_is_Some_2 limits (length ss)) as [o Ho]; [lia|].
  destruct (lookup_lt_is_Some_2 cached (length ss)) as [b Hb]; [lia|].
  do 3 (eapply wp_bind_Ret; [by apply index_Some|]; cbv zeta).
  by eapply verdict_round.
Qed.

(** ** What the verdicts add to the statistics *)

(** The additions of descriptor [i], and of the first [j] descriptors. *)
Definition charge this (h : list RateLimit) (keys : list CacheKey) (limits : list (option loc))
    (hits : Z) (results : list Z) (cached : list bool) (i : nat) : list (Counter * Z) :=
  match keys !! i, limits !! i ≫= λ o : option loc, o ≫= λ l : loc, h !! l, results !! i, cached !! i with
  | Some key, Some rl, Some r, Some b =>
      if decide (ck_Key key = "") then []
      else stat_adds (b_nearLimitRatio (fx_baseRateLimiter this)) rl b (u32 (r - hits)) r hits
  | _, _, _, _ => []
  end.

Definition charges this h keys limits hits results cached (j : nat) : list (Counter * Z) :=
  seq 0 j ≫= charge this h keys limits hits results cached.

Lemma charges_S this h keys limits hits results cached j :
  charges this h keys limits hits results cached (S j) =
    charges this h keys limits hits results cached j ++ charge this h keys limits hits results cached j.
Proof. unfold charges. rewrite seq_S, bind_app. simpl. by rewrite app_nil_r. Qed.

Lemma statuses_charged this keys limits hits results c w :
  keyed (w_heap w) keys limits → length results = length keys →
  length (cs_isOverLimitWithLocalCache c) = length keys →
  wp redis_failure (statuses this keys limits hits results c) w (λ _ w',
    w_heap w' = w_heap w ∧ w_counters w' = ctr_adds (charges this (w_heap w) keys limits hits results
      (cs_isOverLimitWithLocalCache c) (length keys)) (w_counters w)).
Proof.
  intros [Hlen Hkeyed] Hres Hcached. unfold statuses. set (cached := cs_isOverLimitWithLocalCache c) in *.
  apply (wp_range redis_failure (λ j (_ : list DescriptorStatus) w', w_heap w' = w_heap w ∧
    w_counters w' = ctr_adds (charges this (w_heap w) keys limits hits results cached j) (w_counters w)));
    [done|].
  intros j key ss w1 Hj [Hh Hctr]. pose proof (lookup_lt_Some _ _ _ Hj) as Hlt.
  destruct (lookup_lt_is_Some_2 results j) as [r Hr]; [lia|].
  destruct (lookup_lt_is_Some_2 limits j) as [o Ho]; [lia|].
  destruct (lookup_lt_is_Some_2 cached j) as [b Hb]; [lia|].
  do 3 (eapply wp_bind_Ret; [by apply index_Some|]; cbv zeta).
  rewrite charges_S, ctr_adds_app, <-Hctr. unfold charge. rewrite Hj, Hr, Ho, Hb. simpl.
  destruct (decide (ck_Key key = "")) as [Hk|Hk].
  - eapply wp_bind_Ret; [unfold GetResponseDescriptorStatus; rewrite decide_True by done; reflexivity|].
    apply wp_ret. by case_match.
  - destruct (Hkeyed _ key Hj Hk) as (o'&rl&d&Ho'&Hrl&Hd). rewrite Ho in Ho'. injection Ho' as <-.
    rewrite Hrl. destruct o as [l|]; simpl in Hrl; [|done].
    eapply wp_bind_Ret; [apply (GetResponseDescriptorStatus_run _ _ _ _ _ _ l rl d); simpl;
      rewrite ?Hh; done|]. by apply wp_ret.
Qed.

(** ** Both pipelines *)

(** The client a key's commands go to; without a per-second client no key
    uses it and its number is a fresh one. *)
Definition client_id this (b : bool) : nat :=
  if b then match fx_perSecondClient this with
            | Some pc => ci_client pc
            | None => S (ci_client (fx_client this))
            end
  else ci_client (fx_client this).

Definition distinct_clients this : Prop := client_id this true ≠ client_id this false.

Lemma both_pipes_count this b k n T plan (e1 e2 e3 : E) rs1 rs2 slots :
  distinct_clients this →
  execs (client_id this false) (incr_pipe this false 0 plan) e1 rs1 e2 →
  execs (client_id this true) (incr_pipe this true 0 plan) e2 rs2 e3 →
  holds (client_id this b) k n T e1 → time e3 < T →
  Forall (λ p, 0 <= p_hits p ∧ (touches this b k p = true → T <= time e1 + p_exp p)) plan →
  0 <= n → n + hits_on this b k plan < 2 ^ 32 → length slots = length plan →
  let results := deliver (incr_pipe this true 0 plan) rs2
                   (deliver (incr_pipe this false 0 plan) rs1 slots) in
  holds (client_id this b) k (n + hits_on this b k plan) T e3 ∧
  ∀ j p, plan !! j = Some p → touches this b k p = true →
    results !! j = Some (n + hits_on this b k (take (S j) plan)).
Proof.
  intros Hdist Hx1 Hx2 Hh HT Hall Hn Hu Hlen results.
  pose proof (execs_time _ _ _ _ _ Hx1). pose proof (execs_time _ _ _ _ _ Hx2).
  destruct b.
  - destruct (incr_pipe_counts this _ true k T plan 0 n e2 rs2 e3
      (deliver (incr_pipe this false 0 plan) rs1 slots) Hx2) as [Hh3 Hres]; try done.
    { eapply execs_other; [done..|]. done. }
    { eapply Forall_impl; [exact Hall|]. intros p [? Hp]. split; [done|].
      intros Ht. specialize (Hp Ht). lia. }
    { rewrite deliver_length. lia. }
  - destruct (incr_pipe_counts this _ false k T plan 0 n e1 rs1 e2 slots Hx1)
      as [Hh2 Hres]; [done|lia|done..|lia|].
    split; [eapply execs_other; [done| |done]; by apply not_eq_sym|].
    intros j p Hj Ht. unfold results. rewrite deliver_other; [by eapply Hres|].
    intros j' p' Hj' Heq. simpl in Heq. subst j'. simplify_eq. unfold touches, selected in *.
    by destruct (uses_per_second this (p_key p)), (p_skip p).
Qed.

(** ** The whole request, phase by phase *)

Definition checks_length (c : checks) (n : nat) : Prop :=
  length (cs_isOverLimitWithLocalCache c) = n ∧ length (cs_overlimitIndexes c) = n ∧
  length (cs_nearlimitIndexes c) = n.

Lemma initial_checks_length n hits : checks_length (initial_checks n hits) n.
Proof. by repeat split; apply length_replicate. Qed.

(** What [DoLimit] does after the checks that left [c]: [e1] is the outside state
    before the increments, [e2] between the two pipelines and [e3] after them;
    [ds] are the additions of the verdicts to the statistics. *)
Definition executed this (h : list RateLimit) (keys : list CacheKey) (limits : list (option loc))
    (hits : Z) (c : checks) (e : E) (ss : list DescriptorStatus) (e' : E) (ds : list (Counter * Z)) : Prop :=
  ∃ plan e1 e2 e3 rs1 rs2,
    undisturbed e e1 ∧ length plan = length keys ∧ planned h keys limits hits c plan ∧
    execs (client_id this false) (incr_pipe this false 0 plan) e1 rs1 e2 ∧
    execs (client_id this true) (incr_pipe this true 0 plan) e2 rs2 e3 ∧
    time e3 <= time e' ∧ (∀ c k, entry c k e' = entry c k e3) ∧
    let results := deliver (incr_pipe this true 0 plan) rs2
                     (deliver (incr_pipe this false 0 plan) rs1 (replicate (length keys) 0)) in
    let cached := cs_isOverLimitWithLocalCache c in
    held_over h keys limits results cached e3 e' ∧
    length ss = length keys ∧ answered h keys limits results cached ss ∧
    ds = charges this h keys limits hits results cached (length keys).

Lemma executed_time this h keys limits hits c e ss e' ds :
  executed this h keys limits hits c e ss e' ds → time e <= time e' ∧ length ss = length keys.
Proof.
  intros (?&?&?&?&?&?&(?&_)&_&_&?%execs_time&?%execs_time&?&_&_&?&_). split; [lia|done].
Qed.

Lemma after_checks_ok this keys limits hits c w :
  keyed (w_heap w) keys limits → checks_length c (length keys) →
  b_ExpirationJitterMaxSeconds (fx_baseRateLimiter this) <= 2 ^ 62 →
  wp redis_failure
    ('(pipeline, perSecondPipeline) ← setup_pipelines this keys limits hits c;
     results ← run_pipeline (Some (fx_client this)) pipeline (replicate (length keys) 0);
     results ← run_pipeline (fx_perSecondClient this) perSecondPipeline results;
     statuses this keys limits hits results c) w (λ ss w',
    w_heap w' = w_heap w ∧ ∃ ds, executed this (w_heap w) keys limits hits c (w_ext w) ss (w_ext w') ds ∧
      w_counters w' = ctr_adds ds (w_counters w)).
Proof.
  intros Hkeyed (Hl1&Hl2&Hl3) Hjit.
  eapply wp_bind; [by apply (setup_pipelines_ok this keys limits hits _ w)|].
  intros [p1 p2] w2 [(Hh2&Hc2&Hu2) (plan&Hpl&Hplan&Hp1&Hp2&Hp2c)]. simpl in Hp1, Hp2, Hp2c.
  eapply wp_bind; [apply (run_pipeline_ok (Some (fx_client this)) (client_id this false)); eauto|].
  intros r1 w3 (Hh3&Hc3&rs1&Hx1&->). rewrite Hp1 in *.
  eapply wp_bind; [apply (run_pipeline_ok (fx_perSecondClient this) (client_id this true));
    intros [pc Hpc]%Hp2c; exists pc; split; [done|]; simpl; by rewrite Hpc|].
  intros r2 w4 (Hh4&Hc4&rs2&Hx2&->). rewrite Hp2 in *.
  assert (w_heap w4 = w_heap w) as Hheap by congruence.
  eapply wp_mono; [apply wp_and; [apply statuses_ok|apply statuses_charged]; simpl;
    by rewrite ?Hheap, ?deliver_length, ?length_replicate|].
  intros ss w5 [(Hh5&Ht5&He5&Hho&Hl5&Hans) [_ Hctr]]. rewrite Hheap in Hho, Hans, Hctr.
  split; [congruence|]. eexists. split.
  - by exists plan, (w_ext w2), (w_ext w3), (w_ext w4), rs1, rs2.
  - rewrite Hctr. f_equal. congruence.
Qed.

(** In the default mode; [e0] is the outside state after the clock was read. *)
Definition local_checks (keys : list CacheKey) (hits : Z) (cached : list bool) : checks :=
  mkChecks cached cached (replicate (length keys) false) hits false.

Definition served this (h : list RateLimit) (keys : list CacheKey) (limits : list (option loc))
    (hits now : Z) (e : E) (ss : list DescriptorStatus) (e' : E) (ds : list (Counter * Z)) : Prop :=
  ∃ cached e0, undisturbed e e0 ∧ now <= time e0 ∧ flags_held keys cached e0 ∧
    executed this h keys limits hits (local_checks keys hits cached) e0 ss e' ds.

Lemma served_time this h keys limits hits now e ss e' ds :
  served this h keys limits hits now e ss e' ds →
  now <= time e' ∧ time e <= time e' ∧ length ss = length keys.
Proof. intros (cached&e0&[? _]&?&_&[? ?]%executed_time). split_and!; [lia|lia|done]. Qed.

(** The conditions under which the limiter works as specified. *)
Definition limiter_ok this : Prop :=
  fx_stopCacheKeyIncrementWhenOverlimit this = false ∧ distinct_clients this ∧
  b_ExpirationJitterMaxSeconds (fx_baseRateLimiter this) <= 2 ^ 62.

Lemma DoLimit_served this req limits w :
  limiter_ok this → request_ok req limits w →
  wp redis_failure (DoLimit this req limits) w (λ ss w',
    w_heap w' = w_heap w ∧ ∃ ds,
    served this (w_heap w) (request_keys (fx_baseRateLimiter this) req limits w) limits (Max 1 (rq_HitsAddend req))
      (unix_now (w_ext w)).1 (w_ext w) ss (w_ext w') ds ∧
    w_counters w' =
      ctr_adds (total_adds (w_heap w) (Max 1 (rq_HitsAddend req)) limits ++ ds) (w_counters w)).
Proof.
  intros (Hstop&Hdist&Hjit) [Hlen Hgood]. set (hits := Max 1 (rq_HitsAddend req)).
  destruct (request_keyed (fx_baseRateLimiter this) req limits w Hlen Hgood) as [Hkeyed Hkl].
  unfold DoLimit. eapply wp_bind_Ret; [by apply GenerateCacheKeys_run|]. fold hits.
  fold (request_keys (fx_baseRateLimiter this) req limits w). rewrite Hstop, <-Hkl.
  set (keys := request_keys (fx_baseRateLimiter this) req limits w) in *.
  destruct (unix_now (w_ext w)) as [now e0] eqn:Hnow. apply law_now in Hnow as [Hu0 Ht0]. simpl.
  set (w0 := mkWorld _ _ e0).
  eapply wp_bind; [by apply (check_local_ok this keys limits hits w0)|].
  intros c w1 [(Hh1&Hc1&Hu1) (cached&Hflags&->)]. simpl in Hflags, Hu1, Hh1, Hc1.
  eapply wp_mono; [apply after_checks_ok; [by rewrite Hh1| |done]|].
  { split_and!; [apply Hflags|apply Hflags|apply length_replicate]. }
  intros ss w5 [Hh5 (ds&Hex&Hctr)]. rewrite Hh1 in Hex. split; [congruence|]. exists ds. split.
  - exists cached, e0. do 2 (split; [done || lia|]). split; [done|].
    destruct Hex as (plan&e1&e2&e3&rs1&rs2&Hu&Hex). exists plan, e1, e2, e3, rs1, rs2.
    split; [by etransitivity|done].
  - rewrite ctr_adds_app, Hctr. f_equal. congruence.
Qed.
End phases.
