(* ===== verification/Simulated.v ===== *)
(** * A simulated outside world

    An in-memory clock, random source, local cache and redis that satisfy the
    laws of [RedisSpec.v]: the laws are consistent, and the theorems proved from
    them can be run on concrete requests. *)

From S2P Require Import Prelude GoStrings World Utils Limiter LimiterSpec CountSpec Redis.
From S2P Require Import RedisSpec.

#[local] Open Scope Z_scope.

Record Sim : Type := mkSim {
  sim_time : Z;
  sim_local : gset string;
  sim_redis : gmap (nat * string) (Z * option Z);
}.

Definition sim_exec (c : nat) (cmd : CmdAction) (s : Sim) : (option string * option Z) * Sim :=
  let o := sim_redis s !! (c, ca_key cmd) in
  let t := sim_time s in
  let set o' := mkSim t (sim_local s) (partial_alter (λ _, o') (c, ca_key cmd) (sim_redis s)) in
  match ca_args cmd with
  | [] =>
      if decide (ca_cmd cmd = "GET") then ((None, if live t o then Some (count_at t o) else None), s)
      else ((Some "ERR unknown command", None), s)
  | [n] =>
      if decide (ca_cmd cmd = "INCRBY") then
        ((None, Some (count_at t o + n)),
         set (Some (count_at t o + n, if live t o then o ≫= snd else None)))
      else if decide (ca_cmd cmd = "EXPIRE") then
        ((None, Some 1), set (if live t o then (λ p, (p.1, Some (t + n))) <$> o else o))
      else ((Some "ERR unknown command", None), s)
  | _ => ((Some "ERR wrong number of arguments", None), s)
  end.

Fixpoint sim_execs (c : nat) (cmds : Pipeline) (s : Sim) : (option string * list (option Z)) * Sim :=
  match cmds with
  | [] => ((None, []), s)
  | cmd :: cmds' =>
      let '((err, r), s1) := sim_exec c cmd s in
      match err with
      | Some msg => ((Some msg, []), s1)
      | None =>
          let '((err', rs), s2) := sim_execs c cmds' s1 in ((err', r :: rs), s2)
      end
  end.

#[export] Instance sim_clock : TimeSource Sim := λ s, (sim_time s, s).
#[export] Instance sim_rand : JitterRand Sim := λ m s, (0, s).
#[export] Instance sim_cache : FreeCache Sim := {|
  fc_Get k s := (bool_decide (k ∈ sim_local s), s);
  fc_Set k d s := (true, mkSim (sim_time s) ({[k]} ∪ sim_local s) (sim_redis s));
|}.
#[export] Instance sim_radix : Radix Sim := λ c a s, sim_execs c (commands a) s.
#[export] Instance sim_view : CountView Sim := {|
  time := sim_time;
  entry c k s := sim_redis s !! (c, k);
  held k s := k ∈ sim_local s;
|}.

Lemma sim_exec_ok c cmd s r s' : sim_exec c cmd s = ((None, r), s') → exec1 c cmd s r s'.
Proof.
  unfold sim_exec, exec1, cmd_effect.
  destruct (ca_args cmd) as [|n [|n' args]]; repeat case_decide; intros [= <- <-]; simpl;
    (split; [lia|]); (split; [done|]); (split; [by intros; rewrite ?lookup_partial_alter_ne by done|]);
    exists (sim_time s); (split; [lia|]); rewrite ?lookup_partial_alter_eq.
  - intros _. split; [done|]. intros _. unfold count_at. by destruct (live _ _).
  - split; [done|]. intros Hc. congruence.
  - split; [congruence|done].
Qed.

Lemma sim_execs_ok c cmds s rs s' : sim_execs c cmds s = ((None, rs), s') → execs c cmds s rs s'.
Proof.
  revert s rs. induction cmds as [|cmd cmds IH]; intros s rs; simpl.
  { intros [= <- <-]. by constructor. }
  destruct (sim_exec c cmd s) as [[[msg|] r] s1] eqn:Hx; [done|].
  destruct (sim_execs c cmds s1) as [[err rs'] s2] eqn:Hxs. intros [= -> <- <-].
  econstructor; [by apply sim_exec_ok|by apply IH].
Qed.

#[export] Instance sim_env_laws : EnvLaws Sim.
Proof.
  split.
  - intros e t e' [= <- <-]. split; [done|simpl; lia].
  - intros m e r e' [= <- <-]. split; [done|lia].
  - intros k e b e' [= <- <-]. split; [done|]. apply bool_decide_eq_true_1.
  - intros k d e b e' [= <- <-]. simpl. split_and!; [lia|done|]. set_solver.
Qed.

#[export] Instance sim_laws : RedisLaws Sim.
Proof.
  split; [apply _| |].
  - intros c cmd e rs e' Hx. apply sim_execs_ok in Hx as Hxs. simpl in Hxs.
    apply execs_cons_inv in Hxs as (r&rs'&e1&->&Hx1&Hnil). inversion Hnil as [? ? Hu|]; subst.
    exists r. split; [done|]. unfold radix_Do, sim_radix in Hx. simpl in Hx.
    destruct (sim_exec c cmd e) as [[[msg|] r0] s1] eqn:Hx0; [done|].
    injection Hx as <- <-. by apply sim_exec_ok.
  - intros c cs e rs e'. apply sim_execs_ok.
Qed.
