(* ===== verification/RedisWindow.v ===== *)
(** * The fixed window

    The abstract specification of a rate limit: within one window, the hits
    attempted on a key add up to a number [S], and a descriptor is over its
    limit exactly when [S], this descriptor's hits included, exceeds the limit.
    [tracked] relates redis and the local cache to that number; one [DoLimit]
    preserves it ([DoLimit_tracks]), hence so does a sequence of requests. *)

From S2P Require Import Prelude GoStrings World Utils Limiter LimiterSpec CountSpec Redis.
From S2P Require Import RedisSpec RedisLimit Simulated.

#[local] Open Scope Z_scope.

(** The hits one request attempts on the key [k]. *)
Definition attempted (k : string) (hits : Z) (keys : list CacheKey) : Z :=
  sumZ ((λ key, if decide (ck_Key key = k) then hits else 0) <$> keys).

Lemma attempted_nonneg k hits keys : 0 <= hits → 0 <= attempted k hits keys.
Proof. intros. apply sumZ_nonneg, Forall_fmap, Forall_true. intros; simpl. case_decide; lia. Qed.

Lemma attempted_take k hits keys j :
  0 <= hits → attempted k hits (take j keys) <= attempted k hits keys.
Proof.
  intros. unfold attempted. rewrite fmap_take. apply sumZ_take_le, Forall_fmap, Forall_true.
  intros; simpl. case_decide; lia.
Qed.

Lemma sum_hits_nonneg hs : 0 <= sumZ (Max 1 <$> hs).
Proof. apply sumZ_nonneg, Forall_fmap, Forall_true. intros; simpl. rewrite Max_max. lia. Qed.

Section tracked.
Context {E : Type} `{RedisLaws E}.
#[local] Abbreviation W := (World E).

(** ** What a plan adds, against what the request attempts *)

Section plan.
Context (this : fixedRateLimitCacheImpl) (h : list RateLimit) (keys : list CacheKey)
  (limits : list (option loc)) (hits : Z) (cached : list bool) (plan : list step)
  (b : bool) (k : string).
Hypothesis Hhits : 0 <= hits.
Hypothesis Hk : k ≠ "".
Hypothesis Hlen : length plan = length keys.
Hypothesis Hplan : planned h keys limits hits (local_checks keys hits cached) plan.
Hypothesis Hclient : ∀ i key, keys !! i = Some key → ck_Key key = k → uses_per_second this key = b.

Lemma plan_step i p :
  plan !! i = Some p → ∃ key flag, keys !! i = Some key ∧ cached !! i = Some flag ∧
    p_key p = key ∧ p_hits p = hits ∧
    touches this b k p = bool_decide (ck_Key key = k) && negb flag.
Proof.
  intros Hi. destruct (Hplan i p Hi) as (key&flag&near&Hkey&Hflag&Hnear&Hp&Hskip&Hh&_).
  simpl in Hflag, Hnear, Hh. apply lookup_replicate in Hnear as [-> _].
  exists key, flag. split_and!; try done. unfold touches, selected. rewrite Hp, Hskip.
  destruct (bool_decide_reflect (ck_Key key = k)) as [Hkk|]; [|by rewrite andb_false_r].
  rewrite bool_decide_false by congruence. rewrite (Hclient i key Hkey Hkk).
  by destruct b, flag.
Qed.

Lemma plan_hits_nonneg : Forall (λ p, 0 <= p_hits p) plan.
Proof.
  apply Forall_lookup_2. intros i p (key&flag&_&_&_&->&_)%plan_step. done.
Qed.

Lemma hits_on_le m : hits_on this b k (take m plan) <= attempted k hits (take m keys).
Proof.
  unfold hits_on, attempted. apply sumZ_le, Forall2_same_length_lookup_2.
  { rewrite !length_fmap, !length_take. lia. }
  intros i x y Hx Hy. rewrite list_lookup_fmap in Hx. rewrite list_lookup_fmap in Hy.
  apply fmap_Some in Hx as (p&Hp&->). apply fmap_Some in Hy as (key&Hkey&->).
  apply lookup_take_Some in Hp as [Hp _]. apply lookup_take_Some in Hkey as [Hkey _].
  destruct (plan_step i p Hp) as (key'&flag&?&_&_&->&->). simplify_eq.
  case_bool_decide; case_decide; destruct flag; simpl; done || lia.
Qed.

Lemma hits_on_exact m :
  (∀ i key, keys !! i = Some key → ck_Key key = k → cached !! i = Some false) →
  hits_on this b k (take m plan) = attempted k hits (take m keys).
Proof.
  intros Hf. unfold hits_on, attempted. f_equal. apply list_eq_same_length with (n := length (take m plan)).
  - rewrite !length_fmap, !length_take. lia.
  - by rewrite length_fmap.
  - intros i x y _ Hx Hy. rewrite list_lookup_fmap in Hx. rewrite list_lookup_fmap in Hy.
    apply fmap_Some in Hx as (p&Hp&->). apply fmap_Some in Hy as (key&Hkey&->).
    apply lookup_take_Some in Hp as [Hp _]. apply lookup_take_Some in Hkey as [Hkey _].
    destruct (plan_step i p Hp) as (key'&flag&?&Hflag&_&->&->). simplify_eq.
    case_bool_decide as Hkk; case_decide; [|done..].
    rewrite (Hf i key) in Hflag by done. by simplify_eq.
Qed.

(** ** The increments keep the key tracked *)

Context (N T S : Z) (e0 e1 e2 e3 : E) (rs1 rs2 : list (option Z)).
Hypothesis Hdist : distinct_clients this.
Hypothesis Hflags : flags_held keys cached e0.
Hypothesis Hquiet : undisturbed e0 e1.
Hypothesis Hx1 : execs (client_id this false) (incr_pipe this false 0 plan) e1 rs1 e2.
Hypothesis Hx2 : execs (client_id this true) (incr_pipe this true 0 plan) e2 rs2 e3.
Hypothesis HT : time e3 < T.
Hypothesis Hexp : ∀ i p, plan !! i = Some p → touches this b k p = true → T <= time e1 + p_exp p.
Hypothesis Htracked : tracked (client_id this b) k N T S e0.
Hypothesis Hfits : S + attempted k hits keys < 2 ^ 32.

#[local] Abbreviation results :=
  (deliver (incr_pipe this true 0 plan) rs2
     (deliver (incr_pipe this false 0 plan) rs1 (replicate (length keys) 0))).

(** The attempts up to and including descriptor [i]. *)
#[local] Abbreviation upto i := (S + attempted k hits (take (Datatypes.S i) keys)).

Lemma increments_tracked :
  ∃ n', holds (client_id this b) k n' T e3 ∧ 0 <= n' <= S + attempted k hits keys ∧
    (n' = S + attempted k hits keys ∨ N < n') ∧ (held k e0 → N < n') ∧
    ∀ i key flag r, keys !! i = Some key → ck_Key key = k → cached !! i = Some flag →
      results !! i = Some r →
      (flag = true ∨ r > N ↔ N < upto i) ∧ (flag = false → r > N → N < n') ∧
      (upto i <= N → r = upto i) ∧
      (flag = false → hits <= r <= upto i ∧ (r = upto i ∨ N < r - hits)).
Proof.
  destruct Htracked as (n&Hn&Hle&Hor&Hheld).
  pose proof (hits_on_le (length plan)) as Hle'. rewrite !take_ge in Hle' by lia.
  destruct (both_pipes_count this b k n T plan e1 e2 e3 rs1 rs2 (replicate (length keys) 0))
    as [Hn' Hres]; [done|done|done|by eapply holds_undisturbed|done| |lia|lia| |].
  { apply Forall_lookup_2. intros i p Hi. split; [|by eapply Hexp].
    exact (Forall_lookup_1 _ _ _ _ plan_hits_nonneg Hi). }
  { by rewrite length_replicate. }
  pose proof (hits_on_nonneg this b k plan plan_hits_nonneg) as Hpos.
  exists (n + hits_on this b k plan).
  assert (∀ i key r, keys !! i = Some key → ck_Key key = k → cached !! i = Some false →
    results !! i = Some r → r = n + hits_on this b k (take (Datatypes.S i) plan) ∧
    hits_on this b k (take (Datatypes.S i) plan) = hits_on this b k (take i plan) + hits) as Hr.
  { intros i key r Hi Hkk Hc Hri. destruct (lookup_lt_is_Some_2 plan i) as [p Hp];
      [apply lookup_lt_Some in Hi; lia|].
    destruct (plan_step i p Hp) as (key'&flag&?&?&_&Hph&Ht). simplify_eq.
    assert (touches this b (ck_Key key) p = true) as Ht' by (rewrite Ht; by rewrite bool_decide_true).
    rewrite (Hres i p Hp Ht') in Hri. injection Hri as <-. split; [done|].
    rewrite (hits_on_last _ _ _ _ _ _ Hp Ht'). congruence. }
  destruct (decide (N < n)) as [HN|HN].
  - split_and!; [done|lia|lia|right; lia|intros; lia|].
    intros i key flag r Hi Hkk Hc Hri.
    pose proof (attempted_nonneg k hits (take (Datatypes.S i) keys) Hhits).
    pose proof (hits_on_nonneg this b k (take i plan) (Forall_take _ _ _ plan_hits_nonneg)).
    pose proof (hits_on_le (Datatypes.S i)).
    destruct flag; [split_and!; [split; [lia|by left]|done|lia|done]|].
    destruct (Hr i key r Hi Hkk Hc Hri) as [-> Hlast]. split_and!; [split; [lia|]|lia..]. right. lia.
  - assert (n = S) as -> by (destruct Hor; [done|lia]).
    assert (¬ held k e0) as Hnh by (intros Hk'; specialize (Hheld Hk'); lia).
    assert (∀ i key, keys !! i = Some key → ck_Key key = k → cached !! i = Some false) as Hfalse.
    { intros i key Hi Hkk. destruct (lookup_lt_is_Some_2 cached i) as [[] Hc];
        [destruct Hflags; apply lookup_lt_Some in Hi; lia| |done].
      destruct Hflags as [_ Hf]. destruct (Hf i key Hi Hc) as [_ Hhe]. by rewrite Hkk in Hhe. }
    pose proof (hits_on_exact (length plan) Hfalse) as Hex. rewrite !take_ge in Hex by lia.
    rewrite Hex in Hn', Hpos |- *. split_and!; [done|lia|lia|by left|done|].
    intros i key flag r Hi Hkk Hc Hri. rewrite (Hfalse i key) in Hc by done.
    injection Hc as <-.
    destruct (Hr i key r Hi Hkk (Hfalse i key Hi Hkk) Hri) as [-> Hlast].
    pose proof (hits_on_nonneg this b k (take i plan) (Forall_take _ _ _ plan_hits_nonneg)).
    rewrite hits_on_exact in Hlast |- * by done.
    pose proof (attempted_take k hits keys (Datatypes.S i) Hhits).
    split_and!; [split; [intros [?|?]; [done|lia]|right; lia]|lia..|].
    intros _. split; [|by left]. lia.
Qed.
End plan.

(** ** One request *)

(** The key [k] belongs to limits of [N] per window, counted by the client
    [client_id this b], in a window that ends at [T]. *)
Definition watched this (b : bool) (k : string) (N T now : Z) (keys : list CacheKey)
    (limits : list (option loc)) (h : list RateLimit) : Prop :=
  k ≠ "" ∧ ∀ i key, keys !! i = Some key → ck_Key key = k →
    uses_per_second this key = b ∧
    ∃ l rl d, limits !! i = Some (Some l) ∧ h !! l = Some rl ∧
      unit_seconds (pl_Unit (rl_Limit rl)) = Some d ∧
      pl_RequestsPerUnit (rl_Limit rl) = N ∧ T <= now + d.

(** The verdict on every descriptor of the key is that of the abstract
    window. *)
Definition window_verdicts (k : string) (N S hits : Z) (keys : list CacheKey)
    (limits : list (option loc)) (h : list RateLimit) (ss : list DescriptorStatus) : Prop :=
  ∀ i key, keys !! i = Some key → ck_Key key = k →
    ∃ l rl s, limits !! i = Some (Some l) ∧ h !! l = Some rl ∧ ss !! i = Some s ∧
      let total := S + attempted k hits (take (Datatypes.S i) keys) in
      st_Code s = (if bool_decide (total > N) && negb (rl_ShadowMode rl)
                   then Code_OVER_LIMIT else Code_OK) ∧
      st_CurrentLimit s = Some (rl_Limit rl) ∧ st_LimitRemaining s = Z.max 0 (N - total).

Lemma planned_exp h keys limits hits cached plan this b k N T now i p :
  planned h keys limits hits (local_checks keys hits cached) plan →
  watched this b k N T now keys limits h → plan !! i = Some p → touches this b k p = true →
  T <= now + p_exp p.
Proof.
  intros Hplan [_ Hw] Hi Ht. destruct (Hplan i p Hi) as (key&flag&near&Hkey&_&_&Hp&_&_&He).
  unfold touches, selected in Ht. apply andb_true_iff in Ht as [Ht Hk%bool_decide_eq_true].
  apply andb_true_iff in Ht as [Hs%negb_true_iff _]. rewrite Hp in Hk.
  destruct (Hw i key Hkey Hk) as (_&l&rl&d&Hl&Hrl&Hd&_&HT).
  specialize (He Hs (Some l) rl d Hl Hrl Hd). lia.
Qed.

Lemma answered_verdicts this h keys limits hits cached results ss b k N T S now :
  watched this b k N T now keys limits h → is_u32 N → 0 <= S → 0 <= hits →
  length ss = length keys → answered h keys limits results cached ss →
  (∀ i key flag r, keys !! i = Some key → ck_Key key = k → cached !! i = Some flag →
     results !! i = Some r → let total := S + attempted k hits (take (Datatypes.S i) keys) in
     (flag = true ∨ r > N ↔ N < total) ∧ (total <= N → r = total)) →
  window_verdicts k N S hits keys limits h ss.
Proof.
  intros [Hne Hw] HN HS Hh Hlen Hans Hver i key Hi Hk.
  destruct (Hw i key Hi Hk) as (_&l&rl&d&Hl&Hrl&_&HNl&_).
  destruct (lookup_lt_is_Some_2 ss i) as [s Hs]; [apply lookup_lt_Some in Hi; lia|].
  exists l, rl, s. split_and!; try done.
  destruct (Hans i s Hs) as [(?&?&?&_)|(key'&rl'&r&flag&reset&Hj&->)]; [congruence|].
  destruct Hj as (?&_&(l'&?&?)&Hr&Hflag). simplify_eq.
  destruct (Hver i key flag r Hi eq_refl Hflag Hr).
  pose proof (attempted_nonneg (ck_Key key) hits (take (Datatypes.S i) keys) Hh).
  apply status_of_window; done || lia.
Qed.

(** The statistics of the key's limits grow by the account of the abstract
    window. *)
Definition window_charges this (k : string) (N S hits : Z) (keys : list CacheKey)
    (limits : list (option loc)) (h : list RateLimit) (ds : list (Counter * Z)) : Prop :=
  ∃ results cached, ds = charges this h keys limits hits results cached (length keys) ∧
  ∀ i key, keys !! i = Some key → ck_Key key = k →
    ∃ l rl (flag : bool), limits !! i = Some (Some l) ∧ h !! l = Some rl ∧
      let u := S + attempted k hits (take i keys) in
      (flag = true → N < u) ∧
      ∀ c, adds_to c (charge this h keys limits hits results cached i) =
        window_account (b_nearLimitRatio (fx_baseRateLimiter this)) rl 0 u hits (if flag then hits else 0)
          (if bool_decide (u + hits > N) then 0 else hits) c.

Lemma attempted_take_S k hits keys i key :
  keys !! i = Some key → ck_Key key = k →
  attempted k hits (take (S i) keys) = attempted k hits (take i keys) + hits.
Proof.
  intros Hi Hk. rewrite (take_S_lookup _ _ _ Hi). unfold attempted. rewrite fmap_app, sumZ_app.
  cbn [fmap list_fmap]. rewrite decide_True by done. rewrite sumZ_cons. change (sumZ []) with 0. lia.
Qed.

Lemma charges_window this h keys limits hits cached results b k N T S now :
  watched this b k N T now keys limits h → is_u32 N → 0 <= S → 0 < hits →
  near_threshold (b_nearLimitRatio (fx_baseRateLimiter this)) N <= N →
  S + attempted k hits keys < 2 ^ 32 → length cached = length keys → length results = length keys →
  (∀ i key flag r, keys !! i = Some key → ck_Key key = k → cached !! i = Some flag →
     results !! i = Some r → let total := S + attempted k hits (take (Datatypes.S i) keys) in
     (flag = true → N < S) ∧ (flag = false → hits <= r <= total ∧ (r = total ∨ N < r - hits))) →
  window_charges this k N S hits keys limits h (charges this h keys limits hits results cached (length keys)).
Proof.
  intros [Hne Hw] HN HS Hh Hnear Hfits Hlc Hlr Hver. exists results, cached. split; [done|].
  intros i key Hi Hk. destruct (Hw i key Hi Hk) as (_&l&rl&d&Hl&Hrl&_&HNl&_).
  pose proof (lookup_lt_Some _ _ _ Hi) as Hlt.
  destruct (lookup_lt_is_Some_2 cached i) as [flag Hflag]; [lia|].
  destruct (lookup_lt_is_Some_2 results i) as [r Hr]; [lia|].
  exists l, rl, flag. do 2 (split; [done|]). cbv zeta.
  destruct (Hver i key flag r Hi Hk Hflag Hr) as [Hheld Hcount].
  rewrite (attempted_take_S _ _ _ _ _ Hi Hk) in Hcount.
  pose proof (attempted_nonneg k hits (take i keys) ltac:(lia)).
  pose proof (attempted_take k hits keys (Datatypes.S i) ltac:(lia)) as Hle.
  rewrite (attempted_take_S _ _ _ _ _ Hi Hk) in Hle.
  split; [intros ?%Hheld; lia|]. intros c. unfold charge. rewrite Hi, Hl, Hr, Hflag. simpl. rewrite Hrl.
  rewrite decide_False by congruence.
  rewrite (stat_adds_window _ _ _ (S + attempted k hits (take i keys))); rewrite ?HNl; try done; try lia.
  - intros ->. specialize (Hheld eq_refl). lia.
  - intros ->. destruct (Hcount eq_refl) as [? Hor]. split; [lia|]. destruct Hor; [left|right]; lia.
Qed.

Lemma served_tracks this h keys limits hits now e ss e' ds b k N T S :
  served this h keys limits hits now e ss e' ds → distinct_clients this →
  watched this b k N T now keys limits h → is_u32 N → 0 <= hits → 0 <= S →
  tracked (client_id this b) k N T S e → S + attempted k hits keys < 2 ^ 32 → time e' < T →
  tracked (client_id this b) k N T (S + attempted k hits keys) e' ∧
  window_verdicts k N S hits keys limits h ss ∧
  (0 < hits → near_threshold (b_nearLimitRatio (fx_baseRateLimiter this)) N <= N →
   window_charges this k N S hits keys limits h ds).
Proof.
  intros (cached&e0&Hu0&Hnow&Hflags&plan&e1&e2&e3&rs1&rs2&Hu1&Hpl&Hplan&Hx1&Hx2&Ht&He&Hho&Hl&Hans&->)
    Hdist Hwatch HN Hhits HS Htr Hfits HT.
  destruct (increments_tracked this h keys limits hits cached plan b k Hhits (proj1 Hwatch) Hpl Hplan)
    with N T S e0 e1 e2 e3 rs1 rs2 as (n'&Hn'&Hb&Hor&Hheld&Hver); try done; [| | |by eapply tracked_undisturbed|].
  { intros i key Hi Hk. by apply (proj2 Hwatch i key). }
  { lia. }
  { intros i p Hi Htc. pose proof (planned_exp _ _ _ _ _ _ _ _ _ _ _ _ _ _ Hplan Hwatch Hi Htc).
    destruct Hu1. lia. }
  split; [|split].
  - exists n'. split; [unfold holds; by rewrite He|]. split_and!; [lia..|done|].
    intros [Hk|(i&key&rl&r&(Hi&_&(l&?&?)&Hr&Hf)&Hk&Hover)]%Hho.
    + apply Hheld. apply Hu1. eapply execs_held; [exact Hx1|]. by eapply execs_held.
    + destruct (proj2 Hwatch i key Hi Hk) as (_&l'&rl'&d&?&?&_&HNl&_). simplify_eq.
      by eapply (Hver i key false r).
  - eapply answered_verdicts; try done. intros i key flag r Hi Hk Hf Hr.
    destruct (Hver i key flag r Hi Hk Hf Hr) as (?&_&?&_). done.
  - intros Hpos Hnear. eapply charges_window; try done; [apply Hflags| |].
    { by rewrite !deliver_length, length_replicate. }
    intros i key flag r Hi Hk Hf Hr. destruct (Hver i key flag r Hi Hk Hf Hr) as (_&_&_&?).
    split; [|done]. intros ->. destruct Hflags as [_ Hheld0]. destruct (Hheld0 i key Hi Hf) as [_ Hhk].
    destruct (tracked_undisturbed _ _ _ _ _ _ _ Hu0 Htr) as (n&_&?&_&Hn). rewrite Hk in Hhk.
    specialize (Hn Hhk). lia.
Qed.

(** ** A sequence of requests for one descriptor *)

Fixpoint serve this (domain : string) (desc : Descriptor) (l : loc) (hs : list Z)
  : M W (list (list DescriptorStatus)) :=
  match hs with
  | [] => mret []
  | h :: hs' =>
      ss ← DoLimit this (mkRequest domain [desc] h) [Some l];
      sss ← serve this domain desc l hs';
      mret (ss :: sss)
  end.

(** The hits of the requests answered within the limit, on top of [S]. *)
Fixpoint within_hits (N S : Z) (hs : list Z) : Z :=
  match hs with
  | [] => 0
  | h :: hs' => (if bool_decide (S + Max 1 h > N) then 0 else Max 1 h) + within_hits N (S + Max 1 h) hs'
  end.

Section sequence.
Context (this : fixedRateLimitCacheImpl) (domain : string) (desc : Descriptor) (l : loc)
  (rl : RateLimit) (d ws : Z).
Hypothesis Hok : limiter_ok this.
Hypothesis Hd : unit_seconds (pl_Unit (rl_Limit rl)) = Some d.
Hypothesis HN : is_u32 (pl_RequestsPerUnit (rl_Limit rl)).
(** [ws] starts a window. *)
Hypothesis Hws : 0 <= ws ∧ window_start ws d = ws.

#[local] Abbreviation window_key :=
  (window_key (fx_baseRateLimiter this) domain desc rl ws).
#[local] Abbreviation tracked_window :=
  (tracked (client_id this (uses_per_second this window_key)) (ck_Key window_key)
     (pl_RequestsPerUnit (rl_Limit rl)) (ws + d)).
#[local] Abbreviation N := (pl_RequestsPerUnit (rl_Limit rl)).
#[local] Abbreviation ratio := (b_nearLimitRatio (fx_baseRateLimiter this)).
#[local] Abbreviation near_ok := (near_threshold ratio N <= N).
#[local] Abbreviation account := (window_account ratio rl).

Lemma request_keys_window h (w : W) :
  w_heap w !! l = Some rl → ws <= (unix_now (w_ext w)).1 < ws + d →
  request_keys (fx_baseRateLimiter this) (mkRequest domain [desc] h) [Some l] w = [window_key].
Proof.
  intros Hl Ht. unfold request_keys; simpl. f_equal. unfold cache_key_of; simpl.
  rewrite Hl, Hd; simpl. destruct Hws. by erewrite window_start_in.
Qed.

Lemma window_charges_single h S hits ds :
  h !! l = Some rl → window_charges this (ck_Key window_key) N S hits [window_key] [Some l] h ds →
  ∃ local, (local = 0 ∨ local = hits ∧ N < S) ∧
    ∀ c, adds_to c ds = account 0 S hits local (if bool_decide (S + hits > N) then 0 else hits) c.
Proof.
  intros Hl (results&cached&->&Hch).
  destruct (Hch 0%nat window_key eq_refl eq_refl) as (l'&rl'&flag&[= <-]&Hrl'&Hflag&Hadds).
  rewrite Hl in Hrl'. injection Hrl' as <-. change (attempted _ hits (take 0 _)) with 0 in Hflag, Hadds.
  rewrite Z.add_0_r in Hflag, Hadds. exists (if flag then hits else 0). split.
  - destruct flag; [right; split; [done|by apply Hflag]|by left].
  - intros c. rewrite <-Hadds. unfold charges. simpl. by rewrite app_nil_r.
Qed.

Lemma served_single h hits now (e e' : E) ss ds S :
  served this h [window_key] [Some l] hits now e ss e' ds → h !! l = Some rl → ws <= now →
  0 <= hits → 0 <= S → S + hits < 2 ^ 32 → time e' < ws + d → tracked_window S e →
  tracked_window (S + hits) e' ∧ (∃ s, ss = [s] ∧
    let N := pl_RequestsPerUnit (rl_Limit rl) in
    st_Code s = (if bool_decide (S + hits > N) && negb (rl_ShadowMode rl)
                 then Code_OVER_LIMIT else Code_OK) ∧
    st_CurrentLimit s = Some (rl_Limit rl) ∧ st_LimitRemaining s = Z.max 0 (N - (S + hits))) ∧
  (0 < hits → near_ok → ∃ local, (local = 0 ∨ local = hits ∧ N < S) ∧
     ∀ c, adds_to c ds = account 0 S hits local (if bool_decide (S + hits > N) then 0 else hits) c).
Proof.
  intros Hserved Hl Hnow Hhits HS Hfits HT Htr.
  assert (attempted (ck_Key window_key) hits [window_key] = hits) as Hatt.
  { unfold attempted, sumZ; simpl. rewrite decide_True by done. lia. }
  destruct (served_tracks _ _ _ _ _ _ _ _ _ _ (uses_per_second this window_key) (ck_Key window_key)
    (pl_RequestsPerUnit (rl_Limit rl)) (ws + d) S Hserved) as (Htr'&Hver&Hch);
    try done; [apply Hok| |by rewrite Hatt|].
  { split; [apply key_stem_ne|]. intros [|i] key Hi _; [|done]. injection Hi as <-.
    split; [done|]. exists l, rl, d. split_and!; done || lia. }
  rewrite Hatt in Htr'. split; [done|]. split; [|intros Hpos Hnear; eapply window_charges_single; [done|by apply Hch]].
  destruct (Hver 0%nat window_key eq_refl eq_refl) as (l'&rl'&s&Hl'&Hrl'&Hs&Hv).
  injection Hl' as <-. rewrite Hl in Hrl'. injection Hrl' as <-.
  change (take 1 [window_key]) with [window_key] in Hv. rewrite Hatt in Hv.
  apply served_time in Hserved as (_&_&Hlen).
  destruct ss as [|s0 [|]]; [done| |done]. injection Hs as ->. eauto.
Qed.

(** The statistics after the requests [hs], on top of [S] hits. *)
Definition statistics_grow (S : Z) (hs : list Z) (w w' : W) : Prop :=
  let total := sumZ (Max 1 <$> hs) in
  ∃ local, 0 <= local <= hits_over N S (S + total) ∧
    grown w w' (account total S total local (within_hits N S hs)).

Lemma statistics_grow_nil S w : statistics_grow S [] w w.
Proof.
  exists 0. split; [unfold hits_over, hits_between; simpl; lia|]. intros c. simpl.
  by rewrite window_account_0, Z.add_0_r.
Qed.

Lemma statistics_grow_cons S h hs w w1 w2 ds local :
  w_heap w !! l = Some rl → sumZ (Max 1 <$> (h :: hs)) < 2 ^ 32 →
  w_counters w1 = ctr_adds (total_adds (w_heap w) (Max 1 h) [Some l] ++ ds) (w_counters w) →
  (local = 0 ∨ local = Max 1 h ∧ N < S) →
  (∀ c, adds_to c ds =
     account 0 S (Max 1 h) local (if bool_decide (S + Max 1 h > N) then 0 else Max 1 h) c) →
  statistics_grow (S + Max 1 h) hs w1 w2 → statistics_grow S (h :: hs) w w2.
Proof.
  intros Hl Hfits Hctr Hlocal Hds (local'&Hlocal'&Hgrow).
  assert (1 <= Max 1 h) as Hpos by (rewrite Max_max; lia). pose proof (sum_hits_nonneg hs) as Hsum.
  rewrite fmap_cons, sumZ_cons in Hfits. unfold hits_over, hits_between in Hlocal'.
  exists (local + local'). rewrite fmap_cons, sumZ_cons.
  split; [unfold hits_over, hits_between; lia|].
  eapply grown_ext; [by eapply grown_trans; [apply grown_adds|]|].
  intros c. simpl. rewrite adds_to_app, Hds. unfold total_adds. simpl. rewrite Hl. simpl.
  rewrite u64_small by word. rewrite window_account_total. apply window_account_add; lia.
Qed.

Lemma serve_ok hs : ∀ w : W,
  w_heap w !! l = Some rl → ws <= time (w_ext w) →
  wp redis_failure (serve this domain desc l hs) w (λ sss w',
    time (w_ext w) <= time (w_ext w') ∧
    ∀ S, 0 <= S → tracked_window S (w_ext w) → S + sumZ (Max 1 <$> hs) < 2 ^ 32 →
      time (w_ext w') < ws + d → window_answers rl S hs sss ∧ (near_ok → statistics_grow S hs w w')).
Proof.
  induction hs as [|h hs IH]; intros w Hl Hw; cbn [serve].
  { apply wp_ret. split; [lia|]. intros. split; [by split; [|simpl; lia]|].
    intros _. apply statistics_grow_nil. }
  eapply wp_bind; [apply DoLimit_served; [done|split; [done|]; constructor; [|done]; simpl; eauto]|].
  intros ss w1 [Hh1 (ds&Hserved&Hctr)].
  assert (time (w_ext w) <= (unix_now (w_ext w)).1 <= time (w_ext w1) ∧
          time (w_ext w) <= time (w_ext w1)) as [Hnow Ht1].
  { destruct (unix_now (w_ext w)) as [now e0] eqn:En. apply law_now in En as [_ ?].
    apply served_time in Hserved as (?&?&_). simpl in *. lia. }
  eapply wp_bind; [apply IH; [by rewrite Hh1|lia]|]. intros sss w2 [Ht2 Hrest].
  apply wp_ret. split; [lia|]. intros S HS Htr Hfits HT.
  rewrite request_keys_window in Hserved by (done || lia). cbn [rq_HitsAddend] in Hserved, Hctr.
  pose proof (sum_hits_nonneg hs). assert (0 < Max 1 h) by (rewrite Max_max; lia).
  pose proof Hfits as Hfits'. rewrite fmap_cons, sumZ_cons in Hfits'.
  destruct (served_single _ _ _ _ _ _ _ S Hserved) as (Htr'&(s&->&Hs)&Hch); [done|lia..|done|].
  destruct (Hrest (S + Max 1 h)) as [Hans Hgrow]; [lia|done|lia|done|]. split.
  - by apply window_answers_cons.
  - intros Hnear. destruct Hch as (local&Hlocal&Hds); [done..|].
    eapply statistics_grow_cons; [done| |done..|by apply Hgrow]. lia.
Qed.
End sequence.
End tracked.

(** C11: one request against redis, with any number of descriptors, in either
    pipelining mode, with or without a per-second client and local cache.  If
    [S] hits were attempted on a key in its window so far, then after [DoLimit]
    it is [S] plus the request's hits on that key, and each of the key's
    descriptors is answered by the running total: OVER_LIMIT exactly when the
    total passes the limit outside shadow mode, with the remaining quota.
    [DoLimit] returns unless redis reports an error; the error is then its
    panic, and there is no other. *)
Theorem DoLimit_window `{RedisLaws E} this req limits (w : World E) b k N T S :
  let hits := Max 1 (rq_HitsAddend req) in
  let keys := request_keys (fx_baseRateLimiter this) req limits w in
  limiter_ok this → request_ok req limits w →
  watched this b k N T (unix_now (w_ext w)).1 keys limits (w_heap w) →
  is_u32 N → 0 <= S → S + attempted k hits keys < 2 ^ 32 →
  tracked (client_id this b) k N T S (w_ext w) →
  wp redis_failure (DoLimit this req limits) w (λ ss w',
    w_heap w' = w_heap w ∧ length ss = length limits ∧
    (time (w_ext w') < T →
     tracked (client_id this b) k N T (S + attempted k hits keys) (w_ext w') ∧
     window_verdicts k N S hits keys limits (w_heap w) ss)).
Proof.
  intros hits keys Hok Hreq Hwatch HN HS Hfits Htr.
  eapply wp_mono; [by apply DoLimit_served|]. intros ss w' [Hh (ds&Hserved&_)]. split_and!; [done| |].
  - destruct (request_keyed (fx_baseRateLimiter this) req limits w (proj1 Hreq) (proj2 Hreq)) as [[Hl _] _].
    apply served_time in Hserved as (_&_&Hlen). congruence.
  - intros HT. edestruct served_tracks as (Htr'&Hver&_); [exact Hserved|apply Hok|done..| |done|done|done|done|].
    { rewrite Max_max. lia. } done.
Qed.

(** C1: the fixed window promise.  From a fresh key, a sequence of requests for
    one descriptor that finishes within the window is answered exactly by the
    running total of hits: request [j] gets OVER_LIMIT if and only if the hits of
    requests [0..j] exceed the limit (outside shadow mode), and the remaining
    quota otherwise.  The local cache, the jitter, the pipelining mode and the
    choice of client make no difference. *)
Theorem DoLimit_admission `{RedisLaws E} this domain desc l rl d ws (hs : list Z) (w : World E) :
  let key := window_key (fx_baseRateLimiter this) domain desc rl ws in
  limiter_ok this → w_heap w !! l = Some rl → unit_seconds (pl_Unit (rl_Limit rl)) = Some d →
  is_u32 (pl_RequestsPerUnit (rl_Limit rl)) → sumZ (Max 1 <$> hs) < 2 ^ 32 →
  0 <= ws <= time (w_ext w) → window_start ws d = ws →
  entry (client_id this (uses_per_second this key)) (ck_Key key) (w_ext w) = None →
  ¬ held (ck_Key key) (w_ext w) →
  wp redis_failure (serve this domain desc l hs) w (λ sss w',
    time (w_ext w') < ws + d → window_answers rl 0 hs sss).
Proof.
  intros key Hok Hl Hd HN Hfits Hws Hwin Hentry Hheld.
  eapply wp_mono; [eapply (serve_ok this domain desc l rl d ws); done || lia|].
  intros sss w' [_ Hans] HT. apply (Hans 0); [lia| |lia|done]. by apply tracked_fresh.
Qed.

(** ** On the simulated redis *)

Definition sim_limiter : fixedRateLimitCacheImpl :=
  NewFixedRateLimitCacheImpl (mkClient 0 true) (Some (mkClient 1 false)) 300 true ratio_default ""
    false.

(** Two limits, 5 and 10 per minute, at 100 seconds into the epoch. *)
Definition sim_start : World Sim :=
  mkWorld
    [mkRateLimit "d.a" (rl_Stats example_rl) (mkPbRateLimit 5 MINUTE "") false false "" [] false;
     example_rl] ∅ (mkSim 100 ∅ ∅).

Definition sim_desc : Descriptor := mkDescriptor [mkEntry "a" "x"] None.

(** The run returned, at a time before [T]. *)
Definition returned_before {A} (T : Z) (r : outcome A * World Sim) : bool :=
  match r with
  | (Ret _, w') => time (w_ext w') <? T
  | _ => false
  end.

Lemma sim_limiter_ok : limiter_ok sim_limiter.
Proof. by split_and!. Qed.

(** Five requests of two hits each against five per minute: the third and all
    later ones are over the limit, the fourth and fifth known from the local
    cache. *)
Lemma DoLimit_admission_witness :
  ∃ sss w', serve sim_limiter "d" sim_desc 0%nat [2; 2; 2; 2; 2] sim_start = (Ret sss, w') ∧
    map (map st_Code) sss =
      [[Code_OK]; [Code_OK]; [Code_OVER_LIMIT]; [Code_OVER_LIMIT]; [Code_OVER_LIMIT]].
Proof.
  pose proof (DoLimit_admission sim_limiter "d" sim_desc 0%nat
    (mkRateLimit "d.a" (rl_Stats example_rl) (mkPbRateLimit 5 MINUTE "") false false "" [] false)
    60 60 [2; 2; 2; 2; 2] sim_start sim_limiter_ok eq_refl eq_refl ltac:(by vm_compute) ltac:(by vm_compute)
    ltac:(by vm_compute) eq_refl eq_refl ltac:(by vm_compute)) as Hans.
  assert (returned_before 120 (serve sim_limiter "d" sim_desc 0%nat [2; 2; 2; 2; 2] sim_start) = true)
    as Hret by (vm_compute; reflexivity).
  unfold wp in Hans. revert Hans Hret.
  destruct (serve sim_limiter "d" sim_desc 0%nat [2; 2; 2; 2; 2] sim_start) as [[sss|p|c] w'];
    [|intros _ [=]..]. intros Hans Ht%Z.ltb_lt.
  destruct (Hans Ht) as [Hlen Hj]. exists sss, w'. split; [reflexivity|]. clear Hans Ht.
  destruct (Hj 0%nat) as (s0&H0&Hc0&_); [simpl; lia|]. destruct (Hj 1%nat) as (s1&H1&Hc1&_); [simpl; lia|].
  destruct (Hj 2%nat) as (s2&H2&Hc2&_); [simpl; lia|]. destruct (Hj 3%nat) as (s3&H3&Hc3&_); [simpl; lia|].
  destruct (Hj 4%nat) as (s4&H4&Hc4&_); [simpl; lia|].
  do 6 (destruct sss as [|? sss]; try done). simplify_eq/=. by rewrite Hc0, Hc1, Hc2, Hc3, Hc4.
Defined.

(** A request with two descriptors under the same limit and one without a
    limit, four hits in before it. *)
Definition sim_request : RateLimitRequest :=
  mkRequest "d" [sim_desc; mkDescriptor [] None; sim_desc] 1.

Definition sim_limits : list (option loc) := [Some 0%nat; None; Some 0%nat].

Definition sim_busy : World Sim :=
  mkWorld (w_heap sim_start) ∅ (mkSim 100 ∅ {[ (0%nat, "d_a_x_60") := (4, Some 130) ]}).

Lemma DoLimit_window_witness :
  ∃ ss w', DoLimit sim_limiter sim_request sim_limits sim_busy = (Ret ss, w') ∧
    window_verdicts "d_a_x_60" 5 4 1 (request_keys (fx_baseRateLimiter sim_limiter) sim_request sim_limits sim_busy)
      sim_limits (w_heap sim_busy) ss.
Proof.
  assert (request_ok sim_request sim_limits sim_busy) as Hreq.
  { split; [done|]. by repeat (constructor; try (by eexists _, _)). }
  assert (watched sim_limiter false "d_a_x_60" 5 120 100
    (request_keys (fx_baseRateLimiter sim_limiter) sim_request sim_limits sim_busy) sim_limits (w_heap sim_busy)) as Hw.
  { split; [done|]. intros [|[|[|i]]] key Hi Hk; simplify_eq/=; try done;
      (split; [by vm_compute|]); by eexists 0%nat, _, 60; split_and!. }
  assert (tracked (client_id sim_limiter false) "d_a_x_60" 5 120 4 (w_ext sim_busy)) as Htr.
  { exists 4. split; [by vm_compute|]. split_and!; [lia|lia|by left|]. intros Hh. exfalso.
    change ("d_a_x_60" ∈ (∅ : gset string)) in Hh. by apply not_elem_of_empty in Hh. }
  pose proof (DoLimit_window sim_limiter sim_request sim_limits sim_busy false "d_a_x_60" 5 120 4
    sim_limiter_ok Hreq Hw ltac:(by vm_compute) ltac:(lia) ltac:(by vm_compute) Htr) as Hans.
  assert (returned_before 120 (DoLimit sim_limiter sim_request sim_limits sim_busy) = true)
    as Hret by (vm_compute; reflexivity).
  unfold wp in Hans. revert Hans Hret.
  destruct (DoLimit sim_limiter sim_request sim_limits sim_busy) as [[ss|p|c] w'];
    [|intros _ [=]..]. intros (_&_&Hans) Ht%Z.ltb_lt. exists ss, w'. split; [reflexivity|].
  by apply Hans.
Defined.
