(* ===== verification/RedisStats.v ===== *)
(** * The statistics of a limit over a window

    The six statistics of a rate limit after a sequence of requests to the redis
    limiter, in closed form: they depend on the total of hits alone, and not on
    how it was split into requests, nor (but for its own statistic) on what the
    local cache answered. *)

From S2P Require Import Prelude GoStrings World Utils Stats Limiter LimiterSpec CountSpec Redis.
From S2P Require Import RedisSpec RedisLimit Simulated RedisWindow.

#[local] Open Scope Z_scope.

Lemma within_hits_bounds N hs : ∀ S,
  0 <= within_hits N S hs ∧
  within_hits N S hs <= Z.max 0 (N - S) ∧
  within_hits N S hs + hits_over N S (S + sumZ (Max 1 <$> hs)) <= sumZ (Max 1 <$> hs).
Proof.
  induction hs as [|h hs IH]; intros S; cbn [within_hits].
  - unfold hits_over, hits_between. simpl. lia.
  - rewrite fmap_cons, sumZ_cons. pose proof (sum_hits_nonneg hs).
    assert (0 < Max 1 h) by (rewrite Max_max; lia). destruct (IH (S + Max 1 h)) as (IH1&IH2&IH3).
    unfold hits_over, hits_between in *. case_bool_decide; lia.
Qed.

(** What one of the six handles gains, when they are handles of distinct
    counters. *)
Lemma accounted_each s t o n l i h :
  NoDup (stats_counters s) →
  (λ c, accounted s c t o n l i h) <$> stats_counters s = [t; o; n; l; i; h].
Proof.
  unfold stats_counters. rewrite !NoDup_cons, !elem_of_cons.
  intros. assert (∀ P Q, ¬ (P ∨ Q) → ¬ P ∧ ¬ Q) as Hor by tauto.
  repeat match goal with
  | H : _ ∧ _ |- _ => destruct H
  | H : ¬ (_ ∨ _) |- _ => apply Hor in H
  end.
  cbn [fmap list_fmap]. unfold accounted. sum_adds.
  repeat match goal with
  | |- context [decide (?a = ?b)] => destruct (decide (a = b)); [try congruence|try congruence]
  end.
  repeat (apply (f_equal2 cons); [lia|]). done.
Qed.

Lemma accounted_gains (gain : Counter → Z) s t o n l i h :
  NoDup (stats_counters s) → Forall is_u64 [t; o; n; l; i; h] →
  (∀ c, gain c = u64 (accounted s c t o n l i h)) →
  gain <$> stats_counters s = [t; o; n; l; i; h] ∧ ∀ c, c ∉ stats_counters s → gain c = 0.
Proof.
  intros Hnd Hu Hgain. split.
  - rewrite <-(accounted_each s t o n l i h Hnd) in Hu |- *. unfold stats_counters in *.
    cbn [fmap list_fmap] in *. rewrite !Hgain. rewrite !Forall_cons in Hu.
    by rewrite !u64_small by apply Hu.
  - intros c Hc. rewrite Hgain. unfold accounted. unfold stats_counters in Hc.
    rewrite !not_elem_of_cons in Hc. destruct Hc as (?&?&?&?&?&?&_). sum_adds.
    by rewrite !decide_False by congruence.
Qed.

(** C7: the statistics of a limit.  From a fresh key, a sequence of requests for
    one descriptor with [total] hits that finishes within the window adds to the
    limit's statistics, each a counter of 64 bits: [total] total hits; as over
    limit the hits past the limit [N]; as near limit those between the near
    threshold and [N]; as within limit those of the requests answered within the
    limit, at most [N] and no hit that is over it; in shadow mode, as shadow mode
    the ones over the limit; and as over limit with local cache some of the ones
    over the limit.  No counter but the limit's own changes. *)
Theorem DoLimit_statistics `{RedisLaws E} this domain desc l rl d ws (hs : list Z) (w : World E) :
  let key := window_key (fx_baseRateLimiter this) domain desc rl ws in
  let N := pl_RequestsPerUnit (rl_Limit rl) in
  let near := near_threshold (b_nearLimitRatio (fx_baseRateLimiter this)) N in
  let total := sumZ (Max 1 <$> hs) in
  let past := Z.max 0 (total - N) in
  limiter_ok this → w_heap w !! l = Some rl → unit_seconds (pl_Unit (rl_Limit rl)) = Some d →
  is_u32 N → near <= N → total < 2 ^ 32 → NoDup (stats_counters (rl_Stats rl)) →
  0 <= ws <= time (w_ext w) → window_start ws d = ws →
  entry (client_id this (uses_per_second this key)) (ck_Key key) (w_ext w) = None →
  ¬ held (ck_Key key) (w_ext w) →
  wp redis_failure (serve this domain desc l hs) w (λ _ w',
    time (w_ext w') < ws + d →
    let gain c := u64 (ctr_value (w_counters w') c - ctr_value (w_counters w) c) in
    ∃ local within, 0 <= local <= past ∧ 0 <= within <= N ∧ within + past <= total ∧
      gain <$> stats_counters (rl_Stats rl) =
        [total; past; Z.max 0 (Z.min total N - near); local; within;
         if rl_ShadowMode rl then past else 0] ∧
      ∀ c, c ∉ stats_counters (rl_Stats rl) → gain c = 0).
Proof.
  intros key N near total past Hok Hl Hd HN Hnear Hfits Hnd Hws Hwin Hentry Hheld.
  eapply wp_mono; [eapply (serve_ok this domain desc l rl d ws); done || lia|].
  intros sss w' [_ Hans] HT gain. destruct (Hans 0) as [_ Hgrow]; [lia|by apply tracked_fresh|done..|].
  destruct (Hgrow Hnear) as (local&Hlocal&Hg). fold N total in Hlocal, Hg.
  pose proof (near_threshold_u32 (b_nearLimitRatio (fx_baseRateLimiter this)) N) as [Hn0 _]. fold near in Hn0.
  destruct (within_hits_bounds N hs 0) as (Hw1&Hw2&Hw3). fold total in Hw3. rewrite Z.add_0_l in *.
  pose proof (sum_hits_nonneg hs) as Ht0. fold total in Ht0.
  exists local, (within_hits N 0 hs). unfold hits_over, hits_between, past, is_u32 in *.
  do 3 (split; [lia|]). apply accounted_gains; [done| |].
  { repeat (constructor; [unfold is_u64; destruct (rl_ShadowMode rl); lia|]). constructor. }
  intros c. unfold gain. rewrite <-(u64_sub_u64 (ctr_value (w_counters w') c)), (Hg c), u64_sub_u64.
  f_equal. unfold window_account, hits_over, hits_between. cbv zeta. fold N near.
  rewrite Z.add_0_l. match goal with |- ?a + ?b - ?a = _ => transitivity b; [lia|] end.
  f_equal; [lia..|destruct (rl_ShadowMode rl); lia].
Qed.

(** Five requests of two hits against five per minute: five of the ten hits are
    over the limit, one is between four and five, and the two requests within
    the limit have four. *)
Lemma DoLimit_statistics_witness :
  ∃ sss w', serve sim_limiter "d" sim_desc 0%nat [2; 2; 2; 2; 2] sim_start = (Ret sss, w') ∧
    take 3 ((λ c, u64 (ctr_value (w_counters w') c - ctr_value (w_counters sim_start) c)) <$>
            stats_counters (rl_Stats example_rl)) = [10; 5; 1].
Proof.
  pose proof (DoLimit_statistics sim_limiter "d" sim_desc 0%nat
    (mkRateLimit "d.a" (rl_Stats example_rl) (mkPbRateLimit 5 MINUTE "") false false "" [] false)
    60 60 [2; 2; 2; 2; 2] sim_start sim_limiter_ok eq_refl eq_refl ltac:(by vm_compute) ltac:(by vm_compute)
    ltac:(by vm_compute) ltac:(apply (bool_decide_unpack _); by vm_compute) ltac:(by vm_compute)
    eq_refl eq_refl ltac:(by vm_compute)) as Hans.
  assert (returned_before 120 (serve sim_limiter "d" sim_desc 0%nat [2; 2; 2; 2; 2] sim_start) = true)
    as Hret by (vm_compute; reflexivity).
  unfold wp in Hans. revert Hans Hret.
  destruct (serve sim_limiter "d" sim_desc 0%nat [2; 2; 2; 2; 2] sim_start) as [[sss|p|c] w'];
    [|intros _ [=]..]. intros Hans Ht%Z.ltb_lt.
  destruct (Hans Ht) as (local&within&_&_&_&Hgain&_). exists sss, w'. split; [reflexivity|].
  change (stats_counters (rl_Stats example_rl)) with (stats_counters (rl_Stats (mkRateLimit "d.a"
    (rl_Stats example_rl) (mkPbRateLimit 5 MINUTE "") false false "" [] false))).
  rewrite Hgain. by vm_compute.
Defined.
