(* ===== verification/RedisCache.v ===== *)
(** * The redis limiter keeps the promise of a backend

    In both modes of [stopCacheKeyIncrementWhenOverlimit], [DoLimit] answers
    every descriptor with a well-formed status, or panics with the error redis
    reported: the instance of [CacheLaws] the service relies on. *)

From S2P Require Import Prelude GoStrings World Utils Limiter LimiterSpec CountSpec Redis.
From S2P Require Import RedisSpec RedisLimit.

#[local] Open Scope Z_scope.

Section stop.
Context {E : Type} `{RedisLaws E}.
#[local] Abbreviation W := (World E).
Implicit Types w : W.

Lemma uses_per_second_client this key :
  uses_per_second this key = true → is_Some (fx_perSecondClient this).
Proof. unfold uses_per_second. intros [Hc _]%andb_true_iff. by apply bool_decide_eq_true in Hc. Qed.

Lemma check_local_and_get_ok this keys limits c n w :
  keyed (w_heap w) keys limits → checks_length c n →
  wp redis_failure (check_local_and_get this keys limits c) w (λ '(c', p, ps) w',
    w_heap w' = w_heap w ∧ checks_length c' n ∧ (is_Some ps → is_Some (fx_perSecondClient this))).
Proof.
  intros [_ Hkeyed] Hc. unfold check_local_and_get.
  apply (wp_range redis_failure (λ _ '(c', p, ps) w', w_heap w' = w_heap w ∧ checks_length c' n ∧
    (is_Some ps → is_Some (fx_perSecondClient this)))).
  { split_and!; [done|done|]. by intros [? [=]]. }
  intros j key [[c1 p] ps] w1 Hj (Hh&Hl&Hps). case_decide as Hk; [by apply wp_ret|].
  eapply wp_bind; [apply IsOverLimitWithLocalCache_ok|]. intros b w2 [(Hh2&_) _].
  destruct (Hkeyed j key Hj Hk) as (o&rl&d&Ho&Hrl&_). destruct b.
  - eapply wp_bind_Ret; [by apply index_Some|]. eapply wp_bind_Ret; [apply deref_ok; by rewrite Hh2, Hh|].
    apply wp_ret. split_and!; [congruence| |done]. destruct Hl as (?&?&?).
    unfold checks_length; simpl. by rewrite !length_insert.
  - destruct (uses_per_second this key) eqn:Hu; apply wp_ret; (split_and!; [congruence|done|]); [|done].
    intros _. by eapply uses_per_second_client.
Qed.

Lemma check_thresholds_ok this keys limits hits counts c n w :
  keyed (w_heap w) keys limits → length counts = length keys → checks_length c n →
  wp redis_failure (check_thresholds this keys limits hits counts c) w (λ c' w',
    w' = w ∧ checks_length c' n).
Proof.
  intros [_ Hkeyed] Hcounts Hc. unfold check_thresholds.
  apply (wp_range redis_failure (λ _ c' w', w' = w ∧ checks_length c' n)); [done|].
  intros j key c1 w1 Hj [-> Hl]. case_decide as Hk; [by apply wp_ret|].
  destruct (lookup_lt_is_Some_2 counts j) as [v Hv]; [apply lookup_lt_Some in Hj; lia|].
  destruct (Hkeyed j key Hj Hk) as (o&rl&d&Ho&Hrl&_).
  eapply wp_bind_Ret; [by apply index_Some|]. cbv zeta. eapply wp_bind_Ret; [by apply index_Some|].
  eapply wp_bind_Ret; [unfold IsOverLimitThresholdReached; by erewrite bind_Ret by (by apply deref_ok)|].
  case_bool_decide; apply wp_ret; (split; [done|]); [|done].
  destruct Hl as (?&?&?). unfold checks_length; simpl. by rewrite !length_insert.
Qed.

Lemma check_stop_ok this keys limits hits c w :
  keyed (w_heap w) keys limits → checks_length c (length keys) →
  wp redis_failure (check_stop this keys limits hits (length keys) c) w (λ c' w',
    w_heap w' = w_heap w ∧ checks_length c' (length keys)).
Proof.
  intros Hkeyed Hc. unfold check_stop. eapply wp_bind; [by apply check_local_and_get_ok|].
  intros [[c1 p] ps] w1 (Hh1&Hl1&Hps). destruct (bool_decide _ && _); [|by apply wp_ret].
  eapply wp_bind; [apply (run_pipeline_ok (Some (fx_client this)) (client_id this false)); eauto|].
  intros r1 w2 (Hh2&_&rs1&_&->).
  eapply wp_bind; [apply (run_pipeline_ok (fx_perSecondClient this) (client_id this true));
    intros [pc Hpc]%Hps; exists pc; split; [done|]; simpl; by rewrite Hpc|].
  intros r2 w3 (Hh3&_&rs2&_&->). assert (w_heap w3 = w_heap w) as Hh by congruence.
  eapply wp_mono; [apply check_thresholds_ok; [by rewrite Hh| |done]|].
  { by rewrite !deliver_length, length_replicate. }
  intros c' w' [-> Hl']. done.
Qed.

(** Both modes. *)
Lemma DoLimit_statuses this req limits w :
  b_ExpirationJitterMaxSeconds (fx_baseRateLimiter this) <= 2 ^ 62 → request_ok req limits w →
  wp redis_failure (DoLimit this req limits) w (λ ss w',
    w_heap w' = w_heap w ∧ Forall2 (status_for (w_heap w)) limits ss).
Proof.
  intros Hjit Hreq. pose proof Hreq as [Hlen Hgood]. set (hits := Max 1 (rq_HitsAddend req)).
  destruct (request_keyed (fx_baseRateLimiter this) req limits w Hlen Hgood) as [Hkeyed Hkl].
  unfold DoLimit. eapply wp_bind_Ret; [by apply GenerateCacheKeys_run|]. fold hits.
  fold (request_keys (fx_baseRateLimiter this) req limits w). rewrite <-Hkl.
  set (keys := request_keys (fx_baseRateLimiter this) req limits w) in *. set (w0 := mkWorld _ _ _).
  eapply wp_bind with (Q := λ c w', w_heap w' = w_heap w ∧ checks_length c (length keys)).
  { destruct (fx_stopCacheKeyIncrementWhenOverlimit this).
    - apply (check_stop_ok this keys limits hits _ w0); [done|apply initial_checks_length].
    - eapply wp_mono; [by apply (check_local_ok this keys limits hits w0)|].
      intros c w1 [(Hh1&_) (cached&[Hfl _]&->)]. split; [done|].
      split_and!; [done|done|apply length_replicate]. }
  intros c w1 [Hh1 Hl1].
  eapply wp_mono; [apply after_checks_ok; [by rewrite Hh1|done|done]|].
  intros ss w5 [Hh5 (ds&(?&?&?&?&?&?&_&_&_&_&_&_&_&_&Hl5&Hans&_)&_)].
  split; [congruence|]. rewrite Hh1 in Hans.
  eapply answered_status_for; [done..| |done]. intros i o Ho. by apply request_keys_empty.
Qed.
End stop.

Definition jitter_ok (this : fixedRateLimitCacheImpl) : Prop :=
  b_ExpirationJitterMaxSeconds (fx_baseRateLimiter this) <= 2 ^ 62.

#[export] Instance fixed_CacheLaws `{RedisLaws E} : CacheLaws E fixedRateLimitCacheImpl jitter_ok.
Proof.
  intros c req limits w Hok Hlen Hgood.
  assert (wp redis_failure (DoLimit c req limits) w (λ ss w',
    w_heap w' = w_heap w ∧ Forall2 (status_for (w_heap w)) limits ss)) as Hrun
    by (by apply DoLimit_statuses).
  simpl. unfold wp in *. destruct (DoLimit c req limits w) as [[ss|p|code] w']; [done| |done].
  destruct Hrun as (msg&->&_). by exists msg.
Qed.
