(* ===== verification/RedisStop.v ===== *)
(** * Stopping increments when over the limit

    [DoLimit] with [stopCacheKeyIncrementWhenOverlimit]: before it counts, it
    reads the counts of all keys of the request; if the request would pass one
    of the limits, the others are not charged for it. *)

From S2P Require Import Prelude GoStrings World Utils Limiter LimiterSpec CountSpec Redis.
From S2P Require Import RedisSpec RedisLimit RedisCache Simulated RedisWindow.

#[local] Open Scope Z_scope.

(** ** The commands that read the counts *)

Section get.
Context (this : fixedRateLimitCacheImpl).

Definition gets (b : bool) (key : CacheKey) : bool :=
  bool_decide (ck_Key key ≠ "") && eqb (uses_per_second this key) b.

Fixpoint get_pipe (b : bool) (i : nat) (keys : list CacheKey) : Pipeline :=
  match keys with
  | [] => []
  | key :: keys' =>
      (if gets b key then [FlatCmd (Some i) "GET" (ck_Key key) []] else []) ++ get_pipe b (S i) keys'
  end.

Lemma get_pipe_app b i keys keys' :
  get_pipe b i (keys ++ keys') = get_pipe b i keys ++ get_pipe b (i + length keys) keys'.
Proof.
  revert i. induction keys as [|key keys IH]; intros i; simpl; [by rewrite Nat.add_0_r|].
  by rewrite IH, app_assoc, Nat.add_succ_r.
Qed.

Lemma get_pipe_snoc b keys key :
  get_pipe b 0 (keys ++ [key]) =
    if gets b key then pipelineAppendtoGet (get_pipe b 0 keys) (ck_Key key) (length keys)
    else get_pipe b 0 keys.
Proof.
  rewrite get_pipe_app. simpl. destruct (gets b key); simpl; [done|by rewrite app_nil_r].
Qed.

Context {E : Type} `{CountView E}.

Lemma exec_get c i k (e : E) r e' :
  exec1 c (FlatCmd (Some i) "GET" k []) e r e' →
  undisturbed e e' ∧ ∀ n T, holds c k n T e → time e' < T → is_u32 n → default 0 r = n.
Proof.
  intros (Ht&Hheld&Hother&t&Htt&Heff). destruct (Heff eq_refl) as [Hsame Hr]. simpl in *. split.
  - split_and!; [done| |done]. intros c' k'. destruct (decide ((c', k') = (c, k))) as [[= -> ->]|Hne]; [done|].
    by apply Hother.
  - intros n T Hh HT Hn. rewrite (holds_count _ _ _ _ _ t Hh) in Hr by lia. by apply Hr.
Qed.

(** Reading changes nothing and delivers the counts into slots that held 0. *)
Lemma get_pipe_counts c b T (count : nat → Z) keys : ∀ i (e : E) rs e' slots,
  execs c (get_pipe b i keys) e rs e' → time e' < T →
  (∀ j key, keys !! j = Some key → gets b key = true →
     holds c (ck_Key key) (count (i + j)%nat) T e ∧ is_u32 (count (i + j)%nat) ∧
     slots !! (i + j)%nat = Some 0) →
  undisturbed e e' ∧
  (∀ j key, keys !! j = Some key → gets b key = true →
     deliver (get_pipe b i keys) rs slots !! (i + j)%nat = Some (count (i + j)%nat)) ∧
  (∀ m, (∀ j key, keys !! j = Some key → gets b key = true → m ≠ (i + j)%nat) →
     deliver (get_pipe b i keys) rs slots !! m = slots !! m).
Proof.
  induction keys as [|key keys IH]; intros i e rs e' slots Hx HT Hkeys; cbn [get_pipe] in *.
  { inversion Hx; subst. split_and!; try done; destruct rs; done. }
  destruct (gets b key) eqn:Hg; simpl in Hx |- *.
  - apply execs_cons_inv in Hx as (r&rs'&e1&->&Hx1&Hx). apply exec_get in Hx1 as [Hu1 Hr].
    pose proof (execs_time _ _ _ _ _ Hx) as Ht.
    destruct (Hkeys 0%nat key eq_refl Hg) as (Hh&Hn&H0). rewrite Nat.add_0_r in Hh, Hn, H0.
    specialize (Hr _ _ Hh ltac:(lia) Hn). pose proof (lookup_lt_Some _ _ _ H0) as Hlt.
    set (slots1 := match r with Some v => <[i := v]> slots | None => slots end).
    assert (slots1 !! i = Some (count i)) as Hi.
    { unfold slots1. destruct r as [v|]; simpl in Hr; [rewrite list_lookup_insert_eq by done|]; congruence. }
    assert (∀ m, m ≠ i → slots1 !! m = slots !! m) as Hother.
    { intros m Hm. unfold slots1. destruct r; [by apply list_lookup_insert_ne|done]. }
    destruct (IH (S i) e1 rs' e' slots1 Hx HT) as (Hu&Hsel&Hrest).
    { intros j key' Hj Hg'. destruct (Hkeys (S j) key' Hj Hg') as (Hh'&?&?).
      rewrite Nat.add_succ_r in *. simpl. rewrite Hother by lia.
      split_and!; [by eapply holds_undisturbed|apply H1..|done]. }
    split; [by etransitivity|]. split.
    + intros [|j] key' Hj Hg'; simpl in Hj.
      * rewrite Nat.add_0_r, Hrest by lia. done.
      * rewrite Nat.add_succ_r. apply (Hsel j key' Hj Hg').
    + intros m Hm. rewrite Hrest.
      * apply Hother. intros ->. apply (Hm 0%nat key); [done|done|lia].
      * intros j key' Hj Hg'. specialize (Hm (S j) key' Hj Hg'). lia.
  - destruct (IH (S i) e rs e' slots Hx HT) as (Hu&Hsel&Hrest).
    { intros j key' Hj Hg'. rewrite Nat.add_succ_comm. by apply (Hkeys (S j) key'). }
    split; [done|]. split.
    + intros [|j] key' Hj Hg'; simpl in Hj; [congruence|]. rewrite <-Nat.add_succ_comm. by apply (Hsel j key').
    + intros m Hm. apply Hrest. intros j key' Hj Hg'. rewrite Nat.add_succ_comm. by apply (Hm (S j) key').
Qed.
End get.

(** ** Which limits the request would pass *)

Section passes.
Context (h : list RateLimit) (limits : list (option loc)) (hits : Z) (count : nat → Z).

Definition limit_at (i : nat) : option RateLimit :=
  limits !! i ≫= λ o : option loc, o ≫= λ l : loc, h !! l.

Definition passes (i : nat) : bool :=
  match limit_at i with
  | Some rl => bool_decide (count i + hits > pl_RequestsPerUnit (rl_Limit rl))
  | None => false
  end.

Definition rejected : bool := existsb passes (seq 0 (length limits)).

(** What the request adds to the count of descriptor [i]. *)
Definition charged (i : nat) : Z := if passes i then hits else if rejected then 0 else hits.

Lemma charged_range i : 0 <= hits → 0 <= charged i <= hits.
Proof. unfold charged. destruct (passes i), rejected; lia. Qed.

Lemma existsb_snoc j : existsb passes (seq 0 (S j)) = existsb passes (seq 0 j) || passes j.
Proof. rewrite seq_S, existsb_app. simpl. by rewrite orb_false_r. Qed.
End passes.

Section stop.
Context {E : Type} `{RedisLaws E}.
#[local] Abbreviation W := (World E).
Implicit Types w : W.

(** The checks when the local cache answered for some keys: nothing is to be
    added to the others. *)
Definition some_held (cached : list bool) : bool := existsb id cached.

Definition held_checks (n : nat) (hits : Z) (cached : list bool) : checks :=
  mkChecks cached cached (replicate n false) (if some_held cached then 0 else hits) (some_held cached).

Lemma some_held_insert cached i : (i < length cached)%nat → some_held (<[i := true]> cached) = true.
Proof.
  intros Hi. apply existsb_exists. exists true. split; [|done]. apply list_elem_of_In.
  by apply (list_elem_of_lookup_2 _ i), list_lookup_insert_eq.
Qed.

Lemma some_held_none cached n :
  length cached = n → some_held cached = false → cached = replicate n false.
Proof.
  intros <- Hs. symmetry. apply replicate_as_elem_of. split; [done|]. intros b Hb.
  destruct b; [|done]. rewrite <-Hs. symmetry. apply existsb_exists. exists true.
  by rewrite <-list_elem_of_In.
Qed.

(** An empty local cache answers for no key. *)
Lemma some_held_empty keys cached (e : E) :
  flags_held keys cached e → (∀ k, ¬ held k e) → some_held cached = false.
Proof.
  intros [Hl Hf] Hnone. apply not_true_is_false. intros (b&Hb&Ht)%existsb_exists.
  destruct b; [|done]. apply list_elem_of_In, list_elem_of_lookup in Hb as [i Hi].
  destruct (lookup_lt_is_Some_2 keys i) as [key Hk]; [apply lookup_lt_Some in Hi; lia|].
  destruct (Hf i key Hk Hi) as [_ Hh]. by apply Hnone in Hh.
Qed.

Lemma check_local_and_get_marks this keys limits hits w :
  keyed (w_heap w) keys limits →
  wp redis_failure (check_local_and_get this keys limits (initial_checks (length keys) hits)) w
    (λ '(c', p, ps) w', quiet w w' ∧ ∃ cached, flags_held keys cached (w_ext w) ∧
      c' = held_checks (length keys) hits cached ∧
      (some_held cached = false → pipe_or_new p = get_pipe this false 0 keys ∧
         pipe_or_new ps = get_pipe this true 0 keys) ∧ (is_Some ps → is_Some (fx_perSecondClient this))).
Proof.
  intros Hkeyed. unfold check_local_and_get.
  eapply wp_mono; [apply (wp_range redis_failure (λ j '(c', p, ps) w', quiet w w' ∧ ∃ cached,
    flags_held keys cached (w_ext w) ∧ c' = held_checks (length keys) hits cached ∧
    (some_held cached = false → pipe_or_new p = get_pipe this false 0 (take j keys) ∧
       pipe_or_new ps = get_pipe this true 0 (take j keys)) ∧
    (is_Some ps → is_Some (fx_perSecondClient this))))|].
  { split; [done|]. exists (replicate (length keys) false). assert (some_held (replicate (length keys) false) = false)
      as Hs by (by induction (length keys)).
    unfold held_checks. rewrite Hs. split_and!; try done. split; [apply length_replicate|].
    by intros i key _ [? _]%lookup_replicate_1. }
  2: { intros [[c' p] ps] w' Hq. by rewrite take_ge in Hq by done. }
  intros j key [[c1 p] ps] w1 Hj (Hq&cached&Hf&->&Hp&Hc). rewrite (take_S_lookup _ _ _ Hj), !get_pipe_snoc.
  rewrite length_take_le by (apply lookup_lt_Some in Hj; lia).
  unfold gets. case_decide as Hk.
  { rewrite !(bool_decide_false (ck_Key key ≠ "")) by (by intros ?). apply wp_ret. eauto 10. }
  rewrite !(bool_decide_true (ck_Key key ≠ "")) by done. simpl.
  eapply wp_bind; [apply IsOverLimitWithLocalCache_ok|]. intros b w2 [Hq2 Hheld].
  assert (quiet w w2) as Hq12 by (by etransitivity). destruct b.
  - destruct (proj2 Hkeyed j key Hj Hk) as (o&rl&d&Ho&Hrl&_). rewrite <-(proj1 Hq12) in Hrl.
    eapply wp_bind_Ret; [by apply index_Some|]. eapply wp_bind_Ret; [by apply deref_ok|]. apply wp_ret.
    assert (some_held (<[j := true]> cached) = true) as Hs.
    { apply some_held_insert. rewrite (proj1 Hf). by eapply lookup_lt_Some. }
    split; [done|]. exists (<[j := true]> cached). unfold held_checks. rewrite Hs.
    split_and!; try done. eapply flags_held_insert; [done..|]. apply Hq. by apply Hheld.
  - destruct (uses_per_second this key) eqn:Hu; apply wp_ret; (split; [done|]); exists cached;
      (split_and!; [apply Hf..|done| |]); try done; try (intros Hs; destruct (Hp Hs) as [-> ->]; by split).
    intros _. by eapply uses_per_second_client.
Qed.

(** The counts read decide which keys are charged. *)
Definition stop_checks (h : list RateLimit) (limits : list (option loc)) (hits : Z) (count : nat → Z)
    (n : nat) (c : checks) : Prop :=
  cs_isOverLimitWithLocalCache c = replicate n false ∧ cs_overlimitIndexes c = replicate n false ∧
  length (cs_nearlimitIndexes c) = n ∧
  (∀ i, (i < n)%nat → cs_nearlimitIndexes c !! i = Some (passes h limits hits count i)) ∧
  cs_hitsAddendForRedis c = if rejected h limits hits count then 0 else hits.

Lemma check_thresholds_marks this keys limits hits counts count w :
  keyed (w_heap w) keys limits →
  (∀ i key, keys !! i = Some key → ck_Key key = "" → limit_at (w_heap w) limits i = None) →
  (∀ i key, keys !! i = Some key → ck_Key key ≠ "" →
     counts !! i = Some (count i) ∧ is_u32 (count i + hits)) →
  wp redis_failure (check_thresholds this keys limits hits counts (initial_checks (length keys) hits)) w
    (λ c w', w' = w ∧ stop_checks (w_heap w) limits hits count (length keys) c).
Proof.
  intros [Hlen Hkeyed] Hempty Hcounts. set (n := length keys). unfold check_thresholds.
  set (ps := passes (w_heap w) limits hits count).
  eapply wp_mono; [apply (wp_range redis_failure (λ j c w', w' = w ∧
    cs_isOverLimitWithLocalCache c = replicate n false ∧ cs_overlimitIndexes c = replicate n false ∧
    length (cs_nearlimitIndexes c) = n ∧
    (∀ i, (i < n)%nat → cs_nearlimitIndexes c !! i = Some (bool_decide (i < j)%nat && ps i)) ∧
    cs_hitsAddendForRedis c = if existsb ps (seq 0 j) then 0 else hits))|].
  { split_and!; try done; [apply length_replicate|]. intros i Hi. simpl. by rewrite lookup_replicate_2. }
  2: { intros c w' (->&H1'&H2'&H3'&H4'&H5'). split; [done|]. split_and!; try done.
       - intros i Hi. rewrite H4' by done. by rewrite bool_decide_true.
       - rewrite H5'. unfold rejected. by rewrite <-Hlen. }
  intros j key c w1 Hj (->&Hc1&Hc2&Hc3&Hnear&Hhits). unfold ps at 2. rewrite existsb_snoc. fold ps.
  pose proof (lookup_lt_Some _ _ _ Hj) as Hjn. fold n in Hjn.
  assert (ps j = false → ∀ i, bool_decide (i < j)%nat && ps i = bool_decide (i < S j)%nat && ps i) as Hstep.
  { intros Hps i. destruct (decide (i = j)) as [->|]; [by rewrite Hps, !andb_false_r|].
    f_equal. apply bool_decide_ext. lia. }
  case_decide as Hk.
  { assert (ps j = false) as Hps. { unfold ps, passes. by rewrite (Hempty j key Hj Hk). }
    apply wp_ret. rewrite Hps, orb_false_r. split_and!; try done. intros i Hi. by rewrite Hnear, Hstep. }
  destruct (Hcounts j key Hj Hk) as [Hcj Hu]. destruct (Hkeyed j key Hj Hk) as (o&rl&d&Ho&Hrl&_).
  assert (ps j = bool_decide (count j + hits > pl_RequestsPerUnit (rl_Limit rl))) as Hpsj.
  { unfold ps, passes, limit_at. rewrite Ho. simpl. by rewrite Hrl. }
  eapply wp_bind_Ret; [by apply index_Some|]. cbv zeta. eapply wp_bind_Ret; [by apply index_Some|].
  eapply wp_bind_Ret; [unfold IsOverLimitThresholdReached; by erewrite bind_Ret by (by apply deref_ok)|].
  simpl. rewrite u32_small by done. rewrite <-Hpsj. destruct (ps j) eqn:Hps; apply wp_ret.
  - rewrite orb_true_r. split_and!; try done; simpl; [by rewrite length_insert|].
    intros i Hi. destruct (decide (i = j)) as [->|].
    + rewrite list_lookup_insert_eq by lia. by rewrite bool_decide_true, Hps by lia.
    + rewrite list_lookup_insert_ne by done. rewrite Hnear by done. do 2 f_equal. apply bool_decide_ext. lia.
  - rewrite orb_false_r. split_and!; try done. intros i Hi. by rewrite Hnear, Hstep.
Qed.

(** The counts of a request's keys, each valid until [T]. *)
Definition counts_known this (keys : list CacheKey) (hits T : Z) (count : nat → Z) (e : E) : Prop :=
  ∀ i key, keys !! i = Some key → ck_Key key ≠ "" →
    holds (client_id this (uses_per_second this key)) (ck_Key key) (count i) T e ∧
    0 <= count i ∧ count i + hits < 2 ^ 32.

Lemma counts_known_undisturbed this keys hits T count e e' :
  undisturbed e e' → counts_known this keys hits T count e → counts_known this keys hits T count e'.
Proof.
  intros Hu Hk i key Hi Hne. destruct (Hk i key Hi Hne) as (?&?&?).
  split_and!; [by eapply holds_undisturbed|done..].
Qed.

(** Both reads deliver the count of every key. *)
Lemma both_gets_count this keys hits T count (e1 e2 e3 : E) rs1 rs2 :
  0 <= hits → counts_known this keys hits T count e1 → time e3 < T →
  execs (client_id this false) (get_pipe this false 0 keys) e1 rs1 e2 →
  execs (client_id this true) (get_pipe this true 0 keys) e2 rs2 e3 →
  undisturbed e1 e3 ∧
  ∀ i key, keys !! i = Some key → ck_Key key ≠ "" →
    deliver (get_pipe this true 0 keys) rs2
      (deliver (get_pipe this false 0 keys) rs1 (replicate (length keys) 0)) !! i = Some (count i).
Proof.
  intros Hhits Hk HT Hx1 Hx2. pose proof (execs_time _ _ _ _ _ Hx2).
  assert (∀ b key, gets this b key = true → ck_Key key ≠ "" ∧ uses_per_second this key = b) as Hgets.
  { intros b key [Hne%bool_decide_eq_true Hb%eqb_prop]%andb_true_iff. done. }
  destruct (get_pipe_counts this (client_id this false) false T count keys 0 e1 rs1 e2 (replicate (length keys) 0))
    as (Hu1&Hsel1&Hrest1); [done|lia| |].
  { intros j key Hj [Hne Hb]%Hgets. destruct (Hk j key Hj Hne) as (Hh&?&?). rewrite Hb in Hh.
    change (0 + j)%nat with j. split_and!; [done|unfold is_u32; lia|]. apply lookup_replicate_2. by eapply lookup_lt_Some. }
  destruct (get_pipe_counts this (client_id this true) true T count keys 0 e2 rs2 e3
    (deliver (get_pipe this false 0 keys) rs1 (replicate (length keys) 0))) as (Hu2&Hsel2&Hrest2); [done|lia| |].
  { intros j key Hj [Hne Hb]%Hgets.
    destruct (counts_known_undisturbed _ _ _ _ _ _ _ Hu1 Hk j key Hj Hne) as (Hh&?&?). rewrite Hb in Hh.
    change (0 + j)%nat with j. split_and!; [done|unfold is_u32; lia|]. rewrite Hrest1.
    - apply lookup_replicate_2. by eapply lookup_lt_Some.
    - intros j' key' Hj' [_ Hb']%Hgets. simpl. intros <-. congruence. }
  split; [by etransitivity|]. intros i key Hi Hne.
  assert (∀ b, gets this b key = eqb (uses_per_second this key) b) as Hg.
  { intros b. unfold gets. by rewrite bool_decide_true. }
  destruct (uses_per_second this key) eqn:Hu.
  - apply (Hsel2 i key Hi). by rewrite Hg.
  - rewrite Hrest2; [apply (Hsel1 i key Hi); by rewrite Hg|].
    intros j key' Hj [_ Hb]%Hgets. simpl. intros <-. congruence.
Qed.

Lemma check_thresholds_counts this keys limits hits count T (e1 e2 : E) rs1 rs2 w :
  keyed (w_heap w) keys limits → 0 <= hits →
  (∀ i key, keys !! i = Some key → ck_Key key = "" → limit_at (w_heap w) limits i = None) →
  counts_known this keys hits T count e1 →
  execs (client_id this false) (get_pipe this false 0 keys) e1 rs1 e2 →
  execs (client_id this true) (get_pipe this true 0 keys) e2 rs2 (w_ext w) →
  wp redis_failure (check_thresholds this keys limits hits
      (deliver (get_pipe this true 0 keys) rs2
         (deliver (get_pipe this false 0 keys) rs1 (replicate (length keys) 0)))
      (initial_checks (length keys) hits)) w
    (λ c w', w' = w ∧ (time (w_ext w) < T → undisturbed e1 (w_ext w) ∧
       stop_checks (w_heap w) limits hits count (length keys) c)).
Proof.
  intros Hkeyed Hhits Hempty Hcounts Hx1 Hx2. destruct (decide (time (w_ext w) < T)) as [HT|HT].
  - destruct (both_gets_count this keys hits T count e1 e2 (w_ext w) rs1 rs2) as [Hu Hread]; [done..|].
    eapply wp_mono; [apply (check_thresholds_marks this keys limits hits _ count w); [done..|]|].
    + intros i key Hi Hne. split; [by eapply Hread|]. destruct (Hcounts i key Hi Hne) as (_&?&?).
      unfold is_u32. lia.
    + by intros c w' [-> Hm].
  - eapply wp_mono; [apply (check_thresholds_ok this keys limits hits _ _ (length keys) w);
      [done|by rewrite !deliver_length, length_replicate|apply initial_checks_length]|].
    by intros c w' [-> Hl].
Qed.

(** The checks of a request of several descriptors: either the local cache knew
    some of its keys, or the counts decided. *)
Lemma check_stop_marks this keys limits hits count T w :
  keyed (w_heap w) keys limits → (1 < length keys)%nat → 0 <= hits →
  (∀ i key, keys !! i = Some key → ck_Key key = "" → limit_at (w_heap w) limits i = None) →
  counts_known this keys hits T count (w_ext w) →
  wp redis_failure (check_stop this keys limits hits (length keys) (initial_checks (length keys) hits)) w
    (λ c w', w_heap w' = w_heap w ∧ checks_length c (length keys) ∧
       ∃ cached, flags_held keys cached (w_ext w) ∧
       (time (w_ext w') < T → undisturbed (w_ext w) (w_ext w') ∧
          if some_held cached then c = held_checks (length keys) hits cached
          else stop_checks (w_heap w) limits hits count (length keys) c)).
Proof.
  intros Hkeyed Hn Hhits Hempty Hcounts. unfold check_stop.
  eapply wp_bind; [by apply check_local_and_get_marks|].
  intros [[c p] ps] w1 ((Hh1&_&Hu1)&cached&Hflags&->&Hpipes&Hc). simpl.
  rewrite (bool_decide_true (1 < length keys)%nat) by done. simpl.
  destruct (some_held cached) eqn:Hsome; simpl.
  { apply wp_ret. split; [done|]. split; [split_and!; [apply Hflags..|apply length_replicate]|].
    exists cached. by rewrite Hsome. }
  destruct (Hpipes eq_refl) as [Hp Hps].
  assert (held_checks (length keys) hits cached = initial_checks (length keys) hits) as ->.
  { unfold held_checks. rewrite Hsome. by rewrite (some_held_none cached (length keys)) by (done || apply Hflags). }
  eapply wp_bind; [apply (run_pipeline_ok (Some (fx_client this)) (client_id this false)); eauto|].
  intros r1 w2 (Hh2&_&rs1&Hx1&->). rewrite Hp in *.
  eapply wp_bind; [apply (run_pipeline_ok (fx_perSecondClient this) (client_id this true));
    intros [pc Hpc]%Hc; exists pc; split; [done|]; simpl; by rewrite Hpc|].
  intros r2 w3 (Hh3&_&rs2&Hx2&->). rewrite Hps in *.
  assert (w_heap w3 = w_heap w) as Hh by congruence.
  eapply wp_mono; [apply wp_and; [apply (check_thresholds_ok this keys limits hits _ _ (length keys) w3);
    [by rewrite Hh|by rewrite !deliver_length, length_replicate|apply initial_checks_length]|]|].
  { apply (check_thresholds_counts this keys limits hits count T (w_ext w1) (w_ext w2) rs1 rs2 w3);
      [by rewrite Hh|done|by rewrite Hh|by eapply counts_known_undisturbed|done..]. }
  intros c' w' [[-> Hl] [_ Hm]]. rewrite Hh in Hm. split; [done|]. split; [done|]. exists cached. rewrite Hsome.
  split; [done|]. intros HT. destruct (Hm HT) as [Hu3 Hmarks]. split; [by etransitivity|done].
Qed.

(** ** The increments *)

Lemma hits_on_unique this b k plan i p :
  plan !! i = Some p → touches this b k p = true →
  (∀ j q, plan !! j = Some q → touches this b k q = true → j = i) →
  hits_on this b k plan = p_hits p.
Proof.
  revert i. induction plan as [|q plan IH]; intros [|i] Hp Ht Huniq; simpl in Hp; [done|done| |].
  - injection Hp as ->. rewrite hits_on_cons, Ht.
    assert (hits_on this b k plan = 0) as ->; [|lia].
    assert (∀ q, q ∈ plan → touches this b k q = false) as Hno.
    { intros q [j Hj]%list_elem_of_lookup. destruct (touches this b k q) eqn:Hq; [|done].
      by specialize (Huniq (S j) q Hj Hq). }
    clear -Hno. induction plan as [|q plan IH]; [done|]. rewrite hits_on_cons.
    rewrite (Hno q) by (by left). rewrite IH; [done|]. intros q' Hq'. apply Hno. by right.
  - rewrite hits_on_cons. destruct (touches this b k q) eqn:Hq; [by specialize (Huniq 0%nat q eq_refl Hq)|].
    rewrite (IH i); [lia|done|done|]. intros j q' Hj Hq'. specialize (Huniq (S j) q' Hj Hq'). lia.
Qed.

Definition distinct_keys (keys : list CacheKey) : Prop :=
  ∀ i j key key', keys !! i = Some key → keys !! j = Some key' → ck_Key key ≠ "" →
    ck_Key key = ck_Key key' → i = j.

(** What both increment pipelines leave of the key of descriptor [i]. *)
Lemma stop_increments this h keys limits hits count c plan T now (e1 e2 e3 : E) rs1 rs2 i key rl d :
  distinct_clients this → 0 <= hits → keyed h keys limits → distinct_keys keys →
  length plan = length keys → planned h keys limits hits c plan →
  stop_checks h limits hits count (length keys) c →
  counts_known this keys hits T count e1 → now <= time e1 → time e3 < T →
  execs (client_id this false) (incr_pipe this false 0 plan) e1 rs1 e2 →
  execs (client_id this true) (incr_pipe this true 0 plan) e2 rs2 e3 →
  keys !! i = Some key → ck_Key key ≠ "" → limit_at h limits i = Some rl →
  unit_seconds (pl_Unit (rl_Limit rl)) = Some d → T <= now + d →
  holds (client_id this (uses_per_second this key)) (ck_Key key)
    (count i + charged h limits hits count i) T e3 ∧
  deliver (incr_pipe this true 0 plan) rs2
    (deliver (incr_pipe this false 0 plan) rs1 (replicate (length keys) 0)) !! i =
    Some (count i + charged h limits hits count i).
Proof.
  intros Hdist Hhits Hkeyed Hdk Hlen Hplan (_&Hover&Hnl&Hnear&Hhr) Hcounts Hnow HT Hx1 Hx2 Hi Hne Hrl Hd Hwin.
  set (b := uses_per_second this key). destruct (Hcounts i key Hi Hne) as (Hh&Hc0&Hc1). fold b in Hh.
  assert (∀ j q, plan !! j = Some q → p_hits q = charged h limits hits count j) as Hph.
  { intros j q Hj. destruct (Hplan j q Hj) as (key'&o'&near&Hkj&_&Hn&_&_&Hq&_).
    rewrite Hnear in Hn by (by eapply lookup_lt_Some). injection Hn as <-. rewrite Hq, Hhr.
    unfold charged. by destruct (passes h limits hits count j). }
  assert (∀ j q, plan !! j = Some q → touches this b (ck_Key key) q = true → j = i) as Huniq.
  { intros j q Hj Ht. destruct (Hplan j q Hj) as (key'&o'&near&Hkj&_&_&Hk'&_).
    unfold touches in Ht. apply andb_true_iff in Ht as [_ Heq%bool_decide_eq_true]. rewrite Hk' in Heq.
    symmetry. eapply Hdk; [done..|]. done. }
  destruct (lookup_lt_is_Some_2 plan i) as [p Hp]; [apply lookup_lt_Some in Hi; lia|].
  destruct (Hplan i p Hp) as (key'&o&near&Hk'&Ho&_&Hpk&Hskip&_&Hexp). simplify_eq.
  rewrite Hover in Ho. apply lookup_replicate in Ho as [-> _].
  rewrite (bool_decide_false (ck_Key _ = "")) in Hskip by done. simpl in Hskip.
  assert (touches this b (ck_Key (p_key p)) p = true) as Ht.
  { unfold touches, selected. rewrite Hskip, bool_decide_true by done. unfold b. by rewrite eqb_reflx. }
  pose proof (charged_range h limits hits count i Hhits) as Hch.
  pose proof (hits_on_unique this b _ plan i p Hp Ht Huniq) as Hon. rewrite (Hph i p Hp) in Hon.
  destruct (both_pipes_count this b (ck_Key (p_key p)) (count i) T plan e1 e2 e3 rs1 rs2
    (replicate (length keys) 0)) as [Hh3 Hres]; try done.
  - apply Forall_lookup_2. intros j q Hj. rewrite (Hph j q Hj).
    split; [apply (charged_range h limits hits count j Hhits)|]. intros Htq.
    specialize (Huniq j q Hj Htq) as ->. simplify_eq.
    unfold limit_at in Hrl. destruct (limits !! i) as [o|] eqn:Hlim; [|done]. simpl in Hrl.
    specialize (Hexp Hskip o rl d eq_refl Hrl Hd). lia.
  - rewrite Hon. lia.
  - by rewrite length_replicate.
  - rewrite Hon in Hh3. split; [exact Hh3|].
    rewrite (Hres i p Hp Ht). do 2 f_equal. rewrite <-(Hph i p Hp).
    apply (hits_on_unique this b _ _ i p); [by rewrite lookup_take_lt by lia|done|].
    intros j q [Hj _]%lookup_take_Some. by apply Huniq.
Qed.

(** The descriptors are answered and charged by the counts before the request. *)
Definition all_or_nothing this (h : list RateLimit) (keys : list CacheKey) (limits : list (option loc))
    (hits T : Z) (count : nat → Z) (ss : list DescriptorStatus) (e' : E) : Prop :=
  ∀ i rl, limit_at h limits i = Some rl →
    let N := pl_RequestsPerUnit (rl_Limit rl) in
    let after := count i + charged h limits hits count i in
    ∃ key s, keys !! i = Some key ∧ ss !! i = Some s ∧
      holds (client_id this (uses_per_second this key)) (ck_Key key) after T e' ∧
      st_Code s = (if passes h limits hits count i && negb (rl_ShadowMode rl)
                   then Code_OVER_LIMIT else Code_OK) ∧
      st_CurrentLimit s = Some (rl_Limit rl) ∧ st_LimitRemaining s = Z.max 0 (N - after).

Lemma stop_verdict this h keys limits hits count T results cached ss e i rl :
  0 <= hits → keyed h keys limits →
  (∀ i o, limits !! i = Some o → ∃ key, keys !! i = Some key ∧ (ck_Key key = "" ↔ o = None)) →
  cached = replicate (length keys) false → length ss = length keys →
  answered h keys limits results cached ss → limit_at h limits i = Some rl →
  is_u32 (pl_RequestsPerUnit (rl_Limit rl)) → counts_known this keys hits T count e →
  (∀ key, keys !! i = Some key → ck_Key key ≠ "" →
     results !! i = Some (count i + charged h limits hits count i)) →
  ∃ key s, keys !! i = Some key ∧ ck_Key key ≠ "" ∧ ss !! i = Some s ∧
    st_Code s = (if passes h limits hits count i && negb (rl_ShadowMode rl)
                 then Code_OVER_LIMIT else Code_OK) ∧
    st_CurrentLimit s = Some (rl_Limit rl) ∧
    st_LimitRemaining s =
      Z.max 0 (pl_RequestsPerUnit (rl_Limit rl) - (count i + charged h limits hits count i)).
Proof.
  intros Hhits [Hlen _] Hempty -> Hls Hans Hrl HN Hcounts Hres.
  unfold limit_at in Hrl. destruct (limits !! i) as [o|] eqn:Hlim; [|done]. simpl in Hrl.
  destruct (Hempty i o Hlim) as (key&Hkey&Hiff).
  assert (ck_Key key ≠ "") as Hne by (intros Hk; apply Hiff in Hk; by subst o).
  destruct (lookup_lt_is_Some_2 ss i) as [s Hs]; [apply lookup_lt_Some in Hkey; lia|].
  destruct (Hcounts i key Hkey Hne) as (_&Hc0&Hc1).
  exists key, s. do 3 (split; [done|]). specialize (Hres key Hkey Hne).
  destruct (Hans i s Hs) as [(key'&?&?&_)|(key'&rl'&r&b&reset&(Hk'&_&(l&Hl&Hhl)&Hr&Hb)&->)];
    [simplify_eq|].
  assert (rl' = rl) as -> by (rewrite Hlim in Hl; injection Hl as ->; simpl in Hrl; congruence).
  apply lookup_replicate in Hb as [-> _]. rewrite Hres in Hr. injection Hr as <-.
  assert (passes h limits hits count i = bool_decide (count i + hits > pl_RequestsPerUnit (rl_Limit rl))) as Hpass.
  { unfold passes, limit_at. rewrite Hlim. simpl. by rewrite Hrl. }
  pose proof (charged_range h limits hits count i Hhits) as Hch.
  assert (count i + charged h limits hits count i > pl_RequestsPerUnit (rl_Limit rl) ↔
    count i + hits > pl_RequestsPerUnit (rl_Limit rl)) as Hiff2.
  { split; [lia|]. intros Hgt. unfold charged. rewrite Hpass, bool_decide_true by done. done. }
  rewrite Hpass.
  destruct (status_of_window rl false (count i + charged h limits hits count i) reset
    (pl_RequestsPerUnit (rl_Limit rl)) (count i + charged h limits hits count i)) as (Hcode&Hcur&Hrem);
    [done|split; [intros [?|?]; [done|lia]|right; lia]|done|lia|done|].
  split_and!; [|done|done]. rewrite Hcode. by rewrite (bool_decide_ext _ _ Hiff2).
Qed.

(** When the local cache knows some key, the counts stay as they were, and the
    other descriptors are answered by them. *)
Definition nothing_charged this (h : list RateLimit) (keys : list CacheKey) (limits : list (option loc))
    (T : Z) (count : nat → Z) (cached : list bool) (ss : list DescriptorStatus) (e' : E) : Prop :=
  ∀ i rl, limit_at h limits i = Some rl →
    let N := pl_RequestsPerUnit (rl_Limit rl) in
    ∃ key s known, keys !! i = Some key ∧ ss !! i = Some s ∧ cached !! i = Some known ∧
      holds (client_id this (uses_per_second this key)) (ck_Key key) (count i) T e' ∧
      st_Code s = (if (known || bool_decide (count i > N)) && negb (rl_ShadowMode rl)
                   then Code_OVER_LIMIT else Code_OK) ∧
      st_CurrentLimit s = Some (rl_Limit rl) ∧
      st_LimitRemaining s = if known then 0 else Z.max 0 (N - count i).

(** A descriptor with a limit has a key. *)
Lemma limit_at_key h keys limits i rl :
  keyed h keys limits →
  (∀ i o, limits !! i = Some o → ∃ key, keys !! i = Some key ∧ (ck_Key key = "" ↔ o = None)) →
  limit_at h limits i = Some rl →
  ∃ key d, keys !! i = Some key ∧ ck_Key key ≠ "" ∧ unit_seconds (pl_Unit (rl_Limit rl)) = Some d.
Proof.
  intros [_ Hkeyed] Hempty Hrl. unfold limit_at in Hrl.
  destruct (limits !! i) as [o|] eqn:Ho; [|done]. simpl in Hrl. destruct (Hempty i o Ho) as (key&Hkey&Hiff).
  assert (ck_Key key ≠ "") as Hne by (intros Hk; apply Hiff in Hk; by subst o).
  destruct (Hkeyed i key Hkey Hne) as (o'&rl'&d&Ho'&Hrl'&Hd). simplify_eq. eauto.
Qed.

Lemma held_increments this h keys limits hits cached count plan T now (e1 e2 e3 : E) rs1 rs2 i key rl d :
  distinct_clients this → some_held cached = true →
  length plan = length keys → planned h keys limits hits (held_checks (length keys) hits cached) plan →
  (∀ i rl d, limit_at h limits i = Some rl → unit_seconds (pl_Unit (rl_Limit rl)) = Some d → T <= now + d) →
  keyed h keys limits → counts_known this keys hits T count e1 → now <= time e1 → time e3 < T →
  execs (client_id this false) (incr_pipe this false 0 plan) e1 rs1 e2 →
  execs (client_id this true) (incr_pipe this true 0 plan) e2 rs2 e3 →
  keys !! i = Some key → ck_Key key ≠ "" → limit_at h limits i = Some rl →
  unit_seconds (pl_Unit (rl_Limit rl)) = Some d → 0 <= hits →
  holds (client_id this (uses_per_second this key)) (ck_Key key) (count i) T e3 ∧
  (cached !! i = Some false → deliver (incr_pipe this true 0 plan) rs2
    (deliver (incr_pipe this false 0 plan) rs1 (replicate (length keys) 0)) !! i = Some (count i)).
Proof.
  intros Hdist Hsome Hlen Hplan Hwin [_ Hkeyed] Hcounts Hnow HT Hx1 Hx2 Hi Hne Hrl Hd Hhits.
  set (b := uses_per_second this key). destruct (Hcounts i key Hi Hne) as (Hh&Hc0&Hc1). fold b in Hh.
  assert (Forall (λ p, p_hits p = 0) plan) as Hzero.
  { apply Forall_lookup_2. intros j q Hj. destruct (Hplan j q Hj) as (?&?&near&_&_&Hnear&_&_&->&_).
    simpl in Hnear |- *. apply lookup_replicate in Hnear as [-> _]. by rewrite Hsome. }
  assert (∀ plan, Forall (λ p, p_hits p = 0) plan → hits_on this b (ck_Key key) plan = 0) as Hon.
  { induction 1 as [|q plan' Hq _ IH]; [done|]. rewrite hits_on_cons, IH, Hq. by case_match. }
  destruct (both_pipes_count this b (ck_Key key) (count i) T plan e1 e2 e3 rs1 rs2 (replicate (length keys) 0))
    as [Hh3 Hres]; try done.
  - apply Forall_lookup_2. intros j q Hj. rewrite (Forall_lookup_1 _ _ _ _ Hzero Hj). split; [done|]. intros Ht.
    destruct (Hplan j q Hj) as (key'&over&near&Hkj&_&_&Hpk&Hskip&_&Hexp). unfold touches, selected in Ht.
    apply andb_true_iff in Ht as [[Hs%negb_true_iff _]%andb_true_iff Hk%bool_decide_eq_true].
    rewrite Hpk in Hk. destruct (Hkeyed j key' Hkj) as (o&rl'&d'&Ho&Hrl'&Hd'); [congruence|].
    specialize (Hexp Hs o rl' d' Ho Hrl' Hd').
    enough (T <= now + d') by lia. eapply Hwin; [|done]. unfold limit_at. by rewrite Ho.
  - rewrite (Hon plan Hzero). lia.
  - by rewrite length_replicate.
  - rewrite (Hon plan Hzero), Z.add_0_r in Hh3. split; [done|]. intros Hc.
    destruct (lookup_lt_is_Some_2 plan i) as [p Hp]; [apply lookup_lt_Some in Hi; lia|].
    destruct (Hplan i p Hp) as (key'&over&near&Hk'&Ho&_&Hpk&Hskip&_). simpl in Ho. simplify_eq.
    rewrite (Hres i p Hp).
    + rewrite Hon by (by apply Forall_take). by rewrite Z.add_0_r.
    + unfold touches, selected. rewrite Hskip, !bool_decide_false by done.
      rewrite bool_decide_true by done. unfold b. by rewrite eqb_reflx.
Qed.

(** ** What is executed after the checks *)

Section after.
Context (this : fixedRateLimitCacheImpl) (h : list RateLimit) (keys : list CacheKey)
  (limits : list (option loc)) (hits T now : Z) (count : nat → Z) (e e' : E)
  (ss : list DescriptorStatus) (ds : list (Counter * Z)).
Hypothesis Hdist : distinct_clients this.
Hypothesis Hhits : 0 <= hits.
Hypothesis Hkeyed : keyed h keys limits.
Hypothesis Hempty : ∀ i o, limits !! i = Some o →
  ∃ key, keys !! i = Some key ∧ (ck_Key key = "" ↔ o = None).
Hypothesis Hcounts : counts_known this keys hits T count e.
Hypothesis Hnow : now <= time e.
Hypothesis HT : time e' < T.
Hypothesis Hlim : ∀ i rl d, limit_at h limits i = Some rl →
  unit_seconds (pl_Unit (rl_Limit rl)) = Some d →
  is_u32 (pl_RequestsPerUnit (rl_Limit rl)) ∧ T <= now + d.

Lemma executed_stop c :
  distinct_keys keys → stop_checks h limits hits count (length keys) c →
  executed this h keys limits hits c e ss e' ds →
  all_or_nothing this h keys limits hits T count ss e'.
Proof.
  intros Hdk Hmarks (plan&e1&e2&e3&rs1&rs2&Hu&Hpl&Hplan&Hx1&Hx2&Ht&He&_&Hl&Hans&_) i rl Hrl.
  destruct (limit_at_key _ _ _ _ _ Hkeyed Hempty Hrl) as (key&d&Hkey&Hne&Hd).
  destruct (Hlim i rl d Hrl Hd) as [HN Hwin]. pose proof (proj1 Hu).
  destruct (stop_increments this h keys limits hits count c plan T now e1 e2 e3 rs1 rs2 i key rl d)
    as [Hholds Hres]; try done; [by eapply counts_known_undisturbed|lia..|].
  destruct (stop_verdict this h keys limits hits count T _ _ ss e i rl Hhits Hkeyed Hempty
    (proj1 Hmarks) Hl Hans Hrl HN Hcounts) as (key'&s&Hk'&_&Hs&Hst).
  { intros key' Hk' _. simplify_eq. exact Hres. }
  simplify_eq. exists key, s. split_and!; [done|done| |apply Hst..].
  unfold holds. rewrite He. exact Hholds.
Qed.

Lemma executed_held cached :
  length cached = length keys → some_held cached = true →
  executed this h keys limits hits (held_checks (length keys) hits cached) e ss e' ds →
  nothing_charged this h keys limits T count cached ss e'.
Proof.
  intros Hlc Hsome (plan&e1&e2&e3&rs1&rs2&Hu&Hpl&Hplan&Hx1&Hx2&Ht&He&_&Hl&Hans&_) i rl Hrl N.
  destruct (limit_at_key _ _ _ _ _ Hkeyed Hempty Hrl) as (key&d&Hkey&Hne&Hd).
  destruct (Hlim i rl d Hrl Hd) as [HN _]. pose proof (proj1 Hu). pose proof (lookup_lt_Some _ _ _ Hkey).
  destruct (held_increments this h keys limits hits cached count plan T now e1 e2 e3 rs1 rs2 i key rl d)
    as [Hholds Hres]; try done; [|by eapply counts_known_undisturbed|lia..|].
  { intros j rl' d' Hrl' Hd'. by destruct (Hlim j rl' d' Hrl' Hd'). }
  destruct (lookup_lt_is_Some_2 ss i) as [s Hs]; [lia|].
  destruct (lookup_lt_is_Some_2 cached i) as [known Hknown]; [lia|].
  exists key, s, known. do 3 (split; [done|]). split; [unfold holds; rewrite He; exact Hholds|].
  destruct (Hans i s Hs) as [(key'&?&?&_)|(key'&rl'&r&b&reset&(Hk'&_&(l&Hl'&Hhl)&Hr&Hb)&->)]; [simplify_eq|].
  simpl in Hb. rewrite Hknown in Hb. injection Hb as <-.
  assert (rl' = rl) as -> by (unfold limit_at in Hrl; rewrite Hl' in Hrl; simpl in Hrl; congruence).
  unfold status_of, over_limit. cbn [st_Code st_CurrentLimit st_LimitRemaining]. fold N.
  destruct (Hcounts i key Hkey Hne) as (_&Hc0&Hc1). destruct known; [by split_and!|].
  rewrite Hr in Hres. specialize (Hres Hknown). injection Hres as ->. split_and!; [done..|]. simpl.
  fold N in HN. case_bool_decide; [lia|]. word.
Qed.
End after.

(** The same limiter in the default mode. *)
Definition without_stop (this : fixedRateLimitCacheImpl) : fixedRateLimitCacheImpl :=
  mkFixed (fx_client this) (fx_perSecondClient this) false (fx_baseRateLimiter this).

(** With one key the mode makes no difference to the rest of [DoLimit]. *)
Lemma single_checks_agree this key limits hits w :
  let rest this c :=
    '(pipeline, perSecondPipeline) ← setup_pipelines this [key] limits hits c;
    results ← run_pipeline (Some (fx_client this)) pipeline [0];
    results ← run_pipeline (fx_perSecondClient this) perSecondPipeline results;
    statuses this [key] limits hits results c in
  (check_stop this [key] limits hits 1 (initial_checks 1 hits) ≫= rest this) w =
  (check_local (without_stop this) [key] limits (initial_checks 1 hits) ≫= rest (without_stop this)) w.
Proof.
  intros rest. unfold rest, check_stop, check_local_and_get, check_local, range. cbn [range_from].
  unfold mbind, M_bind. destruct (decide (ck_Key key = "")) as [Hk|Hk]; [done|]. cbn [without_stop fx_baseRateLimiter].
  destruct (IsOverLimitWithLocalCache _ _ w) as [[[]|p|c] w1]; [|by destruct (uses_per_second this key)|done..].
  destruct (index limits 0 w1) as [[o|p|c] w2]; [|done..]. destruct (deref o w2) as [[rl|p|c] w3]; [|done..].
  cbn -[statuses run_pipeline setup_pipelines]. unfold setup_pipelines, statuses, range. cbn [range_from].
  unfold mbind, M_bind. by destruct (decide (ck_Key key = "")).
Qed.

(** C12: for a request of at most one descriptor, [stopCacheKeyIncrementWhenOverlimit]
    changes nothing: the same answers, the same counts and statistics and the same
    commands to redis, panics included.  So everything shown of sequences of such
    requests in the default mode holds in this mode too. *)
Theorem DoLimit_stop_single this req limits w :
  request_ok req limits w → (length limits <= 1)%nat →
  DoLimit this req limits w = DoLimit (without_stop this) req limits w.
Proof.
  intros [Hlen Hgood] Hn. destruct this as [c pc [] base]; [|done]. unfold DoLimit.
  cbn [without_stop fx_client fx_perSecondClient fx_baseRateLimiter fx_stopCacheKeyIncrementWhenOverlimit].
  erewrite !(bind_Ret (GenerateCacheKeys _ _ _ _)) by (by apply GenerateCacheKeys_run).
  destruct limits as [|o [|]]; simpl in Hn; [| |lia]; destruct (rq_Descriptors req) as [|desc [|]]; try done.
  exact (single_checks_agree (mkFixed c pc true base) _ _ _ _).
Qed.

(** C5: with [stopCacheKeyIncrementWhenOverlimit], a request is charged all or
    nothing.  For a request of several descriptors whose counts in the window are
    known, if none of its keys is found over its limit in the local cache: if it
    would pass none of the limits, every key is charged with its hits; if it
    would pass some, exactly those are charged and the quota of the others is
    left as it was; each descriptor is answered OVER_LIMIT exactly when the
    request would pass its own limit (outside shadow mode), with the quota that
    is then left.  If the local cache has some of the keys, no key is charged:
    those descriptors are answered OVER_LIMIT, the others by their counts. *)
Theorem DoLimit_stop_all_or_nothing this req limits w count T :
  let hits := Max 1 (rq_HitsAddend req) in
  let keys := request_keys (fx_baseRateLimiter this) req limits w in
  fx_stopCacheKeyIncrementWhenOverlimit this = true → distinct_clients this → jitter_ok this →
  request_ok req limits w → (1 < length limits)%nat → distinct_keys keys →
  counts_known this keys hits T count (w_ext w) →
  (∀ i rl d, limit_at (w_heap w) limits i = Some rl → unit_seconds (pl_Unit (rl_Limit rl)) = Some d →
     is_u32 (pl_RequestsPerUnit (rl_Limit rl)) ∧ T <= (unix_now (w_ext w)).1 + d) →
  wp redis_failure (DoLimit this req limits) w (λ ss w',
    w_heap w' = w_heap w ∧ length ss = length limits ∧
    ∃ cached, flags_held keys cached (w_ext w) ∧
    (time (w_ext w') < T →
     if some_held cached then nothing_charged this (w_heap w) keys limits T count cached ss (w_ext w')
     else all_or_nothing this (w_heap w) keys limits hits T count ss (w_ext w'))).
Proof.
  intros hits keys Hstop Hdist Hjit Hreq Hn Hdk Hcounts Hlim.
  pose proof Hreq as [Hlen Hgood]. assert (0 <= hits) as Hhits by (unfold hits; rewrite Max_max; lia).
  destruct (request_keyed (fx_baseRateLimiter this) req limits w Hlen Hgood) as [Hkeyed Hkl].
  fold keys in Hkeyed, Hkl. assert (length keys = length limits) as Hkl' by lia.
  assert (∀ i o, limits !! i = Some o → ∃ key, keys !! i = Some key ∧ (ck_Key key = "" ↔ o = None)) as Hempty
    by (intros i o Ho; by apply request_keys_empty).
  unfold DoLimit. eapply wp_bind_Ret; [by apply GenerateCacheKeys_run|]. fold hits.
  fold (request_keys (fx_baseRateLimiter this) req limits w). rewrite Hstop, <-Hkl. fold keys.
  destruct (unix_now (w_ext w)) as [now e0] eqn:Hnow. apply law_now in Hnow as [Hu0 Ht0]. simpl in Hlim |- *.
  set (w0 := mkWorld _ _ e0).
  eapply wp_bind; [apply (check_stop_marks this keys limits hits count T w0); [done|lia|done| |]|].
  { intros i key Hi Hk. unfold limit_at. destruct (limits !! i) as [o|] eqn:Ho; [|done].
    destruct (Hempty i o Ho) as (key'&?&Hiff). simplify_eq. by rewrite (proj1 Hiff Hk). }
  { by eapply counts_known_undisturbed. }
  intros c w1 (Hh1&Hl1&cached&Hflags&Hmarks). simpl in Hh1, Hflags, Hmarks.
  eapply wp_mono; [apply after_checks_ok; [by rewrite Hh1|done|done]|].
  intros ss w5 [Hh5 (ds&Hex&_)]. rewrite Hh1 in Hex. destruct (executed_time _ _ _ _ _ _ _ _ _ _ Hex) as [Ht5 Hl5].
  split; [congruence|]. split; [lia|]. exists cached. split.
  { destruct Hflags as [Hlf Hf]. split; [done|]. intros i key Hi Hc. destruct (Hf i key Hi Hc). split; [done|].
    by apply Hu0. }
  intros HT. destruct Hmarks as [Hu1 Hmarks]; [lia|]. pose proof (proj1 Hu1).
  assert (counts_known this keys hits T count (w_ext w1)) as Hcounts1.
  { eapply counts_known_undisturbed; [|exact Hcounts]. by etransitivity. }
  destruct (some_held cached) eqn:Hsome.
  - subst c. eapply (executed_held this (w_heap w) keys limits hits T now); try done; [lia|apply Hflags].
  - eapply (executed_stop this (w_heap w) keys limits hits T now); try done. lia.
Qed.
End stop.

(** ** On the simulated redis *)

Definition stop_limiter : fixedRateLimitCacheImpl :=
  NewFixedRateLimitCacheImpl (mkClient 0 true) None 300 true ratio_default "" true.

Definition stop_request : RateLimitRequest :=
  mkRequest "d" [mkDescriptor [mkEntry "a" "x"] None; mkDescriptor [mkEntry "b" "y"] None] 2.

(** Five per minute with four hits in, and ten per minute with three. *)
Definition stop_world : World Sim :=
  mkWorld (w_heap sim_start) ∅
    (mkSim 100 ∅ {[ (0%nat, "d_a_x_60") := (4, Some 130); (0%nat, "d_b_y_60") := (3, Some 130) ]}).

Lemma DoLimit_stop_all_or_nothing_witness :
  ∃ ss w', DoLimit stop_limiter stop_request [Some 0%nat; Some 1%nat] stop_world = (Ret ss, w') ∧
    st_Code <$> ss = [Code_OVER_LIMIT; Code_OK] ∧ st_LimitRemaining <$> ss = [0; 7] ∧
    holds 0 "d_a_x_60" 6 120 (w_ext w') ∧ holds 0 "d_b_y_60" 3 120 (w_ext w').
Proof.
  set (count := λ i : nat, match i with 0%nat => 4 | _ => 3 end).
  pose proof (DoLimit_stop_all_or_nothing stop_limiter stop_request [Some 0%nat; Some 1%nat] stop_world count 120
    eq_refl ltac:(by vm_compute) ltac:(by vm_compute)) as Hans.
  assert (returned_before 120 (DoLimit stop_limiter stop_request [Some 0%nat; Some 1%nat] stop_world) = true)
    as Hret by (vm_compute; reflexivity).
  unfold wp in Hans. revert Hans Hret.
  destruct (DoLimit stop_limiter stop_request _ stop_world) as [[ss|p|c] w']; [|intros _ [=]..].
  intros Hans Ht%Z.ltb_lt. exists ss, w'. split; [reflexivity|].
  destruct Hans as (_&Hlen&cached&Hflags&Hans).
  - split; [done|]. by repeat (constructor; try (by eexists _, _)).
  - simpl. lia.
  - intros [|[|i]] [|[|j]] key key' Hi Hj _ Hk; simplify_eq/=; done.
  - intros [|[|i]] key Hi _; simplify_eq/=; by vm_compute.
  - intros [|[|i]] rl d Hrl Hd; [| |done]; injection Hrl as <-; injection Hd as <-; by vm_compute.
  - specialize (Hans Ht). rewrite (some_held_empty _ _ _ Hflags) in Hans.
    2: { intros k Hh. change (k ∈ (∅ : gset string)) in Hh. by apply not_elem_of_empty in Hh. }
    destruct (Hans 0%nat _ eq_refl) as (k0&s0&Hk0&Hs0&Hh0&Hc0&_&Hr0).
    destruct (Hans 1%nat _ eq_refl) as (k1&s1&Hk1&Hs1&Hh1&Hc1&_&Hr1).
    injection Hk0 as <-. injection Hk1 as <-.
    destruct ss as [|? [|? [|? ss]]]; simplify_eq/=. rewrite Hc0, Hc1, Hr0, Hr1. done.
Defined.

(** One descriptor with the limit known to be passed: no command is sent. *)
Definition stop_single_world : World Sim :=
  mkWorld (w_heap sim_start) ∅ (mkSim 100 {[ "d_a_x_60" ]} {[ (0%nat, "d_a_x_60") := (6, Some 130) ]}).

Lemma DoLimit_stop_single_witness :
  DoLimit stop_limiter (mkRequest "d" [sim_desc] 2) [Some 0%nat] stop_single_world =
    DoLimit (without_stop stop_limiter) (mkRequest "d" [sim_desc] 2) [Some 0%nat] stop_single_world ∧
  (DoLimit (without_stop stop_limiter) (mkRequest "d" [sim_desc] 2) [Some 0%nat] stop_single_world).2.(w_ext).(sim_redis)
    = sim_redis (w_ext stop_single_world).
Proof.
  split; [|by vm_compute]. apply DoLimit_stop_single; [|simpl; lia].
  split; [done|]. by repeat (constructor; try (by eexists _, _)).
Defined.
