(* ===== verification/RedisConcurrent.v ===== *)
(** * Many requests at once, on many replicas of the service

    Requests are served by concurrent goroutines, of several replicas that share
    one redis and have a local cache each.  The system is a step relation: a step
    runs the code of one request up to its commands, executes one command, or
    runs the code after the replies.  A pipeline is not a transaction: commands
    of other requests may come between its own.  Whatever the interleaving,
    the hits a limit admits in a window never exceed it. *)

From S2P Require Import Prelude GoStrings World Utils Limiter LimiterSpec CountSpec Redis.
From S2P Require Import RedisSpec RedisLimit Simulated RedisWindow.

#[local] Open Scope Z_scope.

(** ** The order of increments

    A log of (request, hits) in the order of the increments. *)

Definition hits_log : Set := list (nat * Z).

Definition logged (lg : hits_log) : Z := sumZ lg.*2.

(** Request [t] added [h] hits and was told [r], the total up to its own. *)
Definition counted (lg : hits_log) (t : nat) (h r : Z) : Prop :=
  ∃ before after, lg = before ++ (t, h) :: after ∧ r = logged before + h.

(** The entries whose running total, from [s], is within [N]. *)
Fixpoint within (N s : Z) (lg : hits_log) : hits_log :=
  match lg with
  | [] => []
  | (t, h) :: lg' =>
      if decide (s + h <= N) then (t, h) :: within N (s + h) lg' else within N (s + h) lg'
  end.

#[local] Abbreviation nonneg_log := (Forall (λ e : nat * Z, 0 <= e.2)).

Lemma logged_app lg lg' : logged (lg ++ lg') = logged lg + logged lg'.
Proof. unfold logged. by rewrite fmap_app, sumZ_app. Qed.

Lemma logged_nonneg lg : nonneg_log lg → 0 <= logged lg.
Proof. intros Hlg. by apply sumZ_nonneg, Forall_fmap. Qed.

Lemma within_over N lg : ∀ s, nonneg_log lg → N < s → within N s lg = [].
Proof.
  induction lg as [|[t h] lg IH]; intros s; simpl; [done|]. intros [Hh Hlg]%Forall_cons Hs. simpl in Hh.
  rewrite decide_False by lia. apply IH; [done|lia].
Qed.

Lemma within_bound N lg : ∀ s, nonneg_log lg → s <= N → s + logged (within N s lg) <= N.
Proof.
  induction lg as [|[t h] lg IH]; intros s; simpl; [unfold logged; simpl; lia|].
  intros [Hh Hlg]%Forall_cons Hs. simpl in Hh. case_decide as Hle.
  - change (logged ((t, h) :: within N (s + h) lg)) with (h + logged (within N (s + h) lg)).
    specialize (IH (s + h) Hlg Hle). lia.
  - rewrite within_over by (done || lia). unfold logged; simpl. lia.
Qed.

Lemma within_sublist N lg : ∀ s, within N s lg `sublist_of` lg.
Proof.
  induction lg as [|[t h] lg IH]; intros s; simpl; [done|].
  case_decide; by constructor.
Qed.

Lemma within_counted N lg t h r :
  counted lg t h r → r <= N → (t, h) ∈ within N 0 lg.
Proof.
  intros (before&after&->&->) HN. replace (logged before + h) with (0 + logged before + h) in HN by lia.
  revert HN. generalize 0. induction before as [|[t' h'] before IH]; intros s HN; simpl.
  - change (logged []) with 0 in HN. rewrite decide_True by lia. left.
  - change (logged ((t', h') :: before)) with (h' + logged before) in HN.
    case_decide; [right|]; apply IH; lia.
Qed.

Lemma counted_app lg lg' t h r : counted lg t h r → counted (lg ++ lg') t h r.
Proof. intros (before&after&->&->). exists before, (after ++ lg'). by rewrite <-app_assoc. Qed.

Lemma counted_snoc lg t h : counted (lg ++ [(t, h)]) t h (logged lg + h).
Proof. by exists lg, []. Qed.

Lemma counted_le lg t h r : nonneg_log lg → counted lg t h r → r <= logged lg.
Proof.
  intros Hlg (before&after&->&->). apply Forall_app in Hlg as [_ [_ Hafter]%Forall_cons].
  rewrite logged_app. change (logged ((t, h) :: after)) with (h + logged after).
  pose proof (logged_nonneg after Hafter). lia.
Qed.

Lemma counted_elem lg t h r : counted lg t h r → t ∈ lg.*1.
Proof. intros (before&after&->&_). rewrite fmap_app. apply elem_of_app. right. left. Qed.

(** ** Sums over a log against sums over the requests *)

Section sums.
Context {A : Type} (f : A → Z).

Lemma log_remove (lg : hits_log) n h :
  (n, h) ∈ lg → NoDup lg.*1 → ∃ lg', lg ≡ₚ (n, h) :: lg' ∧ NoDup lg'.*1 ∧ n ∉ lg'.*1.
Proof.
  intros Hin Hnd. apply list_elem_of_split in Hin as (l1&l2&->). exists (l1 ++ l2).
  split; [by rewrite Permutation_middle|]. rewrite fmap_app in *. simpl in Hnd.
  rewrite <-Permutation_middle in Hnd. apply NoDup_cons in Hnd as [? ?]. done.
Qed.

Lemma logged_perm lg lg' : lg ≡ₚ lg' → logged lg = logged lg'.
Proof.
  intros Hp. unfold logged. induction Hp; rewrite ?fmap_cons, ?sumZ_cons; lia.
Qed.

(** Requests found in the log add up to no more than the log. *)
Lemma sum_le_log (xs : list A) : ∀ lg,
  NoDup lg.*1 → nonneg_log lg →
  (∀ t x, xs !! t = Some x → f x = 0 ∨ (t, f x) ∈ lg) → sumZ (f <$> xs) <= logged lg.
Proof.
  induction xs as [|x xs IH] using rev_ind; intros lg Hnd Hpos Hin.
  { by apply logged_nonneg. }
  rewrite fmap_app, sumZ_app. unfold sumZ at 2; simpl.
  destruct (Hin (length xs) x) as [H0|Hx]; [by apply list_lookup_middle| |].
  - rewrite H0. replace (sumZ (f <$> xs) + (0 + 0)) with (sumZ (f <$> xs)) by lia.
    apply IH; [done..|]. intros t y Hy. apply Hin. by apply lookup_app_l_Some.
  - destruct (log_remove _ _ _ Hx Hnd) as (lg'&Hp&Hnd'&Hni). rewrite (logged_perm _ _ Hp).
    change (logged ((length xs, f x) :: lg')) with (f x + logged lg').
    enough (sumZ (f <$> xs) <= logged lg') by lia. apply IH; [done| |].
    + rewrite Hp in Hpos. by apply Forall_cons in Hpos as [_ ?].
    + intros t y Hy. destruct (Hin t y) as [?|Hty]; [by apply lookup_app_l_Some|by left|right].
      rewrite Hp in Hty. apply elem_of_cons in Hty as [[= -> _]|?]; [|done].
      apply lookup_lt_Some in Hy. lia.
Qed.

(** The log adds up to no more than the requests it is of. *)
Lemma log_le_sum (xs : list A) : ∀ lg,
  NoDup lg.*1 → Forall (λ x, 0 <= f x) xs →
  (∀ t h, (t, h) ∈ lg → ∃ x, xs !! t = Some x ∧ h = f x) → logged lg <= sumZ (f <$> xs).
Proof.
  induction xs as [|x xs IH] using rev_ind; intros lg Hnd Hpos Hin.
  { destruct lg as [|[t h] lg]; [unfold logged; simpl; lia|].
    destruct (Hin t h) as (?&?&_); [left|done]. }
  apply Forall_app in Hpos as [Hpos [Hx _]%Forall_cons].
  rewrite fmap_app, sumZ_app. unfold sumZ at 2; simpl.
  destruct (decide (length xs ∈ lg.*1)) as [Hl|Hl].
  - apply list_elem_of_fmap in Hl as ([t h]&Ht&Hl). simpl in Ht. subst t.
    destruct (Hin _ h Hl) as (y&Hy&->). rewrite list_lookup_middle in Hy by done. injection Hy as <-.
    destruct (log_remove _ _ _ Hl Hnd) as (lg'&Hp&Hnd'&Hni). rewrite (logged_perm _ _ Hp).
    change (logged ((length xs, f x) :: lg')) with (f x + logged lg').
    enough (logged lg' <= sumZ (f <$> xs)) by lia. apply IH; [done..|]. intros t h Hth.
    destruct (Hin t h) as (y&Hy&->); [rewrite Hp; by right|].
    exists y. split; [|done]. apply lookup_app_Some in Hy as [?|[Hge Hy]]; [done|].
    apply list_lookup_singleton_Some in Hy as [Hz _]. destruct Hni.
    replace (length xs) with t by lia. by apply (list_elem_of_fmap_2 fst lg' (t, f y)).
  - enough (logged lg <= sumZ (f <$> xs)) by lia. apply IH; [done..|]. intros t h Hth.
    destruct (Hin t h Hth) as (y&Hy&->). exists y. split; [|done].
    apply lookup_app_Some in Hy as [?|[Hge Hy]]; [done|].
    apply list_lookup_singleton_Some in Hy as [Hz _]. destruct Hl.
    replace (length xs) with t by lia. by apply (list_elem_of_fmap_2 fst lg (t, f y)).
Qed.
End sums.

(** ** The system *)

Inductive phase : Set :=
  | Arrived
  | Counting (keys : list CacheKey) (c : checks) (todo : list (nat * CmdAction)) (slots : list Z)
  | Answered (ss : list DescriptorStatus).

(** A goroutine that serves a request. *)
Record thread : Set := mkThread {
  th_replica : nat;
  th_hits : Z;
  th_phase : phase;
}.

Definition hits_of (th : thread) : Z := Max 1 (th_hits th).

(** A replica: its limiter, its memory, its statistics and its local cache;
    [rp_limit] points to the limit of the descriptor. *)
Record replica (L : Type) : Type := mkReplica {
  rp_limiter : fixedRateLimitCacheImpl;
  rp_heap : list RateLimit;
  rp_counters : gmap Counter Z;
  rp_local : L;
  rp_limit : loc;
}.
Arguments mkReplica {_} _ _ _ _ _.
Arguments rp_limiter {_} _.
Arguments rp_heap {_} _.
Arguments rp_counters {_} _.
Arguments rp_local {_} _.
Arguments rp_limit {_} _.

Record system (L R : Type) : Type := mkSystem {
  sy_replicas : list (replica L);
  sy_redis : R;
  sy_threads : list thread;
}.
Arguments mkSystem {_ _} _ _ _.
Arguments sy_replicas {_ _} _.
Arguments sy_redis {_ _} _.
Arguments sy_threads {_ _} _.

(** Redis and the clock are shared, local caches are not. *)
Class SharedView (L R : Type) `{CountView (L * R)} : Prop := {
  shared_time l l' r : time (l, r) = time (l' : L, r : R);
  shared_entry c k l l' r : entry c k (l, r) = entry c k (l' : L, r : R);
  local_held k l r r' : held k (l : L, r) → held k (l, r' : R);
}.

Section system.
Context {L R : Type} `{RedisLaws (L * R)}.
Context (domain : string) (desc : Descriptor).
#[local] Abbreviation W := (World (L * R)).

(** The code of [DoLimit] before its commands. *)
Definition prepare this (request : RateLimitRequest) (limits : list (option loc))
  : M W (list CacheKey * checks * option Pipeline * option Pipeline) :=
  let hitsAddend := Max 1 (rq_HitsAddend request) in
  let n := length (rq_Descriptors request) in
  cacheKeys ← GenerateCacheKeys (fx_baseRateLimiter this) request limits hitsAddend;
  c ← check_local this cacheKeys limits (initial_checks n hitsAddend);
  '(pipeline, perSecondPipeline) ← setup_pipelines this cacheKeys limits hitsAddend c;
  mret (cacheKeys, c, pipeline, perSecondPipeline).

(** The commands of a request, with the client each goes to. *)
Definition pending this (p1 p2 : option Pipeline) : list (nat * CmdAction) :=
  ((λ cmd, (client_id this false, cmd)) <$> pipe_or_new p1) ++
  ((λ cmd, (client_id this true, cmd)) <$> pipe_or_new p2).

Definition request_of (th : thread) : RateLimitRequest := mkRequest domain [desc] (th_hits th).

Definition world_of (rp : replica L) (r : R) : W :=
  mkWorld (rp_heap rp) (rp_counters rp) (rp_local rp, r).

Definition replica_after (rp : replica L) (w : W) : replica L :=
  mkReplica (rp_limiter rp) (w_heap w) (w_counters w) (w_ext w).1 (rp_limit rp).

Definition advance (sys : system L R) (t : nat) (th : thread) (rp : replica L) (w : W) (ph : phase)
  : system L R :=
  mkSystem (<[th_replica th := replica_after rp w]> (sy_replicas sys)) (w_ext w).2
    (<[t := mkThread (th_replica th) (th_hits th) ph]> (sy_threads sys)).

(** Request [t], in phase [ph], runs on replica [rp]. *)
Definition runs (sys : system L R) (t : nat) (th : thread) (rp : replica L) (ph : phase) : Prop :=
  sy_threads sys !! t = Some th ∧ sy_replicas sys !! th_replica th = Some rp ∧ th_phase th = ph.

Inductive step : system L R → system L R → Prop :=
  | step_prepare sys t th rp keys c p1 p2 w' :
      runs sys t th rp Arrived →
      prepare (rp_limiter rp) (request_of th) [Some (rp_limit rp)] (world_of rp (sy_redis sys)) =
        (Ret (keys, c, p1, p2), w') →
      step sys (advance sys t th rp w'
                  (Counting keys c (pending (rp_limiter rp) p1 p2) (replicate 1 0)))
  | step_command sys t th rp keys c cl cmd todo slots reply e' :
      runs sys t th rp (Counting keys c ((cl, cmd) :: todo) slots) →
      exec1 cl cmd (rp_local rp, sy_redis sys) reply e' →
      step sys (advance sys t th rp (mkWorld (rp_heap rp) (rp_counters rp) e')
                  (Counting keys c todo (deliver [cmd] [reply] slots)))
  | step_finish sys t th rp keys c slots ss w' :
      runs sys t th rp (Counting keys c [] slots) →
      statuses (rp_limiter rp) keys [Some (rp_limit rp)] (hits_of th) slots c
        (world_of rp (sy_redis sys)) = (Ret ss, w') →
      step sys (advance sys t th rp w' (Answered ss))
  | step_idle sys i rp e' :
      sy_replicas sys !! i = Some rp → undisturbed (rp_local rp, sy_redis sys) e' →
      step sys (mkSystem (<[i := replica_after rp (mkWorld (rp_heap rp) (rp_counters rp) e')]>
                            (sy_replicas sys)) e'.2 (sy_threads sys)).

(** ** [DoLimit] is a run of the system *)

Lemma DoLimit_phases this req limits (w : W) :
  fx_stopCacheKeyIncrementWhenOverlimit this = false →
  DoLimit this req limits w =
    ('(keys, c, p1, p2) ← prepare this req limits;
     results ← run_pipeline (Some (fx_client this)) p1 (replicate (length (rq_Descriptors req)) 0);
     results ← run_pipeline (fx_perSecondClient this) p2 results;
     statuses this keys limits (Max 1 (rq_HitsAddend req)) results c) w.
Proof.
  intros Hstop. unfold DoLimit, prepare. rewrite Hstop. unfold mbind, M_bind.
  destruct (GenerateCacheKeys _ req limits _ w) as [[keys|p|c] w1]; [|done..].
  destruct (check_local this keys limits _ w1) as [[c|p|c] w2]; [|done..].
  by destruct (setup_pipelines this keys limits _ c w2) as [[[p1 p2]|p|c'] w3].
Qed.

Lemma runs_advance sys t th rp ph w ph' :
  runs sys t th rp ph →
  runs (advance sys t th rp w ph') t (mkThread (th_replica th) (th_hits th) ph') (replica_after rp w) ph'.
Proof.
  intros (Ht&Hr&_). split_and!; [|simpl|done]; apply list_lookup_insert_eq; by eapply lookup_lt_Some.
Qed.

Lemma advance_advance sys t th rp w ph w' ph' :
  advance (advance sys t th rp w ph) t (mkThread (th_replica th) (th_hits th) ph) (replica_after rp w) w' ph'
  = advance sys t th rp w' ph'.
Proof. unfold advance; simpl. by rewrite !list_insert_insert_eq. Qed.

(** From now on a request's memory stays as [w] left it, and [e] moves. *)
Definition moved (w : W) (e : L * R) : W := mkWorld (w_heap w) (w_counters w) e.

Lemma execs_steps cl cs e rs e' : execs cl cs e rs e' → ∀ sys t th rp keys c todo slots w ph0,
  runs sys t th rp ph0 → w_ext w = e →
  rtc step (advance sys t th rp w (Counting keys c (((λ cmd, (cl, cmd)) <$> cs) ++ todo) slots))
    (advance sys t th rp (moved w e') (Counting keys c todo (deliver cs rs slots))).
Proof.
  induction 1 as [e e' Hu|cmd cs r rs e e' e'' Hx Hxs IH];
    intros sys t th rp keys c todo slots w ph0 Hruns Hw; subst e.
  - apply rtc_once. change (([] : list (nat * CmdAction)) ++ todo) with todo.
    assert (runs (advance sys t th rp w (Counting keys c todo slots)) t
      (mkThread (th_replica th) (th_hits th) (Counting keys c todo slots)) (replica_after rp w)
      (Counting keys c todo slots)) as (Ht&Hr&_) by (by eapply runs_advance).
    pose proof (step_idle _ _ _ e' Hr) as Hs. simpl in Hs. rewrite list_insert_insert_eq in Hs.
    destruct w as [h ctr [l r]]. by apply Hs.
  - eapply rtc_l; [|apply (IH sys t th rp keys c todo (deliver [cmd] [r] slots) (moved w e') ph0); done].
    pose proof (step_command _ t _ _ keys c cl cmd (((λ cmd, (cl, cmd)) <$> cs) ++ todo) slots r e'
      (runs_advance sys t th rp ph0 w _ Hruns)) as Hs.
    rewrite advance_advance in Hs. apply Hs. by destruct w as [? ? []].
Qed.

Lemma run_pipeline_execs (oc : option clientImpl) id p slots slots' (w w' : W) :
  (∀ c, oc = Some c → ci_client c = id) → run_pipeline oc p slots w = (Ret slots', w') →
  ∃ rs, execs id (pipe_or_new p) (w_ext w) rs (w_ext w') ∧ slots' = deliver (pipe_or_new p) rs slots ∧
    w' = moved w (w_ext w').
Proof.
  intros Hc Hrun. assert (is_Some p → ∃ c, oc = Some c ∧ ci_client c = id) as Hsome.
  { intros [q ->]. destruct oc as [c|]; [by eauto|done]. }
  pose proof (run_pipeline_ok oc id p slots w Hsome) as Hok. unfold wp in Hok. rewrite Hrun in Hok.
  destruct Hok as (Hh&Hctr&rs&Hx&->). exists rs. split_and!; [done..|].
  unfold moved. rewrite <-Hh, <-Hctr. by destruct w'.
Qed.

(** A request served alone, with nothing between its commands, is a run. *)
Lemma DoLimit_runs sys t th rp ss w' :
  runs sys t th rp Arrived → fx_stopCacheKeyIncrementWhenOverlimit (rp_limiter rp) = false →
  DoLimit (rp_limiter rp) (request_of th) [Some (rp_limit rp)] (world_of rp (sy_redis sys)) = (Ret ss, w') →
  rtc step sys (advance sys t th rp w' (Answered ss)).
Proof.
  intros Hruns Hstop Hrun. rewrite DoLimit_phases in Hrun by done.
  minv Hrun as ([[[keys c] p1] p2]&w1&Hprep&Hrun). minv Hrun as (r1&w2&Hr1&Hrun).
  minv Hrun as (r2&w3&Hr2&Hrun).
  apply (run_pipeline_execs _ (client_id (rp_limiter rp) false)) in Hr1 as (rs1&Hx1&->&Hw2);
    [|by intros ? [= <-]].
  apply (run_pipeline_execs _ (client_id (rp_limiter rp) true)) in Hr2 as (rs2&Hx2&->&Hw3);
    [|intros pc Hpc; simpl; by rewrite Hpc].
  eapply rtc_l; [by eapply step_prepare|].
  unfold pending. etrans; [eapply execs_steps; done|]. rewrite <-Hw2.
  rewrite <-(app_nil_r ((λ cmd, (client_id (rp_limiter rp) true, cmd)) <$> _)).
  etrans; [eapply execs_steps; done|]. rewrite <-Hw3. apply rtc_once.
  set (slots := deliver (pipe_or_new p2) rs2 _).
  pose proof (step_finish _ t _ _ keys c slots ss w'
    (runs_advance sys t th rp Arrived w3 (Counting keys c [] slots) Hruns)) as Hs.
  rewrite advance_advance in Hs. apply Hs. destruct w3 as [h3 c3 [l3 r3]]. exact Hrun.
Qed.
End system.

(** ** The invariant *)

Section admission.
Context {L R : Type} `{RedisLaws (L * R)} `{!SharedView L R}.
Context (domain : string) (desc : Descriptor) (rl : RateLimit) (d ws : Z) (key : CacheKey) (cid : nat).
#[local] Abbreviation W := (World (L * R)).
#[local] Abbreviation step := (step domain desc).
#[local] Abbreviation k := (ck_Key key).
#[local] Abbreviation N := (pl_RequestsPerUnit (rl_Limit rl)).
#[local] Abbreviation T := (ws + d).
Hypothesis Hd : unit_seconds (pl_Unit (rl_Limit rl)) = Some d.
Hypothesis Hws : 0 <= ws ∧ window_start ws d = ws.
Hypothesis HN : is_u32 N.

(** The replicas agree on the limit, the key of the window and the client. *)
Definition replica_ok (rp : replica L) : Prop :=
  limiter_ok (rp_limiter rp) ∧ rp_heap rp !! rp_limit rp = Some rl ∧
  window_key (fx_baseRateLimiter (rp_limiter rp)) domain desc rl ws = key ∧
  client_id (rp_limiter rp) (uses_per_second (rp_limiter rp) key) = cid.

Definition incr_cmd (h : Z) : nat * CmdAction := (cid, FlatCmd (Some 0%nat) "INCRBY" k [h]).
Definition expire_cmd (s : Z) : nat * CmdAction := (cid, FlatCmd None "EXPIRE" k [s]).

(** Where request [t] with [h] hits stands, given the increments so far. *)
Inductive progress (lg : hits_log) (t : nat) (h : Z) : phase → Prop :=
  | pg_arrived : t ∉ lg.*1 → progress lg t h Arrived
  | pg_cached r :
      t ∉ lg.*1 → N < logged lg →
      progress lg t h (Counting [key] (local_checks [key] h [true]) [] [r])
  | pg_ready s r :
      t ∉ lg.*1 → d <= s →
      progress lg t h (Counting [key] (local_checks [key] h [false]) [incr_cmd h; expire_cmd s] [r])
  | pg_counted s r :
      counted lg t h r → d <= s →
      progress lg t h (Counting [key] (local_checks [key] h [false]) [expire_cmd s] [r])
  | pg_expired r :
      counted lg t h r →
      progress lg t h (Counting [key] (local_checks [key] h [false]) [] [r])
  | pg_answered r reset :
      counted lg t h r → progress lg t h (Answered [status_of rl false r reset])
  | pg_refused r reset :
      t ∉ lg.*1 → N < logged lg → progress lg t h (Answered [status_of rl true r reset]).

Record good (sys : system L R) (lg : hits_log) : Prop := mkGood {
  g_replicas : Forall replica_ok (sy_replicas sys);
  g_nodup : NoDup lg.*1;
  g_of : ∀ t h, (t, h) ∈ lg → ∃ th, sy_threads sys !! t = Some th ∧ h = hits_of th;
  g_holds : ∀ l : L, holds cid k (logged lg) T (l, sy_redis sys);
  g_held : ∀ i rp, sy_replicas sys !! i = Some rp → held k (rp_local rp, sy_redis sys) → N < logged lg;
  g_threads : ∀ t th, sy_threads sys !! t = Some th → progress lg t (hits_of th) (th_phase th);
}.

Lemma hits_of_pos th : 1 <= hits_of th.
Proof. unfold hits_of. rewrite Max_max. lia. Qed.

Lemma good_nonneg sys lg : good sys lg → Forall (λ e : nat * Z, 0 <= e.2) lg.
Proof.
  intros Hg. apply Forall_forall. intros [t h] Hin. destruct (g_of _ _ Hg t h Hin) as (th&_&->).
  pose proof (hits_of_pos th). simpl. lia.
Qed.

Lemma progress_grow lg t h ph t' h' :
  t ≠ t' → 0 <= h' → progress lg t h ph → progress (lg ++ [(t', h')]) t h ph.
Proof.
  intros Hne Hh. assert (t ∉ lg.*1 → t ∉ (lg ++ [(t', h')]).*1) as Hni.
  { rewrite fmap_app, elem_of_app. intros Hni [?|?%list_elem_of_singleton]; done. }
  assert (N < logged lg → N < logged (lg ++ [(t', h')])) as Hlog.
  { rewrite logged_app. change (logged [(t', h')]) with (h' + 0). lia. }
  intros []; constructor; auto using counted_app.
Qed.

(** The state after a step of request [t], when the log grew by [lg']. *)
Lemma good_advance sys lg lg' t th rp ph w' ph' :
  good sys lg → runs sys t th rp ph →
  w_heap w' = rp_heap rp → lg' = lg ∨ lg' = lg ++ [(t, hits_of th)] ∧ t ∉ lg.*1 →
  (∀ l : L, holds cid k (logged lg') T (l, (w_ext w').2)) →
  (held k (w_ext w') → N < logged lg') → progress lg' t (hits_of th) ph' →
  good (advance sys t th rp w' ph') lg'.
Proof.
  intros Hg (Ht&Hr&Hph) Hheap Hlg Hh Hheld Hpg. pose proof (hits_of_pos th) as Hpos.
  assert (logged lg <= logged lg') as Hle.
  { destruct Hlg as [->|[-> _]]; [done|]. rewrite logged_app.
    change (logged [(t, hits_of th)]) with (hits_of th + 0). lia. }
  assert (∀ th' ph', hits_of (mkThread (th_replica th') (th_hits th') ph') = hits_of th') as Hsame by done.
  split; simpl; [| | |done| |].
  - apply Forall_insert; [apply Hg|]. pose proof (Forall_lookup_1 _ _ _ _ (g_replicas _ _ Hg) Hr) as (Hok&Hrl&Hkc).
    split; [done|]. split; [simpl; by rewrite Hheap|done].
  - destruct Hlg as [->|[-> Hni]]; [apply Hg|]. rewrite fmap_app. apply NoDup_app. split_and!; [apply Hg| |].
    + intros t' Ht' ->%list_elem_of_singleton. done.
    + apply NoDup_singleton.
  - intros t' h' Hin. assert (t' = t ∧ h' = hits_of th ∨ (t', h') ∈ lg) as [[-> ->]|Hin'].
    { destruct Hlg as [->|[-> _]]; [by right|]. apply elem_of_app in Hin as [?|Hin]; [by right|].
      apply list_elem_of_singleton in Hin. left. by simplify_eq. }
    + eexists. split; [apply list_lookup_insert_eq; by eapply lookup_lt_Some|done].
    + destruct (g_of _ _ Hg t' h' Hin') as (th'&Hth'&->). destruct (decide (t = t')) as [<-|Hne].
      * simplify_eq. eexists. split; [apply list_lookup_insert_eq; by eapply lookup_lt_Some|done].
      * exists th'. by rewrite list_lookup_insert_ne.
  - intros i rp' Hrp' Hk'. destruct (decide (th_replica th = i)) as [<-|Hne].
    + rewrite list_lookup_insert_eq in Hrp' by (by eapply lookup_lt_Some). injection Hrp' as <-.
      apply Hheld. rewrite (surjective_pairing (w_ext w')). exact Hk'.
    + rewrite list_lookup_insert_ne in Hrp' by done.
      pose proof (g_held _ _ Hg i rp' Hrp' (local_held _ _ _ _ Hk')). lia.
  - intros t' th' Hth'. destruct (decide (t = t')) as [<-|Hne].
    + rewrite list_lookup_insert_eq in Hth' by (by eapply lookup_lt_Some). injection Hth' as <-. done.
    + rewrite list_lookup_insert_ne in Hth' by done. pose proof (g_threads _ _ Hg t' th' Hth') as Hp.
      destruct Hlg as [->|[-> _]]; [done|]. apply progress_grow; [done|lia|done].
Qed.

(** ** Each step keeps the invariant *)

Lemma replica_key_ne rp : replica_ok rp → k ≠ "".
Proof. intros (_&_&<-&_). apply key_stem_ne. Qed.

(** The commands of a request for the one descriptor. *)
Lemma pending_single rp h flag plan p1 p2 :
  replica_ok rp → length plan = 1%nat →
  planned (rp_heap rp) [key] [Some (rp_limit rp)] h (local_checks [key] h [flag]) plan →
  realised (rp_limiter rp) plan (p1, p2) →
  ∃ s, d <= s ∧ pending (rp_limiter rp) p1 p2 = if flag then [] else [incr_cmd h; expire_cmd s].
Proof.
  intros Hok Hlen Hplan (Hp1&Hp2&_). pose proof (replica_key_ne rp Hok) as Hk.
  destruct Hok as (_&Hrl&_&Hcid). destruct plan as [|p [|? ?]]; [done| |done].
  destruct (Hplan 0%nat p eq_refl) as (key'&flag'&near&Hkey&Hf&Hnear&Hpk&Hskip&Hph&Hexp).
  simpl in Hkey, Hf, Hnear, Hph. injection Hkey as <-. injection Hf as <-. injection Hnear as <-.
  rewrite bool_decide_false, orb_false_l in Hskip by done.
  simpl in Hp1, Hp2. unfold pending. rewrite Hp1, Hp2. simpl.
  unfold selected. rewrite Hskip, Hpk, Hph. destruct flag; [exists d; by split|].
  exists (p_exp p). split; [by apply (Hexp Hskip (Some (rp_limit rp)) rl)|].
  unfold incr_cmd, expire_cmd. rewrite <-Hcid. by destruct (uses_per_second (rp_limiter rp) key).
Qed.

Lemma prepare_ok rp h r :
  replica_ok rp → ws <= time (rp_local rp, r) →
  wp redis_failure (prepare (rp_limiter rp) (mkRequest domain [desc] h) [Some (rp_limit rp)])
    (world_of rp r) (λ '(keys, c, p1, p2) w',
      w_heap w' = rp_heap rp ∧ undisturbed (rp_local rp, r) (w_ext w') ∧
      (time (w_ext w') < T → keys = [key] ∧ ∃ flag s, c = local_checks [key] (Max 1 h) [flag] ∧
         (flag = true → held k (rp_local rp, r)) ∧ d <= s ∧
         pending (rp_limiter rp) p1 p2 = if flag then [] else [incr_cmd (Max 1 h); expire_cmd s])).
Proof.
  intros Hok Htime. pose proof Hok as ((_&_&Hjit)&Hrl&Hkey&_). set (this := rp_limiter rp) in *.
  set (req := mkRequest domain [desc] h). set (limits := [Some (rp_limit rp)]). set (w := world_of rp r).
  assert (request_ok req limits w) as [Hl Hgood] by (split; [done|]; constructor; [by eexists _, _|done]).
  destruct (request_keyed (fx_baseRateLimiter this) req limits w Hl Hgood) as [Hkeyed Hkl].
  unfold prepare. eapply wp_bind_Ret; [by apply GenerateCacheKeys_run|].
  fold (request_keys (fx_baseRateLimiter this) req limits w). rewrite <-Hkl. cbn [rq_HitsAddend req].
  pose proof (request_keys_window this domain desc (rp_limit rp) rl d ws Hd Hws h w Hrl) as Hwin.
  fold req limits in Hwin. rewrite Hkey in Hwin.
  set (keys := request_keys (fx_baseRateLimiter this) req limits w) in *.
  destruct (unix_now (w_ext w)) as [now e0] eqn:Hnow. apply law_now in Hnow as [Hu0 Ht0]. simpl.
  set (w0 := mkWorld _ _ e0).
  eapply wp_bind; [by apply (check_local_ok this keys limits (Max 1 h) w0)|].
  intros c w1 [(Hh1&_&Hu1) (cached&Hflags&->)]. simpl in Hflags, Hu1, Hh1.
  eapply wp_bind; [apply (setup_pipelines_ok this keys limits (Max 1 h) _ w1); simpl;
    [by rewrite Hh1|apply Hflags|done|done]|].
  intros [p1 p2] w2 [(Hh2&_&Hu2) (plan&Hpl&Hplan&Hreal)]. apply wp_ret.
  split; [by rewrite Hh2, Hh1|]. split; [by do 2 (etransitivity; [done|])|]. intros HT.
  assert (keys = [key]) as Hkeys.
  { apply Hwin. simpl in Ht0. destruct Hu1 as [? _], Hu2 as [? _]. simpl in *. lia. }
  rewrite Hkeys in *. split; [done|]. destruct Hflags as [Hlc Hf]. destruct cached as [|flag [|? ?]]; [done| |done].
  rewrite Hh1 in Hplan.
  destruct (pending_single rp (Max 1 h) flag plan p1 p2 Hok Hpl Hplan Hreal) as (s&Hs&Hpend).
  exists flag, s. split_and!; [done| |done|done]. intros ->. apply Hu0. by apply (Hf 0%nat key).
Qed.

(** Holding does not depend on the local cache. *)
Lemma holds_shared n (l l' : L) r : holds cid k n T (l, r) → holds cid k n T (l', r).
Proof. unfold holds. by rewrite (shared_entry cid k l l' r). Qed.

Lemma holds_pair n (l : L) e : holds cid k n T e → holds cid k n T (l, e.2).
Proof. destruct e as [l' r]. apply holds_shared. Qed.

Lemma good_replica sys lg t th rp ph : good sys lg → runs sys t th rp ph → replica_ok rp.
Proof. intros Hg (_&Hr&_). by eapply Forall_lookup_1; [apply Hg|]. Qed.

Lemma good_progress sys lg t th rp ph :
  good sys lg → runs sys t th rp ph → progress lg t (hits_of th) ph.
Proof. intros Hg (Ht&_&<-). by apply Hg. Qed.

(** The hits of all requests. *)
Definition all_hits (ths : list thread) : Z := sumZ (hits_of <$> ths).

Lemma good_logged sys lg : good sys lg → logged lg <= all_hits (sy_threads sys).
Proof.
  intros Hg. apply log_le_sum; [apply Hg| |apply Hg].
  apply Forall_true. intros th. pose proof (hits_of_pos th). lia.
Qed.

Lemma good_room sys lg t th rp ph :
  good sys lg → runs sys t th rp ph → t ∉ lg.*1 → logged lg + hits_of th <= all_hits (sy_threads sys).
Proof.
  intros Hg (Ht&_&_) Hni. replace (logged lg + hits_of th) with (logged (lg ++ [(t, hits_of th)])).
  2: { rewrite logged_app. change (logged [(t, hits_of th)]) with (hits_of th + 0). lia. }
  apply log_le_sum.
  - rewrite fmap_app. apply NoDup_app. split_and!; [apply Hg| |apply NoDup_singleton].
    by intros t' Ht' ->%list_elem_of_singleton.
  - apply Forall_true. intros th'. pose proof (hits_of_pos th'). lia.
  - intros t' h' [Hin|Hin]%elem_of_app; [by apply Hg|]. apply list_elem_of_singleton in Hin.
    simplify_eq. eauto.
Qed.

Lemma step_prepare_good sys lg t th rp keys c p1 p2 w' :
  good sys lg → ws <= time (rp_local rp, sy_redis sys) → time (w_ext w') < T → runs sys t th rp Arrived →
  prepare (rp_limiter rp) (request_of domain desc th) [Some (rp_limit rp)] (world_of rp (sy_redis sys)) =
    (Ret (keys, c, p1, p2), w') →
  good (advance sys t th rp w' (Counting keys c (pending (rp_limiter rp) p1 p2) (replicate 1 0))) lg.
Proof.
  intros Hg Htime HT Hruns Hrun. pose proof (good_progress _ _ _ _ _ _ Hg Hruns) as Hp.
  inversion Hp as [Hni| | | | | |]; subst.
  pose proof (prepare_ok rp (th_hits th) (sy_redis sys) (good_replica _ _ _ _ _ _ Hg Hruns) Htime) as Hok.
  unfold wp, request_of in *. rewrite Hrun in Hok. destruct Hok as (Hheap&Hu&Hok).
  destruct (Hok HT) as (->&flag&s&->&Hheld&Hs&Hpend). rewrite Hpend. fold (hits_of th).
  assert (held k (rp_local rp, sy_redis sys) → N < logged lg) as Hgh.
  { destruct Hruns as (_&Hr&_). by eapply g_held. }
  eapply good_advance; [done|done|done|by left| | |].
  - intros l. apply holds_pair. eapply holds_undisturbed; [exact Hu|]. by apply Hg.
  - intros Hk. apply Hgh. by apply Hu.
  - destruct flag; [|by constructor]. constructor; [done|]. by apply Hgh, Hheld.
Qed.

Lemma step_command_good sys lg t th rp keys c cl cmd todo slots reply e' :
  good sys lg → all_hits (sy_threads sys) < 2 ^ 32 → ws <= time (rp_local rp, sy_redis sys) → time e' < T →
  runs sys t th rp (Counting keys c ((cl, cmd) :: todo) slots) →
  exec1 cl cmd (rp_local rp, sy_redis sys) reply e' →
  ∃ lg', good (advance sys t th rp (mkWorld (rp_heap rp) (rp_counters rp) e')
                 (Counting keys c todo (deliver [cmd] [reply] slots))) lg'.
Proof.
  intros Hg Hfits Htime HT Hruns Hx. pose proof (good_progress _ _ _ _ _ _ Hg Hruns) as Hp.
  pose proof (g_holds _ _ Hg (rp_local rp)) as Hh. pose proof (hits_of_pos th) as Hpos.
  pose proof (logged_nonneg lg (good_nonneg _ _ Hg)) as Hlg.
  assert (held k e' → N < logged lg) as Hgh.
  { intros Hk. destruct Hruns as (_&Hr&_). eapply g_held; [done..|]. by apply Hx. }
  inversion Hp as [| |s r Hni Hs|s r Hc Hs| | |]; subst.
  - pose proof (good_room _ _ _ _ _ _ Hg Hruns Hni) as Hroom.
    destruct (holds_incr _ _ _ _ _ _ _ _ _ Hx Hh) as [Hh' ->]; [done|unfold is_u32; lia|].
    exists (lg ++ [(t, hits_of th)]).
    assert (logged (lg ++ [(t, hits_of th)]) = logged lg + hits_of th) as Hl.
    { rewrite logged_app. change (logged [(t, hits_of th)]) with (hits_of th + 0). lia. }
    eapply good_advance; [done|done|done|by right| | |]; rewrite ?Hl.
    + intros l. by apply holds_pair.
    + intros Hk%Hgh. lia.
    + constructor; [apply counted_snoc|done].
  - exists lg. eapply good_advance; [done|done|done|by left| |done|by constructor].
    intros l. apply holds_pair. eapply holds_expire; [done..|lia].
Qed.

Lemma step_finish_good sys lg t th rp keys c slots ss w' :
  good sys lg → runs sys t th rp (Counting keys c [] slots) →
  statuses (rp_limiter rp) keys [Some (rp_limit rp)] (hits_of th) slots c (world_of rp (sy_redis sys)) =
    (Ret ss, w') →
  good (advance sys t th rp w' (Answered ss)) lg.
Proof.
  intros Hg Hruns Hrun. pose proof (good_progress _ _ _ _ _ _ Hg Hruns) as Hp.
  destruct (good_replica _ _ _ _ _ _ Hg Hruns) as (_&Hrl&_).
  assert (held k (rp_local rp, sy_redis sys) → N < logged lg) as Hgh.
  { destruct Hruns as (_&Hr&_). by eapply g_held. }
  assert (∃ flag r, keys = [key] ∧ c = local_checks [key] (hits_of th) [flag] ∧ slots = [r] ∧
    (if flag then (t ∉ lg.*1) ∧ N < logged lg else counted lg t (hits_of th) r)) as (flag&r&->&->&->&Hflag).
  { inversion Hp; subst; [exists true|exists false]; eauto 10. }
  assert (keyed (w_heap (world_of rp (sy_redis sys))) [key] [Some (rp_limit rp)]) as Hkeyed.
  { split; [done|]. intros [|i] key' Hi _; [|done]. by eexists _, _, _. }
  pose proof (statuses_ok (rp_limiter rp) [key] [Some (rp_limit rp)] (hits_of th) [r]
    (local_checks [key] (hits_of th) [flag]) (world_of rp (sy_redis sys)) Hkeyed eq_refl eq_refl) as Hok.
  unfold wp in Hok. rewrite Hrun in Hok. destruct Hok as (Hheap&_&He&Hho&Hlen&Hans).
  assert (k ≠ "") as Hk by exact (replica_key_ne rp (good_replica _ _ _ _ _ _ Hg Hruns)).
  destruct ss as [|s [|? ?]]; [done| |done].
  eapply good_advance; [done|done|done|by left| | |].
  - intros l. apply holds_pair. unfold holds. rewrite He. apply Hg.
  - intros [Hheld|(i&key'&rl'&r'&Hj&Hk'&Hover)]%Hho; [by apply Hgh|].
    destruct Hj as (Hi&_&(l&Hl&Hrl')&Hr'&Hf). destruct i as [|i]; [|done]. simpl in *. simplify_eq.
    pose proof (counted_le _ _ _ _ (good_nonneg _ _ Hg) Hflag). lia.
  - destruct (Hans 0%nat s eq_refl) as [(key'&Hi&Hk'&_)|(key'&rl'&r'&b&reset&Hj&->)]; [injection Hi as <-; done|].
    destruct Hj as (Hi&_&(l&Hl&Hrl')&Hr'&Hf). simpl in *. injection Hl as <-. injection Hr' as <-. injection Hf as <-.
    assert (rl' = rl) as -> by congruence.
    destruct flag; [destruct Hflag|]; by constructor.
Qed.

Lemma step_idle_good sys lg i rp e' :
  good sys lg → sy_replicas sys !! i = Some rp → undisturbed (rp_local rp, sy_redis sys) e' →
  good (mkSystem (<[i := replica_after rp (mkWorld (rp_heap rp) (rp_counters rp) e')]> (sy_replicas sys))
          e'.2 (sy_threads sys)) lg.
Proof.
  intros Hg Hr Hu. split; simpl; [|apply Hg..| | |apply Hg].
  - apply Forall_insert; [apply Hg|]. exact (Forall_lookup_1 _ _ _ _ (g_replicas _ _ Hg) Hr).
  - intros l. apply holds_pair. eapply holds_undisturbed; [exact Hu|]. by apply Hg.
  - intros j rp' Hrp' Hk. destruct (decide (i = j)) as [<-|Hne].
    + rewrite list_lookup_insert_eq in Hrp' by (by eapply lookup_lt_Some). injection Hrp' as <-. simpl in Hk.
      eapply g_held; [done..|]. apply Hu. by rewrite (surjective_pairing e').
    + rewrite list_lookup_insert_ne in Hrp' by done. eapply g_held; [done..|]. by eapply local_held.
Qed.

(** ** Runs within the window *)

(** A step that ends before the window does; time does not run backwards. *)
Definition step_within (sys sys' : system L R) : Prop :=
  step sys sys' ∧ ∀ l : L, ws <= time (l, sy_redis sys) ∧ time (l, sy_redis sys') < T.

Lemma step_threads sys sys' : step sys sys' → hits_of <$> sy_threads sys' = hits_of <$> sy_threads sys.
Proof.
  assert (∀ t th rp ph w ph', runs sys t th rp ph →
    hits_of <$> sy_threads (advance sys t th rp w ph') = hits_of <$> sy_threads sys) as Hadv.
  { intros t th rp ph w ph' (Ht&_&_). simpl. rewrite list_fmap_insert. apply list_insert_id.
    by rewrite list_lookup_fmap, Ht. }
  destruct 1; [by eapply Hadv..|done].
Qed.

Lemma step_good sys lg sys' :
  good sys lg → all_hits (sy_threads sys) < 2 ^ 32 → step_within sys sys' → ∃ lg', good sys' lg'.
Proof.
  intros Hg Hfits [Hs Ht]. assert (∀ e : L * R, time (e.1, e.2) = time e) as Hpair by (by intros []).
  destruct Hs as [sys t th rp keys c p1 p2 w' Hr Hrun|sys t th rp keys c cl cmd todo slots reply e' Hr Hx
    |sys t th rp keys c slots ss w' Hr Hrun|sys i rp e' Hr Hu].
  - exists lg. eapply step_prepare_good; [done|apply Ht| |done..].
    rewrite <-Hpair. apply (Ht (w_ext w').1).
  - eapply step_command_good; [done|done|apply Ht| |done..]. rewrite <-Hpair. apply (Ht e'.1).
  - exists lg. by eapply step_finish_good.
  - exists lg. by eapply step_idle_good.
Qed.

Lemma steps_good sys lg sys' :
  rtc step_within sys sys' → good sys lg → all_hits (sy_threads sys) < 2 ^ 32 →
  all_hits (sy_threads sys') = all_hits (sy_threads sys) ∧ ∃ lg', good sys' lg'.
Proof.
  intros Hrun. revert lg. induction Hrun as [sys|sys sys1 sys' Hs _ IH]; intros lg Hg Hfits; [by eauto|].
  assert (all_hits (sy_threads sys1) = all_hits (sy_threads sys)) as Heq.
  { unfold all_hits. by rewrite (step_threads _ _ (proj1 Hs)). }
  destruct (step_good _ _ _ Hg Hfits Hs) as [lg1 Hg1].
  destruct (IH lg1 Hg1) as [Heq' ?]; [by rewrite Heq|]. by rewrite Heq', Heq.
Qed.

(** At first no request was started and nothing is stored under the key. *)
Definition fresh (sys : system L R) : Prop :=
  Forall replica_ok (sy_replicas sys) ∧ Forall (λ th, th_phase th = Arrived) (sy_threads sys) ∧
  (∀ l : L, entry cid k (l, sy_redis sys) = None) ∧
  Forall (λ rp, ¬ held k (rp_local rp, sy_redis sys)) (sy_replicas sys).

Lemma fresh_good sys : fresh sys → good sys [].
Proof.
  intros (Hr&Ht&He&Hh). split; [done|constructor|..].
  - by intros t h ?%elem_of_nil.
  - intros l. unfold holds. by rewrite He.
  - intros i rp Hi Hk. exfalso. by eapply (Forall_lookup_1 _ _ _ _ Hh Hi).
  - intros t th Hth. rewrite (Forall_lookup_1 _ _ _ _ Ht Hth). constructor. apply not_elem_of_nil.
Qed.

(** The hits of the requests answered OK. *)
Definition admitted (th : thread) : Z :=
  match th_phase th with
  | Answered [s] => if decide (st_Code s = Code_OK) then hits_of th else 0
  | _ => 0
  end.

Lemma good_admitted sys lg :
  good sys lg → rl_ShadowMode rl = false → 0 <= N → sumZ (admitted <$> sy_threads sys) <= N.
Proof.
  intros Hg Hshadow HN0. pose proof (good_nonneg _ _ Hg) as Hpos.
  pose proof (within_bound N lg 0 Hpos HN0) as Hb. etransitivity; [|exact Hb].
  rewrite Z.add_0_l. pose proof (within_sublist N lg 0) as Hsub. apply sum_le_log.
  - eapply sublist_NoDup; [apply Hg|by apply (fmap_sublist fst)].
  - rewrite Forall_forall in Hpos |- *. intros e He. apply Hpos.
    eapply elem_of_submseteq; [done|]. by apply sublist_submseteq.
  - intros t th Hth. pose proof (g_threads _ _ Hg t th Hth) as Hp. unfold admitted.
    inversion Hp as [| | | | |r reset Hc Heq|r reset Hni Hover Heq]; try (by left);
      unfold status_of, over_limit; rewrite Hshadow; simpl; [|by left].
    case_bool_decide; simpl; [by left|]. right. eapply within_counted; [done|lia].
Qed.

(** A request answered OVER_LIMIT, or refused from a local cache. *)
Lemma good_rejected sys lg t th s :
  good sys lg → sy_threads sys !! t = Some th → th_phase th = Answered [s] →
  st_Code s = Code_OVER_LIMIT → N < all_hits (sy_threads sys).
Proof.
  intros Hg Hth Hph Hcode. pose proof (g_threads _ _ Hg t th Hth) as Hp. rewrite Hph in Hp.
  pose proof (good_logged _ _ Hg). enough (N < logged lg) by lia.
  inversion Hp as [| | | | |r reset Hc|r reset Hni Hover]; subst; [|done].
  pose proof (counted_le _ _ _ _ (good_nonneg _ _ Hg) Hc). simpl in Hcode.
  unfold over_limit in Hcode. simpl in Hcode. case_bool_decide; [lia|done].
Qed.
End admission.

(** C2: the limit holds across replicas and interleavings.  Any number of
    requests for a descriptor are served concurrently, command by command, by any
    number of replicas that share a redis and keep a local cache each.  In every
    state reachable within the window, the hits of the requests answered OK do
    not exceed the limit, and a request is answered OVER_LIMIT only if the hits of
    all requests together exceed it. *)
Theorem replicas_admission {L R} `{RedisLaws (L * R)} `{!SharedView L R}
    domain desc rl d ws key cid (sys sys' : system L R) :
  let N := pl_RequestsPerUnit (rl_Limit rl) in
  unit_seconds (pl_Unit (rl_Limit rl)) = Some d → 0 <= ws → window_start ws d = ws →
  is_u32 N → rl_ShadowMode rl = false → all_hits (sy_threads sys) < 2 ^ 32 →
  fresh domain desc rl ws key cid sys → rtc (step_within domain desc d ws) sys sys' →
  sumZ (admitted <$> sy_threads sys') <= N ∧
  ∀ t th s, sy_threads sys' !! t = Some th → th_phase th = Answered [s] →
    st_Code s = Code_OVER_LIMIT → N < all_hits (sy_threads sys).
Proof.
  intros N Hd Hws Hwin HN Hshadow Hfits Hfresh Hrun.
  destruct (steps_good domain desc rl d ws key cid Hd (conj Hws Hwin) sys [] sys' Hrun)
    as [Heq [lg Hg]]; [by eapply fresh_good|done|]. split.
  - eapply good_admitted; [done|done|apply HN].
  - intros t th s Hth Hph Hcode. rewrite <-Heq. by eapply good_rejected.
Qed.

(** ** Two simulated replicas *)

Record Shared : Type := mkShared {
  sh_time : Z;
  sh_redis : gmap (nat * string) (Z * option Z);
}.

#[local] Abbreviation Duo := (gset string * Shared)%type.

Definition to_sim (p : Duo) : Sim := mkSim (sh_time p.2) p.1 (sh_redis p.2).
Definition of_sim {A} (r : A * Sim) : A * Duo :=
  (r.1, (sim_local r.2, mkShared (sim_time r.2) (sim_redis r.2))).

#[local] Instance duo_clock : TimeSource Duo := λ p, of_sim (unix_now (to_sim p)).
#[local] Instance duo_rand : JitterRand Duo := λ m p, of_sim (int63n m (to_sim p)).
#[local] Instance duo_cache : FreeCache Duo :=
  {| fc_Get k p := of_sim (fc_Get k (to_sim p)); fc_Set k d p := of_sim (fc_Set k d (to_sim p)) |}.
#[local] Instance duo_radix : Radix Duo := λ c a p, of_sim (radix_Do c a (to_sim p)).
#[local] Instance duo_view : CountView Duo :=
  {| time p := time (to_sim p); entry c k p := entry c k (to_sim p); held k p := held k (to_sim p) |}.

Lemma of_sim_inv {A} (r : A * Sim) a p : of_sim r = (a, p) → r = (a, to_sim p).
Proof. destruct r as [a' [t l m]]. by intros [= <- <-]. Qed.

Lemma execs_duo c cs e rs e' : execs c cs e rs e' → ∀ p p', e = to_sim p → e' = to_sim p' → execs c cs p rs p'.
Proof.
  induction 1 as [e e' Hu|cmd cs r rs e e' e'' Hx _ IH]; intros p p' -> ->; [by constructor|].
  assert (e' = to_sim (of_sim (r, e')).2) as He by (by destruct e').
  econstructor; [|by eapply IH]. by rewrite He in Hx.
Qed.

#[local] Instance duo_laws : RedisLaws Duo.
Proof.
  split; [split| |].
  - intros e t e' Hx%of_sim_inv. by apply (law_now (to_sim e) t (to_sim e')).
  - intros m e r e' Hx%of_sim_inv. by apply (law_rand m (to_sim e) r (to_sim e')).
  - intros k e b e' Hx%of_sim_inv. by apply (law_get k (to_sim e) b (to_sim e')).
  - intros k s e b e' Hx%of_sim_inv. by apply (law_set k s (to_sim e) b (to_sim e')).
  - intros c cmd e rs e' Hx%of_sim_inv. by apply (law_cmd c cmd (to_sim e) rs (to_sim e')).
  - intros c cs e rs e' Hx%of_sim_inv. by eapply execs_duo; [apply law_pipeline|..].
Qed.

#[local] Instance duo_shared : SharedView (gset string) Shared.
Proof. by split. Qed.

(** One step of request [t], computed. *)
Definition duo_step (domain : string) (desc : Descriptor) (t : nat) (sys : system (gset string) Shared)
  : option (system (gset string) Shared) :=
  th ← sy_threads sys !! t;
  rp ← sy_replicas sys !! th_replica th;
  match th_phase th with
  | Arrived =>
      match prepare (rp_limiter rp) (request_of domain desc th) [Some (rp_limit rp)]
              (world_of rp (sy_redis sys)) with
      | (Ret (keys, c, p1, p2), w') =>
          Some (advance sys t th rp w' (Counting keys c (pending (rp_limiter rp) p1 p2) (replicate 1 0)))
      | _ => None
      end
  | Counting keys c ((cl, cmd) :: todo) slots =>
      match radix_Do cl (ActCmd cmd) (rp_local rp, sy_redis sys) with
      | ((None, [reply]), e') =>
          Some (advance sys t th rp (mkWorld (rp_heap rp) (rp_counters rp) e')
                  (Counting keys c todo (deliver [cmd] [reply] slots)))
      | _ => None
      end
  | Counting keys c [] slots =>
      match statuses (rp_limiter rp) keys [Some (rp_limit rp)] (hits_of th) slots c
              (world_of rp (sy_redis sys)) with
      | (Ret ss, w') => Some (advance sys t th rp w' (Answered ss))
      | _ => None
      end
  | Answered _ => None
  end.

Fixpoint duo_run domain desc (d ws : Z) (schedule : list nat) (sys : system (gset string) Shared)
  : option (system (gset string) Shared) :=
  match schedule with
  | [] => Some sys
  | t :: schedule' =>
      sys' ← duo_step domain desc t sys;
      if decide (ws <= sh_time (sy_redis sys) ∧ sh_time (sy_redis sys') < ws + d)
      then duo_run domain desc d ws schedule' sys' else None
  end.

Lemma duo_step_sound domain desc t sys sys' :
  duo_step domain desc t sys = Some sys' → step domain desc sys sys'.
Proof.
  unfold duo_step. intros (th&Hth&Hs)%bind_Some. apply bind_Some in Hs as (rp&Hrp&Hs).
  destruct (th_phase th) as [|keys c [|[cl cmd] todo] slots|] eqn:Hph; [| | |done].
  - destruct (prepare _ _ _ _) as [[[[[keys c] p1] p2]|?|?] w'] eqn:Hrun; [|done..]. injection Hs as <-.
    by econstructor.
  - destruct (statuses _ _ _ _ _ _ _) as [[ss|?|?] w'] eqn:Hrun; [|done..]. injection Hs as <-.
    by econstructor.
  - destruct (radix_Do cl _ _) as [[[msg|] [|reply [|? ?]]] e'] eqn:Hx; try done. injection Hs as <-.
    apply law_cmd in Hx as (r&[= <-]&Hx). by econstructor.
Qed.

Lemma duo_run_sound domain desc d ws schedule : ∀ sys sys',
  duo_run domain desc d ws schedule sys = Some sys' → rtc (step_within domain desc d ws) sys sys'.
Proof.
  induction schedule as [|t schedule IH]; intros sys sys'; cbn [duo_run]; [by intros [= ->]|].
  intros (sys1&Hs&Hrun)%bind_Some. case_decide as Ht; [|done].
  eapply rtc_l; [split; [by eapply duo_step_sound|intros l; exact Ht]|by apply IH].
Qed.

(** Two replicas, five a minute; three requests of two hits each.  All three
    check their local caches before any of them counts. *)
Definition duo_limit : RateLimit :=
  mkRateLimit "d.a" (rl_Stats example_rl) (mkPbRateLimit 5 MINUTE "") false false "" [] false.

Definition duo_start : system (gset string) Shared :=
  let limiter := NewFixedRateLimitCacheImpl (mkClient 0 true) None 300 true ratio_default "" false in
  mkSystem [mkReplica limiter [duo_limit] ∅ ∅ 0%nat; mkReplica limiter [duo_limit] ∅ ∅ 0%nat]
    (mkShared 100 ∅) [mkThread 0 2 Arrived; mkThread 1 2 Arrived; mkThread 0 2 Arrived].

Definition duo_schedule : list nat := [0; 1; 2; 2; 1; 0; 0; 1; 2; 0; 1; 2]%nat.

Lemma replicas_admission_witness :
  ∃ sys', duo_run "d" sim_desc 60 60 duo_schedule duo_start = Some sys' ∧
    sumZ (admitted <$> sy_threads sys') <= 5 ∧
    map admitted (sy_threads sys') = [0; 2; 2].
Proof.
  assert (match duo_run "d" sim_desc 60 60 duo_schedule duo_start with
          | Some sys' => bool_decide (map admitted (sy_threads sys') = [0; 2; 2])
          | None => false
          end = true) as Hret by (vm_compute; reflexivity).
  destruct (duo_run "d" sim_desc 60 60 duo_schedule duo_start) as [sys'|] eqn:Hrun; [|discriminate Hret].
  exists sys'. split; [reflexivity|]. apply duo_run_sound in Hrun. apply bool_decide_eq_true in Hret.
  split; [|exact Hret]. clear Hret.
  refine (proj1 (replicas_admission "d" sim_desc duo_limit 60 60 (mkCacheKey "d_a_x_60" false) 0%nat
    duo_start sys' _ _ _ _ _ _ _ Hrun)).
  - reflexivity.
  - lia.
  - reflexivity.
  - by vm_compute.
  - reflexivity.
  - by vm_compute.
  - split; [|split; [by repeat constructor|split; [done|]]].
    + repeat constructor; by vm_compute.
    + do 2 (constructor; [exact (not_elem_of_empty (C := gset string) "d_a_x_60")|]). constructor.
Defined.
