(* ===== verification/Tls.v ===== *)
(** * [src/utils/tls.go] and the TLS library it configures

    [tls.Config] with the fields the program sets, [TlsConfigFromFiles], and what
    the TLS library does with a configuration when it checks a peer.  Reading
    files is the class [FileSystem], parsing and verifying certificates the class
    [X509]; a certificate is known by its encoding, a pool by the encodings added
    to it and by whether it started from the system's roots. *)

From S2P Require Import Prelude GoStrings.

#[local] Open Scope Z_scope.

Inductive CAType : Set := ClientCA | ServerCA.

Inductive ClientAuthType : Set := NoClientCert | RequireAndVerifyClientCert.

Inductive ExtKeyUsage : Set := ServerAuth | ClientAuth.

#[export] Instance ClientAuthType_eq_dec : EqDecision ClientAuthType.
Proof. solve_decision. Defined.

(** [tls.Certificate]: the PEM blocks it was made of. *)
Record Certificate : Set := mkCertificate { ct_cert : string; ct_key : string }.

(** [x509.CertPool] *)
Record CertPool : Set := mkPool { pool_system : bool; pool_pems : list string }.

#[export] Instance CertPool_eq_dec : EqDecision CertPool.
Proof. solve_decision. Defined.

(** The functions the program installs as [VerifyPeerCertificate]. *)
Inductive peer_verifier : Set :=
  | VerifyWithoutName                                        (** of [TlsConfigFromFiles] *)
  | VerifyClientName (roots : option CertPool) (name : string). (** [verifyClient] *)

(** [tls.Config]; a nil pool means the system's roots. *)
Record tls_Config : Set := mkTlsConfig {
  tc_InsecureSkipVerify : bool;
  tc_VerifyPeerCertificate : option peer_verifier;
  tc_Certificates : list Certificate;
  tc_GetCertificate : bool;          (** set to the certificate provider *)
  tc_ClientCAs : option CertPool;
  tc_RootCAs : option CertPool;
  tc_ClientAuth : ClientAuthType;
  tc_ServerName : string;
}.

(** [&tls.Config{}] *)
Definition empty_config : tls_Config := mkTlsConfig false None [] false None None NoClientCert "".

Definition set_ClientAuth (a : ClientAuthType) (c : tls_Config) : tls_Config :=
  mkTlsConfig (tc_InsecureSkipVerify c) (tc_VerifyPeerCertificate c) (tc_Certificates c)
    (tc_GetCertificate c) (tc_ClientCAs c) (tc_RootCAs c) a (tc_ServerName c).

(** ** The standard library *)

Class FileSystem (E : Type) : Type := {
  os_ReadFile : string → E → (string + string) * E;   (** content or error *)
  SystemCertPool : E → option CertPool * E;
}.

Class X509 : Type := {
  X509KeyPair_err : string → string → option string;  (** certificate, key *)
  pem_has_certs : string → bool;                      (** [AppendCertsFromPEM] *)
  ParseCertificate : string → string + string;
  (** roots, name, intermediates, usage, leaf: the chains, or an error *)
  Verify : option CertPool → string → list string → ExtKeyUsage → string →
           list (list string) + string;
}.

Section files.
Context {E : Type} `{FileSystem E, X509}.

(** Operations of the standard library, and of the file system. *)
Definition lib {A} (f : E → A * E) : M E A := λ e, let '(a, e') := f e in (Ret a, e').

Definition LoadX509KeyPair (certFile keyFile : string) : M E (Certificate + string) :=
  r ← lib (os_ReadFile certFile);
  match r with
  | inr err => mret (inr err)
  | inl certPEM =>
      r ← lib (os_ReadFile keyFile);
      match r with
      | inr err => mret (inr err)
      | inl keyPEM =>
          match X509KeyPair_err certPEM keyPEM with
          | Some err => mret (inr err)
          | None => mret (inl (mkCertificate certPEM keyPEM))
          end
      end
  end.

Definition mustReadFile (name : string) : M E string :=
  r ← lib (os_ReadFile name);
  match r with
  | inr err => throw (PError ("failed to read file: " +:+ name +:+ ": " +:+ err))
  | inl b => mret b
  end.

Definition load_key_pair (certFile keyFile : string) : M E (list Certificate) :=
  if bool_decide (certFile ≠ "") && bool_decide (keyFile ≠ "") then
    r ← LoadX509KeyPair certFile keyFile;
    match r with
    | inr err => throw (PError ("failed lo load TLS key pair (" +:+ certFile +:+ "," +:+ keyFile +:+ "): " +:+ err))
    | inl tlsKeyPair => mret [tlsKeyPair]
    end
  else mret [].

Definition load_ca (caCertFile : string) : M E (option CertPool) :=
  if decide (caCertFile = "") then mret None
  else
    certPool ← lib SystemCertPool;
    let certPool := default (mkPool false []) certPool in
    pem ← mustReadFile caCertFile;
    if pem_has_certs pem then mret (Some (mkPool (pool_system certPool) (pool_pems certPool ++ [pem])))
    else throw (PError ("failed to load the provided TLS CA certificate: " +:+ caCertFile)).

Definition TlsConfigFromFiles (certFile keyFile caCertFile : string) (caType : CAType)
    (skipHostnameVerification : bool) : M E tls_Config :=
  certs ← load_key_pair certFile keyFile;
  pool ← load_ca caCertFile;
  mret {|
    tc_InsecureSkipVerify := skipHostnameVerification;
    tc_VerifyPeerCertificate := if skipHostnameVerification then Some VerifyWithoutName else None;
    tc_Certificates := certs;
    tc_GetCertificate := false;
    tc_ClientCAs := match caType with ClientCA => pool | ServerCA => None end;
    tc_RootCAs := match caType with ClientCA => None | ServerCA => pool end;
    tc_ClientAuth := NoClientCert;
    tc_ServerName := "" |}.
End files.

(** ** Checking a peer *)

Section peer.
Context `{X509}.

(** Every certificate, or the first error. *)
Fixpoint parse_certs (certificates : list string) : list string + string :=
  match certificates with
  | [] => inl []
  | asn1Data :: rest =>
      match ParseCertificate asn1Data with
      | inr err => inr ("tls: failed to parse certificate from server: " +:+ err)
      | inl cert =>
          match parse_certs rest with
          | inr err => inr err
          | inl certs => inl (cert :: certs)
          end
      end
  end.

(** The closure of [TlsConfigFromFiles]; it reads [config.RootCAs] when called. *)
Definition verify_without_name {W} (config : tls_Config) (certificates : list string) : M W (option string) :=
  match parse_certs certificates with
  | inr err => mret (Some err)
  | inl [] => throw (PRuntime "slice bounds out of range [1:0]")
  | inl (leaf :: intermediates) =>
      mret (match Verify (tc_RootCAs config) "" intermediates ServerAuth leaf with
            | inr err => Some err
            | inl _ => None
            end)
  end.
End peer.
