(* ===== verification/Trace.v ===== *)
(** * Tracing: [src/trace/trace.go] and the tracer of [src/client_cmd/main.go]

    Which provider is installed, with which exporter, sampler and attributes, and
    how the set-up fails.  The OpenTelemetry library is the class [Otel]. *)

From Stdlib Require Import SpecFloat.
From S2P Require Import Prelude GoStrings Tls.

#[local] Open Scope Z_scope.

Inductive otlp_client : Set := otlptracehttp | otlptracegrpc.

Inductive sampler : Set :=
  | AlwaysSample
  | ParentBasedRatio (samplingRate : spec_float).

Inductive exporter : Set :=
  | OtlpExporter (client : otlp_client)
  | InMemoryExporter (id : nat).        (** the object's identity *)

Record TracerProvider : Set := mkTracerProvider {
  tp_sampler : sampler;
  tp_exporter : exporter;
  tp_batched : bool;                    (** a batcher, or a syncer *)
  tp_resource : list (string * string);
}.

(** [otlptrace.New] returns an error or nothing, [uuid.NewRandom] an id or an
    error; [SetTracerProvider] changes the process, [Shutdown] returns an error or
    nothing. *)
Class Otel (E : Type) : Type := {
  otlptrace_New : otlp_client → E → option string * E;
  uuid_NewRandom : E → (string + string) * E;
  otel_SetTracerProvider : TracerProvider → E → E;
  tp_Shutdown : TracerProvider → E → option string * E;
}.

Section trace.
Context {E : Type} `{Otel E}.

Definition createClient (protocol : string) : M E otlp_client :=
  if bool_decide (protocol = "http") || bool_decide (protocol = "") then mret otlptracehttp
  else if decide (protocol = "grpc") then mret otlptracegrpc
  else exit 1.                          (* logger.Fatalf *)

Definition instance_id (serviceInstanceId : string) : M E string :=
  if decide (serviceInstanceId = "") then
    r ← lib uuid_NewRandom;
    match r with
    | inr err => exit 1
    | inl intUuid => mret intUuid
    end
  else mret serviceInstanceId.

Definition InitProductionTraceProvider (protocol serviceName serviceNamespace serviceInstanceId : string)
    (samplingRate : spec_float) : M E TracerProvider :=
  client ← createClient protocol;
  err ← lib (otlptrace_New client);
  match err with
  | Some err => exit 1
  | None =>
      useServiceInstanceId ← instance_id serviceInstanceId;
      let tp := mkTracerProvider (ParentBasedRatio samplingRate) (OtlpExporter client) true
                  [("service.name", serviceName); ("service.namespace", serviceNamespace);
                   ("service.instance.id", useServiceInstanceId)] in
      _ ← modify (otel_SetTracerProvider tp);
      mret tp
  end.

(** Of the client command; [log.Fatalf] exits. *)
Definition InitTracerProvider (protocol : string) : M E TracerProvider :=
  client ← (if decide (protocol = "http") then mret otlptracehttp
            else if decide (protocol = "grpc") then mret otlptracegrpc
            else throw (PString "Invalid otlptrace client protocol"));
  err ← lib (otlptrace_New client);
  match err with
  | Some err => exit 1
  | None =>
      let tp := mkTracerProvider AlwaysSample (OtlpExporter client) true [("service.name", "RateLimitClient")] in
      _ ← modify (otel_SetTracerProvider tp);
      mret tp
  end.

(** The protocol of an exporter that can be configured. *)
Definition protocol_of (protocol : string) : option otlp_client :=
  if decide (protocol = "http" ∨ protocol = "") then Some otlptracehttp
  else if decide (protocol = "grpc") then Some otlptracegrpc else None.

Lemma createClient_protocol protocol e :
  createClient protocol e = (match protocol_of protocol with Some c => Ret c | None => Exit 1 end, e).
Proof.
  unfold createClient, protocol_of. rewrite <-bool_decide_or.
  destruct (bool_decide_reflect (protocol = "http" ∨ protocol = "")); [by rewrite decide_True|].
  rewrite (decide_False (P := protocol = "http" ∨ protocol = "")) by done. by case_decide.
Qed.

(** Tracing is set up, with the provider installed for the process and an
    instance id that is the configured one if there is one, exactly when the
    protocol is known, the exporter can be made and, if needed, an id generated;
    otherwise the process exits. *)
Lemma InitProductionTraceProvider_spec protocol name namespace id rate e :
  wp (λ _, False) (recover (InitProductionTraceProvider protocol name namespace id rate) throw) e
    (λ tp e', ∃ c e1, protocol_of protocol = Some c ∧ tp_exporter tp = OtlpExporter c ∧
       tp_sampler tp = ParentBasedRatio rate ∧ e' = otel_SetTracerProvider tp e1 ∧
       ∃ i, tp_resource tp = [("service.name", name); ("service.namespace", namespace); ("service.instance.id", i)] ∧
            (id ≠ "" → i = id)) ∨
  (InitProductionTraceProvider protocol name namespace id rate e).1 = Exit 1.
Proof.
  unfold wp, recover, InitProductionTraceProvider, mbind, M_bind. rewrite createClient_protocol.
  destruct (protocol_of protocol) as [c|] eqn:Hc; [|by right]. unfold lib.
  destruct (otlptrace_New c e) as [[err|] e1]; [by right|]. unfold instance_id.
  destruct (decide (id = "")) as [->|Hid].
  - unfold mbind, M_bind, lib. destruct (uuid_NewRandom e1) as [[u|err] e2]; [left|by right].
    eexists _, _. split_and!; try done. by eexists.
  - left. eexists _, _. split_and!; try done. by eexists.
Qed.
End trace.

(** ** The exporter of the tests *)

(** The package's variable, how many exporters were made, and the provider. *)
Record test_tracing : Set := mkTestTracing {
  tt_testSpanExporter : option nat;
  tt_made : nat;
  tt_provider : option TracerProvider;
}.

(** [testSpanExporter := ...] in the body declares a new variable: the package's
    is not assigned. *)
Definition GetTestSpanExporter : M test_tracing nat := λ s,
  match tt_testSpanExporter s with
  | Some ex => (Ret ex, s)
  | None =>
      let testSpanExporter := tt_made s in
      let tp := mkTracerProvider AlwaysSample (InMemoryExporter testSpanExporter) false [] in
      (Ret testSpanExporter, mkTestTracing (tt_testSpanExporter s) (S (tt_made s)) (Some tp))
  end.

Fixpoint get_exporters (n : nat) : M test_tracing (list nat) :=
  match n with
  | 0%nat => mret []
  | S n' => ex ← GetTestSpanExporter; exs ← get_exporters n'; mret (ex :: exs)
  end.

Lemma get_exporters_seq n : ∀ s,
  tt_testSpanExporter s = None →
  ∃ s', get_exporters n s = (Ret (seq (tt_made s) n), s') ∧ tt_testSpanExporter s' = None ∧
    ((0 < n)%nat → tp_exporter <$> tt_provider s' = Some (InMemoryExporter (tt_made s + n - 1)%nat)).
Proof.
  induction n as [|n IH]; intros s Hs; [exists s; split_and!; [done|done|lia]|]. cbn [get_exporters seq].
  destruct (IH (mkTestTracing None (S (tt_made s))
    (Some (mkTracerProvider AlwaysSample (InMemoryExporter (tt_made s)) false [])))) as (s'&Hrun&Hn&Hp); [done|].
  exists s'. split; [|split; [done|]].
  - erewrite bind_Ret by (unfold GetTestSpanExporter; rewrite Hs; reflexivity).
    erewrite bind_Ret by exact Hrun. done.
  - intros _. destruct n as [|n].
    + simpl in Hrun. injection Hrun as <-. simpl. do 2 f_equal. lia.
    + rewrite Hp by lia. simpl. do 2 f_equal. lia.
Qed.

(** The test exporter is not shared.  Although it is meant to be created once
    ("returns the initialized inMemoryExporter if it already exists"), every call
    makes a new exporter and installs it: [n] calls return [n] different ones, and
    spans reach only the last. *)
Theorem GetTestSpanExporter_not_shared n :
  ∃ exs s, get_exporters n (mkTestTracing None 0 None) = (Ret exs, s) ∧ NoDup exs ∧ length exs = n ∧
    tp_exporter <$> tt_provider s = InMemoryExporter <$> last exs.
Proof.
  destruct (get_exporters_seq n (mkTestTracing None 0 None) eq_refl) as (s&Hrun&_&Hp).
  exists (seq 0 n), s. split_and!; [done|apply NoDup_seq|apply length_seq|].
  destruct n as [|n]; [by injection Hrun as <-|]. rewrite Hp by lia. rewrite seq_S, last_snoc. simpl.
  do 2 f_equal. lia.
Qed.
