(* ===== verification/Settings.v ===== *)
(** * [src/settings/settings.go]

    [Environment] has the fields of [Settings] that are read from environment
    variables, [Settings] adds the ones computed from them.  How the envconfig
    library turns one variable and its default into a value is the class
    [Envconfig]; which variables, defaults and types there are is [Process].
    [EnvSettings] is what the rest of the program needs of [NewSettings];
    [settings_from_environment] provides it. *)

From Stdlib Require Import SpecFloat.
From S2P Require Import Prelude GoStrings World Limiter Tls.

#[local] Open Scope Z_scope.

(** ** Fields read from the environment; durations are in nanoseconds *)

Record Environment : Type := mkEnvironment {
  se_Host : string;
  se_Port : Z;
  se_DebugHost : string;
  se_DebugPort : Z;
  se_GrpcUds : string;
  se_GrpcHost : string;
  se_GrpcPort : Z;
  se_GrpcMaxConnectionAge : Z;
  se_GrpcMaxConnectionAgeGrace : Z;
  se_GrpcServerUseTLS : bool;
  se_GrpcServerTlsCert : string;
  se_GrpcServerTlsKey : string;
  se_GrpcClientTlsCACert : string;
  se_GrpcClientTlsSAN : string;
  se_LogLevel : string;
  se_LogFormat : string;
  se_ConfigType : string;
  se_ForceStartWithoutInitialConfig : bool;
  se_ConfigGrpcXdsNodeId : string;
  se_ConfigGrpcXdsNodeMetadata : string;
  se_ConfigGrpcXdsServerUrl : string;
  se_ConfigGrpcXdsServerConnectRetryInterval : Z;
  se_ConfigGrpcXdsClientAdditionalHeaders : gmap string string;
  se_ConfigGrpcXdsServerUseTls : bool;
  se_ConfigGrpcXdsClientTlsCert : string;
  se_ConfigGrpcXdsClientTlsKey : string;
  se_ConfigGrpcXdsServerTlsCACert : string;
  se_ConfigGrpcXdsServerTlsSAN : string;
  se_XdsClientBackoffInitialInterval : Z;
  se_XdsClientBackoffMaxInterval : Z;
  se_XdsClientBackoffRandomFactor : spec_float;
  se_XdsClientBackoffJitter : bool;
  se_UseDogStatsd : bool;
  se_UseDogStatsdMogrifiers : list string;
  se_UseStatsd : bool;
  se_StatsdHost : string;
  se_StatsdPort : Z;
  se_ExtraTags : gmap string string;
  se_StatsFlushInterval : Z;
  se_DisableStats : bool;
  se_RuntimePath : string;
  se_RuntimeSubdirectory : string;
  se_RuntimeAppDirectory : string;
  se_RuntimeIgnoreDotFiles : bool;
  se_RuntimeWatchRoot : bool;
  se_ExpirationJitterMaxSeconds : Z;
  se_LocalCacheSizeInBytes : Z;
  se_NearLimitRatio : spec_float;
  se_CacheKeyPrefix : string;
  se_BackendType : string;
  se_StopCacheKeyIncrementWhenOverlimit : bool;
  se_RateLimitResponseHeadersEnabled : bool;
  se_HeaderRatelimitLimit : string;
  se_HeaderRatelimitRemaining : string;
  se_HeaderRatelimitReset : string;
  se_HealthyWithAtLeastOneConfigLoaded : bool;
  se_RedisSocketType : string;
  se_RedisType : string;
  se_RedisUrl : string;
  se_RedisPoolSize : Z;
  se_RedisAuth : string;
  se_RedisTls : bool;
  se_RedisTlsClientCert : string;
  se_RedisTlsClientKey : string;
  se_RedisTlsCACert : string;
  se_RedisTlsSkipHostnameVerification : bool;
  se_RedisPipelineWindow : Z;
  se_RedisPipelineLimit : Z;
  se_RedisPerSecond : bool;
  se_RedisPerSecondSocketType : string;
  se_RedisPerSecondType : string;
  se_RedisPerSecondUrl : string;
  se_RedisPerSecondPoolSize : Z;
  se_RedisPerSecondAuth : string;
  se_RedisPerSecondTls : bool;
  se_RedisPerSecondPipelineWindow : Z;
  se_RedisPerSecondPipelineLimit : Z;
  se_RedisHealthCheckActiveConnection : bool;
  se_MemcacheHostPort : list string;
  se_MemcacheMaxIdleConns : Z;
  se_MemcacheSrv : string;
  se_MemcacheSrvRefresh : Z;
  se_MemcacheTls : bool;
  se_MemcacheTlsClientCert : string;
  se_MemcacheTlsClientKey : string;
  se_MemcacheTlsCACert : string;
  se_MemcacheTlsSkipHostnameVerification : bool;
  se_GlobalShadowMode : bool;
  se_MergeDomainConfigurations : bool;
  se_TracingEnabled : bool;
  se_TracingServiceName : string;
  se_TracingServiceNamespace : string;
  se_TracingServiceInstanceId : string;
  se_TracingExporterProtocol : string;
  se_TracingSamplingRate : spec_float;
}.

(** The interceptor the runner installs. *)
Inductive UnaryServerInterceptor : Set := ServerReporterInterceptor.

Record Settings : Type := mkSettings {
  se_env :> Environment;
  se_GrpcUnaryInterceptor : option UnaryServerInterceptor;
  se_GrpcServerTlsConfig : option tls_Config;
  se_ConfigGrpcXdsTlsConfig : option tls_Config;
  se_RedisTlsConfig : option tls_Config;
  se_MemcacheTlsConfig : option tls_Config;
}.

(** ** Reading them *)

Inductive kind : Type → Type :=
  | KString : kind string
  | KInt : kind Z
  | KBool : kind bool
  | KDuration : kind Z
  | KFloat32 : kind spec_float
  | KFloat64 : kind spec_float
  | KStrings : kind (list string)
  | KMap : kind (gmap string string).

(** The value of a field: its type, variable and default; or an error. *)
Class Envconfig (E : Type) : Type :=
  env_field : ∀ {A}, kind A → string → string → E → string + A.

Section process.
Context {E : Type} `{Envconfig E}.

Definition env {A} (k : kind A) (name default : string) : M E A := λ e,
  match env_field k name default e with
  | inl err => (Panic (PError err), e)
  | inr a => (Ret a, e)
  end.

Definition Process : M E Environment :=
  Host ← env KString "HOST" "0.0.0.0";
  Port ← env KInt "PORT" "8080";
  DebugHost ← env KString "DEBUG_HOST" "0.0.0.0";
  DebugPort ← env KInt "DEBUG_PORT" "6070";
  GrpcUds ← env KString "GRPC_UDS" "";
  GrpcHost ← env KString "GRPC_HOST" "0.0.0.0";
  GrpcPort ← env KInt "GRPC_PORT" "8081";
  GrpcMaxConnectionAge ← env KDuration "GRPC_MAX_CONNECTION_AGE" "24h";
  GrpcMaxConnectionAgeGrace ← env KDuration "GRPC_MAX_CONNECTION_AGE_GRACE" "1h";
  GrpcServerUseTLS ← env KBool "GRPC_SERVER_USE_TLS" "false";
  GrpcServerTlsCert ← env KString "GRPC_SERVER_TLS_CERT" "";
  GrpcServerTlsKey ← env KString "GRPC_SERVER_TLS_KEY" "";
  GrpcClientTlsCACert ← env KString "GRPC_CLIENT_TLS_CACERT" "";
  GrpcClientTlsSAN ← env KString "GRPC_CLIENT_TLS_SAN" "";
  LogLevel ← env KString "LOG_LEVEL" "WARN";
  LogFormat ← env KString "LOG_FORMAT" "text";
  ConfigType ← env KString "CONFIG_TYPE" "FILE";
  ForceStartWithoutInitialConfig ← env KBool "FORCE_START_WITHOUT_INITIAL_CONFIG" "false";
  ConfigGrpcXdsNodeId ← env KString "CONFIG_GRPC_XDS_NODE_ID" "default";
  ConfigGrpcXdsNodeMetadata ← env KString "CONFIG_GRPC_XDS_NODE_METADATA" "";
  ConfigGrpcXdsServerUrl ← env KString "CONFIG_GRPC_XDS_SERVER_URL" "localhost:18000";
  ConfigGrpcXdsServerConnectRetryInterval ← env KDuration "CONFIG_GRPC_XDS_SERVER_CONNECT_RETRY_INTERVAL" "3s";
  ConfigGrpcXdsClientAdditionalHeaders ← env KMap "CONFIG_GRPC_XDS_CLIENT_ADDITIONAL_HEADERS" "";
  ConfigGrpcXdsServerUseTls ← env KBool "CONFIG_GRPC_XDS_SERVER_USE_TLS" "false";
  ConfigGrpcXdsClientTlsCert ← env KString "CONFIG_GRPC_XDS_CLIENT_TLS_CERT" "";
  ConfigGrpcXdsClientTlsKey ← env KString "CONFIG_GRPC_XDS_CLIENT_TLS_KEY" "";
  ConfigGrpcXdsServerTlsCACert ← env KString "CONFIG_GRPC_XDS_SERVER_TLS_CACERT" "";
  ConfigGrpcXdsServerTlsSAN ← env KString "CONFIG_GRPC_XDS_SERVER_TLS_SAN" "";
  XdsClientBackoffInitialInterval ← env KDuration "XDS_CLIENT_BACKOFF_INITIAL_INTERVAL" "10s";
  XdsClientBackoffMaxInterval ← env KDuration "XDS_CLIENT_BACKOFF_MAX_INTERVAL" "60s";
  XdsClientBackoffRandomFactor ← env KFloat64 "XDS_CLIENT_BACKOFF_RANDOM_FACTOR" "0.5";
  XdsClientBackoffJitter ← env KBool "XDS_CLIENT_BACKOFF_JITTER" "true";
  UseDogStatsd ← env KBool "USE_DOG_STATSD" "false";
  UseDogStatsdMogrifiers ← env KStrings "USE_DOG_STATSD_MOGRIFIERS" "";
  UseStatsd ← env KBool "USE_STATSD" "true";
  StatsdHost ← env KString "STATSD_HOST" "localhost";
  StatsdPort ← env KInt "STATSD_PORT" "8125";
  ExtraTags ← env KMap "EXTRA_TAGS" "";
  StatsFlushInterval ← env KDuration "STATS_FLUSH_INTERVAL" "10s";
  DisableStats ← env KBool "DISABLE_STATS" "false";
  RuntimePath ← env KString "RUNTIME_ROOT" "/srv/runtime_data/current";
  RuntimeSubdirectory ← env KString "RUNTIME_SUBDIRECTORY" "";
  RuntimeAppDirectory ← env KString "RUNTIME_APPDIRECTORY" "config";
  RuntimeIgnoreDotFiles ← env KBool "RUNTIME_IGNOREDOTFILES" "false";
  RuntimeWatchRoot ← env KBool "RUNTIME_WATCH_ROOT" "true";
  ExpirationJitterMaxSeconds ← env KInt "EXPIRATION_JITTER_MAX_SECONDS" "300";
  LocalCacheSizeInBytes ← env KInt "LOCAL_CACHE_SIZE_IN_BYTES" "0";
  NearLimitRatio ← env KFloat32 "NEAR_LIMIT_RATIO" "0.8";
  CacheKeyPrefix ← env KString "CACHE_KEY_PREFIX" "";
  BackendType ← env KString "BACKEND_TYPE" "redis";
  StopCacheKeyIncrementWhenOverlimit ← env KBool "STOP_CACHE_KEY_INCREMENT_WHEN_OVERLIMIT" "false";
  RateLimitResponseHeadersEnabled ← env KBool "LIMIT_RESPONSE_HEADERS_ENABLED" "false";
  HeaderRatelimitLimit ← env KString "LIMIT_LIMIT_HEADER" "RateLimit-Limit";
  HeaderRatelimitRemaining ← env KString "LIMIT_REMAINING_HEADER" "RateLimit-Remaining";
  HeaderRatelimitReset ← env KString "LIMIT_RESET_HEADER" "RateLimit-Reset";
  HealthyWithAtLeastOneConfigLoaded ← env KBool "HEALTHY_WITH_AT_LEAST_ONE_CONFIG_LOADED" "false";
  RedisSocketType ← env KString "REDIS_SOCKET_TYPE" "unix";
  RedisType ← env KString "REDIS_TYPE" "SINGLE";
  RedisUrl ← env KString "REDIS_URL" "/var/run/nutcracker/ratelimit.sock";
  RedisPoolSize ← env KInt "REDIS_POOL_SIZE" "10";
  RedisAuth ← env KString "REDIS_AUTH" "";
  RedisTls ← env KBool "REDIS_TLS" "false";
  RedisTlsClientCert ← env KString "REDIS_TLS_CLIENT_CERT" "";
  RedisTlsClientKey ← env KString "REDIS_TLS_CLIENT_KEY" "";
  RedisTlsCACert ← env KString "REDIS_TLS_CACERT" "";
  RedisTlsSkipHostnameVerification ← env KBool "REDIS_TLS_SKIP_HOSTNAME_VERIFICATION" "false";
  RedisPipelineWindow ← env KDuration "REDIS_PIPELINE_WINDOW" "0";
  RedisPipelineLimit ← env KInt "REDIS_PIPELINE_LIMIT" "0";
  RedisPerSecond ← env KBool "REDIS_PERSECOND" "false";
  RedisPerSecondSocketType ← env KString "REDIS_PERSECOND_SOCKET_TYPE" "unix";
  RedisPerSecondType ← env KString "REDIS_PERSECOND_TYPE" "SINGLE";
  RedisPerSecondUrl ← env KString "REDIS_PERSECOND_URL" "/var/run/nutcracker/ratelimitpersecond.sock";
  RedisPerSecondPoolSize ← env KInt "REDIS_PERSECOND_POOL_SIZE" "10";
  RedisPerSecondAuth ← env KString "REDIS_PERSECOND_AUTH" "";
  RedisPerSecondTls ← env KBool "REDIS_PERSECOND_TLS" "false";
  RedisPerSecondPipelineWindow ← env KDuration "REDIS_PERSECOND_PIPELINE_WINDOW" "0";
  RedisPerSecondPipelineLimit ← env KInt "REDIS_PERSECOND_PIPELINE_LIMIT" "0";
  RedisHealthCheckActiveConnection ← env KBool "REDIS_HEALTH_CHECK_ACTIVE_CONNECTION" "false";
  MemcacheHostPort ← env KStrings "MEMCACHE_HOST_PORT" "";
  MemcacheMaxIdleConns ← env KInt "MEMCACHE_MAX_IDLE_CONNS" "2";
  MemcacheSrv ← env KString "MEMCACHE_SRV" "";
  MemcacheSrvRefresh ← env KDuration "MEMCACHE_SRV_REFRESH" "0";
  MemcacheTls ← env KBool "MEMCACHE_TLS" "false";
  MemcacheTlsClientCert ← env KString "MEMCACHE_TLS_CLIENT_CERT" "";
  MemcacheTlsClientKey ← env KString "MEMCACHE_TLS_CLIENT_KEY" "";
  MemcacheTlsCACert ← env KString "MEMCACHE_TLS_CACERT" "";
  MemcacheTlsSkipHostnameVerification ← env KBool "MEMCACHE_TLS_SKIP_HOSTNAME_VERIFICATION" "false";
  GlobalShadowMode ← env KBool "SHADOW_MODE" "false";
  MergeDomainConfigurations ← env KBool "MERGE_DOMAIN_CONFIG" "false";
  TracingEnabled ← env KBool "TRACING_ENABLED" "false";
  TracingServiceName ← env KString "TRACING_SERVICE_NAME" "RateLimit";
  TracingServiceNamespace ← env KString "TRACING_SERVICE_NAMESPACE" "";
  TracingServiceInstanceId ← env KString "TRACING_SERVICE_INSTANCE_ID" "";
  TracingExporterProtocol ← env KString "TRACING_EXPORTER_PROTOCOL" "http";
  TracingSamplingRate ← env KFloat64 "TRACING_SAMPLING_RATE" "1";
  mret {|
    se_Host := Host;
    se_Port := Port;
    se_DebugHost := DebugHost;
    se_DebugPort := DebugPort;
    se_GrpcUds := GrpcUds;
    se_GrpcHost := GrpcHost;
    se_GrpcPort := GrpcPort;
    se_GrpcMaxConnectionAge := GrpcMaxConnectionAge;
    se_GrpcMaxConnectionAgeGrace := GrpcMaxConnectionAgeGrace;
    se_GrpcServerUseTLS := GrpcServerUseTLS;
    se_GrpcServerTlsCert := GrpcServerTlsCert;
    se_GrpcServerTlsKey := GrpcServerTlsKey;
    se_GrpcClientTlsCACert := GrpcClientTlsCACert;
    se_GrpcClientTlsSAN := GrpcClientTlsSAN;
    se_LogLevel := LogLevel;
    se_LogFormat := LogFormat;
    se_ConfigType := ConfigType;
    se_ForceStartWithoutInitialConfig := ForceStartWithoutInitialConfig;
    se_ConfigGrpcXdsNodeId := ConfigGrpcXdsNodeId;
    se_ConfigGrpcXdsNodeMetadata := ConfigGrpcXdsNodeMetadata;
    se_ConfigGrpcXdsServerUrl := ConfigGrpcXdsServerUrl;
    se_ConfigGrpcXdsServerConnectRetryInterval := ConfigGrpcXdsServerConnectRetryInterval;
    se_ConfigGrpcXdsClientAdditionalHeaders := ConfigGrpcXdsClientAdditionalHeaders;
    se_ConfigGrpcXdsServerUseTls := ConfigGrpcXdsServerUseTls;
    se_ConfigGrpcXdsClientTlsCert := ConfigGrpcXdsClientTlsCert;
    se_ConfigGrpcXdsClientTlsKey := ConfigGrpcXdsClientTlsKey;
    se_ConfigGrpcXdsServerTlsCACert := ConfigGrpcXdsServerTlsCACert;
    se_ConfigGrpcXdsServerTlsSAN := ConfigGrpcXdsServerTlsSAN;
    se_XdsClientBackoffInitialInterval := XdsClientBackoffInitialInterval;
    se_XdsClientBackoffMaxInterval := XdsClientBackoffMaxInterval;
    se_XdsClientBackoffRandomFactor := XdsClientBackoffRandomFactor;
    se_XdsClientBackoffJitter := XdsClientBackoffJitter;
    se_UseDogStatsd := UseDogStatsd;
    se_UseDogStatsdMogrifiers := UseDogStatsdMogrifiers;
    se_UseStatsd := UseStatsd;
    se_StatsdHost := StatsdHost;
    se_StatsdPort := StatsdPort;
    se_ExtraTags := ExtraTags;
    se_StatsFlushInterval := StatsFlushInterval;
    se_DisableStats := DisableStats;
    se_RuntimePath := RuntimePath;
    se_RuntimeSubdirectory := RuntimeSubdirectory;
    se_RuntimeAppDirectory := RuntimeAppDirectory;
    se_RuntimeIgnoreDotFiles := RuntimeIgnoreDotFiles;
    se_RuntimeWatchRoot := RuntimeWatchRoot;
    se_ExpirationJitterMaxSeconds := ExpirationJitterMaxSeconds;
    se_LocalCacheSizeInBytes := LocalCacheSizeInBytes;
    se_NearLimitRatio := NearLimitRatio;
    se_CacheKeyPrefix := CacheKeyPrefix;
    se_BackendType := BackendType;
    se_StopCacheKeyIncrementWhenOverlimit := StopCacheKeyIncrementWhenOverlimit;
    se_RateLimitResponseHeadersEnabled := RateLimitResponseHeadersEnabled;
    se_HeaderRatelimitLimit := HeaderRatelimitLimit;
    se_HeaderRatelimitRemaining := HeaderRatelimitRemaining;
    se_HeaderRatelimitReset := HeaderRatelimitReset;
    se_HealthyWithAtLeastOneConfigLoaded := HealthyWithAtLeastOneConfigLoaded;
    se_RedisSocketType := RedisSocketType;
    se_RedisType := RedisType;
    se_RedisUrl := RedisUrl;
    se_RedisPoolSize := RedisPoolSize;
    se_RedisAuth := RedisAuth;
    se_RedisTls := RedisTls;
    se_RedisTlsClientCert := RedisTlsClientCert;
    se_RedisTlsClientKey := RedisTlsClientKey;
    se_RedisTlsCACert := RedisTlsCACert;
    se_RedisTlsSkipHostnameVerification := RedisTlsSkipHostnameVerification;
    se_RedisPipelineWindow := RedisPipelineWindow;
    se_RedisPipelineLimit := RedisPipelineLimit;
    se_RedisPerSecond := RedisPerSecond;
    se_RedisPerSecondSocketType := RedisPerSecondSocketType;
    se_RedisPerSecondType := RedisPerSecondType;
    se_RedisPerSecondUrl := RedisPerSecondUrl;
    se_RedisPerSecondPoolSize := RedisPerSecondPoolSize;
    se_RedisPerSecondAuth := RedisPerSecondAuth;
    se_RedisPerSecondTls := RedisPerSecondTls;
    se_RedisPerSecondPipelineWindow := RedisPerSecondPipelineWindow;
    se_RedisPerSecondPipelineLimit := RedisPerSecondPipelineLimit;
    se_RedisHealthCheckActiveConnection := RedisHealthCheckActiveConnection;
    se_MemcacheHostPort := MemcacheHostPort;
    se_MemcacheMaxIdleConns := MemcacheMaxIdleConns;
    se_MemcacheSrv := MemcacheSrv;
    se_MemcacheSrvRefresh := MemcacheSrvRefresh;
    se_MemcacheTls := MemcacheTls;
    se_MemcacheTlsClientCert := MemcacheTlsClientCert;
    se_MemcacheTlsClientKey := MemcacheTlsClientKey;
    se_MemcacheTlsCACert := MemcacheTlsCACert;
    se_MemcacheTlsSkipHostnameVerification := MemcacheTlsSkipHostnameVerification;
    se_GlobalShadowMode := GlobalShadowMode;
    se_MergeDomainConfigurations := MergeDomainConfigurations;
    se_TracingEnabled := TracingEnabled;
    se_TracingServiceName := TracingServiceName;
    se_TracingServiceNamespace := TracingServiceNamespace;
    se_TracingServiceInstanceId := TracingServiceInstanceId;
    se_TracingExporterProtocol := TracingExporterProtocol;
    se_TracingSamplingRate := TracingSamplingRate |}.
End process.

(** ** [NewSettings] *)

Section options.
Context {E : Type} `{FileSystem E, X509}.

Definition Option : Type := Settings → M E Settings.

Definition RedisTlsConfig (redisTls : bool) : Option := λ s,
  c ← (if redisTls then
         TlsConfigFromFiles (se_RedisTlsClientCert s) (se_RedisTlsClientKey s) (se_RedisTlsCACert s)
           ServerCA (se_RedisTlsSkipHostnameVerification s)
       else mret empty_config);
  mret (mkSettings s (se_GrpcUnaryInterceptor s) (se_GrpcServerTlsConfig s)
          (se_ConfigGrpcXdsTlsConfig s) (Some c) (se_MemcacheTlsConfig s)).

Definition MemcacheTlsConfig (memcacheTls : bool) : Option := λ s,
  c ← (if memcacheTls then
         TlsConfigFromFiles (se_MemcacheTlsClientCert s) (se_MemcacheTlsClientKey s) (se_MemcacheTlsCACert s)
           ServerCA (se_MemcacheTlsSkipHostnameVerification s)
       else mret empty_config);
  mret (mkSettings s (se_GrpcUnaryInterceptor s) (se_GrpcServerTlsConfig s)
          (se_ConfigGrpcXdsTlsConfig s) (se_RedisTlsConfig s) (Some c)).

(** Client certificates are required when there is a CA to check them with. *)
Definition auth_for (caCert : string) : ClientAuthType :=
  if decide (caCert ≠ "") then RequireAndVerifyClientCert else NoClientCert.

Definition GrpcServerTlsConfig : Option := λ s,
  if se_GrpcServerUseTLS s then
    c ← TlsConfigFromFiles (se_GrpcServerTlsCert s) (se_GrpcServerTlsKey s) (se_GrpcClientTlsCACert s)
          ClientCA false;
    mret (mkSettings s (se_GrpcUnaryInterceptor s)
            (Some (set_ClientAuth (auth_for (se_GrpcClientTlsCACert s)) c))
            (se_ConfigGrpcXdsTlsConfig s) (se_RedisTlsConfig s) (se_MemcacheTlsConfig s))
  else mret s.

Definition ConfigGrpcXdsServerTlsConfig : Option := λ s,
  if se_ConfigGrpcXdsServerUseTls s then
    c ← TlsConfigFromFiles (se_ConfigGrpcXdsClientTlsCert s) (se_ConfigGrpcXdsClientTlsKey s)
          (se_ConfigGrpcXdsServerTlsCACert s) ServerCA false;
    mret (mkSettings s (se_GrpcUnaryInterceptor s) (se_GrpcServerTlsConfig s)
            (Some (set_ClientAuth (auth_for (se_ConfigGrpcXdsServerTlsCACert s)) c))
            (se_RedisTlsConfig s) (se_MemcacheTlsConfig s))
  else mret s.

Definition GrpcUnaryInterceptor (i : UnaryServerInterceptor) : Option := λ s,
  mret (mkSettings s (Some i) (se_GrpcServerTlsConfig s) (se_ConfigGrpcXdsTlsConfig s)
          (se_RedisTlsConfig s) (se_MemcacheTlsConfig s)).

Context `{Envconfig E}.

Definition NewSettings_impl : M E Settings :=
  env ← Process;
  let s := mkSettings env None None None None None in
  s ← RedisTlsConfig (se_RedisTls s || se_RedisPerSecondTls s) s;
  s ← MemcacheTlsConfig (se_MemcacheTls (se_env s)) s;
  s ← GrpcServerTlsConfig s;
  ConfigGrpcXdsServerTlsConfig s.
End options.

(** ** What the program needs of it: the settings, or an error to panic with *)

Class EnvSettings (E : Type) : Type := env_settings : E → (string + Settings) * E.

Definition settings_from_environment `{FileSystem E, X509, Envconfig E} : EnvSettings E := λ e,
  match NewSettings_impl e with
  | (Ret s, e') => (inr s, e')
  | (Panic (PError err), e') => (inl err, e')
  | (_, e') => (inl "", e')
  end.
