(* ===== verification/SettingsSpec.v ===== *)
(** * The settings: which TLS configuration each connection gets

    [TlsConfigFromFiles] and [NewSettings] by their results, and a simulated host
    (variables and files) on which settings can be computed. *)

From Stdlib Require Import SpecFloat.
From S2P Require Import Prelude GoStrings World Limiter Tls Settings.
From stdpp Require Import relations.

#[local] Open Scope Z_scope.

(** A panic with a value of type [error]. *)
Definition plain_error (p : panic) : Prop := ∃ msg, p = PError msg.

Section spec.
Context {E : Type} `{FileSystem E, X509}.
Implicit Types e : E.

(** The states reached by reading files and the system's roots, and nothing
    else. *)
Inductive read_step : relation E :=
  | read_file name e : read_step e (os_ReadFile name e).2
  | read_system e : read_step e (SystemCertPool e).2.

Definition reads : relation E := rtc read_step.

(** Reading on from [e], the file [name] was found to contain [content]. *)
Definition file_content e (name content : string) : Prop :=
  ∃ e1, reads e e1 ∧ (os_ReadFile name e1).1 = inl content.

(** The pool made for a CA file: the system's roots, if there are any, and the
    certificates of that file. *)
Definition ca_pool e (caCertFile : string) (pool : option CertPool) : Prop :=
  match pool with
  | None => caCertFile = ""
  | Some p => caCertFile ≠ "" ∧ ∃ pem roots e1,
      file_content e caCertFile pem ∧ pem_has_certs pem = true ∧
      reads e e1 ∧ roots = default (mkPool false []) (SystemCertPool e1).1 ∧
      p = mkPool (pool_system roots) (pool_pems roots ++ [pem])
  end.

(** The key pair of two files, if both are named. *)
Definition key_pair e (certFile keyFile : string) (certs : list Certificate) : Prop :=
  if decide (certFile ≠ "" ∧ keyFile ≠ "") then ∃ certPEM keyPEM,
    certs = [mkCertificate certPEM keyPEM] ∧ file_content e certFile certPEM ∧
    file_content e keyFile keyPEM ∧ X509KeyPair_err certPEM keyPEM = None
  else certs = [].

(** The configuration [c] was made of these files. *)
Definition from_files e (certFile keyFile caCertFile : string) (caType : CAType) (skip : bool)
    (c : tls_Config) : Prop :=
  tc_InsecureSkipVerify c = skip ∧
  tc_VerifyPeerCertificate c = (if skip then Some VerifyWithoutName else None) ∧
  key_pair e certFile keyFile (tc_Certificates c) ∧
  tc_ServerName c = "" ∧
  match caType with
  | ClientCA => ca_pool e caCertFile (tc_ClientCAs c) ∧ tc_RootCAs c = None
  | ServerCA => ca_pool e caCertFile (tc_RootCAs c) ∧ tc_ClientCAs c = None
  end.

(** What was read later was read. *)
Lemma file_content_reads e e' name content :
  reads e e' → file_content e' name content → file_content e name content.
Proof. intros Hr (e1&?&?). exists e1. split; [|done]. by etransitivity. Qed.

Lemma ca_pool_reads e e' f pool : reads e e' → ca_pool e' f pool → ca_pool e f pool.
Proof.
  intros Hr. destruct pool as [p|]; [|done]. intros (Hne&pem&roots&e1&Hf&Hp&Hr1&Hs&->).
  split; [done|]. exists pem, roots, e1. split_and!; [by eapply file_content_reads|done|by etransitivity|done..].
Qed.

Lemma from_files_reads e e' certFile keyFile caCertFile caType skip c :
  reads e e' → from_files e' certFile keyFile caCertFile caType skip c →
  from_files e certFile keyFile caCertFile caType skip c.
Proof.
  intros Hr (?&?&Hk&?&Hca). do 2 (split; [done|]). split.
  { unfold key_pair in *. case_decide; [|done]. destruct Hk as (cp&kp&?&?&?&?).
    exists cp, kp. split_and!; eauto using file_content_reads. }
  split; [done|]. destruct caType; destruct Hca; eauto using ca_pool_reads.
Qed.

Lemma wp_lib {A} Err (f : E → A * E) e (Q : A → E → Prop) : Q (f e).1 (f e).2 → wp Err (lib f) e Q.
Proof. unfold wp, lib. by destruct (f e). Qed.

Lemma os_ReadFile_ok Err name e :
  wp Err (lib (os_ReadFile name)) e (λ r e', reads e e' ∧ ∀ b, r = inl b → file_content e name b).
Proof.
  apply wp_lib. split; [apply rtc_once; constructor|]. intros b Hb. by exists e.
Qed.

Lemma load_key_pair_ok certFile keyFile e :
  wp plain_error (load_key_pair certFile keyFile) e (λ certs e', reads e e' ∧ key_pair e certFile keyFile certs).
Proof.
  unfold load_key_pair. rewrite <-bool_decide_and.
  destruct (bool_decide_reflect (certFile ≠ "" ∧ keyFile ≠ "")).
  2: { apply wp_ret. unfold key_pair. by rewrite decide_False. }
  eapply wp_bind with (Q := λ r e', reads e e' ∧ ∀ cert, r = inl cert →
    ∃ certPEM keyPEM, cert = mkCertificate certPEM keyPEM ∧ file_content e certFile certPEM ∧
      file_content e keyFile keyPEM ∧ X509KeyPair_err certPEM keyPEM = None).
  { unfold LoadX509KeyPair. eapply wp_bind; [apply os_ReadFile_ok|].
    intros [certPEM|err] e1 [Hr1 H1]; [|by apply wp_ret].
    eapply wp_bind; [apply os_ReadFile_ok|]. intros [keyPEM|err] e2 [Hr2 H2]; [|apply wp_ret; split; [by etransitivity|done]].
    destruct (X509KeyPair_err certPEM keyPEM) eqn:Hx; apply wp_ret; (split; [by etransitivity|]); [done|].
    intros cert [= <-]. exists certPEM, keyPEM. split_and!; eauto using file_content_reads. }
  intros [cert|err] e1 [Hr Hc]; [|apply wp_throw; by eexists]. apply wp_ret. split; [done|].
  destruct (Hc cert eq_refl) as (cp&kp&->&?&?&?). unfold key_pair. rewrite decide_True by done. eauto 10.
Qed.

Lemma load_ca_ok caCertFile e :
  wp plain_error (load_ca caCertFile) e (λ pool e', reads e e' ∧ ca_pool e caCertFile pool).
Proof.
  unfold load_ca. case_decide as Hca; [by apply wp_ret|].
  eapply wp_bind with (Q := λ roots e1, roots = (SystemCertPool e).1 ∧ reads e e1).
  { apply wp_lib. split; [done|]. apply rtc_once. constructor. }
  intros roots e1 [-> Hr1]. unfold mustReadFile.
  eapply wp_bind with (Q := λ pem e2, reads e e2 ∧ file_content e caCertFile pem).
  { eapply wp_bind; [apply os_ReadFile_ok|]. intros [b|err] e2 [Hr2 Hb]; [|apply wp_throw; by eexists].
    apply wp_ret. split; [by etransitivity|]. eapply file_content_reads; [done|by apply Hb]. }
  intros pem e2 [Hr2 Hpem]. destruct (pem_has_certs pem) eqn:Hp; [apply wp_ret|apply wp_throw; by eexists].
  split; [done|]. split; [done|]. exists pem, (default (mkPool false []) (SystemCertPool e).1), e.
  split_and!; [done|done|reflexivity|done|done].
Qed.

Lemma TlsConfigFromFiles_ok certFile keyFile caCertFile caType skip e :
  wp plain_error (TlsConfigFromFiles certFile keyFile caCertFile caType skip) e (λ c e',
    reads e e' ∧ from_files e certFile keyFile caCertFile caType skip c ∧ tc_ClientAuth c = NoClientCert).
Proof.
  unfold TlsConfigFromFiles. eapply wp_bind; [apply load_key_pair_ok|]. intros certs e1 [Hr1 Hc].
  eapply wp_bind; [apply load_ca_ok|]. intros pool e2 [Hr2 Hp]. apply wp_ret.
  apply (ca_pool_reads _ _ _ _ Hr1) in Hp. split; [by etransitivity|]. split; [|done].
  by split_and!; [..|destruct caType].
Qed.

Lemma from_files_set_ClientAuth e a certFile keyFile caCertFile caType skip c :
  from_files e certFile keyFile caCertFile caType skip c →
  from_files e certFile keyFile caCertFile caType skip (set_ClientAuth a c).
Proof. done. Qed.

(** ** [NewSettings] *)

Context `{Envconfig E}.

(** What the settings say about connections: those the service makes to redis
    and memcached, the gRPC endpoint, and the one to the xDS server.  The files
    were read from the state [e] on. *)
Definition tls_settings e (s : Settings) : Prop :=
  (∃ c, se_RedisTlsConfig s = Some c ∧
     if se_RedisTls s || se_RedisPerSecondTls s
     then from_files e (se_RedisTlsClientCert s) (se_RedisTlsClientKey s) (se_RedisTlsCACert s) ServerCA
            (se_RedisTlsSkipHostnameVerification s) c
     else c = empty_config) ∧
  (∃ c, se_MemcacheTlsConfig s = Some c ∧
     if se_MemcacheTls s
     then from_files e (se_MemcacheTlsClientCert s) (se_MemcacheTlsClientKey s) (se_MemcacheTlsCACert s)
            ServerCA (se_MemcacheTlsSkipHostnameVerification s) c
     else c = empty_config) ∧
  (if se_GrpcServerUseTLS s
   then ∃ c, se_GrpcServerTlsConfig s = Some c ∧
          from_files e (se_GrpcServerTlsCert s) (se_GrpcServerTlsKey s) (se_GrpcClientTlsCACert s) ClientCA false c ∧
          tc_ClientAuth c = auth_for (se_GrpcClientTlsCACert s)
   else se_GrpcServerTlsConfig s = None) ∧
  (if se_ConfigGrpcXdsServerUseTls s
   then ∃ c, se_ConfigGrpcXdsTlsConfig s = Some c ∧
          from_files e (se_ConfigGrpcXdsClientTlsCert s) (se_ConfigGrpcXdsClientTlsKey s)
            (se_ConfigGrpcXdsServerTlsCACert s) ServerCA false c
   else se_ConfigGrpcXdsTlsConfig s = None).

Lemma optional_config certFile keyFile caCertFile skip (b : bool) e :
  wp plain_error (if b then TlsConfigFromFiles certFile keyFile caCertFile ServerCA skip else mret empty_config) e
    (λ c e', reads e e' ∧ if b then from_files e certFile keyFile caCertFile ServerCA skip c else c = empty_config).
Proof.
  destruct b; [|by apply wp_ret]. eapply wp_mono; [apply TlsConfigFromFiles_ok|]. by intros c e' (?&?&_).
Qed.

Lemma env_ok {A} (k : kind A) name def e : wp plain_error (env k name def) e (λ _ e', e' = e).
Proof. unfold wp, env. destruct (env_field k name def e); [by eexists|done]. Qed.

(** Reading the variables changes nothing and fails only with an error. *)
Lemma Process_ok e : wp plain_error Process e (λ _ e', e' = e).
Proof.
  unfold Process. repeat (eapply wp_bind; [apply env_ok|intros ? ? ->]). by apply wp_ret.
Qed.

Lemma NewSettings_impl_ok env e :
  Process e = (Ret env, e) →
  wp plain_error NewSettings_impl e (λ s _, se_env s = env ∧ tls_settings e s ∧ se_GrpcUnaryInterceptor s = None).
Proof.
  intros Hp. unfold NewSettings_impl. eapply wp_bind_Ret; [exact Hp|]. cbv zeta.
  eapply wp_bind with (Q := λ s e1, reads e e1 ∧ ∃ c, s = mkSettings env None None None (Some c) None ∧
    if se_RedisTls env || se_RedisPerSecondTls env then
      from_files e (se_RedisTlsClientCert env) (se_RedisTlsClientKey env) (se_RedisTlsCACert env) ServerCA
            (se_RedisTlsSkipHostnameVerification env) c else c = empty_config).
  { eapply wp_bind; [apply optional_config|]. intros c e1 [Hr Hc]. apply wp_ret. split; [done|]. by exists c. }
  intros s1 e1 (Hr1&rc&->&Hrc). simpl.
  eapply wp_bind with (Q := λ s e2, reads e e2 ∧ ∃ c, s = mkSettings env None None None (Some rc) (Some c) ∧
    if se_MemcacheTls env then
      from_files e (se_MemcacheTlsClientCert env) (se_MemcacheTlsClientKey env) (se_MemcacheTlsCACert env) ServerCA
            (se_MemcacheTlsSkipHostnameVerification env) c else c = empty_config).
  { eapply wp_bind; [apply optional_config|]. intros c e2 [Hr Hc]. apply wp_ret. split; [by etransitivity|].
    exists c. split; [done|]. destruct (se_MemcacheTls env); [by eapply from_files_reads|done]. }
  intros s2 e2 (Hr2&mc&->&Hmc).
  eapply wp_bind with (Q := λ s e3, reads e e3 ∧ ∃ g, s = mkSettings env None g None (Some rc) (Some mc) ∧
    if se_GrpcServerUseTLS env then ∃ c, g = Some c ∧
      from_files e (se_GrpcServerTlsCert env) (se_GrpcServerTlsKey env) (se_GrpcClientTlsCACert env) ClientCA false c ∧
      tc_ClientAuth c = auth_for (se_GrpcClientTlsCACert env) else g = None).
  { unfold GrpcServerTlsConfig; simpl. destruct (se_GrpcServerUseTLS env); [|apply wp_ret; split; [done|]; by eexists].
    eapply wp_bind; [apply TlsConfigFromFiles_ok|]. intros c e3 (Hr3&Hc&_). apply wp_ret.
    split; [by etransitivity|]. eexists. split; [done|]. eexists. split; [done|]. split; [|done].
    by apply from_files_set_ClientAuth, (from_files_reads e e2). }
  intros s3 e3 (Hr3&g&->&Hg). unfold ConfigGrpcXdsServerTlsConfig, tls_settings; simpl.
  destruct (se_ConfigGrpcXdsServerUseTls env) eqn:Hx.
  - eapply wp_bind; [apply TlsConfigFromFiles_ok|]. intros c e4 (_&Hc&_). apply wp_ret; simpl. rewrite Hx.
    split; [done|]. split; [|done]. split_and!; eauto using from_files_reads.
  - apply wp_ret; simpl. rewrite Hx. split; [done|]. split; [|done]. split_and!; eauto.
Qed.

(** [NewSettings] either panics with an error, or returns the variables with the
    TLS configurations made from them. *)
Lemma NewSettings_impl_verdict e :
  wp plain_error NewSettings_impl e (λ s _, Process e = (Ret (se_env s), e) ∧ tls_settings e s).
Proof.
  pose proof (Process_ok e) as Hp. unfold wp in Hp.
  destruct (Process e) as [[env|p|c] e1] eqn:He; [subst e1| |done].
  - eapply wp_mono; [by apply (NewSettings_impl_ok env)|]. by intros s e' (->&?&_).
  - unfold wp. unfold NewSettings_impl. by erewrite bind_Panic by exact He.
Qed.
End spec.

(** ** A simulated host

    Variables and files; a file is read as the text stored for it. *)

Record Host : Type := mkHost {
  ho_vars : list (string * string);
  ho_files : list (string * string);
}.

Definition assoc (name : string) (l : list (string * string)) : option string :=
  snd <$> (list_find (λ p, p.1 = name) l ≫= λ p, Some p.2).

Definition parse_seconds (s : string) (n : Z) : string + Z :=
  match ParseInt s 64 with Some v => inr (v * n * 10 ^ 9) | None => inl ("parsing " +:+ s) end.

Definition parse_float (s : string) : string + spec_float :=
  if decide (s = "0.8") then inr ratio_default
  else if decide (s = "0.5") then inr (S754_finite false 4503599627370496 (-53))
  else if decide (s = "1") then inr (S754_finite false 4503599627370496 (-52))
  else inl ("parsing " +:+ s).

Definition parse_pair (p : string) : string * string :=
  match Cut p ":" with Some kv => kv | None => (p, "") end.

Definition parse_field {A} (k : kind A) : string → string + A :=
  match k in kind A return string → string + A with
  | KString => inr
  | KInt => λ s, match ParseInt s 64 with Some v => inr v | None => inl ("parsing " +:+ s) end
  | KBool => λ s, if decide (s = "true") then inr true
                  else if decide (s = "false") then inr false else inl ("parsing " +:+ s)
  | KDuration => λ s, if decide (s = "0") then inr 0
                      else if decide (last_byte s = "h") then parse_seconds (TrimSuffix s "h") 3600
                      else parse_seconds (TrimSuffix s "s") 1
  | KFloat32 => parse_float
  | KFloat64 => parse_float
  | KStrings => λ s, inr (Split s ",")
  | KMap => λ s, inr (list_to_map (parse_pair <$> Split s ","))
  end.

Definition zero_field {A} (k : kind A) : A :=
  match k in kind A return A with
  | KString => ""
  | KInt => 0
  | KBool => false
  | KDuration => 0
  | KFloat32 => S754_zero false
  | KFloat64 => S754_zero false
  | KStrings => []
  | KMap => ∅
  end.

#[export] Instance host_env : Envconfig Host := λ A k name default h,
  match assoc name (ho_vars h) with
  | Some v => parse_field k v
  | None => if decide (default = "") then inr (zero_field k) else parse_field k default
  end.

#[export] Instance host_files : FileSystem Host := {|
  os_ReadFile name h :=
    (match assoc name (ho_files h) with Some b => inl b | None => inr "no such file or directory" end, h);
  SystemCertPool h := (Some (mkPool true []), h);
|}.

(** A certificate is valid when it has a text, and carries the name before its
    first "@"; it verifies against a pool that holds what is after it. *)
Definition toy_x509 : X509 := {|
  X509KeyPair_err cert key := if decide (cert = "") then Some "no certificate" else None;
  pem_has_certs pem := negb (bool_decide (pem = ""));
  ParseCertificate der := if decide (der = "") then inr "empty" else inl der;
  Verify roots name intermediates usage leaf :=
    match roots, Cut leaf "@" with
    | Some p, Some (subject, ca) =>
        if bool_decide (ca ∈ pool_pems p) && (bool_decide (name = "") || bool_decide (name = subject))
        then inl [leaf :: intermediates] else inr "certificate signed by unknown authority"
    | _, _ => inr "certificate signed by unknown authority"
    end;
|}.

#[local] Existing Instance toy_x509.

Definition host_settings (h : Host) : option Settings :=
  match NewSettings_impl h with (Ret s, _) => Some s | _ => None end.

Lemma default_settings_exist : is_Some (host_settings (mkHost [] [])).
Proof. apply (bool_decide_unpack _). by vm_compute. Qed.

(** The settings when these variables are set. *)
Definition settings_of (vars : list (string * string)) : Settings :=
  default (is_Some_proj default_settings_exist) (host_settings (mkHost vars [])).

(** ** What is built when nothing is configured *)

(** The defaults: files watched under the runtime root, redis on a socket, no
    TLS, statsd. *)
Lemma default_settings_values :
  let s := settings_of [] in
  se_ConfigType s = "FILE" ∧ se_BackendType s = "redis" ∧ se_RedisType s = "SINGLE" ∧
  se_UseStatsd s = true ∧ se_UseDogStatsd s = false ∧ se_GrpcServerUseTLS s = false ∧
  se_GlobalShadowMode s = false ∧ se_MergeDomainConfigurations s = false ∧
  se_ExpirationJitterMaxSeconds s = 300 ∧ se_GrpcMaxConnectionAge s = 86400 * 10 ^ 9 ∧
  se_NearLimitRatio s = ratio_default ∧ se_RedisTlsConfig s = Some empty_config.
Proof. by vm_compute. Qed.
