(* ===== verification/CertProvider.v ===== *)
(** * [src/provider/cert_provider.go]: the certificate of the gRPC endpoint

    The provider watches the directory of the certificate and reloads it.  The
    goroutine of [watch] is [watch_loop]: one [reloadCert] per change of the file
    system.  The goruntime loader is the class [RuntimeLoader]. *)

From S2P Require Import Prelude GoStrings GoPath Tls SettingsSpec.

#[local] Open Scope Z_scope.

Inductive FileSystemOp : Set := Create | Write | Remove | Rename | Chmod.

Inductive Refresher : Set :=
  | SymlinkRefresher (RuntimePath : string)
  | DirectoryRefresher (ops : option (list FileSystemOp)).   (** [None]: the default ones *)

Inductive DotFiles : Set := IgnoreDotFiles | AllowDotFiles.

(** [loader.New2] for a runtime path and a subdirectory: an error or nothing. *)
Class RuntimeLoader (E : Type) : Type :=
  loader_New2 : string → string → Refresher → DotFiles → E → option string * E.

Record CertProvider : Set := mkCertProvider {
  cp_cert : option Certificate;
  cp_certDirectory : string;
  cp_certFile : string;
  cp_keyFile : string;
}.

Section provider.
Context {E : Type} `{FileSystem E, X509, RuntimeLoader E}.

(** The function of the TLS configuration: never an error. *)
Definition GetCertificateFunc (p : CertProvider) : option Certificate * option string := (cp_cert p, None).

Definition reloadCert (p : CertProvider) : M E CertProvider :=
  r ← LoadX509KeyPair (cp_certFile p) (cp_keyFile p);
  match r with
  | inr err =>
      match cp_cert p with
      | None => exit 1                  (* logger.Fatalf *)
      | Some _ => mret p
      end
  | inl tlsKeyPair =>
      mret (mkCertProvider (Some tlsKeyPair) (cp_certDirectory p) (cp_certFile p) (cp_keyFile p))
  end.

Definition setupRuntime (p : CertProvider) : M E unit :=
  let runtimePath := Dir (cp_certDirectory p) in
  let runtimeSubdirectory := Base (cp_certDirectory p) in
  err ← lib (loader_New2 runtimePath runtimeSubdirectory (DirectoryRefresher None) IgnoreDotFiles);
  match err with
  | Some err => exit 1
  | None => mret ()
  end.

Definition NewCertProvider (certFile keyFile : string) : M E CertProvider :=
  let certDirectory := Dir certFile in
  if decide (certDirectory ≠ Dir keyFile) then exit 1
  else
    let p := mkCertProvider None certDirectory certFile keyFile in
    _ ← setupRuntime p;
    reloadCert p.

(** Each change of the outside world is followed by a runtime update. *)
Fixpoint watch_loop (p : CertProvider) (changes : list (E → E)) : M E CertProvider :=
  match changes with
  | [] => mret p
  | change :: changes' =>
      _ ← modify change;
      p ← reloadCert p;
      watch_loop p changes'
  end.

(** ** What is served *)

Definition good_pair (certFile keyFile : string) (e : E) : option Certificate :=
  match LoadX509KeyPair certFile keyFile e with
  | (Ret (inl c), _) => Some c
  | _ => None
  end.

Lemma LoadX509KeyPair_ret certFile keyFile e :
  ∃ r e', LoadX509KeyPair certFile keyFile e = (Ret r, e').
Proof.
  unfold LoadX509KeyPair, lib, mbind, M_bind. destruct (os_ReadFile certFile e) as [[cert|err] e1]; [|by eexists _, _].
  destruct (os_ReadFile keyFile e1) as [[key|err] e2]; [|by eexists _, _].
  destruct (X509KeyPair_err cert key); by eexists _, _.
Qed.

(** The files as they are read at each update. *)
Fixpoint attempts (certFile keyFile : string) (changes : list (E → E)) (e : E) : list (option Certificate) :=
  match changes with
  | [] => []
  | change :: changes' =>
      good_pair certFile keyFile (change e) ::
      attempts certFile keyFile changes' (LoadX509KeyPair certFile keyFile (change e)).2
  end.

(** The last pair that could be loaded, [c] if none could. *)
Definition last_good (c : Certificate) (as_ : list (option Certificate)) : Certificate :=
  foldl (λ c a, default c a) c as_.

Lemma reloadCert_ok p e :
  is_Some (cp_cert p) ∨ is_Some (good_pair (cp_certFile p) (cp_keyFile p) e) →
  ∃ c, reloadCert p e = (Ret (mkCertProvider (Some c) (cp_certDirectory p) (cp_certFile p) (cp_keyFile p)),
                        (LoadX509KeyPair (cp_certFile p) (cp_keyFile p) e).2) ∧
    match good_pair (cp_certFile p) (cp_keyFile p) e with Some c' => c = c' | None => cp_cert p = Some c end.
Proof.
  unfold reloadCert, good_pair. destruct (LoadX509KeyPair_ret (cp_certFile p) (cp_keyFile p) e) as (r&e'&Hr).
  rewrite Hr. erewrite bind_Ret by exact Hr. destruct r as [c|err]; [by eexists|].
  intros [[c Hc]|[? [=]]]. exists c. rewrite Hc. split; [|done]. destruct p. simpl in *. by subst.
Qed.

Lemma watch_loop_ok changes : ∀ p c e,
  cp_cert p = Some c →
  wp (λ _, False) (watch_loop p changes) e (λ p' _,
    cp_cert p' = Some (last_good c (attempts (cp_certFile p) (cp_keyFile p) changes e))).
Proof.
  induction changes as [|change changes IH]; intros p c e Hc; simpl; [by apply wp_ret|].
  eapply wp_bind_Ret; [reflexivity|].
  destruct (reloadCert_ok p (change e)) as (c'&Hrun&Hc'); [left; by rewrite Hc|].
  eapply wp_bind_Ret; [exact Hrun|]. eapply wp_mono; [by apply (IH _ c')|]. simpl. intros p' _ ->.
  do 2 f_equal. destruct (good_pair _ _ _); simpl; congruence.
Qed.

(** The provider starts exactly when both files are in one directory that can
    be watched and load together; otherwise the process exits. *)
Lemma NewCertProvider_starts certFile keyFile e :
  let '(err, e1) := loader_New2 (Dir (Dir certFile)) (Base (Dir certFile)) (DirectoryRefresher None)
                      IgnoreDotFiles e in
  if decide (Dir certFile = Dir keyFile ∧ err = None ∧ is_Some (good_pair certFile keyFile e1))
  then ∃ p e', NewCertProvider certFile keyFile e = (Ret p, e')
  else ∃ e', NewCertProvider certFile keyFile e = (Exit 1, e').
Proof.
  destruct (loader_New2 _ _ _ _ e) as [err e1] eqn:Hl. unfold NewCertProvider.
  destruct (decide (Dir certFile = Dir keyFile)) as [Hd|Hd].
  2: { rewrite decide_False by tauto. rewrite decide_True by done. by eexists. }
  rewrite (decide_False (P := Dir certFile ≠ Dir keyFile)) by tauto.
  set (p0 := mkCertProvider None _ certFile keyFile).
  assert (setupRuntime p0 e = (match err with Some _ => Exit 1 | None => Ret () end, e1)) as Hset.
  { unfold setupRuntime. erewrite bind_Ret by (unfold lib; simpl; by rewrite Hl). by destruct err. }
  destruct err as [err|].
  { rewrite decide_False by naive_solver. unfold mbind, M_bind. rewrite Hset. by eexists. }
  erewrite bind_Ret by exact Hset. case_decide as Hg.
  - destruct (reloadCert_ok p0 e1) as (c&Hrun&_); [right; apply Hg|]. rewrite Hrun. by eexists _, _.
  - unfold reloadCert, good_pair in *. simpl.
    destruct (LoadX509KeyPair_ret certFile keyFile e1) as (r&e'&Hr). rewrite Hr in Hg.
    erewrite bind_Ret by exact Hr. destruct r as [c|err]; [destruct Hg; by eauto|by eexists].
Qed.

(** The outside state once the directory is watched. *)
Definition watched (certFile : string) (e : E) : E :=
  (loader_New2 (Dir (Dir certFile)) (Base (Dir certFile)) (DirectoryRefresher None) IgnoreDotFiles e).2.

Lemma NewCertProvider_loaded certFile keyFile p e e' :
  NewCertProvider certFile keyFile e = (Ret p, e') →
  ∃ c, p = mkCertProvider (Some c) (Dir certFile) certFile keyFile ∧
    good_pair certFile keyFile (watched certFile e) = Some c.
Proof.
  unfold NewCertProvider. case_decide as Hdir; [done|]. intros Hrun.
  minv Hrun as (u&e1&Hset&Hrun). unfold reloadCert in Hrun. minv Hrun as (r&e2&Hload&Hrun).
  destruct r as [c|err]; [|done]. injection Hrun as <- _. exists c. split; [done|].
  assert (e1 = watched certFile e) as <-.
  { unfold setupRuntime, lib, mbind, M_bind in Hset. unfold watched. simpl in Hset.
    destruct (loader_New2 _ _ _ _ e) as [[err|] e3]; [done|]. by injection Hset as _ ->. }
  unfold good_pair. simpl in Hload. by rewrite Hload.
Qed.

(** C23: the gRPC endpoint always has a certificate.  Once [NewCertProvider]
    returned, whatever happens to the files, no update ends the process, and every
    handshake is given a certificate: the last certificate and key that could be
    loaded together.  Files that do not load leave the certificate in use. *)
Theorem cert_always_served certFile keyFile p (changes : list (E → E)) e e' :
  NewCertProvider certFile keyFile e = (Ret p, e') →
  ∃ c p' e'', cp_cert p = Some c ∧ watch_loop p changes e' = (Ret p', e'') ∧
    GetCertificateFunc p' = (Some (last_good c (attempts certFile keyFile changes e')), None).
Proof.
  intros (c&->&_)%NewCertProvider_loaded.
  pose proof (watch_loop_ok changes (mkCertProvider (Some c) (Dir certFile) certFile keyFile) c e' eq_refl) as Hw.
  unfold wp in Hw. destruct (watch_loop _ changes e') as [[p'| |] e'']; [|done..].
  exists c, p', e''. split_and!; [done|done|]. unfold GetCertificateFunc. by rewrite Hw.
Qed.
End provider.

(** ** On a simulated host: a renewal, a half-written key, another renewal *)

#[export] Instance host_loader : RuntimeLoader Host := λ _ _ _ _ h, (None, h).
#[local] Existing Instance toy_x509.

Definition host_with (cert key : string) : Host :=
  mkHost [] [("/tls/cert.pem", cert); ("/tls/key.pem", key)].

Lemma cert_always_served_witness :
  let changes := [λ _, host_with "c2" "k2"; λ _, host_with "" "k3"] in
  ∃ p h p' h', NewCertProvider "/tls/cert.pem" "/tls/key.pem" (host_with "c1" "k1") = (Ret p, h) ∧
    watch_loop p changes h = (Ret p', h') ∧ GetCertificateFunc p' = (Some (mkCertificate "c2" "k2"), None).
Proof.
  intros changes.
  assert (∃ p h, NewCertProvider "/tls/cert.pem" "/tls/key.pem" (host_with "c1" "k1") = (Ret p, h)) as (p&h&Hnew)
    by (eexists _, _; vm_compute; reflexivity).
  destruct (cert_always_served "/tls/cert.pem" "/tls/key.pem" p changes (host_with "c1" "k1") h Hnew)
    as (c&p'&h'&Hc&Hw&Hget).
  exists p, h, p', h'. split; [exact Hnew|]. split; [exact Hw|]. rewrite Hget. reflexivity.
Defined.
