(* ===== verification/Health.v ===== *)
(** * [src/server/health.go]: the health checker

    The map of component states, the flag the HTTP endpoint reads and the gRPC
    serving status.  [Fail] and [Ok] run under the checker's mutex, so each is
    one step; the components that call them are [config] (the service's
    [SetConfig]), [redis] (the connection pool's callbacks) and [sigterm]. *)

From S2P Require Import Prelude GoStrings.
From stdpp Require Import relations.

#[local] Open Scope Z_scope.

Definition ConfigHealthComponentName : string := "config".
Definition RedisHealthComponentName : string := "redis".
Definition SigtermComponentName : string := "sigterm".

Inductive ServingStatus : Set := SERVING | NOT_SERVING.

#[export] Instance ServingStatus_eq_dec : EqDecision ServingStatus.
Proof. solve_decision. Defined.

Record HealthChecker : Set := mkHealth {
  hc_grpc : ServingStatus;           (** the status set for [hc_name] *)
  hc_healthMap : gmap string bool;
  hc_ok : Z;                         (** an atomic uint32 *)
  hc_name : string;
}.

Definition areAllComponentsHealthy (healthMap : gmap string bool) : bool :=
  forallb snd (map_to_list healthMap).

Definition NewHealthChecker (name : string) (healthyWithAtLeastOneConfigLoad : bool)
  : HealthChecker :=
  let healthMap : gmap string bool := <[RedisHealthComponentName := true]> ∅ in
  let healthMap :=
    if healthyWithAtLeastOneConfigLoad
    then <[ConfigHealthComponentName := false]> healthMap else healthMap in
  let healthMap := <[SigtermComponentName := true]> healthMap in
  if areAllComponentsHealthy healthMap
  then mkHealth SERVING healthMap 1 name
  else mkHealth NOT_SERVING healthMap 0 name.

(** The status code of the HTTP answer. *)
Definition ServeHTTP (hc : HealthChecker) : Z := if decide (hc_ok hc = 1) then 200 else 500.

(** Both return the new state and the error, if any. *)
Definition Fail (hc : HealthChecker) (componentName : string) : HealthChecker * option string :=
  match hc_healthMap hc !! componentName with
  | Some _ =>
      (mkHealth NOT_SERVING (<[componentName := false]> (hc_healthMap hc)) 0 (hc_name hc), None)
  | None => (hc, Some ("Invalid component: " +:+ componentName))
  end.

Definition Ok (hc : HealthChecker) (componentName : string) : HealthChecker * option string :=
  match hc_healthMap hc !! componentName with
  | Some _ =>
      let healthMap := <[componentName := true]> (hc_healthMap hc) in
      if areAllComponentsHealthy healthMap
      then (mkHealth SERVING healthMap 1 (hc_name hc), None)
      else (mkHealth (hc_grpc hc) healthMap (hc_ok hc) (hc_name hc), None)
  | None => (hc, Some ("Invalid component: " +:+ componentName))
  end.

(** ** The state machine *)

Inductive health_op : Set := OpOk (c : string) | OpFail (c : string).

Definition run_op (hc : HealthChecker) (o : health_op) : HealthChecker :=
  match o with OpOk c => (Ok hc c).1 | OpFail c => (Fail hc c).1 end.

(** The steps other parts of the program take: only [config] and [redis] are
    ever reported healthy. *)
Inductive health_step : HealthChecker → HealthChecker → Prop :=
  | step_ok hc c : c = ConfigHealthComponentName ∨ c = RedisHealthComponentName →
      health_step hc (run_op hc (OpOk c))
  | step_fail hc c : health_step hc (run_op hc (OpFail c)).

Definition all_healthy (m : gmap string bool) : Prop := ∀ c b, m !! c = Some b → b = true.

Lemma areAllComponentsHealthy_spec m : areAllComponentsHealthy m = true ↔ all_healthy m.
Proof.
  unfold areAllComponentsHealthy, all_healthy. rewrite forallb_forall. split.
  - intros Hf c b Hc. apply (Hf (c, b)). apply list_elem_of_In. by apply elem_of_map_to_list.
  - intros Hf [c b] Hin. apply list_elem_of_In, elem_of_map_to_list in Hin. by eapply Hf.
Qed.

(** HTTP, gRPC and the map agree. *)
Definition consistent (hc : HealthChecker) : Prop :=
  (all_healthy (hc_healthMap hc) ∧ hc_ok hc = 1 ∧ hc_grpc hc = SERVING) ∨
  (¬ all_healthy (hc_healthMap hc) ∧ hc_ok hc = 0 ∧ hc_grpc hc = NOT_SERVING).

Lemma NewHealthChecker_consistent name b : consistent (NewHealthChecker name b).
Proof.
  unfold NewHealthChecker. destruct (areAllComponentsHealthy _) eqn:Ha.
  - left. split; [by apply areAllComponentsHealthy_spec|done].
  - right. split; [|done]. cbn [hc_healthMap]. by rewrite <-areAllComponentsHealthy_spec, Ha.
Qed.

Lemma Fail_consistent hc c : consistent hc → consistent (Fail hc c).1.
Proof.
  intros Hc. unfold Fail. destruct (hc_healthMap hc !! c) eqn:Hl; [|done]. right. simpl.
  split; [|done]. intros Hh. specialize (Hh c false). rewrite lookup_insert_eq in Hh.
  by specialize (Hh eq_refl).
Qed.

Lemma Ok_consistent hc c : consistent hc → consistent (Ok hc c).1.
Proof.
  intros Hc. unfold Ok. destruct (hc_healthMap hc !! c) eqn:Hl; [|done].
  destruct (areAllComponentsHealthy _) eqn:Ha; simpl.
  - left. split; [by apply areAllComponentsHealthy_spec|done].
  - assert (¬ all_healthy (<[c := true]> (hc_healthMap hc))) as Hn
      by (by rewrite <-areAllComponentsHealthy_spec, Ha).
    destruct Hc as [[Hh _]|(_&?&?)]; [|right; done]. exfalso. apply Hn.
    intros d b'. destruct (decide (c = d)) as [<-|].
    + rewrite lookup_insert_eq. by intros [= <-].
    + rewrite lookup_insert_ne by done. apply Hh.
Qed.

Lemma health_step_consistent hc hc' : consistent hc → health_step hc hc' → consistent hc'.
Proof. destruct 2; [by apply Ok_consistent|by apply Fail_consistent]. Qed.

Lemma rtc_invariant {A} (R : A → A → Prop) (P : A → Prop) a b :
  (∀ x y, P x → R x y → P y) → P a → rtc R a b → P b.
Proof. intros Hs Ha Hr. induction Hr; eauto. Qed.

(** C27: in every reachable state the HTTP endpoint answers 200 exactly when all
    components are healthy, and the gRPC status says the same. *)
Theorem health_endpoints_agree name b hc :
  rtc health_step (NewHealthChecker name b) hc →
  (ServeHTTP hc = 200 ↔ all_healthy (hc_healthMap hc)) ∧
  (hc_grpc hc = SERVING ↔ all_healthy (hc_healthMap hc)) ∧
  (ServeHTTP hc = 200 ∨ ServeHTTP hc = 500).
Proof.
  intros Hr. assert (consistent hc) as Hc.
  { eapply rtc_invariant; [apply health_step_consistent|apply NewHealthChecker_consistent|done]. }
  unfold ServeHTTP. destruct Hc as [(?&->&->)|(?&->&->)]; simpl; intuition congruence.
Qed.

Lemma health_endpoints_agree_witness :
  let hc := run_op (run_op (NewHealthChecker "ratelimit" true) (OpOk "config")) (OpFail "redis") in
  ServeHTTP hc ≠ 200.
Proof.
  intros hc Hok. apply (health_endpoints_agree "ratelimit" true hc) in Hok.
  - by specialize (Hok "redis" false eq_refl).
  - eapply rtc_l; [apply step_ok; by left|]. eapply rtc_l; [apply step_fail|]. apply rtc_refl.
Defined.

Definition sigterm_failed (hc : HealthChecker) : Prop :=
  hc_healthMap hc !! SigtermComponentName = Some false.

Lemma sigterm_failed_step hc hc' : sigterm_failed hc → health_step hc hc' → sigterm_failed hc'.
Proof.
  unfold sigterm_failed. intros Hs. destruct 1 as [hc c Hc|hc c]; simpl.
  - unfold Ok. destruct (hc_healthMap hc !! c); [|done].
    destruct (areAllComponentsHealthy _); simpl; rewrite lookup_insert_ne; try done;
      by destruct Hc as [->| ->].
  - unfold Fail. destruct (hc_healthMap hc !! c); [|done]. simpl.
    destruct (decide (c = SigtermComponentName)) as [->|]; [by rewrite lookup_insert_eq|].
    by rewrite lookup_insert_ne.
Qed.

Lemma sigterm_known name b hc :
  rtc health_step (NewHealthChecker name b) hc → is_Some (hc_healthMap hc !! SigtermComponentName).
Proof.
  apply (rtc_invariant _ (λ hc, is_Some (hc_healthMap hc !! SigtermComponentName))).
  - intros hc1 hc2 Hs. destruct 1 as [hc1 c|hc1 c]; simpl; unfold Ok, Fail;
      (destruct (hc_healthMap hc1 !! c) eqn:?; [|done]); try destruct (areAllComponentsHealthy _); simpl;
      apply lookup_insert_is_Some; destruct (decide (c = SigtermComponentName)); auto.
  - unfold NewHealthChecker. destruct (areAllComponentsHealthy _); simpl; rewrite lookup_insert_eq; eauto.
Qed.

(** C28: draining is final: once [sigterm] was reported, whatever the other
    components report afterwards, the service stays unhealthy on both
    endpoints. *)
Theorem health_sigterm_final name b hc hc' :
  rtc health_step (NewHealthChecker name b) hc →
  rtc health_step (Fail hc SigtermComponentName).1 hc' →
  ServeHTTP hc' = 500 ∧ hc_grpc hc' = NOT_SERVING.
Proof.
  intros H1 H2. assert (consistent hc' ∧ sigterm_failed hc') as [Hc Hs].
  { eapply (rtc_invariant health_step (λ x, consistent x ∧ sigterm_failed x)); [| |exact H2].
    - intros x y [? ?] ?. split; [by eapply health_step_consistent|by eapply sigterm_failed_step].
    - split.
      + apply Fail_consistent. eapply rtc_invariant; [apply health_step_consistent| |exact H1].
        apply NewHealthChecker_consistent.
      + apply sigterm_known in H1 as [v Hv]. unfold sigterm_failed, Fail. rewrite Hv. simpl.
        by rewrite lookup_insert_eq. }
  destruct Hc as [(Hall&_)|(_&Hok&Hg)].
  - by specialize (Hall _ _ Hs).
  - unfold ServeHTTP. by rewrite Hok.
Qed.

Lemma health_sigterm_final_witness :
  let hc := NewHealthChecker "ratelimit" false in
  ServeHTTP hc = 200 ∧ ServeHTTP (run_op (Fail hc "sigterm").1 (OpOk "redis")) = 500.
Proof.
  intros hc. split; [by vm_compute|].
  apply (health_sigterm_final "ratelimit" false hc); [apply rtc_refl|].
  apply rtc_once. apply step_ok. by right.
Defined.
