(* ===== verification/Service.v ===== *)
(** * [src/service/ratelimit.go]: the rate limit service

    The service's state is a record; the operations that change it
    ([SetConfig], [NewService]) return the new record, the request path
    ([ShouldRateLimit]) only reads it.  The configuration and the global shadow
    mode are read together under the lock ([GetCurrentConfig]).  The backend is
    any [RateLimitCache]; reading the settings from the environment is the class
    [EnvSettings]. *)

From S2P Require Import Prelude GoStrings World Utils Stats Config Limiter Tls Settings Health.

#[local] Open Scope Z_scope.

(** ** Configuration updates ([src/provider/provider.go]) *)

Record ConfigUpdateEventImpl : Set := mkEvent {
  ev_config : option rateLimitConfigImpl;
  ev_err : option panic;
}.

Definition GetConfig (e : ConfigUpdateEventImpl) : option rateLimitConfigImpl * option panic :=
  (ev_config e, ev_err e).

Record service (C : Type) : Type := mkService {
  sv_config : option rateLimitConfigImpl;
  sv_cache : C;
  sv_stats : ServiceStats;
  sv_health : HealthChecker;
  sv_customHeadersEnabled : bool;
  sv_customHeaderLimitHeader : string;
  sv_customHeaderRemainingHeader : string;
  sv_customHeaderResetHeader : string;
  sv_globalShadowMode : bool;
}.
Arguments mkService {_} _ _ _ _ _ _ _ _ _.
Arguments sv_config {_} _.
Arguments sv_cache {_} _.
Arguments sv_stats {_} _.
Arguments sv_health {_} _.
Arguments sv_customHeadersEnabled {_} _.
Arguments sv_customHeaderLimitHeader {_} _.
Arguments sv_customHeaderRemainingHeader {_} _.
Arguments sv_customHeaderResetHeader {_} _.
Arguments sv_globalShadowMode {_} _.

Section service.
Context {E C : Type} `{TimeSource E} `{EnvSettings E} `{RateLimitCache E C}.
#[local] Abbreviation W := (World E).
Implicit Types this : service C.

(** [settings.NewSettings]. *)
Definition NewSettings : M W Settings :=
  r ← ext env_settings;
  match r with
  | inl err => throw (PError err)
  | inr s => mret s
  end.

(** ** Configuration *)

(** Lines 68-78: the health of the [config] component; an error is logged. *)
Definition config_health (healthyWithAtLeastOneConfigLoad : bool)
    (newConfig : option rateLimitConfigImpl) (h : HealthChecker) : M W HealthChecker :=
  if healthyWithAtLeastOneConfigLoad then
    cf ← non_nil newConfig;
    mret (if negb (IsEmptyDomains cf)
          then (Ok h ConfigHealthComponentName).1
          else (Fail h ConfigHealthComponentName).1)
  else mret h.

Definition SetConfig this (updateEvent : ConfigUpdateEventImpl)
    (healthyWithAtLeastOneConfigLoad : bool) : M W (service C) :=
  let '(newConfig, err) := GetConfig updateEvent in
  match err with
  | Some (PConfigError configError) =>
      _ ← Inc (sv_ConfigLoadError (sv_stats this));
      mret this
  | Some e => throw e
  | None =>
      health ← config_health healthyWithAtLeastOneConfigLoad newConfig (sv_health this);
      _ ← Inc (sv_ConfigLoadSuccess (sv_stats this));
      rlSettings ← NewSettings;
      let headers := se_RateLimitResponseHeadersEnabled (se_env rlSettings) in
      mret {|
        sv_config := newConfig;
        sv_cache := sv_cache this;
        sv_stats := sv_stats this;
        sv_health := health;
        sv_customHeadersEnabled := if headers then true else sv_customHeadersEnabled this;
        sv_customHeaderLimitHeader :=
          if headers then se_HeaderRatelimitLimit (se_env rlSettings) else sv_customHeaderLimitHeader this;
        sv_customHeaderRemainingHeader :=
          if headers then se_HeaderRatelimitRemaining (se_env rlSettings)
          else sv_customHeaderRemainingHeader this;
        sv_customHeaderResetHeader :=
          if headers then se_HeaderRatelimitReset (se_env rlSettings) else sv_customHeaderResetHeader this;
        sv_globalShadowMode := se_GlobalShadowMode (se_env rlSettings) |}
  end.

Definition GetCurrentConfig this : option rateLimitConfigImpl * bool :=
  (sv_config this, sv_globalShadowMode this).

(** ** The request path *)

Definition checkServiceErr (something : bool) (msg : string) : M W unit :=
  if something then mret () else throw (PServiceError msg).

(** Lines 121-160: the limit of every descriptor, which are unlimited, and the
    names to replace. *)
Definition collect_limits (snappedConfig : rateLimitConfigImpl) (request : RateLimitRequest)
  : M W (list (option loc) * list bool * gset string) :=
  range (rq_Descriptors request) ([], [], ∅)
    (λ _ descriptor '(limitsToCheck, isUnlimited, replacing),
      limit ← GetLimit snappedConfig (rq_Domain request) descriptor;
      match limit with
      | None => mret (limitsToCheck ++ [None], isUnlimited ++ [false], replacing)
      | Some l =>
          rl ← load l;
          let replacing := list_to_set (rl_Replaces rl) ∪ replacing in
          if rl_Unlimited rl
          then mret (limitsToCheck ++ [None], isUnlimited ++ [true], replacing)
          else mret (limitsToCheck ++ [Some l], isUnlimited ++ [false], replacing)
      end).

(** Lines 162-173. *)
Definition drop_replaced (limitsToCheck : list (option loc)) (replacing : gset string)
  : M W (list (option loc)) :=
  range limitsToCheck [] (λ _ limit acc,
    match limit with
    | None => mret (acc ++ [None])
    | Some l =>
        rl ← load l;
        if decide (rl_Name rl = "") then mret (acc ++ [Some l])
        else if decide (rl_Name rl ∈ replacing) then mret (acc ++ [None])
        else mret (acc ++ [Some l])
    end).

Definition constructLimitsToCheck (request : RateLimitRequest)
    (snappedConfig : option rateLimitConfigImpl) : M W (list (option loc) * list bool) :=
  _ ← checkServiceErr (bool_decide (is_Some snappedConfig)) "no rate limit configuration loaded";
  cf ← non_nil snappedConfig;
  '(limitsToCheck, isUnlimited, replacing) ← collect_limits cf request;
  limitsToCheck ← drop_replaced limitsToCheck replacing;
  mret (limitsToCheck, isUnlimited).

Definition rateLimitLimitHeader this (descriptor : DescriptorStatus) : M W HeaderValue :=
  limit ← non_nil (st_CurrentLimit descriptor);
  mret (mkHeader (sv_customHeaderLimitHeader this) (FormatInt (pl_RequestsPerUnit limit))).

Definition rateLimitRemainingHeader this (descriptor : DescriptorStatus) : M W HeaderValue :=
  mret (mkHeader (sv_customHeaderRemainingHeader this) (FormatInt (st_LimitRemaining descriptor))).

Definition rateLimitResetHeader this (descriptor : DescriptorStatus) : M W HeaderValue :=
  limit ← non_nil (st_CurrentLimit descriptor);
  reset ← CalculateReset (pl_Unit limit);
  mret (mkHeader (sv_customHeaderResetHeader this) (FormatInt reset)).

Definition unlimited_status : DescriptorStatus := mkStatus Code_OK None MaxUint32 None.

(** The local variables of the loop over the statuses. *)
Record summary : Set := mkSummary {
  sm_Statuses : list DescriptorStatus;
  sm_finalCode : Code;
  sm_minLimitRemaining : Z;
  sm_minimumDescriptor : option DescriptorStatus;
}.

(** Lines 199-222. *)
Definition summarize this (isUnlimited : list bool)
    (responseDescriptorStatuses : list DescriptorStatus) : M W summary :=
  range responseDescriptorStatuses (mkSummary [] Code_OK MaxUint32 None)
    (λ i descriptorStatus s,
      let s :=
        if sv_customHeadersEnabled this && bool_decide (is_Some (st_CurrentLimit descriptorStatus))
           && bool_decide (st_LimitRemaining descriptorStatus < sm_minLimitRemaining s)
        then mkSummary (sm_Statuses s) (sm_finalCode s) (st_LimitRemaining descriptorStatus)
               (Some descriptorStatus)
        else s in
      unlimited ← index isUnlimited i;
      if unlimited : bool then
        mret (mkSummary (sm_Statuses s ++ [unlimited_status]) (sm_finalCode s)
                (sm_minLimitRemaining s) (sm_minimumDescriptor s))
      else if decide (st_Code descriptorStatus = Code_OVER_LIMIT) then
        mret (mkSummary (sm_Statuses s ++ [descriptorStatus]) (st_Code descriptorStatus) 0
                (Some descriptorStatus))
      else
        mret (mkSummary (sm_Statuses s ++ [descriptorStatus]) (sm_finalCode s)
                (sm_minLimitRemaining s) (sm_minimumDescriptor s))).

Definition shouldRateLimitWorker this (request : RateLimitRequest) : M W RateLimitResponse :=
  _ ← checkServiceErr (bool_decide (rq_Domain request ≠ "")) "rate limit domain must not be empty";
  _ ← checkServiceErr (bool_decide (length (rq_Descriptors request) ≠ 0%nat))
        "rate limit descriptor list must not be empty";
  let '(snappedConfig, globalShadowMode) := GetCurrentConfig this in
  '(limitsToCheck, isUnlimited) ← constructLimitsToCheck request snappedConfig;
  responseDescriptorStatuses ← cache_DoLimit (sv_cache this) request limitsToCheck;
  _ ← Assert (bool_decide (length limitsToCheck = length responseDescriptorStatuses));
  s ← summarize this isUnlimited responseDescriptorStatuses;
  headers ←
    (match sm_minimumDescriptor s with
     | Some d =>
         if sv_customHeadersEnabled this then
           h1 ← rateLimitLimitHeader this d;
           h2 ← rateLimitRemainingHeader this d;
           h3 ← rateLimitResetHeader this d;
           mret [h1; h2; h3]
         else mret []
     | None => mret []
     end);
  if bool_decide (sm_finalCode s = Code_OVER_LIMIT) && globalShadowMode then
    _ ← Inc (sv_GlobalShadowMode (sv_stats this));
    mret (mkResponse Code_OK (sm_Statuses s) headers)
  else mret (mkResponse (sm_finalCode s) (sm_Statuses s) headers).

(** The response, or the error. *)
Definition ShouldRateLimit this (request : RateLimitRequest)
  : M W (option RateLimitResponse * option string) :=
  recover (response ← shouldRateLimitWorker this request; mret (Some response, None))
    (λ err,
      match err with
      | PRedisError t =>
          _ ← Inc (ss_RedisError (sv_ShouldRateLimit (sv_stats this)));
          mret (None, Some t)
      | PServiceError t =>
          _ ← Inc (ss_ServiceError (sv_ShouldRateLimit (sv_stats this)));
          mret (None, Some t)
      | _ => throw err
      end).

(** ** Construction: waits for the first update unless told not to.  The
    update loop then applies [SetConfig] to every event. *)
Definition NewService (cache : C) (statsManager : ManagerImpl) (health : HealthChecker)
    (shadowMode forceStart healthyWithAtLeastOneConfigLoad : bool)
    (first : ConfigUpdateEventImpl) : M W (service C) :=
  let newService := {|
    sv_config := None;
    sv_cache := cache;
    sv_stats := NewServiceStats statsManager;
    sv_health := health;
    sv_customHeadersEnabled := false;
    sv_customHeaderLimitHeader := "";
    sv_customHeaderRemainingHeader := "";
    sv_customHeaderResetHeader := "";
    sv_globalShadowMode := shadowMode |} in
  if negb forceStart then SetConfig newService first healthyWithAtLeastOneConfigLoad
  else mret newService.

Definition update_loop this (healthyWithAtLeastOneConfigLoad : bool)
    (events : list ConfigUpdateEventImpl) : M W (service C) :=
  range events this (λ _ updateEvent this,
    SetConfig this updateEvent healthyWithAtLeastOneConfigLoad).
End service.
