(* ===== verification/ServiceSpec.v ===== *)
(** * The service: which limits apply and what the caller is told

    A reference for the limits of a request, computed from the YAML
    descriptors alone ([spec_limit], [spec_limits]), and the proof that the
    service, over any backend that keeps its promise ([CacheLaws]), decides by
    it.  Failed requests and failed configuration updates are covered branch by
    branch. *)

From S2P Require Import Prelude GoStrings World Utils Stats Config ConfigLoad ConfigLookup.
From S2P Require Import Limiter LimiterSpec Health Service.

#[local] Open Scope Z_scope.

(** ** The limits of a request, from the files *)

Section spec.
Context (Unit_value : string → option Z) (m : ManagerImpl) (configs : list RateLimitConfigToLoad).

(** The limit of one descriptor: the request's own override first. *)
Definition spec_limit (domain : string) (desc : Descriptor) : option RateLimit :=
  if decide (domain ∈ domains_of configs) then
    match d_Limit desc with
    | Some o =>
        Some (make_limit (o_RequestsPerUnit o) (o_Unit o)
                (NewStats m (descriptorKey domain desc)) false false "" [] false)
    | None =>
        snd <$> resolved_limit Unit_value m (domain +:+ ".") (domain_descriptors configs domain)
                  (d_Entries desc)
    end
  else None.

Definition spec_limits (req : RateLimitRequest) : list (option RateLimit) :=
  spec_limit (rq_Domain req) <$> rq_Descriptors req.

(** The names some limit of the request replaces. *)
Definition replaced_names (specs : list (option RateLimit)) : gset string :=
  list_to_set (specs ≫= λ o, match o with Some rl => rl_Replaces rl | None => [] end).

(** The limit is checked: it exists, is not unlimited and not replaced. *)
Definition applies (names : gset string) (o : option RateLimit) : bool :=
  match o with
  | None => false
  | Some rl => negb (rl_Unlimited rl) && (bool_decide (rl_Name rl = "") ||
                                          bool_decide (rl_Name rl ∉ names))
  end.

Definition unlimited (o : option RateLimit) : bool :=
  match o with Some rl => rl_Unlimited rl | None => false end.

(** The units of the table are those the limiter can divide time by. *)
Definition units_known : Prop :=
  ∀ s v, Unit_value s = Some v → v = UNKNOWN ∨ 1 <= v <= 4.

(** Overrides in the request carry a unit too. *)
Definition overrides_known (req : RateLimitRequest) : Prop :=
  Forall (λ desc, ∀ o, d_Limit desc = Some o → 1 <= o_Unit o <= 4) (rq_Descriptors req).

#[export] Instance overrides_known_dec req : Decision (overrides_known req).
Proof.
  unfold overrides_known. apply Forall_dec. intros desc. destruct (d_Limit desc) as [o|]; [|left; done].
  destruct (decide (1 <= o_Unit o <= 4)) as [Ho|Ho]; [left|right].
  - by intros o' [= <-].
  - intros Hall. by apply Ho, Hall.
Defined.

Lemma find_key_elem k ds d : find_key k ds = Some d → d ∈ ds.
Proof.
  unfold find_key. intros ((i&d')&Hf&->)%fmap_Some. apply list_find_Some in Hf as (Hi&_&_).
  by eapply list_elem_of_lookup_2.
Qed.

Lemma match_yaml_elem ds e d : match_yaml ds e = Some d → d ∈ ds.
Proof.
  unfold match_yaml. destruct (find_key (entry_key e) ds) eqn:Hk.
  { intros [= <-]. by eapply find_key_elem. }
  destruct (list_find _ ds) as [[i d']|] eqn:Hf; [|apply find_key_elem].
  intros [= <-]. apply list_find_Some in Hf as (Hi&_&_). by eapply list_elem_of_lookup_2.
Qed.

Lemma forallb_elem {A} (f : A → bool) l x : forallb f l = true → x ∈ l → f x = true.
Proof. rewrite forallb_forall. intros Hf Hx. by apply Hf, list_elem_of_In. Qed.

(** A property that descriptors hand down to their children holds of whatever is
    found. *)
Lemma resolve_forallb (f : YamlDescriptor → bool) :
  (∀ d, f d = true → forallb f (yd_Descriptors d) = true) →
  ∀ es pk ds fk d, forallb f ds = true → resolve pk ds es = Some (fk, d) → f d = true.
Proof.
  intros Hf. induction es as [|e es IH]; intros pk ds fk d Hv; simpl; [done|].
  destruct (match_yaml ds e) as [d'|] eqn:Hm; [|done]. apply match_yaml_elem in Hm.
  pose proof (forallb_elem _ _ _ Hv Hm) as Hd'. destruct es as [|e' es]; [by intros [= _ <-]|].
  by apply IH, Hf.
Qed.

Lemma resolve_valid es pk ds fk d :
  forallb (valid_descriptor Unit_value) ds = true → resolve pk ds es = Some (fk, d) →
  valid_descriptor Unit_value d = true.
Proof.
  apply resolve_forallb. intros [? ? ? ds' ? ?]. simpl. by intros [_ ?]%andb_true_iff.
Qed.

(** The unit of a limit that is not unlimited divides time. *)
Lemma spec_limit_unit merge domain desc rl :
  valid_config Unit_value merge configs = true → units_known →
  (∀ o, d_Limit desc = Some o → 1 <= o_Unit o <= 4) →
  spec_limit domain desc = Some rl → rl_Unlimited rl = false →
  is_Some (unit_seconds (pl_Unit (rl_Limit rl))).
Proof.
  intros Hv Hk Ho. unfold spec_limit. case_decide as Hdom; [|done]. destruct (d_Limit desc) as [o|].
  { intros [= <-] _. by apply unit_seconds_is_Some, Ho. }
  intros ((d&rl')&Hres&Heq)%fmap_Some. subst rl. simpl. unfold resolved_limit in Hres.
  destruct (resolve _ _ _) as [[fk d']|] eqn:Hr; [|done].
  destruct (yd_RateLimit d') as [l|] eqn:Hl; [|done]. injection Hres as <- <-.
  apply andb_true_iff in Hv as [_ Hv].
  pose proof (forallb_elem _ _ _ Hv Hdom) as Hvd. apply andb_true_iff in Hvd as [_ Hvd].
  pose proof (resolve_valid _ _ _ _ _ Hvd Hr) as Hvd'. destruct d' as [? ? ? ? ? ?]. simpl in *.
  subst. apply andb_true_iff in Hvd' as [[[_ Hvl]%andb_true_iff _]%andb_true_iff _].
  apply andb_true_iff in Hvl as [Hx _]. intros Hu. rewrite Hu in Hx.
  unfold valid_unit, unit_value in *. destruct (Unit_value (ToUpper (yl_Unit l))) as [v|] eqn:Hv';
    [|done]. simpl. apply unit_seconds_is_Some. destruct (Hk _ _ Hv') as [->|]; [done|lia].
Qed.
End spec.

(** ** [GetLimit] and [constructLimitsToCheck] implement it *)

Section construct.
Context {E : Type} (Unit_value : string → option Z) (m : ManagerImpl) (merge : bool)
  (configs : list RateLimitConfigToLoad) (cf : rateLimitConfigImpl).
#[local] Abbreviation W := (World E).
#[local] Abbreviation spec_limit := (spec_limit Unit_value m configs).
Implicit Types w : W.

(** Configuration [cf] was loaded and its limits are still on the heap. *)
Definition in_force (w : W) : Prop := config_of Unit_value m merge (w_heap w) configs cf.

Lemma in_force_ext w w' : heap_ext (w_heap w) (w_heap w') → in_force w → in_force w'.
Proof. apply config_of_ext. Qed.

(** A result stands for a specified limit. *)
Definition stands_for (h : list RateLimit) (spec : option RateLimit) (r : option loc) : Prop :=
  match spec with
  | None => r = None
  | Some rl0 => ∃ l rl, r = Some l ∧ h !! l = Some rl ∧ same_limit rl0 rl
  end.

Lemma stands_for_ext h h' spec r : heap_ext h h' → stands_for h spec r → stands_for h' spec r.
Proof.
  intros Hx. destruct spec as [rl0|]; [|done]. intros (l&rl&->&Hl&Hs).
  apply Hx in Hl as (rl'&Hl'&Hs'). exists l, rl'. split_and!; [done..|by etransitivity].
Qed.

Lemma GetLimit_spec domain desc w :
  in_force w → ∃ r w', GetLimit cf domain desc w = (Ret r, w') ∧
    heap_ext (w_heap w) (w_heap w') ∧ w_ext w' = w_ext w ∧
    stands_for (w_heap w') (spec_limit domain desc) r.
Proof.
  intros (Hm&_&Hd). specialize (Hd domain). unfold ServiceSpec.spec_limit.
  destruct (cf_domains cf !! domain) as [nd|] eqn:Hnd.
  - destruct Hd as [Hdom Hl]. rewrite decide_True by done. destruct (d_Limit desc) as [o|] eqn:Ho.
    + unfold GetLimit. rewrite Hnd, Ho. returns. simpl. split_and!; [apply heap_ext_app|done|].
      eexists _, _. split_and!; [done| |reflexivity].
      rewrite lookup_app_r, Nat.sub_diag by lia. by rewrite Hm.
    + destruct (GetLimit_lookup Unit_value m cf domain desc w _ _ nd Hnd Hm Ho Hl)
        as (r&w'&Hrun&Hx&_&He&Hres).
      exists r, w'. split_and!; [done..|]. unfold stands_for.
      destruct (resolved_limit _ _ _ _ _) as [[d rl0]|]; simpl; [|by destruct Hres].
      destruct Hres as (p&rl&->&Hp&Hs&_). eauto.
  - rewrite decide_False by done. unfold GetLimit. rewrite Hnd. returns. by split_and!.
Qed.

Lemma replaced_names_snoc specs o :
  replaced_names (specs ++ [o]) =
    list_to_set (match o with Some rl => rl_Replaces rl | None => [] end) ∪ replaced_names specs.
Proof.
  unfold replaced_names. rewrite bind_app, list_to_set_app_L. simpl. rewrite app_nil_r.
  by rewrite (comm_L (∪)).
Qed.

Definition not_unlimited (o : option RateLimit) : option RateLimit :=
  if unlimited o then None else o.

Definition collected w (specs : list (option RateLimit))
    (s : list (option loc) * list bool * gset string) (w' : W) : Prop :=
  heap_ext (w_heap w) (w_heap w') ∧ w_ext w' = w_ext w ∧
  Forall2 (λ spec, stands_for (w_heap w') (not_unlimited spec)) specs s.1.1 ∧
  s.1.2 = unlimited <$> specs ∧ s.2 = replaced_names specs.

Lemma collect_limits_ok Err req w :
  in_force w →
  wp Err (collect_limits cf req) w (collected w (spec_limits Unit_value m configs req)).
Proof.
  intros Hf. set (specs := spec_limits Unit_value m configs req).
  assert (length specs = length (rq_Descriptors req)) as Hlen by apply length_fmap.
  unfold collect_limits. eapply wp_mono.
  { apply (wp_range Err (λ j, collected w (take j specs))).
    - by split_and!.
    - intros j desc [[ls us] rs] w1 Hj (Hx&He&Hls&Hus&Hrs). simpl in Hls, Hus, Hrs.
      destruct (GetLimit_spec (rq_Domain req) desc w1) as (r&w2&Hrun&Hx2&He2&Hst);
        [by eapply in_force_ext|].
      assert (take (S j) specs = take j specs ++ [spec_limit (rq_Domain req) desc]) as ->.
      { apply take_S_r. unfold specs, spec_limits. by rewrite list_lookup_fmap, Hj. }
      assert (heap_ext (w_heap w) (w_heap w2)) as Hx12 by (by etransitivity).
      assert (Forall2 (λ spec, stands_for (w_heap w2) (not_unlimited spec)) (take j specs) ls) as Hls'.
      { eapply Forall2_impl; [exact Hls|]. intros x y Hxy. exact (stands_for_ext _ _ _ _ Hx2 Hxy). }
      eapply wp_bind_Ret; [exact Hrun|]. unfold stands_for in Hst.
      destruct (spec_limit (rq_Domain req) desc) as [rl0|] eqn:Hspec.
      + destruct Hst as (l&rl&->&Hl&Hs). eapply wp_bind_Ret; [by apply load_Some|].
        destruct Hs as (Hs1&Hs2&Hs3&Hs4&Hs5&Hs6&Hs7).
        eapply wp_mono with (Q := λ s w', w' = w2 ∧ s = (ls ++ [if rl_Unlimited rl0 then None else Some l],
          us ++ [rl_Unlimited rl0], list_to_set (rl_Replaces rl0) ∪ rs)).
        { rewrite Hs3, Hs6. by destruct (rl_Unlimited rl); apply wp_ret. }
        intros s w' [-> ->]. unfold collected. rewrite replaced_names_snoc, fmap_app.
        cbn [fst snd]. split_and!; [done|congruence| |by rewrite Hus|by rewrite Hrs].
        apply Forall2_app; [done|]. constructor; [|done]. unfold not_unlimited; simpl.
        destruct (rl_Unlimited rl0) eqn:Hu; [done|].
        exists l, rl. unfold same_limit. split_and!; congruence.
      + subst r. apply wp_ret. unfold collected. rewrite replaced_names_snoc, fmap_app.
        cbn [fst snd]. split_and!; [done|congruence| |by rewrite Hus|by rewrite Hrs, list_to_set_nil, (left_id_L ∅ (∪))].
        apply Forall2_app; [done|]. by constructor. }
  intros s w'. by rewrite <-Hlen, firstn_all.
Qed.

Definition kept (names : gset string) (o : option RateLimit) : option RateLimit :=
  if applies names o then o else None.

Lemma drop_replaced_ok Err specs limits names w :
  Forall2 (λ spec, stands_for (w_heap w) (not_unlimited spec)) specs limits →
  wp Err (drop_replaced limits names) w (λ limits' w', w' = w ∧
    Forall2 (λ spec, stands_for (w_heap w) (kept names spec)) specs limits').
Proof.
  intros Hl. pose proof (Forall2_length _ _ _ Hl) as Hlen.
  unfold drop_replaced. eapply wp_mono.
  { apply (wp_range Err (λ j acc w', w' = w ∧
      Forall2 (λ spec, stands_for (w_heap w) (kept names spec)) (take j specs) acc)).
    - by split.
    - intros j o acc w1 Hj [-> Hacc].
      destruct (lookup_lt_is_Some_2 specs j) as [spec Hspec]; [apply lookup_lt_Some in Hj; lia|].
      rewrite (take_S_r _ _ _ Hspec).
      pose proof (Forall2_lookup_lr _ _ _ _ _ _ Hl Hspec Hj) as Hst.
      eapply wp_mono with (Q := λ acc' w', w' = w ∧ ∃ r, acc' = acc ++ [r] ∧
        stands_for (w_heap w) (kept names spec) r).
      + unfold kept, not_unlimited in *. destruct spec as [rl0|]; simpl in *.
        2: { subst o. apply wp_ret. eauto. }
        destruct (rl_Unlimited rl0); simpl in *; [subst o; apply wp_ret; eauto|].
        destruct Hst as (l&rl&->&Hl'&Hs). eapply wp_bind_Ret; [by apply load_Some|].
        assert (rl_Name rl = rl_Name rl0) as Hn by (symmetry; apply Hs).
        rewrite <-Hn. repeat case_decide; repeat case_bool_decide; try done; simpl; apply wp_ret;
          split; try done; eexists; (split; [reflexivity|]); simpl; eauto.
      + intros acc' w' [-> (r&->&Hr)]. split; [done|]. apply Forall2_app; [done|]. by constructor. }
  intros acc w' [-> Hacc]. split; [done|]. by rewrite <-Hlen, firstn_all in Hacc.
Qed.

(** The limits a request is checked against, and the marks of the unlimited. *)
Definition chosen req w (r : list (option loc) * list bool) w' : Prop :=
  let specs := spec_limits Unit_value m configs req in
  heap_ext (w_heap w) (w_heap w') ∧ w_ext w' = w_ext w ∧
  Forall2 (λ spec, stands_for (w_heap w') (kept (replaced_names specs) spec)) specs r.1 ∧
  r.2 = unlimited <$> specs.

Lemma constructLimitsToCheck_ok Err req w :
  in_force w → wp Err (constructLimitsToCheck req (Some cf)) w (chosen req w).
Proof.
  intros Hf. unfold constructLimitsToCheck. eapply wp_bind_Ret; [reflexivity|].
  eapply wp_bind_Ret; [reflexivity|]. eapply wp_bind; [by apply collect_limits_ok|].
  intros [[ls us] rs] w1 (Hx&He&Hls&Hus&Hrs). simpl in *.
  eapply wp_bind; [by eapply drop_replaced_ok|]. intros ls' w2 [-> Hls']. subst us rs.
  apply wp_ret. by split_and!.
Qed.

Lemma chosen_good req w r w' :
  valid_config Unit_value merge configs = true → units_known Unit_value → overrides_known req →
  chosen req w r w' →
  length (rq_Descriptors req) = length r.1 ∧ Forall (good_limit (w_heap w')) r.1.
Proof.
  intros Hv Hu Ho (_&_&Hf&_). pose proof (Forall2_length _ _ _ Hf) as Hlen.
  unfold spec_limits in Hlen. rewrite length_fmap in Hlen. split; [done|].
  apply Forall_lookup_2. intros i o Hi.
  destruct (Forall2_lookup_r _ _ _ _ _ Hf Hi) as (spec&Hspec&Hst).
  unfold kept in Hst. destruct (applies _ spec) eqn:Ha; [|by simpl in Hst; subst o].
  destruct spec as [rl0|]; simpl in *; [|by subst o]. destruct Hst as (l&rl&->&Hl&Hs).
  apply andb_true_iff in Ha as [Hnu%negb_true_iff _].
  unfold spec_limits in Hspec. rewrite list_lookup_fmap in Hspec.
  apply fmap_Some in Hspec as (desc&Hdesc&Hspec). symmetry in Hspec.
  destruct (spec_limit_unit _ _ _ _ _ _ _ Hv Hu (Forall_lookup_1 _ _ _ _ Ho Hdesc) Hspec Hnu) as [d Hd].
  exists rl, d. split; [done|]. destruct Hs as (_&<-&_). done.
Qed.
End construct.

(** ** The answer *)

(** What the caller is told about one descriptor. *)
Definition answer_for (names : gset string) (spec : option RateLimit) (s : DescriptorStatus) : Prop :=
  if unlimited spec then s = unlimited_status
  else match kept names spec with
       | None => s = no_limit_status
       | Some rl => st_CurrentLimit s = Some (rl_Limit rl) ∧ is_u32 (st_LimitRemaining s) ∧
           (st_Code s = Code_OK ∨ st_Code s = Code_OVER_LIMIT ∧ st_LimitRemaining s = 0)
       end.

Definition limited (s : DescriptorStatus) : Prop := is_Some (st_CurrentLimit s).

(** The descriptor the headers speak about: the least remaining quota. *)
Definition is_minimum (ss : list DescriptorStatus) (o : option DescriptorStatus) : Prop :=
  match o with
  | Some d => d ∈ ss ∧ limited d ∧
      ∀ s, s ∈ ss → limited s → st_LimitRemaining d <= st_LimitRemaining s
  | None => ∀ s, s ∈ ss → limited s → MaxUint32 <= st_LimitRemaining s
  end.

Section decide.
Context {E C : Type} `{TimeSource E} `{EnvSettings E} `{RateLimitCache E C}.
#[local] Abbreviation W := (World E).
Implicit Types (w : W) (this : service C).

(** The statuses of a backend: unlimited descriptors have no limit there. *)
Definition backend_status (u : bool) (s : DescriptorStatus) : Prop :=
  (u = true → s = no_limit_status) ∧ is_u32 (st_LimitRemaining s) ∧
  (st_Code s = Code_OVER_LIMIT → limited s ∧ st_LimitRemaining s = 0).

Definition merge_status (u : bool) (s : DescriptorStatus) : DescriptorStatus :=
  if u then unlimited_status else s.

Definition summarized this (us : list bool) (ss : list DescriptorStatus) (s : summary) : Prop :=
  sm_Statuses s = zip_with merge_status us ss ∧
  (sm_finalCode s = Code_OVER_LIMIT ↔ ∃ x, x ∈ ss ∧ st_Code x = Code_OVER_LIMIT) ∧
  (sm_finalCode s = Code_OK ∨ sm_finalCode s = Code_OVER_LIMIT) ∧
  0 <= sm_minLimitRemaining s <= MaxUint32 ∧
  sm_minLimitRemaining s = match sm_minimumDescriptor s with
                           | Some d => st_LimitRemaining d
                           | None => MaxUint32
                           end ∧
  (sv_customHeadersEnabled this = true → is_minimum ss (sm_minimumDescriptor s)).

Lemma is_minimum_snoc ss o x :
  is_minimum ss o →
  (limited x → match o with Some d => st_LimitRemaining d | None => MaxUint32 end
               <= st_LimitRemaining x) →
  is_minimum (ss ++ [x]) o.
Proof.
  intros Hm Hx. destruct o as [d|]; simpl in *.
  - destruct Hm as (Hd&Hl&Hmin). split_and!; [apply elem_of_app; by left|done|].
    intros s [Hs|Hs%list_elem_of_singleton]%elem_of_app; [auto|by subst].
  - intros s [Hs|Hs%list_elem_of_singleton]%elem_of_app; [auto|by subst].
Qed.

Lemma is_minimum_new ss o x :
  is_minimum ss o → limited x →
  st_LimitRemaining x <= match o with Some d => st_LimitRemaining d | None => MaxUint32 end →
  is_minimum (ss ++ [x]) (Some x).
Proof.
  intros Hm Hl Hx. split_and!; [apply elem_of_app; right; by apply list_elem_of_singleton|done|].
  intros s [Hs|Hs%list_elem_of_singleton]%elem_of_app Hls; [|subst; lia].
  destruct o as [d|]; simpl in Hm.
  - destruct Hm as (_&_&Hmin). specialize (Hmin s Hs Hls). lia.
  - specialize (Hm s Hs Hls). lia.
Qed.

Lemma exists_over_snoc ss x :
  (∃ y, y ∈ ss ++ [x] ∧ st_Code y = Code_OVER_LIMIT) ↔
  (∃ y, y ∈ ss ∧ st_Code y = Code_OVER_LIMIT) ∨ st_Code x = Code_OVER_LIMIT.
Proof.
  split.
  - intros (y&[Hy|Hy%list_elem_of_singleton]%elem_of_app&Hc); [left; eauto|right; by subst].
  - intros [(y&?&?)|?]; [exists y|exists x]; (split; [|done]); apply elem_of_app; auto.
    right. by apply list_elem_of_singleton.
Qed.

Lemma zip_merge_take_S us ss j u x :
  us !! j = Some u → ss !! j = Some x →
  zip_with merge_status (take (S j) us) (take (S j) ss) =
    zip_with merge_status (take j us) (take j ss) ++ [merge_status u x].
Proof.
  intros Hu Hx. rewrite (take_S_r _ _ _ Hu), (take_S_r _ _ _ Hx).
  rewrite zip_with_app; [done|]. rewrite !length_take.
  apply lookup_lt_Some in Hu, Hx. lia.
Qed.

(** The first half of a round: the running minimum. *)
Lemma summarized_minimum this ss s x :
  is_u32 (st_LimitRemaining x) → 0 <= sm_minLimitRemaining s <= MaxUint32 →
  sm_minLimitRemaining s = match sm_minimumDescriptor s with
                           | Some d => st_LimitRemaining d | None => MaxUint32 end →
  (sv_customHeadersEnabled this = true → is_minimum ss (sm_minimumDescriptor s)) →
  let s' := if sv_customHeadersEnabled this && bool_decide (is_Some (st_CurrentLimit x))
               && bool_decide (st_LimitRemaining x < sm_minLimitRemaining s)
            then mkSummary (sm_Statuses s) (sm_finalCode s) (st_LimitRemaining x) (Some x)
            else s in
  sm_Statuses s' = sm_Statuses s ∧ sm_finalCode s' = sm_finalCode s ∧
  0 <= sm_minLimitRemaining s' <= MaxUint32 ∧
  sm_minLimitRemaining s' = match sm_minimumDescriptor s' with
                            | Some d => st_LimitRemaining d | None => MaxUint32 end ∧
  (sv_customHeadersEnabled this = true → is_minimum (ss ++ [x]) (sm_minimumDescriptor s')).
Proof.
  intros Hu Hb Heq Hmin. destruct (sv_customHeadersEnabled this); simpl; [|split_and!; done || lia].
  case_bool_decide as Hl; simpl.
  - case_bool_decide; simpl; (split_and!; [done|done|word|word|lia|]); intros _.
    + eapply is_minimum_new; [by apply Hmin|done|lia].
    + apply is_minimum_snoc; [by apply Hmin|]. lia.
  - split_and!; [done|done|lia|lia|lia|]. intros _. apply is_minimum_snoc; [by apply Hmin|done].
Qed.

Lemma summarize_ok Err this us ss w :
  Forall2 backend_status us ss →
  wp Err (summarize this us ss) w (λ s w', w' = w ∧ summarized this us ss s).
Proof.
  intros Hb. pose proof (Forall2_length _ _ _ Hb) as Hlen. unfold summarize. eapply wp_mono.
  { apply (wp_range Err (λ j s w', w' = w ∧ summarized this (take j us) (take j ss) s)).
    - split; [done|]. split_and!; simpl; try done; try (unfold MaxUint32; lia); [|by left|].
      + split; [done|]. intros (x&Hx&_). by apply elem_of_nil in Hx.
      + intros _ s Hs. by apply elem_of_nil in Hs.
    - intros j x s w1 Hj [-> (Hst&Hover&Hcode&Hrange&Heq&Hmin)].
      destruct (lookup_lt_is_Some_2 us j) as [u Hu]; [apply lookup_lt_Some in Hj; lia|].
      destruct (Forall2_lookup_lr _ _ _ _ _ _ Hb Hu Hj) as (Hnone&Hu32&Hov).
      destruct (summarized_minimum this (take j ss) s x Hu32 Hrange Heq Hmin)
        as (Hst'&Hcode'&Hrange'&Heq'&Hmin').
      cbv zeta. set (s' := if sv_customHeadersEnabled this &&
          bool_decide (is_Some (st_CurrentLimit x)) &&
          bool_decide (st_LimitRemaining x < sm_minLimitRemaining s)
        then mkSummary (sm_Statuses s) (sm_finalCode s) (st_LimitRemaining x) (Some x)
        else s) in *.
      eapply wp_bind_Ret; [by apply index_Some|].
      assert (u = true → st_Code x ≠ Code_OVER_LIMIT) as Hux by (intros ?; by rewrite Hnone).
      eapply wp_mono with (Q := λ s2 w', w' = w ∧ s2 =
        mkSummary (sm_Statuses s ++ [merge_status u x])
          (if decide (st_Code x = Code_OVER_LIMIT) then Code_OVER_LIMIT else sm_finalCode s)
          (if decide (st_Code x = Code_OVER_LIMIT) then 0 else sm_minLimitRemaining s')
          (if decide (st_Code x = Code_OVER_LIMIT) then Some x else sm_minimumDescriptor s')).
      { rewrite Hst', Hcode'. destruct u; [rewrite !decide_False by auto; by apply wp_ret|].
        case_decide as Hx; apply wp_ret; [by rewrite Hx|done]. }
      intros s2 w2 [-> ->]. split; [done|]. unfold summarized; simpl.
      rewrite (zip_merge_take_S us ss j u x) by done. rewrite (take_S_r ss j x) by done.
      rewrite exists_over_snoc. rewrite Hst.
      case_decide as Hx; [|by split_and!; intuition]. destruct (Hov Hx) as [Hl Hz].
      split; [done|]. split; [by intuition|]. split; [by right|].
      split; [unfold MaxUint32; lia|]. split; [done|]. intros He. eapply is_minimum_new; [by apply Hmin|done|].
      rewrite Hz, <-Heq. lia. }
  intros s w' [-> Hs]. split; [done|]. by rewrite <-Hlen, firstn_all, Hlen, firstn_all in Hs.
Qed.

(** Unlimited descriptors carry no limit on either side of the merge. *)
Lemma merged_elem us ss x :
  Forall2 backend_status us ss → limited x ∨ st_Code x = Code_OVER_LIMIT →
  x ∈ zip_with merge_status us ss ↔ x ∈ ss.
Proof.
  intros Hb Hx. rewrite !list_elem_of_lookup. split.
  - intros [i Hi]. apply lookup_zip_with_Some in Hi as (u&s&->&Hu&Hs). exists i.
    destruct u; simpl in *; [|done]. destruct Hx as [[? [=]]|[=]].
  - intros [i Hi]. destruct (Forall2_lookup_r _ _ _ _ _ Hb Hi) as (u&Hu&Hnone&_).
    exists i. apply lookup_zip_with_Some. exists u, x. split_and!; [|done..].
    destruct u; [|done]. rewrite Hnone in Hx by done. destruct Hx as [[? [=]]|[=]].
Qed.

Lemma is_minimum_merged us ss o :
  Forall2 backend_status us ss → is_minimum ss o → is_minimum (zip_with merge_status us ss) o.
Proof.
  intros Hb. destruct o as [d|]; simpl.
  - intros (Hd&Hl&Hmin). split_and!; [apply merged_elem; auto|done|].
    intros s Hs Hls. apply Hmin; [|done]. eapply merged_elem; eauto.
  - intros Hmin s Hs Hls. apply Hmin; [|done]. eapply merged_elem; eauto.
Qed.

(** The headers describe the descriptor with the least remaining quota. *)
Definition headers_for this (ss : list DescriptorStatus) (hs : list HeaderValue) : Prop :=
  if sv_customHeadersEnabled this then
    ∃ o, is_minimum ss o ∧
    match o with
    | None => hs = []
    | Some d => ∃ pl reset, st_CurrentLimit d = Some pl ∧
        hs = [mkHeader (sv_customHeaderLimitHeader this) (FormatInt (pl_RequestsPerUnit pl));
              mkHeader (sv_customHeaderRemainingHeader this) (FormatInt (st_LimitRemaining d));
              mkHeader (sv_customHeaderResetHeader this) (FormatInt reset)]
    end
  else hs = [].

Lemma headers_ok Err this us ss s w :
  Forall2 backend_status us ss → summarized this us ss s →
  (∀ x pl, x ∈ ss → st_CurrentLimit x = Some pl → is_Some (unit_seconds (pl_Unit pl))) →
  wp Err (match sm_minimumDescriptor s with
          | Some d =>
              if sv_customHeadersEnabled this then
                h1 ← rateLimitLimitHeader this d;
                h2 ← rateLimitRemainingHeader this d;
                h3 ← rateLimitResetHeader this d;
                mret [h1; h2; h3]
              else mret []
          | None => mret []
          end) w (λ hs w', w_heap w' = w_heap w ∧ headers_for this (sm_Statuses s) hs).
Proof.
  intros Hb (->&_&_&_&_&Hmin) Hunits. unfold headers_for.
  destruct (sm_minimumDescriptor s) as [d|]; destruct (sv_customHeadersEnabled this);
    try (by apply wp_ret).
  - specialize (Hmin eq_refl). destruct Hmin as (Hd&[pl Hpl]&Hmin).
    destruct (Hunits d pl Hd Hpl) as [dv Hdv]. destruct (unix_now (w_ext w)) as [now e] eqn:Hnow.
    eapply wp_bind_Ret; [unfold rateLimitLimitHeader; rewrite Hpl; reflexivity|].
    eapply wp_bind_Ret; [reflexivity|].
    eapply wp_bind_Ret; [unfold rateLimitResetHeader; rewrite Hpl;
      erewrite bind_Ret by reflexivity; by erewrite bind_Ret by (by eapply CalculateReset_eq)|].
    apply wp_ret. split; [done|]. exists (Some d). split; [|eauto].
    apply is_minimum_merged; [done|]. split_and!; [done|by exists pl|done].
  - apply wp_ret. split; [done|]. exists None. split; [|done].
    apply is_minimum_merged; [done|]. by apply Hmin.
Qed.
End decide.

(** ** The service over a backend that keeps its promise *)

Section promise.
Context {E C : Type} `{TimeSource E} `{EnvSettings E} (ok : C → Prop) `{CacheLaws E C ok}.
Context (Unit_value : string → option Z) (m : ManagerImpl) (merge : bool)
  (configs : list RateLimitConfigToLoad).
#[local] Abbreviation W := (World E).
Implicit Types (w : W) (this : service C).

(** A valid configuration is in force, over a sound backend. *)
Definition ready this w : Prop :=
  ok (sv_cache this) ∧ units_known Unit_value ∧ valid_config Unit_value merge configs = true ∧
  ∃ cf, sv_config this = Some cf ∧ in_force Unit_value m merge configs cf w.

Definition well_formed (req : RateLimitRequest) : Prop :=
  rq_Domain req ≠ "" ∧ rq_Descriptors req ≠ [] ∧ overrides_known req.

(** The response the specification allows, in the given global shadow mode and
    with the headers of [this]. *)
Definition decided (shadow : bool) this (req : RateLimitRequest) (resp : RateLimitResponse) : Prop :=
  let specs := spec_limits Unit_value m configs req in
  Forall2 (answer_for (replaced_names specs)) specs (rs_Statuses resp) ∧
  rs_OverallCode resp =
    (if bool_decide (Exists (λ s, st_Code s = Code_OVER_LIMIT) (rs_Statuses resp)) &&
        negb shadow
     then Code_OVER_LIMIT else Code_OK) ∧
  headers_for this (rs_Statuses resp) (rs_ResponseHeadersToAdd resp).

Definition decides this : RateLimitRequest → RateLimitResponse → Prop :=
  decided (sv_globalShadowMode this) this.

Lemma backend_answers names specs limits ss (h : list RateLimit) :
  Forall2 (λ spec, stands_for h (kept names spec)) specs limits →
  Forall2 (status_for h) limits ss →
  Forall2 backend_status (unlimited <$> specs) ss ∧
  Forall2 (answer_for names) specs (zip_with merge_status (unlimited <$> specs) ss).
Proof.
  intros Hl. revert ss. induction Hl as [|spec o specs limits Hso Hl IH]; intros ss Hs.
  { apply Forall2_nil_inv_l in Hs as ->. by split. }
  apply Forall2_cons_inv_l in Hs as (s&ss'&Hs&Hss&->). destruct (IH ss' Hss) as [IH1 IH2].
  assert (backend_status (unlimited spec) s ∧ answer_for names spec (merge_status (unlimited spec) s))
    as [Hb Ha]; [|simpl; split; by constructor].
  unfold answer_for, merge_status, backend_status.
  destruct (kept names spec) as [rl|] eqn:Hk.
  - assert (unlimited spec = false) as Hu.
    { unfold kept in Hk. destruct spec as [rl0|]; simpl in *; [|done].
      by destruct (rl_Unlimited rl0). }
    destruct Hso as (l&rl'&->&Hl'&Hsame). destruct Hs as (rl2&Hl2&Hcur&Hu32&Hcode). simplify_eq.
    rewrite Hu. destruct Hsame as (_&Hlim&_). rewrite <-Hlim in Hcur.
    split; [|split_and!; [done|apply Hu32..|done]].
    split_and!; [done|apply Hu32..|]. intros Ho. destruct Hcode as [?|[_ ?]]; [congruence|].
    split; [by eexists|done].
  - simpl in Hso. subst o. simpl in Hs. subst s. split; [|by destruct (unlimited spec)].
    split_and!; done.
Qed.

Lemma backend_units limits ss (h : list RateLimit) :
  Forall (good_limit h) limits → Forall2 (status_for h) limits ss →
  ∀ x pl, x ∈ ss → st_CurrentLimit x = Some pl → is_Some (unit_seconds (pl_Unit pl)).
Proof.
  intros Hg Hs x pl Hx Hpl. apply list_elem_of_lookup in Hx as [i Hi].
  destruct (Forall2_lookup_r _ _ _ _ _ Hs Hi) as (o&Ho&Hst).
  pose proof (Forall_lookup_1 _ _ _ _ Hg Ho) as Hgo. destruct o as [l|]; simpl in *; [|by subst x].
  destruct Hst as (rl&Hl&Hcur&_), Hgo as (rl'&d&Hl'&Hd). simplify_eq. eauto.
Qed.

(** What the worker does with the statuses of the backend: the rest of its body. *)
Definition answer_request this (globalShadowMode : bool) (limitsToCheck : list (option loc))
    (isUnlimited : list bool) (responseDescriptorStatuses : list DescriptorStatus) : M W RateLimitResponse :=
  _ ← Assert (bool_decide (length limitsToCheck = length responseDescriptorStatuses));
  s ← summarize this isUnlimited responseDescriptorStatuses;
  headers ←
    (match sm_minimumDescriptor s with
     | Some d =>
         if sv_customHeadersEnabled this then
           h1 ← rateLimitLimitHeader this d;
           h2 ← rateLimitRemainingHeader this d;
           h3 ← rateLimitResetHeader this d;
           mret [h1; h2; h3]
         else mret []
     | None => mret []
     end);
  if bool_decide (sm_finalCode s = Code_OVER_LIMIT) && globalShadowMode then
    _ ← Inc (sv_GlobalShadowMode (sv_stats this));
    mret (mkResponse Code_OK (sm_Statuses s) headers)
  else mret (mkResponse (sm_finalCode s) (sm_Statuses s) headers).

(** Statuses that answer the limits the files give the request. *)
Definition answerable (req : RateLimitRequest) (us : list bool) (ss : list DescriptorStatus) : Prop :=
  let specs := spec_limits Unit_value m configs req in
  us = unlimited <$> specs ∧ Forall2 backend_status us ss ∧
  Forall2 (answer_for (replaced_names specs)) specs (zip_with merge_status us ss) ∧
  ∀ x pl, x ∈ ss → st_CurrentLimit x = Some pl → is_Some (unit_seconds (pl_Unit pl)).

Lemma chosen_answerable req (h : list RateLimit) limits us ss :
  let specs := spec_limits Unit_value m configs req in
  Forall2 (λ spec, stands_for h (kept (replaced_names specs) spec)) specs limits → us = unlimited <$> specs →
  Forall (good_limit h) limits → Forall2 (status_for h) limits ss → answerable req us ss.
Proof.
  intros specs Hst Hus Hgood Hss. destruct (backend_answers _ _ _ _ _ Hst Hss) as [Hb Hans].
  subst us. split_and!; [done..|]. by eapply backend_units.
Qed.

Lemma answer_request_ok Err this shadow limits req us ss w :
  answerable req us ss → length limits = length ss →
  wp Err (answer_request this shadow limits us ss) w (λ resp w',
    w_heap w' = w_heap w ∧ decided shadow this req resp).
Proof.
  intros (Hus&Hb&Hans&Hunits) Hlen. unfold answer_request.
  eapply wp_bind_Ret; [unfold Assert; rewrite bool_decide_true; [reflexivity|done]|].
  eapply wp_bind; [by apply summarize_ok|]. intros s w3 [-> Hsum].
  eapply wp_bind; [by eapply headers_ok|]. intros hs w4 [Hh4 Hhs].
  destruct Hsum as (Hstat&Hover&Hcode&_). rewrite Hstat in *.
  assert (sm_finalCode s = Code_OVER_LIMIT ↔
    Exists (λ s, st_Code s = Code_OVER_LIMIT) (zip_with merge_status us ss)) as Hex.
  { rewrite Hover, Exists_exists. split; intros (x&Hx'&Hc); exists x; (split; [|done]);
      eapply merged_elem; eauto. }
  destruct shadow.
  - rewrite andb_true_r. case_bool_decide as Hc; [eapply wp_bind_Ret; [reflexivity|]|];
      apply wp_ret; (split; [done|]); (split; [done|]); (split; [|done]); simpl;
      rewrite andb_false_r; [done|]. destruct Hcode; [done|by exfalso].
  - rewrite andb_false_r. apply wp_ret. split; [done|]. split; [done|]. split; [|done]. simpl.
    rewrite andb_true_r. case_bool_decide as Hc; [by apply Hex|].
    destruct Hcode as [|Hcode]; [done|]. exfalso. by apply Hc, Hex.
Qed.

(** The backend call of this request panicked with a redis error. *)
Definition backend_failed this req w (p : panic) : Prop :=
  ∃ msg limits us w1 w2, constructLimitsToCheck req (sv_config this) w = (Ret (limits, us), w1) ∧
    cache_DoLimit (sv_cache this) req limits w1 = (Panic (PRedisError msg), w2) ∧ p = PRedisError msg.

(** A request fails only if its backend call does. *)
Lemma worker_fails_with_backend this req w :
  ready this w → well_formed req →
  wp (backend_failed this req w) (shouldRateLimitWorker this req) w (λ resp w',
    heap_ext (w_heap w) (w_heap w') ∧ decides this req resp).
Proof.
  intros (Hok&Hu&Hv&cf&Hcf&Hin) (Hd&Hne&Ho). unfold shouldRateLimitWorker.
  eapply wp_bind_Ret; [by rewrite bool_decide_true|].
  eapply wp_bind_Ret; [by rewrite bool_decide_true by (by destruct (rq_Descriptors req))|].
  unfold GetCurrentConfig, backend_failed. rewrite Hcf.
  pose proof (constructLimitsToCheck_ok Unit_value m merge configs cf (λ _, False) req w Hin) as Hch.
  unfold wp in Hch. destruct (constructLimitsToCheck req (Some cf) w) as [[[limits us]|p|c] w1] eqn:Hrun; [|done..].
  eapply wp_bind_Ret; [exact Hrun|].
  destruct (chosen_good _ _ _ _ _ _ _ _ Hv Hu Ho Hch) as [Hlen Hgood].
  destruct Hch as (Hx&_&Hst&Hus). simpl in Hst, Hus, Hlen, Hgood.
  eapply wp_bind.
  { pose proof (cache_law (ok := ok) (sv_cache this) req limits w1 Hok Hlen Hgood) as Hc. unfold wp in *.
    destruct (cache_DoLimit (sv_cache this) req limits w1) as [[ss|p|code] w2] eqn:Hcall;
      [exact Hc| |done]. destruct Hc as [msg ->]. by eexists _, _, _, _, _. }
  intros ss w2 [Hh2 Hss].
  eapply wp_mono; [apply (answer_request_ok _ this (sv_globalShadowMode this) limits req us ss);
    [by eapply chosen_answerable|by eapply Forall2_length]|].
  intros resp w3 [Hh3 Hdec]. split; [|done]. by rewrite Hh3, Hh2.
Qed.

Lemma worker_ok this req w :
  ready this w → well_formed req →
  wp redis_panic (shouldRateLimitWorker this req) w (λ resp w',
    heap_ext (w_heap w) (w_heap w') ∧ decides this req resp).
Proof.
  intros Hr Hw. eapply wp_mono_err; [by apply worker_fails_with_backend|].
  intros p (msg&_&_&_&_&_&_&->). by exists msg.
Qed.
End promise.
