(* ===== verification/ServiceTheorems.v ===== *)
(** * Theorems about the service

    Over any backend that keeps its promise: what a request is answered, how it
    fails, and how the configuration changes.  The witnesses run the service on
    the simulated redis. *)

From S2P Require Import Prelude GoStrings World Utils Stats Config ConfigLoad ConfigLookup.
From S2P Require Import Limiter LimiterSpec CountSpec Redis RedisSpec RedisLimit RedisCache.
From S2P Require Import Simulated Tls Settings SettingsSpec Health Service ServiceSpec.

#[local] Open Scope Z_scope.

Section theorems.
Context {E C : Type} `{TimeSource E} `{EnvSettings E} `{RateLimitCache E C}.

(** C3: the decision.  With a valid configuration in force and units the
    limiter knows, a well-formed request is always answered; the process
    never panics.  Either the backend failed, and the caller gets its error and
    the redis error statistic counts it, or there is a response: one status
    per descriptor, of the limit the files give it (override first; none when
    unmatched or replaced; the maximum when unlimited); OVER_LIMIT overall
    exactly when some status is, outside the global shadow mode; and headers,
    when enabled, for the limit with the least quota left. *)
Theorem ShouldRateLimit_decides (ok : C → Prop) {Hlaws : CacheLaws E C ok} Unit_value m merge
    configs (this : service C) req (w : World E) :
  ready ok Unit_value m merge configs this w → well_formed req →
  wp (λ _, False) (ShouldRateLimit this req) w (λ r w',
    (∃ resp, r = (Some resp, None) ∧ decides Unit_value m configs this req resp ∧
       heap_ext (w_heap w) (w_heap w')) ∨
    (∃ msg counters, r = (None, Some msg) ∧
       w_counters w' = ctr_add (ss_RedisError (sv_ShouldRateLimit (sv_stats this))) 1 counters)).
Proof.
  intros Hr Hw. pose proof (worker_ok ok Unit_value m merge configs this req w Hr Hw) as Hrun.
  unfold ShouldRateLimit, wp, recover, mbind, M_bind in *.
  destruct (shouldRateLimitWorker this req w) as [[resp|p|code] w'].
  - destruct Hrun as [Hx Hd]. left. simpl. eauto.
  - destruct Hrun as [msg ->]. right. simpl. eauto.
  - done.
Qed.

(** Why a request cannot be served at all. *)
Definition service_error (this : service C) (req : RateLimitRequest) : option string :=
  if decide (rq_Domain req = "") then Some "rate limit domain must not be empty"
  else if decide (rq_Descriptors req = []) then
    Some "rate limit descriptor list must not be empty"
  else if decide (sv_config this = None) then Some "no rate limit configuration loaded"
  else None.

(** Bad requests and a missing configuration are reported, not served: an
    empty domain, an empty descriptor list or no configuration yield the
    error and no response, count one service error, and touch nothing else
    (the backend is not asked). *)
Theorem ShouldRateLimit_service_error (this : service C) req msg (w : World E) :
  service_error this req = Some msg →
  ShouldRateLimit this req w =
    (Ret (None, Some msg),
     mkWorld (w_heap w)
       (ctr_add (ss_ServiceError (sv_ShouldRateLimit (sv_stats this))) 1 (w_counters w)) (w_ext w)).
Proof.
  unfold service_error, ShouldRateLimit, shouldRateLimitWorker. case_decide as Hd.
  { intros [= <-]. by rewrite Hd. }
  rewrite (bool_decide_true (rq_Domain req ≠ "")) by done. case_decide as Hn; [intros [= <-]; by rewrite Hn|].
  rewrite (bool_decide_true (length (rq_Descriptors req) ≠ 0%nat))
    by (by destruct (rq_Descriptors req)).
  case_decide as Hc; [|done]. intros [= <-].
  unfold GetCurrentConfig, constructLimitsToCheck. by rewrite Hc.
Qed.

(** What one update leaves in force, and the statistic it counts. *)
Definition is_good (ev : ConfigUpdateEventImpl) : bool :=
  match ev with mkEvent (Some _) None => true | _ => false end.

Definition config_after (before : option rateLimitConfigImpl) (ev : ConfigUpdateEventImpl)
  : option rateLimitConfigImpl := if is_good ev then (GetConfig ev).1 else before.

Definition load_statistic (st : ServiceStats) (ev : ConfigUpdateEventImpl) : Counter * Z :=
  (if is_good ev then sv_ConfigLoadSuccess st else sv_ConfigLoadError st, 1).

(** What the providers send: a configuration, or a configuration error. *)
Definition from_provider (ev : ConfigUpdateEventImpl) : Prop :=
  (∃ cf, ev = mkEvent (Some cf) None) ∨ (∃ cf msg, ev = mkEvent cf (Some (PConfigError msg))).

(** The panic of [NewSettings]: the error it met in some state of the
    environment. *)
Definition settings_failure (p : panic) : Prop :=
  ∃ (e e' : E) msg, env_settings e = (inl msg, e') ∧ p = PError msg.

(** All a provider sends: one of the above, or the failure of the settings it
    read before it loaded the files. *)
Definition provider_event (ev : ConfigUpdateEventImpl) : Prop :=
  from_provider ev ∨ ∃ cf p, ev = mkEvent cf (Some p) ∧ settings_failure p.

Lemma NewSettings_wp (w : World E) :
  wp settings_failure NewSettings w (λ s w', ∃ e', env_settings (w_ext w) = (inr s, e') ∧
    w' = mkWorld (w_heap w) (w_counters w) e').
Proof.
  unfold wp, NewSettings, ext, mbind, M_bind.
  destruct (env_settings (w_ext w)) as [[msg|s] e'] eqn:Hs; simpl; [by eexists _, _, _|by eexists].
Qed.

Lemma SetConfig_wp (this : service C) ev healthy (w : World E) :
  provider_event ev →
  wp settings_failure (SetConfig this ev healthy) w (λ this' w',
    sv_config this' = config_after (sv_config this) ev ∧ sv_stats this' = sv_stats this ∧
    (is_good ev = false → this' = this) ∧ w_heap w' = w_heap w ∧
    w_counters w' = ctr_adds [load_statistic (sv_stats this) ev] (w_counters w)).
Proof.
  intros [[[cf ->]|(cf&msg&->)]|(cf&p&->&Hp)]; cbn.
  - unfold SetConfig, config_health; simpl.
    destruct healthy; (eapply wp_bind_Ret; [reflexivity|]); (eapply wp_bind_Ret; [reflexivity|]);
      (eapply wp_bind; [apply NewSettings_wp|]); intros s w' (e'&_&->); by apply wp_ret.
  - eapply wp_Ret; [reflexivity|]. by destruct cf.
  - pose proof Hp as (e&e'&msg&_&->). exact Hp.
Qed.

Lemma SetConfig_event (this : service C) ev healthy (w : World E) :
  (∀ e : E, ∃ s e', env_settings e = (inr s, e')) → from_provider ev →
  ∃ this' w', SetConfig this ev healthy w = (Ret this', w') ∧
    sv_config this' = config_after (sv_config this) ev ∧ sv_stats this' = sv_stats this ∧
    (is_good ev = false → this' = this) ∧ w_heap w' = w_heap w ∧
    w_counters w' = ctr_adds [load_statistic (sv_stats this) ev] (w_counters w).
Proof.
  intros Henv Hev. pose proof (SetConfig_wp this ev healthy w (or_introl Hev)) as Hrun. unfold wp in Hrun.
  destruct (SetConfig this ev healthy w) as [[this'|p|c] w']; [by eexists _, _| |done].
  destruct Hrun as (e&e'&msg&He&_). destruct (Henv e) as (?&?&?). congruence.
Qed.

(** C24: the update loop keeps the last good configuration.  For every
    sequence of events a provider sends (configurations, configuration errors,
    failures to read the settings), the loop either runs to the end or panics
    with the error [NewSettings] gives when the settings cannot be read; no
    other panic is possible.  When it runs to the end, the configuration in
    force is that of the last event that carried one (the initial one if none
    did), nothing of the service changed if none did, and each event is
    counted once, as a load success or a load error. *)
Theorem update_loop_last_good (this : service C) healthy events (w : World E) :
  Forall provider_event events →
  wp settings_failure (update_loop this healthy events) w (λ this' w',
    sv_config this' = foldl config_after (sv_config this) events ∧
    (Forall (λ ev, is_good ev = false) events → this' = this) ∧
    w_heap w' = w_heap w ∧
    w_counters w' = ctr_adds (load_statistic (sv_stats this) <$> events) (w_counters w)).
Proof.
  intros Hev. unfold update_loop, range. generalize 0%nat as i.
  revert this w. induction Hev as [|ev evs Hev _ IH]; intros this w i; [by apply wp_ret|].
  cbn [range_from]. eapply wp_bind; [by apply SetConfig_wp|].
  intros this1 w1 (Hc&Hst&Hbad&Hh&Hctr). eapply wp_mono; [apply IH|].
  intros this' w' (Hc'&Hbad'&Hh'&Hctr'). rewrite Hc', Hc, Hh', Hctr', Hctr, Hst, Hh.
  split_and!; [done| |done|done].
  intros [Hb Hbs]%Forall_cons_1. by rewrite Hbad', Hbad.
Qed.

(** C20: a loaded configuration takes effect: after [SetConfig] the service
    decides by it, with the shadow mode of the settings; the [config] health
    component, when tracked, is healthy exactly when some domain is
    configured. *)
Theorem SetConfig_installs (ok : C → Prop) {Hlaws : CacheLaws E C ok} Unit_value m merge configs
    (this : service C) healthy (w0 w : World E) cf s e' :
  ok (sv_cache this) → units_known Unit_value →
  Load Unit_value configs m merge w0 = (Ret cf, w) →
  env_settings (w_ext w) = (inr s, e') →
  ∃ this' w', SetConfig this (mkEvent (Some cf) None) healthy w = (Ret this', w') ∧
    ready ok Unit_value m merge configs this' w' ∧
    GetCurrentConfig this' = (Some cf, se_GlobalShadowMode s) ∧
    sv_health this' =
      (if healthy then
         (if decide (configs = []) then Fail (sv_health this) ConfigHealthComponentName
          else Ok (sv_health this) ConfigHealthComponentName).1
       else sv_health this).
Proof.
  intros Hok Hu Hl Hs. pose proof (NewRateLimitConfigImpl_accepts Unit_value m merge configs w0) as Ha.
  assert (config_of Unit_value m merge (w_heap w) configs cf) as Hcf.
  { by eapply Load_config_of. }
  unfold accepts, Load in *. rewrite Hl in Ha.
  destruct (valid_config Unit_value merge configs) eqn:Hv; [|by destruct Ha as (?&?&[=])].
  unfold SetConfig, config_health; simpl.
  erewrite bind_Ret with (a := if healthy then if negb (IsEmptyDomains cf)
    then (Ok (sv_health this) ConfigHealthComponentName).1
    else (Fail (sv_health this) ConfigHealthComponentName).1 else sv_health this);
    [|by destruct healthy].
  erewrite bind_Ret by reflexivity.
  erewrite bind_Ret; [|unfold NewSettings, ext; erewrite bind_Ret; [|simpl; by rewrite Hs]; reflexivity].
  returns. split_and!; [|done|]; simpl.
  - split_and!; [done..|]. exists cf. done.
  - destruct healthy; [|done]. unfold IsEmptyDomains.
    destruct Hcf as (_&_&Hd). case_decide as Hnil; case_bool_decide as Hsz; simpl; try done.
    + subst configs. destruct Hsz. apply map_size_empty_iff, map_eq. intros domain.
      specialize (Hd domain). rewrite lookup_empty. destruct (cf_domains cf !! domain); [|done].
      destruct Hd as [Hd _]. by apply elem_of_nil in Hd.
    + apply map_size_empty_inv in Hsz. destruct configs as [|c cs]; [done|].
      specialize (Hd (yo_Domain (cl_ConfigYaml c))). rewrite Hsz, lookup_empty in Hd.
      destruct Hd. by left.
Qed.
End theorems.

(** ** On the simulated redis *)

#[local] Instance sim_env : EnvSettings Sim := λ s,
  (inr (settings_of [("LIMIT_RESPONSE_HEADERS_ENABLED", "true")]), s).

Definition sim_empty : World Sim := mkWorld [] ∅ (mkSim 100 ∅ ∅).

Definition sim_loaded : rateLimitConfigImpl * World Sim :=
  match Load documented_units example_configs example_manager false sim_empty with
  | (Ret cf, w) => (cf, w)
  | (_, w) => (mkConfig ∅ example_manager false, w)
  end.

Lemma sim_loaded_eq :
  Load documented_units example_configs example_manager false sim_empty = (Ret sim_loaded.1, sim_loaded.2).
Proof. by vm_compute. Qed.

Definition sim_backend : fixedRateLimitCacheImpl :=
  NewFixedRateLimitCacheImpl (mkClient 0 true) None 300 true ratio_default "" true.

Definition sim_service (cf : option rateLimitConfigImpl) : service fixedRateLimitCacheImpl :=
  mkService cf sim_backend (NewServiceStats example_manager) (NewHealthChecker "ratelimit" true)
    true "RateLimit-Limit" "RateLimit-Remaining" "RateLimit-Reset" false.

Lemma documented_units_known : units_known documented_units.
Proof.
  intros s v. unfold documented_units, UNKNOWN, SECOND, MINUTE, HOUR, DAY.
  repeat case_decide; intros [= <-]; lia.
Qed.

Definition sim_messages : RateLimitRequest :=
  mkRequest "messaging"
    [mkDescriptor [mkEntry "message_type" "marketing"; mkEntry "to_number" "2061111111"] None;
     mkDescriptor [mkEntry "to_number" "4151111111"] None;
     mkDescriptor [mkEntry "unknown" "x"] None] 6.

(** Five marketing messages a day: six hits are over that limit. *)
Lemma ShouldRateLimit_decides_witness :
  ∃ resp w', ShouldRateLimit (sim_service (Some sim_loaded.1)) sim_messages sim_loaded.2 =
      (Ret (Some resp, None), w') ∧
    decides documented_units example_manager example_configs (sim_service (Some sim_loaded.1))
      sim_messages resp ∧ rs_OverallCode resp = Code_OVER_LIMIT.
Proof.
  pose proof (ShouldRateLimit_decides jitter_ok documented_units example_manager false example_configs
    (sim_service (Some sim_loaded.1)) sim_messages sim_loaded.2) as Hrun.
  assert (match ShouldRateLimit (sim_service (Some sim_loaded.1)) sim_messages sim_loaded.2 with
          | (Ret (Some resp, None), _) => bool_decide (rs_OverallCode resp = Code_OVER_LIMIT)
          | _ => false
          end = true) as Hret by (vm_compute; reflexivity).
  unfold wp in Hrun.
  destruct (ShouldRateLimit (sim_service (Some sim_loaded.1)) sim_messages sim_loaded.2)
    as [[[[resp|] [msg|]]|p|c] w']; try discriminate Hret.
  exists resp, w'. split; [reflexivity|]. apply bool_decide_eq_true in Hret. split; [|exact Hret].
  destruct Hrun as [(resp'&[= <-]&Hd&_)|(?&?&[=]&_)]; [| |exact Hd].
  - split; [by vm_compute|]. split; [apply documented_units_known|]. split; [by vm_compute|].
    exists sim_loaded.1. split; [done|]. eapply Load_config_of; [apply sim_loaded_eq|reflexivity].
  - split; [done|]. split; [done|]. by repeat constructor.
Defined.

Lemma ShouldRateLimit_service_error_witness :
  ∃ w', ShouldRateLimit (sim_service None) sim_messages sim_empty =
    (Ret (None, Some "no rate limit configuration loaded"), w').
Proof. eexists. by apply (ShouldRateLimit_service_error (sim_service None) sim_messages). Defined.

Lemma SetConfig_installs_witness :
  ∃ this' w', SetConfig (sim_service None) (mkEvent (Some sim_loaded.1) None) true sim_loaded.2 =
      (Ret this', w') ∧ ServeHTTP (sv_health (sim_service None)) = 500 ∧
    ServeHTTP (sv_health this') = 200.
Proof.
  destruct (SetConfig_installs jitter_ok documented_units example_manager false example_configs
    (sim_service None) true sim_empty sim_loaded.2 sim_loaded.1
    (settings_of [("LIMIT_RESPONSE_HEADERS_ENABLED", "true")])
    (w_ext sim_loaded.2)) as (this'&w'&Hrun&_&_&Hh).
  - by vm_compute.
  - apply documented_units_known.
  - apply sim_loaded_eq.
  - reflexivity.
  - exists this', w'. split; [exact Hrun|]. split; [by vm_compute|]. rewrite Hh. by vm_compute.
Defined.

Lemma update_loop_last_good_witness :
  ∃ this' w', update_loop (sim_service None) true
      [mkEvent (Some sim_loaded.1) None; mkEvent None (Some (PConfigError "bad"))] sim_loaded.2 =
    (Ret this', w') ∧ sv_config this' = Some sim_loaded.1.
Proof.
  pose proof (update_loop_last_good (sim_service None) true
    [mkEvent (Some sim_loaded.1) None; mkEvent None (Some (PConfigError "bad"))] sim_loaded.2
    (Forall_cons_2 _ _ _ (or_introl (or_introl (ex_intro _ sim_loaded.1 eq_refl)))
      (Forall_cons_2 _ _ _ (or_introl (or_intror (ex_intro _ None (ex_intro _ "bad" eq_refl))))
        (Forall_nil_2 _)))) as Hrun.
  unfold wp in Hrun.
  destruct (update_loop (sim_service None) true _ sim_loaded.2) as [[this'|p|c] w'];
    [|by destruct Hrun as (?&?&?&[=]&_)|done].
  exists this', w'. split; [reflexivity|]. apply Hrun.
Defined.

(** ** An override without a unit ends the process *)

Lemma load_last {E} (h : list RateLimit) rl ctrs (e : E) :
  load (length h) (mkWorld (h ++ [rl]) ctrs e) = (Ret rl, mkWorld (h ++ [rl]) ctrs e).
Proof. unfold load; simpl. by rewrite lookup_app_r, Nat.sub_diag by done. Qed.

Lemma constructLimitsToCheck_override {E} cf root domain desc o hits (w : World E) :
  cf_domains cf !! domain = Some root → d_Limit desc = Some o →
  constructLimitsToCheck (mkRequest domain [desc] hits) (Some cf) w =
    (Ret ([Some (length (w_heap w))], [false]),
     mkWorld (w_heap w ++
       [make_limit (o_RequestsPerUnit o) (o_Unit o)
          (NewStats (cf_statsManager cf) (descriptorKey domain desc)) false false "" [] false])
       (w_counters w) (w_ext w)).
Proof.
  intros Hroot Ho. unfold constructLimitsToCheck. do 2 (erewrite bind_Ret by reflexivity).
  erewrite bind_Ret.
  2: { unfold collect_limits, range; simpl. erewrite bind_Ret; [reflexivity|].
       unfold GetLimit. rewrite Hroot, Ho.
       erewrite bind_Ret; [|erewrite bind_Ret by reflexivity; reflexivity]. simpl.
       erewrite bind_Ret by apply load_last. reflexivity. }
  cbn match. erewrite bind_Ret; [reflexivity|]. unfold drop_replaced, range; simpl.
  erewrite bind_Ret; [reflexivity|]. by erewrite bind_Ret by apply load_last.
Qed.

(** C38: the unit of an override in the request is not validated.  For a domain
    the configuration knows, an override whose unit is not second, minute, hour
    or day makes the redis limiter panic with a string, which the service's
    recovery does not handle: the panic leaves [ShouldRateLimit], so a request
    can end the process. *)
Theorem ShouldRateLimit_override_unit_panics
    `{TimeSource E, FreeCache E, JitterRand E, Radix E, EnvSettings E}
    (this : service fixedRateLimitCacheImpl) cf root domain entries n u hits (w : World E) :
  sv_config this = Some cf → cf_domains cf !! domain = Some root → domain ≠ "" →
  unit_seconds u = None →
  let req := mkRequest domain [mkDescriptor entries (Some (mkOverride n u))] hits in
  ∃ w', ShouldRateLimit this req w = (Panic (PString "should not get here"), w').
Proof.
  intros Hcf Hroot Hdom Hu req. unfold ShouldRateLimit, recover.
  enough (∃ w', shouldRateLimitWorker this req w = (Panic (PString "should not get here"), w')) as [w' Hw].
  { exists w'. by erewrite bind_Panic by exact Hw. }
  unfold shouldRateLimitWorker, GetCurrentConfig. rewrite Hcf, (bool_decide_true (rq_Domain req ≠ "")) by done.
  do 2 (erewrite bind_Ret by reflexivity).
  erewrite bind_Ret by (by apply (constructLimitsToCheck_override cf root domain _ (mkOverride n u) hits w Hroot)).
  destruct (unix_now (w_ext w)) as [now e'] eqn:Hnow.
  eexists. erewrite bind_Panic; [reflexivity|]. simpl. unfold DoLimit.
  erewrite bind_Panic; [reflexivity|]. unfold GenerateCacheKeys; simpl.
  erewrite bind_Ret by reflexivity. erewrite bind_Ret by (unfold UnixNow, ext; simpl; by rewrite Hnow).
  unfold range; cbn [range_from].
  erewrite bind_Panic; [reflexivity|]. erewrite bind_Ret by reflexivity.
  erewrite bind_Panic; [reflexivity|]. unfold GenerateCacheKey.
  erewrite bind_Ret by (apply load_last). simpl.
  erewrite bind_Panic; [reflexivity|]. rewrite UnitToDivider_eq, Hu. reflexivity.
Qed.

Lemma ShouldRateLimit_override_unit_panics_witness :
  let req := mkRequest "messaging" [mkDescriptor [mkEntry "k" "v"] (Some (mkOverride 5 UNKNOWN))] 1 in
  ∃ w', ShouldRateLimit (sim_service (Some sim_loaded.1)) req sim_loaded.2 =
    (Panic (PString "should not get here"), w').
Proof.
  assert (is_Some (cf_domains sim_loaded.1 !! "messaging")) as [root Hroot]
    by (by apply (bool_decide_unpack _); vm_compute).
  by apply (ShouldRateLimit_override_unit_panics (sim_service (Some sim_loaded.1)) sim_loaded.1 root).
Defined.
