(* ===== verification/ServiceTypes.v ===== *)
(** * The wire types of a response

    Integers of the model are unbounded; the fields of a [RateLimitResponse] are
    unsigned 32-bit integers and enumerations.  If the numbers of the files and of
    the request fit their types, every field of a response fits its own. *)

From S2P Require Import Prelude GoStrings World Utils Stats Config ConfigLoad ConfigLookup Limiter LimiterSpec.
From S2P Require Import Redis RedisSpec Simulated RedisCache Tls Settings SettingsSpec Health Service ServiceSpec.
From S2P Require Import ServiceTheorems.

#[local] Open Scope Z_scope.

(** [requests_per_unit] is a [uint32] of the YAML and protobuf structures. *)
Fixpoint typed_descriptor (d : YamlDescriptor) : bool :=
  match yd_RateLimit d with
  | Some l => bool_decide (is_u32 (yl_RequestsPerUnit l))
  | None => true
  end && forallb typed_descriptor (yd_Descriptors d).

Definition typed_configs (configs : list RateLimitConfigToLoad) : bool :=
  forallb (λ c, forallb typed_descriptor (yo_Descriptors (cl_ConfigYaml c))) configs.

Definition typed_request (req : RateLimitRequest) : Prop :=
  Forall (λ desc, ∀ o, d_Limit desc = Some o → is_u32 (o_RequestsPerUnit o)) (rq_Descriptors req).

Definition typed_status (s : DescriptorStatus) : Prop :=
  is_u32 (st_LimitRemaining s) ∧
  ∀ pl, st_CurrentLimit s = Some pl → is_u32 (pl_RequestsPerUnit pl) ∧ 1 <= pl_Unit pl <= 4.

Definition typed_response (req : RateLimitRequest) (resp : RateLimitResponse) : Prop :=
  length (rs_Statuses resp) = length (rq_Descriptors req) ∧ Forall typed_status (rs_Statuses resp) ∧
  (rs_OverallCode resp = Code_OK ∨ rs_OverallCode resp = Code_OVER_LIMIT) ∧
  (length (rs_ResponseHeadersToAdd resp) = 0%nat ∨ length (rs_ResponseHeadersToAdd resp) = 3%nat).

Lemma unit_seconds_range u : is_Some (unit_seconds u) → 1 <= u <= 4.
Proof.
  unfold unit_seconds, SECOND, MINUTE, HOUR, DAY. intros [d Hd]. repeat case_decide; try done; lia.
Qed.

Section typed.
Context (Unit_value : string → option Z) (m : ManagerImpl) (configs : list RateLimitConfigToLoad).

Lemma typed_domain domain :
  typed_configs configs = true → forallb typed_descriptor (domain_descriptors configs domain) = true.
Proof.
  intros Ht. unfold typed_configs, domain_descriptors in *. induction configs as [|c cs IH]; [done|].
  cbn [forallb] in Ht. apply andb_true_iff in Ht as [Hc Hcs]. rewrite fmap_cons. cbn [concat].
  rewrite forallb_app, IH by done. destruct (decide _); [by rewrite Hc|done].
Qed.

Lemma spec_limit_typed domain desc rl :
  typed_configs configs = true → (∀ o, d_Limit desc = Some o → is_u32 (o_RequestsPerUnit o)) →
  spec_limit Unit_value m configs domain desc = Some rl → is_u32 (pl_RequestsPerUnit (rl_Limit rl)).
Proof.
  intros Ht Ho. unfold spec_limit. case_decide as Hdom; [|done]. destruct (d_Limit desc) as [o|].
  { intros [= <-]. by apply Ho. }
  intros ((d&rl')&Hres&Heq)%fmap_Some. subst rl. simpl. unfold resolved_limit in Hres.
  destruct (resolve _ _ _) as [[fk d']|] eqn:Hr; [|done].
  destruct (yd_RateLimit d') as [l|] eqn:Hl; [|done]. injection Hres as <- <-. simpl.
  assert (typed_descriptor d' = true) as Hd.
  { eapply resolve_forallb; [|by apply typed_domain|exact Hr].
    intros [? ? ? ds ? ?]. simpl. by intros [_ ?]%andb_true_iff. }
  destruct d' as [? ? ? ? ? ?]. simpl in *. subst. by apply andb_true_iff in Hd as [?%bool_decide_eq_true _].
Qed.

Lemma answer_typed merge req names s desc :
  valid_config Unit_value merge configs = true → units_known Unit_value → overrides_known req →
  typed_configs configs = true → typed_request req → desc ∈ rq_Descriptors req →
  answer_for names (spec_limit Unit_value m configs (rq_Domain req) desc) s → typed_status s.
Proof.
  intros Hv Hu Ho Ht Hreq Hin. unfold answer_for, kept. apply (proj1 (Forall_forall _ _)) with (x := desc) in Ho, Hreq; try done.
  destruct (unlimited _) eqn:Hunl; [intros ->; by split|].
  destruct (spec_limit Unit_value m configs (rq_Domain req) desc) as [rl|] eqn:Hs; simpl in *.
  2: { intros ->. by split. }
  destruct (_ && _); [|intros ->; by split]. intros (Hcur&Hrem&_). split; [done|]. intros pl Hpl.
  rewrite Hcur in Hpl. injection Hpl as <-. split; [by eapply spec_limit_typed|].
  apply unit_seconds_range. by eapply spec_limit_unit.
Qed.
End typed.

Section theorem.
Context {E C : Type} `{TimeSource E} `{RateLimitCache E C}.

(** C22: responses are well typed.  With a valid configuration in force whose rates
    are 32-bit, a well-formed request gets either a response or an error, never
    both or neither; the response has one status per descriptor, each with a
    32-bit remaining quota and, if a limit applies, a 32-bit rate and one of the
    four units; the overall code is OK or OVER_LIMIT; and the rate limit headers
    are all there or not at all. *)
Theorem ShouldRateLimit_typed (ok : C → Prop) {Hlaws : CacheLaws E C ok} Unit_value m merge
    configs (this : service C) req (w : World E) :
  ready ok Unit_value m merge configs this w → typed_configs configs = true →
  well_formed req → typed_request req →
  wp (λ _, False) (ShouldRateLimit this req) w (λ r _,
    match r with
    | (Some resp, None) => typed_response req resp
    | (None, Some msg) => True
    | _ => False
    end).
Proof.
  intros Hr Ht Hw Hreq. pose proof (worker_ok ok Unit_value m merge configs this req w Hr Hw) as Hrun.
  unfold ShouldRateLimit, wp, recover, mbind, M_bind in *.
  destruct (shouldRateLimitWorker this req w) as [[resp|p|code] w']; [|by destruct Hrun as [msg ->]|done].
  destruct Hrun as [_ (Hans&Hcode&Hhead)]. destruct Hr as (_&Hu&Hv&_), Hw as (_&_&Ho). simpl. split_and!.
  - rewrite <-(Forall2_length _ _ _ Hans). apply length_fmap.
  - apply Forall_lookup. intros i s Hi. destruct (Forall2_lookup_r _ _ _ _ _ Hans Hi) as (spec&Hspec&Ha).
    unfold spec_limits in Hspec. rewrite list_lookup_fmap in Hspec.
    apply fmap_Some in Hspec as (desc&Hd&Hspec). rewrite Hspec in Ha.
    eapply answer_typed; [done..| |done]. by eapply list_elem_of_lookup_2.
  - rewrite Hcode. destruct (_ && _); auto.
  - unfold headers_for in Hhead. destruct (sv_customHeadersEnabled this); [|by rewrite Hhead; left].
    destruct Hhead as ([d|]&_&Hh); [|by rewrite Hh; left]. destruct Hh as (pl&reset&_&->). by right.
Qed.
End theorem.

(** On the simulated redis. *)
Lemma ShouldRateLimit_typed_witness :
  ∃ resp w', ShouldRateLimit (sim_service (Some sim_loaded.1)) sim_messages sim_loaded.2 =
      (Ret (Some resp, None), w') ∧ typed_response sim_messages resp.
Proof.
  pose proof (ShouldRateLimit_typed jitter_ok documented_units example_manager false example_configs
    (sim_service (Some sim_loaded.1)) sim_messages sim_loaded.2) as Hrun.
  assert (match ShouldRateLimit (sim_service (Some sim_loaded.1)) sim_messages sim_loaded.2 with
          | (Ret (Some resp, None), _) => true | _ => false
          end = true) as Hret by (vm_compute; reflexivity).
  unfold wp in Hrun.
  destruct (ShouldRateLimit (sim_service (Some sim_loaded.1)) sim_messages sim_loaded.2)
    as [[[[resp|] [msg|]]|p|c] w']; try discriminate Hret.
  exists resp, w'. split; [reflexivity|]. apply Hrun.
  - split; [by vm_compute|]. split; [apply documented_units_known|]. split; [by vm_compute|].
    exists sim_loaded.1. split; [done|]. eapply Load_config_of; [apply sim_loaded_eq|reflexivity].
  - by vm_compute.
  - split; [done|]. split; [done|]. by repeat constructor.
  - by repeat constructor.
Defined.
