(* ===== verification/Memcached.v ===== *)
(** * [src/memcached]: the limiter over memcached

    [cache_impl.go]: [DoLimit] judges by the counts read before the request and
    leaves the increments to a task ([increaseAsync]) that runs later, on the
    pool of [runAsync].  [stats_collecting_client.go] wraps the client with
    statistics.  The memcached library is the class [Memcache]. *)

From S2P Require Import Prelude GoStrings World Utils Stats Limiter.

#[local] Open Scope Z_scope.

(** ** The library *)

Inductive mc_error : Set := ErrCacheMiss | ErrNotStored | ErrOther (msg : string).

#[export] Instance mc_error_eq_dec : EqDecision mc_error.
Proof. solve_decision. Defined.

Record Item : Set := mkItem { it_Key : string; it_Value : string; it_Expiration : Z }.

(** [GetMulti] may return some values with an error. *)
Class Memcache (E : Type) : Type := {
  mc_GetMulti : list string → E → (gmap string string * option mc_error) * E;
  mc_Increment : string → Z → E → (Z * option mc_error) * E;
  mc_Add : Item → E → option mc_error * E;
}.

(** ** The statistics of the client *)

Record statsCollectingClient : Set := mkCollecting {
  sc_multiGetSuccess : Counter;
  sc_multiGetError : Counter;
  sc_incrementSuccess : Counter;
  sc_incrementMiss : Counter;
  sc_incrementError : Counter;
  sc_addSuccess : Counter;
  sc_addError : Counter;
  sc_addNotStored : Counter;
  sc_keysRequested : Counter;
  sc_keysFound : Counter;
}.

Definition CollectStats (scope : Scope) : statsCollectingClient :=
  {| sc_multiGetSuccess := NewCounterWithTags scope "multiget" [("code", "success")];
     sc_multiGetError := NewCounterWithTags scope "multiget" [("code", "error")];
     sc_incrementSuccess := NewCounterWithTags scope "increment" [("code", "success")];
     sc_incrementMiss := NewCounterWithTags scope "increment" [("code", "miss")];
     sc_incrementError := NewCounterWithTags scope "increment" [("code", "error")];
     sc_addSuccess := NewCounterWithTags scope "add" [("code", "success")];
     sc_addError := NewCounterWithTags scope "add" [("code", "error")];
     sc_addNotStored := NewCounterWithTags scope "add" [("code", "not_stored")];
     sc_keysRequested := NewCounter scope "keys_requested";
     sc_keysFound := NewCounter scope "keys_found" |}.

Section client.
Context {E : Type} `{Memcache E}.
#[local] Abbreviation W := (World E).
Implicit Types scc : statsCollectingClient.

Definition GetMulti scc (keys : list string) : M W (gmap string string * option mc_error) :=
  _ ← Add (sc_keysRequested scc) (u64 (Z.of_nat (length keys)));
  '(results, err) ← ext (mc_GetMulti keys);
  _ ← match err with
      | Some _ => Inc (sc_multiGetError scc)
      | None =>
          _ ← Add (sc_keysFound scc) (u64 (Z.of_nat (size results)));
          Inc (sc_multiGetSuccess scc)
      end;
  mret (results, err).

Definition Increment scc (key : string) (delta : Z) : M W (Z * option mc_error) :=
  '(newValue, err) ← ext (mc_Increment key delta);
  _ ← match err with
      | Some ErrCacheMiss => Inc (sc_incrementMiss scc)
      | None => Inc (sc_incrementSuccess scc)
      | Some _ => Inc (sc_incrementError scc)
      end;
  mret (newValue, err).

Definition AddItem scc (item : Item) : M W (option mc_error) :=
  err ← ext (mc_Add item);
  _ ← match err with
      | Some ErrNotStored => Inc (sc_addNotStored scc)
      | None => Inc (sc_addSuccess scc)
      | Some _ => Inc (sc_addError scc)
      end;
  mret err.
End client.

(** ** The limiter *)

Record rateLimitMemcacheImpl : Set := mkMemcache {
  mi_client : statsCollectingClient;
  mi_expirationJitterMaxSeconds : Z;
  mi_baseRateLimiter : BaseRateLimiter;
}.

(** The arguments a task captures. *)
Record increase_task : Set := mkTask {
  tk_cacheKeys : list CacheKey;
  tk_isOverLimitWithLocalCache : list bool;
  tk_limits : list (option loc);
  tk_hitsAddend : Z;
}.

Section limiter.
Context {E : Type} `{TimeSource E} `{FreeCache E} `{JitterRand E} `{Memcache E}.
#[local] Abbreviation W := (World E).
Implicit Types this : rateLimitMemcacheImpl.

(** Lines 83-97: which keys are over the limit locally, which to fetch. *)
Definition keys_to_get this (cacheKeys : list CacheKey) (n : nat) : M W (list bool * list string) :=
  range cacheKeys (replicate n false, []) (λ i cacheKey '(isOverLimitWithLocalCache, keysToGet),
    if decide (ck_Key cacheKey = "") then mret (isOverLimitWithLocalCache, keysToGet)
    else
      found ← IsOverLimitWithLocalCache (mi_baseRateLimiter this) (ck_Key cacheKey);
      if found : bool then mret (<[i := true]> isOverLimitWithLocalCache, keysToGet)
      else mret (isOverLimitWithLocalCache, keysToGet ++ [ck_Key cacheKey])).

(** Lines 123-133: a missing or undecodable value counts as 0. *)
Definition decode_count (o : option string) : Z :=
  match o with
  | Some v => match ParseInt v 32 with Some decoded => u32 decoded | None => 0 end
  | None => 0
  end.

(** Lines 121-141. *)
Definition mem_statuses this (cacheKeys : list CacheKey) (limits : list (option loc))
    (hitsAddend : Z) (memcacheValues : gmap string string) (isOverLimitWithLocalCache : list bool)
  : M W (list DescriptorStatus) :=
  range cacheKeys [] (λ i cacheKey responseDescriptorStatuses,
    let limitBeforeIncrease := decode_count (memcacheValues !! ck_Key cacheKey) in
    let limitAfterIncrease := u32 (limitBeforeIncrease + hitsAddend) in
    limit ← index limits i;
    cached ← index isOverLimitWithLocalCache i;
    status ← GetResponseDescriptorStatus (mi_baseRateLimiter this) (ck_Key cacheKey)
               (NewRateLimitInfo limit limitBeforeIncrease limitAfterIncrease 0 0)
               cached hitsAddend;
    mret (responseDescriptorStatuses ++ [status])).

(** The statuses, and the task handed to [runAsync]. *)
Definition DoLimit this (request : RateLimitRequest) (limits : list (option loc))
  : M W (list DescriptorStatus * increase_task) :=
  let hitsAddend := Max 1 (rq_HitsAddend request) in
  cacheKeys ← GenerateCacheKeys (mi_baseRateLimiter this) request limits hitsAddend;
  '(isOverLimitWithLocalCache, keysToGet) ←
    keys_to_get this cacheKeys (length (rq_Descriptors request));
  '(memcacheValues, _) ←
    (if bool_decide (0 < length keysToGet)%nat then GetMulti (mi_client this) keysToGet
     else mret (∅, None));
  ss ← mem_statuses this cacheKeys limits hitsAddend memcacheValues isOverLimitWithLocalCache;
  mret (ss, mkTask cacheKeys isOverLimitWithLocalCache limits (u64 hitsAddend)).

(** One round of [increaseAsync] for a key that is counted. *)
Definition increase_key this (key : string) (limit : option loc) (hitsAddend : Z) : M W unit :=
  '(_, err) ← Increment (mi_client this) key hitsAddend;
  match err with
  | Some ErrCacheMiss =>
      rl ← deref limit;
      expirationSeconds ← UnitToDivider (pl_Unit (rl_Limit rl));
      expirationSeconds ←
        (if bool_decide (mi_expirationJitterMaxSeconds this > 0) then
           r ← ext (int63n (mi_expirationJitterMaxSeconds this));
           mret (i64 (expirationSeconds + r))
         else mret expirationSeconds);
      err ← AddItem (mi_client this) (mkItem key (FormatInt hitsAddend) (i32 expirationSeconds));
      match err with
      | Some ErrNotStored =>
          (* somebody else added the key in between *)
          _ ← Increment (mi_client this) key hitsAddend;
          mret ()
      | _ => mret ()
      end
  | _ => mret ()
  end.

Definition increaseAsync this (t : increase_task) : M W unit :=
  range (tk_cacheKeys t) () (λ i cacheKey _,
    skip ← (if decide (ck_Key cacheKey = "") then mret true
            else index (tk_isOverLimitWithLocalCache t) i);
    if skip : bool then mret ()
    else
      (* limits[i] is read only after a miss; it is in range *)
      limit ← index (tk_limits t) i;
      increase_key this (ck_Key cacheKey) limit (tk_hitsAddend t)).

(** [DoLimit] followed by [Flush] ([AutoFlushForIntegrationTests]): the
    request's own task has run when it returns. *)
Definition DoLimit_flushed this (request : RateLimitRequest) (limits : list (option loc))
  : M W (list DescriptorStatus) :=
  '(ss, t) ← DoLimit this request limits;
  _ ← increaseAsync this t;
  mret ss.
End limiter.

Definition NewRateLimitCacheImpl (client : statsCollectingClient) (expirationJitterMaxSeconds : Z)
    (localCache : bool) (nearLimitRatio : SpecFloat.spec_float) (cacheKeyPrefix : string)
  : rateLimitMemcacheImpl :=
  {| mi_client := client;
     mi_expirationJitterMaxSeconds := expirationJitterMaxSeconds;
     mi_baseRateLimiter :=
       NewBaseRateLimit expirationJitterMaxSeconds localCache nearLimitRatio cacheKeyPrefix |}.

#[export] Instance mem_RateLimitCache
    `{TimeSource E, FreeCache E, JitterRand E, Memcache E} : RateLimitCache E rateLimitMemcacheImpl :=
  {| cache_DoLimit := DoLimit_flushed; cache_Flush _ := mret () |}.

(** ** The task pool

    A worker waits at the unbuffered queue ([Idle], with the tasks it processed
    in this period) or runs a task ([Busy]).  Submitting hands the task to a
    waiting worker if there is one and starts a worker otherwise; a worker that
    processed nothing for a whole period ends. *)

Section pool.
Context {T : Type}.

Inductive worker : Type := Busy (t : T) (n : nat) | Idle (n : nat).

Record pool : Type := mkPool {
  pl_workers : list worker;
  pl_done : list T;
}.

Definition waiting (w : worker) : Prop := match w with Idle _ => True | Busy _ _ => False end.

Inductive runAsync (t : T) : pool → pool → Prop :=
  | submit_handoff l1 n l2 d :
      runAsync t (mkPool (l1 ++ Idle n :: l2) d) (mkPool (l1 ++ Busy t (S n) :: l2) d)
  | submit_spawn ws d :
      Forall (λ w, ¬ waiting w) ws →
      runAsync t (mkPool ws d) (mkPool (ws ++ [Busy t 0]) d).

Inductive pool_step : pool → pool → Prop :=
  | worker_finish l1 t n l2 d :
      pool_step (mkPool (l1 ++ Busy t n :: l2) d) (mkPool (l1 ++ Idle n :: l2) (d ++ [t]))
  | worker_tick l1 n l2 d :
      (0 < n)%nat → pool_step (mkPool (l1 ++ Idle n :: l2) d) (mkPool (l1 ++ Idle 0 :: l2) d)
  | worker_exit l1 l2 d :
      pool_step (mkPool (l1 ++ Idle 0 :: l2) d) (mkPool (l1 ++ l2) d).

Definition running (p : pool) : list T :=
  omap (λ w, match w with Busy t _ => Some t | Idle _ => None end) (pl_workers p).
End pool.
Arguments worker : clear implicits.
Arguments pool : clear implicits.
