(* ===== verification/MemcachedSpec.v ===== *)
(** * What memcached promises, and what the limiter makes of it

    [MemcacheLaws] is the documented behaviour of the library over the view of
    [CountSpec.v] (client number 0): increments and adds are atomic, an
    increment needs a live key, an add a missing one.  The limiter keeps the
    promise of a backend, and with its tasks flushed between the requests it
    implements the fixed window. *)

From S2P Require Import Prelude GoStrings World Utils Stats Limiter LimiterSpec CountSpec.
From S2P Require Import Simulated Memcached.
From stdpp Require Import relations.

#[local] Open Scope Z_scope.

(** A delta in seconds: anything longer is an absolute time to memcached. *)
Definition max_relative : Z := 2592000.

Class MemcacheLaws (E : Type) `{TimeSource E, FreeCache E, JitterRand E, CountView E, Memcache E}
  : Prop := {
  mem_env :: EnvLaws E;
  law_getmulti keys e vs err e' : mc_GetMulti keys e = ((vs, err), e') →
    undisturbed e e' ∧
    (err = None → ∀ k, k ∈ keys → ∃ t, time e <= t <= time e' ∧
       vs !! k = if live t (entry 0 k e) then Some (FormatInt (count_at t (entry 0 k e))) else None);
  law_increment k d e v err e' : mc_Increment k d e = ((v, err), e') →
    time e <= time e' ∧ (∀ k', held k' e' → held k' e) ∧
    (∀ c k', (c, k') ≠ (0%nat, k) → entry c k' e' = entry c k' e) ∧
    ∃ t, time e <= t <= time e' ∧
      match err with
      | None => live t (entry 0 k e) = true ∧
          entry 0 k e' = Some (count_at t (entry 0 k e) + d, entry 0 k e ≫= snd)
      | Some ErrCacheMiss => live t (entry 0 k e) = false ∧ entry 0 k e' = entry 0 k e
      | Some _ => True
      end;
  law_add k v exp e err e' : mc_Add (mkItem k (FormatInt v) exp) e = (err, e') → 0 <= v < 2 ^ 63 →
    time e <= time e' ∧ (∀ k', held k' e' → held k' e) ∧
    (∀ c k', (c, k') ≠ (0%nat, k) → entry c k' e' = entry c k' e) ∧
    ∃ t, time e <= t <= time e' ∧
      match err with
      | None => live t (entry 0 k e) = false ∧
          (0 < exp <= max_relative → entry 0 k e' = Some (v, Some (t + exp)))
      | Some ErrNotStored => live t (entry 0 k e) = true ∧ entry 0 k e' = entry 0 k e
      | Some _ => True
      end;
}.

(** The keys the client library accepts: at most 250 bytes, no space, no control
    character.  For any other key its calls fail with [ErrMalformedKey] (the
    comment at the top of [cache_impl.go] mentions the length). *)
Definition legal_key (k : string) : bool :=
  bool_decide (String.length k <= 250)%nat &&
  forallb (λ c, bool_decide (32 < Ascii.nat_of_ascii c)%nat && negb (bool_decide (Ascii.nat_of_ascii c = 127%nat)))
    (String.list_ascii_of_string k).

(** Memcached is reachable: a call with legal keys meets no error but a miss or
    a lost race. *)
Class MemcacheUp (E : Type) `{Memcache E} : Prop := {
  up_getmulti keys e : (∀ k, k ∈ keys → legal_key k = true) → (mc_GetMulti keys e).1.2 = None;
  up_increment k d e : legal_key k = true → (mc_Increment k d e).1.2 ≠ Some ErrNotStored ∧
    ∀ msg, (mc_Increment k d e).1.2 ≠ Some (ErrOther msg);
  up_add item e : legal_key (it_Key item) = true →
    (mc_Add item e).1 ≠ Some ErrCacheMiss ∧ ∀ msg, (mc_Add item e).1 ≠ Some (ErrOther msg);
}.

(** ** The phases *)

Section phases.
Context {E : Type} `{MemcacheLaws E} (Err : panic → Prop).
#[local] Abbreviation W := (World E).
Implicit Types (w : W) (this : rateLimitMemcacheImpl).

(** The keys to fetch are the others, and nothing else. *)
Definition fetched (keys : list CacheKey) (flags : list bool) (ks : list string) (j : nat) : Prop :=
  (∀ i key, (i < j)%nat → keys !! i = Some key → ck_Key key ≠ "" → flags !! i = Some false →
    ck_Key key ∈ ks) ∧
  (∀ k, k ∈ ks → k ∈ ck_Key <$> keys).

Lemma keys_to_get_ok this keys w :
  wp Err (keys_to_get this keys (length keys)) w (λ '(flags, ks) w',
    quiet w w' ∧ flags_held keys flags (w_ext w) ∧ fetched keys flags ks (length keys)).
Proof.
  unfold keys_to_get.
  apply (wp_range Err (λ j '(flags, ks) w', quiet w w' ∧ flags_held keys flags (w_ext w) ∧
    fetched keys flags ks j)).
  { split; [reflexivity|]. split; [|split; [by intros i key Hi%Nat.nlt_0_r|by intros k Hk%elem_of_nil]].
    split; [apply length_replicate|]. intros i key _ [? _]%lookup_replicate_1. done. }
  intros j key [flags ks] w1 Hj (Hq&Hf&Hks&Hin). case_decide as Hk.
  { apply wp_ret. split; [done|]. split; [done|]. split; [|done]. intros i key' Hi Hkey.
    destruct (decide (i = j)) as [->|]; [by simplify_eq|]. apply Hks; [lia|done]. }
  eapply wp_bind; [apply IsOverLimitWithLocalCache_ok|]. intros b w2 [Hq2 Hheld].
  assert (quiet w w2) as Hq12 by (by etransitivity).
  assert (held (ck_Key key) (w_ext w1) → held (ck_Key key) (w_ext w)) as Hback by apply Hq.
  destruct b; apply wp_ret; (split; [done|]).
  - split; [eapply flags_held_insert; [done|done|done|]; by apply Hback, Hheld|]. split; [|done].
    intros i key' Hi Hkey Hne Hfl. destruct (decide (i = j)) as [->|].
    + rewrite list_lookup_insert_eq in Hfl; [done|]. destruct Hf as [-> _]. by eapply lookup_lt_Some.
    + rewrite list_lookup_insert_ne in Hfl by done. apply (Hks i key'); [lia|done..].
  - split; [done|]. split.
    + intros i key' Hi Hkey Hne Hfl. apply elem_of_app. destruct (decide (i = j)) as [->|].
      * simplify_eq. right. by apply list_elem_of_singleton.
      * left. apply (Hks i key'); [lia|done..].
    + intros k [?| ->%list_elem_of_singleton]%elem_of_app; [by apply Hin|].
      by apply list_elem_of_fmap_2, (list_elem_of_lookup_2 _ j).
Qed.

(** The statistics of the client do not affect what it returns. *)
Lemma GetMulti_run scc keys w :
  ∃ counters, GetMulti scc keys w =
    (Ret (mc_GetMulti keys (w_ext w)).1, mkWorld (w_heap w) counters (mc_GetMulti keys (w_ext w)).2).
Proof.
  unfold GetMulti, ext, mbind, M_bind; simpl.
  destruct (mc_GetMulti keys (w_ext w)) as [[vs [err|]] e1] eqn:Hg; simpl; by eexists.
Qed.

Lemma Increment_run scc k d w :
  ∃ counters, Increment scc k d w =
    (Ret (mc_Increment k d (w_ext w)).1,
     mkWorld (w_heap w) counters (mc_Increment k d (w_ext w)).2).
Proof.
  unfold Increment, ext, mbind, M_bind; simpl.
  destruct (mc_Increment k d (w_ext w)) as [[v [[]|]] e1] eqn:Hg; simpl; by eexists.
Qed.

Lemma AddItem_run scc item w :
  ∃ counters, AddItem scc item w =
    (Ret (mc_Add item (w_ext w)).1, mkWorld (w_heap w) counters (mc_Add item (w_ext w)).2).
Proof.
  unfold AddItem, ext, mbind, M_bind; simpl.
  destruct (mc_Add item (w_ext w)) as [[[]|] e1] eqn:Hg; simpl; by eexists.
Qed.

Lemma mem_statuses_ok this keys limits hits vs flags w :
  keyed (w_heap w) keys limits → length flags = length keys →
  wp Err (mem_statuses this keys limits hits vs flags) w
    (after_statuses w keys limits
       ((λ key, u32 (decode_count (vs !! ck_Key key) + hits)) <$> keys) flags (length keys)).
Proof.
  intros Hkeyed Hflags. unfold mem_statuses. set (results := _ <$> keys).
  apply (wp_range Err (after_statuses w keys limits results flags)); [apply after_statuses_nil|].
  intros j key ss w1 Hj Hafter. assert (length ss = j) as <- by apply Hafter. cbv zeta.
  pose proof (lookup_lt_Some _ _ _ Hj) as Hlt. pose proof Hkeyed as [Hlen _].
  destruct (lookup_lt_is_Some_2 limits (length ss)) as [o Ho]; [lia|].
  destruct (lookup_lt_is_Some_2 flags (length ss)) as [b Hb]; [lia|].
  do 2 (eapply wp_bind_Ret; [by apply index_Some|]). eapply verdict_round; try done.
  unfold results. by rewrite list_lookup_fmap, Hj.
Qed.

(** [increase_key] never fails: what it cannot do it logs. *)
Lemma increase_key_ok this k o rl d hits w :
  o ≫= (λ l, w_heap w !! l) = Some rl → unit_seconds (pl_Unit (rl_Limit rl)) = Some d →
  wp Err (increase_key this k o hits) w (λ _ w', w_heap w' = w_heap w).
Proof.
  intros Hrl Hd. unfold increase_key. destruct (Increment_run (mi_client this) k hits w) as [c1 Hr1].
  eapply wp_bind_Ret; [exact Hr1|].
  destruct (mc_Increment k hits (w_ext w)) as [[v err] e1]; simpl. destruct err as [[]|]; try by apply wp_ret.
  eapply wp_bind_Ret; [by apply deref_ok|]. eapply wp_bind_Ret; [by apply UnitToDivider_Some|].
  eapply wp_bind with (Q := λ _ w', w_heap w' = w_heap w).
  { case_bool_decide; [|by apply wp_ret]. unfold ext, wp, mbind, M_bind; simpl.
    by destruct (int63n _ e1). }
  intros exp w1 Hh1. destruct (AddItem_run (mi_client this) (mkItem k (FormatInt hits) (i32 exp)) w1)
    as [c2 Hr2]. eapply wp_bind_Ret; [exact Hr2|].
  destruct (mc_Add _ (w_ext w1)) as [err e2]; simpl. destruct err as [[]|]; try by apply wp_ret.
  destruct (Increment_run (mi_client this) k hits (mkWorld (w_heap w1) c2 e2)) as [c3 Hr3].
  eapply wp_bind_Ret; [exact Hr3|]. by apply wp_ret.
Qed.

Lemma increaseAsync_ok this keys flags limits hits w :
  keyed (w_heap w) keys limits → length flags = length keys →
  wp Err (increaseAsync this (mkTask keys flags limits hits)) w (λ _ w', w_heap w' = w_heap w).
Proof.
  intros [Hlen Hkeyed] Hflags. unfold increaseAsync; simpl.
  apply (wp_range Err (λ _ _ w', w_heap w' = w_heap w)); [done|].
  intros j key [] w1 Hj Hh. destruct (lookup_lt_is_Some_2 flags j) as [b Hb];
    [apply lookup_lt_Some in Hj; lia|].
  eapply wp_bind_Ret with (a := bool_decide (ck_Key key = "") || b) (w' := w1).
  { case_decide; [by rewrite bool_decide_true|]. rewrite bool_decide_false by done.
    by apply index_Some. }
  destruct (bool_decide (ck_Key key = "") || b) eqn:Hs; [by apply wp_ret|].
  destruct (Hkeyed j key Hj) as (o&rl&d&Ho&Hrl&Hd).
  { intros Hk. by rewrite bool_decide_true in Hs. }
  eapply wp_bind_Ret; [by apply index_Some|].
  eapply wp_mono; [eapply increase_key_ok; [by rewrite Hh|done]|]. intros; congruence.
Qed.

Lemma DoLimit_flushed_ok this req limits w :
  request_ok req limits w →
  wp Err (DoLimit_flushed this req limits) w (λ ss w',
    w_heap w' = w_heap w ∧ Forall2 (status_for (w_heap w)) limits ss).
Proof.
  intros Hreq. pose proof Hreq as [Hlen Hgood].
  destruct (request_keyed (mi_baseRateLimiter this) req limits w Hlen Hgood) as [Hkeyed Hkl].
  unfold DoLimit_flushed, DoLimit.
  eapply wp_bind with (Q := λ '(ss, t) w', w_heap w' = w_heap w ∧
    Forall2 (status_for (w_heap w)) limits ss ∧ ∃ keys flags hits, t = mkTask keys flags limits hits ∧
      keyed (w_heap w) keys limits ∧ length flags = length keys).
  - eapply wp_bind_Ret; [by apply GenerateCacheKeys_run|].
    fold (request_keys (mi_baseRateLimiter this) req limits w).
    set (keys := request_keys (mi_baseRateLimiter this) req limits w) in *. rewrite <-Hkl.
    eapply wp_bind; [apply keys_to_get_ok|]. intros [flags ks] w1 ((Hh1&_)&[Hfl _]&_). simpl in Hh1.
    eapply wp_bind with (Q := λ _ w', w_heap w' = w_heap w).
    { case_bool_decide; [|by apply wp_ret].
      destruct (GetMulti_run (mi_client this) ks w1) as [c Hr]. by eapply wp_Ret. }
    intros [vs err] w2 Hh2.
    eapply wp_bind; [apply mem_statuses_ok; [by rewrite Hh2|done]|].
    intros ss w3 (Hh3&_&_&_&Hl3&Hans). rewrite Hh2 in Hans. apply wp_ret.
    split; [congruence|]. split; [|by eauto 10].
    eapply answered_status_for; [done..| |done]. intros i o Ho. by apply request_keys_empty.
  - intros [ss t] w1 (Hh1&Hss&keys&flags&hits&->&Hk&Hf).
    eapply wp_bind; [apply increaseAsync_ok; [by rewrite Hh1|done]|]. intros [] w2 Hh2.
    apply wp_ret. split; [congruence|done].
Qed.
End phases.

#[export] Instance mem_CacheLaws `{MemcacheLaws E} : CacheLaws E rateLimitMemcacheImpl (λ _, True).
Proof. intros c req limits w _ Hlen Hgood. by apply DoLimit_flushed_ok. Qed.

(** ** Counting *)

Section counts.
Context {E : Type} `{MemcacheLaws E} `{!MemcacheUp E} (Err : panic → Prop).
#[local] Abbreviation W := (World E).
Implicit Types (w : W) (this : rateLimitMemcacheImpl).

(** Time passed, the local cache did not grow, and the count of a legal key
    went from any [n] it reliably was to [f n]. *)
Definition advances (k : string) (f : Z → Z) (T : Z) (e e' : E) : Prop :=
  time e <= time e' ∧ (∀ k', held k' e' → held k' e) ∧
  (legal_key k = true → ∀ n, 0 <= n → holds 0 k n T e → time e' < T → holds 0 k (f n) T e').

Lemma holds_live k n T (e : E) t :
  holds 0 k n T e → t < T → live t (entry 0 k e) = false → entry 0 k e = None ∧ n = 0.
Proof.
  unfold holds, live. destruct (entry 0 k e) as [[v [dl|]]|]; [|done|done].
  intros [_ ?] ? ?. lia.
Qed.

Lemma increment_advances k hits (e : E) v e' T :
  mc_Increment k hits e = ((v, None), e') → advances k (λ n, n + hits) T e e'.
Proof.
  intros (Ht&Hh&_&t&Hb&Hl&He)%law_increment. split_and!; [done..|]. intros _ n Hn Hholds HT.
  rewrite (holds_count _ _ _ _ _ t Hholds) in He by lia. unfold holds. rewrite He. split; [done|].
  unfold holds in Hholds. destruct (entry 0 k e) as [[v' [dl|]]|]; simpl; [apply Hholds|done|done].
Qed.

Lemma increase_key_counts this k o rl d hits T w :
  o ≫= (λ l, w_heap w !! l) = Some rl → unit_seconds (pl_Unit (rl_Limit rl)) = Some d →
  mi_expirationJitterMaxSeconds this <= 2000000 → T <= time (w_ext w) + d → 0 <= hits < 2 ^ 63 →
  wp Err (increase_key this k o hits) w (λ _ w',
    w_heap w' = w_heap w ∧ advances k (λ n, n + hits) T (w_ext w) (w_ext w')).
Proof.
  intros Hrl Hd Hjit HT Hhits. unfold increase_key.
  destruct (Increment_run (mi_client this) k hits w) as [c1 Hr1]. eapply wp_bind_Ret; [exact Hr1|].
  pose proof (up_increment k hits (w_ext w)) as Hup.
  destruct (mc_Increment k hits (w_ext w)) as [[v err] e1] eqn:Hinc; simpl in *.
  destruct err as [[]|]; [| | |apply wp_ret; split; [done|]; by eapply increment_advances].
  2-3: apply law_increment in Hinc as (Ht1&Hh1&_); apply wp_ret; split; [done|];
    split_and!; [done..|]; intros Hk; by destruct (Hup Hk) as [? Hup2]; try destruct (Hup2 msg).
  apply law_increment in Hinc as (Ht1&Hh1&_&t1&Hb1&Hl1&He1).
  eapply wp_bind_Ret; [by apply deref_ok|]. eapply wp_bind_Ret; [by apply UnitToDivider_Some|].
  pose proof (unit_seconds_bounds _ _ Hd) as Hdb.
  eapply wp_bind with (Q := λ exp w', w_heap w' = w_heap w ∧ d <= exp <= d + 2000000 ∧
    undisturbed e1 (w_ext w')).
  { case_bool_decide; [|apply wp_ret; split_and!; done || lia]. unfold ext, wp, mbind, M_bind; simpl.
    destruct (int63n _ e1) as [r e2] eqn:Hr. apply law_rand in Hr as [Hu Hr]. specialize (Hr ltac:(lia)).
    rewrite i64_small by (unfold is_i64; lia). by split_and!; try lia. }
  intros exp w2 (Hh2&Hexp&(Ht2&He2&Hhe2)).
  destruct (AddItem_run (mi_client this) (mkItem k (FormatInt hits) (i32 exp)) w2) as [c2 Hr2].
  eapply wp_bind_Ret; [exact Hr2|].
  pose proof (up_add (mkItem k (FormatInt hits) (i32 exp)) (w_ext w2)) as Hup'.
  assert (i32 exp = exp) as Hi32. { unfold i32. rewrite Z.mod_small; lia. }
  rewrite Hi32 in *.
  destruct (mc_Add (mkItem k (FormatInt hits) exp) (w_ext w2)) as [err e3] eqn:Hadd; simpl in *.
  apply law_add in Hadd as (Ht3&Hh3&_&t3&Hb3&Hadd); [|done].
  destruct err as [[]|]; [apply wp_ret; split; [done|]; split_and!; [simpl; lia|by auto|];
    intros Hk; by destruct (Hup' Hk) as [? Hup4]; try destruct (Hup4 msg)| |
    apply wp_ret; split; [done|]; split_and!; [simpl; lia|by auto|];
    intros Hk; by destruct (Hup' Hk) as [? Hup4]; try destruct (Hup4 msg)|].
  - destruct Hadd as [Hl3 He3].
    destruct (Increment_run (mi_client this) k hits (mkWorld (w_heap w2) c2 e3)) as [c3 Hr3].
    eapply wp_bind_Ret; [exact Hr3|]. apply wp_ret. simpl. split; [done|].
    destruct (mc_Increment k hits e3) as [[v3 err3] e4] eqn:Hinc3; simpl.
    apply law_increment in Hinc3 as (Ht4&Hh4&_). split_and!; [lia|by auto|].
    intros _ n Hn Hholds HT4. exfalso.
    destruct (holds_live k n T _ t1 Hholds) as [Hnone _]; [lia|done|].
    by rewrite He2, He1, Hnone in Hl3.
  - apply wp_ret. simpl. split; [done|]. split_and!; [lia|by auto|]. intros _ n Hn Hholds HT3.
    destruct Hadd as [_ Hadd]. destruct (holds_live k n T _ t1 Hholds) as [_ ->]; [lia|done|].
    unfold holds. rewrite Hadd by (unfold max_relative; lia). split; [done|lia].
Qed.

(** ** One request for one descriptor *)

Lemma GetMulti_counts this ks k T w :
  wp Err (GetMulti (mi_client this) ks) w (λ '(vs, _) w',
    w_heap w' = w_heap w ∧ undisturbed (w_ext w) (w_ext w') ∧
    (k ∈ ks → (∀ k', k' ∈ ks → legal_key k' = true) → time (w_ext w') < T →
     ∀ n, holds 0 k n T (w_ext w) → 0 <= n < 2 ^ 31 → decode_count (vs !! k) = n) ∧
    vs = (mc_GetMulti ks (w_ext w)).1.1).
Proof.
  destruct (GetMulti_run (mi_client this) ks w) as [c Hr].
  eapply wp_Ret; [exact Hr|]. pose proof (up_getmulti ks (w_ext w)) as Hup.
  destruct (mc_GetMulti ks (w_ext w)) as [[vs err] e1] eqn:Hg; simpl in *.
  apply law_getmulti in Hg as [Hu Hv]. split; [done|]. split; [done|]. split; [|done]. intros Hk Hlegal HT n Hholds Hn.
  destruct (Hv (Hup Hlegal) k Hk) as (t&Ht&->).
  destruct (live t (entry 0 k (w_ext w))) eqn:Hl.
  - rewrite (holds_count _ _ _ _ _ t Hholds) by lia. unfold decode_count.
    rewrite ParseInt_FormatInt by lia. rewrite bool_decide_true by (simpl; lia). word.
  - by destruct (holds_live k n T _ t Hholds) as [_ ->]; [lia|done|].
Qed.

Lemma increaseAsync_single this key b l rl d hits T w :
  ck_Key key ≠ "" → w_heap w !! l = Some rl → unit_seconds (pl_Unit (rl_Limit rl)) = Some d →
  mi_expirationJitterMaxSeconds this <= 2000000 → T <= time (w_ext w) + d → 0 <= hits < 2 ^ 63 →
  wp Err (increaseAsync this (mkTask [key] [b] [Some l] hits)) w (λ _ w',
    w_heap w' = w_heap w ∧
    advances (ck_Key key) (λ n, if b then n else n + hits) T (w_ext w) (w_ext w')).
Proof.
  intros Hk Hl Hd Hj HT Hhits. unfold increaseAsync, range; simpl.
  eapply wp_bind with (Q := λ _ w', w_heap w' = w_heap w ∧
    advances (ck_Key key) (λ n, if b then n else n + hits) T (w_ext w) (w_ext w')).
  - rewrite decide_False by done. eapply wp_bind_Ret; [reflexivity|]. destruct b.
    + apply wp_ret. split; [done|]. by split_and!.
    + eapply wp_bind_Ret; [reflexivity|]. by eapply increase_key_counts.
  - intros [] w' Hw'. by apply wp_ret.
Qed.

(** What one request leaves of the window, when it was over before [T]. *)
Definition counted (N T : Z) (rl : RateLimit) (k : string) (hits : Z) (e : E)
    (ss : list DescriptorStatus) (e' : E) : Prop :=
  ∀ S, 0 <= S → S + hits < 2 ^ 31 → tracked 0 k N T S e →
    tracked 0 k N T (S + hits) e' ∧ ∃ r flag reset, ss = [status_of rl flag r reset] ∧
      (flag = true ∨ r > N ↔ N < S + hits) ∧ (S + hits <= N → r = S + hits).

(** The store and the local cache after a verdict and its increment. *)
Lemma counted_intro N T rl k hits (e e1 e2 e3 : E) (b : bool) (vs : gmap string string) reset :
  pl_RequestsPerUnit (rl_Limit rl) = N → 0 <= hits → time e3 < T →
  (b = true → held k e) → undisturbed e e1 →
  legal_key k = true →
  (b = false → ∀ n, holds 0 k n T e → 0 <= n < 2 ^ 31 → decode_count (vs !! k) = n) →
  (∀ c k', entry c k' e2 = entry c k' e1) →
  (∀ k', held k' e2 → held k' e1 ∨ k' = k ∧ b = false ∧ u32 (decode_count (vs !! k) + hits) > N) →
  advances k (λ n, if b then n else n + hits) T e2 e3 →
  counted N T rl k hits e [status_of rl b (u32 (decode_count (vs !! k) + hits)) reset] e3.
Proof.
  intros HN Hhits HT Hb Hu Hlegal Hdec He Hh (Ht3&Hh3&Hadv) S HS Hfits (n&Hn&Hle&Hor&Hheld).
  assert (holds 0 k n T e2) as Hn2.
  { unfold holds. rewrite He. by apply (holds_undisturbed _ _ _ _ _ _ Hu). }
  specialize (Hadv Hlegal n ltac:(lia) Hn2 HT). split.
  - eexists. split; [exact Hadv|]. split_and!.
    + destruct b; lia.
    + destruct b; lia.
    + destruct b; [right; by apply Hheld, Hb|]. destruct Hor; [left|right]; lia.
    + intros Hk3. destruct (Hh k (Hh3 k Hk3)) as [Hk|(_&Hbf&Hover)].
      * assert (N < n) by (apply Hheld, Hu, Hk). destruct b; lia.
      * subst b. rewrite (Hdec eq_refl n) in Hover by (done || lia).
        rewrite u32_small in Hover by (unfold is_u32; lia). lia.
  - eexists _, b, reset. split; [done|]. destruct b.
    + assert (N < n) by (by apply Hheld, Hb). split; [split; [lia|by left]|lia].
    + rewrite (Hdec eq_refl n) by (done || lia). rewrite u32_small by (unfold is_u32; lia).
      split; [|lia]. split; [intros [?|?]; [done|]; destruct Hor; lia|right; destruct Hor; lia].
Qed.

(** ** A sequence of requests for one descriptor *)

Fixpoint mem_serve this (domain : string) (desc : Descriptor) (l : loc) (hs : list Z)
  : M W (list (list DescriptorStatus)) :=
  match hs with
  | [] => mret []
  | h :: hs' =>
      ss ← DoLimit_flushed this (mkRequest domain [desc] h) [Some l];
      sss ← mem_serve this domain desc l hs';
      mret (ss :: sss)
  end.

Section sequence.
Context (this : rateLimitMemcacheImpl) (domain : string) (desc : Descriptor) (l : loc)
  (rl : RateLimit) (d ws : Z).
Hypothesis Hjit : mi_expirationJitterMaxSeconds this <= 2000000.
Hypothesis Hd : unit_seconds (pl_Unit (rl_Limit rl)) = Some d.
Hypothesis HN : is_u32 (pl_RequestsPerUnit (rl_Limit rl)).
Hypothesis Hws : 0 <= ws.
Hypothesis Hwin : window_start ws d = ws.
#[local] Abbreviation key := (window_key (mi_baseRateLimiter this) domain desc rl ws).
Hypothesis Hlegal : legal_key (ck_Key key) = true.
#[local] Abbreviation N := (pl_RequestsPerUnit (rl_Limit rl)).

Lemma mem_request_keys h w :
  w_heap w !! l = Some rl → ws <= (unix_now (w_ext w)).1 < ws + d →
  request_keys (mi_baseRateLimiter this) (mkRequest domain [desc] h) [Some l] w = [key].
Proof.
  intros Hl Ht. unfold request_keys; simpl. f_equal. unfold cache_key_of; simpl.
  rewrite Hl, Hd; simpl. by erewrite window_start_in.
Qed.

(** The verdict of [DoLimit] on its one key, and the task it leaves: [e1] is
    the outside state after the count was read. *)
Definition judged_single (key' : CacheKey) (h : Z) w (ss : list DescriptorStatus)
    (t : increase_task) w' : Prop :=
  w_heap w' = w_heap w ∧ ∃ flag (vs : gmap string string) reset e1,
    t = mkTask [key'] [flag] [Some l] (Max 1 h) ∧
    ss = [status_of rl flag (u32 (decode_count (vs !! ck_Key key') + Max 1 h)) reset] ∧
    (unix_now (w_ext w)).1 <= time (w_ext w') ∧ time (w_ext w) <= time (w_ext w') ∧
    (flag = true → held (ck_Key key') (w_ext w)) ∧ undisturbed (w_ext w) e1 ∧
    (flag = false → ∃ ks e0, ck_Key key' ∈ ks ∧ vs = (mc_GetMulti ks e0).1.1) ∧
    (legal_key (ck_Key key') = true → time (w_ext w') < ws + d → flag = false → ∀ n, holds 0 (ck_Key key') n (ws + d) (w_ext w) →
       0 <= n < 2 ^ 31 → decode_count (vs !! ck_Key key') = n) ∧
    (∀ c k', entry c k' (w_ext w') = entry c k' e1) ∧
    (∀ k', held k' (w_ext w') → held k' e1 ∨ k' = ck_Key key' ∧ flag = false ∧
       u32 (decode_count (vs !! ck_Key key') + Max 1 h) > N).

(** The read of the count, when the local cache did not know the key. *)
Lemma fetch_counts (ks : list string) key' (flag : bool) w :
  (flag = false → ck_Key key' ∈ ks) → (∀ k, k ∈ ks → k = ck_Key key') →
  wp Err (if bool_decide (0 < length ks)%nat then GetMulti (mi_client this) ks
          else mret (∅, None)) w (λ '(vs, _) w',
    w_heap w' = w_heap w ∧ undisturbed (w_ext w) (w_ext w') ∧
    (legal_key (ck_Key key') = true → flag = false → time (w_ext w') < ws + d →
      ∀ n, holds 0 (ck_Key key') n (ws + d) (w_ext w) → 0 <= n < 2 ^ 31 →
        decode_count (vs !! ck_Key key') = n) ∧
    (flag = false → ∃ e0, vs = (mc_GetMulti ks e0).1.1)).
Proof.
  intros Hin Honly. case_bool_decide as Hks.
  - eapply wp_mono; [apply (GetMulti_counts this ks (ck_Key key') (ws + d))|].
    intros [vs err] w2 (Hh2&Hu2&Hv&Hvs). split_and!; [done|apply Hu2..| |by eauto].
    intros Hk Hflag HT. apply Hv; [by apply Hin|by intros k' ->%Honly|done].
  - apply wp_ret. assert (flag = false → False) as Hno.
    { intros Hflag. specialize (Hin Hflag). destruct ks; [by apply elem_of_nil in Hin|simpl in Hks; lia]. }
    split_and!; [done..| |]; intros; by exfalso; auto.
Qed.

Lemma DoLimit_judges key' h w :
  w_heap w !! l = Some rl → h < 2 ^ 32 →
  request_keys (mi_baseRateLimiter this) (mkRequest domain [desc] h) [Some l] w = [key'] →
  ck_Key key' ≠ "" → request_ok (mkRequest domain [desc] h) [Some l] w →
  wp Err (DoLimit this (mkRequest domain [desc] h) [Some l]) w (λ '(ss, t) w',
    judged_single key' h w ss t w').
Proof.
  intros Hl Hh32 Hkeys Hne Hreq. unfold DoLimit, judged_single. cbn [rq_HitsAddend].
  destruct (request_keyed (mi_baseRateLimiter this) _ _ w (proj1 Hreq) (proj2 Hreq)) as [Hkeyed _].
  rewrite Hkeys in Hkeyed. assert (1 <= Max 1 h < 2 ^ 32) as Hhits by (rewrite Max_max; lia).
  eapply wp_bind_Ret; [apply GenerateCacheKeys_run; apply Hreq|].
  fold (request_keys (mi_baseRateLimiter this) (mkRequest domain [desc] h) [Some l] w).
  rewrite Hkeys. cbn [rq_Descriptors length].
  destruct (unix_now (w_ext w)) as [now e0] eqn:Hnow. apply law_now in Hnow as [Hu0 Ht0]. simpl.
  eapply wp_bind; [apply (keys_to_get_ok Err this [key'])|].
  intros [flags ks] w1 ((Hh1&_&Hu1)&[Hfl Hheld]&Hf&Honly).
  simpl in Hh1, Hu1, Hheld, Hfl. destruct flags as [|flag [|]]; [done| |done].
  assert (undisturbed (w_ext w) (w_ext w1)) as Hu01 by (by etransitivity).
  eapply wp_bind; [apply (fetch_counts ks key' flag)|].
  { intros ->. apply (Hf 0%nat key'); simpl; done || lia. }
  { intros k Hk%Honly. by apply list_elem_of_singleton in Hk. }
  intros [vs err] w2 (Hh2&Hu2&Hv&Hvs). rewrite Hh1 in Hh2.
  eapply wp_bind; [apply mem_statuses_ok; [by rewrite Hh2|done]|].
  intros ss w3 (Hh3&Ht3&He3&Hho&Hl3&Hans). apply wp_ret. split; [congruence|].
  destruct ss as [|s [|]]; [done| |done].
  destruct (Hans 0%nat s eq_refl) as [(k0&[= <-]&?&_)|(k0&rl0&r&b&reset&(Hk0&_&(l0&Hl0&Hrl0)&Hr&Hb)&->)];
    [done|]. simplify_eq/=. rewrite Hh2, Hl in Hrl0. injection Hrl0 as <-.
  exists b, vs, reset, (w_ext w2). rewrite u64_small by (unfold is_u64; lia).
  assert (undisturbed (w_ext w) (w_ext w2)) as Hu02 by (by etransitivity).
  split_and!; try done.
  - destruct Hu2, Hu1. lia.
  - destruct Hu02. lia.
  - intros ->. apply Hu0. by apply (Hheld 0%nat k0).
  - intros ->. destruct (Hvs eq_refl) as [e' He']. exists ks, e'. split; [|done].
    apply (Hf 0%nat k0); simpl; done || lia.
  - intros Hleg HT Hflag n Hn Hb'. apply Hv; [done|done|lia| |done]. by eapply holds_undisturbed.
  - intros k' [?|(i&key2&rl2&r2&(Hk2&_&(l2&Hl2&Hrl2)&Hr2&Hb2)&<-&Hover)]%Hho; [by left|]. right.
    destruct i as [|i]; [|done]. simplify_eq/=. rewrite Hh2, Hl in Hrl2. by injection Hrl2 as <-.
Qed.

(** The error path: a key the client rejects is never counted against.  Where
    [GetMulti] answers a request with an illegal key by an error and no values,
    the error is only logged, and a request whose own hits are within the
    limit is let through, however many came before it. *)
Lemma DoLimit_illegal_key key' h w :
  w_heap w !! l = Some rl → h < 2 ^ 32 →
  request_keys (mi_baseRateLimiter this) (mkRequest domain [desc] h) [Some l] w = [key'] →
  ck_Key key' ≠ "" → request_ok (mkRequest domain [desc] h) [Some l] w →
  legal_key (ck_Key key') = false → ¬ held (ck_Key key') (w_ext w) →
  (∀ ks (e : E), (∃ k, k ∈ ks ∧ legal_key k = false) → (mc_GetMulti ks e).1.1 = ∅) →
  Max 1 h <= N →
  wp Err (DoLimit this (mkRequest domain [desc] h) [Some l]) w (λ '(ss, t) w',
    ∃ s, ss = [s] ∧ st_Code s = Code_OK ∧ st_LimitRemaining s = N - Max 1 h).
Proof.
  intros Hl Hh Hkeys Hne Hreq Hill Hheld Hrej HN'. eapply wp_mono; [by apply (DoLimit_judges key')|].
  intros [ss t] w' (_&flag&vs&reset&e1&_&->&_&_&Hb&_&Hvs&_). destruct flag; [by destruct Hheld; apply Hb|].
  destruct (Hvs eq_refl) as (ks&e0&Hks&->). rewrite Hrej by eauto.
  assert (0 <= Max 1 h < 2 ^ 32) by (rewrite Max_max; lia).
  eexists. split; [done|]. unfold decode_count, status_of, over_limit. rewrite lookup_empty. simpl.
  rewrite !u32_small by (unfold is_u32 in *; lia).
  rewrite bool_decide_false by lia. simpl. split; [done|]. lia.
Qed.

Lemma DoLimit_flushed_counts h w :
  w_heap w !! l = Some rl → ws <= time (w_ext w) → h < 2 ^ 32 →
  wp Err (DoLimit_flushed this (mkRequest domain [desc] h) [Some l]) w (λ ss w',
    w_heap w' = w_heap w ∧ time (w_ext w) <= time (w_ext w') ∧
    (time (w_ext w') < ws + d →
     counted N (ws + d) rl (ck_Key key) (Max 1 h) (w_ext w) ss (w_ext w'))).
Proof.
  intros Hl Hw Hh32. unfold DoLimit_flushed.
  assert (request_ok (mkRequest domain [desc] h) [Some l] w) as Hreq.
  { split; [done|]. constructor; [|done]. simpl; eauto. }
  destruct (request_keyed (mi_baseRateLimiter this) _ _ w (proj1 Hreq) (proj2 Hreq)) as [_ Hkl].
  destruct (request_keys (mi_baseRateLimiter this) (mkRequest domain [desc] h) [Some l] w)
    as [|key' [|]] eqn:Hkeys; [done| |done].
  assert (ck_Key key' ≠ "") as Hne.
  { destruct (request_keys_empty (mi_baseRateLimiter this) _ _ w 0%nat (Some l) Hreq eq_refl)
      as (k0&Hk0&Hiff). rewrite Hkeys in Hk0. injection Hk0 as <-. intros Hk. by apply Hiff in Hk. }
  eapply wp_bind; [by apply (DoLimit_judges key')|].
  intros [ss t] w1 (Hh1&flag&vs&reset&e1&->&->&Hnow1&Ht1&Hb&Hu&_&Hdec&He&Hh).
  eapply wp_bind; [apply (increaseAsync_single this key' flag l rl d (Max 1 h) (ws + d) w1);
    [done|by rewrite Hh1|done|done|lia|rewrite Max_max; lia]|].
  intros [] w2 [Hh2 Hadv]. apply wp_ret. pose proof Hadv as (Ht2&_).
  split; [congruence|]. split; [lia|]. intros HT.
  assert (time (w_ext w) <= (unix_now (w_ext w)).1) as Hnow0.
  { destruct (unix_now (w_ext w)) as [now e0] eqn:Hn. apply law_now in Hn as [_ ?]. simpl. lia. }
  rewrite mem_request_keys in Hkeys by (done || lia). injection Hkeys as <-.
  eapply counted_intro; try done; [rewrite Max_max; lia|]. apply Hdec; [done|lia].
Qed.

Lemma mem_serve_ok hs : ∀ w,
  w_heap w !! l = Some rl → ws <= time (w_ext w) → Forall (λ h, h < 2 ^ 32) hs →
  wp Err (mem_serve this domain desc l hs) w (λ sss w',
    time (w_ext w) <= time (w_ext w') ∧
    ∀ S, 0 <= S → tracked 0 (ck_Key key) N (ws + d) S (w_ext w) →
      S + sumZ (Max 1 <$> hs) < 2 ^ 31 →
      time (w_ext w') < ws + d → window_answers rl S hs sss).
Proof.
  induction hs as [|h hs IH]; intros w Hl Hw Hall; cbn [mem_serve].
  { apply wp_ret. split; [lia|]. intros. split; [done|]. simpl. lia. }
  apply Forall_cons in Hall as [Hh Hall].
  eapply wp_bind; [by apply DoLimit_flushed_counts|]. intros ss w1 (Hh1&Ht1&Hcount).
  eapply wp_bind; [apply IH; [by rewrite Hh1|lia|done]|]. intros sss w2 [Ht2 Hrest].
  apply wp_ret. split; [lia|]. intros S HS Htr Hfits HT.
  pose proof (sumZ_nonneg (Max 1 <$> hs)
    ltac:(apply Forall_fmap, Forall_true; intros; simpl; rewrite Max_max; lia)).
  rewrite fmap_cons, sumZ_cons in Hfits. assert (0 <= Max 1 h) by (rewrite Max_max; lia).
  destruct (Hcount ltac:(lia) S HS ltac:(lia) Htr) as (Htr'&r&flag&reset&->&Hiff&Heq).
  apply window_answers_cons; [apply status_of_window; done || lia|].
  apply Hrest; done || lia.
Qed.
End sequence.
End counts.

(** C16: the memcached limiter implements the same fixed window when each
    request's increments are flushed before the next.  Provided memcached is
    reachable and the key is one its client accepts (at most 250 bytes), that the
    total of the hits is below 2^31 (the stored count is parsed as a signed
    32-bit number) and the configured jitter at most 2000000 seconds: from a
    fresh key, a sequence of requests that finishes within one window is
    answered by the running total of hits.  The limiter never panics. *)
Theorem mem_DoLimit_admission `{MemcacheLaws E} `{!MemcacheUp E} this domain desc l rl d ws
    (hs : list Z) (w : World E) :
  let key := window_key (mi_baseRateLimiter this) domain desc rl ws in
  legal_key (ck_Key key) = true → mi_expirationJitterMaxSeconds this <= 2000000 →
  w_heap w !! l = Some rl → unit_seconds (pl_Unit (rl_Limit rl)) = Some d →
  is_u32 (pl_RequestsPerUnit (rl_Limit rl)) → Forall (λ h, h < 2 ^ 32) hs →
  sumZ (Max 1 <$> hs) < 2 ^ 31 → 0 <= ws <= time (w_ext w) → window_start ws d = ws →
  entry 0 (ck_Key key) (w_ext w) = None → ¬ held (ck_Key key) (w_ext w) →
  wp (λ _, False) (mem_serve this domain desc l hs) w (λ sss w',
    time (w_ext w') < ws + d → window_answers rl 0 hs sss).
Proof.
  intros key Hlegal Hj Hl Hd HN Hall Hfits Hws Hwin Hentry Hheld.
  eapply wp_mono; [eapply (mem_serve_ok _ this domain desc l rl d ws); done || lia|].
  intros sss w' [_ Hans] HT. apply Hans; [lia| |lia|done]. by apply tracked_fresh.
Qed.

(** ** The task pool runs every task exactly once *)

Section pool.
Context {T : Type}.
Implicit Types p : pool T.

(** What a submission and the workers' own steps do to [done ++ running]. *)
Lemma running_app l1 l2 d :
  running (mkPool (l1 ++ l2) d) = running (mkPool l1 d) ++ running (T:=T) (mkPool l2 d).
Proof. unfold running; simpl. by rewrite omap_app. Qed.

Lemma runAsync_adds t p p' :
  runAsync t p p' → pl_done p' = pl_done p ∧ running p' ≡ₚ t :: running p.
Proof.
  destruct 1 as [l1 n l2 d|ws d Hbusy].
  - split; [done|]. rewrite !running_app. unfold running; simpl. by rewrite Permutation_middle.
  - split; [done|]. rewrite running_app. unfold running; simpl. by rewrite Permutation_app_comm.
Qed.

Lemma pool_step_keeps p p' :
  pool_step p p' → pl_done p' ++ running p' ≡ₚ pl_done p ++ running p.
Proof.
  destruct 1 as [l1 t n l2 d|l1 n l2 d Hn|l1 l2 d]; rewrite !running_app; unfold running; simpl;
    [|done..]. rewrite <-!app_assoc. apply Permutation_app_head. simpl. by rewrite Permutation_middle.
Qed.
End pool.

(** Submissions and worker steps in any order; the list is what was submitted. *)
Inductive pool_run {T : Type} : pool T → list T → pool T → Prop :=
  | run_done p : pool_run p [] p
  | run_submit t ts p p' p'' : runAsync t p p' → pool_run p' ts p'' → pool_run p (t :: ts) p''
  | run_work ts p p' p'' : pool_step p p' → pool_run p' ts p'' → pool_run p ts p''.

Lemma pool_run_keeps {T} (p0 p : pool T) ts :
  pool_run p0 ts p → pl_done p ++ running p ≡ₚ ts ++ pl_done p0 ++ running p0.
Proof.
  induction 1 as [p0|t ts0 p0 p1 p2 Hsub _ IH|ts0 p0 p1 p2 Hst _ IH]; [done| |].
  - rewrite IH. apply runAsync_adds in Hsub as [-> ->]. simpl. by rewrite <-!Permutation_middle.
  - rewrite IH. by rewrite (pool_step_keeps _ _ Hst).
Qed.

Lemma running_busy {T} (ws : list (worker T)) dn :
  running (mkPool ws dn) ≠ [] → ∃ l1 t k l2, ws = l1 ++ Busy t k :: l2.
Proof.
  unfold running; simpl. induction ws as [|[t k|k] ws IH]; simpl; [done|by exists [], t, k, ws|].
  intros Hne. destruct (IH Hne) as (l1&t&k'&l2&->). by exists (Idle k :: l1), t, k', l2.
Qed.

(** The running tasks can be brought to their end. *)
Lemma pool_drains {T} n : ∀ p : pool T,
  length (running p) = n → ∃ p', rtc pool_step p p' ∧ running p' = [].
Proof.
  induction n as [|n IH]; intros p Hn.
  { exists p. split; [done|]. by apply nil_length_inv. }
  destruct p as [ws dn]. destruct (running_busy ws dn) as (l1&t&k&l2&->); [by intros E; rewrite E in Hn|].
  destruct (IH (mkPool (l1 ++ Idle k :: l2) (dn ++ [t]))) as (p'&Hp'&Hr).
  - rewrite running_app in Hn |- *. unfold running in *. simpl in *.
    rewrite length_app in *. simpl in Hn. lia.
  - exists p'. split; [|done]. eapply rtc_l; [apply worker_finish|done].
Qed.

(** No increment is lost or repeated by the pool: however submissions, task
    ends, ticks and worker exits interleave, the tasks finished and running are
    exactly those submitted, and the running ones can always be brought to their
    end (so waiting for them ends). *)
Theorem runAsync_exactly_once {T : Type} (ts : list T) (p : pool T) :
  pool_run (mkPool [] []) ts p →
  pl_done p ++ running p ≡ₚ ts ∧
  ∃ p', rtc pool_step p p' ∧ running p' = [] ∧ pl_done p' ≡ₚ ts.
Proof.
  intros Hrun%pool_run_keeps. simpl in Hrun. rewrite app_nil_r in Hrun. split; [done|].
  destruct (pool_drains _ p eq_refl) as (p'&Hp'&Hr). exists p'. split; [done|]. split; [done|].
  assert (pl_done p' ++ running p' ≡ₚ pl_done p ++ running p) as Hk.
  { clear Hr Hrun. induction Hp' as [|x y z Hs _ IH]; [done|]. rewrite IH. by apply pool_step_keeps. }
  by rewrite Hr, app_nil_r, Hrun in Hk.
Qed.

Lemma runAsync_exactly_once_witness :
  ∃ p : pool nat, pool_run (mkPool [] []) [1; 2]%nat p ∧ pl_done p ++ running p ≡ₚ [1; 2]%nat.
Proof.
  exists (mkPool [Busy 2%nat 1%nat] [1%nat]).
  assert (pool_run (mkPool [] []) [1; 2]%nat (mkPool [Busy 2%nat 1%nat] [1%nat])) as Hrun.
  { eapply run_submit; [by apply (submit_spawn 1%nat [] [])|].
    eapply run_work; [apply (worker_finish [] 1%nat 0%nat [] [])|].
    eapply run_submit; [apply (submit_handoff 2%nat [] 0%nat [] [1%nat])|]. apply run_done. }
  split; [exact Hrun|]. apply (runAsync_exactly_once [1; 2]%nat _ Hrun).
Defined.

(** Steps left to a worker that is given nothing more to do. *)
Definition worker_steps {T} (w : worker T) : nat :=
  match w with Busy _ _ => 3 | Idle n => if decide (n = 0%nat) then 1 else 2 end.

Definition steps_left {T} (p : pool T) : nat := sum_list_with worker_steps (pl_workers p).

Lemma pool_step_decreases {T} (p p' : pool T) : pool_step p p' → (steps_left p' < steps_left p)%nat.
Proof.
  unfold steps_left. destruct 1 as [l1 t n l2 d|l1 n l2 d Hn|l1 l2 d]; cbn [pl_workers];
    rewrite !sum_list_with_app; simpl; repeat case_decide; lia.
Qed.

Lemma steps_left_bound {T} (p : pool T) : (steps_left p <= 3 * length (pl_workers p))%nat.
Proof.
  destruct p as [ws d]. unfold steps_left; simpl. induction ws as [|[t n|n] ws IH]; simpl; try case_decide; lia.
Qed.

(** A worker can always go on. *)
Lemma pool_stuck {T} (p : pool T) : (∀ p', ¬ pool_step p p') → pl_workers p = [].
Proof.
  destruct p as [[|w ws] d]; [done|]. intros Hs. exfalso. destruct w as [t n|[|n]].
  - apply (Hs _ (worker_finish [] t n ws d)).
  - apply (Hs _ (worker_exit [] ws d)).
  - apply (Hs _ (worker_tick [] (S n) ws d ltac:(lia))).
Qed.

(** C26: the pool does not leak goroutines.  Once nothing more is submitted, the
    workers make at most three steps each (finish the task, one tick that resets
    the count, one that ends the worker), in whatever order; and when none can
    step, no worker is left and every task that was ever submitted was done
    exactly once. *)
Theorem runAsync_terminates {T : Type} (ts : list T) (p : pool T) :
  pool_run (mkPool [] []) ts p →
  (∀ n p', nsteps pool_step n p p' → (n <= 3 * length (pl_workers p))%nat) ∧
  (∀ p', rtc pool_step p p' → (∀ p'', ¬ pool_step p' p'') → pl_workers p' = [] ∧ pl_done p' ≡ₚ ts).
Proof.
  intros Hrun%pool_run_keeps. simpl in Hrun. rewrite app_nil_r in Hrun. split.
  - intros n p' Hn. enough (n + steps_left p' <= steps_left p)%nat by (pose proof (steps_left_bound p); lia).
    clear Hrun. induction Hn as [|n x y z Hs%pool_step_decreases _ IH]; lia.
  - intros p' Hp' Hs%pool_stuck. split; [done|].
    assert (pl_done p' ++ running p' ≡ₚ pl_done p ++ running p) as Hk.
    { clear Hrun Hs. induction Hp' as [|x y z Hst _ IH]; [done|]. rewrite IH. by apply pool_step_keeps. }
    unfold running at 1 in Hk. rewrite Hs, app_nil_r in Hk. by rewrite Hk.
Qed.

Lemma runAsync_terminates_witness :
  ∃ p p' : pool nat, pool_run (mkPool [] []) [7]%nat p ∧ rtc pool_step p p' ∧
    pl_workers p' = [] ∧ pl_done p' ≡ₚ [7]%nat.
Proof.
  assert (pool_run (mkPool [] []) [7]%nat (mkPool [Busy 7%nat 0%nat] [])) as Hrun.
  { eapply run_submit; [by apply (submit_spawn 7%nat [] [])|]. apply run_done. }
  exists (mkPool [Busy 7%nat 0%nat] []), (mkPool [] [7%nat]).
  assert (rtc pool_step (mkPool [Busy 7%nat 0%nat] []) (mkPool [] [7%nat])) as Hsteps.
  { eapply rtc_l; [apply (worker_finish [] 7%nat 0%nat [] [])|].
    eapply rtc_l; [apply (worker_exit [] [] [7%nat])|]. done. }
  split; [exact Hrun|]. split; [exact Hsteps|].
  apply (proj2 (runAsync_terminates [7]%nat _ Hrun) _ Hsteps). intros p'' Hs.
  apply pool_step_decreases in Hs. unfold steps_left in Hs. simpl in Hs. lia.
Defined.

(** ** On a simulated memcached: client 0 of the simulated store *)

Fixpoint sim_get (keys : list string) (s : Sim) : gmap string string :=
  match keys with
  | [] => ∅
  | k :: keys' =>
      let o := sim_redis s !! (0%nat, k) in
      if live (sim_time s) o
      then <[k := FormatInt (count_at (sim_time s) o)]> (sim_get keys' s) else sim_get keys' s
  end.

Definition sim_set (k : string) (v : Z * option Z) (s : Sim) : Sim :=
  mkSim (sim_time s) (sim_local s) (<[(0%nat, k) := v]> (sim_redis s)).

#[export] Instance sim_memcache : Memcache Sim := {|
  mc_GetMulti keys s := ((sim_get keys s, None), s);
  mc_Increment k d s :=
    let o := sim_redis s !! (0%nat, k) in
    if live (sim_time s) o
    then ((count_at (sim_time s) o + d, None),
          sim_set k (count_at (sim_time s) o + d, o ≫= snd) s)
    else ((0, Some ErrCacheMiss), s);
  mc_Add item s :=
    if live (sim_time s) (sim_redis s !! (0%nat, it_Key item)) then (Some ErrNotStored, s)
    else (None, sim_set (it_Key item)
                  (default 0 (ParseInt (it_Value item) 64), Some (sim_time s + it_Expiration item)) s);
|}.

Lemma sim_get_lookup keys s k :
  sim_get keys s !! k =
    let o := sim_redis s !! (0%nat, k) in
    if decide (k ∈ keys) then
      if live (sim_time s) o then Some (FormatInt (count_at (sim_time s) o)) else None
    else None.
Proof.
  cbv zeta. induction keys as [|k' keys IH]; cbn [sim_get].
  { destruct (decide (k ∈ [])) as [Hin|]; [by apply elem_of_nil in Hin|done]. }
  destruct (decide (k = k')) as [->|Hne].
  - destruct (decide (k' ∈ k' :: keys)) as [_|Hn]; [|by destruct Hn; left].
    destruct (live _ _); [by rewrite lookup_insert_eq|]. rewrite IH. by case_decide.
  - assert (sim_get (k' :: keys) s !! k = sim_get keys s !! k) as Heq.
    { cbn [sim_get]. destruct (live (sim_time s) (sim_redis s !! (0%nat, k'))); [|done].
      apply lookup_insert_ne. congruence. }
    cbn [sim_get] in Heq. rewrite Heq, IH.
    destruct (decide (k ∈ keys)) as [Hin|Hnin], (decide (k ∈ k' :: keys)) as [Hin'|Hnin']; try done.
    + by destruct Hnin'; right.
    + by apply elem_of_cons in Hin' as [?|?].
Qed.

Lemma sim_set_other k v s c k' :
  (c, k') ≠ (0%nat, k) → sim_redis (sim_set k v s) !! (c, k') = sim_redis s !! (c, k').
Proof. intros Hne. simpl. by rewrite lookup_insert_ne. Qed.

#[export] Instance sim_memcache_laws : MemcacheLaws Sim.
Proof.
  split; [apply _|..].
  - intros keys e vs err e' [= <- <- <-]. split; [done|]. intros _ k Hk.
    exists (time e). split; [simpl; lia|]. rewrite sim_get_lookup. by rewrite decide_True.
  - intros k d e v err e'. simpl. destruct (live (sim_time e) (sim_redis e !! (0%nat, k))) eqn:Hl;
      intros [= <- <- <-]; (split_and!; [simpl; lia|done|by intros; rewrite ?sim_set_other|]);
      exists (sim_time e); (split; [simpl; lia|]); simpl; [|done].
    split; [done|]. by rewrite lookup_insert_eq.
  - intros k v exp e err e'. simpl. destruct (live (sim_time e) (sim_redis e !! (0%nat, k))) eqn:Hl;
      intros [= <- <-] Hv; (split_and!; [simpl; lia|done|by intros; rewrite ?sim_set_other|]);
      exists (sim_time e); (split; [simpl; lia|]); simpl; [done|].
    split; [done|]. intros _. rewrite lookup_insert_eq.
    rewrite ParseInt_FormatInt by lia. by rewrite bool_decide_true by (simpl; lia).
Qed.

#[export] Instance sim_memcache_up : MemcacheUp Sim.
Proof.
  split; [done|..]; intros; simpl; by destruct (live _ _).
Qed.

Definition sim_mem : rateLimitMemcacheImpl :=
  NewRateLimitCacheImpl (CollectStats (mkScope ["ratelimit"; "memcache"] [])) 300 true ratio_default "".

(** Five per minute, two hits a request. *)
Lemma mem_DoLimit_admission_witness :
  let rl := mkRateLimit "d.a" (rl_Stats example_rl) (mkPbRateLimit 5 MINUTE "") false false "" [] false in
  let desc := mkDescriptor [mkEntry "a" "x"] None in
  ∃ sss w', mem_serve sim_mem "d" desc 0%nat [2; 2; 2; 2] (mkWorld [rl] ∅ (mkSim 100 ∅ ∅)) =
      (Ret sss, w') ∧ window_answers rl 0 [2; 2; 2; 2] sss.
Proof.
  intros rl desc.
  pose proof (mem_DoLimit_admission sim_mem "d" desc 0%nat rl 60 60 [2; 2; 2; 2]
    (mkWorld [rl] ∅ (mkSim 100 ∅ ∅)) ltac:(by vm_compute) ltac:(by vm_compute) eq_refl eq_refl ltac:(by vm_compute)
    ltac:(by repeat constructor) ltac:(by vm_compute) ltac:(by vm_compute) eq_refl eq_refl
    ltac:(by vm_compute)) as Hans.
  assert (match mem_serve sim_mem "d" desc 0%nat [2; 2; 2; 2] (mkWorld [rl] ∅ (mkSim 100 ∅ ∅)) with
          | (Ret _, w') => sim_time (w_ext w') <? 120
          | _ => false
          end = true) as Hret by (vm_compute; reflexivity).
  unfold wp in Hans. revert Hans Hret.
  destruct (mem_serve sim_mem "d" desc 0%nat [2; 2; 2; 2] (mkWorld [rl] ∅ (mkSim 100 ∅ ∅)))
    as [[sss|p|c] w']; [|intros _ [=]..].
  intros Hans Ht%Z.ltb_lt. exists sss, w'. split; [reflexivity|]. by apply Hans.
Defined.

(** ** Counts of 2^31 and more are read as zero *)

(** C39: the stored count is parsed as a signed 32-bit number although the
    limiter counts in unsigned 32-bit numbers: it is read exactly below 2^31 and
    as 0 from there on.  So a request far over its limit can be let through. *)
Theorem mem_DoLimit_large_count_admitted :
  (∀ n : N, decode_count (Some (FormatInt (Z.of_N n))) =
     if bool_decide (Z.of_N n < 2 ^ 31) then Z.of_N n else 0) ∧
  let rl := mkRateLimit "d.a" (rl_Stats example_rl) (mkPbRateLimit 5 MINUTE "") false false "" [] false in
  let desc := mkDescriptor [mkEntry "a" "x"] None in
  match DoLimit sim_mem (mkRequest "d" [desc] 1) [Some 0%nat]
          (mkWorld [rl] ∅ (mkSim 100 ∅ {[ (0%nat, "d_a_x_60") := (2 ^ 31, Some 130) ]})) with
  | (Ret ([s], _), _) => st_Code s = Code_OK ∧ st_LimitRemaining s = 4
  | _ => False
  end.
Proof.
  split; [|by vm_compute]. intros n. unfold decode_count. rewrite ParseInt_FormatInt by lia.
  change (2 ^ (32 - 1)) with (2 ^ 31). case_bool_decide; [|done]. apply u32_small. unfold is_u32. lia.
Qed.
