(* ===== verification/ReadOnly.v ===== *)
(** * The limiters only read the limits

    A backend is handed pointers to the limits of the configuration.  Whatever it
    returns, and also when it panics, it leaves the limits as they are: the one
    writer is [GetLimit].  Shown for both backends by a closure property of the
    monad ([keeps]). *)

From S2P Require Import Prelude GoStrings World Utils Limiter LimiterSpec Redis Memcached.

#[local] Open Scope Z_scope.

Section keeps.
Context {E : Type}.
#[local] Abbreviation W := (World E).

(** [m] leaves the heap as it is, however it ends. *)
Definition keeps {A} (m : M W A) : Prop := ∀ w, w_heap (m w).2 = w_heap w.

Lemma keeps_ret {A} (a : A) : keeps (mret a).
Proof. by intros w. Qed.

Lemma keeps_throw {A} p : keeps (throw (A := A) p).
Proof. by intros w. Qed.

Lemma keeps_bind {A B} (m : M W A) (f : A → M W B) : keeps m → (∀ a, keeps (f a)) → keeps (m ≫= f).
Proof.
  intros Hm Hf w. specialize (Hm w). unfold mbind, M_bind. destruct (m w) as [[a|p|c] w']; simpl in *; [|done..].
  by rewrite Hf.
Qed.

Lemma keeps_range {A S} (l : list A) (s : S) (body : nat → A → S → M W S) :
  (∀ i x s, keeps (body i x s)) → keeps (range l s body).
Proof.
  intros Hb. unfold range. generalize 0%nat. revert s. induction l as [|x l IH]; intros s i; [apply keeps_ret|].
  cbn [range_from]. apply keeps_bind; [apply Hb|]. intros s'. apply IH.
Qed.

Lemma keeps_ext {A} (f : E → A * E) : keeps (ext f).
Proof. intros w. unfold ext. by destruct (f (w_ext w)). Qed.

Lemma keeps_Add c v : keeps (Add c v).
Proof. by intros w. Qed.

Lemma keeps_index {A} (l : list A) i : keeps (index l i).
Proof. intros w. unfold index. by destruct (l !! i). Qed.

Lemma keeps_non_nil {A} (o : option A) : keeps (non_nil o).
Proof. intros w. by destruct o. Qed.

Lemma keeps_load l : keeps (load l).
Proof. intros w. unfold load. by destruct (w_heap w !! l). Qed.
End keeps.

Create HintDb keeps.
#[export] Hint Resolve keeps_ret keeps_throw keeps_ext keeps_Add keeps_index keeps_non_nil keeps_load : keeps.

(** Goes through a body: binds, loops and branches. *)
Ltac keeps :=
  repeat first
    [ progress auto with keeps
    | apply keeps_bind; [|intros ?]
    | apply keeps_range; intros ? ? ?
    | match goal with
      | |- keeps (match ?x with _ => _ end) => destruct x
      | |- keeps (let '_ := ?x in _) => destruct x
      end ].

Section base.
Context {E : Type} `{TimeSource E} `{FreeCache E}.
#[local] Abbreviation W := (World E).

Lemma keeps_deref o : keeps (E := E) (deref o).
Proof. unfold deref. keeps. Qed.

Lemma keeps_UnitToDivider u : keeps (E := E) (UnitToDivider u).
Proof. unfold UnitToDivider. keeps. Qed.

Lemma keeps_CalculateReset u : keeps (E := E) (CalculateReset u).
Proof. pose proof keeps_UnitToDivider. unfold CalculateReset, UnixNow. keeps. Qed.
#[local] Hint Resolve keeps_deref keeps_UnitToDivider keeps_CalculateReset : keeps.

Lemma keeps_GenerateCacheKeys this req limits hits : keeps (E := E) (GenerateCacheKeys this req limits hits).
Proof. unfold GenerateCacheKeys, Assert, UnixNow, GenerateCacheKey. keeps. Qed.

Lemma keeps_IsOver this key : keeps (E := E) (IsOverLimitWithLocalCache this key).
Proof. unfold IsOverLimitWithLocalCache. keeps. Qed.

Lemma keeps_GetResponseDescriptorStatus this key li cached hits :
  keeps (E := E) (GetResponseDescriptorStatus this key li cached hits).
Proof.
  unfold GetResponseDescriptorStatus, generateResponseDescriptorStatus, checkOverLimitThreshold,
    checkNearLimitThreshold, increaseShadowModeStats. keeps.
Qed.
End base.

#[export] Hint Resolve keeps_deref keeps_UnitToDivider keeps_GenerateCacheKeys keeps_IsOver
  keeps_GetResponseDescriptorStatus : keeps.

(** ** The redis backend *)

Section redis.
Context {E : Type} `{TimeSource E} `{FreeCache E} `{JitterRand E} `{Radix E}.

Lemma keeps_pipe_do_each c p slots : keeps (E := E) (pipe_do_each c p slots).
Proof. revert slots. induction p; intros slots; cbn [pipe_do_each]; unfold Do; keeps. Qed.
#[local] Hint Resolve keeps_pipe_do_each : keeps.

Lemma keeps_run_pipeline c p slots : keeps (E := E) (run_pipeline c p slots).
Proof. unfold run_pipeline, PipeDo, Do, checkError. keeps. Qed.
#[local] Hint Resolve keeps_run_pipeline : keeps.

Lemma keeps_redis_DoLimit this req limits : keeps (E := E) (Redis.DoLimit this req limits).
Proof.
  unfold Redis.DoLimit, check_stop, check_local_and_get, check_thresholds, check_local, setup_pipelines,
    statuses, expiration, IsOverLimitThresholdReached. keeps.
Qed.
End redis.

(** ** The memcached backend *)

Section memcached.
Context {E : Type} `{TimeSource E} `{FreeCache E} `{JitterRand E} `{Memcache E}.

Lemma keeps_mem_DoLimit this req limits : keeps (E := E) (DoLimit_flushed this req limits).
Proof.
  unfold DoLimit_flushed, DoLimit, keys_to_get, GetMulti, mem_statuses, increaseAsync, increase_key,
    Increment, AddItem, Inc. keeps.
Qed.
End memcached.

(** ** What the service may rely on *)

Class CacheKeeps (E C : Type) `{RateLimitCache E C} : Prop :=
  cache_keeps c req limits : keeps (cache_DoLimit (E := E) (C := C) c req limits).

#[export] Instance fixed_CacheKeeps `{TimeSource E, FreeCache E, JitterRand E, Radix E} :
  CacheKeeps E fixedRateLimitCacheImpl.
Proof. intros c req limits. apply keeps_redis_DoLimit. Qed.

#[export] Instance mem_CacheKeeps `{TimeSource E, FreeCache E, JitterRand E, Memcache E} :
  CacheKeeps E rateLimitMemcacheImpl.
Proof. intros c req limits. apply keeps_mem_DoLimit. Qed.
