(* ===== verification/MemcachedAsync.v ===== *)
(** * Requests in flight: the memcached limiter with its tasks running later

    [DoLimit] answers from the count it reads and leaves the increment to a task,
    so requests and tasks interleave.  The system is a step relation: a step runs
    the code of a request up to its read, the read, the verdicts, or one call of a
    task to memcached (the increment, the add after a miss, the second increment
    after a lost race).  Whatever the interleaving, every task adds its hits
    exactly once, and the hits admitted in a window exceed the limit by no more
    than the hits in flight. *)

From S2P Require Import Prelude GoStrings World Utils Stats Limiter LimiterSpec CountSpec.
From S2P Require Import Simulated Memcached MemcachedSpec.
From stdpp Require Import relations.

#[local] Open Scope Z_scope.

(** ** The phases of a request and of its task *)

(** Where [increaseAsync] stands with its next key. *)
Inductive stage : Set :=
  | Incrementing
  | Adding (expirationSeconds : Z)
  | Retrying.

Inductive mem_phase : Type :=
  | MArrived
  | MFetching (keys : list CacheKey) (flags : list bool) (keysToGet : list string)
  | MJudging (keys : list CacheKey) (flags : list bool) (vs : gmap string string)
  | MCounting (ss : list DescriptorStatus) (t : increase_task) (todo : list (string * option loc)) (s : stage).

Record mem_thread : Type := mkMemThread { mt_hits : Z; mt_phase : mem_phase }.

Definition mhits (th : mem_thread) : Z := Max 1 (mt_hits th).

(** The keys a task counts, with their limits. *)
Definition task_todo (t : increase_task) : list (string * option loc) :=
  omap (λ '(key, (flag, limit)),
    if decide (ck_Key key = "") then None else if flag : bool then None else Some (ck_Key key, limit))
    (zip (tk_cacheKeys t) (zip (tk_isOverLimitWithLocalCache t) (tk_limits t))).

Record mem_system (E : Type) : Type := mkMemSystem {
  ms_world : World E;
  ms_threads : list mem_thread;
}.
Arguments mkMemSystem {_} _ _.
Arguments ms_world {_} _.
Arguments ms_threads {_} _.

Section system.
Context {E : Type} `{MemcacheLaws E}.
Context (this : rateLimitMemcacheImpl) (domain : string) (desc : Descriptor) (l : loc).
#[local] Abbreviation W := (World E).
Implicit Types w : W.

(** The code of [DoLimit] before its read. *)
Definition mem_prepare (request : RateLimitRequest) (limits : list (option loc))
  : M W (list CacheKey * list bool * list string) :=
  cacheKeys ← GenerateCacheKeys (mi_baseRateLimiter this) request limits (Max 1 (rq_HitsAddend request));
  '(isOverLimitWithLocalCache, keysToGet) ← keys_to_get this cacheKeys (length (rq_Descriptors request));
  mret (cacheKeys, isOverLimitWithLocalCache, keysToGet).

(** The read. *)
Definition mem_fetch (keysToGet : list string) : M W (gmap string string * option mc_error) :=
  if bool_decide (0 < length keysToGet)%nat then GetMulti (mi_client this) keysToGet else mret (∅, None).

(** What [increaseAsync] does after a miss, before it adds the key. *)
Definition miss_expiration (limit : option loc) : M W Z :=
  rl ← deref limit;
  expirationSeconds ← UnitToDivider (pl_Unit (rl_Limit rl));
  if bool_decide (mi_expirationJitterMaxSeconds this > 0) then
    r ← ext (int63n (mi_expirationJitterMaxSeconds this));
    mret (i64 (expirationSeconds + r))
  else mret expirationSeconds.

(** One call of a task to memcached, for the key [key] with [limit]: the stage
    to go on with, or nothing when the key is dealt with. *)
Definition task_call (key : string) (limit : option loc) (hitsAddend : Z) (s : stage) : M W (option stage) :=
  match s with
  | Incrementing =>
      '(_, err) ← Increment (mi_client this) key hitsAddend;
      match err with
      | Some ErrCacheMiss => exp ← miss_expiration limit; mret (Some (Adding exp))
      | _ => mret None
      end
  | Adding exp =>
      err ← AddItem (mi_client this) (mkItem key (FormatInt hitsAddend) (i32 exp));
      match err with
      | Some ErrNotStored => mret (Some Retrying)
      | _ => mret None
      end
  | Retrying =>
      _ ← Increment (mi_client this) key hitsAddend;
      mret None
  end.

Definition request_for (th : mem_thread) : RateLimitRequest := mkRequest domain [desc] (mt_hits th).

Definition after_call (todo : list (string * option loc)) (o : option stage)
  : list (string * option loc) * stage :=
  match o with
  | Some s => (todo, s)
  | None => (tail todo, Incrementing)
  end.

Definition move (sys : mem_system E) (t : nat) (th : mem_thread) w (ph : mem_phase) : mem_system E :=
  mkMemSystem w (<[t := mkMemThread (mt_hits th) ph]> (ms_threads sys)).

(** Request [t] is in phase [ph]. *)
Definition at_phase (sys : mem_system E) (t : nat) (th : mem_thread) (ph : mem_phase) : Prop :=
  ms_threads sys !! t = Some th ∧ mt_phase th = ph.

(** The index tells the reads from the other steps. *)
Inductive mem_step : bool → mem_system E → mem_system E → Prop :=
  | ms_prepare sys t th keys flags ks w' :
      at_phase sys t th MArrived →
      mem_prepare (request_for th) [Some l] (ms_world sys) = (Ret (keys, flags, ks), w') →
      mem_step false sys (move sys t th w' (MFetching keys flags ks))
  | ms_fetch sys t th keys flags ks vs err w' :
      at_phase sys t th (MFetching keys flags ks) →
      mem_fetch ks (ms_world sys) = (Ret (vs, err), w') →
      mem_step true sys (move sys t th w' (MJudging keys flags vs))
  | ms_judge sys t th keys flags vs ss w' :
      at_phase sys t th (MJudging keys flags vs) →
      mem_statuses this keys [Some l] (mhits th) vs flags (ms_world sys) = (Ret ss, w') →
      let task := mkTask keys flags [Some l] (u64 (mhits th)) in
      mem_step false sys (move sys t th w' (MCounting ss task (task_todo task) Incrementing))
  | ms_call sys t th ss task key limit todo s o w' :
      at_phase sys t th (MCounting ss task ((key, limit) :: todo) s) →
      task_call key limit (tk_hitsAddend task) s (ms_world sys) = (Ret o, w') →
      let next := after_call ((key, limit) :: todo) o in
      mem_step false sys (move sys t th w' (MCounting ss task next.1 next.2))
  | ms_idle sys e' :
      undisturbed (w_ext (ms_world sys)) e' →
      mem_step false sys (mkMemSystem (mkWorld (w_heap (ms_world sys)) (w_counters (ms_world sys)) e')
                            (ms_threads sys)).

(** ** [DoLimit] and [increaseAsync] are runs of the system *)

Definition mem_run : relation (mem_system E) := rtc (λ sys sys', ∃ f, mem_step f sys sys').

Lemma at_phase_move sys t th ph w ph' :
  at_phase sys t th ph → at_phase (move sys t th w ph') t (mkMemThread (mt_hits th) ph') ph'.
Proof. intros [Ht _]. split; [|done]. apply list_lookup_insert_eq. by eapply lookup_lt_Some. Qed.

Lemma move_move sys t th w ph w' ph' :
  move (move sys t th w ph) t (mkMemThread (mt_hits th) ph) w' ph' = move sys t th w' ph'.
Proof. unfold move; simpl. by rewrite list_insert_insert_eq. Qed.

Lemma mem_DoLimit_runs sys t th ss task w' :
  at_phase sys t th MArrived →
  DoLimit this (request_for th) [Some l] (ms_world sys) = (Ret (ss, task), w') →
  mem_run sys (move sys t th w' (MCounting ss task (task_todo task) Incrementing)).
Proof.
  intros Hat Hrun. unfold DoLimit in Hrun. minv Hrun as (keys&w1&Hkeys&Hrun).
  minv Hrun as ([flags ks]&w2&Hget&Hrun). minv Hrun as ([vs err]&w3&Hfetch&Hrun).
  minv Hrun as (ss'&w4&Hss&Hrun). injection Hrun as <- <- <-.
  eapply rtc_l.
  { exists false. eapply ms_prepare; [done|]. unfold mem_prepare. erewrite bind_Ret by exact Hkeys.
    erewrite bind_Ret by exact Hget. reflexivity. }
  eapply rtc_l; [exists true; eapply ms_fetch; [by eapply at_phase_move|exact Hfetch]|].
  rewrite move_move. apply rtc_once. exists false. rewrite <-(move_move sys t th w3 (MJudging keys flags vs) w4).
  eapply ms_judge; [by eapply at_phase_move|exact Hss].
Qed.

(** The calls of [increase_key], one after the other. *)
Lemma increase_key_calls key limit hits w :
  increase_key this key limit hits w =
    (o ← task_call key limit hits Incrementing;
     match o with
     | None => mret ()
     | Some s =>
         o ← task_call key limit hits s;
         match o with
         | None => mret ()
         | Some s => _ ← task_call key limit hits s; mret ()
         end
     end) w.
Proof.
  unfold increase_key, task_call, miss_expiration, mbind, M_bind, mret, M_ret.
  destruct (Increment _ key hits w) as [[[v [[]|]]|?|?] w1]; try done.
  destruct (deref limit w1) as [[rl|?|?] w2]; [|done..].
  destruct (UnitToDivider _ w2) as [[d|?|?] w3]; [|done..].
  destruct (bool_decide _); [destruct (ext _ w3) as [[r|?|?] w4]; [|done..]|]; simpl;
    destruct (AddItem _ _ _) as [[[[]|]|?|?] w5]; try done;
    by destruct (Increment _ key hits w5) as [[[v' err]|?|?] w6].
Qed.

(** A task makes at most three calls for a key. *)
Definition stage_rank (s : stage) : nat :=
  match s with Incrementing => 0 | Adding _ => 1 | Retrying => 2 end.

Lemma task_call_next key limit hits s s' w w' :
  task_call key limit hits s w = (Ret (Some s'), w') → stage_rank s' = S (stage_rank s).
Proof.
  intros Hc. destruct s as [|exp|]; simpl in Hc.
  - minv Hc as ([v [[]|]]&w1&_&Hc); try done. minv Hc as (exp&w2&_&Hc). by injection Hc as <- _.
  - minv Hc as ([[]|]&w1&_&Hc); try done. by injection Hc as <- _.
  - by minv Hc as (r&w1&_&Hc).
Qed.

Lemma ms_call_move sys t th ss task key limit todo s o w w' ph :
  at_phase sys t th ph → task_call key limit (tk_hitsAddend task) s w = (Ret o, w') →
  let next := after_call ((key, limit) :: todo) o in
  mem_run (move sys t th w (MCounting ss task ((key, limit) :: todo) s))
    (move sys t th w' (MCounting ss task next.1 next.2)).
Proof.
  intros Hat Hcall next. apply rtc_once. exists false.
  rewrite <-(move_move sys t th w (MCounting ss task ((key, limit) :: todo) s) w').
  eapply ms_call; [by eapply at_phase_move|exact Hcall].
Qed.

Lemma increase_key_runs sys t th ss task key limit todo w w' ph :
  at_phase sys t th ph → increase_key this key limit (tk_hitsAddend task) w = (Ret tt, w') →
  mem_run (move sys t th w (MCounting ss task ((key, limit) :: todo) Incrementing))
    (move sys t th w' (MCounting ss task todo Incrementing)).
Proof.
  intros Hat Hrun. rewrite increase_key_calls in Hrun. minv Hrun as (o1&w1&Hc1&Hrun).
  etrans; [by eapply ms_call_move|]. destruct o1 as [s1|]; simpl; [|by injection Hrun as <-].
  minv Hrun as (o2&w2&Hc2&Hrun). etrans; [by eapply ms_call_move|].
  destruct o2 as [s2|]; simpl; [|by injection Hrun as <-]. minv Hrun as (o3&w3&Hc3&Hrun).
  assert (o3 = None) as ->.
  { destruct o3 as [s3|]; [|done]. apply task_call_next in Hc1, Hc2, Hc3.
    rewrite Hc2, Hc1 in Hc3. by destruct s3. }
  etrans; [by eapply ms_call_move|]. simpl. by injection Hrun as <-.
Qed.
(** The keys still to be counted, from position [i] on. *)
Lemma increaseAsync_from sys t th ss task ph ks : ∀ fs ls fpre lpre w w',
  at_phase sys t th ph → length fs = length ks → length ls = length ks → length fpre = length lpre →
  tk_isOverLimitWithLocalCache task = fpre ++ fs → tk_limits task = lpre ++ ls →
  range_from (length fpre) ks (λ i cacheKey (_ : unit),
    skip ← (if decide (ck_Key cacheKey = "") then mret true else index (tk_isOverLimitWithLocalCache task) i);
    if skip : bool then mret ()
    else limit ← index (tk_limits task) i; increase_key this (ck_Key cacheKey) limit (tk_hitsAddend task)) () w =
    (Ret tt, w') →
  mem_run (move sys t th w (MCounting ss task (task_todo (mkTask ks fs ls (tk_hitsAddend task))) Incrementing))
    (move sys t th w' (MCounting ss task [] Incrementing)).
Proof.
  induction ks as [|key ks IH]; intros [|f fs] [|lim ls] fpre lpre w w' Hat Hf Hl Hpre Hfs Hls Hrun;
    try done; cbn [range_from] in Hrun.
  { injection Hrun as <-. reflexivity. }
  minv Hrun as ([]&w1&Hbody&Hrest). minv Hbody as (skip&w0&Hskip&Hbody).
  assert (S (length fpre) = length (fpre ++ [f])) as Hlen by (rewrite length_app; simpl; lia).
  rewrite Hlen in Hrest.
  assert (tk_isOverLimitWithLocalCache task !! length fpre = Some f ∧ tk_limits task !! length fpre = Some lim)
    as [Hif Hil].
  { rewrite Hfs, Hls. split; [by rewrite list_lookup_middle|]. by apply list_lookup_middle. }
  unfold task_todo. cbn [tk_cacheKeys tk_isOverLimitWithLocalCache tk_limits zip zip_with omap list_omap].
  assert (mem_run (move sys t th w1 (MCounting ss task (task_todo (mkTask ks fs ls (tk_hitsAddend task)))
    Incrementing)) (move sys t th w' (MCounting ss task [] Incrementing))) as Hrun.
  { apply (IH fs ls (fpre ++ [f]) (lpre ++ [lim])); rewrite <-?app_assoc; try done.
    - simpl in Hf. lia.
    - simpl in Hl. lia.
    - by rewrite !length_app, Hpre. }
  destruct (decide (ck_Key key = "")) as [Hk|Hk].
  { injection Hskip as <- <-. injection Hbody as <-. exact Hrun. }
  unfold index in Hskip. rewrite Hif in Hskip. injection Hskip as <- <-. destruct f; [injection Hbody as <-; exact Hrun|].
  unfold index in Hbody. rewrite Hil in Hbody. etrans; [by eapply increase_key_runs|exact Hrun].
Qed.

Lemma increaseAsync_runs sys t th ss task w w' ph :
  at_phase sys t th ph → length (tk_isOverLimitWithLocalCache task) = length (tk_cacheKeys task) →
  length (tk_limits task) = length (tk_cacheKeys task) →
  increaseAsync this task w = (Ret tt, w') →
  mem_run (move sys t th w (MCounting ss task (task_todo task) Incrementing))
    (move sys t th w' (MCounting ss task [] Incrementing)).
Proof.
  intros Hat Hf Hl Hrun. destruct task as [ks fs ls hits].
  by apply (increaseAsync_from sys t th ss (mkTask ks fs ls hits) ph ks fs ls [] []).
Qed.
End system.

(** ** What the requests of a state add up to *)

Definition total (f : mem_thread → Z) (ths : list mem_thread) : Z := sumZ (f <$> ths).

(** The hits of requests whose task is through, and of requests that read the
    count but whose task is not. *)
Definition counted_hits (th : mem_thread) : Z :=
  match mt_phase th with
  | MCounting _ task [] _ => if decide (tk_isOverLimitWithLocalCache task = [false]) then mhits th else 0
  | _ => 0
  end.

Definition in_flight (th : mem_thread) : Z :=
  match mt_phase th with
  | MJudging _ _ _ | MCounting _ _ (_ :: _) _ => mhits th
  | _ => 0
  end.

(** The hits of requests answered OK. *)
Definition mem_admitted (th : mem_thread) : Z :=
  match mt_phase th with
  | MCounting [s] _ _ _ => if decide (st_Code s = Code_OK) then mhits th else 0
  | _ => 0
  end.

Lemma mhits_pos th : 1 <= mhits th.
Proof. unfold mhits. rewrite Max_max. lia. Qed.

Lemma total_move {E} f (sys : mem_system E) t th w ph ph' :
  at_phase sys t th ph →
  total f (ms_threads (move sys t th w ph')) =
    total f (ms_threads sys) - f th + f (mkMemThread (mt_hits th) ph').
Proof.
  intros [Ht _]. unfold total, move. cbn [ms_threads]. rewrite list_fmap_insert.
  apply sumZ_insert. by rewrite list_lookup_fmap, Ht.
Qed.

Lemma total_le f g ths : (∀ t th, ths !! t = Some th → f th <= g th) → total f ths <= total g ths.
Proof.
  intros Hfg. unfold total. apply sumZ_le, Forall2_fmap, Forall2_same_length_lookup_2; [done|].
  intros t x y Hx Hy. rewrite Hx in Hy. injection Hy as <-. by eapply Hfg.
Qed.

Lemma total_add f g ths : total (λ th, f th + g th) ths = total f ths + total g ths.
Proof. unfold total. induction ths as [|th ths IH]; [done|]. rewrite !fmap_cons, !sumZ_cons, IH. lia. Qed.

Lemma counted_range th : 0 <= counted_hits th <= mhits th.
Proof.
  unfold counted_hits. pose proof (mhits_pos th).
  destruct (mt_phase th) as [| | |ss task [|] s]; try lia. destruct (decide _); lia.
Qed.

(** A request whose task is not through leaves room in the sum. *)
Lemma counted_room ths t th :
  ths !! t = Some th → counted_hits th = 0 →
  0 <= total counted_hits ths ∧ total counted_hits ths + mhits th <= total mhits ths.
Proof.
  intros Ht H0. split; [apply sumZ_nonneg, Forall_fmap, Forall_true; intros; apply counted_range|].
  unfold total. replace (sumZ (counted_hits <$> ths) + mhits th) with (sumZ (<[t := mhits th]> (counted_hits <$> ths))).
  - apply sumZ_le, Forall2_same_length_lookup_2; [by rewrite length_insert, !length_fmap|].
    intros i x y Hx Hy. rewrite list_lookup_fmap in Hy. apply fmap_Some in Hy as (th'&Hth'&->).
    apply list_lookup_insert_Some in Hx as [(<-&<-&_)|(Hne&Hx)]; [by simplify_eq|].
    rewrite list_lookup_fmap, Hth' in Hx. injection Hx as <-. apply counted_range.
  - rewrite (sumZ_insert _ _ (counted_hits th)) by (by rewrite list_lookup_fmap, Ht). lia.
Qed.

(** ** The invariant *)

Section admission.
Context {E : Type} `{MemcacheLaws E} `{!MemcacheUp E}.
Context (this : rateLimitMemcacheImpl) (domain : string) (desc : Descriptor) (l : loc)
  (rl : RateLimit) (d ws B : Z).
#[local] Abbreviation W := (World E).
#[local] Abbreviation key := (window_key (mi_baseRateLimiter this) domain desc rl ws).
#[local] Abbreviation k := (ck_Key key).
#[local] Abbreviation N := (pl_RequestsPerUnit (rl_Limit rl)).
#[local] Abbreviation T := (ws + d).
Hypothesis Hjit : mi_expirationJitterMaxSeconds this <= 2000000.
Hypothesis Hd : unit_seconds (pl_Unit (rl_Limit rl)) = Some d.
Hypothesis HN : is_u32 N.
Hypothesis Hws : 0 <= ws.
Hypothesis Hwin : window_start ws d = ws.
Hypothesis Hlegal : legal_key k = true.

(** What is left to do of a task that counts: after a lost race the key is
    there. *)
Definition todo_ok (flag : bool) (e : E) (todo : list (string * option loc)) (s : stage) : Prop :=
  todo = [] ∨ flag = false ∧ todo = [(k, Some l)] ∧
    match s with
    | Incrementing => True
    | Adding exp => d <= exp <= d + 2000000
    | Retrying => entry 0 k e ≠ None
    end.

(** Where a request with [h] of [all] hits stands. *)
Inductive mem_progress (e : E) (all h : Z) : mem_phase → Prop :=
  | mp_arrived : mem_progress e all h MArrived
  | mp_fetching flag ks :
      (flag = false → k ∈ ks) → (∀ k', k' ∈ ks → k' = k) → (flag = true → N < all) →
      mem_progress e all h (MFetching [key] [flag] ks)
  | mp_judging flag vs :
      (flag = true → N < all) →
      (flag = false → 0 <= decode_count (vs !! k) ∧ decode_count (vs !! k) + h <= all) →
      mem_progress e all h (MJudging [key] [flag] vs)
  | mp_counting flag r reset todo s :
      (flag = true ∨ r > N → N < all) → todo_ok flag e todo s →
      mem_progress e all h (MCounting [status_of rl flag r reset] (mkTask [key] [flag] [Some l] h) todo s).

(** The hits of requests that were or will be answered OK, by the count read. *)
Definition to_admit (th : mem_thread) : Z :=
  match mt_phase th with
  | MJudging _ [false] vs => if decide (decode_count (vs !! k) + mhits th <= N) then mhits th else 0
  | _ => mem_admitted th
  end.

Record mem_good (sys : mem_system E) : Prop := mkMemGood {
  mg_limit : w_heap (ms_world sys) !! l = Some rl;
  mg_holds : holds 0 k (total counted_hits (ms_threads sys)) T (w_ext (ms_world sys));
  mg_held : held k (w_ext (ms_world sys)) → N < total mhits (ms_threads sys);
  mg_threads : ∀ t th, ms_threads sys !! t = Some th →
    mem_progress (w_ext (ms_world sys)) (total mhits (ms_threads sys)) (mhits th) (mt_phase th);
  mg_admit : rl_ShadowMode rl = false → total to_admit (ms_threads sys) <= N + B;
}.

Lemma todo_ok_grow flag e e' todo s :
  (entry 0 k e ≠ None → entry 0 k e' ≠ None) → todo_ok flag e todo s → todo_ok flag e' todo s.
Proof. intros He [?|(?&?&Hs)]; [by left|right]. destruct s; auto. Qed.

Lemma admitted_to_admit th : mem_admitted th <= to_admit th.
Proof.
  unfold to_admit, mem_admitted. pose proof (mhits_pos th).
  destruct (mt_phase th) as [| |keys [|[] [|]] vs|]; try done. destruct (decide _); lia.
Qed.

(** A request that is to be admitted is counted or in flight. *)
Lemma to_admit_covered e all th :
  rl_ShadowMode rl = false → mem_progress e all (mhits th) (mt_phase th) → to_admit th <= counted_hits th + in_flight th.
Proof.
  intros Hshadow Hp. unfold to_admit, counted_hits, in_flight, mem_admitted. pose proof (mhits_pos th).
  inversion Hp as [|flag ks ? ? ? Heq|flag vs ? ? Heq|flag r reset todo s Hover Htodo Heq]; try lia.
  - destruct flag; [lia|]. case_decide; lia.
  - unfold status_of, over_limit. rewrite Hshadow. cbn [st_Code tk_isOverLimitWithLocalCache].
    destruct todo as [|x todo]; [|destruct (decide _); lia].
    destruct flag; cbn [orb andb negb]; [rewrite (decide_False (P := Code_OVER_LIMIT = Code_OK)) by done; destruct (decide _); lia|].
    rewrite (decide_True (P := [false] = [false])) by done. destruct (decide _); lia.
Qed.

Lemma mem_good_move sys t th ph w' ph' :
  mem_good sys → at_phase sys t th ph → w_heap w' = w_heap (ms_world sys) →
  (entry 0 k (w_ext (ms_world sys)) ≠ None → entry 0 k (w_ext w') ≠ None) →
  holds 0 k (total counted_hits (ms_threads sys) - counted_hits th + counted_hits (mkMemThread (mt_hits th) ph')) T
    (w_ext w') →
  (held k (w_ext w') → N < total mhits (ms_threads sys)) →
  mem_progress (w_ext w') (total mhits (ms_threads sys)) (mhits th) ph' →
  (rl_ShadowMode rl = false → to_admit (mkMemThread (mt_hits th) ph') <= to_admit th ∨
    total to_admit (ms_threads (move sys t th w' ph')) <= N + B) →
  mem_good (move sys t th w' ph').
Proof.
  intros Hg Hat Hheap Hent Hholds Hheld Hp Hadm.
  assert (total mhits (ms_threads (move sys t th w' ph')) = total mhits (ms_threads sys)) as Hall.
  { rewrite (total_move _ _ _ _ _ _ _ Hat). unfold mhits; simpl. lia. }
  split.
  - cbn [move ms_world]. rewrite Hheap. apply Hg.
  - rewrite (total_move _ _ _ _ _ _ _ Hat). exact Hholds.
  - rewrite Hall. exact Hheld.
  - rewrite Hall. intros t' th' Hth'. destruct Hat as [Ht _].
    apply list_lookup_insert_Some in Hth' as [(<-&<-&_)|(Hne&Hth')]; [exact Hp|].
    pose proof (mg_threads _ Hg t' th' Hth') as Hp'.
    inversion Hp'; constructor; try done. by eapply todo_ok_grow.
  - intros Hsh. destruct (Hadm Hsh) as [Hle|?]; [|done]. rewrite (total_move _ _ _ _ _ _ _ Hat).
    pose proof (mg_admit _ Hg Hsh). lia.
Qed.
(** ** Each step keeps the invariant *)

(** Not in any state of the window: the key of the requests is empty. *)
Lemma key_ne : k ≠ "".
Proof. apply key_stem_ne. Qed.

Lemma mem_request_ok h (w : W) : w_heap w !! l = Some rl → request_ok (mkRequest domain [desc] h) [Some l] w.
Proof. intros Hl. split; [done|]. constructor; [|done]. simpl; eauto. Qed.

Lemma mem_prepare_ok h (w : W) :
  w_heap w !! l = Some rl → ws <= time (w_ext w) →
  wp (λ _, False) (mem_prepare this (mkRequest domain [desc] h) [Some l]) w (λ '(keys, flags, ks) w',
    w_heap w' = w_heap w ∧ undisturbed (w_ext w) (w_ext w') ∧
    (time (w_ext w') < T → keys = [key] ∧ ∃ flag, flags = [flag] ∧
       (flag = true → held k (w_ext w)) ∧ (flag = false → k ∈ ks) ∧ ∀ k', k' ∈ ks → k' = k)).
Proof.
  intros Hl Hw. pose proof (mem_request_ok h w Hl) as [Hlen Hgood]. unfold mem_prepare.
  eapply wp_bind_Ret; [by apply GenerateCacheKeys_run|].
  fold (request_keys (mi_baseRateLimiter this) (mkRequest domain [desc] h) [Some l] w).
  destruct (request_keyed (mi_baseRateLimiter this) _ _ w Hlen Hgood) as [_ Hkl].
  pose proof (mem_request_keys this domain desc l rl d ws Hd Hws Hwin h w Hl) as Hkeys.
  set (keys := request_keys _ _ _ _) in *. rewrite <-Hkl.
  destruct (unix_now (w_ext w)) as [now e0] eqn:Hnow. apply law_now in Hnow as [Hu0 Ht0]. simpl in Hkeys |- *.
  eapply wp_bind; [apply (keys_to_get_ok (λ _, False) this keys)|].
  intros [flags ks] w1 ((Hh1&_&Hu1)&[Hfl Hheld]&Hf&Honly). simpl in Hh1, Hu1, Hheld. apply wp_ret.
  split; [done|]. split; [by etransitivity|]. intros HT. destruct Hu1 as [? _].
  rewrite Hkeys in Hfl, Hheld, Hf, Honly |- * by lia. split; [done|].
  destruct flags as [|flag [|]]; [done| |done]. exists flag. split; [done|]. split_and!.
  - intros ->. apply Hu0. by apply (Hheld 0%nat key).
  - intros ->. apply (Hf 0%nat key); [simpl; lia|done|apply key_ne|done].
  - intros k' Hk'%Honly. by apply list_elem_of_singleton in Hk'.
Qed.

Lemma quiet_entry (e e' : E) : undisturbed e e' → entry 0 k e ≠ None → entry 0 k e' ≠ None.
Proof. intros (_&He&_). by rewrite He. Qed.

Lemma prepare_good sys t th keys flags ks w' :
  mem_good sys → ws <= time (w_ext (ms_world sys)) → time (w_ext w') < T → at_phase sys t th MArrived →
  mem_prepare this (request_for domain desc th) [Some l] (ms_world sys) = (Ret (keys, flags, ks), w') →
  mem_good (move sys t th w' (MFetching keys flags ks)).
Proof.
  intros Hg Hw HT Hat Hrun. pose proof (mem_prepare_ok (mt_hits th) (ms_world sys) (mg_limit _ Hg) Hw) as Hok.
  unfold wp in Hok. unfold request_for in Hrun. rewrite Hrun in Hok. destruct Hok as (Hheap&Hu&Hok).
  destruct (Hok HT) as (->&flag&->&Hheld&Hks&Honly).
  assert (counted_hits th = 0 ∧ to_admit th = 0) as [Hc Ha].
  { unfold counted_hits, to_admit, mem_admitted. destruct Hat as [_ ->]. done. }
  eapply mem_good_move; [done..|by apply quiet_entry| | | |].
  - rewrite Hc. cbn [counted_hits mt_phase]. rewrite Z.sub_0_r, Z.add_0_r.
    eapply holds_undisturbed; [exact Hu|]. apply Hg.
  - intros Hk. apply Hg. by apply Hu.
  - constructor; [done|done|]. intros Hf. by apply Hg, Hheld.
  - intros _. left. rewrite Ha. done.
Qed.

Lemma fetch_good sys t th keys flags ks vs err w' :
  mem_good sys → total mhits (ms_threads sys) < 2 ^ 31 → time (w_ext w') < T →
  total in_flight (ms_threads sys) <= B → at_phase sys t th (MFetching keys flags ks) →
  mem_fetch this ks (ms_world sys) = (Ret (vs, err), w') →
  mem_good (move sys t th w' (MJudging keys flags vs)).
Proof.
  intros Hg Hfits HT HB Hat Hrun. pose proof Hat as [Ht Hph].
  pose proof (mg_threads _ Hg t th Ht) as Hp. rewrite Hph in Hp. inversion Hp as [|flag ks' Hks Honly Hover| |]; subst.
  pose proof (fetch_counts (λ _, False) this d ws ks key flag (ms_world sys) Hks Honly) as Hok.
  unfold wp in Hok. unfold mem_fetch in Hrun. rewrite Hrun in Hok. destruct Hok as (Hheap&Hu&Hdec&_).
  assert (counted_hits th = 0 ∧ to_admit th = 0) as [Hc Ha].
  { unfold counted_hits, to_admit, mem_admitted. by rewrite Hph. }
  destruct (counted_room _ _ _ Ht Hc) as [Hc0 Hroom]. pose proof (mhits_pos th).
  assert (flag = false → decode_count (vs !! k) = total counted_hits (ms_threads sys)) as Hread.
  { intros Hf. apply Hdec; [done|done|done|apply Hg|lia]. }
  eapply mem_good_move; [done..|by apply quiet_entry| | | |].
  - rewrite Hc. cbn [counted_hits mt_phase]. rewrite Z.sub_0_r, Z.add_0_r.
    eapply holds_undisturbed; [exact Hu|]. apply Hg.
  - intros Hk. apply Hg. by apply Hu.
  - constructor; [done|]. intros Hf. rewrite (Hread Hf). lia.
  - intros Hsh. destruct flag; [left; rewrite Ha; done|]. specialize (Hread eq_refl).
    assert (to_admit (mkMemThread (mt_hits th) (MJudging [key] [false] vs)) =
      if decide (decode_count (vs !! k) + mhits th <= N) then mhits th else 0) as Hnew by done.
    rewrite (total_move _ _ _ _ _ _ _ Hat), Ha, Hnew.
    destruct (decide _) as [Hle|]; [right|left; lia].
    pose proof (mg_admit _ Hg Hsh). enough (total to_admit (ms_threads sys) <= total counted_hits (ms_threads sys) + total in_flight (ms_threads sys))
      by lia.
    rewrite <-total_add. apply total_le. intros t' th' Hth'. eapply to_admit_covered; [done|].
    exact (mg_threads _ Hg t' th' Hth').
Qed.
Lemma judge_good sys t th keys flags vs ss w' :
  mem_good sys → total mhits (ms_threads sys) < 2 ^ 31 → at_phase sys t th (MJudging keys flags vs) →
  mem_statuses this keys [Some l] (mhits th) vs flags (ms_world sys) = (Ret ss, w') →
  let task := mkTask keys flags [Some l] (u64 (mhits th)) in
  mem_good (move sys t th w' (MCounting ss task (task_todo task) Incrementing)).
Proof.
  intros Hg Hfits Hat Hrun task. pose proof Hat as [Ht Hph].
  pose proof (mg_threads _ Hg t th Ht) as Hp. rewrite Hph in Hp. inversion Hp as [| |flag vs' Hover Hread|]; subst.
  set (r := u32 (decode_count (vs !! k) + mhits th)).
  assert (keyed (w_heap (ms_world sys)) [key] [Some l]) as Hkeyed.
  { split; [done|]. intros [|i] key' Hi _; [|done]. eexists _, rl, d. split_and!; [done|apply Hg|done]. }
  pose proof (mem_statuses_ok (λ _, False) this [key] [Some l] (mhits th) vs [flag] (ms_world sys) Hkeyed eq_refl) as Hok.
  unfold wp in Hok. rewrite Hrun in Hok. destruct Hok as (Hheap&_&He&Hho&Hlen&Hans).
  destruct ss as [|st [|? ?]]; [done| |done].
  assert (counted_hits th = 0) as Hc by (unfold counted_hits; by rewrite Hph).
  destruct (counted_room _ _ _ Ht Hc) as [Hc0 Hroom]. pose proof (mhits_pos th).
  assert (flag = false → r = decode_count (vs !! k) + mhits th) as Hr.
  { intros Hf. destruct (Hread Hf). unfold r. apply u32_small. unfold is_u32. lia. }
  assert (flag = true ∨ r > N → N < total mhits (ms_threads sys)) as Hnext.
  { intros [Hf|Hgt]; [by apply Hover|]. destruct flag; [by apply Hover|]. rewrite Hr in Hgt by done.
    destruct (Hread eq_refl). lia. }
  assert (∃ reset, st = status_of rl flag r reset) as [reset ->].
  { destruct (Hans 0%nat st eq_refl) as [(key'&Hi&Hk'&_)|(key'&rl'&r'&b&reset&Hj&->)].
    { injection Hi as <-. by apply key_ne in Hk'. }
    destruct Hj as (Hi&_&(l'&Hl'&Hrl')&Hr'&Hf). simpl in Hl', Hr', Hf. injection Hl' as <-. injection Hr' as <-.
    injection Hf as <-. rewrite (mg_limit _ Hg) in Hrl'. injection Hrl' as <-. by exists reset. }
  unfold task. rewrite u64_small by (unfold is_u64; lia).
  assert (task_todo (mkTask [key] [flag] [Some l] (mhits th)) = if flag then [] else [(k, Some l)]) as ->.
  { unfold task_todo. simpl. rewrite decide_False by apply key_ne. by destruct flag. }
  eapply mem_good_move; [done..|by rewrite He| | | |].
  - rewrite Hc. unfold holds. rewrite He. destruct flag; cbn [counted_hits mt_phase tk_isOverLimitWithLocalCache];
      rewrite ?decide_False by done; rewrite Z.sub_0_r, Z.add_0_r; apply Hg.
  - intros [Hk|(i&key'&rl'&r'&Hj&Hk'&Hgt)]%Hho; [by apply Hg|]. apply Hnext. right.
    destruct Hj as (Hi&_&(l'&Hl'&Hrl')&Hr'&_). destruct i as [|i]; [|done]. simpl in Hl', Hr'.
    injection Hl' as <-. injection Hr' as <-. rewrite (mg_limit _ Hg) in Hrl'. by injection Hrl' as <-.
  - constructor; [done|]. destruct flag; [by left|by right].
  - intros Hsh. left. unfold to_admit. rewrite Hph. cbn [mt_phase mem_admitted]. unfold status_of, over_limit. rewrite Hsh.
    cbn [st_Code]. change (mhits (mkMemThread (mt_hits th) _)) with (mhits th).
    destruct flag; cbn [orb andb negb].
    + unfold mem_admitted. rewrite Hph. by rewrite decide_False by done.
    + rewrite Hr by done. case_bool_decide; cbn [andb]; [rewrite decide_False by done|rewrite decide_True by done];
        destruct (decide _); lia.
Qed.

Lemma idle_good sys e' :
  mem_good sys → undisturbed (w_ext (ms_world sys)) e' →
  mem_good (mkMemSystem (mkWorld (w_heap (ms_world sys)) (w_counters (ms_world sys)) e') (ms_threads sys)).
Proof.
  intros Hg Hu. split; [apply Hg| | | |apply Hg].
  - eapply holds_undisturbed; [exact Hu|apply Hg].
  - intros Hk. apply Hg. by apply Hu.
  - intros t th Ht. pose proof (mg_threads _ Hg t th Ht) as Hp. inversion Hp; constructor; try done.
    eapply todo_ok_grow; [|done]. by apply quiet_entry.
Qed.
(** What a call of a task leaves of the key, whose count was [C]: the task went on
    with the count as it was, or it is through and its hits are in. *)
Definition called (C hits : Z) (e : E) (o : option stage) (e' : E) : Prop :=
  (∀ k', held k' e' → held k' e) ∧
  (time e' < T → (entry 0 k e ≠ None → entry 0 k e' ≠ None) ∧
   match o with
   | Some s => holds 0 k C T e' ∧ todo_ok false e' [(k, Some l)] s
   | None => holds 0 k (C + hits) T e'
   end).

Lemma holds_None C (e : E) t : holds 0 k C T e → t < T → live t (entry 0 k e) = false → entry 0 k e = None.
Proof. intros Hh Ht Hl. by destruct (holds_live k C T e t Hh Ht Hl). Qed.

Lemma increment_called C hits (e : E) v e' :
  mc_Increment k hits e = ((v, None), e') → 0 <= C → holds 0 k C T e → called C hits e None e'.
Proof.
  intros Hinc HC Hh. pose proof (increment_advances k hits e v e' T Hinc) as (Ht&Hheld&Hadv).
  apply law_increment in Hinc as (_&_&_&t&_&_&He). split; [done|]. intros HT. split; [by rewrite He|by apply Hadv].
Qed.

Lemma miss_expiration_ok (w : W) :
  w_heap w !! l = Some rl →
  wp (λ _, False) (miss_expiration this (Some l)) w (λ exp w',
    w_heap w' = w_heap w ∧ undisturbed (w_ext w) (w_ext w') ∧ d <= exp <= d + 2000000).
Proof.
  intros Hl. unfold miss_expiration. eapply wp_bind_Ret; [apply deref_ok; exact Hl|].
  eapply wp_bind_Ret; [by apply UnitToDivider_Some|]. pose proof (unit_seconds_bounds _ _ Hd) as Hdb.
  case_bool_decide; [|apply wp_ret; split_and!; done || lia]. unfold ext, wp, mbind, M_bind.
  destruct (int63n _ (w_ext w)) as [r e2] eqn:Hr. apply law_rand in Hr as [Hu Hr]. specialize (Hr ltac:(lia)).
  cbn. rewrite i64_small by (unfold is_i64; lia). split_and!; [done|apply Hu..|lia|lia].
Qed.

Lemma adding_called C hits exp (w : W) :
  0 <= C → holds 0 k C T (w_ext w) → 0 <= hits < 2 ^ 63 → ws <= time (w_ext w) → d <= exp <= d + 2000000 →
  wp (λ _, False) (task_call this k (Some l) hits (Adding exp)) w (λ o w',
    w_heap w' = w_heap w ∧ called C hits (w_ext w) o (w_ext w')).
Proof.
  intros HC Hh Hhits Hw Hexp. unfold task_call. pose proof (unit_seconds_bounds _ _ Hd) as Hdb.
  assert (i32 exp = exp) as Hi32. { unfold i32. rewrite Z.mod_small; lia. } rewrite Hi32.
  destruct (AddItem_run (mi_client this) (mkItem k (FormatInt hits) exp) w) as [c Hr].
  eapply wp_bind_Ret; [exact Hr|]. pose proof (up_add (mkItem k (FormatInt hits) exp) (w_ext w) Hlegal) as [Hup1 Hup2].
  destruct (mc_Add _ (w_ext w)) as [err e'] eqn:Hadd. cbn [fst snd] in *.
  apply law_add in Hadd as (Ht&Hheld&_&t&Hb&Hadd); [|done].
  destruct err as [[]|]; [done| |by destruct (Hup2 msg)|]; apply wp_ret; (split; [done|]); (split; [done|]);
    intros HT; cbn [w_ext] in *.
  - destruct Hadd as [Hlive He]. rewrite He. split; [done|]. split; [unfold holds; by rewrite He|].
    right. do 2 (split; [done|]). rewrite He. intros Hn. by rewrite Hn in Hlive.
  - destruct Hadd as [Hlive He]. specialize (He ltac:(unfold max_relative; lia)). rewrite He. split; [done|].
    destruct (holds_live k C T _ t Hh) as [_ ->]; [lia|done|]. unfold holds. rewrite He. split; [done|lia].
Qed.

Lemma task_call_called C hits s (w : W) :
  w_heap w !! l = Some rl → 0 <= C → holds 0 k C T (w_ext w) → 0 <= hits < 2 ^ 63 → ws <= time (w_ext w) →
  todo_ok false (w_ext w) [(k, Some l)] s →
  wp (λ _, False) (task_call this k (Some l) hits s) w (λ o w',
    w_heap w' = w_heap w ∧ called C hits (w_ext w) o (w_ext w')).
Proof.
  intros Hl HC Hh Hhits Hw [?|(_&_&Hs)]; [done|]. destruct s as [|exp|]; [|by apply adding_called|]; unfold task_call;
    destruct (Increment_run (mi_client this) k hits w) as [c Hr]; (eapply wp_bind_Ret; [exact Hr|]);
    pose proof (up_increment k hits (w_ext w) Hlegal) as [Hup1 Hup2];
    destruct (mc_Increment k hits (w_ext w)) as [[v err] e1] eqn:Hinc; cbn [fst snd] in *.
  - destruct err as [[]|]; [|done|by destruct (Hup2 msg)|apply wp_ret; split; [done|]; by eapply increment_called].
    apply law_increment in Hinc as (Ht1&Hh1&_&t1&Hb1&Hl1&He1).
    eapply wp_bind; [by apply miss_expiration_ok|]. intros exp w2 (Hh2&(Ht2&He2&Hhe2)&Hexp). apply wp_ret.
    split; [done|]. split; [by auto|]. intros HT. cbn [w_ext] in *. rewrite He2, He1. split; [done|]. split.
    + unfold holds. rewrite He2, He1. exact Hh.
    + right. done.
  - apply wp_ret. split; [done|]. cbn [w_ext].
    destruct err as [[]|]; [|done|by destruct (Hup2 msg)|by eapply increment_called].
    apply law_increment in Hinc as (Ht1&Hh1&_&t1&Hb1&Hl1&He1). split; [done|]. intros HT.
    destruct Hs. apply (holds_None C _ t1); [done|lia|done].
Qed.

Lemma call_good sys t th ss task ky limit todo s o w' :
  mem_good sys → total mhits (ms_threads sys) < 2 ^ 31 → ws <= time (w_ext (ms_world sys)) → time (w_ext w') < T →
  at_phase sys t th (MCounting ss task ((ky, limit) :: todo) s) →
  task_call this ky limit (tk_hitsAddend task) s (ms_world sys) = (Ret o, w') →
  let next := after_call ((ky, limit) :: todo) o in
  mem_good (move sys t th w' (MCounting ss task next.1 next.2)).
Proof.
  intros Hg Hfits Hw HT Hat Hrun next. pose proof Hat as [Ht Hph].
  pose proof (mg_threads _ Hg t th Ht) as Hp. rewrite Hph in Hp.
  inversion Hp as [| | |flag r reset todo' s' Hover Htodo]; subst.
  destruct Htodo as [?|(->&Htodo&Hs)]; [done|].
  assert (ky = k ∧ limit = Some l ∧ todo = []) as (->&->&->) by (split_and!; congruence).
  assert (counted_hits th = 0) as Hc by (unfold counted_hits; by rewrite Hph).
  destruct (counted_room _ _ _ Ht Hc) as [Hc0 Hroom]. pose proof (mhits_pos th).
  pose proof (task_call_called _ (mhits th) s (ms_world sys) (mg_limit _ Hg) Hc0 (mg_holds _ Hg) ltac:(lia) Hw
    ltac:(by right)) as Hok.
  unfold wp in Hok. cbn [tk_hitsAddend] in Hrun. rewrite Hrun in Hok. destruct Hok as (Hheap&Hheld&Hok).
  destruct (Hok HT) as [Hent Ho].
  eapply mem_good_move; [done..| | | |].
  - rewrite Hc, Z.sub_0_r. destruct o as [s'|]; cbn [next after_call fst snd tail counted_hits mt_phase].
    + rewrite Z.add_0_r. apply Ho.
    + rewrite decide_True by done. exact Ho.
  - intros Hk. apply Hg. by apply Hheld.
  - destruct o as [s'|]; constructor; try done; [apply Ho|by left].
  - intros _. left. unfold to_admit, mem_admitted. rewrite Hph. done.
Qed.
(** ** Runs within the window *)

(** A step within the window, in which a count is read only while at most [B]
    hits are in flight. *)
Definition mem_within (sys sys' : mem_system E) : Prop :=
  ∃ f, mem_step this domain desc l f sys sys' ∧ ws <= time (w_ext (ms_world sys)) ∧
    time (w_ext (ms_world sys')) < T ∧ (f = true → total in_flight (ms_threads sys) <= B).

Lemma mem_step_hits f sys sys' :
  mem_step this domain desc l f sys sys' → total mhits (ms_threads sys') = total mhits (ms_threads sys).
Proof.
  destruct 1; [erewrite total_move by done; unfold mhits; simpl; lia..|done].
Qed.

Lemma mem_step_good sys sys' :
  mem_good sys → total mhits (ms_threads sys) < 2 ^ 31 → mem_within sys sys' → mem_good sys'.
Proof.
  intros Hg Hfits (f&Hs&Hw&HT&HB). destruct Hs.
  - by eapply prepare_good.
  - eapply fetch_good; [done..|by apply HB|done|done].
  - by eapply judge_good.
  - by eapply call_good.
  - by apply idle_good.
Qed.

Lemma mem_steps_good sys sys' :
  rtc mem_within sys sys' → mem_good sys → total mhits (ms_threads sys) < 2 ^ 31 →
  mem_good sys' ∧ total mhits (ms_threads sys') = total mhits (ms_threads sys).
Proof.
  induction 1 as [sys|sys sys1 sys' Hs _ IH]; intros Hg Hfits; [done|].
  pose proof (mem_step_good _ _ Hg Hfits Hs) as Hg1. destruct Hs as (f&Hs&_).
  apply mem_step_hits in Hs. destruct (IH Hg1); [lia|]. split; [done|lia].
Qed.

(** At first no request was started and nothing is stored under the key. *)
Definition mem_fresh (sys : mem_system E) : Prop :=
  w_heap (ms_world sys) !! l = Some rl ∧ Forall (λ th, mt_phase th = MArrived) (ms_threads sys) ∧
  entry 0 k (w_ext (ms_world sys)) = None ∧ ¬ held k (w_ext (ms_world sys)).

Lemma mem_fresh_good sys : 0 <= B → mem_fresh sys → mem_good sys.
Proof.
  intros HB (Hl&Hth&He&Hh).
  assert (∀ f, (∀ th, mt_phase th = MArrived → f th = 0) → total f (ms_threads sys) = 0) as Hzero.
  { intros f Hf. unfold total. induction Hth as [|th ths Hth _ IH]; [done|].
    rewrite fmap_cons, sumZ_cons, IH, (Hf th Hth). done. }
  split; [done| |done| |].
  - rewrite Hzero; [unfold holds; by rewrite He|]. intros th Hp. unfold counted_hits. by rewrite Hp.
  - intros t th Ht. rewrite (Forall_lookup_1 _ _ _ _ Hth Ht). constructor.
  - intros _. rewrite Hzero; [unfold is_u32 in HN; lia|]. intros th Hp. unfold to_admit, mem_admitted. by rewrite Hp.
Qed.

(** A request answered OVER_LIMIT. *)
Lemma mem_good_rejected sys t th st task todo s :
  mem_good sys → ms_threads sys !! t = Some th → mt_phase th = MCounting [st] task todo s →
  st_Code st = Code_OVER_LIMIT → N < total mhits (ms_threads sys).
Proof.
  intros Hg Ht Hph Hcode. pose proof (mg_threads _ Hg t th Ht) as Hp. rewrite Hph in Hp.
  inversion Hp as [| | |flag r reset todo' s' Hover]; subst. apply Hover. simpl in Hcode. unfold over_limit in Hcode.
  destruct flag; [by left|]. simpl in Hcode. case_bool_decide; [by right|done].
Qed.
End admission.

(** C6: the memcached limiter with its increments in flight.  Requests for a
    descriptor, under a limit that is not in shadow mode, and their tasks run
    concurrently, call by call, within one window that starts without a count.
    Provided memcached is reachable and the key is one its client accepts (at most
    250 bytes), all hits together are below 2^31 and the jitter is at most 2000000
    seconds: if a count is read only while at most [B] hits of earlier requests
    are not yet counted, then in every reachable state the hits of the requests
    answered OK exceed the limit by at most [B], and a request is answered
    OVER_LIMIT only if the hits of all requests together exceed the limit. *)
Theorem mem_async_admission `{MemcacheLaws E} `{!MemcacheUp E} this domain desc l rl d ws B
    (sys sys' : mem_system E) :
  let N := pl_RequestsPerUnit (rl_Limit rl) in
  legal_key (ck_Key (window_key (mi_baseRateLimiter this) domain desc rl ws)) = true →
  mi_expirationJitterMaxSeconds this <= 2000000 → unit_seconds (pl_Unit (rl_Limit rl)) = Some d →
  is_u32 N → 0 <= ws → window_start ws d = ws → rl_ShadowMode rl = false → 0 <= B →
  total mhits (ms_threads sys) < 2 ^ 31 → mem_fresh this domain desc l rl ws sys →
  rtc (mem_within this domain desc l d ws B) sys sys' →
  total mem_admitted (ms_threads sys') <= N + B ∧
  ∀ t th st task todo s, ms_threads sys' !! t = Some th → mt_phase th = MCounting [st] task todo s →
    st_Code st = Code_OVER_LIMIT → N < total mhits (ms_threads sys).
Proof.
  intros N Hlegal Hj Hd HN Hws Hwin Hsh HB Hfits Hfresh Hrun.
  destruct (mem_steps_good this domain desc l rl d ws B Hj Hd Hws Hwin Hlegal sys sys' Hrun) as [Hg Hall];
    [by eapply mem_fresh_good|done|]. split.
  - etransitivity; [|exact (mg_admit _ _ _ _ _ _ _ _ _ Hg Hsh)]. apply total_le. intros t th _.
    apply admitted_to_admit.
  - intros t th st task todo s Ht Hph Hcode. rewrite <-Hall. by eapply mem_good_rejected.
Qed.

(** ** The wait group *)

(** The tasks submitted and not yet through: [waitGroup]'s count.  [Flush] waits
    until it is zero. *)
Definition task_open (th : mem_thread) : Prop :=
  match mt_phase th with MCounting _ _ (_ :: _) _ => True | _ => False end.

#[local] Instance task_open_dec th : Decision (task_open th).
Proof. unfold task_open. destruct (mt_phase th) as [| | |? ? [|] ?]; apply _. Defined.

Definition waitGroup (ths : list mem_thread) : nat := length (filter task_open ths).

(** [Flush] returns in the state [sys]. *)
Definition Flush {E} (sys : mem_system E) : Prop := waitGroup (ms_threads sys) = 0%nat.

(** The hits of the requests answered by the count and not by the local cache. *)
Definition answered_hits (th : mem_thread) : Z :=
  match mt_phase th with
  | MCounting _ task _ _ => if decide (tk_isOverLimitWithLocalCache task = [false]) then mhits th else 0
  | _ => 0
  end.

Lemma flushed_counted ths : waitGroup ths = 0%nat → total counted_hits ths = total answered_hits ths.
Proof.
  unfold waitGroup, total. intros Hw. f_equal. apply list_fmap_ext. intros i th Hth.
  assert (¬ task_open th) as Ho.
  { intros Ho. apply nil_length_inv in Hw. apply (not_elem_of_nil th). rewrite <-Hw.
    apply list_elem_of_filter. split; [done|]. by eapply list_elem_of_lookup_2. }
  unfold task_open, counted_hits, answered_hits in *. by destruct (mt_phase th) as [| | |? ? [|] ?].
Qed.

(** C17: increment, add, increment again: while memcached answers without
    errors, no hit is lost or counted twice.  Provided memcached is reachable and
    the key is one its client accepts (at most 250 bytes), all hits together are
    below 2^31 and the jitter is at most 2000000 seconds: however the calls of the
    tasks interleave, in every state reachable within a window that starts without
    a count, the count stored for the key is the hits of the requests whose tasks
    are through; so when [Flush] returns, it is the hits of all requests that were
    answered by the count. *)
Theorem mem_tasks_exact `{MemcacheLaws E} `{!MemcacheUp E} this domain desc l rl d ws B
    (sys sys' : mem_system E) :
  let key := window_key (mi_baseRateLimiter this) domain desc rl ws in
  legal_key (ck_Key key) = true →
  mi_expirationJitterMaxSeconds this <= 2000000 → unit_seconds (pl_Unit (rl_Limit rl)) = Some d →
  is_u32 (pl_RequestsPerUnit (rl_Limit rl)) → 0 <= ws → window_start ws d = ws → 0 <= B →
  total mhits (ms_threads sys) < 2 ^ 31 → mem_fresh this domain desc l rl ws sys →
  rtc (mem_within this domain desc l d ws B) sys sys' →
  holds 0 (ck_Key key) (total counted_hits (ms_threads sys')) (ws + d) (w_ext (ms_world sys')) ∧
  (Flush sys' →
   holds 0 (ck_Key key) (total answered_hits (ms_threads sys')) (ws + d) (w_ext (ms_world sys'))).
Proof.
  intros key Hlegal Hj Hd HN Hws Hwin HB Hfits Hfresh Hrun.
  destruct (mem_steps_good this domain desc l rl d ws B Hj Hd Hws Hwin Hlegal sys sys' Hrun) as [Hg _];
    [by eapply mem_fresh_good|done|].
  split; [apply Hg|]. intros Hf. rewrite <-(flushed_counted _ Hf). apply Hg.
Qed.

(** ** Three requests at once on the simulated memcached *)

(** One step of request [t], computed. *)
Definition mem_exec (this : rateLimitMemcacheImpl) (domain : string) (desc : Descriptor) (l : loc) (t : nat)
    (sys : mem_system Sim) : option (bool * mem_system Sim) :=
  th ← ms_threads sys !! t;
  match mt_phase th with
  | MArrived =>
      match mem_prepare this (request_for domain desc th) [Some l] (ms_world sys) with
      | (Ret (keys, flags, ks), w') => Some (false, move sys t th w' (MFetching keys flags ks))
      | _ => None
      end
  | MFetching keys flags ks =>
      match mem_fetch this ks (ms_world sys) with
      | (Ret (vs, _), w') => Some (true, move sys t th w' (MJudging keys flags vs))
      | _ => None
      end
  | MJudging keys flags vs =>
      match mem_statuses this keys [Some l] (mhits th) vs flags (ms_world sys) with
      | (Ret ss, w') =>
          let task := mkTask keys flags [Some l] (u64 (mhits th)) in
          Some (false, move sys t th w' (MCounting ss task (task_todo task) Incrementing))
      | _ => None
      end
  | MCounting ss task ((key, limit) :: todo) s =>
      match task_call this key limit (tk_hitsAddend task) s (ms_world sys) with
      | (Ret o, w') =>
          let next := after_call ((key, limit) :: todo) o in
          Some (false, move sys t th w' (MCounting ss task next.1 next.2))
      | _ => None
      end
  | MCounting _ _ [] _ => None
  end.

Fixpoint mem_execs this domain desc l (d ws B : Z) (schedule : list nat) (sys : mem_system Sim)
  : option (mem_system Sim) :=
  match schedule with
  | [] => Some sys
  | t :: schedule' =>
      '(f, sys') ← mem_exec this domain desc l t sys;
      if decide (ws <= sim_time (w_ext (ms_world sys)) ∧ sim_time (w_ext (ms_world sys')) < ws + d ∧
                 (f = true → total in_flight (ms_threads sys) <= B))
      then mem_execs this domain desc l d ws B schedule' sys' else None
  end.

Lemma mem_exec_sound this domain desc l t f sys sys' :
  mem_exec this domain desc l t sys = Some (f, sys') → mem_step this domain desc l f sys sys'.
Proof.
  unfold mem_exec. intros (th&Hth&Hs)%bind_Some.
  destruct (mt_phase th) as [|keys flags ks|keys flags vs|ss task [|[ky limit] todo] s] eqn:Hph; [..|done|].
  - destruct (mem_prepare _ _ _ _) as [[[[keys flags] ks]|?|?] w'] eqn:Hrun; [|done..].
    injection Hs as <- <-. by econstructor.
  - destruct (mem_fetch _ _ _) as [[[vs err]|?|?] w'] eqn:Hrun; [|done..]. injection Hs as <- <-. by econstructor.
  - destruct (mem_statuses _ _ _ _ _ _ _) as [[ss|?|?] w'] eqn:Hrun; [|done..].
    injection Hs as <- <-. by econstructor.
  - destruct (task_call _ _ _ _ _ _) as [[o|?|?] w'] eqn:Hrun; [|done..]. injection Hs as <- <-. by econstructor.
Qed.

Lemma mem_execs_sound this domain desc l d ws B schedule : ∀ sys sys',
  mem_execs this domain desc l d ws B schedule sys = Some sys' →
  rtc (mem_within this domain desc l d ws B) sys sys'.
Proof.
  induction schedule as [|t schedule IH]; intros sys sys'; cbn [mem_execs]; [by intros [= ->]|].
  intros ([f sys1]&Hs&Hrun)%bind_Some. case_decide as Ht; [|done]. destruct Ht as (?&?&?).
  eapply rtc_l; [exists f; split; [by eapply mem_exec_sound|done]|by apply IH].
Qed.

(** Five a minute; three requests of five hits each that all read the count
    before any of them is counted: ten hits too many are admitted.  Then the
    tasks race: all three miss, one adds the key, the others increment. *)
Definition trio_limit : RateLimit :=
  mkRateLimit "d.a" (rl_Stats example_rl) (mkPbRateLimit 5 MINUTE "") false false "" [] false.

Definition trio_start : mem_system Sim :=
  mkMemSystem (mkWorld [trio_limit] ∅ (mkSim 100 ∅ ∅)) (replicate 3 (mkMemThread 5 MArrived)).

Definition trio_desc : Descriptor := mkDescriptor [mkEntry "a" "x"] None.

Definition trio_reads : list nat := [0; 0; 1; 1; 2; 2; 0; 1; 2]%nat.
Definition trio_tasks : list nat := [0; 1; 2; 2; 1; 0; 1; 0]%nat.

Lemma trio_fresh : mem_fresh sim_mem "d" trio_desc 0%nat trio_limit 60 trio_start.
Proof.
  split; [done|]. split; [by repeat constructor|]. split; [by vm_compute|].
  exact (not_elem_of_empty (C := gset string) "d_a_x_60").
Qed.

Lemma mem_async_admission_witness :
  ∃ sys', mem_execs sim_mem "d" trio_desc 0%nat 60 60 10 trio_reads trio_start = Some sys' ∧
    total mem_admitted (ms_threads sys') <= 5 + 10 ∧ total mem_admitted (ms_threads sys') = 15.
Proof.
  assert (match mem_execs sim_mem "d" trio_desc 0%nat 60 60 10 trio_reads trio_start with
          | Some sys' => bool_decide (total mem_admitted (ms_threads sys') = 15)
          | None => false
          end = true) as Hret by (vm_compute; reflexivity).
  destruct (mem_execs sim_mem "d" trio_desc 0%nat 60 60 10 trio_reads trio_start) as [sys'|] eqn:Hrun;
    [|discriminate Hret].
  exists sys'. split; [reflexivity|]. apply mem_execs_sound in Hrun. apply bool_decide_eq_true in Hret.
  split; [|exact Hret]. clear Hret.
  refine (proj1 (mem_async_admission sim_mem "d" trio_desc 0%nat trio_limit 60 60 10 trio_start sys'
    _ _ eq_refl _ _ eq_refl eq_refl _ _ trio_fresh Hrun)); by vm_compute.
Defined.

Lemma mem_tasks_exact_witness :
  ∃ sys', mem_execs sim_mem "d" trio_desc 0%nat 60 60 10 (trio_reads ++ trio_tasks) trio_start = Some sys' ∧
    Flush sys' ∧ holds 0 "d_a_x_60" 15 120 (w_ext (ms_world sys')).
Proof.
  assert (match mem_execs sim_mem "d" trio_desc 0%nat 60 60 10 (trio_reads ++ trio_tasks) trio_start with
          | Some sys' => bool_decide (waitGroup (ms_threads sys') = 0%nat) &&
                         bool_decide (total answered_hits (ms_threads sys') = 15)
          | None => false
          end = true) as Hret by (vm_compute; reflexivity).
  destruct (mem_execs sim_mem "d" trio_desc 0%nat 60 60 10 (trio_reads ++ trio_tasks) trio_start)
    as [sys'|] eqn:Hrun; [|discriminate Hret].
  exists sys'. split; [reflexivity|]. apply mem_execs_sound in Hrun.
  apply andb_true_iff in Hret as [Hflush%bool_decide_eq_true Hall%bool_decide_eq_true].
  split; [exact Hflush|]. rewrite <-Hall.
  refine (proj2 (mem_tasks_exact sim_mem "d" trio_desc 0%nat trio_limit 60 60 10 trio_start sys'
    _ _ eq_refl _ _ eq_refl _ _ trio_fresh Hrun) Hflush); by vm_compute.
Defined.
