(* ===== verification/ServiceConcurrent.v ===== *)
(** * Requests while the configuration changes

    Every request is served by a goroutine of its own, and the update loop installs
    configurations meanwhile.  A request takes the configuration and the global
    shadow mode once, under the lock ([GetCurrentConfig]), and goes on with them;
    the header fields it reads later, without the lock.  The system is a step
    relation: a request arrives, or runs its code up to the next point where
    others may come in between; an update is installed; the rest of the process
    and the outside world move.  A panic that is not recovered, of a request or of
    the update loop, ends the process.  Whatever the interleaving, a request is
    answered by one configuration, which was in force while it was served. *)

From S2P Require Import Prelude GoStrings World Utils Stats Config ConfigLoad ConfigLookup.
From S2P Require Import Limiter LimiterSpec CountSpec Redis RedisSpec RedisLimit RedisCache.
From S2P Require Import Simulated Tls Settings SettingsSpec Health Service ServiceSpec ServiceTheorems ReadOnly.
From stdpp Require Import relations.

#[local] Open Scope Z_scope.

(** ** The phases of a request

    The number is that of the configuration it was given, in the order of their
    installation. *)
Inductive req_phase : Type :=
  | Asked
  | Snapped (i : nat) (snappedConfig : option rateLimitConfigImpl) (globalShadowMode : bool)
  | Chosen (i : nat) (globalShadowMode : bool) (limitsToCheck : list (option loc)) (isUnlimited : list bool)
  | Judged (i : nat) (globalShadowMode : bool) (limitsToCheck : list (option loc)) (isUnlimited : list bool)
      (statuses : list DescriptorStatus)
  | Replied (i : nat) (r : option RateLimitResponse * option string).

(** [rq_since] is the number of the configuration in force when it arrived. *)
Record req_thread : Type := mkReq {
  rt_request : RateLimitRequest;
  rt_since : nat;
  rt_phase : req_phase;
}.

Record svc_system (E C : Type) : Type := mkSvc {
  sy_service : service C;
  sy_world : World E;
  sy_history : list (list RateLimitConfigToLoad);
  sy_requests : list req_thread;
  sy_crash : option panic;             (** what the process died of *)
}.
Arguments mkSvc {_ _} _ _ _ _ _.
Arguments sy_service {_ _} _.
Arguments sy_world {_ _} _.
Arguments sy_history {_ _} _.
Arguments sy_requests {_ _} _.
Arguments sy_crash {_ _} _.

Section system.
Context {E C : Type} `{TimeSource E} `{EnvSettings E} (ok : C → Prop) `{CacheLaws E C ok} `{!CacheKeeps E C}.
Context (Unit_value : string → option Z) (m : ManagerImpl) (merge healthy : bool).
#[local] Abbreviation W := (World E).
Implicit Types (w : W) (this : service C) (req : RateLimitRequest).

(** The checks of the request. *)
Definition validate req : M W unit :=
  _ ← checkServiceErr (bool_decide (rq_Domain req ≠ "")) "rate limit domain must not be empty";
  checkServiceErr (bool_decide (length (rq_Descriptors req) ≠ 0%nat))
    "rate limit descriptor list must not be empty".

(** The deferred function of [ShouldRateLimit]. *)
Definition recovered this (err : panic) : M W (option RateLimitResponse * option string) :=
  match err with
  | PRedisError t =>
      _ ← Inc (ss_RedisError (sv_ShouldRateLimit (sv_stats this)));
      mret (None, Some t)
  | PServiceError t =>
      _ ← Inc (ss_ServiceError (sv_ShouldRateLimit (sv_stats this)));
      mret (None, Some t)
  | _ => throw err
  end.

Definition guarded this (i : nat) (f : M W req_phase) : M W req_phase :=
  recover f (λ err, r ← recovered this err; mret (Replied i r)).

(** What a request does next; [n] is the number of the configuration in force. *)
Definition request_step this (n : nat) req (ph : req_phase) : M W req_phase :=
  match ph with
  | Asked =>
      guarded this n
        (_ ← validate req;
         let '(snappedConfig, globalShadowMode) := GetCurrentConfig this in
         mret (Snapped n snappedConfig globalShadowMode))
  | Snapped i cf shadow =>
      guarded this i ('(limits, us) ← constructLimitsToCheck req cf; mret (Chosen i shadow limits us))
  | Chosen i shadow limits us =>
      guarded this i (ss ← cache_DoLimit (sv_cache this) req limits; mret (Judged i shadow limits us ss))
  | Judged i shadow limits us ss =>
      guarded this i (resp ← answer_request this shadow limits us ss; mret (Replied i (Some resp, None)))
  | Replied i r => mret (Replied i r)
  end.

(** Run without a break it is [ShouldRateLimit]. *)
Definition request_run this (n : nat) req : M W req_phase :=
  ph ← request_step this n req Asked;
  ph ← request_step this n req ph;
  ph ← request_step this n req ph;
  request_step this n req ph.

Lemma worker_phases this req w :
  shouldRateLimitWorker this req w =
    (_ ← validate req;
     '(limits, us) ← constructLimitsToCheck req (sv_config this);
     ss ← cache_DoLimit (sv_cache this) req limits;
     answer_request this (sv_globalShadowMode this) limits us ss) w.
Proof.
  unfold shouldRateLimitWorker, validate, checkServiceErr.
  by destruct (bool_decide (rq_Domain req ≠ "")), (bool_decide (length _ ≠ 0%nat)).
Qed.

Lemma request_run_eq this n req w :
  request_run this n req w = (r ← ShouldRateLimit this req; mret (Replied n r)) w.
Proof.
  unfold ShouldRateLimit, recover, request_run, request_step, guarded, recover.
  unfold mbind, M_bind. rewrite worker_phases. unfold mbind, M_bind.
  destruct (validate req w) as [[[]|[]|c] w1]; try done. simpl.
  destruct (constructLimitsToCheck req (sv_config this) w1) as [[[limits us]|[]|c] w3]; try done.
  simpl. destruct (cache_DoLimit (sv_cache this) req limits w3) as [[ss|[]|c] w4]; try done.
  simpl. by destruct (answer_request this _ limits us ss w4) as [[resp|[]|c] w5].
Qed.
(** ** The steps *)

Definition in_service (sys : svc_system E C) : nat := pred (length (sy_history sys)).

Definition is_replied (ph : req_phase) : bool := match ph with Replied _ _ => true | _ => false end.

(** An update carries a configuration loaded from valid files, which is on the
    heap, or an error. *)
Definition update_of (ev : ConfigUpdateEventImpl) (files : list RateLimitConfigToLoad) w : Prop :=
  ∃ cf, ev = mkEvent (Some cf) None ∧ valid_config Unit_value merge files = true ∧
    in_force Unit_value m merge files cf w.

Inductive svc_step : svc_system E C → svc_system E C → Prop :=
  | ss_arrive sys req :
      sy_crash sys = None →
      svc_step sys (mkSvc (sy_service sys) (sy_world sys) (sy_history sys)
                      (sy_requests sys ++ [mkReq req (in_service sys) Asked]) None)
  | ss_request sys t th ph' w' :
      sy_crash sys = None → sy_requests sys !! t = Some th → is_replied (rt_phase th) = false →
      request_step (sy_service sys) (in_service sys) (rt_request th) (rt_phase th) (sy_world sys) = (Ret ph', w') →
      svc_step sys (mkSvc (sy_service sys) w' (sy_history sys)
                      (<[t := mkReq (rt_request th) (rt_since th) ph']> (sy_requests sys)) None)
  | ss_request_panic sys t th p w' :
      sy_crash sys = None → sy_requests sys !! t = Some th → is_replied (rt_phase th) = false →
      request_step (sy_service sys) (in_service sys) (rt_request th) (rt_phase th) (sy_world sys) = (Panic p, w') →
      svc_step sys (mkSvc (sy_service sys) w' (sy_history sys) (sy_requests sys) (Some p))
  | ss_update sys ev files this' w' :
      sy_crash sys = None → update_of ev files (sy_world sys) →
      SetConfig (sy_service sys) ev healthy (sy_world sys) = (Ret this', w') →
      svc_step sys (mkSvc this' w' (sy_history sys ++ [files]) (sy_requests sys) None)
  | ss_bad_update sys cf msg this' w' :
      sy_crash sys = None →
      SetConfig (sy_service sys) (mkEvent cf (Some (PConfigError msg))) healthy (sy_world sys) = (Ret this', w') →
      svc_step sys (mkSvc this' w' (sy_history sys) (sy_requests sys) None)
  | ss_update_panic sys ev p w' :
      sy_crash sys = None → provider_event (E := E) ev →
      SetConfig (sy_service sys) ev healthy (sy_world sys) = (Panic p, w') →
      svc_step sys (mkSvc (sy_service sys) w' (sy_history sys) (sy_requests sys) (Some p))
  | ss_world sys w' :
      sy_crash sys = None → heap_ext (w_heap (sy_world sys)) (w_heap w') →
      svc_step sys (mkSvc (sy_service sys) w' (sy_history sys) (sy_requests sys) None).

(** ** The invariant *)

(** Whenever the settings can be read while the process runs, they are [s0]. *)
Context (s0 : Settings).
Hypothesis Henv : ∀ (e : E) s e', env_settings e = (inr s, e') → s = s0.

(** The service has the headers and the shadow mode of the settings. *)
Definition configured this : Prop :=
  sv_globalShadowMode this = se_GlobalShadowMode (se_env s0) ∧
  sv_customHeadersEnabled this = se_RateLimitResponseHeadersEnabled (se_env s0) ∧
  (sv_customHeadersEnabled this = true →
   sv_customHeaderLimitHeader this = se_HeaderRatelimitLimit (se_env s0) ∧
   sv_customHeaderRemainingHeader this = se_HeaderRatelimitRemaining (se_env s0) ∧
   sv_customHeaderResetHeader this = se_HeaderRatelimitReset (se_env s0)).

#[local] Abbreviation shadow0 := (se_GlobalShadowMode (se_env s0)).

Lemma decided_configured files this this' req resp :
  configured this → configured this' →
  decided Unit_value m files shadow0 this req resp → decided Unit_value m files shadow0 this' req resp.
Proof.
  intros (_&He&Hh) (_&He'&Hh') (Hst&Hcode&Hhd). split; [done|]. split; [done|].
  unfold headers_for in *. rewrite He in Hh, Hhd. rewrite He' in Hh' |- *.
  destruct (se_RateLimitResponseHeadersEnabled _); [|done].
  destruct (Hh eq_refl) as (H1'&H2'&H3'), (Hh' eq_refl) as (H4'&H5'&H6').
  destruct Hhd as (o&Ho&Hhs). exists o. split; [done|]. destruct o; [|done].
  rewrite H4', H5', H6'. by rewrite H1', H2', H3' in Hhs.
Qed.

Lemma SetConfig_update this cf w this' w' :
  configured this → SetConfig this (mkEvent (Some cf) None) healthy w = (Ret this', w') →
  configured this' ∧ sv_config this' = Some cf ∧ sv_cache this' = sv_cache this ∧ w_heap w' = w_heap w.
Proof.
  intros (_&He&Hh) Hrun. unfold SetConfig, config_health in Hrun. simpl in Hrun.
  minv Hrun as (hc&w1&Hhc&Hrun). minv Hrun as (u&w2&Hu&Hrun). minv Hrun as (s&w3&Hs&Hrun).
  assert (w_heap w1 = w_heap w) as Hw1 by (destruct healthy; by injection Hhc as _ <-).
  injection Hu as _ <-. unfold NewSettings, ext, mbind, M_bind in Hs. simpl in Hs.
  destruct (env_settings (w_ext w1)) as [[msg|s'] e'] eqn:Henv'; [done|]. injection Hs as -> <-.
  apply Henv in Henv' as ->. injection Hrun as <- <-. split; [|done]. split; [done|]. simpl.
  destruct (se_RateLimitResponseHeadersEnabled _); [by split_and!|by split].
Qed.

(** Past the choice of its limits. *)
Definition is_late (ph : req_phase) : bool :=
  match ph with Chosen _ _ _ _ | Judged _ _ _ _ _ | Replied _ _ => true | _ => false end.

(** Request [req] is in phase [ph]: it was given one of the installed
    configurations, and what it has found so far is what the files say.  Nothing
    is known of the verdicts for a request with an override of unknown unit. *)
Inductive on_track w (history : list (list RateLimitConfigToLoad)) (since : nat) this req : req_phase → Prop :=
  | ot_asked : on_track w history since this req Asked
  | ot_snapped i files cf :
      history !! i = Some files → (since <= i)%nat → valid_config Unit_value merge files = true →
      in_force Unit_value m merge files cf w →
      on_track w history since this req (Snapped i (Some cf) shadow0)
  | ot_chosen i files limits us :
      history !! i = Some files → (since <= i)%nat →
      let specs := spec_limits Unit_value m files req in
      Forall2 (λ spec, stands_for (w_heap w) (kept (replaced_names specs) spec)) specs limits →
      us = unlimited <$> specs →
      length (rq_Descriptors req) = length limits → Forall (good_limit (w_heap w)) limits →
      on_track w history since this req (Chosen i shadow0 limits us)
  | ot_judged i files limits us ss :
      history !! i = Some files → (since <= i)%nat → length limits = length ss →
      answerable Unit_value m files req us ss →
      on_track w history since this req (Judged i shadow0 limits us ss)
  | ot_replied i files resp :
      history !! i = Some files → (since <= i)%nat → decided Unit_value m files shadow0 this req resp →
      on_track w history since this req (Replied i (Some resp, None))
  | ot_failed i msg : on_track w history since this req (Replied i (None, Some msg))
  | ot_unknown ph : ¬ overrides_known req → is_late ph = true → on_track w history since this req ph.

Lemma good_limit_ext h h' o : heap_ext h h' → good_limit h o → good_limit h' o.
Proof.
  intros Hx. destruct o as [l|]; [|done]. intros (rl&d&Hl&Hd). apply Hx in Hl as (rl'&Hl'&Hs).
  exists rl', d. split; [done|]. destruct Hs as (_&<-&_). done.
Qed.

Lemma on_track_mono w w' history more since this this' req ph :
  heap_ext (w_heap w) (w_heap w') → configured this → configured this' →
  on_track w history since this req ph → on_track w' (history ++ more) since this' req ph.
Proof.
  intros Hx Hc Hc'. destruct 1.
  - constructor.
  - econstructor; [by apply lookup_app_l_Some|done|done|]. by eapply in_force_ext.
  - econstructor; [by apply lookup_app_l_Some|done| |done|done|].
    + eapply Forall2_impl; [done|]. intros; by eapply stands_for_ext.
    + eapply Forall_impl; [done|]. intros; by eapply good_limit_ext.
  - econstructor; [by apply lookup_app_l_Some|done..].
  - econstructor; [by apply lookup_app_l_Some|done|]. by apply (decided_configured _ this this').
  - constructor.
  - by apply ot_unknown.
Qed.

Record svc_good (sys : svc_system E C) : Prop := mkSvcGood {
  sg_configured : configured (sy_service sys);
  sg_ok : ok (sv_cache (sy_service sys));
  sg_current : ∃ files cf, last (sy_history sys) = Some files ∧ sv_config (sy_service sys) = Some cf ∧
    valid_config Unit_value merge files = true ∧ in_force Unit_value m merge files cf (sy_world sys);
  sg_requests : ∀ t th, sy_requests sys !! t = Some th →
    (rt_since th <= in_service sys)%nat ∧
    on_track (sy_world sys) (sy_history sys) (rt_since th) (sy_service sys) (rt_request th) (rt_phase th);
  sg_crash : ∀ p, sy_crash sys = Some p → settings_failure (E := E) p ∨
    ∃ t th, sy_requests sys !! t = Some th ∧ ¬ overrides_known (rt_request th);
}.
(** ** Each step keeps the invariant *)

Hypothesis Hunits : units_known Unit_value.

Lemma guarded_Ret this i f w ph w' :
  f w = (Ret ph, w') → guarded this i f w = (Ret ph, w').
Proof. intros Hf. unfold guarded, recover. by rewrite Hf. Qed.

Lemma guarded_error this i f w w' p msg :
  f w = (Panic p, w') → p = PRedisError msg ∨ p = PServiceError msg →
  ∃ w'', guarded this i f w = (Ret (Replied i (None, Some msg)), w'') ∧ w_heap w'' = w_heap w'.
Proof. intros Hf [-> | ->]; unfold guarded, recover; rewrite Hf; by eexists. Qed.

(** A new request is given the configuration in force, or refused. *)
Lemma asked_ok sys req since :
  svc_good sys → (since <= in_service sys)%nat →
  ∃ ph' w', request_step (sy_service sys) (in_service sys) req Asked (sy_world sys) = (Ret ph', w') ∧
    heap_ext (w_heap (sy_world sys)) (w_heap w') ∧
    on_track w' (sy_history sys) since (sy_service sys) req ph'.
Proof.
  intros Hg Hsince. destruct (sg_current _ Hg) as (files&cf&Hlast&Hcf&Hv&Hin). cbn [request_step].
  set (f := _ ← validate req; _). set (w := sy_world sys) in *.
  assert (f w = (Ret (Snapped (in_service sys) (Some cf) shadow0), w) ∨
    ∃ msg, f w = (Panic (PServiceError msg), w)) as [Hf|[msg Hf]].
  { unfold f, validate, checkServiceErr, GetCurrentConfig. rewrite Hcf, (proj1 (sg_configured _ Hg)).
    destruct (bool_decide (rq_Domain req ≠ "")); [|right; by eexists].
    destruct (bool_decide (length (rq_Descriptors req) ≠ 0%nat)); [by left|right; by eexists]. }
  - eexists _, w. split; [by apply guarded_Ret|]. split; [reflexivity|].
    econstructor; [|done..]. rewrite last_lookup in Hlast. exact Hlast.
  - destruct (guarded_error (sy_service sys) (in_service sys) f w w (PServiceError msg) msg Hf) as (w2&Hrun&Hh);
      [by right|].
    eexists _, w2. split; [exact Hrun|]. split; [by rewrite Hh|constructor].
Qed.

(** The next step of a request with known units always succeeds, and keeps it on
    track. *)
Lemma request_step_ok sys t th :
  svc_good sys → sy_requests sys !! t = Some th → overrides_known (rt_request th) →
  ∃ ph' w', request_step (sy_service sys) (in_service sys) (rt_request th) (rt_phase th) (sy_world sys) = (Ret ph', w') ∧
    heap_ext (w_heap (sy_world sys)) (w_heap w') ∧
    on_track w' (sy_history sys) (rt_since th) (sy_service sys) (rt_request th) ph'.
Proof.
  intros Hg Ht Ho. destruct (sg_requests _ Hg t th Ht) as (Hsince&Hot).
  set (this := sy_service sys) in *. set (w := sy_world sys) in *. set (req := rt_request th) in *.
  destruct Hot as [|i files cf Hi Hle Hv Hin|i files limits us Hi Hle specs Hst Hus Hlen Hgood
    |i files limits us ss Hi Hle Hlen Hans|i files resp Hi Hle Hdec|i msg|ph Hno _]; [..|done]; cbn [request_step].
  - by apply asked_ok.
  - pose proof (constructLimitsToCheck_ok Unit_value m merge files cf (λ _, False) req w Hin) as Hrun.
    unfold wp in Hrun. destruct (constructLimitsToCheck req (Some cf) w) as [[[limits us]|p|c] w1] eqn:Hc; [|done..].
    destruct (chosen_good _ _ _ _ _ _ _ _ Hv Hunits Ho Hrun) as [Hlen Hgood].
    destruct Hrun as (Hx&_&Hst&Hus). eexists _, w1. split; [|split; [done|]].
    + apply guarded_Ret. unfold mbind, M_bind. by rewrite Hc.
    + by econstructor.
  - pose proof (cache_law (ok := ok) (sv_cache this) req limits w (sg_ok _ Hg) Hlen Hgood) as Hrun.
    unfold wp in Hrun. destruct (cache_DoLimit (sv_cache this) req limits w) as [[ss|p|c] w1] eqn:Hc; [| |done].
    + destruct Hrun as [Hh Hss]. eexists _, w1. split; [|split; [by rewrite Hh|]].
      * apply guarded_Ret. unfold mbind, M_bind. by rewrite Hc.
      * econstructor; [done|done|by eapply Forall2_length|]. by eapply chosen_answerable.
    + destruct Hrun as [msg ->]. pose proof (cache_keeps (sv_cache this) req limits w) as Hkeep. rewrite Hc in Hkeep. cbn [snd] in Hkeep.
      destruct (guarded_error this i (ss ← cache_DoLimit (sv_cache this) req limits; mret (Judged i shadow0 limits us ss))
        w w1 (PRedisError msg) msg) as (w2&Hrun&Hh); [unfold mbind, M_bind; by rewrite Hc|by left|].
      eexists _, w2. split; [exact Hrun|]. split; [by rewrite Hh, Hkeep|constructor].
  - pose proof (answer_request_ok Unit_value m files (λ _, False) this shadow0 limits req us ss w Hans Hlen) as Hrun.
    unfold wp in Hrun. destruct (answer_request this shadow0 limits us ss w) as [[resp|p|c] w1] eqn:Hc; [|done..].
    destruct Hrun as [Hh Hdec]. eexists _, w1. split; [|split; [by rewrite Hh|]].
    + apply guarded_Ret. unfold mbind, M_bind. by rewrite Hc.
    + by econstructor.
  - eexists _, w. split; [reflexivity|]. split; [reflexivity|]. by econstructor.
  - eexists _, w. split; [reflexivity|]. split; [reflexivity|]. constructor.
Qed.

(** A step of a request, whatever its outcome, leaves the limits on the heap. *)
Lemma keeps_guarded this i (f : M W req_phase) : keeps f → keeps (guarded this i f).
Proof.
  intros Hf w. specialize (Hf w). unfold guarded, recover.
  destruct (f w) as [[ph|p|c] w1]; [done| |done]. simpl in Hf. by destruct p.
Qed.

Lemma keeps_answer_request this shadow limits us ss : keeps (answer_request this shadow limits us ss : M W _).
Proof.
  pose proof (keeps_CalculateReset (E := E)) as Hreset.
  unfold answer_request, Assert, summarize, rateLimitLimitHeader, rateLimitRemainingHeader, rateLimitResetHeader, Inc.
  keeps.
Qed.

Lemma guarded_late this i f w ph w' :
  (∀ w ph w', f w = (Ret ph, w') → is_late ph = true) → guarded this i f w = (Ret ph, w') → is_late ph = true.
Proof.
  intros Hf. unfold guarded, recover. destruct (f w) as [[ph1|p|c] w1] eqn:Hrun; [|destruct p|]; intros [= <- <-]; try done.
  by eapply Hf.
Qed.

Lemma late_step this n req ph w :
  is_late ph = true → w_heap (request_step this n req ph w).2 = w_heap w ∧
  ∀ ph' w', request_step this n req ph w = (Ret ph', w') → is_late ph' = true.
Proof.
  destruct ph as [| |i shadow limits us|i shadow limits us ss|i r]; intros Hlate; try done; cbn [request_step].
  - split.
    + apply keeps_guarded. apply keeps_bind; [apply cache_keeps|]. intros; apply keeps_ret.
    + intros ph' w'. apply guarded_late. intros w0 ph0 w0' Hrun. by minv Hrun as (ss&w1&_&[= <- _]).
  - split.
    + apply keeps_guarded. apply keeps_bind; [apply keeps_answer_request|]. intros; apply keeps_ret.
    + intros ph' w'. apply guarded_late. intros w0 ph0 w0' Hrun. by minv Hrun as (resp&w1&_&[= <- _]).
  - split; [done|]. by intros ph' w' [= <- _].
Qed.

Lemma request_step_unknown sys t th :
  svc_good sys → sy_requests sys !! t = Some th → ¬ overrides_known (rt_request th) →
  let r := request_step (sy_service sys) (in_service sys) (rt_request th) (rt_phase th) (sy_world sys) in
  heap_ext (w_heap (sy_world sys)) (w_heap r.2) ∧
  ∀ ph' w', r = (Ret ph', w') → on_track w' (sy_history sys) (rt_since th) (sy_service sys) (rt_request th) ph'.
Proof.
  intros Hg Ht Hno r. destruct (sg_requests _ Hg t th Ht) as (Hsince&Hot).
  destruct (is_late (rt_phase th)) eqn:Hlate.
  { destruct (late_step (sy_service sys) (in_service sys) (rt_request th) (rt_phase th) (sy_world sys) Hlate) as [Hh Hl].
    split; [unfold r; by rewrite Hh|]. intros ph' w' Hr. apply ot_unknown; [done|]. by eapply Hl. }
  unfold r. clear r. set (this := sy_service sys) in *. set (w := sy_world sys) in *. set (req := rt_request th) in *.
  destruct Hot as [|i files cf Hi Hle Hv Hin| | | | |ph _ Hl]; try done; [| |congruence].
  - destruct (asked_ok sys req (rt_since th) Hg Hsince) as (ph'&w'&Hrun&Hx&Hot). fold this w in Hrun.
    rewrite Hrun. split; [done|]. by intros ph2 w2 [= <- <-].
  - cbn [request_step]. pose proof (constructLimitsToCheck_ok Unit_value m merge files cf (λ _, False) req w Hin) as Hrun.
    unfold wp in Hrun. destruct (constructLimitsToCheck req (Some cf) w) as [[[limits us]|p|c] w1] eqn:Hc; [|done..].
    erewrite guarded_Ret; [|unfold mbind, M_bind; by rewrite Hc]. split; [apply Hrun|].
    intros ph' w' [= <- <-]. by apply ot_unknown.
Qed.

(** Either way. *)
Lemma request_step_any sys t th :
  svc_good sys → sy_requests sys !! t = Some th →
  let r := request_step (sy_service sys) (in_service sys) (rt_request th) (rt_phase th) (sy_world sys) in
  heap_ext (w_heap (sy_world sys)) (w_heap r.2) ∧
  (∀ ph' w', r = (Ret ph', w') → on_track w' (sy_history sys) (rt_since th) (sy_service sys) (rt_request th) ph') ∧
  (∀ p w', r = (Panic p, w') → ¬ overrides_known (rt_request th)).
Proof.
  intros Hg Ht r. destruct (decide (overrides_known (rt_request th))) as [Ho|Hno].
  - destruct (request_step_ok sys t th Hg Ht Ho) as (ph'&w'&Hrun&Hx&Hot). unfold r. rewrite Hrun.
    split; [done|]. split; [by intros ph2 w2 [= <- <-]|by intros p w2 [=]].
  - destruct (request_step_unknown sys t th Hg Ht Hno) as [Hx Hot]. done.
Qed.

Lemma on_track_world w w' history since this req ph :
  heap_ext (w_heap w) (w_heap w') → configured this →
  on_track w history since this req ph → on_track w' history since this req ph.
Proof. intros Hx Hc Hot. rewrite <-(app_nil_r history). by eapply on_track_mono. Qed.

Lemma current_world sys w' o :
  svc_good sys → heap_ext (w_heap (sy_world sys)) (w_heap w') →
  (∀ p, o = Some p → settings_failure (E := E) p ∨
    ∃ t th, sy_requests sys !! t = Some th ∧ ¬ overrides_known (rt_request th)) →
  svc_good (mkSvc (sy_service sys) w' (sy_history sys) (sy_requests sys) o).
Proof.
  intros Hg Hx Ho. split; [apply Hg|apply Hg| | |exact Ho].
  - destruct (sg_current _ Hg) as (files&cf&?&?&?&Hin). exists files, cf. do 3 (split; [done|]). by eapply in_force_ext.
  - intros t th Ht. destruct (sg_requests _ Hg t th Ht) as (?&Hot). split; [done|].
    eapply on_track_world; [done|apply Hg|done].
Qed.

Lemma arrive_good sys req :
  svc_good sys →
  svc_good (mkSvc (sy_service sys) (sy_world sys) (sy_history sys)
              (sy_requests sys ++ [mkReq req (in_service sys) Asked]) None).
Proof.
  intros Hg. split; [apply Hg..| |done]. intros t th [Ht|[_ Ht]]%lookup_app_Some; [exact (sg_requests _ Hg t th Ht)|].
  apply list_lookup_singleton_Some in Ht as [_ <-]. split; [done|constructor].
Qed.

Lemma request_good sys t th ph' w' :
  svc_good sys → sy_requests sys !! t = Some th →
  request_step (sy_service sys) (in_service sys) (rt_request th) (rt_phase th) (sy_world sys) = (Ret ph', w') →
  svc_good (mkSvc (sy_service sys) w' (sy_history sys)
              (<[t := mkReq (rt_request th) (rt_since th) ph']> (sy_requests sys)) None).
Proof.
  intros Hg Ht Hrun. destruct (request_step_any sys t th Hg Ht) as (Hx&Hot&_). rewrite Hrun in Hx. simpl in Hx.
  pose proof (current_world sys w' None Hg Hx ltac:(done)) as Hg'.
  split; [apply Hg'..| |done]. intros t' th' Ht'.
  apply list_lookup_insert_Some in Ht' as [(<-&<-&_)|(_&Ht')]; [|exact (sg_requests _ Hg' t' th' Ht')].
  destruct (sg_requests _ Hg t th Ht) as (?&_). split; [done|]. by apply Hot.
Qed.

Lemma update_good sys ev files this' w' :
  svc_good sys → update_of ev files (sy_world sys) →
  SetConfig (sy_service sys) ev healthy (sy_world sys) = (Ret this', w') →
  svc_good (mkSvc this' w' (sy_history sys ++ [files]) (sy_requests sys) None).
Proof.
  intros Hg (cf&->&Hv&Hin) Hrun.
  destruct (SetConfig_update (sy_service sys) cf (sy_world sys) this' w' (sg_configured _ Hg) Hrun)
    as (Hc&Hcf&Hcache&Hh).
  assert (heap_ext (w_heap (sy_world sys)) (w_heap w')) as Hx by (by rewrite Hh). split; simpl; [done|..|done].
  - rewrite Hcache. apply Hg.
  - exists files, cf. split; [by rewrite last_snoc|]. do 2 (split; [done|]). by eapply in_force_ext.
  - intros t th Ht. destruct (sg_requests _ Hg t th Ht) as (Hle&Hot). split.
    + unfold in_service in *. simpl. rewrite length_app. simpl. lia.
    + eapply on_track_mono; [done|apply Hg|done|done].
Qed.

(** An update that panics only counted its success before. *)
Lemma update_panic_good sys ev p w' :
  svc_good sys → provider_event (E := E) ev →
  SetConfig (sy_service sys) ev healthy (sy_world sys) = (Panic p, w') →
  svc_good (mkSvc (sy_service sys) w' (sy_history sys) (sy_requests sys) (Some p)).
Proof.
  intros Hg Hev Hrun. pose proof (SetConfig_wp (sy_service sys) ev healthy (sy_world sys) Hev) as Hp.
  unfold wp in Hp. rewrite Hrun in Hp. apply current_world; [done| |intros p' [= <-]; by left].
  assert (keeps (SetConfig (E := E) (sy_service sys) ev healthy)) as Hk.
  { unfold SetConfig, config_health, NewSettings, Inc. keeps. }
  specialize (Hk (sy_world sys)). rewrite Hrun in Hk. simpl in Hk. by rewrite Hk.
Qed.

Lemma svc_step_good sys sys' : svc_step sys sys' → svc_good sys → svc_good sys'.
Proof.
  intros Hs Hg. destruct Hs as [sys req _|sys t th ph' w' _ Ht _ Hrun|sys t th p w' _ Ht _ Hrun
    |sys ev files this' w' _ Hu Hrun|sys cf msg this' w' _ Hrun|sys ev p w' _ Hev Hrun|sys w' _ Hx].
  - by apply arrive_good.
  - by apply request_good.
  - destruct (request_step_any sys t th Hg Ht) as (Hx&_&Hp). rewrite Hrun in Hx, Hp.
    apply current_world; [done|done|]. intros p' [= <-]. right. exists t, th. split; [done|]. by eapply Hp.
  - by eapply update_good.
  - unfold SetConfig in Hrun. simpl in Hrun. injection Hrun as <- <-. by apply current_world.
  - by eapply update_panic_good.
  - by apply current_world.
Qed.

Lemma svc_steps_good sys sys' : rtc svc_step sys sys' → svc_good sys → svc_good sys'.
Proof. induction 1 as [|sys sys1 sys' Hs _ IH]; [done|]. intros Hg. by eapply IH, svc_step_good. Qed.

(** The process after the first configuration was installed. *)
Definition svc_started (sys : svc_system E C) : Prop :=
  configured (sy_service sys) ∧ ok (sv_cache (sy_service sys)) ∧ sy_requests sys = [] ∧ sy_crash sys = None ∧
  ∃ files cf, sy_history sys = [files] ∧ sv_config (sy_service sys) = Some cf ∧
    valid_config Unit_value merge files = true ∧ in_force Unit_value m merge files cf (sy_world sys).

Lemma svc_started_good sys : svc_started sys → svc_good sys.
Proof.
  intros (Hc&Hok&Hr&Hcr&files&cf&Hh&Hcf&Hv&Hin). split; [done|done| |by rewrite Hr|by rewrite Hcr].
  exists files, cf. by rewrite Hh.
Qed.
End system.

(** C4: a request is answered by one configuration.  Any requests arrive and are
    served concurrently, and configurations are installed or fail, in any
    interleaving, as long as the settings have the same values whenever they can
    be read, and the unit names of the files are known.  For every request whose
    overrides, if any, name a known unit: its response is the one the
    specification gives for a single configuration of the history, with the
    settings' shadow mode and headers, and that configuration was in force at some
    time between the request's arrival and its reply; and as long as it has no
    reply it can take its next step, which neither blocks nor panics.  If the
    process dies, it dies of settings that could not be read at an update, or a
    request with an override of unknown unit had arrived. *)
Theorem requests_consistent {E C : Type} `{TimeSource E} `{EnvSettings E} (ok : C → Prop)
    `{CacheLaws E C ok} `{!CacheKeeps E C} Unit_value m merge healthy (s0 : Settings)
    (sys sys' : svc_system E C) :
  (∀ (e : E) s e', env_settings e = (inr s, e') → s = s0) → units_known Unit_value →
  svc_started ok Unit_value m merge s0 sys → rtc (svc_step Unit_value m merge healthy) sys sys' →
  (∀ t th, sy_requests sys' !! t = Some th → overrides_known (rt_request th) →
    match rt_phase th with
    | Replied i (Some resp, _) => ∃ files, sy_history sys' !! i = Some files ∧ (rt_since th <= i)%nat ∧
        decided Unit_value m files (se_GlobalShadowMode (se_env s0)) (sy_service sys') (rt_request th) resp
    | Replied i (None, err) => is_Some err
    | ph => ∃ ph' w', request_step (sy_service sys') (in_service sys') (rt_request th) ph (sy_world sys') = (Ret ph', w')
    end) ∧
  ∀ p, sy_crash sys' = Some p → settings_failure (E := E) p ∨
    ∃ t th, sy_requests sys' !! t = Some th ∧ ¬ overrides_known (rt_request th).
Proof.
  intros Henv Hunits Hstart Hrun.
  pose proof (svc_steps_good ok Unit_value m merge healthy s0 Henv Hunits sys sys' Hrun
    (svc_started_good _ _ _ _ _ _ Hstart)) as Hg. split; [|exact (sg_crash _ _ _ _ _ _ Hg)]. intros t th Ht Ho.
  destruct (request_step_ok ok Unit_value m merge s0 Hunits sys' t th Hg Ht Ho) as (ph'&w'&Hstep&_).
  destruct (sg_requests _ _ _ _ _ _ Hg t th Ht) as (_&Hot).
  destruct (rt_phase th) as [| | | |i [[resp|] err]]; [by eexists _, _..| |].
  - inversion Hot as [| | | |? files ? Hi Hle Hdec| |]; subst; [by exists files|done].
  - inversion Hot; subst; [by eexists|done].
Qed.

(** ** On the simulated redis

    A request has taken its configuration, five marketing messages a day, when one
    with a hundred is installed; six hits are answered by the first. *)

#[local] Existing Instance sim_env.

Definition sim_settings : Settings := settings_of [("LIMIT_RESPONSE_HEADERS_ENABLED", "true")].

Definition raised_configs : list RateLimitConfigToLoad :=
  [mkToLoad "messaging.yaml" (mkYamlRoot "messaging"
    [mkYamlDescriptor "message_type" "marketing" None
       [mkYamlDescriptor "to_number" "" (Some (example_limit 100 "day")) [] false false] false false])].

Definition sim_reloaded : rateLimitConfigImpl * World Sim :=
  match Load documented_units raised_configs example_manager false sim_loaded.2 with
  | (Ret cf, w) => (cf, w)
  | (_, w) => (mkConfig ∅ example_manager false, w)
  end.

Lemma sim_reloaded_eq :
  Load documented_units raised_configs example_manager false sim_loaded.2 = (Ret sim_reloaded.1, sim_reloaded.2).
Proof. by vm_compute. Qed.

Lemma sim_reloaded_ext : heap_ext (w_heap sim_loaded.2) (w_heap sim_reloaded.2).
Proof.
  replace (w_heap sim_reloaded.2) with (w_heap sim_loaded.2 ++ drop (length (w_heap sim_loaded.2)) (w_heap sim_reloaded.2))
    by (vm_compute; reflexivity).
  apply heap_ext_app.
Qed.

Definition sim_system : svc_system Sim fixedRateLimitCacheImpl :=
  mkSvc (sim_service (Some sim_loaded.1)) sim_loaded.2 [example_configs] [] None.

(** Request [t] takes [n] steps. *)
Fixpoint advances (n t : nat) (sys : svc_system Sim fixedRateLimitCacheImpl) : option (svc_system Sim fixedRateLimitCacheImpl) :=
  match n with
  | O => Some sys
  | S n =>
      th ← sy_requests sys !! t;
      if is_replied (rt_phase th) || bool_decide (is_Some (sy_crash sys)) then None else
      match request_step (sy_service sys) (in_service sys) (rt_request th) (rt_phase th) (sy_world sys) with
      | (Ret ph', w') => advances n t (mkSvc (sy_service sys) w' (sy_history sys)
                           (<[t := mkReq (rt_request th) (rt_since th) ph']> (sy_requests sys)) None)
      | _ => None
      end
  end.

#[local] Abbreviation sim_step :=
  (svc_step (E := Sim) (C := fixedRateLimitCacheImpl) documented_units example_manager false true).

Lemma advances_steps n t sys sys' : advances n t sys = Some sys' → rtc sim_step sys sys'.
Proof.
  revert sys. induction n as [|n IH]; intros sys; simpl; [by intros [= ->]|].
  destruct (sy_requests sys !! t) as [th|] eqn:Ht; [|done]. simpl.
  destruct (is_replied (rt_phase th)) eqn:Hr; [done|]. simpl. case_bool_decide as Hcr; [done|].
  apply eq_None_not_Some in Hcr.
  destruct (request_step _ _ _ _ _) as [[ph'|p|c] w'] eqn:Hs; [|done..].
  intros Hn. eapply rtc_l; [by eapply ss_request|]. by apply IH.
Qed.

(** The request arrives and takes the configuration; the new one is loaded and
    installed; the request goes on to its reply. *)
Definition sim_snapped : svc_system Sim fixedRateLimitCacheImpl :=
  mkSvc (sim_service (Some sim_loaded.1)) sim_loaded.2 [example_configs]
    [mkReq sim_messages 0 (Snapped 0 (Some sim_loaded.1) false)] None.

Definition sim_installed : svc_system Sim fixedRateLimitCacheImpl :=
  match SetConfig (sim_service (Some sim_loaded.1)) (mkEvent (Some sim_reloaded.1) None) true sim_reloaded.2 with
  | (Ret this, w) => mkSvc this w [example_configs; raised_configs] (sy_requests sim_snapped) None
  | _ => sim_snapped
  end.

Definition sim_answered : svc_system Sim fixedRateLimitCacheImpl := default sim_installed (advances 3 0 sim_installed).

Lemma sim_installed_eq :
  SetConfig (sim_service (Some sim_loaded.1)) (mkEvent (Some sim_reloaded.1) None) true sim_reloaded.2 =
    (Ret (sy_service sim_installed), sy_world sim_installed).
Proof.
  assert (match SetConfig (sim_service (Some sim_loaded.1)) (mkEvent (Some sim_reloaded.1) None) true sim_reloaded.2 with
          | (Ret _, _) => true | _ => false end = true) as Hb by (vm_compute; reflexivity).
  unfold sim_installed. by destruct (SetConfig _ _ _ _) as [[this|p|c] w].
Qed.

Lemma sim_answered_eq : advances 3 0 sim_installed = Some sim_answered.
Proof.
  assert (match advances 3 0 sim_installed with Some _ => true | None => false end = true) as Hb
    by (vm_compute; reflexivity).
  unfold sim_answered. by destruct (advances 3 0 sim_installed).
Qed.

Lemma sim_steps : rtc sim_step sim_system sim_answered.
Proof.
  eapply rtc_l; [by apply (ss_arrive _ _ _ _ sim_system sim_messages)|].
  etransitivity; [apply (advances_steps 1 0 _ sim_snapped); by vm_compute|].
  eapply rtc_l; [apply (ss_world _ _ _ _ sim_snapped sim_reloaded.2); [done|apply sim_reloaded_ext]|].
  eapply rtc_l; [apply (ss_update _ _ _ _ (mkSvc _ sim_reloaded.2 _ _ None) (mkEvent (Some sim_reloaded.1) None) raised_configs
    (sy_service sim_installed) (sy_world sim_installed)); [done| |apply sim_installed_eq]|].
  - eexists. split; [done|]. split; [by vm_compute|].
    eapply Load_config_of; [apply sim_reloaded_eq|reflexivity].
  - apply (advances_steps 3 0). etrans; [|apply sim_answered_eq]. by f_equal.
Qed.

Lemma requests_consistent_witness :
  rtc sim_step sim_system sim_answered ∧ sy_history sim_answered = [example_configs; raised_configs] ∧
  ∃ resp, rt_phase <$> sy_requests sim_answered !! 0%nat = Some (Replied 0 (Some resp, None)) ∧
    rs_OverallCode resp = Code_OVER_LIMIT ∧
    decided documented_units example_manager example_configs false (sy_service sim_answered) sim_messages resp.
Proof.
  split; [apply sim_steps|]. split; [by vm_compute|].
  pose proof (requests_consistent jitter_ok documented_units example_manager false true sim_settings
    sim_system sim_answered) as Hall.
  specialize (Hall ltac:(by intros e s e' [= <- _]) documented_units_known).
  assert (svc_started jitter_ok documented_units example_manager false sim_settings sim_system) as Hstart.
  { split; [by vm_compute|]. split; [by vm_compute|]. split; [done|]. split; [done|].
    exists example_configs, sim_loaded.1. do 2 (split; [done|]). split; [by vm_compute|].
    eapply Load_config_of; [apply sim_loaded_eq|reflexivity]. }
  destruct (Hall Hstart sim_steps) as [Hreq _]. specialize (Hreq 0%nat).
  assert (match sy_requests sim_answered !! 0%nat with
          | Some (mkReq _ _ (Replied O (Some resp, None))) => bool_decide (rs_OverallCode resp = Code_OVER_LIMIT)
          | _ => false
          end = true) as Hret by (vm_compute; reflexivity).
  assert (rt_request <$> sy_requests sim_answered !! 0%nat = Some sim_messages) as Hrq by (vm_compute; reflexivity).
  destruct (sy_requests sim_answered !! 0%nat) as [[rq since [| | | |[|i] [[resp|] [err|]]]]|]; try discriminate Hret.
  apply bool_decide_eq_true in Hret. apply (inj Some) in Hrq. simpl in Hrq. subst rq. exists resp. split; [done|]. split; [done|].
  destruct (Hreq _ eq_refl) as (files&Hfiles&_&Hdec); [by repeat constructor|].
  assert (files = example_configs) as -> by (vm_compute in Hfiles; by injection Hfiles as <-).
  exact Hdec.
Defined.
