(* ===== verification/MemcachedServers.v ===== *)
(** * The memcached client and its servers ([src/memcached/cache_impl.go])

    [newMemcacheFromSettings]: the servers are a fixed list or come from a DNS SRV
    name, which is looked up again periodically, and the connections use TLS when
    it is enabled; [NewRateLimitCacheImplFromSettings] builds the limiter.  The
    resolver and the library's server list are the class [MemcacheServers]. *)

From S2P Require Import Prelude GoStrings World Utils Stats Limiter Memcached Tls Settings SettingsSpec Srv.

#[local] Open Scope Z_scope.

(** [net.LookupSRV], [ServerList.SetServers] and [memcache.New]. *)
Class MemcacheServers (E : Type) : Type := {
  LookupSRV : string → string → string → E → (list SRV + string) * E;
  SetServers : list string → E → option string * E;
  memcache_New : list string → E → unit * E;
}.

(** What the limiter's client is made of. *)
Record memcache_client : Set := mkMemcacheClient {
  mc_refresh : option Z;                  (** the period of the refresh, if any *)
  mc_MaxIdleConns : Z;
  mc_DialTLS : option (option tls_Config);  (** the dialer's configuration *)
}.

Section servers.
Context {E : Type} `{MemcacheServers E}.
#[local] Abbreviation W := (World E).

(** [DnsSrvResolver.ServerStringsFromSrv]: the resolver is only asked when the
    name parses. *)
Definition ServerStringsFromSrv (srv : string) : M W (list string + string) := λ w,
  match ParseSrv srv with
  | inr err => (Ret (inr err), w)
  | inl (service, proto, name) =>
      let '(answer, e) := LookupSRV service proto name (w_ext w) in
      (Ret (lookupServerStringsFromSrv srv (λ _ _ _, answer)), mkWorld (w_heap w) (w_counters w) e)
  end.

Definition refreshServers (srv : string) : M W (option string) :=
  r ← ServerStringsFromSrv srv;
  match r with
  | inr err => mret (Some err)
  | inl servers => ext (SetServers servers)
  end.

(** The first refresh must succeed. *)
Definition newMemcachedFromSrv (srv : string) (d : Z) : M W (option Z) :=
  err ← refreshServers srv;
  match err with
  | Some _ => throw (PMemcacheError "Unable to fetch servers from SRV")
  | None => mret (if 0 <? d then Some d else None)
  end.

Definition newMemcacheFromSettings (s : Settings) : M W memcache_client :=
  if bool_decide (se_MemcacheSrv s ≠ "") && bool_decide (0 < length (se_MemcacheHostPort s))%nat
  then throw (PMemcacheError "Both MEMCADHE_HOST_PORT and MEMCACHE_SRV are set")
  else
    refresh ← (if decide (se_MemcacheSrv s ≠ "")
               then newMemcachedFromSrv (se_MemcacheSrv s) (se_MemcacheSrvRefresh s)
               else _ ← ext (memcache_New (se_MemcacheHostPort s)); mret None);
    mret (mkMemcacheClient refresh (se_MemcacheMaxIdleConns s)
            (if se_MemcacheTls s then Some (se_MemcacheTlsConfig s) else None)).

(** One call per tick until finished; errors are logged and the loop goes on. *)
Definition refreshServersPeriodically (srv : string) (ticks : nat) : M W unit :=
  range (seq 0 ticks) () (λ _ _ _, _ ← refreshServers srv; mret ()).

Definition NewRateLimitCacheImplFromSettings (s : Settings) (localCache : bool) (scope : Scope)
  : M W (rateLimitMemcacheImpl * memcache_client) :=
  client ← newMemcacheFromSettings s;
  mret (NewRateLimitCacheImpl (CollectStats (SubScope scope "memcache")) (se_ExpirationJitterMaxSeconds s)
          localCache (se_NearLimitRatio s) (se_CacheKeyPrefix s), client).

(** ** What a client that starts can rely on *)

Definition memcache_panic (p : panic) : Prop := ∃ msg, p = PMemcacheError msg.

Definition checked_memcache (s : Settings) (c : memcache_client) : Prop :=
  (se_MemcacheSrv s = "" ∨ se_MemcacheHostPort s = []) ∧
  (se_MemcacheSrv s ≠ "" → ∃ parts, ParseSrv (se_MemcacheSrv s) = inl parts) ∧
  mc_MaxIdleConns c = se_MemcacheMaxIdleConns s ∧
  mc_refresh c = (if bool_decide (se_MemcacheSrv s ≠ "") && (0 <? se_MemcacheSrvRefresh s)
                  then Some (se_MemcacheSrvRefresh s) else None) ∧
  mc_DialTLS c = (if se_MemcacheTls s then Some (se_MemcacheTlsConfig s) else None).

(** An error of a refresh comes from the name, the resolver or the server list;
    a refresh that succeeds has parsed the name. *)
Lemma refreshServers_ok Err srv w :
  wp Err (refreshServers srv) w (λ err _, err = None → ∃ parts, ParseSrv srv = inl parts).
Proof.
  unfold wp, refreshServers, mbind, M_bind, ServerStringsFromSrv, lookupServerStringsFromSrv.
  destruct (ParseSrv srv) as [[[service proto] name]|err]; [|done].
  destruct (LookupSRV _ _ _ _) as [[srvs|err] e]; [|done]. unfold ext; simpl.
  destruct (SetServers _ e) as [err e']. intros _. by eexists.
Qed.

Lemma newMemcachedFromSrv_ok srv d w :
  wp memcache_panic (newMemcachedFromSrv srv d) w (λ r _,
    (∃ parts, ParseSrv srv = inl parts) ∧ r = (if 0 <? d then Some d else None)).
Proof.
  unfold newMemcachedFromSrv. eapply wp_bind; [apply refreshServers_ok|]. intros [err|] w1 Hp.
  - apply wp_throw. by eexists.
  - apply wp_ret. split; [by apply Hp|done].
Qed.

(** A client is made or the start fails with a memcached error: both kinds of
    server list at once are refused, and an SRV name must parse and be known. *)
Lemma newMemcacheFromSettings_ok (s : Settings) w :
  wp memcache_panic (newMemcacheFromSettings s) w (λ c _, checked_memcache s c).
Proof.
  unfold newMemcacheFromSettings.
  destruct (bool_decide_reflect (se_MemcacheSrv s ≠ "")) as [Hsrv|Hsrv]; simpl.
  - destruct (bool_decide_reflect (0 < length (se_MemcacheHostPort s))%nat) as [Hl|Hl];
      [apply wp_throw; by eexists|].
    rewrite decide_True by done. eapply wp_bind; [apply newMemcachedFromSrv_ok|].
    intros r w1 [Hp ->]. apply wp_ret. unfold checked_memcache. rewrite bool_decide_true by done.
    split; [right; by apply nil_length_inv; lia|]. by split_and!.
  - rewrite decide_False by done. eapply wp_bind with (Q := λ r _, r = None).
    + unfold wp, mbind, M_bind, ext. by destruct (memcache_New _ _).
    + intros r w1 ->. apply wp_ret. unfold checked_memcache. rewrite bool_decide_false by done.
      split; [left; by apply dec_stable|]. by split_and!.
Qed.
End servers.
