(* ===== verification/Provider.v ===== *)
(** * Where configurations come from

    - [src/config/config_impl.go]: [validateYamlKeys], [ConfigFileContentToYaml];
    - [src/config/config_xds.go]: the translation of xDS resources;
    - [src/provider/file_provider.go]: [sendEvent];
    - [src/provider/xds_grpc_sotw_provider.go]: [sendConfigs], the node metadata
      and the connection loop.

    The YAML decoder, the protobuf runtime and the printer of arbitrary values
    are parameters.  A decoded mapping is the list of its entries in the order a
    Go map happens to be iterated. *)

From S2P Require Import Prelude GoStrings World Utils Stats Config Limiter Tls Settings Health Service.

#[local] Open Scope Z_scope.

(** ** Generic YAML values *)

Inductive yaml_key : Set := KString (s : string) | KOther (text : string).

Inductive yaml_value : Set :=
  | YSeq (l : list yaml_value)
  | YMap (m : list (yaml_key * yaml_value))
  | YString (s : string)
  | YInt (z : Z)
  | YBool (b : bool)
  | YNil
  | YOther (text : string).          (** a float, a timestamp, ... *)

Definition validKeys : list string :=
  ["domain"; "key"; "value"; "descriptors"; "rate_limit"; "unit"; "requests_per_unit";
   "unlimited"; "shadow_mode"; "name"; "replaces"; "detailed_metric"].

Section yaml.
Context {W : Type} (print : yaml_value → string).

Definition check_key (fileName : string) (k : yaml_key) : M W unit :=
  match k with
  | KOther text =>
      throw (newRateLimitConfigError fileName
               ("config error, key is not of type string: " +:+ text))
  | KString s =>
      if decide (s ∈ validKeys) then mret ()
      else throw (newRateLimitConfigError fileName ("config error, unknown key '" +:+ s +:+ "'"))
  end.

(** The type switch on one value; the loops are the recursive calls. *)
Fixpoint validate_value (fileName : string) (v : yaml_value) : M W unit :=
  match v with
  | YSeq l =>
      (fix elements (l : list yaml_value) : M W unit :=
         match l with
         | [] => mret ()
         | e :: l' =>
             _ ← match e with
                 | YMap _ => validate_value fileName e
                 | _ => throw (newRateLimitConfigError fileName
                          ("config error, yaml file contains list of type other than map: " +:+ print e))
                 end;
             elements l'
         end) l
  | YMap m =>
      (fix entries (m : list (yaml_key * yaml_value)) : M W unit :=
         match m with
         | [] => mret ()
         | (k, v') :: m' =>
             _ ← check_key fileName k;
             _ ← validate_value fileName v';
             entries m'
         end) m
  | YString _ | YInt _ | YBool _ | YNil => mret ()
  | YOther _ => throw (newRateLimitConfigError fileName "error checking config")
  end.

Definition validateYamlKeys (fileName : string) (config_map : list (yaml_key * yaml_value))
  : M W unit := validate_value fileName (YMap config_map).

Definition ConfigFileContentToYaml
    (unmarshal_any : string → list (yaml_key * yaml_value) + string)
    (unmarshal_root : string → YamlRoot + string) (fileName content : string) : M W YamlRoot :=
  let load_error err := newRateLimitConfigError fileName ("error loading config file: " +:+ err) in
  match unmarshal_any content with
  | inr err => throw (load_error err)
  | inl any =>
      _ ← validateYamlKeys fileName any;
      match unmarshal_root content with
      | inr err => throw (load_error err)
      | inl root => mret root
      end
  end.
End yaml.

(** ** xDS resources *)

Record RateLimitReplacePb : Set := mkReplacePb { rp_Name : string }.

Record RateLimitPolicyPb : Set := mkPolicyPb {
  pp_Unit : Z;
  pp_RequestsPerUnit : Z;
  pp_Unlimited : bool;
  pp_Name : string;
  pp_Replaces : list RateLimitReplacePb;
}.

Inductive RateLimitDescriptorPb : Set := mkDescriptorPb {
  dp_Key : string;
  dp_Value : string;
  dp_RateLimit : option RateLimitPolicyPb;
  dp_Descriptors : list RateLimitDescriptorPb;
  dp_ShadowMode : bool;
  dp_DetailedMetric : bool;
}.

Record RateLimitConfigPb : Set := mkConfigPb {
  cp_Name : string;
  cp_Domain : string;
  cp_Descriptors : list RateLimitDescriptorPb;
}.

Section xds.
(** [Unit.String()], generated. *)
Context (unit_String : Z → string).

Definition rateLimitReplacesPbToYaml (pb : list RateLimitReplacePb) : list yamlReplaces :=
  (λ r, mkYamlReplaces (rp_Name r)) <$> pb.

Definition rateLimitPolicyPbToYaml (pb : option RateLimitPolicyPb) : option YamlRateLimit :=
  match pb with
  | None => None
  | Some p =>
      Some (mkYamlRateLimit (pp_RequestsPerUnit p) (unit_String (pp_Unit p)) (pp_Unlimited p)
              (pp_Name p) (rateLimitReplacesPbToYaml (pp_Replaces p)))
  end.

Fixpoint rateLimitDescriptorPbToYaml (d : RateLimitDescriptorPb) : YamlDescriptor :=
  mkYamlDescriptor (dp_Key d) (dp_Value d) (rateLimitPolicyPbToYaml (dp_RateLimit d))
    (map rateLimitDescriptorPbToYaml (dp_Descriptors d)) (dp_ShadowMode d) (dp_DetailedMetric d).

Definition rateLimitDescriptorsPbToYaml (pb : list RateLimitDescriptorPb) : list YamlDescriptor :=
  map rateLimitDescriptorPbToYaml pb.

Definition ConfigXdsProtoToYaml (xdsProto : RateLimitConfigPb) : YamlRoot :=
  mkYamlRoot (cp_Domain xdsProto) (rateLimitDescriptorsPbToYaml (cp_Descriptors xdsProto)).
End xds.

(** ** Providers *)

Section providers.
Context {E : Type} `{EnvSettings E} (Unit_value : string → option Z).
#[local] Abbreviation W := (World E).

Section file.
Context (print : yaml_value → string)
  (unmarshal_any : string → list (yaml_key * yaml_value) + string)
  (unmarshal_root : string → YamlRoot + string).

(** The files of the runtime snapshot that are configurations. *)
Definition read_files (runtimeWatchRoot : bool) (RuntimeAppDirectory : string)
    (snapshot : list (string * string)) : M W (list RateLimitConfigToLoad) :=
  range snapshot [] (λ _ '(key, content) files,
    if runtimeWatchRoot && negb (HasPrefix key (RuntimeAppDirectory +:+ ".")) then mret files
    else
      configYaml ← ConfigFileContentToYaml print unmarshal_any unmarshal_root key content;
      mret (files ++ [mkToLoad key configYaml])).

(** Returns the event put on the channel. *)
Definition sendEvent (statsManager : ManagerImpl) (runtimeWatchRoot : bool)
    (RuntimeAppDirectory : string) (snapshot : list (string * string))
  : M W ConfigUpdateEventImpl :=
  recover
    (files ← read_files runtimeWatchRoot RuntimeAppDirectory snapshot;
     rlSettings ← NewSettings;
     newConfig ← Load Unit_value files statsManager (se_MergeDomainConfigurations (se_env rlSettings));
     mret (mkEvent (Some newConfig) None))
    (λ e, mret (mkEvent None (Some e))).
End file.

Section xds.
Context {Any : Type} (unmarshal : Any → RateLimitConfigPb + string) (unit_String : Z → string)
  (Sprint : panic → string).

Inductive ads_reply : Set := Ack | Nack (msg : string).

(** The resources decoded so far, or the first error. *)
Fixpoint decode_resources (resources : list Any) : list RateLimitConfigToLoad + string :=
  match resources with
  | [] => inl []
  | res :: rest =>
      match unmarshal res with
      | inr err => inr err
      | inl confPb =>
          match decode_resources rest with
          | inr err => inr err
          | inl conf =>
              inl (mkToLoad (cp_Name confPb) (ConfigXdsProtoToYaml unit_String confPb) :: conf)
          end
      end
  end.

(** The event put on the channel, if any, and the answer to the server. *)
Definition sendConfigs (statsManager : ManagerImpl) (resources : list Any)
  : M W (option ConfigUpdateEventImpl * ads_reply) :=
  recover
    (match decode_resources resources with
     | inr err => mret (None, Nack err)
     | inl conf =>
         rlSettings ← NewSettings;
         rlsConf ← Load Unit_value conf statsManager (se_MergeDomainConfigurations (se_env rlSettings));
         mret (Some (mkEvent (Some rlsConf) None), Ack)
     end)
    (λ e, mret (Some (mkEvent None (Some e)), Nack (Sprint e))).
End xds.
End providers.

(** ** The metadata of the xDS node *)

Definition node_metadata (ConfigGrpcXdsNodeMetadata : string) : gmap string string :=
  foldl (λ m entry,
    match Cut entry "=" with           (* strings.SplitN(entry, "=", 2) *)
    | Some (k, v) => <[k := v]> m
    | None => m
    end) ∅ (Split ConfigGrpcXdsNodeMetadata ",").

(** ** The xDS connection loop

    [initXdsClient] is the only receiver of the unbuffered retry channel; a
    watcher started by a successful connection sends to it when its stream
    fails, and so does [initializeAndWatch] itself when the connection fails. *)

Inductive loop_pc : Set :=
  | Connecting                (** in [initializeAndWatch], dialing *)
  | RetrySend                 (** in [retryGrpcConn], called by [initializeAndWatch] *)
  | Receiving                 (** at the head of the [range] loop *)
  | Stopped.

Inductive watcher_pc : Set :=
  | Watching
  | SendRetry.                (** blocked in [retryGrpcConn] *)

Record xds_state : Set := mkXds {
  xs_loop : loop_pc;
  xs_watchers : list watcher_pc;
  xs_stop : bool;             (** [Stop] is blocked sending [false] *)
}.

Inductive xds_step : xds_state → xds_state → Prop :=
  | dial_ok ws s : xds_step (mkXds Connecting ws s) (mkXds Receiving (Watching :: ws) s)
  | dial_error ws s : xds_step (mkXds Connecting ws s) (mkXds RetrySend ws s)
  | fetch_error l ws1 ws2 s :
      xds_step (mkXds l (ws1 ++ Watching :: ws2) s) (mkXds l (ws1 ++ SendRetry :: ws2) s)
  | recv_retry ws1 ws2 s :
      xds_step (mkXds Receiving (ws1 ++ SendRetry :: ws2) s) (mkXds Connecting (ws1 ++ ws2) s)
  | stop_called l ws : xds_step (mkXds l ws false) (mkXds l ws true)
  | recv_stop ws : xds_step (mkXds Receiving ws true) (mkXds Stopped ws false).
