(* ===== verification/ProviderSpec.v ===== *)
(** * Configuration sources: what they accept and what reaches the service

    The key check and the reading of files as verdicts that do not depend on map
    order, a runtime update from the files to the service, the answers to xDS
    responses, the xDS translation read back, and the invariants and the
    deadlock of the xDS connection loop. *)

From S2P Require Import Prelude GoStrings World Utils Stats Config ConfigLoad ConfigLookup.
From S2P Require Import Limiter LimiterSpec Tls Settings SettingsSpec Health Service ServiceSpec.
From S2P Require Import ServiceTheorems Provider.
From stdpp Require Import relations.

#[local] Open Scope Z_scope.

(** ** Valid keys *)

Definition valid_key (k : yaml_key) : bool :=
  match k with KString s => bool_decide (s ∈ validKeys) | KOther _ => false end.

Definition is_map (v : yaml_value) : bool := match v with YMap _ => true | _ => false end.

Fixpoint valid_value (v : yaml_value) : bool :=
  match v with
  | YSeq l => forallb (λ e, is_map e && valid_value e) l
  | YMap m => forallb (λ p, valid_key p.1 && valid_value p.2) m
  | YOther _ => false
  | _ => true
  end.

Fixpoint yaml_value_nested_ind (P : yaml_value → Prop)
    (Hseq : ∀ l, Forall P l → P (YSeq l)) (Hmap : ∀ m, Forall (λ p, P p.2) m → P (YMap m))
    (Hstr : ∀ s, P (YString s)) (Hint : ∀ z, P (YInt z)) (Hbool : ∀ b, P (YBool b)) (Hnil : P YNil)
    (Hother : ∀ t, P (YOther t)) (v : yaml_value) : P v :=
  match v with
  | YSeq l =>
      Hseq l ((fix go l : Forall P l :=
        match l with
        | [] => Forall_nil_2 P
        | e :: l' => Forall_cons_2 P e l'
            (yaml_value_nested_ind P Hseq Hmap Hstr Hint Hbool Hnil Hother e) (go l')
        end) l)
  | YMap m =>
      Hmap m ((fix go m : Forall (λ p, P p.2) m :=
        match m with
        | [] => Forall_nil_2 _
        | p :: m' => Forall_cons_2 (λ p, P p.2) p m'
            (yaml_value_nested_ind P Hseq Hmap Hstr Hint Hbool Hnil Hother p.2) (go m')
        end) m)
  | YString s => Hstr s
  | YInt z => Hint z
  | YBool b => Hbool b
  | YNil => Hnil
  | YOther t => Hother t
  end.

(** A check that either passes or panics with a configuration error, and never
    touches the state. *)
Definition verdict {W} (ok : bool) (m : M W unit) : Prop :=
  ∀ w, if ok then m w = (Ret (), w) else ∃ msg, m w = (Panic (PConfigError msg), w).

Lemma verdict_bind {W} ok ok' (m : M W unit) (k : M W unit) :
  verdict ok m → (ok = true → verdict ok' k) → verdict (ok && ok') (_ ← m; k).
Proof.
  intros Hm Hk w. specialize (Hm w). destruct ok; simpl.
  - specialize (Hk eq_refl w). rewrite (bind_Ret _ _ _ _ _ Hm). exact Hk.
  - destruct Hm as [msg Hm]. exists msg. by erewrite bind_Panic.
Qed.

Lemma verdict_error {W} name msg : verdict (W := W) false (throw (newRateLimitConfigError name msg)).
Proof. intros w. by eexists. Qed.

Lemma verdict_ok {W} : verdict (W := W) true (mret ()).
Proof. by intros w. Qed.

#[local] Hint Resolve verdict_error verdict_ok : core.

Lemma check_key_verdict {W} fileName k : verdict (W := W) (valid_key k) (check_key fileName k).
Proof. destruct k as [s|t]; simpl; [|done]. case_decide; [rewrite bool_decide_true|rewrite bool_decide_false]; done. Qed.

Lemma validate_value_verdict {W} print fileName v :
  verdict (W := W) (valid_value v) (validate_value print fileName v).
Proof.
  induction v as [l IH|m IH|s|z|b| |t] using yaml_value_nested_ind; simpl; try done.
  - induction IH as [|e l He _ IHl]; [done|]. simpl. apply verdict_bind; [|done].
    destruct e; simpl in *; done.
  - induction IH as [|[k v] m Hv _ IHm]; [done|]. simpl in *. rewrite <-andb_assoc.
    apply verdict_bind; [apply check_key_verdict|]. intros _. by apply verdict_bind.
Qed.

Lemma forallb_Permutation {A} (f : A → bool) l l' : l ≡ₚ l' → forallb f l = forallb f l'.
Proof. induction 1; simpl; try congruence. by rewrite !andb_assoc, (andb_comm (f y)). Qed.

(** C29: the key check of a configuration file passes exactly when every key at
    every depth is a known string key, every list holds mappings only and every
    leaf is a string, an integer, a boolean or absent.  Otherwise it panics with
    a configuration error.  Whether it passes does not depend on the order in
    which the file's mapping is iterated. *)
Theorem validateYamlKeys_verdict {W} print fileName config_map config_map' (w : W) :
  config_map ≡ₚ config_map' →
  if valid_value (YMap config_map)
  then validateYamlKeys print fileName config_map' w = (Ret (), w)
  else ∃ msg, validateYamlKeys print fileName config_map' w = (Panic (PConfigError msg), w).
Proof.
  intros Hp. unfold valid_value. rewrite (forallb_Permutation _ _ _ Hp).
  apply (validate_value_verdict print fileName (YMap config_map')).
Qed.

Lemma validateYamlKeys_verdict_witness :
  ∃ msg, validateYamlKeys (W := unit) (λ _, "") "f.yaml"
      [(KString "descriptors", YSeq [YMap [(KString "ratelimit", YNil)]]); (KString "domain", YString "d")] () =
    (Panic (PConfigError msg), ()).
Proof.
  apply (validateYamlKeys_verdict (λ _, "") "f.yaml"
    [(KString "domain", YString "d"); (KString "descriptors", YSeq [YMap [(KString "ratelimit", YNil)]])]).
  constructor.
Defined.

(** ** Files *)

Section file.
Context {E C : Type} `{TimeSource E} `{EnvSettings E} `{RateLimitCache E C}
  (Unit_value : string → option Z) (print : yaml_value → string)
  (unmarshal_any : string → list (yaml_key * yaml_value) + string)
  (unmarshal_root : string → YamlRoot + string).
#[local] Abbreviation W := (World E).
Implicit Types w : W.

Definition is_config_error (p : panic) : Prop := ∃ msg, p = PConfigError msg.

(** The configuration a file stands for, when it is readable and its keys are
    valid. *)
Definition file_yaml (content : string) : option YamlRoot :=
  match unmarshal_any content, unmarshal_root content with
  | inl any, inl root => if valid_value (YMap any) then Some root else None
  | _, _ => None
  end.

Lemma ConfigFileContentToYaml_verdict fileName content w :
  match file_yaml content with
  | Some root => ConfigFileContentToYaml print unmarshal_any unmarshal_root fileName content w = (Ret root, w)
  | None => ∃ msg, ConfigFileContentToYaml print unmarshal_any unmarshal_root fileName content w =
      (Panic (PConfigError msg), w)
  end.
Proof.
  unfold file_yaml, ConfigFileContentToYaml. destruct (unmarshal_any content) as [any|err]; [|by eexists].
  pose proof (validate_value_verdict print fileName (YMap any) w) as Hv. unfold validateYamlKeys.
  destruct (valid_value (YMap any)).
  - rewrite (bind_Ret _ _ _ _ _ Hv). destruct (unmarshal_root content); [done|by eexists].
  - destruct Hv as [msg Hv]. assert (∃ msg, (_ ← validate_value print fileName (YMap any);
      match unmarshal_root content with
      | inr err => throw (newRateLimitConfigError fileName ("error loading config file: " +:+ err))
      | inl root => mret root
      end) w = (Panic (PConfigError msg), w)) as [msg' Hm].
    { exists msg. by erewrite bind_Panic. }
    destruct (unmarshal_root content); by exists msg'.
Qed.

Definition selected_file (watchRoot : bool) (dir : string) (f : string * string) : bool :=
  negb (watchRoot && negb (HasPrefix f.1 (dir +:+ "."))).

(** The configurations of the selected files, if all can be read. *)
Fixpoint files_yaml (watchRoot : bool) (dir : string) (fs : list (string * string))
  : option (list RateLimitConfigToLoad) :=
  match fs with
  | [] => Some []
  | f :: fs' =>
      if selected_file watchRoot dir f then
        root ← file_yaml f.2; rest ← files_yaml watchRoot dir fs'; Some (mkToLoad f.1 root :: rest)
      else files_yaml watchRoot dir fs'
  end.

Lemma read_files_verdict watchRoot dir fs w :
  match files_yaml watchRoot dir fs with
  | Some cs => read_files print unmarshal_any unmarshal_root watchRoot dir fs w = (Ret cs, w)
  | None => ∃ msg, read_files print unmarshal_any unmarshal_root watchRoot dir fs w =
      (Panic (PConfigError msg), w)
  end.
Proof.
  unfold read_files, range.
  enough (∀ i acc, match files_yaml watchRoot dir fs with
    | Some cs => range_from i fs (λ _ '(key, content) files,
        if watchRoot && negb (HasPrefix key (dir +:+ ".")) then mret files
        else configYaml ← ConfigFileContentToYaml print unmarshal_any unmarshal_root key content;
             mret (files ++ [mkToLoad key configYaml])) acc w = (Ret (acc ++ cs), w)
    | None => ∃ msg, range_from i fs (λ _ '(key, content) files,
        if watchRoot && negb (HasPrefix key (dir +:+ ".")) then mret files
        else configYaml ← ConfigFileContentToYaml print unmarshal_any unmarshal_root key content;
             mret (files ++ [mkToLoad key configYaml])) acc w = (Panic (PConfigError msg), w)
    end) as Hgen by exact (Hgen 0%nat []).
  induction fs as [|[key content] fs IH]; intros i acc; [simpl; by rewrite app_nil_r|].
  cbn [files_yaml range_from]. unfold selected_file; simpl.
  destruct (watchRoot && negb (HasPrefix key (dir +:+ "."))); simpl; [apply IH|].
  pose proof (ConfigFileContentToYaml_verdict key content w) as Hv.
  destruct (file_yaml content) as [root|]; simpl.
  - specialize (IH (S i) (acc ++ [mkToLoad key root])).
    destruct (files_yaml watchRoot dir fs) as [cs|]; simpl.
    + erewrite bind_Ret; [|by rewrite (bind_Ret _ _ _ _ _ Hv)]. by rewrite IH, <-app_assoc.
    + destruct IH as [msg IH]. exists msg. erewrite bind_Ret; [exact IH|by rewrite (bind_Ret _ _ _ _ _ Hv)].
  - destruct Hv as [msg Hv]. exists msg. erewrite bind_Panic; [done|]. by erewrite bind_Panic.
Qed.

(** A runtime update, from the files to the service. *)
Definition file_update (m : ManagerImpl) watchRoot dir fs (this : service C) healthy : M W (service C) :=
  ev ← sendEvent Unit_value print unmarshal_any unmarshal_root m watchRoot dir fs;
  SetConfig this ev healthy.

(** The event a provider sends for configurations that load, and otherwise. *)
Lemma Load_event m merge cs w :
  match Load Unit_value cs m merge w with
  | (Ret cf, w') => valid_config Unit_value merge cs = true ∧
      config_of Unit_value m merge (w_heap w') cs cf ∧ heap_ext (w_heap w) (w_heap w') ∧
      w_counters w' = w_counters w ∧ w_ext w' = w_ext w
  | (Panic p, w') => valid_config Unit_value merge cs = false ∧ is_config_error p ∧
      heap_ext (w_heap w) (w_heap w') ∧ w_counters w' = w_counters w ∧ w_ext w' = w_ext w
  | (Exit _, _) => False
  end.
Proof.
  pose proof (NewRateLimitConfigImpl_accepts Unit_value m merge cs w) as Ha.
  pose proof (steady_Load Unit_value m merge cs w) as Hst. unfold Load, accepts in *.
  destruct (valid_config Unit_value merge cs).
  - destruct Ha as (cf&w'&Hrun&Hc&_). rewrite Hrun in *. done.
  - destruct Ha as (msg&w'&Hrun). rewrite Hrun in *. split; [done|]. split; [by exists msg|done].
Qed.

(** The event the provider sends: a failure of the settings included, which
    [sendEvent] recovers from and passes on. *)
Lemma sendEvent_sends m watchRoot dir fs w :
  wp (λ _, False) (sendEvent Unit_value print unmarshal_any unmarshal_root m watchRoot dir fs) w (λ ev w',
    heap_ext (w_heap w) (w_heap w') ∧ w_counters w' = w_counters w ∧
    match files_yaml watchRoot dir fs with
    | Some cs =>
        match env_settings (w_ext w) with
        | (inr s, e') =>
            if valid_config Unit_value (se_MergeDomainConfigurations s) cs
            then ∃ cf, ev = mkEvent (Some cf) None ∧
                   config_of Unit_value m (se_MergeDomainConfigurations s) (w_heap w') cs cf
            else ∃ msg, ev = mkEvent None (Some (PConfigError msg))
        | (inl msg, _) => ev = mkEvent None (Some (PError msg))
        end
    | None => ∃ msg, ev = mkEvent None (Some (PConfigError msg))
    end).
Proof.
  unfold sendEvent, wp, recover.
  pose proof (read_files_verdict watchRoot dir fs w) as Hr.
  destruct (files_yaml watchRoot dir fs) as [cs|].
  2: { destruct Hr as [msg Hr]. erewrite bind_Panic by exact Hr. simpl. split_and!; [done..|]. by exists msg. }
  rewrite (bind_Ret _ _ _ _ _ Hr). unfold NewSettings, ext, mbind, M_bind.
  destruct (env_settings (w_ext w)) as [[msg|s] e']; [done|]. simpl.
  pose proof (Load_event m (se_MergeDomainConfigurations s) cs
    (mkWorld (w_heap w) (w_counters w) e')) as Hl.
  destruct (Load Unit_value cs m _ _) as [[cf|p|c] w1]; [|simpl|done].
  - destruct Hl as (->&Hcf&?&?&_). simpl. split_and!; [done..|]. by exists cf.
  - destruct Hl as (->&[msg ->]&?&?&_). split_and!; [done..|]. by exists msg.
Qed.

Lemma sendEvent_ok m watchRoot dir fs w s e' :
  env_settings (w_ext w) = (inr s, e') →
  wp (λ _, False) (sendEvent Unit_value print unmarshal_any unmarshal_root m watchRoot dir fs) w (λ ev w',
    match files_yaml watchRoot dir fs with
    | Some cs =>
        if valid_config Unit_value (se_MergeDomainConfigurations s) cs
        then ∃ cf, ev = mkEvent (Some cf) None ∧
               config_of Unit_value m (se_MergeDomainConfigurations s) (w_heap w') cs cf
        else ∃ msg, ev = mkEvent None (Some (PConfigError msg))
    | None => ∃ msg, ev = mkEvent None (Some (PConfigError msg))
    end).
Proof.
  intros Hs. eapply wp_mono; [apply sendEvent_sends|]. intros ev w' (_&_&Hev). by rewrite Hs in Hev.
Qed.

(** C21: a runtime update is applied or changes nothing.  From any state, the
    update returns, unless the settings cannot be read: the only panic is the
    error [NewSettings] gives.  When a configuration file cannot be read or has
    an invalid key, or the set of files is not valid under the merge setting
    just read, the service is exactly as before and exactly one load error is
    counted; otherwise the configuration of the files is in force and exactly
    one load success is counted.  No other statistic changes, and the limits
    of the previous configuration stay intact. *)
Theorem file_update_safe m watchRoot dir fs (this : service C) healthy w :
  wp settings_failure (file_update m watchRoot dir fs this healthy) w (λ this' w',
    let rejected := this' = this ∧
      w_counters w' = ctr_add (sv_ConfigLoadError (sv_stats this)) 1 (w_counters w) in
    heap_ext (w_heap w) (w_heap w') ∧
    match files_yaml watchRoot dir fs with
    | None => rejected
    | Some cs => ∃ s e', env_settings (w_ext w) = (inr s, e') ∧
        if valid_config Unit_value (se_MergeDomainConfigurations s) cs then
          w_counters w' = ctr_add (sv_ConfigLoadSuccess (sv_stats this)) 1 (w_counters w) ∧
          ∃ cf, sv_config this' = Some cf ∧
            config_of Unit_value m (se_MergeDomainConfigurations s) (w_heap w') cs cf
        else rejected
    end).
Proof.
  unfold file_update. eapply wp_bind.
  { by eapply wp_mono_err; [apply sendEvent_sends|]. }
  intros ev w1 (Hx&Hctr&Hev).
  assert (∀ msg, ev = mkEvent None (Some (PConfigError msg)) →
    wp settings_failure (SetConfig this ev healthy) w1 (λ this' w', heap_ext (w_heap w) (w_heap w') ∧ this' = this ∧
      w_counters w' = ctr_add (sv_ConfigLoadError (sv_stats this)) 1 (w_counters w))) as Herr.
  { intros msg ->. eapply wp_Ret; [reflexivity|]. simpl. by rewrite Hctr. }
  destruct (files_yaml watchRoot dir fs) as [cs|]; [|destruct Hev as [msg Hev]; by eapply Herr].
  destruct (env_settings (w_ext w)) as [[msg|s] e'] eqn:Hs.
  { rewrite Hev. simpl. unfold wp. simpl. by eexists _, _, _. }
  destruct (valid_config Unit_value (se_MergeDomainConfigurations s) cs) eqn:Hv.
  - destruct Hev as (cf&->&Hcf). eapply wp_mono; [apply SetConfig_wp; left; left; by eexists|].
    intros this' w' (Hc&_&_&Hh&Hctr'). rewrite Hh, Hctr', Hctr. split; [done|]. exists s, e'.
    rewrite Hv. split_and!; [done..|]. exists cf. by rewrite Hc.
  - destruct Hev as [msg Hev]. eapply wp_mono; [by eapply Herr|]. intros this' w' (?&->&?).
    split; [done|]. exists s, e'. by rewrite Hv.
Qed.
End file.

(** A file with an unknown key, next to a valid one. *)
Section file_witness.
#[local] Instance const_env : EnvSettings unit := λ e,
  (inr (settings_of []), e).
#[local] Instance const_clock : TimeSource unit := λ e, (0, e).
#[local] Instance no_backend : RateLimitCache unit unit :=
  {| cache_DoLimit _ _ _ := mret []; cache_Flush _ := mret () |}.

Definition toy_any (content : string) : list (yaml_key * yaml_value) + string :=
  if decide (content = "good") then inl [(KString "domain", YString "d")]
  else inl [(KString "domian", YString "d")].
Definition toy_root (content : string) : YamlRoot + string := inl (mkYamlRoot "d" []).

Definition toy_service : service unit :=
  mkService None () (NewServiceStats (NewStatManager [])) (NewHealthChecker "ratelimit" false)
    false "" "" "" false.

(** The second file of the watched directory has an unknown key: the update is
    rejected and counted. *)
Lemma file_update_safe_witness :
  ∃ this' w', file_update documented_units (λ _, "") toy_any toy_root (NewStatManager []) true "config"
      [("config.a", "good"); ("other.b", "bad"); ("config.c", "bad")] toy_service false
      (mkWorld [] ∅ ()) = (Ret this', w') ∧ this' = toy_service ∧
    w_counters w' = ctr_add (sv_ConfigLoadError (sv_stats toy_service)) 1 ∅.
Proof.
  pose proof (file_update_safe documented_units (λ _, "") toy_any toy_root (NewStatManager []) true "config"
    [("config.a", "good"); ("other.b", "bad"); ("config.c", "bad")] toy_service false
    (mkWorld [] ∅ ())) as Hrun.
  unfold wp in Hrun.
  destruct (file_update documented_units _ _ _ _ _ _ _ _ _ _) as [[this'|p|c] w'];
    [|by destruct Hrun as (?&?&?&[=]&_)|done].
  exists this', w'. split; [done|]. destruct Hrun as [_ Hrun]. exact Hrun.
Defined.
End file_witness.

(** ** xDS *)

Lemma RateLimitDescriptorPb_nested_ind (P : RateLimitDescriptorPb → Prop) :
  (∀ k v o ds s dm, Forall P ds → P (mkDescriptorPb k v o ds s dm)) → ∀ d, P d.
Proof.
  intros Hstep. fix IH 1. intros [k v o ds s dm]. apply Hstep.
  induction ds as [|d ds IHds]; constructor; [apply IH|apply IHds].
Qed.

Section xds.
Context (unit_String : Z → string) (Unit_value : string → option Z).

(** Every unit of a descriptor tree satisfies [P]. *)
Fixpoint units_in (P : Z → Prop) (d : RateLimitDescriptorPb) : Prop :=
  match dp_RateLimit d with None => True | Some p => P (pp_Unit p) end ∧
  (fix all ds := match ds with [] => True | d :: ds' => units_in P d ∧ all ds' end) (dp_Descriptors d).

(** The generated tables [Unit_name] and [Unit_value] are inverse at [u]. *)
Definition named (u : Z) : Prop := Unit_value (ToUpper (unit_String u)) = Some u.

(** Reading the resource back from the configuration. *)
Definition policy_of (l : YamlRateLimit) : RateLimitPolicyPb :=
  mkPolicyPb (unit_value Unit_value (yl_Unit l)) (yl_RequestsPerUnit l) (yl_Unlimited l) (yl_Name l)
    ((λ r, mkReplacePb (yr_Name r)) <$> yl_Replaces l).

Fixpoint descriptor_of (d : YamlDescriptor) : RateLimitDescriptorPb :=
  mkDescriptorPb (yd_Key d) (yd_Value d) (policy_of <$> yd_RateLimit d)
    (map descriptor_of (yd_Descriptors d)) (yd_ShadowMode d) (yd_DetailedMetric d).

Lemma replaces_roundtrip (rs : list RateLimitReplacePb) :
  (λ r, mkReplacePb (yr_Name r)) <$> rateLimitReplacesPbToYaml rs = rs.
Proof. unfold rateLimitReplacesPbToYaml. rewrite <-list_fmap_compose. by induction rs as [|[] ? IH]; csimpl; rewrite ?IH. Qed.

Lemma descriptor_roundtrip d :
  units_in named d → descriptor_of (rateLimitDescriptorPbToYaml unit_String d) = d.
Proof.
  induction d as [k v o ds s dm IH] using RateLimitDescriptorPb_nested_ind. intros [Hu Hds]. simpl. f_equal.
  - destruct o as [[u n ul nm rs]|]; [|done]. unfold policy_of; simpl in *.
    unfold unit_value. by rewrite Hu, replaces_roundtrip.
  - simpl in Hds. induction IH as [|d ds Hd _ IHds]; [done|]. simpl.
    destruct Hds as [Hd1 Hds]. by rewrite Hd, IHds.
Qed.
End xds.

(** C30: the translation of an xDS resource into the file format loses nothing:
    keys, values, nesting and order, rates, units, names, replacements, shadow
    and metric flags can all be read back. *)
Theorem ConfigXdsProtoToYaml_roundtrip unit_String Unit_value c :
  Forall (units_in (named unit_String Unit_value)) (cp_Descriptors c) →
  let root := ConfigXdsProtoToYaml unit_String c in
  mkConfigPb (cp_Name c) (yo_Domain root) (map (descriptor_of Unit_value) (yo_Descriptors root)) = c.
Proof.
  intros Hall. destruct c as [n d ds]. simpl in *. f_equal. unfold rateLimitDescriptorsPbToYaml.
  induction Hall as [|x l Hx _ IH]; [done|]. simpl. by rewrite IH, descriptor_roundtrip.
Qed.

Lemma ConfigXdsProtoToYaml_roundtrip_witness :
  let c := mkConfigPb "n" "d" [mkDescriptorPb "k" "v" (Some (mkPolicyPb MINUTE 5 false "" []))
    [mkDescriptorPb "k2" "" (Some (mkPolicyPb DAY 7 false "x" [mkReplacePb "y"])) [] false true] true false] in
  mkConfigPb "n" "d" (map (descriptor_of documented_units)
    (yo_Descriptors (ConfigXdsProtoToYaml documented_names c))) = c.
Proof.
  intros c. apply (ConfigXdsProtoToYaml_roundtrip documented_names documented_units c).
  repeat constructor; vm_compute; reflexivity.
Defined.

(** ** What reaches the service over xDS *)

Section send_configs.
Context {E Any : Type} `{EnvSettings E} (Unit_value : string → option Z)
  (unmarshal : Any → RateLimitConfigPb + string) (unit_String : Z → string) (Sprint : panic → string).
#[local] Abbreviation W := (World E).
Implicit Types w : W.

Definition to_load (c : RateLimitConfigPb) : RateLimitConfigToLoad :=
  mkToLoad (cp_Name c) (ConfigXdsProtoToYaml unit_String c).

Lemma decode_resources_all resources pbs :
  unmarshal <$> resources = inl <$> pbs →
  decode_resources unmarshal unit_String resources = inl (to_load <$> pbs).
Proof.
  revert pbs. induction resources as [|r rs IH]; intros [|pb pbs] Hu; try done; csimpl in Hu.
  injection Hu as Hr Hrs. simpl. by rewrite Hr, (IH pbs).
Qed.

Lemma decode_resources_error pre res post pbs err :
  unmarshal <$> pre = inl <$> pbs → unmarshal res = inr err →
  decode_resources unmarshal unit_String (pre ++ res :: post) = inr err.
Proof.
  revert pbs. induction pre as [|r rs IH]; intros [|pb pbs] Hu Hres; try done; simpl; [by rewrite Hres|].
  csimpl in Hu. injection Hu as Hr Hrs. by rewrite Hr, (IH pbs).
Qed.

Lemma sendConfigs_decoded m resources pbs w s e' :
  env_settings (w_ext w) = (inr s, e') → unmarshal <$> resources = inl <$> pbs →
  let merge := se_MergeDomainConfigurations s in
  wp (λ _, False) (sendConfigs Unit_value unmarshal unit_String Sprint m resources) w (λ r w',
    if valid_config Unit_value merge (to_load <$> pbs)
    then ∃ cf, r = (Some (mkEvent (Some cf) None), Ack) ∧
           config_of Unit_value m merge (w_heap w') (to_load <$> pbs) cf
    else ∃ msg, r = (Some (mkEvent None (Some (PConfigError msg))), Nack (Sprint (PConfigError msg)))).
Proof.
  intros Hs Hd merge. unfold sendConfigs, wp, recover. rewrite (decode_resources_all _ _ Hd).
  erewrite bind_Ret.
  2: { unfold NewSettings, ext. erewrite bind_Ret; [|by rewrite Hs]. reflexivity. }
  pose proof (Load_event Unit_value m merge (to_load <$> pbs) (mkWorld (w_heap w) (w_counters w) e')) as Hl.
  unfold mbind, M_bind. fold merge.
  destruct (Load Unit_value _ m _ _) as [[cf|p|c] w1]; [|simpl|done].
  - destruct Hl as (->&Hcf&_). simpl. by exists cf.
  - destruct Hl as (->&[msg ->]&_). by exists msg.
Qed.

End send_configs.


(** ** The xDS connection *)

Lemma xds_retry_forever st st' :
  rtc xds_step st st' → xs_loop st = RetrySend →
  xs_loop st' = RetrySend ∧ (xs_stop st = true → xs_stop st' = true).
Proof.
  induction 1 as [|x y z Hs _ IH]; [done|]. intros Hl. destruct Hs; simpl in *; try done; naive_solver.
Qed.

(** The stream is watched by one goroutine while the loop waits for a retry
    request, and by none while it connects. *)
Definition one_watcher (st : xds_state) : Prop :=
  length (xs_watchers st) = match xs_loop st with Receiving | Stopped => 1%nat | _ => 0%nat end.

(** However the connection fails and is retried, at most one goroutine
    fetches from the xDS stream: exactly one while the connection loop waits for
    a retry request or has stopped, none while it is connecting.  So updates are
    delivered in the order of the stream. *)
Theorem xds_one_watcher st :
  rtc xds_step (mkXds Connecting [] false) st → one_watcher st.
Proof.
  intros Hr. assert (one_watcher (mkXds Connecting [] false)) as Hinv by done.
  induction Hr as [|x y z Hs _ IH]; [done|]. apply IH. clear IH. unfold one_watcher in *.
  destruct Hs; simpl in *; rewrite ?length_app in *; simpl in *; lia.
Qed.

Lemma xds_one_watcher_witness :
  one_watcher (mkXds Connecting [] false) ∧ one_watcher (mkXds Receiving [SendRetry] false).
Proof.
  split; apply xds_one_watcher; [constructor|].
  eapply rtc_l; [apply dial_ok|]. apply rtc_once, (fetch_error _ [] []).
Defined.

(** C34: a failed dial of the xDS server stops the provider for good: the
    goroutine that would receive the retry request is the one that sends it, on
    an unbuffered channel.  From then on the loop never connects again and
    [Stop], once called, never returns. *)
Theorem xds_dial_error_deadlocks ws st :
  rtc xds_step (mkXds RetrySend ws false) st →
  xs_loop st = RetrySend ∧
  ∀ st', xs_stop st = true → rtc xds_step st st' → xs_stop st' = true.
Proof.
  intros Hr. destruct (xds_retry_forever _ _ Hr) as [Hl _]; [done|]. split; [done|].
  intros st' Hs Hr'. by apply (xds_retry_forever _ _ Hr').
Qed.

Lemma xds_dial_error_deadlocks_witness :
  rtc xds_step (mkXds Connecting [] false) (mkXds RetrySend [] true) ∧
  ∀ st', rtc xds_step (mkXds RetrySend [] true) st' → xs_stop st' = true.
Proof.
  split.
  - eapply rtc_l; [apply dial_error|]. eapply rtc_l; [apply stop_called|]. constructor.
  - intros st' Hr. refine (proj2 (xds_dial_error_deadlocks [] (mkXds RetrySend [] true) _) st' eq_refl Hr).
    apply rtc_once, stop_called.
Defined.
