(* ===== verification/ExampleXds.v ===== *)
(** * The example xDS server ([examples/xds-sotw-config-server])

    The resources of [resource.go] and the snapshot made of them, as the rate
    limit service receives them; the logger, [RunServer] and [main]. *)

From S2P Require Import Prelude GoStrings World Utils Stats Config ConfigLoad ConfigLookup Limiter LimiterSpec.
From S2P Require Import Tls Settings SettingsSpec Health Service ServiceSpec Provider ProviderSpec.

#[local] Open Scope Z_scope.

(** Fields that are left out have their zero value. *)
#[local] Abbreviation policy unit n := (Some (mkPolicyPb unit n false "" [])).
#[local] Abbreviation replacing unit n names := (Some (mkPolicyPb unit n false "" (mkReplacePb <$> names))).
#[local] Abbreviation named unit n name := (Some (mkPolicyPb unit n false name [])).
#[local] Abbreviation no_limits := (Some (mkPolicyPb UNKNOWN 0 true "" [])).

Definition makeRlsConfig : list RateLimitConfigPb :=
  [mkConfigPb "mongo_cps" "mongo_cps"
     [mkDescriptorPb "database" "users" (policy SECOND 500) [] false false;
      mkDescriptorPb "database" "default" (policy SECOND 500) [] false false];
   mkConfigPb "rl" "rl"
     [mkDescriptorPb "category" "account" (replacing MINUTE 4 ["bkthomps"; "fake_name"]) [] false false;
      mkDescriptorPb "source_cluster" "proxy" None
        [mkDescriptorPb "destination_cluster" "bkthomps" (replacing MINUTE 2 ["bkthomps"]) [] false false;
         mkDescriptorPb "destination_cluster" "mock" (policy MINUTE 1) [] false false;
         mkDescriptorPb "destination_cluster" "override" (replacing MINUTE 2 ["banned_limit"]) [] false false;
         mkDescriptorPb "destination_cluster" "fake" (named MINUTE 2 "fake_name") [] false false]
        false false;
      mkDescriptorPb "foo" "" (policy MINUTE 2)
        [mkDescriptorPb "bar" "" (policy MINUTE 3) [] false true;
         mkDescriptorPb "bar" "bkthomps" (named MINUTE 1 "bkthomps") [] false false;
         mkDescriptorPb "bar" "banned" (named MINUTE 0 "banned_limit") [] false false;
         mkDescriptorPb "baz" "" (policy SECOND 1) [] false false;
         mkDescriptorPb "baz" "not-so-shady" (policy MINUTE 3) [] false false;
         mkDescriptorPb "baz" "shady" (policy MINUTE 3) [] true false;
         mkDescriptorPb "bay" "" no_limits [] false false]
        false false;
      mkDescriptorPb "qux" "" no_limits [] false false]].

(** [cache.Snapshot]: a version, and the resources of each type. *)
Definition GenerateSnapshot : string * list RateLimitConfigPb := ("1", makeRlsConfig).

Section example.
Context {E : Type} `{EnvSettings E} (Sprint : panic → string) (m : ManagerImpl).

(** The example works: whatever the merge setting, the service acknowledges the
    example server's snapshot and puts exactly its two domains in force, with the
    configuration the resources describe. *)
Theorem GenerateSnapshot_accepted (w : World E) s e' :
  env_settings (w_ext w) = (inr s, e') →
  wp (λ _, False) (sendConfigs documented_units inl documented_names Sprint m GenerateSnapshot.2) w
    (λ r w', ∃ cf, r = (Some (mkEvent (Some cf) None), Ack) ∧
       config_of documented_units m (se_MergeDomainConfigurations s) (w_heap w')
         (to_load documented_names <$> makeRlsConfig) cf ∧
       ∀ domain, is_Some (cf_domains cf !! domain) ↔ domain = "mongo_cps" ∨ domain = "rl").
Proof.
  intros Hs. eapply wp_mono.
  { eapply (sendConfigs_decoded documented_units inl documented_names Sprint m GenerateSnapshot.2 makeRlsConfig);
      [exact Hs|done]. }
  assert (∀ merge, valid_config documented_units merge (to_load documented_names <$> makeRlsConfig) = true) as ->
    by (by intros []; vm_compute).
  intros r w' (cf&->&Hcf). exists cf. split; [done|]. split; [done|]. intros domain.
  destruct Hcf as (_&_&Hd). specialize (Hd domain).
  transitivity (domain ∈ ["mongo_cps"; "rl"]); [|set_solver].
  destruct (cf_domains cf !! domain).
  - split; [intros _; apply Hd|by eexists].
  - split; [by intros [? [=]]|intros ?; by destruct Hd].
Qed.
End example.

Lemma GenerateSnapshot_accepted_witness :
  let EE : EnvSettings unit := λ e, (inr (settings_of []), e) in
  ∃ cf w', sendConfigs (H := EE) documented_units inl documented_names (λ _, "") (NewStatManager [])
    GenerateSnapshot.2 (mkWorld [] ∅ ()) = (Ret (Some (mkEvent (Some cf) None), Ack), w').
Proof.
  intros EE. pose proof (GenerateSnapshot_accepted (H := EE) (λ _, "") (NewStatManager []) (mkWorld [] ∅ ())
    (settings_of []) () eq_refl) as Hrun.
  unfold wp in Hrun. destruct (sendConfigs _ _ _ _ _ _ _) as [[r|p|c] w']; [|done..].
  destruct Hrun as (cf&->&_). by exists cf, w'.
Defined.

(** ** The server itself: [logger.go], [server.go] and [main/main.go]

    The go-control-plane library (snapshot cache, discovery server), grpc and the
    network are the class [ControlPlane]; the standard logger is a list of lines
    in the state. *)

Definition Snapshot : Type := (string * list RateLimitConfigPb)%type.

(** What [grpc.NewServer] is configured with; durations in nanoseconds. *)
Record grpc_options : Set := mkGrpcOptions {
  go_MaxConcurrentStreams : Z;
  go_KeepaliveTime : Z;
  go_KeepaliveTimeout : Z;
  go_KeepaliveMinTime : Z;
  go_PermitWithoutStream : bool;
}.

(** [Consistent] and [SetSnapshot] of the snapshot cache, [net.Listen], and
    [Serve] of a grpc server with the discovery service registered (it returns
    when the server ends). *)
Class ControlPlane (E : Type) : Type := {
  snapshot_Consistent : Snapshot → option string;
  cache_SetSnapshot : string → Snapshot → E → option string * E;
  example_Listen : string → E → option string * E;
  example_Serve : grpc_options → E → option string * E;
}.

Record example_state (E : Type) : Type := mkExample { ex_log : list string; ex_ext : E }.
Arguments mkExample {_} _ _.
Arguments ex_log {_} _.
Arguments ex_ext {_} _.

(** The flags and their defaults. *)
Record example_flags : Set := mkExampleFlags { ef_debug : bool; ef_port : Z; ef_nodeID : string }.

Definition example_init (debug : option bool) (port : option Z) (nodeID : option string) : example_flags :=
  {| ef_debug := default false debug;
     ef_port := default 18000 port;
     ef_nodeID := default "test-node-id" nodeID |}.

Section server.
(** [fmt]'s [%+v] of a snapshot and [%q] of an error. *)
Context {E : Type} `{ControlPlane E} (Sprintf : Snapshot → string) (Quote : string → string).
#[local] Abbreviation newline := (String (Ascii.ascii_of_nat 10) "").
#[local] Abbreviation W := (example_state E).

Definition log_Println (line : string) : M W unit :=
  modify (λ w, mkExample (ex_log w ++ [line]) (ex_ext w)).

Definition control {A} (f : E → A * E) : M W A := λ w,
  let '(a, e) := f (ex_ext w) in (Ret a, mkExample (ex_log w) e).

(** [Logger] *)
Definition Debugf (Debug : bool) (message : string) : M W unit :=
  if Debug then log_Println ("[DEBUG] " +:+ message) else mret ().

Definition Infof (message : string) : M W unit := log_Println ("[INFO]" +:+ message).

Definition Warnf (message : string) : M W unit := log_Println ("[WARN] " +:+ message).

Definition Errorf (message : string) : M W unit := log_Println ("[ERROR]" +:+ message).

Definition example_grpc_options : grpc_options :=
  {| go_MaxConcurrentStreams := 1000000;
     go_KeepaliveTime := 30 * 10 ^ 9;
     go_KeepaliveTimeout := 5 * 10 ^ 9;
     go_KeepaliveMinTime := 30 * 10 ^ 9;
     go_PermitWithoutStream := true |}.

(** [log.Fatal] ends the process; an error of [Serve] is only logged. *)
Definition RunServer (port : Z) : M W unit :=
  err ← control (example_Listen (":" +:+ FormatInt port));
  match err with
  | Some msg => _ ← log_Println msg; exit 1
  | None =>
      _ ← log_Println ("Management server listening on " +:+ FormatInt port);
      err ← control (example_Serve example_grpc_options);
      match err with
      | Some msg => log_Println msg
      | None => mret ()
      end
  end.

Definition example_main (flags : example_flags) : M W unit :=
  let snapshot := GenerateSnapshot in
  match snapshot_Consistent snapshot with
  | Some err =>
      _ ← Errorf ("Snapshot is inconsistent: " +:+ Sprintf snapshot +:+ newline +:+ err);
      exit 1
  | None =>
      _ ← Debugf (ef_debug flags) ("Will serve snapshot " +:+ Sprintf snapshot);
      err ← control (cache_SetSnapshot (ef_nodeID flags) snapshot);
      match err with
      | Some err =>
          _ ← Errorf ("Snapshot error " +:+ Quote err +:+ " for " +:+ Sprintf snapshot);
          exit 1
      | None => RunServer (ef_port flags)
      end
  end.

(** The server serves exactly the snapshot it generated, to the node it was
    configured for, at its port, and only after the snapshot was accepted; every
    failure before that ends the process with code 1 and nothing is served. *)
Theorem example_main_serves flags w :
  match example_main flags w with
  | (Ret _, w') => ∃ e1 e2 err,
      snapshot_Consistent GenerateSnapshot = None ∧
      cache_SetSnapshot (ef_nodeID flags) GenerateSnapshot (ex_ext w) = (None, e1) ∧
      example_Listen (":" +:+ FormatInt (ef_port flags)) e1 = (None, e2) ∧
      example_Serve example_grpc_options e2 = (err, ex_ext w')
  | (Exit code, w') => code = 1 ∧
      (is_Some (snapshot_Consistent GenerateSnapshot) ∧ ex_ext w' = ex_ext w ∨
       snapshot_Consistent GenerateSnapshot = None ∧ ∃ err e1,
         cache_SetSnapshot (ef_nodeID flags) GenerateSnapshot (ex_ext w) = (err, e1) ∧
         (is_Some err ∧ ex_ext w' = e1 ∨
          err = None ∧ is_Some (example_Listen (":" +:+ FormatInt (ef_port flags)) e1).1 ∧
            ex_ext w' = (example_Listen (":" +:+ FormatInt (ef_port flags)) e1).2))
  | (Panic _, _) => False
  end.
Proof.
  unfold example_main, RunServer, Errorf, Debugf, control, log_Println, mbind, M_bind.
  destruct (snapshot_Consistent GenerateSnapshot) as [err|]; simpl.
  { split; [done|]. left. by eauto. }
  destruct (ef_debug flags); simpl;
    (destruct (cache_SetSnapshot _ _ _) as [[err|] e1] eqn:Hset; simpl;
     [split; [done|]; right; split; [done|]; exists (Some err), e1; split; [done|]; left; by eauto|]);
    (destruct (example_Listen (":" +:+ FormatInt (ef_port flags)) e1) as [[err|] e2] eqn:Hlis; simpl;
     [split; [done|]; right; split; [done|]; exists None, e1; split; [done|]; right; rewrite Hlis; by eauto|]);
    destruct (example_Serve _ e2) as [[err|] e3] eqn:Hsrv; simpl; by eauto 10.
Qed.
End server.
