(* ===== verification/ProviderNew.v ===== *)
(** * Construction of the configuration providers

    [src/provider/file_provider.go] ([setupRuntime], [NewFileProvider], [watch])
    and [src/provider/xds_grpc_sotw_provider.go] ([NewXdsGrpcSotwProvider],
    [getClientNode], [getGrpcTransportCredentials]), and what happens when the
    settings cannot be read at an update. *)

From S2P Require Import Prelude GoStrings GoPath World Utils Stats Config ConfigLoad ConfigLookup.
From S2P Require Import Limiter LimiterSpec Tls Settings SettingsSpec CertProvider Health Service.
From S2P Require Import ServiceSpec ServiceTheorems Provider ProviderSpec.

#[local] Open Scope Z_scope.

(** Runs code that only concerns the outside world. *)
Definition lift {E A} (m : M E A) : M (World E) A := λ w,
  let '(o, e) := m (w_ext w) in (o, mkWorld (w_heap w) (w_counters w) e).

(** ** The file provider *)

Record FileProvider : Type := mkFileProvider {
  fp_settings : Environment;
  fp_runtimeWatchRoot : bool;
}.

Section file.
Context {E : Type} `{RuntimeLoader E}.

Definition file_setupRuntime (s : Environment) : M E unit :=
  let dot := if se_RuntimeIgnoreDotFiles s then IgnoreDotFiles else AllowDotFiles in
  err ← lib (if se_RuntimeWatchRoot s then
               loader_New2 (se_RuntimePath s) (se_RuntimeSubdirectory s)
                 (SymlinkRefresher (se_RuntimePath s)) dot
             else
               loader_New2 (JoinPath (se_RuntimePath s) (se_RuntimeSubdirectory s)) (se_RuntimeAppDirectory s)
                 (DirectoryRefresher (Some [Remove; Write; Create; Chmod])) dot);
  match err with
  | Some err => throw (PError err)
  | None => mret ()
  end.

Definition NewFileProvider (s : Environment) : M E FileProvider :=
  _ ← file_setupRuntime s;
  mret (mkFileProvider s (se_RuntimeWatchRoot s)).
End file.

Section watch.
Context {E : Type} `{EnvSettings E} (Unit_value : string → option Z) (print : yaml_value → string)
  (unmarshal_any : string → list (yaml_key * yaml_value) + string)
  (unmarshal_root : string → YamlRoot + string) (statsManager : ManagerImpl).

(** The event for the files at the start, and one for every later snapshot. *)
Definition watch (p : FileProvider) (snapshots : list (list (string * string)))
  : M (World E) (list ConfigUpdateEventImpl) :=
  range snapshots [] (λ _ snapshot events,
    ev ← sendEvent Unit_value print unmarshal_any unmarshal_root statsManager
           (fp_runtimeWatchRoot p) (se_RuntimeAppDirectory (fp_settings p)) snapshot;
    mret (events ++ [ev])).

End watch.

(** ** The xDS provider *)

(** [corev3.Node] *)
Record Node : Type := mkXdsNode { nd_Id : string; nd_Metadata : gmap string string }.

Definition getClientNode (s : Environment) : Node :=
  mkXdsNode (se_ConfigGrpcXdsNodeId s) (node_metadata (se_ConfigGrpcXdsNodeMetadata s)).

Record XdsGrpcSotwProvider : Type := mkXdsProvider {
  xp_settings : Settings;
  xp_headers : gmap string string;      (** of the outgoing context *)
  xp_node : Node;                       (** of the ADS client *)
}.

Definition NewXdsGrpcSotwProvider (s : Settings) : XdsGrpcSotwProvider :=
  mkXdsProvider s (se_ConfigGrpcXdsClientAdditionalHeaders s) (getClientNode s).

Definition set_ServerName (name : string) (c : tls_Config) : tls_Config :=
  mkTlsConfig (tc_InsecureSkipVerify c) (tc_VerifyPeerCertificate c) (tc_Certificates c)
    (tc_GetCertificate c) (tc_ClientCAs c) (tc_RootCAs c) (tc_ClientAuth c) name.

(** [None]: an insecure connection.  The code changes the shared configuration;
    nothing else reads its server name. *)
Definition getGrpcTransportCredentials {W} (s : Settings) : M W (option tls_Config) :=
  if negb (se_ConfigGrpcXdsServerUseTls s) then mret None
  else if decide (se_ConfigGrpcXdsServerTlsSAN s ≠ "") then
    c ← non_nil (se_ConfigGrpcXdsTlsConfig s);
    mret (Some (set_ServerName (se_ConfigGrpcXdsServerTlsSAN s) c))
  else
    c ← non_nil (se_ConfigGrpcXdsTlsConfig s);
    mret (Some c).

(** [grpc.Dial] blocks until connected; the retries of the stream back off
    linearly, with jitter, from the interval. *)
Definition getGrpcConnection {E} (Dial : string → option tls_Config → Z → E → option string * E) (s : Settings)
  : M E (option string) :=
  creds ← getGrpcTransportCredentials s;
  lib (Dial (se_ConfigGrpcXdsServerUrl s) creds (se_ConfigGrpcXdsServerConnectRetryInterval s)).

(** With the settings [NewSettings] makes, the connection to the xDS server never
    skips verification; it is encrypted exactly when TLS is enabled, trusts the
    configured CA and expects the configured name. *)
Lemma getGrpcTransportCredentials_verified `{FileSystem E, X509} {W} (e : E) (s : Settings) (w : W) :
  tls_settings e s →
  ∃ o, getGrpcTransportCredentials s w = (Ret o, w) ∧
    (is_Some o ↔ se_ConfigGrpcXdsServerUseTls s = true) ∧
    ∀ c, o = Some c → tc_InsecureSkipVerify c = false ∧
      ca_pool e (se_ConfigGrpcXdsServerTlsCACert s) (tc_RootCAs c) ∧
      tc_ServerName c = se_ConfigGrpcXdsServerTlsSAN s.
Proof.
  intros (_&_&_&Hx). unfold getGrpcTransportCredentials.
  destruct (se_ConfigGrpcXdsServerUseTls s); simpl.
  2: { exists None. split_and!; [done| |done]. split; [by intros [? [=]]|done]. }
  destruct Hx as (c&->&(Hi&_&_&Hn&Hca&_)). case_decide as Hsan.
  - eexists. split; [reflexivity|]. split; [split; [done|by eexists]|]. intros c' [= <-]. by split_and!.
  - eexists. split; [reflexivity|]. split; [split; [done|by eexists]|]. intros c' [= <-]. split_and!; [done..|].
    congruence.
Qed.

(** ** Updates while the TLS files cannot be loaded

    Both the provider and the service read the settings again at every update,
    and reading the settings loads the TLS files. *)

Section reload.
Context {E C : Type} `{FileSystem E, X509, Envconfig E}.
#[local] Instance reload_env : EnvSettings E := settings_from_environment.
#[local] Abbreviation W := (World E).

(** Only the gRPC endpoint uses TLS, with a certificate and a key. *)
Definition grpc_tls_only (env : Environment) : Prop :=
  se_GrpcServerUseTLS env = true ∧ se_GrpcServerTlsCert env ≠ "" ∧ se_GrpcServerTlsKey env ≠ "" ∧
  se_RedisTls env || se_RedisPerSecondTls env = false ∧ se_MemcacheTls env = false.

Lemma NewSettings_bad_pair env (e : E) :
  Process e = (Ret env, e) → grpc_tls_only env →
  good_pair (se_GrpcServerTlsCert env) (se_GrpcServerTlsKey env) e = None →
  ∃ msg e', NewSettings_impl e = (Panic (PError msg), e').
Proof.
  intros Hp (Htls&Hcert&Hkey&Hredis&Hmem) Hbad. unfold NewSettings_impl. erewrite bind_Ret by exact Hp. simpl.
  rewrite Hredis. erewrite bind_Ret by reflexivity. simpl. rewrite Hmem. erewrite bind_Ret by reflexivity.
  enough (∃ msg e', load_key_pair (se_GrpcServerTlsCert env) (se_GrpcServerTlsKey env) e = (Panic (PError msg), e'))
    as (msg&e'&Hload).
  { exists msg, e'. apply bind_Panic. unfold GrpcServerTlsConfig; simpl. rewrite Htls.
    apply bind_Panic. unfold TlsConfigFromFiles. by apply bind_Panic. }
  unfold load_key_pair. rewrite !bool_decide_true by done. simpl. unfold good_pair in Hbad.
  destruct (LoadX509KeyPair_ret (se_GrpcServerTlsCert env) (se_GrpcServerTlsKey env) e) as (r&e'&Hr).
  rewrite Hr in Hbad. erewrite bind_Ret by exact Hr. destruct r as [c|err]; [done|]. by eexists _, _.
Qed.

Lemma read_settings_error (e : E) msg e' :
  NewSettings_impl e = (Panic (PError msg), e') → env_settings e = (inl msg, e').
Proof. unfold env_settings, reload_env, settings_from_environment. by intros ->. Qed.

(** The settings the service reads are those the settings' own code makes. *)
Lemma NewSettings_reads (w : W) : NewSettings w = lift NewSettings_impl w.
Proof.
  pose proof (NewSettings_impl_verdict (w_ext w)) as Hv. unfold wp in Hv.
  unfold NewSettings, lift, ext, mbind, M_bind, env_settings, reload_env, settings_from_environment.
  destruct (NewSettings_impl (w_ext w)) as [[s|p|c] e']; [done| |done]. by destruct Hv as [msg ->].
Qed.

(** C37: a configuration update while the certificate cannot be loaded ends the
    process.  With TLS on the gRPC endpoint, suppose that the files on disk are a
    perfectly valid configuration but the key pair does not load (as in the middle
    of a rotation, which the certificate provider is built to survive).  The file
    provider then sends an event with the error, and the service, which only
    accepts configuration errors, panics with it; nothing recovers in its update
    goroutine. *)
Theorem reload_without_certificate_panics Unit_value print unmarshal_any unmarshal_root statsManager
    (this : service C) healthy (p : CertProvider) (fp : FileProvider) snapshot configs env (w : W) :
  Process (w_ext w) = (Ret env, w_ext w) → grpc_tls_only env →
  good_pair (se_GrpcServerTlsCert env) (se_GrpcServerTlsKey env) (w_ext w) = None →
  files_yaml unmarshal_any unmarshal_root (fp_runtimeWatchRoot fp)
    (se_RuntimeAppDirectory (fp_settings fp)) snapshot = Some configs →
  cp_certFile p = se_GrpcServerTlsCert env → cp_keyFile p = se_GrpcServerTlsKey env → is_Some (cp_cert p) →
  (∃ e', reloadCert p (w_ext w) = (Ret p, e')) ∧
  ∃ ev msg w1 w2,
    sendEvent Unit_value print unmarshal_any unmarshal_root statsManager (fp_runtimeWatchRoot fp)
      (se_RuntimeAppDirectory (fp_settings fp)) snapshot w = (Ret ev, w1) ∧
    SetConfig this ev healthy w1 = (Panic (PError msg), w2).
Proof.
  intros Hp Htls Hbad Hfiles Hcf Hkf Hcert. split.
  { destruct (reloadCert_ok p (w_ext w)) as (c&Hrun&Hc); [by left|]. rewrite Hcf, Hkf, Hbad in Hc.
    eexists. rewrite Hrun. f_equal. f_equal. destruct p; simpl in *. by subst. }
  destruct (NewSettings_bad_pair env (w_ext w) Hp Htls Hbad) as (msg&e'&Hs%read_settings_error).
  exists (mkEvent None (Some (PError msg))), msg, (mkWorld (w_heap w) (w_counters w) e').
  eexists. split; [|reflexivity]. unfold sendEvent, recover.
  pose proof (read_files_verdict print unmarshal_any unmarshal_root (fp_runtimeWatchRoot fp)
    (se_RuntimeAppDirectory (fp_settings fp)) snapshot w) as Hr. rewrite Hfiles in Hr.
  erewrite bind_Ret by exact Hr.
  erewrite bind_Panic; [reflexivity|]. unfold NewSettings, ext.
  erewrite bind_Ret; [|by rewrite Hs]. reflexivity.
Qed.
End reload.

(** A valid configuration file, and an empty certificate file. *)
#[local] Existing Instance toy_x509.

Definition rotating : Host :=
  mkHost [("GRPC_SERVER_USE_TLS", "true"); ("GRPC_SERVER_TLS_CERT", "/tls/cert.pem");
          ("GRPC_SERVER_TLS_KEY", "/tls/key.pem")]
    [("/tls/cert.pem", ""); ("/tls/key.pem", "key")].

Lemma reload_without_certificate_panics_witness :
  let this := mkService None () (NewServiceStats (NewStatManager [])) (NewHealthChecker "ratelimit" false)
                false "" "" "" false in
  ∃ ev msg w1 w2,
    sendEvent (H := settings_from_environment) documented_units (λ _, "") toy_any toy_root (NewStatManager [])
      true "config" [("config.a", "good")] (mkWorld [] ∅ rotating) = (Ret ev, w1) ∧
    SetConfig (H0 := settings_from_environment) this ev false w1 = (Panic (PError msg), w2).
Proof.
  intros this. assert (∃ env, Process rotating = (Ret env, rotating)) as [env Hp]
    by (eexists; vm_compute; reflexivity).
  assert (grpc_tls_only env ∧ good_pair (se_GrpcServerTlsCert env) (se_GrpcServerTlsKey env) rotating = None ∧
    se_GrpcServerTlsCert env = "/tls/cert.pem" ∧ se_GrpcServerTlsKey env = "/tls/key.pem") as (Htls&Hbad&Hc&Hk).
  { vm_compute in Hp. injection Hp as <-. by vm_compute. }
  apply (proj2 (reload_without_certificate_panics documented_units (λ _, "") toy_any toy_root (NewStatManager [])
    this false (mkCertProvider (Some (mkCertificate "old" "key")) "/tls" "/tls/cert.pem" "/tls/key.pem")
    (mkFileProvider (settings_of []) true) [("config.a", "good")] [mkToLoad "config.a" (mkYamlRoot "d" [])]
    env (mkWorld [] ∅ rotating) Hp Htls Hbad ltac:(by vm_compute) (eq_sym Hc) (eq_sym Hk) ltac:(by eexists))).
Defined.
