(* ===== verification/Dogstats.v ===== *)
(** * Metric names for DogStatsD ([src/godogstats])

    [separateTags] and [mogrify] of [dogstatsd_sink.go], the pattern handlers and
    the mogrifier list of [mogrifier_map.go].  Regular expressions of the
    configuration and the environment are parameters; the fixed expression
    [\$\d+] is written out.  A Go map of tags is the list of its entries in the
    order it happens to be iterated. *)

From Stdlib Require Import Ascii.
From S2P Require Import Prelude GoStrings World.

#[local] Open Scope string_scope.
#[local] Arguments String.append : simpl nomatch.

(** ** Tags in the name *)

Definition tag_prefix : string := ".__".

(** The loop body: a pair without separator is malformed, logged and skipped. *)
Definition tag_of (tagPair : string) : option string :=
  match Cut tagPair "=" with
  | Some (tagName, tagValue) => Some (tagName +:+ ":" +:+ tagValue)
  | None => None
  end.

Definition separateTags (name : string) : string * list string :=
  match Cut name tag_prefix with
  | None => (name, [])
  | Some (shortName, tagString) =>
      (shortName, omap tag_of (Split tagString tag_prefix))
  end.

(** ** Pattern handlers

    [varFinder.ReplaceAllStringFunc]: a dollar sign and the longest run of
    digits after it.  [pending] holds the digits after a dollar sign. *)

Definition replace_var (matches : list string) (digits : string) : string :=
  match ParseInt digits 64 with
  | Some i => default ("$" +:+ digits) (matches !! Z.to_nat i)
  | None => "$" +:+ digits             (* not a number, or too large *)
  end.

Fixpoint replace_vars (matches : list string) (pending : option string) (pattern : string) : string :=
  let flush := match pending with Some ds => replace_var matches ds | None => "" end in
  match pattern with
  | EmptyString => flush
  | String c pattern' =>
      match pending, digit_value c with
      | Some ds, Some _ => replace_vars matches (Some (ds +:+ String c "")) pattern'
      | _, _ =>
          flush +:+
          (if decide (c = "$"%char) then replace_vars matches (Some "") pattern'
           else String c (replace_vars matches None pattern'))
      end
  end.

Definition makePatternHandler (pattern : string) (matches : list string) : string :=
  replace_vars matches None pattern.

(** ** The mogrifier list *)

Section mogrifier.
Context {Regexp : Type} (FindStringSubmatch : Regexp → string → list string)
  (Compile : string → Regexp + string).

Record mogrifierEntry : Type := mkMogrifier {
  me_matcher : Regexp;
  me_handler : list string → string * list string;
}.

Fixpoint mogrify (m : list mogrifierEntry) (name : string) : string * list string :=
  match m with
  | [] => (name, [])
  | mogrifier :: m' =>
      match FindStringSubmatch (me_matcher mogrifier) name with
      | [] => mogrify m' name
      | matches => me_handler mogrifier matches
      end
  end.

Definition sink_mogrify (m : list mogrifierEntry) (name : string) : string * list string :=
  let '(name, extraTags) := separateTags name in
  let '(name, tags) := mogrify m name in
  (name, (extraTags ++ tags)%list).

(** The variables [DOG_STATSD_MOGRIFIER_<key>_PATTERN], [_TAGS] and [_NAME]. *)
Record mogrifier_config : Set := mkMogrifierConfig {
  mc_Pattern : string;
  mc_Tags : list (string * string);
  mc_Name : string;
}.

Definition envPrefix : string := "DOG_STATSD_MOGRIFIER".

Fixpoint check_tags (mogrifier : string) (tags : list (string * string)) : option string :=
  match tags with
  | [] => None
  | (key, value) :: tags' =>
      if decide (key = "")
      then Some ("no key specified for tag " +:+ key +:+ " for mogrifier " +:+ mogrifier)
      else if decide (value = "")
      then Some ("no value specified for tag " +:+ key +:+ " for mogrifier " +:+ mogrifier)
      else check_tags mogrifier tags'
  end.

Definition make_handler (cfg : mogrifier_config) (matches : list string) : string * list string :=
  (makePatternHandler (mc_Name cfg) matches,
   (λ '(tagKey, value), tagKey +:+ ":" +:+ makePatternHandler value matches) <$> mc_Tags cfg).

Context (envconfig_Process : string → mogrifier_config + string).

(** One round of the loop. *)
Definition load_mogrifier (mogrifier : string) : mogrifierEntry + string :=
  match envconfig_Process (envPrefix +:+ "_" +:+ mogrifier) with
  | inr err => inr ("failed to load mogrifier " +:+ mogrifier +:+ ": " +:+ err)
  | inl cfg =>
      if decide (mc_Pattern cfg = "") then inr ("no PATTERN specified for mogrifier " +:+ mogrifier)
      else
        match Compile (mc_Pattern cfg) with
        | inr err => inr ("failed to compile pattern for " +:+ mogrifier +:+ ": " +:+
                          mc_Pattern cfg +:+ ": " +:+ err)
        | inl re =>
            if decide (mc_Name cfg = "") then inr ("no NAME specified for mogrifier " +:+ mogrifier)
            else
              match check_tags mogrifier (mc_Tags cfg) with
              | Some err => inr err
              | None => inl (mkMogrifier re (make_handler cfg))
              end
        end
  end.

Fixpoint newMogrifierMapFromEnv (keys : list string) : list mogrifierEntry + string :=
  match keys with
  | [] => inl []
  | mogrifier :: keys' =>
      match load_mogrifier mogrifier with
      | inr err => inr err
      | inl entry =>
          match newMogrifierMapFromEnv keys' with
          | inr err => inr err
          | inl mogrifiers => inl (entry :: mogrifiers)
          end
      end
  end.
End mogrifier.
Arguments mkMogrifier {_} _ _.
Arguments me_matcher {_} _.
Arguments me_handler {_} _.

(** ** Separating the tags of a serialized name *)

Lemma Cut_cons_None c s sep :
  Cut (String c s) sep = None → HasPrefix (String c s) sep = false ∧ Cut s sep = None.
Proof. simpl. destruct (HasPrefix _ _); [done|]. by destruct (Cut s sep) as [[]|]. Qed.

(** The prefix does not overlap itself, so the first one after a name without
    any is found where it starts. *)
Lemma Cut_tag_prefix s rest : Cut s tag_prefix = None → Cut (s +:+ tag_prefix +:+ rest) tag_prefix = Some (s, rest).
Proof.
  induction s as [|c s IH]; intros Hs.
  - change ("" +:+ ?x) with x. simpl. destruct rest; done.
  - apply Cut_cons_None in Hs as [Hp Hs]. specialize (IH Hs).
    assert (HasPrefix (String c s +:+ tag_prefix +:+ rest) tag_prefix = false) as Hp'.
    { apply not_true_is_false. intros [r Hr]%HasPrefix_true. unfold tag_prefix in Hr.
      destruct s as [|c1 [|c2 s]]; [done..|]. injection Hr as -> -> -> _.
      change (HasPrefix (tag_prefix +:+ s) tag_prefix = false) in Hp. by rewrite HasPrefix_app in Hp. }
    cbn [String.append Cut] in *. rewrite Hp'. by rewrite IH.
Qed.

Definition join_pairs (pairs : list string) : string :=
  foldr (λ p s, tag_prefix +:+ p +:+ s) "" pairs.

Lemma split_fuel_pairs fuel p pairs :
  Forall (λ p, Cut p tag_prefix = None) (p :: pairs) → (length pairs ≤ fuel)%nat →
  split_fuel fuel (p +:+ join_pairs pairs) tag_prefix = p :: pairs.
Proof.
  revert fuel p. induction pairs as [|q pairs IH]; intros fuel p [Hp Hall]%Forall_cons_1 Hf.
  - simpl. rewrite str_app_nil_r. by destruct fuel as [|fuel]; simpl; rewrite ?Hp.
  - destruct fuel as [|fuel]; simpl in Hf; [lia|]. cbn [split_fuel join_pairs foldr].
    rewrite Cut_tag_prefix by done. f_equal. apply IH; [done|lia].
Qed.

Lemma join_pairs_length pairs : (length pairs ≤ String.length (join_pairs pairs))%nat.
Proof.
  induction pairs as [|p pairs IH]; [done|].
  cbn [join_pairs foldr length]. rewrite !str_app_length. change (String.length tag_prefix) with 3%nat.
  unfold join_pairs in IH. lia.
Qed.

Lemma Split_pairs p pairs :
  Forall (λ p, Cut p tag_prefix = None) (p :: pairs) →
  Split (p +:+ join_pairs pairs) tag_prefix = p :: pairs.
Proof.
  intros Hall. apply split_fuel_pairs; [done|]. rewrite str_app_length.
  pose proof (join_pairs_length pairs). lia.
Qed.

(** A tag as the statistics library writes it into the name; a tag without a
    value is malformed. *)
Definition render_tag (t : string * option string) : string :=
  match t.2 with Some v => t.1 +:+ "=" +:+ v | None => t.1 end.

Definition dogstatsd_tag (t : string * option string) : option string :=
  v ← t.2; Some (t.1 +:+ ":" +:+ v).

Definition serialize (name : string) (tags : list (string * option string)) : string :=
  name +:+ join_pairs (render_tag <$> tags).

Definition plain_tag (t : string * option string) : Prop :=
  Cut t.1 "=" = None ∧ Cut (render_tag t) tag_prefix = None.

Lemma tag_of_render t : plain_tag t → tag_of (render_tag t) = dogstatsd_tag t.
Proof.
  destruct t as [k [v|]]; unfold tag_of, render_tag; simpl; intros [Hk _]; simpl in Hk; [|by rewrite Hk].
  by rewrite (Cut_byte_app "=" k v Hk).
Qed.

Lemma omap_tags tags :
  Forall plain_tag tags → omap tag_of (render_tag <$> tags) = omap dogstatsd_tag tags.
Proof. induction 1 as [|t tags Ht _ IH]; [done|]. csimpl. by rewrite (tag_of_render t Ht), IH. Qed.

(** [separateTags] undoes the serialization of tags into a metric name; malformed
    tags are dropped. *)
Lemma separate_serialized name tags :
  Cut name tag_prefix = None → Forall plain_tag tags →
  separateTags (serialize name tags) = (name, omap dogstatsd_tag tags).
Proof.
  intros Hname Htags. unfold separateTags, serialize. destruct tags as [|t tags].
  - simpl. by rewrite str_app_nil_r, Hname.
  - change (name +:+ join_pairs (render_tag <$> t :: tags))
      with (name +:+ tag_prefix +:+ (render_tag t +:+ join_pairs (render_tag <$> tags))).
    rewrite Cut_tag_prefix by done. f_equal.
    rewrite (Split_pairs (render_tag t) (render_tag <$> tags)); [by apply (omap_tags (t :: tags))|].
    change (Forall (λ p, Cut p tag_prefix = None) (render_tag <$> t :: tags)).
    apply Forall_fmap. eapply Forall_impl; [done|]. by intros ? [].
Qed.

(** ** Patterns *)

Inductive token : Set :=
  | Lit (s : string)
  | Var (i : nat).

Definition show_token (t : token) : string :=
  match t with Lit s => s | Var i => "$" +:+ FormatInt (Z.of_nat i) end.

Definition token_value (matches : list string) (t : token) : string :=
  match t with Lit s => s | Var i => default (show_token t) (matches !! i) end.

Definition show_pattern (ts : list token) : string := foldr (λ t s, show_token t +:+ s) "" ts.

Definition starts_with_digit (s : string) : Prop :=
  match s with String c _ => is_Some (digit_value c) | EmptyString => False end.

(** Literal text holds no dollar sign, and a variable is not followed by a
    digit, which would be read as part of it. *)
Fixpoint wf_pattern (ts : list token) : Prop :=
  match ts with
  | [] => True
  | Lit s :: ts' => Cut s "$" = None ∧ wf_pattern ts'
  | Var i :: ts' => (Z.of_nat i < 2 ^ 63)%Z ∧ ¬ starts_with_digit (show_pattern ts') ∧ wf_pattern ts'
  end.

Lemma replace_vars_digits matches ds num rest acc z :
  parse_digits acc num = Some z →
  replace_vars matches (Some ds) (num +:+ rest) = replace_vars matches (Some (ds +:+ num)) rest.
Proof.
  revert ds acc. induction num as [|c num IH]; intros ds acc Hp; [by rewrite str_app_nil_r|].
  cbn [parse_digits] in Hp. cbn [String.append replace_vars].
  destruct (digit_value c) as [d|]; [|done]. rewrite (IH _ _ Hp), str_app_assoc. done.
Qed.

Lemma replace_vars_flush matches ds rest :
  ¬ starts_with_digit rest →
  replace_vars matches (Some ds) rest = replace_var matches ds +:+ replace_vars matches None rest.
Proof.
  destruct rest as [|c rest]; cbn [replace_vars starts_with_digit]; intros Hd; [by rewrite str_app_nil_r|].
  destruct (digit_value c); [by destruct Hd|]. done.
Qed.

Lemma replace_vars_lit matches s rest :
  Cut s "$" = None → replace_vars matches None (s +:+ rest) = s +:+ replace_vars matches None rest.
Proof.
  induction s as [|c s IH]; intros Hs; [done|]. apply Cut_cons_None in Hs as [Hc Hs].
  rewrite HasPrefix_byte in Hc. apply bool_decide_eq_false in Hc.
  cbn [String.append replace_vars]. rewrite decide_False by congruence. by rewrite IH.
Qed.

Lemma replace_var_index matches i :
  (Z.of_nat i < 2 ^ 63)%Z → replace_var matches (FormatInt (Z.of_nat i)) = token_value matches (Var i).
Proof.
  intros Hi. unfold replace_var. rewrite ParseInt_FormatInt by lia.
  rewrite bool_decide_true by (change (2 ^ (64 - 1))%Z with (2 ^ 63)%Z; lia). by rewrite Nat2Z.id.
Qed.

(** A pattern is expanded token by token: literal text is copied, [$i] is
    replaced by the [i]th match, and kept as it is when there is no such
    match. *)
Theorem makePatternHandler_expands matches ts :
  wf_pattern ts →
  makePatternHandler (show_pattern ts) matches = foldr (λ t s, token_value matches t +:+ s) "" ts.
Proof.
  unfold makePatternHandler. induction ts as [|[s|i] ts IH]; [done| |]; cbn [wf_pattern foldr].
  - intros [Hs Hts]. change (show_pattern (Lit s :: ts)) with (s +:+ show_pattern ts).
    by rewrite replace_vars_lit, IH.
  - intros (Hi&Hd&Hts).
    change (show_pattern (Var i :: ts)) with (String "$" (FormatInt (Z.of_nat i) +:+ show_pattern ts)).
    cbn [replace_vars]. change ("" +:+ ?x) with x. rewrite decide_True by done.
    rewrite (replace_vars_digits _ "" _ _ 0 (Z.of_nat i)).
    + change ("" +:+ ?x) with x. by rewrite replace_vars_flush, replace_var_index, IH.
    + apply parse_digits_FormatInt. lia.
Qed.

Lemma makePatternHandler_expands_witness :
  makePatternHandler "a.$1.$3b$2" ["a.x.y"; "x"; "y"] = "a.x.$3by".
Proof.
  apply (makePatternHandler_expands ["a.x.y"; "x"; "y"] [Lit "a."; Var 1; Lit "."; Var 3; Lit "b"; Var 2]).
  repeat split; try done; intros Hd; cbn in Hd; by destruct Hd.
Defined.

(** ** The mogrifiers of the environment *)

Section loaded.
Context {Regexp : Type} (FindStringSubmatch : Regexp → string → list string)
  (Compile : string → Regexp + string) (envconfig_Process : string → mogrifier_config + string).

Definition mogrifier_env (key : string) : mogrifier_config + string :=
  envconfig_Process (envPrefix +:+ "_" +:+ key).

(** The configuration of a key, if it is complete. *)
Definition usable (key : string) : option (mogrifier_config * Regexp) :=
  match mogrifier_env key with
  | inr _ => None
  | inl cfg =>
      match Compile (mc_Pattern cfg) with
      | inr _ => None
      | inl re =>
          if bool_decide (mc_Pattern cfg ≠ "") && bool_decide (mc_Name cfg ≠ "") &&
             forallb (λ t, bool_decide (t.1 ≠ "") && bool_decide (t.2 ≠ "")) (mc_Tags cfg)
          then Some (cfg, re) else None
      end
  end.

Lemma check_tags_spec key tags :
  check_tags key tags = None ↔
    forallb (λ t, bool_decide (t.1 ≠ "") && bool_decide (t.2 ≠ "")) tags = true.
Proof.
  induction tags as [|[k v] tags IH]; [done|]. cbn [check_tags forallb fst snd].
  destruct (decide (k = "")) as [->|Hk]; [done|]. rewrite (bool_decide_true (k ≠ "")) by done.
  destruct (decide (v = "")) as [->|Hv]; [done|]. by rewrite (bool_decide_true (v ≠ "")) by done.
Qed.

Lemma load_mogrifier_spec key :
  match load_mogrifier Compile envconfig_Process key with
  | inl entry => ∃ cfg re, usable key = Some (cfg, re) ∧ entry = mkMogrifier re (make_handler cfg)
  | inr _ => usable key = None
  end.
Proof.
  unfold load_mogrifier, usable, mogrifier_env.
  destruct (envconfig_Process _) as [cfg|err]; [|done]. case_decide as Hp.
  { rewrite (bool_decide_false (mc_Pattern cfg ≠ "")) by naive_solver. by destruct (Compile _). }
  rewrite (bool_decide_true (mc_Pattern cfg ≠ "")) by done.
  destruct (Compile _) as [re|err]; [|done]. case_decide as Hn.
  { by rewrite (bool_decide_false (mc_Name cfg ≠ "")) by naive_solver. }
  rewrite (bool_decide_true (mc_Name cfg ≠ "")) by done.
  destruct (check_tags key (mc_Tags cfg)) as [err|] eqn:Ht; simpl.
  - destruct (forallb _ _) eqn:Hf; [|done]. apply (check_tags_spec key) in Hf. congruence.
  - apply check_tags_spec in Ht. rewrite Ht. by exists cfg, re.
Qed.

(** The first usable key whose pattern matches. *)
Fixpoint first_match (keys : list string) (name : string) : option (mogrifier_config * list string) :=
  match keys with
  | [] => None
  | key :: keys' =>
      match usable key with
      | Some (cfg, re) =>
          match FindStringSubmatch re name with
          | [] => first_match keys' name
          | matches => Some (cfg, matches)
          end
      | None => None
      end
  end.

Lemma newMogrifierMapFromEnv_first keys name m :
  newMogrifierMapFromEnv Compile envconfig_Process keys = inl m →
  mogrify FindStringSubmatch m name =
    match first_match keys name with
    | Some (cfg, matches) => make_handler cfg matches
    | None => (name, [])
    end.
Proof.
  revert m. induction keys as [|key keys IH]; simpl; intros m.
  - intros [= <-]. done.
  - pose proof (load_mogrifier_spec key) as Hl. destruct (load_mogrifier _ _ key) as [e|]; [|done].
    destruct Hl as (cfg&re&Hu&->). destruct (newMogrifierMapFromEnv _ _ keys) as [m'|] eqn:Hm; [|done].
    intros [= <-]. simpl. rewrite Hu. destruct (FindStringSubmatch re name); [by apply IH|done].
Qed.

Lemma newMogrifierMapFromEnv_ok keys :
  match newMogrifierMapFromEnv Compile envconfig_Process keys with
  | inl m => length m = length keys ∧ Forall (λ key, is_Some (usable key)) keys
  | inr _ => ¬ Forall (λ key, is_Some (usable key)) keys
  end.
Proof.
  induction keys as [|key keys IH]; simpl; [done|]. pose proof (load_mogrifier_spec key) as Hl.
  destruct (load_mogrifier _ _ key) as [e|err].
  - destruct Hl as (cfg&re&Hu&->). destruct (newMogrifierMapFromEnv _ _ keys) as [m'|].
    + destruct IH as [Hlen Hall]. simpl. split; [by rewrite Hlen|]. constructor; [by eexists|done].
    + by intros [_ ?]%Forall_cons_1.
  - intros [[? ?] _]%Forall_cons_1. congruence.
Qed.

(** The mogrifiers of the environment load exactly when each key has a
    pattern that compiles, a name, and tags with keys and values.  A metric name
    with serialized tags is then reported under the name of the first key, in
    the given order, whose pattern matches the bare name, with its own tags
    followed by those of the mogrifier; it is unchanged if none matches. *)
Theorem sink_mogrify_first keys :
  match newMogrifierMapFromEnv Compile envconfig_Process keys with
  | inl m =>
      Forall (λ key, is_Some (usable key)) keys ∧
      ∀ name tags, Cut name tag_prefix = None → Forall plain_tag tags →
        sink_mogrify FindStringSubmatch m (serialize name tags) =
          match first_match keys name with
          | Some (cfg, matches) =>
              (makePatternHandler (mc_Name cfg) matches,
               omap dogstatsd_tag tags ++
               ((λ '(k, v), k +:+ ":" +:+ makePatternHandler v matches) <$> mc_Tags cfg))%list
          | None => (name, omap dogstatsd_tag tags)
          end
  | inr _ => ¬ Forall (λ key, is_Some (usable key)) keys
  end.
Proof.
  pose proof (newMogrifierMapFromEnv_ok keys) as Hok.
  destruct (newMogrifierMapFromEnv Compile envconfig_Process keys) as [m|] eqn:Hm; [|done].
  destruct Hok as [_ Hok]. split; [done|]. intros name tags Hname Htags. unfold sink_mogrify.
  rewrite separate_serialized by done. rewrite (newMogrifierMapFromEnv_first _ _ _ Hm).
  destruct (first_match keys name) as [[cfg matches]|]; [done|]. by rewrite app_nil_r.
Qed.
End loaded.
