(* ===== verification/Reporting.v ===== *)
(** * Reporting statistics

    - [src/godogstats/dogstatsd_sink.go]: the DogStatsD sink (the rewriting of
      names is in [Dogstats]);
    - [src/metrics/metrics.go]: the interceptor that counts and times requests;
    - [src/limiter/local_cache_stats.go]: the gauges of the local cache.

    The DataDog client, the clock of the timers and the cache's own counters are
    parameters. *)

From Stdlib Require Import SpecFloat Ascii.
From S2P Require Import Prelude GoStrings World Stats Limiter Dogstats.

#[local] Open Scope Z_scope.

(** ** The sink *)

Section sink.
Context {Regexp : Type} (FindStringSubmatch : Regexp → string → list string)
  (Compile : string → Regexp + string) (envconfig_Process : string → mogrifier_config + string)
  (statsd_New : string → option string).

Record godogStatsSink : Type := mkSink {
  gs_client : option string;          (** the address the client was made for *)
  gs_host : string;
  gs_port : Z;
  gs_mogrifier : list (mogrifierEntry (Regexp := Regexp));
}.

Section options.
Context {W : Type}.

Definition goDogStatsSinkOption : Type := godogStatsSink → M W godogStatsSink.

Definition WithStatsdHost (host : string) : goDogStatsSinkOption := λ g,
  mret (mkSink (gs_client g) host (gs_port g) (gs_mogrifier g)).

Definition WithStatsdPort (port : Z) : goDogStatsSinkOption := λ g,
  mret (mkSink (gs_client g) (gs_host g) port (gs_mogrifier g)).

(** The map in the order it is iterated. *)
Definition WithMogrifier (mogrifiers : list (mogrifierEntry (Regexp := Regexp))) : goDogStatsSinkOption := λ g,
  mret (mkSink (gs_client g) (gs_host g) (gs_port g) (gs_mogrifier g ++ mogrifiers)).

Definition WithMogrifierFromEnv (keys : list string) : goDogStatsSinkOption := λ g,
  match newMogrifierMapFromEnv Compile envconfig_Process keys with
  | inr err => throw (PError err)
  | inl mogrifier => mret (mkSink (gs_client g) (gs_host g) (gs_port g) mogrifier)
  end.

Definition NewSink (opts : list goDogStatsSinkOption) : M W (godogStatsSink + string) :=
  sink ← range opts (mkSink None "" 0 []) (λ _ opt sink, opt sink);
  let addr := gs_host sink +:+ ":" +:+ FormatInt (gs_port sink) in
  match statsd_New addr with
  | Some err => mret (inr err)
  | None => mret (inl (mkSink (Some addr) (gs_host sink) (gs_port sink) (gs_mogrifier sink)))
  end.
End options.

(** What the client is called with. *)
Inductive statsd_call : Set :=
  | Count (name : string) (value : Z) (tags : list string)
  | Gauge (name : string) (value : spec_float) (tags : list string)
  | Timing (name : string) (nanoseconds : Z) (tags : list string).

Definition FlushCounter (g : godogStatsSink) (name : string) (value : Z) : statsd_call :=
  let '(name, tags) := sink_mogrify FindStringSubmatch (gs_mogrifier g) name in
  Count name (i64 value) tags.

Definition float64_of_uint64 (z : Z) : spec_float := binary_normalize 53 1024 z 0 false.

Definition FlushGauge (g : godogStatsSink) (name : string) (value : Z) : statsd_call :=
  let '(name, tags) := sink_mogrify FindStringSubmatch (gs_mogrifier g) name in
  Gauge name (float64_of_uint64 value) tags.

(** [time.Duration(f)]: towards zero. *)
Definition trunc_float (f : spec_float) : Z :=
  match f with
  | S754_finite s mant e =>
      let v := if s then - Zpos mant else Zpos mant in
      if 0 <=? e then v * 2 ^ e else Z.quot v (2 ^ (- e))
  | _ => 0
  end.

Definition FlushTimer (g : godogStatsSink) (name : string) (milliseconds : spec_float) : statsd_call :=
  let '(name, tags) := sink_mogrify FindStringSubmatch (gs_mogrifier g) name in
  let duration := i64 (trunc_float milliseconds * 1000000) in
  Timing name duration tags.

Lemma NewSink_spec {W} host port keys (w : W) :
  NewSink [WithStatsdHost host; WithStatsdPort port; WithMogrifierFromEnv keys] w =
    (match newMogrifierMapFromEnv Compile envconfig_Process keys with
     | inr err => Panic (PError err)
     | inl mogrifier =>
         let addr := host +:+ ":" +:+ FormatInt port in
         Ret (match statsd_New addr with
              | Some err => inr err
              | None => inl (mkSink (Some addr) host port mogrifier)
              end)
     end, w).
Proof.
  unfold NewSink, range; simpl. unfold mbind, M_bind, WithMogrifierFromEnv; simpl.
  destruct (newMogrifierMapFromEnv Compile envconfig_Process keys); [|done]. simpl.
  by destruct (statsd_New _).
Qed.

(** A counter and its rewritten name reach the client unchanged while it fits. *)
Lemma FlushCounter_spec g name value :
  0 <= value < 2 ^ 63 →
  FlushCounter g name value =
    Count (sink_mogrify FindStringSubmatch (gs_mogrifier g) name).1 value
      (sink_mogrify FindStringSubmatch (gs_mogrifier g) name).2.
Proof.
  intros Hv. unfold FlushCounter. destruct (sink_mogrify _ _ name). by rewrite i64_small by (unfold is_i64; lia).
Qed.
End sink.

(** ** The interceptor *)

(** [time.Now] in nanoseconds, and adding a value to a timer. *)
Class Timers (E : Type) : Type := {
  time_Now : E → Z * E;
  timer_AddValue : Scope → string → Z → E → unit * E;
}.

Section interceptor.
Context {E : Type} `{Timers E}.
#[local] Abbreviation W := (World E).

Definition splitMethodName (fullMethodName : string) : string * string :=
  match Cut (TrimPrefix fullMethodName "/") "/" with
  | Some (service, method) => (service, method)
  | None => ("unknown", "unknown")
  end.

Record serverMetrics : Set := mkServerMetrics {
  sm_totalRequests : Counter;
  sm_responseTime : Scope * string;
}.

Definition newServerMetrics (scope : Scope) (fullMethod : string) : serverMetrics :=
  let '(_, methodName) := splitMethodName fullMethod in
  mkServerMetrics (NewCounter scope (methodName +:+ ".total_requests"))
    (scope, methodName +:+ ".response_time").

(** The reporter is its scope. *)
Definition NewServerReporter (scope : Scope) : Scope := scope.

Definition UnaryServerInterceptor {A B} (r : Scope) (FullMethod : string) (handler : A → M W B) (req : A)
  : M W B :=
  start ← ext time_Now;
  let s := newServerMetrics r FullMethod in
  _ ← Inc (sm_totalRequests s);
  resp ← handler req;
  now ← ext time_Now;
  _ ← ext (timer_AddValue (sm_responseTime s).1 (sm_responseTime s).2 (Z.quot (now - start) 1000000));
  mret resp.

(** The state in which the handler runs. *)
Definition intercepted (r : Scope) (FullMethod : string) (w : W) : W :=
  mkWorld (w_heap w) (ctr_add (sm_totalRequests (newServerMetrics r FullMethod)) 1 (w_counters w))
    (time_Now (w_ext w)).2.

(** Whatever the handler does, the interceptor does: it returns its answer, or
    panics or exits with it; the request is counted before the handler runs, and
    the handler's heap and counters are left as they are. *)
Lemma UnaryServerInterceptor_transparent {A B} r FullMethod (handler : A → M W B) req w :
  let '(o, w') := handler req (intercepted r FullMethod w) in
  ∃ e, UnaryServerInterceptor r FullMethod handler req w = (o, mkWorld (w_heap w') (w_counters w') e).
Proof.
  unfold UnaryServerInterceptor, intercepted, mbind, M_bind, ext.
  destruct (time_Now (w_ext w)) as [start e1]. cbn -[newServerMetrics].
  destruct (handler req _) as [[resp|p|c] w'] eqn:Hrun; cbn -[newServerMetrics].
  - destruct (time_Now (w_ext w')) as [now e2]. cbn -[newServerMetrics].
    destruct (timer_AddValue _ _ _ e2) as [[] e3]. by eexists.
  - exists (w_ext w'). by destruct w'.
  - exists (w_ext w'). by destruct w'.
Qed.

Lemma splitMethodName_spec service method :
  Cut service "/" = None →
  splitMethodName ("/" +:+ service +:+ "/" +:+ method) = (service, method).
Proof.
  intros Hs. unfold splitMethodName, TrimPrefix. rewrite HasPrefix_app, drop_str_app.
  change (service +:+ "/" +:+ method) with (service +:+ String "/"%char method). by rewrite Cut_byte_app.
Qed.
End interceptor.

(** ** The local cache *)

(** The counters of [freecache.Cache], signed. *)
Record cache_counts : Set := mkCacheCounts {
  cc_EvacuateCount : Z; cc_ExpiredCount : Z; cc_EntryCount : Z; cc_AverageAccessTime : Z;
  cc_HitCount : Z; cc_MissCount : Z; cc_LookupCount : Z; cc_OverwriteCount : Z;
}.

(** A gauge is known, like a counter, by its scope and name. *)
Record localCacheStats : Set := mkLocalCacheStats {
  lc_evacuateCount : Counter; lc_expiredCount : Counter; lc_entryCount : Counter;
  lc_averageAccessTime : Counter; lc_hitCount : Counter; lc_missCount : Counter;
  lc_lookupCount : Counter; lc_overwriteCount : Counter;
}.

Definition NewLocalCacheStats (scope : Scope) : localCacheStats :=
  mkLocalCacheStats (NewCounter scope "evacuateCount") (NewCounter scope "expiredCount")
    (NewCounter scope "entryCount") (NewCounter scope "averageAccessTime")
    (NewCounter scope "hitCount") (NewCounter scope "missCount")
    (NewCounter scope "lookupCount") (NewCounter scope "overwriteCount").

(** The gauges as they are set, in order. *)
Definition GenerateStats (stats : localCacheStats) (cache : cache_counts) (gauges : gmap Counter Z)
  : gmap Counter Z :=
  foldl (λ g '(gauge, value), <[gauge := u64 value]> g) gauges
    [(lc_evacuateCount stats, cc_EvacuateCount cache); (lc_expiredCount stats, cc_ExpiredCount cache);
     (lc_entryCount stats, cc_EntryCount cache); (lc_averageAccessTime stats, cc_AverageAccessTime cache);
     (lc_hitCount stats, cc_HitCount cache); (lc_missCount stats, cc_MissCount cache);
     (lc_lookupCount stats, cc_LookupCount cache); (lc_overwriteCount stats, cc_OverwriteCount cache)].

(** Every gauge holds its own count afterwards, and no other gauge changed. *)
Lemma GenerateStats_sets scope cache gauges :
  let stats := NewLocalCacheStats scope in
  let g := GenerateStats stats cache gauges in
  g !! lc_evacuateCount stats = Some (u64 (cc_EvacuateCount cache)) ∧
  g !! lc_expiredCount stats = Some (u64 (cc_ExpiredCount cache)) ∧
  g !! lc_entryCount stats = Some (u64 (cc_EntryCount cache)) ∧
  g !! lc_averageAccessTime stats = Some (u64 (cc_AverageAccessTime cache)) ∧
  g !! lc_hitCount stats = Some (u64 (cc_HitCount cache)) ∧
  g !! lc_missCount stats = Some (u64 (cc_MissCount cache)) ∧
  g !! lc_lookupCount stats = Some (u64 (cc_LookupCount cache)) ∧
  g !! lc_overwriteCount stats = Some (u64 (cc_OverwriteCount cache)) ∧
  ∀ c, c_scope c ≠ scope → g !! c = gauges !! c.
Proof.
  cbv zeta. unfold GenerateStats, NewLocalCacheStats, NewCounter; cbn [foldl lc_evacuateCount lc_expiredCount
    lc_entryCount lc_averageAccessTime lc_hitCount lc_missCount lc_lookupCount lc_overwriteCount].
  split_and!; try (repeat (rewrite lookup_insert_ne by (intros [=])); by rewrite lookup_insert_eq).
  intros c Hc. repeat (rewrite lookup_insert_ne by (intros <-; by apply Hc)). done.
Qed.
