(* ===== verification/Driver.v ===== *)
(** * Connections to redis ([src/redis/driver_impl.go], [src/redis/cache_impl.go])

    The construction of a client, the limiter built from the settings, and the
    pool callbacks that count connections and report the health of redis.  The
    radix library is a parameter.

    The callbacks run in the goroutines of the pool.  [ConnCreated] and
    [ConnClosed] run one of them without interruption; [trace_step] interleaves
    their accesses to the gauge and the health checker. *)

From stdpp Require Import relations.
From S2P Require Import Prelude GoStrings World Utils Stats Limiter LimiterSpec Redis RedisCache Tls Settings SettingsSpec Health.

#[local] Open Scope Z_scope.

(** ** Clients *)

Inductive dial_opt : Set :=
  | DialUseTLS (tlsConfig : option tls_Config)
  | DialAuthUser (user pass : string)
  | DialAuthPass (pass : string).

(** The options [df] dials with. *)
Definition dial_opts (useTls : bool) (tlsConfig : option tls_Config) (auth : string) : list dial_opt :=
  (if useTls then [DialUseTLS tlsConfig] else []) ++
  (if decide (auth = "") then []
   else match Cut auth ":" with
        | Some (user, pass) => [DialAuthUser user pass]
        | None => [DialAuthPass auth]
        end).

(** The options of a pool: how to dial, and the pipeline window if one is set. *)
Record pool_opts : Set := mkPoolOpts {
  po_dial : list dial_opt;
  po_window : option (Z * Z);
}.

(** The constructors of the library: a client, known by its number, or an error;
    and the reply to PING. *)
Class RadixNew (E : Type) : Type := {
  NewPool : pool_opts → string → string → Z → E → (nat + string) * E;
  NewCluster : pool_opts → list string → Z → E → (nat + string) * E;
  NewSentinel : pool_opts → string → list string → Z → E → (nat + string) * E;
  radix_Ping : nat → E → (option string * string) * E;
}.

(** Closing a client returns an error or nothing. *)
Class RadixClose (E : Type) : Type := radix_Close : nat → E → option string * E.

Definition Close {E} `{RadixClose E} (c : clientImpl) : M (World E) (option string) :=
  ext (radix_Close (ci_client c)).

Record client_settings : Set := mkClientSettings {
  cs_useTls : bool;
  cs_auth : string;
  cs_redisSocketType : string;
  cs_redisType : string;
  cs_url : string;
  cs_poolSize : Z;
  cs_pipelineWindow : Z;
  cs_pipelineLimit : Z;
  cs_tlsConfig : option tls_Config;
}.

Section client.
Context {E : Type} `{RadixNew E}.
#[local] Abbreviation W := (World E).

Definition implicit_pipelining (s : client_settings) : bool :=
  negb (bool_decide (cs_pipelineWindow s = 0) && bool_decide (cs_pipelineLimit s = 0)).

Definition client_opts (s : client_settings) : pool_opts :=
  mkPoolOpts (dial_opts (cs_useTls s) (cs_tlsConfig s) (cs_auth s))
    (if implicit_pipelining s then Some (cs_pipelineWindow s, cs_pipelineLimit s) else None).

(** The switch on the redis type. *)
Definition open_client (s : client_settings) : M W (nat + string) :=
  let kind := ToLower (cs_redisType s) in
  if decide (kind = "single") then
    ext (NewPool (client_opts s) (cs_redisSocketType s) (cs_url s) (cs_poolSize s))
  else if decide (kind = "cluster") then
    let urls := Split (cs_url s) "," in
    if negb (implicit_pipelining s)
    then throw (PRedisError "Implicit Pipelining must be enabled to work with Redis Cluster Mode. Set values for REDIS_PIPELINE_WINDOW or REDIS_PIPELINE_LIMIT to enable implicit pipelining")
    else ext (NewCluster (client_opts s) urls (cs_poolSize s))
  else if decide (kind = "sentinel") then
    match Split (cs_url s) "," with
    | master :: (_ :: _) as sentinels => ext (NewSentinel (client_opts s) master (tail sentinels) (cs_poolSize s))
    | _ => throw (PRedisError "Expected master name and a list of urls for the sentinels, in the format: <redis master name>,<sentinel1>,...,<sentineln>")
    end
  else throw (PRedisError ("Unrecognized redis type " +:+ cs_redisType s)).

Definition NewClientImpl (s : client_settings) : M W clientImpl :=
  r ← open_client s;
  match r with
  | inr err => throw (PRedisError err)
  | inl client =>
      '(err, pingResponse) ← ext (radix_Ping client);
      _ ← checkError err;
      _ ← (if decide (pingResponse = "PONG") then mret ()
           else checkError (Some ("connecting redis error: " +:+ pingResponse)));
      mret (mkClient client (implicit_pipelining s))
  end.

(** The clients to close are the second component, in the order of creation. *)
Definition redis_per_second_client (s : Settings) : client_settings :=
  mkClientSettings (se_RedisPerSecondTls s) (se_RedisPerSecondAuth s) (se_RedisPerSecondSocketType s)
    (se_RedisPerSecondType s) (se_RedisPerSecondUrl s) (se_RedisPerSecondPoolSize s)
    (se_RedisPerSecondPipelineWindow s) (se_RedisPerSecondPipelineLimit s) (se_RedisTlsConfig s).

Definition redis_client (s : Settings) : client_settings :=
  mkClientSettings (se_RedisTls s) (se_RedisAuth s) (se_RedisSocketType s) (se_RedisType s) (se_RedisUrl s)
    (se_RedisPoolSize s) (se_RedisPipelineWindow s) (se_RedisPipelineLimit s) (se_RedisTlsConfig s).

Definition NewRateLimiterCacheImplFromSettings (s : Settings) (localCache : bool)
    (expirationJitterMaxSeconds : Z) : M W (fixedRateLimitCacheImpl * list clientImpl) :=
  perSecondPool ← (if se_RedisPerSecond s
                   then c ← NewClientImpl (redis_per_second_client s); mret (Some c)
                   else mret None);
  otherPool ← NewClientImpl (redis_client s);
  mret (NewFixedRateLimitCacheImpl otherPool perSecondPool expirationJitterMaxSeconds localCache
          (se_NearLimitRatio s) (se_CacheKeyPrefix s) (se_StopCacheKeyIncrementWhenOverlimit s),
        option_list perSecondPool ++ [otherPool]).
End client.

(** ** Pool callbacks *)

Record poolStats : Set := mkPoolStats {
  ps_connectionActive : Z;       (** a gauge, uint64 *)
  ps_connectionTotal : Z;        (** counters *)
  ps_connectionClose : Z;
}.

Definition newPoolStats : poolStats := mkPoolStats 0 0 0.

Record tracer : Set := mkTracer {
  tr_stats : poolStats;
  tr_health : HealthChecker;
}.

Definition NumActiveConns (t : tracer) : Z := ps_connectionActive (tr_stats t).

Definition count_created (ps : poolStats) : poolStats :=
  mkPoolStats (u64 (ps_connectionActive ps + 1)) (u64 (ps_connectionTotal ps + 1)) (ps_connectionClose ps).

Definition count_closed (ps : poolStats) : poolStats :=
  mkPoolStats (u64 (ps_connectionActive ps - 1)) (ps_connectionTotal ps) (u64 (ps_connectionClose ps + 1)).

(** [check] is [healthCheckActiveConnection && srv != nil]; the error of the
    health checker is only logged. *)
Definition ConnCreated (check : bool) (err : option string) (t : tracer) : tracer :=
  match err with
  | Some _ => t
  | None =>
      mkTracer (count_created (tr_stats t))
        (if check then (Ok (tr_health t) RedisHealthComponentName).1 else tr_health t)
  end.

Definition ConnClosed (check : bool) (t : tracer) : tracer :=
  let ps := count_closed (tr_stats t) in
  mkTracer ps
    (if check && bool_decide (ps_connectionActive ps = 0)
     then (Fail (tr_health t) RedisHealthComponentName).1 else tr_health t).

(** The same callbacks, access by access.  The two statistics of one callback are
    counted in one step: nothing reads them in between but the gauge. *)
Inductive callback : Set :=
  | CreatedCount                 (** about to count a new connection *)
  | CreatedOk                    (** about to report redis healthy *)
  | ClosedCount                  (** about to count a closed connection *)
  | ClosedRead                   (** about to read the gauge *)
  | ClosedFail.                  (** about to report redis unhealthy *)

Inductive trace_step : tracer * list callback → tracer * list callback → Prop :=
  | start_created t cs : trace_step (t, cs) (t, CreatedCount :: cs)
  | start_closed t cs : 0 < NumActiveConns t → trace_step (t, cs) (t, ClosedCount :: cs)
  | step_created ps h cs1 cs2 :
      trace_step (mkTracer ps h, cs1 ++ CreatedCount :: cs2)
        (mkTracer (count_created ps) h, cs1 ++ CreatedOk :: cs2)
  | step_ok_redis ps h cs1 cs2 :
      trace_step (mkTracer ps h, cs1 ++ CreatedOk :: cs2)
        (mkTracer ps (Ok h RedisHealthComponentName).1, cs1 ++ cs2)
  | step_closed ps h cs1 cs2 :
      trace_step (mkTracer ps h, cs1 ++ ClosedCount :: cs2)
        (mkTracer (count_closed ps) h, cs1 ++ ClosedRead :: cs2)
  | step_read ps h cs1 cs2 :
      trace_step (mkTracer ps h, cs1 ++ ClosedRead :: cs2)
        (mkTracer ps h, cs1 ++ (if bool_decide (ps_connectionActive ps = 0) then [ClosedFail] else []) ++ cs2)
  | step_fail_redis ps h cs1 cs2 :
      trace_step (mkTracer ps h, cs1 ++ ClosedFail :: cs2)
        (mkTracer ps (Fail h RedisHealthComponentName).1, cs1 ++ cs2).

(** ** What a client that starts can rely on *)

Section client_spec.
Context {E : Type} `{RadixNew E}.
Implicit Types w : World E.

(** The settings a redis type needs. *)
Definition type_settings (s : client_settings) : Prop :=
  (ToLower (cs_redisType s) = "single") ∨
  (ToLower (cs_redisType s) = "cluster" ∧ implicit_pipelining s = true) ∨
  (ToLower (cs_redisType s) = "sentinel" ∧ (2 ≤ length (Split (cs_url s) ","))%nat).

Lemma wp_ext {A} Err (f : E → A * E) w Q :
  Q (f (w_ext w)).1 (mkWorld (w_heap w) (w_counters w) (f (w_ext w)).2) → wp Err (ext f) w Q.
Proof. unfold wp, ext. by destruct (f (w_ext w)). Qed.

Lemma wp_redis_error {A} msg w (Q : A → World E → Prop) : wp redis_panic (throw (PRedisError msg)) w Q.
Proof. apply wp_throw. by exists msg. Qed.

Lemma open_client_ok s w : wp redis_panic (open_client s) w (λ _ _, type_settings s).
Proof.
  unfold open_client. case_decide as H1; [by apply wp_ext; left|].
  case_decide as H2.
  { destruct (implicit_pipelining s) eqn:Hi; simpl; [|apply wp_redis_error].
    apply wp_ext. right. left. done. }
  case_decide as H3; [|apply wp_redis_error].
  destruct (Split (cs_url s) ",") as [|a [|b l]] eqn:Hs; [apply wp_redis_error..|].
  apply wp_ext. right. right. rewrite Hs. simpl. split; [done|lia].
Qed.

Lemma NewClientImpl_ok s w :
  wp redis_panic (NewClientImpl s) w (λ c _,
    ci_implicitPipelining c = implicit_pipelining s ∧ type_settings s ∧
    ∃ e e' : E, radix_Ping (ci_client c) e = ((None, "PONG"), e')).
Proof.
  unfold NewClientImpl. eapply wp_bind; [apply open_client_ok|]. intros [client|err] w1 Ht; [|apply wp_redis_error].
  eapply wp_bind; [apply (wp_ext _ _ _ (λ r w', ∃ e e' : E, radix_Ping client e = (r, e')))|].
  { exists (w_ext w1), (radix_Ping client (w_ext w1)).2. by destruct (radix_Ping client (w_ext w1)). }
  intros [[err|] pong] w2 Hping; [by apply (wp_bind _ _ _ _ (λ _ _, False)); [apply wp_redis_error|]|].
  eapply wp_bind_Ret; [reflexivity|]. destruct (decide (pong = "PONG")) as [->|].
  - eapply wp_bind_Ret; [reflexivity|]. by apply wp_ret.
  - by apply (wp_bind _ _ _ _ (λ _ _, False)); [apply wp_redis_error|].
Qed.

(** What is known of a client that was made for [s]. *)
Definition checked (s : client_settings) (c : clientImpl) : Prop :=
  ci_implicitPipelining c = implicit_pipelining s ∧ type_settings s ∧
  ∃ e e' : E, radix_Ping (ci_client c) e = ((None, "PONG"), e').

Definition checked_limiter (s : Settings) (jitter : Z) (r : fixedRateLimitCacheImpl * list clientImpl) : Prop :=
  checked (redis_client s) (fx_client r.1) ∧
  match fx_perSecondClient r.1 with
  | Some c => se_RedisPerSecond s = true ∧ checked (redis_per_second_client s) c
  | None => se_RedisPerSecond s = false
  end ∧
  (∀ c, c ∈ r.2 ↔ c = fx_client r.1 ∨ fx_perSecondClient r.1 = Some c) ∧
  fx_stopCacheKeyIncrementWhenOverlimit r.1 = se_StopCacheKeyIncrementWhenOverlimit s ∧
  (jitter <= 2 ^ 62 → jitter_ok r.1).

Lemma NewRateLimiterCacheImplFromSettings_ok (s : Settings) localCache jitter w :
  wp redis_panic (NewRateLimiterCacheImplFromSettings s localCache jitter) w (λ r _, checked_limiter s jitter r).
Proof.
  unfold NewRateLimiterCacheImplFromSettings.
  eapply wp_bind with (Q := λ ps _, match ps with
    | Some c => se_RedisPerSecond s = true ∧ checked (redis_per_second_client s) c
    | None => se_RedisPerSecond s = false end).
  { destruct (se_RedisPerSecond s); [|by apply wp_ret].
    eapply wp_bind; [apply NewClientImpl_ok|]. intros c w1 Hc. by apply wp_ret. }
  intros ps w1 Hps. eapply wp_bind; [apply NewClientImpl_ok|]. intros c w2 Hc. apply wp_ret.
  split; [exact Hc|]. split; [exact Hps|]. split; [|done]. intros c'. simpl.
  rewrite elem_of_app, list_elem_of_singleton.
  destruct ps as [ps|]; simpl; rewrite ?list_elem_of_singleton, ?elem_of_nil; clear.
  - split; [intros [->| ->]|intros [->|[= ->]]]; auto.
  - split; [intros [[]| ->]|intros [->|[=]]]; auto.
Qed.

(** Redis is reachable: every constructor succeeds and PING is answered. *)
Definition redis_reachable : Prop :=
  (∀ o net url size (e : E), ∃ c e', NewPool o net url size e = (inl c, e')) ∧
  (∀ o urls size (e : E), ∃ c e', NewCluster o urls size e = (inl c, e')) ∧
  (∀ o master urls size (e : E), ∃ c e', NewSentinel o master urls size e = (inl c, e')) ∧
  (∀ c (e : E), ∃ e', radix_Ping c e = ((None, "PONG"), e')).

Lemma ext_Ret {A} (f : E → A * E) w a e' :
  f (w_ext w) = (a, e') → ext f w = (Ret a, mkWorld (w_heap w) (w_counters w) e').
Proof. unfold ext. by intros ->. Qed.

Lemma open_client_starts s w :
  redis_reachable → type_settings s → ∃ c w', open_client s w = (Ret (inl c), w').
Proof.
  intros (Hp&Hc&Hs&_) Ht. unfold open_client.
  destruct Ht as [->|[[-> ->]|[-> Hurls]]]; simpl.
  - edestruct Hp as (c&e'&Hr). erewrite ext_Ret by exact Hr. by eexists _, _.
  - edestruct Hc as (c&e'&Hr). erewrite ext_Ret by exact Hr. by eexists _, _.
  - destruct (Split (cs_url s) ",") as [|a [|b l]]; simpl in Hurls; [lia..|].
    edestruct Hs as (c&e'&Hr). erewrite ext_Ret by exact Hr. by eexists _, _.
Qed.

Lemma NewClientImpl_starts s w :
  redis_reachable → type_settings s → ∃ c w', NewClientImpl s w = (Ret c, w').
Proof.
  intros Hup Ht. destruct (open_client_starts s w Hup Ht) as (c&w1&Ho). unfold NewClientImpl.
  erewrite bind_Ret by exact Ho. destruct (proj2 (proj2 (proj2 Hup)) c (w_ext w1)) as [e' Hping].
  erewrite bind_Ret by (by apply ext_Ret). by eexists _, _.
Qed.

Lemma NewRateLimiterCacheImplFromSettings_starts (s : Settings) localCache jitter w :
  redis_reachable → type_settings (redis_client s) →
  (se_RedisPerSecond s = true → type_settings (redis_per_second_client s)) →
  ∃ r w', NewRateLimiterCacheImplFromSettings s localCache jitter w = (Ret r, w').
Proof.
  intros Hup Hother Hps. unfold NewRateLimiterCacheImplFromSettings.
  assert (∃ ps w1, (if se_RedisPerSecond s then c ← NewClientImpl (redis_per_second_client s); mret (Some c)
    else mret None) w = (Ret ps, w1)) as (ps&w1&Hrun).
  { destruct (se_RedisPerSecond s); [|by eexists _, _].
    destruct (NewClientImpl_starts (redis_per_second_client s) w Hup (Hps eq_refl)) as (c&w1&Hc).
    erewrite bind_Ret by exact Hc. by eexists _, _. }
  erewrite bind_Ret by exact Hrun. destruct (NewClientImpl_starts (redis_client s) w1 Hup Hother) as (c&w2&Hc).
  erewrite bind_Ret by exact Hc. by eexists _, _.
Qed.

(** A redis limiter that starts was checked, and one that can start does.
    Building it from the settings either fails with a redis error, and no other
    panic, or returns a limiter whose clients have answered PING with PONG, have a
    known redis type, use implicit pipelining exactly when a window or limit is
    set and always in cluster mode, and name sentinels in sentinel mode; a
    per-second client exists exactly when configured, and every client is in the
    list of those to close.  With redis reachable, settings that fit their redis
    type are enough for it to start. *)
Theorem NewRateLimiterCacheImplFromSettings_checked (s : Settings) localCache jitter w :
  wp redis_panic (NewRateLimiterCacheImplFromSettings s localCache jitter) w
    (λ r _, checked_limiter s jitter r) ∧
  (redis_reachable → type_settings (redis_client s) →
   (se_RedisPerSecond s = true → type_settings (redis_per_second_client s)) →
   ∃ r w', NewRateLimiterCacheImplFromSettings s localCache jitter w = (Ret r, w')).
Proof.
  split; [apply NewRateLimiterCacheImplFromSettings_ok|apply NewRateLimiterCacheImplFromSettings_starts].
Qed.
End client_spec.

Section starts_witness.
#[local] Instance toy_RadixNew : RadixNew nat := {|
  NewPool _ _ _ _ n := (inl n, S n);
  NewCluster _ _ _ n := (inl n, S n);
  NewSentinel _ _ _ _ n := (inl n, S n);
  radix_Ping _ n := ((None, "PONG"), n) |}.

Definition two_redis : Settings :=
  settings_of [("REDIS_PERSECOND", "true"); ("REDIS_PERSECOND_URL", "a:6379"); ("REDIS_TYPE", "sentinel");
               ("REDIS_URL", "master,s1:1,s2:2"); ("REDIS_AUTH", "user:pass")].

Lemma NewRateLimiterCacheImplFromSettings_checked_witness :
  ∃ r w', NewRateLimiterCacheImplFromSettings two_redis true 300 (mkWorld [] ∅ 0%nat) = (Ret r, w') ∧
    checked_limiter two_redis 300 r ∧ length r.2 = 2%nat.
Proof.
  destruct (NewRateLimiterCacheImplFromSettings_checked two_redis true 300 (mkWorld [] ∅ 0%nat)) as [Hok Hstart].
  destruct Hstart as (r&w'&Hrun).
  - split_and!; intros; by repeat eexists.
  - right. right. split; [by vm_compute|]. apply Nat.leb_le. by vm_compute.
  - intros _. left. by vm_compute.
  - exists r, w'. unfold wp in Hok. rewrite Hrun in Hok. split; [exact Hrun|]. split; [exact Hok|].
    vm_compute in Hrun. by injection Hrun as <- _.
Defined.
End starts_witness.

(** ** Connections and health *)

(** The callbacks of a pool, one after the other; a pool closes only connections
    it has created. *)
Inductive pool_event : Set := Created (err : option string) | Closed.

Definition run_event (t : tracer) (e : pool_event) : tracer :=
  match e with Created err => ConnCreated true err t | Closed => ConnClosed true t end.

Definition created (es : list pool_event) : Z :=
  sumZ ((λ e, match e with Created None => 1 | _ => 0 end) <$> es).

Definition closed (es : list pool_event) : Z :=
  sumZ ((λ e, match e with Closed => 1 | _ => 0 end) <$> es).

Definition possible (es : list pool_event) : Prop :=
  ∀ pre post, es = pre ++ post → closed pre <= created pre.

Definition redis_health (h : HealthChecker) : option bool := hc_healthMap h !! RedisHealthComponentName.

Lemma Ok_redis h b : redis_health h = Some b → redis_health (Ok h RedisHealthComponentName).1 = Some true.
Proof.
  unfold redis_health, Ok. intros ->. destruct (areAllComponentsHealthy _); simpl; by rewrite lookup_insert_eq.
Qed.

Lemma Fail_redis h b : redis_health h = Some b → redis_health (Fail h RedisHealthComponentName).1 = Some false.
Proof. unfold redis_health, Fail. intros ->. simpl. by rewrite lookup_insert_eq. Qed.

Lemma created_nonneg es : 0 <= created es.
Proof. apply sumZ_nonneg, Forall_fmap, Forall_true. intros [[]|]; simpl; lia. Qed.

Lemma closed_nonneg es : 0 <= closed es.
Proof. apply sumZ_nonneg, Forall_fmap, Forall_true. intros [|]; simpl; lia. Qed.

Lemma created_snoc es e :
  created (es ++ [e]) = created es + match e with Created None => 1 | _ => 0 end.
Proof. unfold created. rewrite fmap_app, sumZ_app. simpl. unfold sumZ; simpl. lia. Qed.

Lemma closed_snoc es e : closed (es ++ [e]) = closed es + match e with Closed => 1 | _ => 0 end.
Proof. unfold closed. rewrite fmap_app, sumZ_app. simpl. unfold sumZ; simpl. lia. Qed.

#[local] Arguments Ok : simpl never.
#[local] Arguments Fail : simpl never.

(** When the callbacks run one after the other, the statistics count the
    connections and the health of redis follows them: redis is reported healthy
    exactly while a connection is open, once any was, and stays healthy
    before. *)
Theorem poolTrace_serial h es :
  redis_health h = Some true → possible es → created es < 2 ^ 64 →
  let t := foldl run_event (mkTracer newPoolStats h) es in
  tr_stats t = mkPoolStats (created es - closed es) (created es) (closed es) ∧
  redis_health (tr_health t) =
    Some (bool_decide (created es = 0) || bool_decide (0 < created es - closed es)).
Proof.
  intros Hh. induction es as [|e es IH] using rev_ind; intros Hp Hb; [done|].
  cbn zeta in *. rewrite foldl_app; simpl.
  pose proof (closed_nonneg es) as Hc0. pose proof (created_nonneg es) as Hc1.
  assert (possible es) as Hp'.
  { intros pre post Heq. apply (Hp pre (post ++ [e])). by rewrite Heq, app_assoc. }
  pose proof (Hp (es ++ [e]) []) as Hlast. rewrite app_nil_r in Hlast. specialize (Hlast eq_refl).
  pose proof (Hp' es [] ltac:(by rewrite app_nil_r)) as Hes.
  rewrite created_snoc, closed_snoc in *.
  destruct IH as [Hst Hred]; [done|destruct e as [[]|]; lia|].
  set (t := foldl run_event _ es) in *. destruct e as [[err|]|]; simpl.
  - by rewrite !Z.add_0_r.
  - unfold count_created. rewrite Hst. simpl. rewrite !u64_small by (unfold is_u64; lia).
    split; [f_equal; lia|]. rewrite (Ok_redis _ _ Hred). f_equal.
    by rewrite bool_decide_false, bool_decide_true by lia.
  - unfold count_closed. rewrite Hst. simpl. rewrite !u64_small by (unfold is_u64; lia).
    split; [f_equal; lia|]. rewrite (bool_decide_false (created es + 0 = 0)) by lia.
    destruct (bool_decide_reflect (created es - closed es - 1 = 0)).
    + rewrite (Fail_redis _ _ Hred). f_equal. by rewrite bool_decide_false by lia.
    + rewrite Hred. f_equal. rewrite bool_decide_false by lia. simpl. by rewrite !bool_decide_true by lia.
Qed.

Lemma poolTrace_serial_witness :
  redis_health (tr_health (foldl run_event (mkTracer newPoolStats (NewHealthChecker "ratelimit" false))
    [Created None; Created (Some "refused"); Created None; Closed])) = Some true ∧
  redis_health (tr_health (foldl run_event (mkTracer newPoolStats (NewHealthChecker "ratelimit" false))
    [Created None; Closed])) = Some false.
Proof.
  split.
  - apply (poolTrace_serial (NewHealthChecker "ratelimit" false)
      [Created None; Created (Some "refused"); Created None; Closed]); [by vm_compute| |by vm_compute].
    intros pre post Heq. do 4 (destruct pre as [|? pre]; [by vm_compute|]; injection Heq as <- Heq).
    by destruct pre; [vm_compute|].
  - apply (poolTrace_serial (NewHealthChecker "ratelimit" false) [Created None; Closed]);
      [by vm_compute| |by vm_compute].
    intros pre post Heq. do 2 (destruct pre as [|? pre]; [by vm_compute|]; injection Heq as <- Heq).
    by destruct pre; [vm_compute|].
Defined.

(** C35: interleaved, the health of redis can be wrong for good.  When the last
    connection is closed while a new one is created, the callback of the closed
    one may read the gauge before, and report the failure after, the callback of
    the new one: all callbacks have returned, one connection is open, and redis
    is reported unhealthy. *)
Theorem poolTrace_race h :
  redis_health h = Some true →
  ∃ t, rtc trace_step (mkTracer newPoolStats h, []) (t, []) ∧
    NumActiveConns t = 1 ∧ redis_health (tr_health t) = Some false.
Proof.
  intros Hh. set (h1 := (Ok h RedisHealthComponentName).1). set (h2 := (Ok h1 RedisHealthComponentName).1).
  exists (mkTracer (count_created (count_closed (count_created newPoolStats))) (Fail h2 RedisHealthComponentName).1).
  split_and!; [|done|].
  - eapply rtc_l; [apply start_created|]. eapply rtc_l; [apply (step_created _ _ [] [])|].
    eapply rtc_l; [apply (step_ok_redis _ _ [] [])|].
    eapply rtc_l; [by apply start_closed|]. eapply rtc_l; [apply (step_closed _ _ [] [])|].
    eapply rtc_l; [apply (step_read _ _ [] [])|]. simpl.
    eapply rtc_l; [apply start_created|]. eapply rtc_l; [apply (step_created _ _ [] [ClosedFail])|].
    eapply rtc_l; [apply (step_ok_redis _ _ [] [ClosedFail])|].
    apply rtc_once, (step_fail_redis _ _ [] []).
  - simpl. by eapply Fail_redis, Ok_redis, Ok_redis.
Qed.

Lemma poolTrace_race_witness :
  ∃ t, rtc trace_step (mkTracer newPoolStats (NewHealthChecker "ratelimit" false), []) (t, []) ∧
    NumActiveConns t = 1 ∧ redis_health (tr_health t) = Some false.
Proof. apply poolTrace_race. by vm_compute. Defined.
