(* ===== verification/Server.v ===== *)
(** * The HTTP and gRPC front end ([src/server/server_impl.go], [src/server/tls.go])

    The JSON handler over the service, the check of client certificates, the
    listen addresses, the debug index and the order of shutdown.  The
    protobuf-JSON codec, X.509 verification and the network are parameters. *)

From stdpp Require Import sorting.
From S2P Require Import Prelude GoStrings World Utils Stats Config ConfigLoad ConfigLookup.
From S2P Require Import Limiter LimiterSpec Redis RedisCache Simulated Tls Settings Health Service ServiceSpec.
From S2P Require Import ServiceTheorems Srv.

#[local] Open Scope Z_scope.

(** ** The JSON endpoint *)

Definition StatusOK : Z := 200.
Definition StatusBadRequest : Z := 400.
Definition StatusTooManyRequests : Z := 429.
Definition StatusInternalServerError : Z := 500.

Definition StatusText (code : Z) : string :=
  if decide (code = StatusBadRequest) then "Bad Request"
  else if decide (code = StatusInternalServerError) then "Internal Server Error"
  else if decide (code = StatusTooManyRequests) then "Too Many Requests"
  else if decide (code = StatusOK) then "OK" else "".

Record http_response : Set := mkHttp {
  hr_status : Z;
  hr_contentType : string;
  hr_body : string;
}.

(** [http.Error] *)
Definition writeHttpStatus (code : Z) : http_response :=
  mkHttp code "text/plain; charset=utf-8" (StatusText code +:+ String (Ascii.ascii_of_nat 10) "").

Section json.
Context {E : Type}
  (Unmarshal : string → RateLimitRequest + string) (Marshal : RateLimitResponse → string + string).
#[local] Abbreviation W := (World E).

(** [body] is what reading the request body returned. *)
Definition NewJsonHandler
    (ShouldRateLimit : RateLimitRequest → M W (option RateLimitResponse * option string))
    (body : string + string) : M W http_response :=
  match body with
  | inr err => mret (writeHttpStatus StatusBadRequest)
  | inl body =>
      match Unmarshal body with
      | inr err => mret (writeHttpStatus StatusBadRequest)
      | inl req =>
          '(resp, err) ← ShouldRateLimit req;
          match err with
          | Some err => mret (writeHttpStatus StatusBadRequest)
          | None =>
              match resp with
              | None => mret (writeHttpStatus StatusInternalServerError)
              | Some resp =>
                  match Marshal resp with
                  | inr err => mret (writeHttpStatus StatusInternalServerError)
                  | inl jsonResp =>
                      let code :=
                        match rs_OverallCode resp with
                        | Code_UNKNOWN => StatusInternalServerError
                        | Code_OVER_LIMIT => StatusTooManyRequests
                        | Code_OK => StatusOK
                        end in
                      mret (mkHttp code "application/json" jsonResp)
                  end
              end
          end
      end
  end.
End json.

(** ** Client certificates *)

Section tls.
Context {Cert : Type}
  (** [leaf.Verify] against the client CAs, the name to match and the given
      intermediates: [None] if the chain verifies. *)
  (Verify : Cert → list Cert → option string).

Fixpoint verifyClient (verifiedChains : list (list Cert)) : option string :=
  match verifiedChains with
  | [] => None
  | [] :: _ => Some "missing client cert"
  | (leaf :: intermediates) :: chains =>
      match Verify leaf intermediates with
      | Some err => Some err
      | None => verifyClient chains
      end
  end.
End tls.

(** ** Construction *)

Inductive grpcListenType : Set := tcp | unixDomainSocket.

(** [net.JoinHostPort]: an IPv6 address is put in brackets. *)
Definition JoinHostPort (host port : string) : string :=
  if Contains host ":" then "[" +:+ host +:+ "]:" +:+ port else host +:+ ":" +:+ port.

Record addresses : Set := mkAddresses {
  ad_http : string; ad_grpc : string; ad_grpcListenType : grpcListenType; ad_debug : string;
}.

Definition newServer_addresses (s : Environment) : addresses :=
  let uds := bool_decide (se_GrpcUds s ≠ "") in
  mkAddresses
    (JoinHostPort (se_Host s) (FormatInt (se_Port s)))
    (if uds then se_GrpcUds s else JoinHostPort (se_GrpcHost s) (FormatInt (se_GrpcPort s)))
    (if uds then unixDomainSocket else tcp)
    (JoinHostPort (se_DebugHost s) (FormatInt (se_DebugPort s))).

(** The debug endpoints: a map from paths to help texts, and the index at [/]. *)
Definition AddDebugHttpEndpoint (path help : string) (endpoints : gmap string string) : gmap string string :=
  <[path := help]> endpoints.

Definition default_endpoints : gmap string string :=
  AddDebugHttpEndpoint "/debug/pprof/trace" "trace endpoint"
    (AddDebugHttpEndpoint "/stats" "print out stats"
      (AddDebugHttpEndpoint "/debug/pprof/profile" "CPU profiling endpoint"
        (AddDebugHttpEndpoint "/debug/pprof/" "root of various pprof endpoints. hit for help." ∅))).

Definition debug_root (endpoints : gmap string string) : list string :=
  (λ key, key +:+ ": " +:+ default "" (endpoints !! key)) <$> sort_Strings (elements (dom endpoints)).

(** ** The shutdown sequence *)

Inductive stop_action : Set :=
  | GracefulStop            (** of the gRPC server: waits for its requests *)
  | CloseDebugListener
  | CloseHttpServer
  | StopProvider
  | ExitProcess (code : Z).

Definition Stop (debugListener httpServer : bool) : list stop_action :=
  [GracefulStop] ++ (if debugListener then [CloseDebugListener] else []) ++
  (if httpServer then [CloseHttpServer] else []) ++ [StopProvider].

Definition handleGracefulShutdown (debugListener httpServer : bool) : list stop_action :=
  Stop debugListener httpServer ++ [ExitProcess 0].

(** ** What a client of the JSON endpoint sees *)

Section json_answers.
Context {E C : Type} `{TimeSource E} `{EnvSettings E} `{RateLimitCache E C}
  (Unmarshal : string → RateLimitRequest + string) (Marshal : RateLimitResponse → string + string).

(** C32: the JSON endpoint.  For a service with a configuration in force, a
    decoded and well-formed request is answered and nothing panics.  If the
    service decides, and the response can be written, the answer is that
    response, with status 429 exactly when a descriptor is over the limit
    outside the global shadow mode and 200 otherwise; a response that cannot be
    written is a 500.  Status 400 is given only when the backend call of this
    very request failed.  A body that does not decode is answered with 400 and
    changes nothing. *)
Theorem NewJsonHandler_answers (ok : C → Prop) {Hlaws : CacheLaws E C ok} Unit_value m merge configs
    (this : service C) body (w : World E) :
  ready ok Unit_value m merge configs this w →
  match Unmarshal body with
  | inl req =>
      well_formed req →
      wp (λ _, False) (NewJsonHandler Unmarshal Marshal (ShouldRateLimit this) (inl body)) w (λ r w',
        (∃ resp, decides Unit_value m configs this req resp ∧
           r = match Marshal resp with
               | inl js => mkHttp
                   (if bool_decide (Exists (λ s, st_Code s = Code_OVER_LIMIT) (rs_Statuses resp)) &&
                       negb (sv_globalShadowMode this)
                    then StatusTooManyRequests else StatusOK) "application/json" js
               | inr _ => writeHttpStatus StatusInternalServerError
               end) ∨
        (∃ p, backend_failed this req w p ∧ r = writeHttpStatus StatusBadRequest))
  | inr _ =>
      NewJsonHandler Unmarshal Marshal (ShouldRateLimit this) (inl body) w =
        (Ret (writeHttpStatus StatusBadRequest), w)
  end.
Proof.
  intros Hr. unfold NewJsonHandler. destruct (Unmarshal body) as [req|err]; [|done].
  intros Hw. pose proof (worker_fails_with_backend ok Unit_value m merge configs this req w Hr Hw) as Hrun.
  unfold ShouldRateLimit, wp, recover, mbind, M_bind in *.
  destruct (shouldRateLimitWorker this req w) as [[resp|p|code] w']; [| |done].
  - destruct Hrun as [_ Hd]. simpl.
    pose proof Hd as (_&Hcode&_). rewrite Hcode.
    destruct (Marshal resp) as [js|err] eqn:Hjs; left; exists resp; rewrite Hjs; (split; [done|]); [|done].
    by destruct (bool_decide _ && _).
  - pose proof Hrun as (msg&_&_&_&_&_&_&->). simpl. right. by eexists.
Qed.
End json_answers.

(** Six marketing messages through the JSON endpoint, against five a day. *)
#[local] Existing Instance sim_env.

Lemma NewJsonHandler_answers_witness :
  ∃ r w', NewJsonHandler (λ _, inl sim_messages) (λ _, inl "{}")
      (ShouldRateLimit (sim_service (Some sim_loaded.1))) (inl "body") sim_loaded.2 = (Ret r, w') ∧
    hr_status r = StatusTooManyRequests ∧ hr_contentType r = "application/json".
Proof.
  pose proof (NewJsonHandler_answers (λ _, inl sim_messages) (λ _, inl "{}") jitter_ok documented_units
    example_manager false example_configs (sim_service (Some sim_loaded.1)) "body" sim_loaded.2) as Hrun.
  assert (match NewJsonHandler (λ _, inl sim_messages) (λ _, inl "{}")
                  (ShouldRateLimit (sim_service (Some sim_loaded.1))) (inl "body") sim_loaded.2 with
          | (Ret r, _) => bool_decide (hr_status r = StatusTooManyRequests)
          | _ => false
          end = true) as Hret by (vm_compute; reflexivity).
  unfold wp in Hrun.
  destruct (NewJsonHandler (λ _, inl sim_messages) _ _ (inl "body") sim_loaded.2)
    as [[r|p|c] w']; try discriminate Hret.
  exists r, w'. apply bool_decide_eq_true in Hret. split; [reflexivity|]. split; [exact Hret|].
  destruct Hrun as [(resp&_&->)|(p&_&->)]; [| |done|discriminate Hret].
  - split; [by vm_compute|]. split; [apply documented_units_known|]. split; [by vm_compute|].
    exists sim_loaded.1. split; [done|]. eapply Load_config_of; [apply sim_loaded_eq|reflexivity].
  - split; [done|]. split; [done|]. by repeat constructor.
Defined.

(** ** Certificates *)

(** With client names required, a connection is accepted exactly when every
    chain the TLS library verified starts with a certificate that itself
    verifies for the name and the client authentication usage, with the rest of
    its own chain as intermediates. *)
Lemma verifyClient_chains {Cert} (Verify : Cert → list Cert → option string) chains :
  verifyClient Verify chains = None ↔
  Forall (λ chain, ∃ leaf rest, chain = leaf :: rest ∧ Verify leaf rest = None) chains.
Proof.
  induction chains as [|[|leaf rest] chains IH]; simpl; [done| |].
  - split; [done|]. by intros [(?&?&?&_) _]%Forall_cons_1.
  - rewrite Forall_cons. destruct (Verify leaf rest) as [err|] eqn:Hv.
    + split; [done|]. intros [(?&?&?&?) _]. naive_solver.
    + rewrite IH. naive_solver.
Qed.

(** ** The debug index *)

Lemma sort_Strings_lists l : Sorted String.le (sort_Strings l) ∧ sort_Strings l ≡ₚ l.
Proof. split; [apply Sorted_merge_sort, _|apply merge_sort_Permutation]. Qed.

(** The debug index lists every registered endpoint once, with the help it was
    last registered with, in the order of the paths. *)
Lemma debug_root_lists endpoints :
  ∃ keys, debug_root endpoints = (λ key, key +:+ ": " +:+ default "" (endpoints !! key)) <$> keys ∧
    Sorted String.le keys ∧ NoDup keys ∧ ∀ key, key ∈ keys ↔ is_Some (endpoints !! key).
Proof.
  exists (sort_Strings (elements (dom endpoints))). destruct (sort_Strings_lists (elements (dom endpoints))) as [Hs Hp].
  split_and!; [done|done|by rewrite Hp; apply NoDup_elements|].
  intros key. by rewrite Hp, elem_of_elements, elem_of_dom.
Qed.
