(* ===== verification/ServerStart.v ===== *)
(** * Construction and start of the server ([src/server/server_impl.go])

    [newServer] over the settings: statistics, gRPC options, TLS with the
    certificate provider, addresses, the configuration provider, health and debug
    endpoints; [Start] and [startGrpc].  What the TLS library makes of the
    configuration is [server_handshake]. *)

From S2P Require Import Prelude GoStrings GoPath World Utils Stats Limiter Tls Settings SettingsSpec.
From S2P Require Import CertProvider Health Service Provider ProviderNew Srv Server.

#[local] Open Scope Z_scope.

Inductive provider : Type :=
  | FileProviderImpl (p : FileProvider)
  | XdsProviderImpl (p : XdsGrpcSotwProvider).

(** What the statistics store computes before it is flushed. *)
Inductive stat_generator : Set :=
  | RuntimeStats (scope : Scope)
  | LocalCacheStats (scope : Scope).

Inductive unary_interceptor : Set :=
  | UserInterceptor (i : option UnaryServerInterceptor)
  | OtelInterceptor.

Record server : Type := mkServer {
  sr_scope : Scope;
  sr_statGenerators : list stat_generator;
  sr_keepalive : Z * Z;                         (** connection age and grace *)
  sr_interceptors : list unary_interceptor;     (** outermost first *)
  sr_creds : option tls_Config;
  sr_grpcCertProvider : option CertProvider;
  sr_addresses : addresses;
  sr_provider : provider;
  sr_routes : list string;
  sr_health : HealthChecker;
  sr_endpoints : gmap string string;
  sr_debugListener : bool;
  sr_httpServer : bool;
}.

Section new.
Context {E : Type} `{FileSystem E, X509, RuntimeLoader E}.

Definition getProviderImpl (s : Settings) : M E provider :=
  if decide (se_ConfigType s = "FILE") then
    p ← NewFileProvider s; mret (FileProviderImpl p)
  else if decide (se_ConfigType s = "GRPC_XDS_SOTW") then
    mret (XdsProviderImpl (NewXdsGrpcSotwProvider s))
  else exit 1.                          (* logger.Fatalf *)

Definition set_server_tls (certificates : list Certificate) (get : bool) (verify : option peer_verifier)
    (c : tls_Config) : tls_Config :=
  mkTlsConfig (tc_InsecureSkipVerify c) verify certificates get (tc_ClientCAs c) (tc_RootCAs c)
    (tc_ClientAuth c) (tc_ServerName c).

(** Lines 264-275: the static certificates are replaced by the provider. *)
Definition server_tls (s : Settings) : M E (option tls_Config * option CertProvider) :=
  if se_GrpcServerUseTLS s then
    p ← NewCertProvider (se_GrpcServerTlsCert s) (se_GrpcServerTlsKey s);
    c ← non_nil (se_GrpcServerTlsConfig s);
    let verify := if decide (se_GrpcClientTlsSAN s ≠ "")
                  then Some (VerifyClientName (tc_ClientCAs c) (se_GrpcClientTlsSAN s))
                  else tc_VerifyPeerCertificate c in
    mret (Some (set_server_tls [] true verify c), Some p)
  else mret (None, None).

Definition apply_options (opts : list Option) (s : Settings) : M E Settings :=
  range opts s (λ _ opt s, opt s).

Definition newServer (s : Settings) (name : string) (localCache : bool) (opts : list Option) : M E server :=
  s ← apply_options opts s;
  let scope := ScopeWithTags name (map_to_list (se_ExtraTags (se_env s))) in
  let generators := [RuntimeStats (SubScope scope "go")] ++
    (if localCache then [LocalCacheStats (SubScope scope "localcache")] else []) in
  '(creds, certProvider) ← server_tls s;
  prov ← getProviderImpl s;
  mret {|
    sr_scope := scope;
    sr_statGenerators := generators;
    sr_keepalive := (se_GrpcMaxConnectionAge (se_env s), se_GrpcMaxConnectionAgeGrace (se_env s));
    sr_interceptors := [UserInterceptor (se_GrpcUnaryInterceptor s); OtelInterceptor];
    sr_creds := creds;
    sr_grpcCertProvider := certProvider;
    sr_addresses := newServer_addresses s;
    sr_provider := prov;
    sr_routes := ["/healthcheck"];
    sr_health := NewHealthChecker "ratelimit" (se_HealthyWithAtLeastOneConfigLoaded (se_env s));
    sr_endpoints := default_endpoints;
    sr_debugListener := false;
    sr_httpServer := false |}.
End new.

Definition server_AddDebugHttpEndpoint (path help : string) (srv : server) : server :=
  mkServer (sr_scope srv) (sr_statGenerators srv) (sr_keepalive srv) (sr_interceptors srv) (sr_creds srv)
    (sr_grpcCertProvider srv) (sr_addresses srv) (sr_provider srv) (sr_routes srv) (sr_health srv)
    (AddDebugHttpEndpoint path help (sr_endpoints srv)) (sr_debugListener srv) (sr_httpServer srv).

Definition AddJsonHandler (srv : server) : server :=
  mkServer (sr_scope srv) (sr_statGenerators srv) (sr_keepalive srv) (sr_interceptors srv) (sr_creds srv)
    (sr_grpcCertProvider srv) (sr_addresses srv) (sr_provider srv) (sr_routes srv ++ ["/json"])
    (sr_health srv) (sr_endpoints srv) (sr_debugListener srv) (sr_httpServer srv).

(** ** Start *)

Inductive network : Set := reuseport_tcp | net_unix.

(** Opening a listener returns an error or nothing; serving returns when the
    server is closed or fails. *)
Class Network (E : Type) : Type := {
  net_Listen : network → string → E → option string * E;
  http_Serve : E → string * E;
  grpc_Serve : E → unit * E;
}.

Definition ErrServerClosed : string := "http: Server closed".

Section start.
Context {E : Type} `{Network E}.

(** The goroutine of the debug listener; a failure is logged. *)
Definition start_debug (srv : server) : M E (bool * option string) :=
  err ← lib (net_Listen reuseport_tcp (ad_debug (sr_addresses srv)));
  match err with
  | Some err => mret (false, Some err)
  | None => err ← lib http_Serve; mret (true, Some err)
  end.

Definition startGrpc (srv : server) : M E unit :=
  err ← lib (net_Listen (match ad_grpcListenType (sr_addresses srv) with
                         | tcp => reuseport_tcp
                         | unixDomainSocket => net_unix
                         end) (ad_grpc (sr_addresses srv)));
  match err with
  | Some err => exit 1
  | None => lib grpc_Serve
  end.

(** The rest of [Start], after the goroutines were started. *)
Definition Start_http (srv : server) : M E unit :=
  err ← lib (net_Listen reuseport_tcp (ad_http (sr_addresses srv)));
  match err with
  | Some err => exit 1
  | None =>
      err ← lib http_Serve;
      if decide (err ≠ ErrServerClosed) then exit 1 else mret ()
  end.

(** The service process stays up only while its gRPC endpoint could be opened. *)
Lemma startGrpc_exit srv e :
  (∃ e', startGrpc srv e = (Ret (), e')) ∨ (∃ e', startGrpc srv e = (Exit 1, e')).
Proof.
  unfold startGrpc, mbind, M_bind, lib. destruct (net_Listen _ _ e) as [[err|] e1]; [by right; eexists|].
  left. destruct (grpc_Serve e1) as [[] e2]. by eexists.
Qed.
End start.

(** ** Who is let in *)

Section handshake.
Context `{X509}.

Definition verify_san (roots : option CertPool) (name : string) (leaf : string) (intermediates : list string)
  : option string :=
  match Verify roots name intermediates ClientAuth leaf with
  | inr err => Some err
  | inl _ => None
  end.

(** [crypto/tls] on the server side, for the certificates the client presents:
    without client authentication they are not asked for; with it they are
    required and verified against [ClientCAs], and then shown to
    [VerifyPeerCertificate]. *)
Definition server_handshake (cfg : tls_Config) (presented : list string) : option string :=
  match tc_ClientAuth cfg with
  | NoClientCert => None
  | RequireAndVerifyClientCert =>
      match parse_certs presented with
      | inr err => Some err
      | inl [] => Some "tls: client didn't provide a certificate"
      | inl (leaf :: intermediates) =>
          match Verify (tc_ClientCAs cfg) "" intermediates ClientAuth leaf with
          | inr err => Some err
          | inl chains =>
              match tc_VerifyPeerCertificate cfg with
              | Some (VerifyClientName roots name) => verifyClient (verify_san roots name) chains
              | _ => None
              end
          end
      end
  end.
End handshake.

Section mtls.
Context {E : Type} `{FileSystem E, X509, RuntimeLoader E, Envconfig E}.

(** Options that install interceptors change nothing else. *)
Definition same_but_interceptor (s s' : Settings) : Prop :=
  se_env s' = se_env s ∧ se_GrpcServerTlsConfig s' = se_GrpcServerTlsConfig s.

Lemma apply_interceptors ints : ∀ (s : Settings) (e : E),
  ∃ s', apply_options (GrpcUnaryInterceptor <$> ints) s e = (Ret s', e) ∧ same_but_interceptor s s' ∧
    se_GrpcUnaryInterceptor s' = match last ints with Some i => Some i | None => se_GrpcUnaryInterceptor s end.
Proof.
  unfold apply_options, range. generalize 0%nat.
  induction ints as [|i ints IH]; intros n s e; [by exists s|]. rewrite fmap_cons. cbn [range_from].
  destruct (IH (S n) (mkSettings s (Some i) (se_GrpcServerTlsConfig s) (se_ConfigGrpcXdsTlsConfig s)
    (se_RedisTlsConfig s) (se_MemcacheTlsConfig s)) e) as (s'&Hrun&[Henv Htls]&Hi).
  exists s'. split; [by erewrite bind_Ret by reflexivity|]. split; [by split|].
  rewrite Hi, last_cons. by destruct (last ints).
Qed.

(** The chains accepted for the name. *)
Definition chains_match (roots : option CertPool) (name : string) (chains : list (list string)) : Prop :=
  Forall (λ chain, ∃ leaf rest, chain = leaf :: rest ∧ verify_san roots name leaf rest = None) chains.

(** The server's configuration against the settings it is made of. *)
Lemma handshake_spec (e : E) ca san c presented :
  tc_VerifyPeerCertificate c = None → ca_pool e ca (tc_ClientCAs c) → tc_ClientAuth c = auth_for ca →
  let verify := if decide (san ≠ "") then Some (VerifyClientName (tc_ClientCAs c) san)
                else tc_VerifyPeerCertificate c in
  let cfg := set_server_tls [] true verify c in
  server_handshake cfg presented = None ↔
  ca = "" ∨
  ∃ leaf rest pool chains, parse_certs presented = inl (leaf :: rest) ∧ ca_pool e ca (Some pool) ∧
    Verify (Some pool) "" rest ClientAuth leaf = inl chains ∧
    (san = "" ∨ chains_match (Some pool) san chains) ∧ tc_ClientCAs cfg = Some pool.
Proof.
  intros Hv Hca Hauth verify cfg. unfold server_handshake. simpl. rewrite Hauth. unfold auth_for.
  destruct (decide (ca ≠ "")) as [Hne|Heq].
  2: { split; [left; by apply dec_stable|done]. }
  destruct (tc_ClientCAs c) as [pool|] eqn:Hpool; [|done]. split.
  - intros Hh. right. destruct (parse_certs presented) as [[|leaf rest]|err]; [done| |done].
    destruct (Verify (Some pool) "" rest ClientAuth leaf) as [chains|err] eqn:Hver; [|done].
    exists leaf, rest, pool, chains. do 3 (split; [done|]). split; [|done].
    unfold verify in Hh. destruct (decide (san ≠ "")) as [Hs|Hs]; [right|left; by apply dec_stable].
    by apply verifyClient_chains.
  - intros [?|(leaf&rest&pool'&chains&->&_&Hver&Hsan&[= <-])]; [done|]. rewrite Hver. unfold verify.
    destruct (decide (san ≠ "")) as [Hs|Hs]; [|by rewrite Hv]. destruct Hsan as [?|Hm]; [done|].
    by apply verifyClient_chains.
Qed.

(** C9: who may talk to the service.  Take the settings [NewSettings] returned
    from a state [e0] and the server made with them.  With TLS on the gRPC
    endpoint, the server starts only with a certificate from its provider, loaded
    from the configured certificate and key files, and no static one.  If a
    client CA file is configured, a client is accepted exactly when the
    certificates it presents verify for client authentication against the pool of
    the system's roots and the certificates [NewSettings] read from that very
    file and, if a name is configured too, every verified chain also verifies for
    it.  Without a client CA every client is accepted, even when a name is
    configured.  Without TLS there are no credentials at all. *)
Theorem newServer_authenticates (s : Settings) name localCache ints (e0 e1 e e' : E) srv :
  NewSettings_impl e0 = (Ret s, e1) →
  newServer s name localCache (GrpcUnaryInterceptor <$> ints) e = (Ret srv, e') →
  if se_GrpcServerUseTLS s then
    ∃ cfg p cert, sr_creds srv = Some cfg ∧ tc_Certificates cfg = [] ∧ tc_GetCertificate cfg = true ∧
      sr_grpcCertProvider srv = Some p ∧ GetCertificateFunc p = (Some cert, None) ∧
      good_pair (se_GrpcServerTlsCert s) (se_GrpcServerTlsKey s) (watched (se_GrpcServerTlsCert s) e) = Some cert ∧
      ∀ presented,
        server_handshake cfg presented = None ↔
        se_GrpcClientTlsCACert s = "" ∨
        ∃ leaf rest pool chains, parse_certs presented = inl (leaf :: rest) ∧
          ca_pool e0 (se_GrpcClientTlsCACert s) (Some pool) ∧
          Verify (Some pool) "" rest ClientAuth leaf = inl chains ∧
          (se_GrpcClientTlsSAN s = "" ∨ chains_match (Some pool) (se_GrpcClientTlsSAN s) chains) ∧
          tc_ClientCAs cfg = Some pool
  else sr_creds srv = None ∧ sr_grpcCertProvider srv = None.
Proof.
  intros Hnew Hrun. pose proof (NewSettings_impl_verdict e0) as Htls. unfold wp in Htls. rewrite Hnew in Htls.
  destruct Htls as [_ Htls]. unfold newServer in Hrun. minv Hrun as (s'&ea&Hopt&Hrun).
  destruct (apply_interceptors ints s e) as (s''&Hopt'&[Henv Hcfg]&_).
  rewrite Hopt' in Hopt. injection Hopt as -> <-. minv Hrun as ([creds cp]&e2&Hst&Hrun).
  minv Hrun as (prov&e3&_&Hrun). injection Hrun as <- <-. cbn [sr_creds sr_grpcCertProvider].
  unfold server_tls in Hst. rewrite Henv, Hcfg in Hst. destruct (se_GrpcServerUseTLS s) eqn:Huse.
  2: { by injection Hst as <- <-. }
  destruct Htls as (_&_&Hg&_). rewrite Huse in Hg. destruct Hg as (c&Hc&Hfiles&Hauth).
  minv Hst as (p&e4&(cert&->&Hpair)%NewCertProvider_loaded&Hst). rewrite Hc in Hst. injection Hst as <- <- _.
  eexists _, _, cert. split_and!; [done..|]. intros presented.
  destruct Hfiles as (_&Hv&_&_&Hca&_). apply handshake_spec; done.
Qed.
End mtls.

(** ** On a simulated host: only "envoy", certified by the CA, is let in *)

#[local] Existing Instance toy_x509.

Definition mtls_host : Host :=
  mkHost [("GRPC_SERVER_USE_TLS", "true"); ("GRPC_SERVER_TLS_CERT", "/tls/cert.pem");
          ("GRPC_SERVER_TLS_KEY", "/tls/key.pem"); ("GRPC_CLIENT_TLS_CACERT", "/tls/ca.pem");
          ("GRPC_CLIENT_TLS_SAN", "envoy")]
    [("/tls/cert.pem", "cert"); ("/tls/key.pem", "key"); ("/tls/ca.pem", "ca")].

Lemma newServer_authenticates_witness :
  ∃ s srv h cfg, NewSettings_impl mtls_host = (Ret s, mtls_host) ∧
    newServer s "ratelimit" true [GrpcUnaryInterceptor ServerReporterInterceptor] mtls_host = (Ret srv, h) ∧
    sr_creds srv = Some cfg ∧ server_handshake cfg ["envoy@ca"] = None ∧
    server_handshake cfg ["mallory@ca"] ≠ None ∧ server_handshake cfg [] ≠ None.
Proof.
  assert (∃ s, NewSettings_impl mtls_host = (Ret s, mtls_host)) as [s Hs] by (eexists; vm_compute; reflexivity).
  assert (∃ srv h, newServer s "ratelimit" true [GrpcUnaryInterceptor ServerReporterInterceptor] mtls_host = (Ret srv, h) ∧
    se_GrpcServerUseTLS s = true ∧ se_GrpcClientTlsCACert s = "/tls/ca.pem" ∧ se_GrpcClientTlsSAN s = "envoy" ∧
    (tc_ClientCAs <$> sr_creds srv) = Some (Some (mkPool true ["ca"])))
    as (srv&h&Hnew&Htrue&Hca&Hsan&Hpool).
  { vm_compute in Hs. injection Hs as <-. eexists _, _. split; [vm_compute; reflexivity|]. by vm_compute. }
  pose proof (newServer_authenticates s "ratelimit" true [ServerReporterInterceptor] mtls_host mtls_host
    mtls_host h srv Hs Hnew) as Ha.
  rewrite Htrue, Hca, Hsan in Ha. destruct Ha as (cfg&p&cert&Hcfg&_&_&_&_&_&Hacc).
  rewrite Hcfg in Hpool. injection Hpool as Hpool.
  exists s, srv, h, cfg. split; [exact Hs|]. split; [exact Hnew|]. split; [exact Hcfg|]. clear Hnew Hs. split_and!.
  - apply Hacc. right. exists "envoy@ca", [], (mkPool true ["ca"]), [["envoy@ca"]].
    split; [done|]. split.
    { split; [done|]. exists "ca", (mkPool true []), mtls_host. split_and!; [by exists mtls_host|done|reflexivity|done|done]. }
    split; [by vm_compute|]. split; [right|done].
    constructor; [|done]. by eexists _, _.
  - rewrite Hacc. intros [?|(leaf&rest&pool&chains&Hp&_&Hver&[?|Hm]&Hpl)]; [done|done|].
    vm_compute in Hp. injection Hp as <- <-. rewrite Hpool in Hpl. injection Hpl as <-. vm_compute in Hver.
    injection Hver as <-. apply Forall_cons in Hm as [(l&r&[= <- <-]&Hx) _]. by vm_compute in Hx.
  - rewrite Hacc. intros [?|(leaf&rest&pool&chains&Hp&_)]; [done|]. by vm_compute in Hp.
Defined.
