(* ===== verification/ServerLife.v ===== *)
(** * The life of the server process ([src/server/server_impl.go])

    [Start] runs the debug listener, the gRPC server and the shutdown handler in
    goroutines of their own and serves HTTP itself; [Stop] is run by the shutdown
    handler; the health checker has a goroutine that waits for SIGTERM.  Here they
    are the threads of a step relation, which share the listeners, the mutex
    [listenerMu] and the end of the process.  A listener may fail to open, serving
    may fail at any time, requests come and go, and signals arrive. *)

From S2P Require Import Prelude GoStrings World Utils Tls Settings Health Server.
From stdpp Require Import relations.

#[local] Open Scope Z_scope.

(** ** The threads *)

Inductive os_signal : Set := SIGINT | SIGTERM | SIGHUP.

#[export] Instance os_signal_eq_dec : EqDecision os_signal.
Proof. solve_decision. Defined.

(** The main goroutine: in [Run] after [NewServer] (it may wait for the initial
    configuration), then the statements of [Start] in their order. *)
Inductive main_phase : Set :=
  | Setup | SpawnGrpc | HandleShutdown | ListenHttp | InstallHttp | ServeHttp | Returned.

Inductive debug_phase : Set := DebugNone | DebugListen | DebugServe | DebugEnded.

Inductive grpc_phase : Set := GrpcNone | GrpcListen | GrpcServe | GrpcEnded.

(** The goroutine of [handleGracefulShutdown]: it waits for a signal, then stops
    the server, holding [listenerMu] after the gRPC server has stopped. *)
Inductive shutdown_phase : Set :=
  | NotInstalled | Waiting | Signalled | Draining | WantLock | Acting (todo : list stop_action).

(** The goroutine of [NewHealthChecker]. *)
Inductive sigterm_phase : Set := TermWaiting | TermSignalled | TermDone.

Inductive outcome : Set := ExitCode (code : Z) | KilledBy (sig : os_signal).

Record life : Type := mkLife {
  lf_main : main_phase;
  lf_debug : debug_phase;
  lf_grpc : grpc_phase;
  lf_shutdown : shutdown_phase;
  lf_sigterm : sigterm_phase;
  lf_health : HealthChecker;
  lf_debugListener : bool;      (** [server.debugListener.listener] is not nil *)
  lf_httpServer : bool;         (** [server.httpServer] is not nil *)
  lf_debugClosed : bool;
  lf_httpClosed : bool;
  lf_grpcStopped : bool;        (** [GracefulStop] was called *)
  lf_listenerMu : bool;         (** held by [Stop] *)
  lf_rpcs : nat;                (** gRPC requests being served *)
  lf_failed : bool;             (** a listener could not be opened, or HTTP failed *)
  lf_over : option outcome;
}.

(** After [NewServer]. *)
Definition life_new (health : HealthChecker) : life :=
  mkLife Setup DebugNone GrpcNone NotInstalled TermWaiting health false false false false false false 0 false None.

Definition set_main (p : main_phase) (s : life) : life :=
  mkLife p (lf_debug s) (lf_grpc s) (lf_shutdown s) (lf_sigterm s) (lf_health s) (lf_debugListener s)
    (lf_httpServer s) (lf_debugClosed s) (lf_httpClosed s) (lf_grpcStopped s) (lf_listenerMu s) (lf_rpcs s)
    (lf_failed s) (lf_over s).

Definition set_debug (p : debug_phase) (listener : bool) (s : life) : life :=
  mkLife (lf_main s) p (lf_grpc s) (lf_shutdown s) (lf_sigterm s) (lf_health s) listener
    (lf_httpServer s) (lf_debugClosed s) (lf_httpClosed s) (lf_grpcStopped s) (lf_listenerMu s) (lf_rpcs s)
    (lf_failed s) (lf_over s).

Definition set_grpc (p : grpc_phase) (rpcs : nat) (s : life) : life :=
  mkLife (lf_main s) (lf_debug s) p (lf_shutdown s) (lf_sigterm s) (lf_health s) (lf_debugListener s)
    (lf_httpServer s) (lf_debugClosed s) (lf_httpClosed s) (lf_grpcStopped s) (lf_listenerMu s) rpcs
    (lf_failed s) (lf_over s).

Definition set_shutdown (p : shutdown_phase) (grpcStopped locked : bool) (s : life) : life :=
  mkLife (lf_main s) (lf_debug s) (lf_grpc s) p (lf_sigterm s) (lf_health s) (lf_debugListener s)
    (lf_httpServer s) (lf_debugClosed s) (lf_httpClosed s) grpcStopped locked (lf_rpcs s)
    (lf_failed s) (lf_over s).

Definition set_sigterm (p : sigterm_phase) (health : HealthChecker) (s : life) : life :=
  mkLife (lf_main s) (lf_debug s) (lf_grpc s) (lf_shutdown s) p health (lf_debugListener s)
    (lf_httpServer s) (lf_debugClosed s) (lf_httpClosed s) (lf_grpcStopped s) (lf_listenerMu s) (lf_rpcs s)
    (lf_failed s) (lf_over s).

Definition set_httpServer (s : life) : life :=
  mkLife (lf_main s) (lf_debug s) (lf_grpc s) (lf_shutdown s) (lf_sigterm s) (lf_health s) (lf_debugListener s)
    true (lf_debugClosed s) (lf_httpClosed s) (lf_grpcStopped s) (lf_listenerMu s) (lf_rpcs s)
    (lf_failed s) (lf_over s).

Definition close_debug (s : life) : life :=
  mkLife (lf_main s) (lf_debug s) (lf_grpc s) (lf_shutdown s) (lf_sigterm s) (lf_health s) (lf_debugListener s)
    (lf_httpServer s) true (lf_httpClosed s) (lf_grpcStopped s) (lf_listenerMu s) (lf_rpcs s)
    (lf_failed s) (lf_over s).

Definition close_http (s : life) : life :=
  mkLife (lf_main s) (lf_debug s) (lf_grpc s) (lf_shutdown s) (lf_sigterm s) (lf_health s) (lf_debugListener s)
    (lf_httpServer s) (lf_debugClosed s) true (lf_grpcStopped s) (lf_listenerMu s) (lf_rpcs s)
    (lf_failed s) (lf_over s).

Definition end_process (failed : bool) (o : outcome) (s : life) : life :=
  mkLife (lf_main s) (lf_debug s) (lf_grpc s) (lf_shutdown s) (lf_sigterm s) (lf_health s) (lf_debugListener s)
    (lf_httpServer s) (lf_debugClosed s) (lf_httpClosed s) (lf_grpcStopped s) (lf_listenerMu s) (lf_rpcs s)
    failed (Some o).

(** An action of [Stop] or [os.Exit].  The mutex is released after the last one
    of [Stop]. *)
Definition perform (a : stop_action) (rest : list stop_action) (s : life) : life :=
  match a with
  | GracefulStop => set_shutdown (Acting rest) true (lf_listenerMu s) s
  | CloseDebugListener => close_debug (set_shutdown (Acting rest) (lf_grpcStopped s) (lf_listenerMu s) s)
  | CloseHttpServer => close_http (set_shutdown (Acting rest) (lf_grpcStopped s) (lf_listenerMu s) s)
  | StopProvider => set_shutdown (Acting rest) (lf_grpcStopped s) false s
  | ExitProcess code => end_process (lf_failed s) (ExitCode code) s
  end.

(** ** The steps *)

Section life.
(** Whether the provider's [Stop] returns: that of the file provider does; that of
    the xDS provider sends on a channel and may block. *)
Context (provider_stops : bool).
Implicit Types s : life.

(** [Start], the main goroutine.  [Serve] of a server that was closed returns
    [ErrServerClosed]; another error is fatal. *)
Inductive main_step : life → life → Prop :=
  | ms_start s : lf_main s = Setup →
      main_step s (set_main SpawnGrpc (set_debug DebugListen (lf_debugListener s) s))
  | ms_grpc s : lf_main s = SpawnGrpc → main_step s (set_main HandleShutdown (set_grpc GrpcListen (lf_rpcs s) s))
  | ms_handle s : lf_main s = HandleShutdown →
      main_step s (set_main ListenHttp (set_shutdown Waiting (lf_grpcStopped s) (lf_listenerMu s) s))
  | ms_listen s : lf_main s = ListenHttp → main_step s (set_main InstallHttp s)
  | ms_listen_fails s : lf_main s = ListenHttp → main_step s (end_process true (ExitCode 1) s)
  | ms_install s : lf_main s = InstallHttp → lf_listenerMu s = false →
      main_step s (set_main ServeHttp (set_httpServer s))
  | ms_closed s : lf_main s = ServeHttp → lf_httpClosed s = true → main_step s (set_main Returned s)
  | ms_serve_fails s : lf_main s = ServeHttp → lf_httpClosed s = false → main_step s (end_process true (ExitCode 1) s)
  | ms_return s : lf_main s = Returned → main_step s (end_process (lf_failed s) (ExitCode 0) s).

Inductive debug_step : life → life → Prop :=
  | ds_listen s : lf_debug s = DebugListen → lf_listenerMu s = false → debug_step s (set_debug DebugServe true s)
  | ds_listen_fails s : lf_debug s = DebugListen → lf_listenerMu s = false → debug_step s (set_debug DebugEnded false s)
  | ds_end s : lf_debug s = DebugServe → debug_step s (set_debug DebugEnded (lf_debugListener s) s).

(** [startGrpc]; [Serve] after [GracefulStop] returns at once, and requests are
    accepted only before. *)
Inductive grpc_step : life → life → Prop :=
  | gs_listen s : lf_grpc s = GrpcListen → grpc_step s (set_grpc GrpcServe (lf_rpcs s) s)
  | gs_listen_fails s : lf_grpc s = GrpcListen → grpc_step s (end_process true (ExitCode 1) s)
  | gs_end s : lf_grpc s = GrpcServe → grpc_step s (set_grpc GrpcEnded (lf_rpcs s) s)
  | gs_request s : lf_grpc s = GrpcServe → lf_grpcStopped s = false → grpc_step s (set_grpc GrpcServe (S (lf_rpcs s)) s)
  | gs_reply s n : lf_rpcs s = S n → grpc_step s (set_grpc (lf_grpc s) n s).

(** The goroutine of [handleGracefulShutdown]: [GracefulStop] waits for the
    requests; the rest of [Stop] looks at the listeners under the mutex. *)
Inductive shutdown_step : life → life → Prop :=
  | sh_stop s : lf_shutdown s = Signalled → shutdown_step s (set_shutdown Draining true (lf_listenerMu s) s)
  | sh_drained s : lf_shutdown s = Draining → lf_rpcs s = 0%nat →
      shutdown_step s (set_shutdown WantLock (lf_grpcStopped s) (lf_listenerMu s) s)
  | sh_lock s : lf_shutdown s = WantLock → lf_listenerMu s = false →
      shutdown_step s
        (set_shutdown (Acting (tail (handleGracefulShutdown (lf_debugListener s) (lf_httpServer s))))
           (lf_grpcStopped s) true s)
  | sh_act s a rest : lf_shutdown s = Acting (a :: rest) → (a = StopProvider → provider_stops = true) →
      shutdown_step s (perform a rest s).

(** A signal goes to the goroutines that still wait for it; without any receiver
    registered for it the process is killed. *)
Inductive signal_step : life → life → Prop :=
  | sg_kill s sig : lf_shutdown s = NotInstalled → sig ≠ SIGTERM → signal_step s (end_process (lf_failed s) (KilledBy sig) s)
  | sg_term s : lf_sigterm s = TermWaiting →
      signal_step s (set_sigterm TermSignalled (lf_health s)
        (match lf_shutdown s with
         | Waiting => set_shutdown Signalled (lf_grpcStopped s) (lf_listenerMu s) s
         | _ => s
         end))
  | sg_other s : lf_shutdown s = Waiting → signal_step s (set_shutdown Signalled (lf_grpcStopped s) (lf_listenerMu s) s).

Inductive sigterm_step : life → life → Prop :=
  | st_fail s : lf_sigterm s = TermSignalled →
      sigterm_step s (set_sigterm TermDone (Fail (lf_health s) SigtermComponentName).1 s).

Inductive own_step : life → life → Prop :=
  | os_main s s' : main_step s s' → own_step s s'
  | os_debug s s' : debug_step s s' → own_step s s'
  | os_grpc s s' : grpc_step s s' → own_step s s'
  | os_shutdown s s' : shutdown_step s s' → own_step s s'
  | os_sigterm s s' : sigterm_step s s' → own_step s s'.

Inductive life_step : life → life → Prop :=
  | lf_own s s' : lf_over s = None → own_step s s' → life_step s s'
  | lf_signal s s' : lf_over s = None → signal_step s s' → life_step s s'.

(** ** The invariant *)

Definition installed (p : main_phase) : bool := match p with ServeHttp | Returned => true | _ => false end.

Definition handling (p : main_phase) : bool :=
  match p with Setup | SpawnGrpc | HandleShutdown => false | _ => true end.

(** What is left of [Stop] while the mutex is held, and afterwards. *)
Definition stop_left (todo : list stop_action) s : Prop :=
  lf_listenerMu s = true ∧ (∃ d : bool, todo = (if d then [CloseDebugListener] else []) ++
    (if lf_httpServer s && negb (lf_httpClosed s) then [CloseHttpServer] else []) ++ [StopProvider; ExitProcess 0]) ∨
  lf_listenerMu s = false ∧ todo = [ExitProcess 0].

Definition shutdown_good s : Prop :=
  match lf_shutdown s with
  | NotInstalled | Waiting | Signalled => lf_grpcStopped s = false ∧ lf_listenerMu s = false ∧ lf_httpClosed s = false
  | Draining => lf_grpcStopped s = true ∧ lf_listenerMu s = false ∧ lf_httpClosed s = false
  | WantLock => lf_grpcStopped s = true ∧ lf_listenerMu s = false ∧ lf_httpClosed s = false ∧ lf_rpcs s = 0%nat
  | Acting todo => lf_grpcStopped s = true ∧ lf_rpcs s = 0%nat ∧ stop_left todo s
  end.

Definition over_good s : Prop :=
  match lf_over s with
  | None => True
  | Some (ExitCode code) =>
      code = 0 ∧ lf_grpcStopped s = true ∧ lf_rpcs s = 0%nat ∨ code = 1 ∧ lf_failed s = true
  | Some (KilledBy sig) => sig ≠ SIGTERM ∧ lf_shutdown s = NotInstalled
  end.

Record life_good s : Prop := mkLifeGood {
  lg_installed : lf_httpServer s = installed (lf_main s);
  lg_handling : lf_shutdown s = NotInstalled ↔ handling (lf_main s) = false;
  lg_shutdown : shutdown_good s;
  lg_returned : lf_main s = Returned → lf_httpClosed s = true;
  lg_over : over_good s;
}.

Lemma closed_drained s : life_good s → lf_httpClosed s = true → lf_grpcStopped s = true ∧ lf_rpcs s = 0%nat.
Proof.
  intros Hg Hc. pose proof (lg_shutdown s Hg) as Hs. unfold shutdown_good in Hs.
  destruct (lf_shutdown s); naive_solver congruence.
Qed.

#[local] Ltac life_cases s := destruct s as [p d g sh t h dl hs dc hc gs mu rpcs fl ov]; cbn in *; subst.

Lemma main_step_good s s' : main_step s s' → lf_over s = None → life_good s → life_good s'.
Proof.
  intros Hs Ho Hg. pose proof (closed_drained s Hg) as Hd. destruct Hg as [Hi Hh Hsh Hr Hov].
  destruct Hs; life_cases s; split; cbn in *; try done; try tauto.
  all: try (destruct sh; unfold shutdown_good, stop_left in *; cbn in *; naive_solver).
Qed.

Lemma debug_step_good s s' : debug_step s s' → lf_over s = None → life_good s → life_good s'.
Proof.
  intros Hs Ho [Hi Hh Hsh Hr Hov].
  destruct Hs; life_cases s; (split; cbn in *; [done|done| |done|done]);
    destruct sh; unfold shutdown_good, stop_left in *; cbn in *; naive_solver.
Qed.

Lemma grpc_step_good s s' : grpc_step s s' → lf_over s = None → life_good s → life_good s'.
Proof.
  intros Hs Ho [Hi Hh Hsh Hr Hov].
  destruct Hs; life_cases s; (split; cbn in *; [done|done| |done|by first [done|right]]);
    destruct sh; unfold shutdown_good, stop_left in *; cbn in *; naive_solver.
Qed.

Lemma perform_good s a rest :
  lf_shutdown s = Acting (a :: rest) → lf_over s = None → life_good s → life_good (perform a rest s).
Proof.
  intros Hs Ho [Hi Hh Hsh Hr Hov]. life_cases s.
  unfold shutdown_good, stop_left in Hsh. cbn in Hsh. destruct Hsh as (->&->&Hleft).
  assert (handling p = true) as Hp by (destruct (handling p); [done|]; discriminate (proj2 Hh eq_refl)).
  rewrite Hp in *. destruct Hleft as [(->&d'&Htodo)|(->&[= -> ->])].
  2:{ split; cbn; [done|by rewrite Hp| |done|by left]. split; [done|]. split; [done|]. by right. }
  destruct d'; [|destruct (installed p) eqn:Hin, hc]; cbn in Htodo; injection Htodo as -> ->;
    (split; cbn; [done|by rewrite Hp| |done|done]); (split; [done|]); (split; [done|]);
    unfold stop_left; cbn; rewrite ?Hin; try (by right); try (left; split; [done|]; by exists false).
Qed.

Lemma shutdown_step_good s s' : shutdown_step s s' → lf_over s = None → life_good s → life_good s'.
Proof.
  intros Hs Ho Hg. destruct Hs as [s Hs|s Hs Hz|s Hs Hl|s a rest Hs _]; [| | |by apply perform_good];
    destruct Hg as [Hi Hh Hsh Hr Hov]; life_cases s; unfold shutdown_good in Hsh; cbn in Hsh.
  - split; cbn; [done|naive_solver|unfold shutdown_good; cbn; naive_solver|done|done].
  - split; cbn; [done|naive_solver|unfold shutdown_good; cbn; naive_solver|done|done].
  - split; cbn; [done|naive_solver| |done|done]. destruct Hsh as (->&_&->&->). split; [done|]. split; [done|].
    left. split; [done|]. exists dl. by destruct dl, (installed p).
Qed.

Lemma signal_step_good s s' : signal_step s s' → lf_over s = None → life_good s → life_good s'.
Proof.
  intros Hs Ho [Hi Hh Hsh Hr Hov]. destruct Hs; life_cases s; [by split| |].
  - destruct sh; split; cbn in *; first [done|naive_solver].
  - split; cbn in *; first [done|naive_solver].
Qed.

Lemma sigterm_step_good s s' : sigterm_step s s' → lf_over s = None → life_good s → life_good s'.
Proof. intros Hs Ho [Hi Hh Hsh Hr Hov]. destruct Hs; life_cases s; by split. Qed.

#[local] Hint Resolve main_step_good debug_step_good grpc_step_good shutdown_step_good signal_step_good
  sigterm_step_good : core.

Lemma life_step_good s s' : life_good s → life_step s s' → life_good s'.
Proof. intros Hg Hs. destruct Hs as [s s' Ho Hs|s s' Ho Hs]; [destruct Hs|]; eauto. Qed.

Lemma life_new_good health : life_good (life_new health).
Proof. by split. Qed.

Lemma reachable_good health s : rtc life_step (life_new health) s → life_good s.
Proof. apply rtc_invariant; [apply life_step_good|apply life_new_good]. Qed.

(** ** Shutdown ends *)

Definition main_rank (p : main_phase) : nat :=
  match p with
  | Setup => 6 | SpawnGrpc => 5 | HandleShutdown => 4 | ListenHttp => 3 | InstallHttp => 2 | ServeHttp => 1 | Returned => 0
  end.

Definition debug_rank (p : debug_phase) : nat :=
  match p with DebugNone => 3 | DebugListen => 2 | DebugServe => 1 | DebugEnded => 0 end.

Definition grpc_rank (p : grpc_phase) : nat :=
  match p with GrpcNone => 3 | GrpcListen => 2 | GrpcServe => 1 | GrpcEnded => 0 end.

Definition shutdown_rank (p : shutdown_phase) : nat :=
  match p with
  | NotInstalled => 10 | Waiting => 9 | Signalled => 8 | Draining => 7 | WantLock => 6 | Acting todo => length todo
  end.

Definition sigterm_rank (p : sigterm_phase) : nat :=
  match p with TermWaiting => 2 | TermSignalled => 1 | TermDone => 0 end.

(** The steps the process can still take once it accepts no more requests. *)
Definition work s : nat :=
  match lf_over s with
  | Some _ => 0
  | None => S (main_rank (lf_main s) + debug_rank (lf_debug s) + grpc_rank (lf_grpc s) +
               shutdown_rank (lf_shutdown s) + sigterm_rank (lf_sigterm s) + lf_rpcs s)
  end.

Lemma life_step_work s s' :
  life_good s → lf_grpcStopped s = true → life_step s s' →
  (work s' < work s)%nat ∧ lf_grpcStopped s' = true ∧ (lf_httpServer s = true → lf_httpServer s' = true).
Proof.
  intros Hg Hst Hs. assert (handling (lf_main s) = true) as Hh.
  { pose proof (lg_handling s Hg) as Hh. pose proof (lg_shutdown s Hg) as Hsh. unfold shutdown_good in Hsh.
    destruct (handling (lf_main s)); [done|]. rewrite (proj2 Hh eq_refl) in Hsh. naive_solver congruence. }
  destruct Hs as [s s' Ho Hs|s s' Ho Hs]; [destruct Hs as [s s' Hs|s s' Hs|s s' Hs|s s' Hs|s s' Hs]|];
    destruct Hs; life_cases s; try done; unfold work; cbn; try (split; [lia|done]).
  - destruct dl, hs; cbn; (split; [lia|done]).
  - destruct a; cbn; (split; [lia|done]).
  - destruct sh; cbn; (split; [lia|done]).
Qed.

(** While it stops, some thread can always go on: the requests being served, the
    shutdown handler, or, when the provider blocks it, the main goroutine. *)
Lemma stopping_progress s :
  life_good s → lf_grpcStopped s = true → lf_over s = None → provider_stops = true ∨ lf_httpServer s = true →
  ∃ s', life_step s s'.
Proof.
  intros Hg Hst Ho Hp. pose proof (lg_shutdown s Hg) as Hsh. unfold shutdown_good in Hsh.
  assert (∀ s', shutdown_step s s' → ∃ s', life_step s s') as Hgo by eauto using lf_own, os_shutdown.
  destruct (lf_shutdown s) as [| | | | |todo] eqn:Hph; [naive_solver congruence..| | |].
  - destruct (lf_rpcs s) as [|n] eqn:Hr; [by eapply Hgo, sh_drained|].
    eexists. by apply lf_own, os_grpc, (gs_reply s n).
  - eapply Hgo, sh_lock; [done|apply Hsh].
  - destruct Hsh as (_&_&[(_&d&->)|(_&->)]); [|by eapply Hgo, sh_act].
    destruct d; [by eapply Hgo, sh_act|].
    destruct (lf_httpServer s) eqn:Hh, (lf_httpClosed s) eqn:Hc; cbn in Hph; [|by eapply Hgo, sh_act|..];
      [|destruct Hp as [Hp|?]; [by eapply Hgo, sh_act|congruence]..].
    rewrite (lg_installed s Hg) in Hh.
    destruct (lf_main s) eqn:Hm; try discriminate Hh; eexists; (apply lf_own; [done|]); apply os_main;
      [by apply ms_closed|by apply ms_return].
Qed.

Lemma stopping_keeps s s' :
  life_good s → lf_grpcStopped s = true → rtc life_step s s' →
  life_good s' ∧ lf_grpcStopped s' = true ∧ (lf_httpServer s = true → lf_httpServer s' = true).
Proof.
  intros Hg Hst Hr. revert Hg Hst. induction Hr as [s|s s1 s' Hs _ IH]; [done|]. intros Hg Hst.
  destruct (life_step_work s s1 Hg Hst Hs) as (_&Hst1&Hh). destruct IH as (?&?&?); [by eapply life_step_good|done|].
  eauto.
Qed.

Lemma stopping_bound n s s' :
  life_good s → lf_grpcStopped s = true → nsteps life_step n s s' → (n ≤ work s)%nat.
Proof.
  intros Hg Hst Hr. revert Hg Hst. induction Hr as [s|n s s1 s' Hs _ IH]; [lia|]. intros Hg Hst.
  destruct (life_step_work s s1 Hg Hst Hs) as (Hw&Hst1&_).
  specialize (IH ltac:(by eapply life_step_good) Hst1). lia.
Qed.

(** C10: graceful shutdown completes.  In every reachable state: the process has
    ended with code 0 only when the gRPC server was stopped with no request left
    unanswered, and with code 1 only when a listener failed.  Once the shutdown
    has begun, every run is finite, at most [work] steps long, and ends with the
    process exiting in one of these two ways, provided the provider's [Stop]
    returns or the HTTP server had been installed. *)
Theorem shutdown_completes health s :
  rtc life_step (life_new health) s →
  over_good s ∧
  (lf_grpcStopped s = true → provider_stops = true ∨ lf_httpServer s = true →
   (∀ n s', nsteps life_step n s s' → (n ≤ work s)%nat) ∧
   (∀ s', rtc life_step s s' → nf life_step s' →
      lf_over s' = Some (ExitCode 0) ∧ lf_rpcs s' = 0%nat ∨ lf_over s' = Some (ExitCode 1) ∧ lf_failed s' = true)).
Proof.
  intros Hr%reachable_good. split; [apply Hr|]. intros Hst Hp. split; [intros n s' Hn; by eapply stopping_bound|].
  intros s' Hs' Hnf. destruct (stopping_keeps s s' Hr Hst Hs') as (Hg&Hst'&Hh).
  pose proof (lg_over s' Hg) as Ho. pose proof (lg_shutdown s' Hg) as Hsh. unfold over_good in Ho.
  destruct (lf_over s') as [[code|sig]|] eqn:Hov.
  - destruct Ho as [(->&_&?)|(->&?)]; auto.
  - destruct Ho as [_ Hn]. unfold shutdown_good in Hsh. rewrite Hn in Hsh. naive_solver congruence.
  - destruct Hnf. apply (stopping_progress s' Hg Hst' Hov). tauto.
Qed.

(** ** A signal before the handler is there *)

(** Without a signal the handler, once there, waits. *)
Lemma own_step_quiet s s' :
  own_step s s' → lf_shutdown s = NotInstalled ∨ lf_shutdown s = Waiting →
  lf_shutdown s' = NotInstalled ∨ lf_shutdown s' = Waiting.
Proof.
  intros Hs Hq. destruct Hs as [s s' Hs|s s' Hs|s s' Hs|s s' Hs|s s' Hs]; destruct Hs; cbn; tauto || naive_solver congruence.
Qed.

Definition quiet_step s s' : Prop := lf_over s = None ∧ own_step s s'.

Lemma quiet_steps s s' :
  rtc quiet_step s s' → life_good s → lf_shutdown s = NotInstalled ∨ lf_shutdown s = Waiting →
  life_good s' ∧ (lf_shutdown s' = NotInstalled ∨ lf_shutdown s' = Waiting).
Proof.
  intros Hr Hg Hq. revert s s' Hr Hg Hq. induction 1 as [|s s1 s' [Ho Hs] _ IH]; [done|]. intros Hg Hq.
  apply IH; [|by eapply own_step_quiet]. eapply life_step_good; [done|]. by apply lf_own.
Qed.

Lemma quiet_l s s1 s' : own_step s s1 → lf_over s = None → rtc quiet_step s1 s' → rtc quiet_step s s'.
Proof. intros. by eapply rtc_l. Qed.

(** The server as it serves after SIGTERM came during the setup. *)
Definition serving_unhealthy (health : HealthChecker) : life :=
  mkLife ServeHttp DebugServe GrpcServe Waiting TermDone (Fail health SigtermComponentName).1
    true true false false false false 0 false None.

Lemma serving_unhealthy_steps health :
  rtc quiet_step (set_sigterm TermSignalled health (life_new health)) (serving_unhealthy health).
Proof.
  eapply quiet_l; [by apply os_sigterm, st_fail|done|].
  eapply quiet_l; [by apply os_main, ms_start|done|].
  eapply quiet_l; [by apply os_debug, ds_listen|done|].
  eapply quiet_l; [by apply os_main, ms_grpc|done|].
  eapply quiet_l; [by apply os_grpc, gs_listen|done|].
  eapply quiet_l; [by apply os_main, ms_handle|done|].
  eapply quiet_l; [by apply os_main, ms_listen|done|].
  eapply quiet_l; [by apply os_main, ms_install|done|].
  apply rtc_refl.
Qed.

(** C36: a SIGTERM during the setup, for instance while the service waits for its
    initial configuration, is taken by the health checker alone: the process does
    not end and no shutdown is under way; it goes on to serve, reporting itself
    unhealthy, and whatever it does next, without another signal it neither stops
    its servers nor exits with code 0. *)
Theorem sigterm_in_setup_ignored name b :
  let start := life_new (NewHealthChecker name b) in
  ∃ s1, signal_step start s1 ∧ lf_over s1 = None ∧
    (∃ s2, rtc quiet_step s1 s2 ∧ lf_main s2 = ServeHttp ∧ lf_grpc s2 = GrpcServe ∧ ServeHTTP (lf_health s2) = 500) ∧
    ∀ s2, rtc quiet_step s1 s2 → lf_grpcStopped s2 = false ∧ lf_httpClosed s2 = false ∧
      lf_over s2 ≠ Some (ExitCode 0).
Proof.
  intros start. eexists. split; [by apply (sg_term start)|]. split; [done|]. split.
  - eexists. split; [apply serving_unhealthy_steps|]. do 2 (split; [done|]). cbn. by destruct b.
  - intros s2 Hr. apply quiet_steps in Hr as [Hg Hq]; [|by split|by left].
    pose proof (lg_shutdown s2 Hg) as Hsh. pose proof (lg_over s2 Hg) as Ho. unfold shutdown_good, over_good in *.
    assert (lf_grpcStopped s2 = false ∧ lf_httpClosed s2 = false) as [Hst Hc] 
      by (destruct Hq as [Hq|Hq]; rewrite Hq in Hsh; tauto).
    split; [done|]. split; [done|]. intros Hov. rewrite Hov in Ho. naive_solver congruence.
Qed.
End life.

(** ** A run: SIGTERM while one request is being served *)

Definition draining_state : life :=
  mkLife ServeHttp DebugServe GrpcServe Draining TermSignalled (NewHealthChecker "ratelimit" false)
    true true false false true false 1 false None.

Lemma own_l p s s1 s' : own_step p s s1 → lf_over s = None → rtc (life_step p) s1 s' → rtc (life_step p) s s'.
Proof. intros. eapply rtc_l; [by apply lf_own|done]. Qed.

Lemma draining_reached : rtc (life_step true) (life_new (NewHealthChecker "ratelimit" false)) draining_state.
Proof.
  eapply own_l; [by apply os_main, ms_start|done|].
  eapply own_l; [by apply os_debug, ds_listen|done|].
  eapply own_l; [by apply os_main, ms_grpc|done|].
  eapply own_l; [by apply os_grpc, gs_listen|done|].
  eapply own_l; [by apply os_main, ms_handle|done|].
  eapply own_l; [by apply os_main, ms_listen|done|].
  eapply own_l; [by apply os_main, ms_install|done|].
  eapply own_l; [by apply os_grpc, gs_request|done|].
  eapply rtc_l; [by apply lf_signal, sg_term|].
  eapply own_l; [by apply os_shutdown, sh_stop|done|].
  apply rtc_refl.
Qed.

Lemma shutdown_completes_witness :
  (∀ n s', nsteps (life_step true) n draining_state s' → (n ≤ 13)%nat) ∧
  (∀ s', rtc (life_step true) draining_state s' → nf (life_step true) s' →
     lf_over s' = Some (ExitCode 0) ∧ lf_rpcs s' = 0%nat ∨ lf_over s' = Some (ExitCode 1) ∧ lf_failed s' = true).
Proof.
  destruct (shutdown_completes true (NewHealthChecker "ratelimit" false) draining_state draining_reached) as [_ Hrun].
  destruct (Hrun eq_refl (or_introl eq_refl)) as [Hn Hend]. split; [|exact Hend].
  intros n s' Hs. apply Hn in Hs. by vm_compute in Hs |- *.
Defined.
