(* ===== verification/Runner.v ===== *)
(** * The service process ([src/service_cmd/runner/runner.go], [src/service_cmd/main.go])

    [NewRunner] chooses the statistics sink; [Run] sets up tracing and logging,
    builds the server, the limiter and the service, and starts serving; [Stop].
    Everything that is built here is the subject of another file: this one is
    where they meet.  [ready] of the service is reached from the environment and
    the files alone. *)

From Stdlib Require Import SpecFloat.
From S2P Require Import Prelude GoStrings World Utils Stats Config ConfigLoad ConfigLookup ConfigDump Limiter LimiterSpec.
From S2P Require Import Redis RedisSpec RedisCache Memcached MemcachedSpec MemcachedServers Driver Tls Trace.
From S2P Require Import Settings SettingsSpec CertProvider Health Service ServiceSpec ServiceTheorems.
From S2P Require Import Provider ProviderSpec ProviderNew Dogstats Reporting Server ServerStart.

#[local] Open Scope Z_scope.

(** ** The statistics sink *)

Section sink.
Context {Regexp : Type} (Compile : string → Regexp + string)
  (envconfig_Process : string → mogrifier_config + string) (statsd_New : string → option string).

Inductive stats_sink : Type :=
  | NullSink
  | DogStatsdSink (sink : godogStatsSink (Regexp := Regexp))
  | TCPStatsdSink (host : string) (port : Z)
  | LoggingSink.

Record Runner : Type := mkRunner {
  rn_sink : stats_sink;                          (** of the statistics store *)
  rn_statsManager : ManagerImpl;
  rn_settings : Settings;
  rn_srv : option server;
  rn_ratelimitCloser : option (list clientImpl);
}.

Definition new_sink {W} (s : Settings) : M W stats_sink :=
  if se_DisableStats s then mret NullSink
  else if se_UseDogStatsd s then
    _ ← (if se_UseStatsd s then exit 1 else mret ());          (* logger.Fatalf *)
    r ← NewSink statsd_New
          [WithStatsdHost (se_StatsdHost s); WithStatsdPort (se_StatsdPort s);
           WithMogrifierFromEnv Compile envconfig_Process (se_UseDogStatsdMogrifiers s)];
    match r with
    | inr err => exit 1
    | inl sink => mret (DogStatsdSink sink)
    end
  else if se_UseStatsd s then mret (TCPStatsdSink (se_StatsdHost s) (se_StatsdPort s))
  else mret LoggingSink.

Definition NewRunner {W} (s : Settings) : M W Runner :=
  store ← new_sink s;
  mret {| rn_sink := store;
          rn_statsManager := NewStatManager (map_to_list (se_ExtraTags (se_env s)));
          rn_settings := s;
          rn_srv := None;
          rn_ratelimitCloser := None |}.

Definition GetStatsStore (runner : Runner) : stats_sink := rn_sink runner.
End sink.
Arguments stats_sink : clear implicits.
Arguments Runner : clear implicits.

(** ** The backend *)

(** Either limiter. *)
Inductive backend : Set :=
  | RedisBackend (cache : fixedRateLimitCacheImpl)
  | MemcacheBackend (cache : rateLimitMemcacheImpl) (client : memcache_client).

Section backend.
Context {E : Type} `{RadixNew E, MemcacheServers E}.

(** The limiter, and the clients to close at the end; a memcached client cannot be
    closed. *)
Definition createLimiter (srv : server) (s : Settings) (localCache : bool)
  : M (World E) (backend * list clientImpl) :=
  if bool_decide (se_BackendType s = "redis") || bool_decide (se_BackendType s = "") then
    '(cache, closer) ← NewRateLimiterCacheImplFromSettings s localCache (se_ExpirationJitterMaxSeconds s);
    mret (RedisBackend cache, closer)
  else if decide (se_BackendType s = "memcache") then
    '(cache, client) ← NewRateLimitCacheImplFromSettings s localCache (sr_scope srv);
    mret (MemcacheBackend cache client, [])
  else exit 1.                          (* logger.Fatalf *)
End backend.

(** The service is served by whichever was made ... *)
#[export] Instance backend_RateLimitCache
    `{TimeSource E, FreeCache E, JitterRand E, Redis.Radix E, Memcache E} : RateLimitCache E backend := {|
  cache_DoLimit b := match b with
                     | RedisBackend c => cache_DoLimit c
                     | MemcacheBackend c _ => cache_DoLimit c
                     end;
  cache_Flush b := match b with
                   | RedisBackend c => cache_Flush c
                   | MemcacheBackend c _ => cache_Flush c
                   end |}.

(** ... and each keeps the promise the service relies on. *)
Definition backend_ok (b : backend) : Prop :=
  match b with RedisBackend c => jitter_ok c | MemcacheBackend _ _ => True end.

#[export] Instance backend_CacheLaws
    `{TimeSource E, FreeCache E, JitterRand E, Redis.Radix E, Memcache E}
    {Hredis : CacheLaws E fixedRateLimitCacheImpl jitter_ok}
    {Hmem : CacheLaws E rateLimitMemcacheImpl (λ _, True)} : CacheLaws E backend backend_ok.
Proof. intros [c|c client] req limits w Hok Hlen Hgood; [by apply Hredis|by apply Hmem]. Qed.

(** ** Run *)

(** The logger after [Run] has configured it. *)
Record logging : Set := mkLogging { lg_level : string; lg_json : bool }.

Definition set_health (h : HealthChecker) (srv : server) : server :=
  mkServer (sr_scope srv) (sr_statGenerators srv) (sr_keepalive srv) (sr_interceptors srv) (sr_creds srv)
    (sr_grpcCertProvider srv) (sr_addresses srv) (sr_provider srv) (sr_routes srv) h
    (sr_endpoints srv) (sr_debugListener srv) (sr_httpServer srv).

Section run.
Context {E Regexp : Type} `{FileSystem E, X509, RuntimeLoader E, EnvSettings E, Otel E, RadixNew E, MemcacheServers E}.
Context `{Network E}.
Context (ParseLevel : string → string + string).
Context (Unit_value : string → option Z) (print : yaml_value → string)
  (unmarshal_any : string → list (yaml_key * yaml_value) + string)
  (unmarshal_root : string → YamlRoot + string).
(** The files the runtime loader finds, and the first event of an xDS stream. *)
Context (Snapshot : FileProvider → E → list (string * string) * E)
  (xds_event : XdsGrpcSotwProvider → M (World E) ConfigUpdateEventImpl).
#[local] Abbreviation W := (World E).

(** What the provider's goroutine sends first. *)
Definition first_event (statsManager : ManagerImpl) (p : provider) : M W ConfigUpdateEventImpl :=
  match p with
  | FileProviderImpl fp =>
      snapshot ← ext (Snapshot fp);
      sendEvent Unit_value print unmarshal_any unmarshal_root statsManager
        (fp_runtimeWatchRoot fp) (se_RuntimeAppDirectory (fp_settings fp)) snapshot
  | XdsProviderImpl xp => xds_event xp
  end.

(** Lines 123-137. *)
Definition set_logging (s : Settings) : M W logging :=
  match ParseLevel (se_LogLevel s) with
  | inr err => exit 1                   (* logger.Fatalf *)
  | inl logLevel => mret (mkLogging logLevel (bool_decide (ToLower (se_LogFormat s) = "json")))
  end.

(** What the started process consists of. *)
Record process : Type := mkProcess {
  pr_runner : Runner Regexp;
  pr_srv : server;
  pr_service : service backend;
  pr_logging : logging;
}.

(** Lines 168-172, of the endpoint [/rlconfig]: the lines that may be written. *)
Definition rlconfig (unit_String : Z → string) (this : service backend) (w : W) (lines : list string) : Prop :=
  match (GetCurrentConfig this).1 with
  | Some current => Dump unit_String (w_heap w) current lines
  | None => lines = []
  end.

(** Lines 123-179: everything up to [srv.Start()].  Without the initial
    configuration no event is awaited.  The server and the service hold the same
    [*HealthChecker]: [NewService] is given the server's, and what it left there
    is put back into the server's record. *)
Definition Run_setup (runner : Runner Regexp) : M W process :=
  let s := rn_settings runner in
  log ← set_logging s;
  let localCache := negb (bool_decide (se_LocalCacheSizeInBytes s = 0)) in
  srv ← lift (newServer s "ratelimit" localCache [GrpcUnaryInterceptor ServerReporterInterceptor]);
  '(limiter, limiterCloser) ← createLimiter srv s localCache;
  first ← (if se_ForceStartWithoutInitialConfig s then mret (mkEvent None None)
           else first_event (rn_statsManager runner) (sr_provider srv));
  service ← NewService limiter (rn_statsManager runner) (sr_health srv) (se_GlobalShadowMode s)
              (se_ForceStartWithoutInitialConfig s) (se_HealthyWithAtLeastOneConfigLoaded s) first;
  let srv := set_health (sv_health service) srv in
  let srv := server_AddDebugHttpEndpoint "/rlconfig"
               "print out the currently loaded configuration for debugging" srv in
  let srv := AddJsonHandler srv in
  mret (mkProcess (mkRunner (rn_sink runner) (rn_statsManager runner) s (Some srv) (Some limiterCloser))
          srv service log).

(** Lines 112-121. *)
Definition Run_tracing (s : Settings) : M W (option TracerProvider) :=
  if se_TracingEnabled s then
    tp ← lift (InitProductionTraceProvider (se_TracingExporterProtocol s) (se_TracingServiceName s)
                 (se_TracingServiceNamespace s) (se_TracingServiceInstanceId s) (se_TracingSamplingRate s));
    mret (Some tp)
  else mret None.

Definition Run (runner : Runner Regexp) : M W process :=
  tp ← Run_tracing (rn_settings runner);
  deferring
    (p ← Run_setup runner;
     _ ← lift (Start_http (pr_srv p));
     mret p)
    (match tp with
     | Some tp => _ ← ext (tp_Shutdown tp); mret ()
     | None => mret ()
     end).
End run.

(** ** Stop *)

(** The clients are closed after the server has stopped; their errors are dropped.
    [stop] performs the actions of the server's [Stop]. *)
Definition runner_Stop {E Regexp} `{RadixClose E} (stop : stop_action → E → unit * E) (runner : Runner Regexp)
  : M (World E) unit :=
  _ ← (match rn_srv runner with
       | Some srv => range (Stop (sr_debugListener srv) (sr_httpServer srv)) () (λ _ a _, ext (stop a))
       | None => mret ()
       end);
  match rn_ratelimitCloser runner with
  | Some closers => _ ← MultiCloser_Close (Close <$> closers); mret ()
  | None => mret ()
  end.

(** Whatever the clients answer, stopping ends. *)
Lemma runner_Stop_returns {E Regexp} `{RadixClose E} stop (runner : Runner Regexp) (w : World E) :
  ∃ w', runner_Stop stop runner w = (Ret (), w').
Proof.
  assert (∀ w, ∃ w', (match rn_srv runner with
    | Some srv => range (Stop (sr_debugListener srv) (sr_httpServer srv)) () (λ _ a _, ext (stop a))
    | None => mret () end) w = (Ret (), w')) as Hstop.
  { intros w0. destruct (rn_srv runner) as [srv|]; [|by eexists].
    destruct (range_inv (λ _ (_ : unit) (_ : World E), True) (Stop (sr_debugListener srv) (sr_httpServer srv))
      (λ _ a _, ext (stop a)) () w0) as ([]&w1&Hr&_); [done| |by exists w1; exact Hr].
    intros j a [] w2 _ _. unfold ext. destruct (stop a (w_ext w2)) as [[] e]. by eexists _, _. }
  destruct (Hstop w) as [w1 H1]. unfold runner_Stop. erewrite bind_Ret by exact H1.
  destruct (rn_ratelimitCloser runner) as [closers|]; [|by eexists].
  destruct (MultiCloser_Close_last (Close <$> closers) w1) as (e&w2&H2).
  { intros c w3 (cl&->&_)%list_elem_of_fmap. unfold Close, ext. destruct (radix_Close _ _). by eexists _, _. }
  erewrite bind_Ret by exact H2. by eexists.
Qed.

(** ** [main] *)

Section main.
Context {E Regexp : Type} `{FileSystem E, X509, Envconfig E, RuntimeLoader E, Otel E, RadixNew E, MemcacheServers E}.
Context `{Network E} (Compile : string → Regexp + string)
  (envconfig_Process : string → mogrifier_config + string) (statsd_New : string → option string).
Context (ParseLevel : string → string + string).
Context (Unit_value : string → option Z) (print : yaml_value → string)
  (unmarshal_any : string → list (yaml_key * yaml_value) + string)
  (unmarshal_root : string → YamlRoot + string)
  (Snapshot : FileProvider → E → list (string * string) * E)
  (xds_event : XdsGrpcSotwProvider → M (World E) ConfigUpdateEventImpl).

#[local] Instance main_settings : EnvSettings E := settings_from_environment.

Definition service_main : M (World E) unit :=
  s ← lift NewSettings_impl;
  runner ← NewRunner Compile envconfig_Process statsd_New s;
  _ ← Run ParseLevel Unit_value print unmarshal_any unmarshal_root Snapshot xds_event runner;
  mret ().
End main.

(** ** Which sink *)

Section sink_spec.
Context {Regexp W : Type} (Compile : string → Regexp + string)
  (envconfig_Process : string → mogrifier_config + string) (statsd_New : string → option string).

Definition statsd_address (s : Settings) : string := se_StatsdHost s +:+ ":" +:+ FormatInt (se_StatsdPort s).

(** The settings decide where statistics go.  Disabled statistics go nowhere;
    DogStatsD, then statsd, then the log are tried in this order.  With DogStatsD
    the process exits when statsd is not turned off explicitly (it is on by
    default) or when the client cannot be made, and panics when a mogrifier is
    misconfigured; the sink it makes talks to the statsd host and port with the
    configured mogrifiers.  Nothing else fails. *)
Theorem NewRunner_sink (s : Settings) (w : W) :
  let mogrifiers := newMogrifierMapFromEnv Compile envconfig_Process (se_UseDogStatsdMogrifiers s) in
  let dogstatsd := se_DisableStats s = false ∧ se_UseDogStatsd s = true in
  match NewRunner Compile envconfig_Process statsd_New s w with
  | (Ret r, w') =>
      w' = w ∧ rn_settings r = s ∧
      match GetStatsStore r with
      | NullSink => se_DisableStats s = true
      | DogStatsdSink sink =>
          dogstatsd ∧ se_UseStatsd s = false ∧ gs_client sink = Some (statsd_address s) ∧
          mogrifiers = inl (gs_mogrifier sink)
      | TCPStatsdSink host port =>
          se_DisableStats s = false ∧ se_UseDogStatsd s = false ∧ se_UseStatsd s = true ∧
          host = se_StatsdHost s ∧ port = se_StatsdPort s
      | LoggingSink => se_DisableStats s = false ∧ se_UseDogStatsd s = false ∧ se_UseStatsd s = false
      end
  | (Exit code, w') =>
      w' = w ∧ code = 1 ∧ dogstatsd ∧ (se_UseStatsd s = true ∨ is_Some (statsd_New (statsd_address s)))
  | (Panic p, w') => w' = w ∧ dogstatsd ∧ ∃ err, p = PError err ∧ mogrifiers = inr err
  end.
Proof.
  intros mogrifiers dogstatsd. unfold dogstatsd, NewRunner, new_sink, mbind, M_bind.
  destruct (se_DisableStats s); [done|]. destruct (se_UseDogStatsd s).
  2: { by destruct (se_UseStatsd s). }
  destruct (se_UseStatsd s); [simpl; auto 10|]. cbn [mret M_ret]. rewrite NewSink_spec.
  fold mogrifiers. destruct mogrifiers as [ms|err]; [|simpl; eauto 10].
  cbv zeta. fold (statsd_address s). destruct (statsd_New (statsd_address s)) as [err|] eqn:Hnew; simpl.
  - split_and!; [done..|]. right. by eexists.
  - by split_and!.
Qed.

(** Turning DogStatsD on and nothing off. *)
Lemma dogstatsd_alone_exits (w : W) :
  NewRunner Compile envconfig_Process statsd_New (settings_of [("USE_DOG_STATSD", "true")]) w = (Exit 1, w).
Proof.
  unfold NewRunner, new_sink. apply bind_Exit. apply bind_Exit.
  by replace (se_UseStatsd (settings_of [("USE_DOG_STATSD", "true")])) with true by (by vm_compute).
Qed.
End sink_spec.
