(* ===== verification/RunnerSpec.v ===== *)
(** * What a started process promises

    From the settings and the files alone to a service that decides by them:
    [Run_setup] composed of the server, the limiter, the provider and the service.
    The last section runs [main] on a simulated host. *)

From S2P Require Import Prelude GoStrings World Utils Stats Config ConfigLoad ConfigLookup Limiter LimiterSpec.
From S2P Require Import Redis RedisSpec RedisCache Memcached MemcachedSpec MemcachedServers Driver Tls Trace.
From S2P Require Import Settings SettingsSpec CertProvider Health Service ServiceSpec ServiceTheorems.
From S2P Require Import Provider ProviderSpec ProviderNew Dogstats Reporting Server ServerStart Runner.

#[local] Open Scope Z_scope.

(** ** The parts *)

Section parts.
Context {E : Type} `{FileSystem E, X509, RuntimeLoader E, RadixNew E, MemcacheServers E}.

Definition provider_for (s : Environment) (p : provider) : Prop :=
  match p with
  | FileProviderImpl fp => se_ConfigType s = "FILE" ∧ fp = mkFileProvider s (se_RuntimeWatchRoot s)
  | XdsProviderImpl xp => se_ConfigType s = "GRPC_XDS_SOTW" ∧ se_env (xp_settings xp) = s
  end.

Lemma getProviderImpl_for (s : Settings) (e e' : E) p :
  getProviderImpl s e = (Ret p, e') → provider_for s p.
Proof.
  unfold getProviderImpl. destruct (decide (se_ConfigType s = "FILE")) as [Hf|_].
  { intros Hrun. minv Hrun as (fp&e1&Hfp&Hrun). injection Hrun as <- _. unfold NewFileProvider in Hfp.
    minv Hfp as (u&e2&_&Hfp). by injection Hfp as <- _. }
  destruct (decide (se_ConfigType s = "GRPC_XDS_SOTW")) as [Hx|_]; [|by intros [=]].
  by intros [= <- _].
Qed.

Lemma newServer_for (s : Settings) name localCache ints (e e' : E) srv :
  newServer s name localCache (GrpcUnaryInterceptor <$> ints) e = (Ret srv, e') →
  provider_for s (sr_provider srv) ∧ sr_routes srv = ["/healthcheck"] ∧
  sr_endpoints srv = default_endpoints ∧
  sr_scope srv = ScopeWithTags name (map_to_list (se_ExtraTags s)) ∧
  sr_health srv = NewHealthChecker "ratelimit" (se_HealthyWithAtLeastOneConfigLoaded s).
Proof.
  intros Hrun. unfold newServer in Hrun. minv Hrun as (s'&e1&Hopt&Hrun).
  destruct (apply_interceptors ints s e) as (s''&Hopt'&[Henv _]&_).
  rewrite Hopt' in Hopt. injection Hopt as -> <-. minv Hrun as ([creds cp]&e2&_&Hrun).
  minv Hrun as (prov&e3&Hp%getProviderImpl_for&Hrun). injection Hrun as <- _. by rewrite <-Henv.
Qed.

(** The part both limiters share works with the settings' values. *)
Definition base_for (s : Settings) (b : BaseRateLimiter) : Prop :=
  b_ExpirationJitterMaxSeconds b = se_ExpirationJitterMaxSeconds s ∧
  b_cacheKeyPrefix b = se_CacheKeyPrefix s ∧ b_nearLimitRatio b = se_NearLimitRatio s ∧
  (b_localCache b = true ↔ se_LocalCacheSizeInBytes s ≠ 0).

(** The limiter is the configured one, with the values of the settings, made of
    checked clients; the memcached client counts under the server's scope. *)
Definition limiter_for (s : Settings) (closers : list clientImpl) (b : backend) : Prop :=
  match b with
  | RedisBackend c =>
      (se_BackendType s = "redis" ∨ se_BackendType s = "") ∧
      checked_limiter s (se_ExpirationJitterMaxSeconds s) (c, closers) ∧ base_for s (fx_baseRateLimiter c)
  | MemcacheBackend c client => se_BackendType s = "memcache" ∧ checked_memcache s client ∧ closers = [] ∧
      mi_expirationJitterMaxSeconds c = se_ExpirationJitterMaxSeconds s ∧
      base_for s (mi_baseRateLimiter c) ∧
      mi_client c = CollectStats (SubScope (ScopeWithTags "ratelimit" (map_to_list (se_ExtraTags s))) "memcache")
  end.

Lemma createLimiter_for srv (s : Settings) localCache (w w' : World E) b closers :
  localCache = negb (bool_decide (se_LocalCacheSizeInBytes s = 0)) →
  sr_scope srv = ScopeWithTags "ratelimit" (map_to_list (se_ExtraTags s)) →
  createLimiter srv s localCache w = (Ret (b, closers), w') → limiter_for s closers b.
Proof.
  intros -> Hscope.
  assert (base_for s (NewBaseRateLimit (se_ExpirationJitterMaxSeconds s)
    (negb (bool_decide (se_LocalCacheSizeInBytes s = 0))) (se_NearLimitRatio s) (se_CacheKeyPrefix s))) as Hbase.
  { split_and!; [done..|]. simpl. rewrite negb_true_iff. by rewrite bool_decide_eq_false. }
  unfold createLimiter. rewrite <-bool_decide_or.
  destruct (bool_decide_reflect (se_BackendType s = "redis" ∨ se_BackendType s = "")) as [Hr|_].
  { intros Hrun. minv Hrun as ([c cl]&w1&Hc&Hrun). injection Hrun as <- <- _.
    pose proof (NewRateLimiterCacheImplFromSettings_ok s (negb (bool_decide (se_LocalCacheSizeInBytes s = 0)))
      (se_ExpirationJitterMaxSeconds s) w) as Hok.
    unfold wp in Hok. rewrite Hc in Hok. split; [done|]. split; [exact Hok|].
    unfold NewRateLimiterCacheImplFromSettings in Hc. minv Hc as (ps&w2&_&Hc). minv Hc as (op&w3&_&Hc).
    by injection Hc as <- _ _. }
  destruct (decide (se_BackendType s = "memcache")) as [Hm|_]; [|by intros [=]].
  intros Hrun. minv Hrun as ([c client]&w1&Hc&Hrun). injection Hrun as <- <- _.
  unfold NewRateLimitCacheImplFromSettings in Hc. minv Hc as (client'&w2&Hcl&Hc). injection Hc as <- <- _.
  pose proof (newMemcacheFromSettings_ok s w) as Hok. unfold wp in Hok. rewrite Hcl in Hok.
  do 4 (split; [done|]). split; [exact Hbase|]. simpl. by rewrite Hscope.
Qed.

Lemma limiter_for_ok (s : Settings) closers b :
  limiter_for s closers b → se_ExpirationJitterMaxSeconds s <= 2 ^ 62 → backend_ok b.
Proof. destruct b as [c|]; [|done]. intros (_&(_&_&_&_&Hj)&_). exact Hj. Qed.
End parts.

(** Whether some domain is configured. *)
Definition has_domains (o : option rateLimitConfigImpl) : bool :=
  match o with Some cf => negb (IsEmptyDomains cf) | None => false end.

(** What [SetConfig] did if it returned, whatever the event. *)
Lemma SetConfig_returned {E C} `{EnvSettings E} (this this' : service C) ev healthy (w w' : World E) :
  SetConfig this ev healthy w = (Ret this', w') →
  sv_cache this' = sv_cache this ∧ w_heap w' = w_heap w ∧
  match ev_err ev with
  | Some _ => this' = this
  | None => sv_config this' = ev_config ev ∧
      sv_health this' =
        (if healthy then
           (if has_domains (ev_config ev) then Ok (sv_health this) ConfigHealthComponentName
            else Fail (sv_health this) ConfigHealthComponentName).1
         else sv_health this)
  end.
Proof.
  unfold SetConfig, GetConfig. destruct ev as [cf [err|]]; cbn [ev_config ev_err].
  - destruct err; intros Hrun; try done. by minv Hrun as (u&w1&[= _ <-]&[= <- <-]).
  - intros Hrun. minv Hrun as (h&w1&Hh&Hrun). minv Hrun as (u&w2&[= _ <-]&Hrun).
    minv Hrun as (s&w3&Hs&[= <- <-]). cbn [sv_cache sv_config sv_health].
    unfold config_health in Hh. destruct healthy.
    + minv Hh as (cf'&w4&Hcf&Hh). injection Hh as <- <-. destruct cf as [cf|]; [|done]. injection Hcf as <- <-.
      split; [done|]. split; [|unfold has_domains; by destruct (IsEmptyDomains cf)].
      unfold NewSettings, ext, mbind, M_bind in Hs. destruct (env_settings _) as [[?|?] ?]; [done|].
      by injection Hs as _ <-.
    + injection Hh as <- <-. split; [done|]. split; [|done].
      unfold NewSettings, ext, mbind, M_bind in Hs. destruct (env_settings _) as [[?|?] ?]; [done|].
      by injection Hs as _ <-.
Qed.

(** The health endpoint of a process that has just been set up. *)
Definition initial_status (healthy : bool) (o : option rateLimitConfigImpl) : Z :=
  if healthy && negb (has_domains o) then 500 else 200.

Lemma NewService_returned {E C} `{EnvSettings E} (b : C) m shadow force healthy ev (w w' : World E) this :
  NewService b m (NewHealthChecker "ratelimit" healthy) shadow force healthy ev w = (Ret this, w') →
  sv_cache this = b ∧ w_heap w' = w_heap w ∧
  sv_config this = (if force then None else match ev_err ev with Some _ => None | None => ev_config ev end) ∧
  ServeHTTP (sv_health this) = initial_status healthy (sv_config this).
Proof.
  assert (ServeHTTP (NewHealthChecker "ratelimit" healthy) = initial_status healthy None) as Hnone
    by (by destruct healthy).
  unfold NewService. destruct force; cbn [negb]; [by intros [= <- <-]|].
  intros (Hc&Hh&Hev)%SetConfig_returned. destruct (ev_err ev) as [err|]; [by subst this|].
  destruct Hev as [Hcf Hhe]. split_and!; [done..|]. rewrite Hhe, Hcf. cbn [sv_health] in *.
  unfold initial_status. destruct healthy; [|done]. by destruct (has_domains (ev_config ev)).
Qed.

(** ** From the files to the service *)

Section serves.
Context {E Regexp : Type} `{FileSystem E, X509, RuntimeLoader E, EnvSettings E, RadixNew E, MemcacheServers E}.
Context (ParseLevel : string → string + string) (Unit_value : string → option Z) (print : yaml_value → string)
  (unmarshal_any : string → list (yaml_key * yaml_value) + string)
  (unmarshal_root : string → YamlRoot + string)
  (Snapshot : FileProvider → E → list (string * string) * E)
  (xds_event : XdsGrpcSotwProvider → M (World E) ConfigUpdateEventImpl).
#[local] Abbreviation W := (World E).
Implicit Types w : W.

(** The service over the files found at the start, when the provider read its
    settings in the state [e]: their configuration is in force if it is valid
    under the merge setting read there, none is otherwise. *)
Definition serves (s : Settings) (m : ManagerImpl) (fs : list (string * string)) (e : E) (this : service backend) w
  : Prop :=
  match files_yaml unmarshal_any unmarshal_root (se_RuntimeWatchRoot s) (se_RuntimeAppDirectory s) fs with
  | Some cs => ∃ s1 e1, env_settings e = (inr s1, e1) ∧
      let merge := se_MergeDomainConfigurations s1 in
      if valid_config Unit_value merge cs then ready backend_ok Unit_value m merge cs this w
      else sv_config this = None
  | None => sv_config this = None
  end.

Lemma first_event_serves (s : Settings) m fp b shadow healthy w w1 w2 ev this :
  units_known Unit_value → backend_ok b → fp = mkFileProvider s (se_RuntimeWatchRoot s) →
  first_event Unit_value print unmarshal_any unmarshal_root Snapshot xds_event m (FileProviderImpl fp) w = (Ret ev, w1) →
  NewService b m (NewHealthChecker "ratelimit" healthy) shadow false healthy ev w1 = (Ret this, w2) →
  serves s m (Snapshot fp (w_ext w)).1 (Snapshot fp (w_ext w)).2 this w2.
Proof.
  intros Hu Hok -> Hev Hnew. unfold first_event, ext in Hev. minv Hev as (fs&w0&Hfs&Hev).
  destruct (Snapshot _ (w_ext w)) as [fs' e0]. injection Hfs as <- <-. cbn [fp_runtimeWatchRoot fp_settings fst snd] in *.
  pose proof (sendEvent_sends Unit_value print unmarshal_any unmarshal_root m (se_RuntimeWatchRoot s)
    (se_RuntimeAppDirectory s) fs' (mkWorld (w_heap w) (w_counters w) e0)) as Hok'.
  unfold wp in Hok'. rewrite Hev in Hok'. destruct Hok' as (_&_&Hok'). cbn [w_ext] in Hok'.
  pose proof Hnew as (Hc&Hh&Hcf&_)%NewService_returned. unfold serves.
  destruct (files_yaml _ _ _ _ fs') as [cs|]; [|destruct Hok' as [msg ->]; exact Hcf].
  destruct (env_settings e0) as [[msg|s1] e1] eqn:Hs; [by subst ev|]. exists s1, e1. split; [done|]. cbv zeta.
  destruct (valid_config Unit_value (se_MergeDomainConfigurations s1) cs) eqn:Hv;
    [|destruct Hok' as [msg ->]; exact Hcf].
  destruct Hok' as (cf&->&Hcfo). split_and!; [by rewrite Hc|done|done|]. exists cf. split; [exact Hcf|].
  unfold in_force. by rewrite Hh.
Qed.

End serves.

(** Such a process answers every well-formed request as the configuration says,
    or reports a redis error, whichever backend it runs on. *)
Lemma serves_decides
    `{TimeSource E, FreeCache E, JitterRand E, Radix E, Memcache E, EnvSettings E}
    {Hredis : CacheLaws E fixedRateLimitCacheImpl jitter_ok}
    {Hmem : CacheLaws E rateLimitMemcacheImpl (λ _, True)}
    Unit_value unmarshal_any unmarshal_root (s : Settings) m fs e s1 e1 cs (this : service backend) req (w : World E) :
  serves Unit_value unmarshal_any unmarshal_root s m fs e this w → env_settings e = (inr s1, e1) →
  files_yaml unmarshal_any unmarshal_root (se_RuntimeWatchRoot s) (se_RuntimeAppDirectory s) fs = Some cs →
  valid_config Unit_value (se_MergeDomainConfigurations s1) cs = true → well_formed req →
  wp redis_panic (shouldRateLimitWorker this req) w (λ resp w',
    heap_ext (w_heap w) (w_heap w') ∧ decides Unit_value m cs this req resp).
Proof.
  unfold serves. intros Hs He Hf Hv Hreq. rewrite Hf in Hs. destruct Hs as (s2&e2&He2&Hs).
  rewrite He in He2. injection He2 as <- _. cbv zeta in Hs. rewrite Hv in Hs.
  by apply (worker_ok backend_ok Unit_value m (se_MergeDomainConfigurations s1) cs this req w).
Qed.

(** ** On a simulated host *)

Section host.
#[local] Existing Instance toy_x509.

#[local] Instance host_radix : RadixNew Host := {|
  NewPool _ _ _ _ h := (inl 0%nat, h);
  NewCluster _ _ _ h := (inl 0%nat, h);
  NewSentinel _ _ _ _ h := (inl 0%nat, h);
  radix_Ping _ h := ((None, "PONG"), h) |}.

#[local] Instance host_servers : MemcacheServers Host := {|
  LookupSRV _ _ _ h := (inl [], h);
  SetServers _ h := (None, h);
  memcache_New _ h := ((), h) |}.

#[local] Instance host_const : EnvSettings Host := λ h, (inr (settings_of []), h).

Definition host_runner : Runner unit :=
  mkRunner NullSink (NewStatManager []) (settings_of []) None None.

Definition host_run : M (World Host) process :=
  Run_setup (λ l, inl l) documented_units (λ _, "") toy_any toy_root
    (λ _ h, ([("config.a", "good")], h)) (λ _, mret (mkEvent None None)) host_runner.

End host.
