(* ===== verification/Commands.v ===== *)
(** * The commands

    - [src/config_check_cmd/main.go]: the offline check of a configuration
      directory;
    - [src/client_cmd/main.go]: the [-descriptors] flag, and the client.

    The file system, flags and network are parameters. *)

From Stdlib Require Import Ascii.
From S2P Require Import Prelude GoStrings World Utils Stats Config ConfigLoad ConfigLookup.
From S2P Require Import Limiter LimiterSpec Tls Trace Settings SettingsSpec Health Service ServiceSpec Provider ProviderSpec.

#[local] Open Scope Z_scope.
#[local] Arguments String.append : simpl nomatch.

(** ** Checking a configuration directory *)

Section check.
Context {E : Type} `{EnvSettings E} (Unit_value : string → option Z) (print : yaml_value → string)
  (unmarshal_any : string → list (yaml_key * yaml_value) + string)
  (unmarshal_root : string → YamlRoot + string) (statsManager : ManagerImpl).
#[local] Abbreviation W := (World E).
Implicit Types w : W.

(** The recovered value must be an [error]; a string is not. *)
Definition loadConfigs (allConfigs : list RateLimitConfigToLoad) (mergeDomainConfigs : bool) : M W unit :=
  recover
    (_ ← NewSettings;
     _ ← NewRateLimitConfigImpl Unit_value allConfigs statsManager mergeDomainConfigs;
     mret ())
    (λ err,
      match err with
      | PString _ => throw (PRuntime "interface conversion: string is not error")
      | _ => exit 1
      end).

(** One round of the loop over the directory. *)
Definition check_file (finalPath : string) (bytes : string + string)
    (allConfigs : list RateLimitConfigToLoad) : M W (list RateLimitConfigToLoad) :=
  match bytes with
  | inr err => exit 1
  | inl content =>
      configYaml ← ConfigFileContentToYaml print unmarshal_any unmarshal_root finalPath content;
      mret (allConfigs ++ [mkToLoad finalPath configYaml])
  end.

(** [files] holds the path and the content, or the read error, of every entry
    of the directory. *)
Definition config_check_main (files : (list (string * (string + string))) + string)
    (mergeDomainConfigs : bool) : M W unit :=
  match files with
  | inr err => exit 1
  | inl files =>
      allConfigs ← range files [] (λ _ '(finalPath, bytes) allConfigs,
        check_file finalPath bytes allConfigs);
      loadConfigs allConfigs mergeDomainConfigs
  end.

Lemma bind_ext {A B} (m : M W A) (f g : A → M W B) w :
  (∀ a w', f a w' = g a w') → (m ≫= f) w = (m ≫= g) w.
Proof. intros Hfg. unfold mbind, M_bind. by destruct (m w) as [[a|p|c] w']. Qed.

(** Without a filter every file is a configuration. *)
Lemma range_files fs w :
  range ((λ '(p, c), (p, inl c)) <$> fs) []
    (λ _ '(finalPath, bytes) allConfigs, check_file finalPath bytes allConfigs) w =
  read_files print unmarshal_any unmarshal_root false "" fs w.
Proof.
  unfold read_files, range. match goal with |- range_from _ _ ?f _ _ = range_from _ _ ?g _ _ =>
    enough (∀ i acc w, range_from i ((λ '(p, c), (p, inl c)) <$> fs) f acc w = range_from i fs g acc w) as Hgen
  end; [apply Hgen|].
  induction fs as [|[p c] fs IH]; intros i acc w'; [done|]. rewrite fmap_cons. cbn [range_from].
  apply bind_ext. intros acc' w''. apply IH.
Qed.

(** C33: the offline check agrees with the service: it reports a set of readable
    files as correct exactly when the file provider, with the same merge
    setting, would send the service a configuration for them, namely when every
    file parses with valid keys and the set is valid. *)
Theorem config_check_agrees fs merge w s e' :
  env_settings (w_ext w) = (inr s, e') → se_MergeDomainConfigurations s = merge →
  let passes := ∃ w', config_check_main (inl ((λ '(p, c), (p, inl c)) <$> fs)) merge w = (Ret (), w') in
  let accepted := ∃ cf w', sendEvent Unit_value print unmarshal_any unmarshal_root statsManager false "" fs w =
    (Ret (mkEvent (Some cf) None), w') in
  (passes ↔ accepted) ∧
  (passes ↔ ∃ cs, files_yaml unmarshal_any unmarshal_root false "" fs = Some cs ∧
              valid_config Unit_value merge cs = true).
Proof.
  intros Hs Hmerge passes accepted.
  assert (passes ↔ ∃ cs, files_yaml unmarshal_any unmarshal_root false "" fs = Some cs ∧
    valid_config Unit_value merge cs = true) as Hpass.
  { unfold passes, config_check_main.
    pose proof (read_files_verdict print unmarshal_any unmarshal_root false "" fs w) as Hr.
    rewrite <-range_files in Hr. destruct (files_yaml _ _ false "" fs) as [cs|].
    2: { destruct Hr as [msg Hr]. erewrite bind_Panic by exact Hr.
         split; [by intros [? [=]]|by intros (?&[=]&_)]. }
    erewrite bind_Ret by exact Hr. unfold loadConfigs, recover. erewrite bind_Ret.
    2: { unfold NewSettings, ext. erewrite bind_Ret; [|by rewrite Hs]. reflexivity. }
    pose proof (Load_event Unit_value statsManager merge cs (mkWorld (w_heap w) (w_counters w) e')) as Hl.
    unfold Load in Hl. unfold mbind, M_bind.
    destruct (NewRateLimitConfigImpl Unit_value cs statsManager merge _) as [[cf|p|c] w1]; [| |done]; simpl.
    - split; [|by eexists]. intros _. exists cs. by destruct Hl.
    - destruct Hl as (Hv&[msg ->]&_). split; [by intros [? [=]]|]. intros (?&[= <-]&?). congruence. }
  split; [|done]. rewrite Hpass. unfold accepted.
  pose proof (sendEvent_ok Unit_value print unmarshal_any unmarshal_root statsManager false "" fs w s e' Hs) as He.
  unfold wp in He. rewrite Hmerge in He. destruct (sendEvent _ _ _ _ _ _ _ _ w) as [[ev|p|c] w1]; [|done..].
  destruct (files_yaml _ _ false "" fs) as [cs|].
  - destruct (valid_config Unit_value merge cs) eqn:Hv.
    + destruct He as (cf&->&_). split; [by eexists _, _|]. intros _. by exists cs.
    + destruct He as [msg ->]. split; [|by intros (?&?&[=])]. intros (?&[= <-]&?). congruence.
  - destruct He as [msg ->]. split; [by intros (?&[=]&_)|by intros (?&?&[=])].
Qed.
End check.

(** A valid file, checked and accepted. *)
Lemma config_check_agrees_witness :
  let EE : EnvSettings unit := λ e, (inr (settings_of []), e) in
  ∃ w', config_check_main (H := EE) documented_units (λ _, "") toy_any toy_root (NewStatManager [])
    (inl [("config.a", inl "good")]) false (mkWorld [] ∅ ()) = (Ret (), w').
Proof.
  intros EE.
  apply (proj2 (config_check_agrees (H := EE) documented_units (λ _, "") toy_any toy_root (NewStatManager [])
    [("config.a", "good")] false (mkWorld [] ∅ ()) (settings_of []) () eq_refl eq_refl)).
  exists [mkToLoad "config.a" (mkYamlRoot "d" [])]. by split; vm_compute.
Defined.

(** ** The descriptors flag of the client *)

Fixpoint parse_pairs (pairs : list string) : list Entry + string :=
  match pairs with
  | [] => inl []
  | kv :: pairs' =>
      match Split kv "=" with
      | [key; value] =>
          match parse_pairs pairs' with
          | inl entries => inl (mkEntry key value :: entries)
          | inr err => inr err
          end
      | _ => inr "invalid descriptor list"
      end
  end.

(** The flag may be repeated; each occurrence adds a descriptor. *)
Definition descriptorsValue_Set (this : list Descriptor) (arg : string) : list Descriptor * option string :=
  match parse_pairs (Split arg ",") with
  | inl entries => (this ++ [mkDescriptor entries None], None)
  | inr err => (this, Some err)
  end.

Definition descriptorsValue_String (this : list Descriptor) : string :=
  foldl (λ ret descriptor,
    ret +:+ "[" +:+
    foldl (λ tmp entry, tmp +:+ " <key=" +:+ e_Key entry +:+ ", value=" +:+ e_Value entry +:+ "> ")
      "" (d_Entries descriptor) +:+ "] ") "" this.

(** How an entry is written on the command line. *)
Definition show_entry (e : Entry) : string := e_Key e +:+ "=" +:+ e_Value e.

Definition plain_entry (e : Entry) : Prop :=
  Cut (e_Key e) "=" = None ∧ Cut (e_Value e) "=" = None ∧ Cut (show_entry e) "," = None.

Lemma parse_show entries :
  Forall plain_entry entries → parse_pairs (show_entry <$> entries) = inl entries.
Proof.
  induction 1 as [|[k v] entries (Hk&Hv&_) _ IH]; [done|]. cbn [fmap list_fmap parse_pairs].
  change (show_entry (mkEntry k v)) with (Join [k; v] "="). rewrite Split_Join_byte; [|done|by repeat constructor].
  change (list_fmap _ _ show_entry entries) with (show_entry <$> entries). by rewrite IH.
Qed.

(** The flag reads what it documents: a comma separated list of [key=value]
    entries, none containing a comma or another equals sign, adds exactly that
    descriptor after the ones given before. *)
Theorem descriptorsValue_roundtrip this entries :
  entries ≠ [] → Forall plain_entry entries →
  descriptorsValue_Set this (Join (show_entry <$> entries) ",") =
    (this ++ [mkDescriptor entries None], None).
Proof.
  intros Hne Hall. unfold descriptorsValue_Set. rewrite Split_Join_byte; [by rewrite parse_show| |].
  - by destruct entries.
  - apply Forall_fmap. eapply Forall_impl; [done|]. by intros e (_&_&?).
Qed.

Lemma descriptorsValue_roundtrip_witness :
  descriptorsValue_Set [] "message_type=marketing,to_number=2061111111" =
    ([mkDescriptor [mkEntry "message_type" "marketing"; mkEntry "to_number" "2061111111"] None], None).
Proof.
  apply (descriptorsValue_roundtrip []
    [mkEntry "message_type" "marketing"; mkEntry "to_number" "2061111111"]); [done|].
  by repeat constructor.
Defined.

(** ** The client *)

(** The parsed flags. *)
Record client_flags : Set := mkClientFlags {
  cl_dialString : string;
  cl_domain : string;
  cl_descriptors : list Descriptor;
  cl_oltpProtocol : string;
  cl_grpcServerTlsCACert : string;
  cl_grpcUseTLS : bool;
  cl_grpcTlsCertFile : string;
  cl_grpcTlsKeyFile : string;
}.

Definition default_flags : client_flags := mkClientFlags "localhost:8081" "" [] "" "" false "" "".

(** Dialling with TLS or without, the call, closing, standard output, and how the
    libraries write a response and quote a string. *)
Class GrpcClient (E : Type) : Type := {
  grpc_Dial : string → option tls_Config → E → option string * E;
  grpc_ShouldRateLimit : RateLimitRequest → E → (RateLimitResponse + string) * E;
  grpc_Close : E → unit * E;
  Printf : string → E → unit * E;
  response_String : RateLimitResponse → string;
  Quote : string → string;
}.

Section client.
Context {E : Type} `{FileSystem E, X509, Otel E, GrpcClient E}.

(** The flags in the order they are visited. *)
Definition flag_lines (f : client_flags) : list string :=
  (λ '(name, value), "Flag: --" +:+ name +:+ "=" +:+ Quote value) <$>
    [("descriptors", descriptorsValue_String (cl_descriptors f)); ("dial_string", cl_dialString f);
     ("domain", cl_domain f); ("grpc-cert-file", cl_grpcTlsCertFile f); ("grpc-key-file", cl_grpcTlsKeyFile f);
     ("grpc-server-ca-file", cl_grpcServerTlsCACert f); ("grpc-use-tls", FormatBool (cl_grpcUseTLS f));
     ("oltp-protocol", cl_oltpProtocol f)].

(** Lines 95-100. *)
Definition client_credentials (f : client_flags) : M E (option tls_Config) :=
  if cl_grpcUseTLS f then
    c ← TlsConfigFromFiles (cl_grpcTlsCertFile f) (cl_grpcTlsKeyFile f) (cl_grpcServerTlsCACert f) ServerCA false;
    mret (Some c)
  else mret None.

(** Lines 101-124.  [os.Exit] does not run the deferred calls. *)
Definition client_call (f : client_flags) (creds : option tls_Config) : M E unit :=
  err ← lib (grpc_Dial (cl_dialString f) creds);
  match err with
  | Some err => _ ← lib (Printf ("error connecting: " +:+ err)); exit 1
  | None =>
      response ← lib (grpc_ShouldRateLimit (mkRequest (cl_domain f) (cl_descriptors f) 1));
      match response with
      | inr err => _ ← lib (Printf ("request error: " +:+ err)); exit 1
      | inl response =>
          _ ← lib (Printf ("response: " +:+ response_String response));
          lib grpc_Close
      end
  end.

Definition client_main (f : client_flags) : M E unit :=
  _ ← range (flag_lines f) () (λ _ line _, lib (Printf line));
  tp ← (if decide (cl_oltpProtocol f ≠ "") then tp ← InitTracerProvider (cl_oltpProtocol f); mret (Some tp)
        else mret None);
  deferring
    (creds ← client_credentials f; client_call f creds)
    (match tp with
     | Some tp => _ ← lib (tp_Shutdown tp); mret ()
     | None => mret ()
     end).

(** With TLS the server is verified against the CA file; without, nothing is
    encrypted. *)
Lemma client_credentials_ok f e :
  wp plain_error (client_credentials f) e (λ creds _,
    match creds with
    | Some c => cl_grpcUseTLS f = true ∧
        from_files e (cl_grpcTlsCertFile f) (cl_grpcTlsKeyFile f) (cl_grpcServerTlsCACert f) ServerCA false c
    | None => cl_grpcUseTLS f = false
    end).
Proof.
  unfold client_credentials. destruct (cl_grpcUseTLS f); [|by apply wp_ret].
  eapply wp_bind; [apply TlsConfigFromFiles_ok|]. intros c e1 (_&Hc&_). by apply wp_ret.
Qed.

(** The command succeeds exactly when the server was reached and answered. *)
Lemma client_call_exit f creds e :
  (client_call f creds e).1 =
    match grpc_Dial (cl_dialString f) creds e with
    | (None, e1) =>
        match (grpc_ShouldRateLimit (mkRequest (cl_domain f) (cl_descriptors f) 1) e1).1 with
        | inl _ => Ret ()
        | inr _ => Exit 1
        end
    | (Some _, _) => Exit 1
    end.
Proof.
  unfold client_call, mbind, M_bind, lib. destruct (grpc_Dial _ creds e) as [[err|] e1].
  { by destruct (Printf _ e1). }
  destruct (grpc_ShouldRateLimit _ e1) as [[resp|err] e2]; simpl.
  - destruct (Printf _ e2) as [? e3]. by destruct (grpc_Close e3) as [[] ?].
  - by destruct (Printf _ e2).
Qed.
End client.
